(* ===== verification/_CoqProject ===== *)
-Q . S2P
Prelude.v
HashTable.v
CircularList.v
SiftHeap.v
BinHeap.v
RedBlack.v
RedBlackSpec.v
RedBlackInsert.v
Thread.v
ThreadHeaps.v
Bits.v
Malloc.v
MallocSpec.v
Alloc.v
DynHash.v
Realloc.v
PageAlloc.v
CowTable.v
CpuTables.v
Util.v
ThreadTable.v
MemInit.v
Inode.v
Parport.v
InodeSpec.v
PhysMem.v
PhysMemSpec.v
VirtMem.v
VirtMemSpec.v
VirtMemUnmap.v
VmUnmapOne.v
VmFault.v
VmSafety.v
RwLock.v
Rendezvous.v
Scheduler.v
SchedRep.v
SchedProofs.v
SchedRun.v
SchedSpec.v
ThreadSched.v
ThreadSpec.v
Sync.v
SyncSpec.v
Inherit.v
MutexSpec.v
RwSync.v
