(* ===== verification/Prelude.v ===== *)
(** * A verification of the Metakernel

    The repository is an unfinished kernel for IA-32 multiprocessors: a kernel
    heap and page allocators, a scheduler for threads on several processors,
    mutexes and condition variables with priority inheritance and deadlock
    detection, and the beginnings of virtual memory and a file system.  This
    library models the parts whose logic is their own, function by function,
    and proves what makes them correct.

    ** How the code is modelled

    This file holds what all others share.  Pointers and machine words are [Z]
    with the wrap-around written out ([u32], [s32]).  C functions are state
    transformers in the monad [M], whose failures are explicit: [Fault] for
    undefined behaviour, [Deadlock] for a thread that waits for a lock it holds
    itself or for an event that never comes, [NoFuel] for a loop cut off by the
    bound of the model.  [wp] is the
    total-correctness weakest precondition: [wp m Q s] excludes all three, so a
    theorem that gives an outcome of the form [Done] also says that the code
    returns.  Shared nodes live in stores ([field]), so aliasing is modelled as
    the code has it.  Code outside the repository (instructions such as [cpuid]
    and routines of the kernel that a part only calls, such as [kern_realloc]
    for the scheduler) appears as an argument of the definitions with its
    promise as a class ([HashOk], [ReallocOk], [AllocatorOk]).  For properties
    that most operations only have to keep, [keeps] follows the structure of the
    code down to its primitive operations.

    ** The files

    Containers (include/data_structures.h).  [HashTable]: STAT_HASH_TABLE, a
    refinement of a finite map, with the instance for records in a store that
    the components share.  [DynHash]: HASH_TABLE, whose tables are created at run
    time, equal to the static template once they exist.  [CircularList]:
    CIRCULAR_LIST, with a representation predicate.  [BinHeap]: BINARY_HEAP.
    [SiftHeap]: the sifting shared by three indexed heaps of the kernel, which
    are written by hand.  [RedBlack]: RED_BLACK_TREE on linked nodes.  [RedBlackSpec]: which
    functional tree the nodes represent, positions in it, and every rotation and
    recolouring of the insertion as a step between such trees.  [RedBlackInsert]:
    insertion keeps a search tree balanced; deletion.

    Memory.  [Bits]: the rounding routines of ia_32_round.s, equal to a search
    among the powers of two.  [Malloc]: src/mem/malloc/malloc.c (kern_malloc,
    kern_free, malloc, free and what they call).  [MallocSpec]: the free
    addresses are the abstract state; kern_malloc takes an interval out and
    kern_free puts one back.  [Alloc]: the allocator as an interface, discharged
    by malloc and free.  [Realloc]: kern_realloc, realloc and kern_heap_init, with
    what they do to the free and the live blocks.  [PageAlloc]: page_alloc.c and
    the page half of inv_page_table.c.  [CowTable]: cow_table.c over the
    allocator interface.
    [Util]: util.c, static_alloc.c, ia_32_util.c.

    Files.  [Inode]: inode.c, inode_cache.c and filesys.c over the functions of
    file systems; [InodeSpec]: the cache of inodes and the mounted file systems.
    [Parport]: the driver of the parallel port, dev/parport/parport.c.

    Virtual memory.  [PhysMem]: phys_mem.c and page_cache.c, which fetch pages
    of files and anonymous pages into physical memory; [PhysMemSpec]: the page
    cache.  [VirtMem]: address spaces, objects and their mappings in virt_mem.c,
    over the tree and table templates, the page allocator, [CowTable] and
    [PhysMem].  [VmFault]: the handlers of page faults in the same file.
    [VirtMemSpec]: looking up and adding mappings, creating and destroying
    spaces and objects.  [VirtMemUnmap]: the traversal that takes a space down.
    [VmUnmapOne]: taking out a single mapping.  [VmSafety]: what every operation
    and every fault may ask of the page tables.

    Processors.  [CpuTables]: interrupt gates and cpuid (ia_32_cputabs.c,
    ia_32_interrupt.c).  [MemInit]: the layout of memory at boot, over [Util]
    and [CpuTables] (ia_32_meminit.c and the initialisation of the page
    allocator).

    Threads.  [Thread]: thread.h.  [ThreadTable]: thread_table.c, whose functions
    carry the prefix [thread_table_] here.  [ThreadHeaps]: priority_heap.c and
    affinity_heap.c, one model with two instances.  [Rendezvous]: rendezvous.c
    as a step relation of processors, and exclusion.c for one processor; what the
    others do to its variables meanwhile is a parameter, and a spin that they
    never end is a deadlock.  [Scheduler]:
    scheduler.c with the load balancing of thread_sched.c.  [SchedRep] states
    what a scheduler state means (the sets of threads in its queues) and gives
    the rules of the primitive operations; [SchedProofs], [SchedRun] and
    [SchedSpec] prove the operations against it.  [ThreadSched]: the rest of
    thread_sched.c over all processors; [ThreadSpec]: its contract.

    Synchronisation.  [RwLock]: rw_lock.c as lists of instructions, run by any
    number of threads, an instruction at a time and with arbitrary wake-ups.
    [Sync]: sync.c and the timer interrupt.  [SyncSpec]: deadlock detection.
    [Inherit]: priority inheritance along chains of mutex holders.  [MutexSpec]:
    taking, releasing and sleeping on mutexes; condition variables.  [RwSync]:
    the instructions of [RwLock] over the functions of [Sync].

    ** What the theorems show

    Safety and function: the heap never hands out overlapping blocks; hash
    tables implement maps; the run queues stay ordered and drain in order of
    priority; no thread is lost or duplicated by rescheduling, removal, insertion
    and load balancing, and every operation of the scheduler returns with its
    invariant, except that rescheduling may wait at a rendezvous point; the
    priority of a waiting thread reaches exactly the holders it
    waits for; the readers-writer lock excludes, whatever wake-ups are lost; the
    rendezvous, once initialised, is a barrier.
    Termination and liveness: deadlock detection ends when the chain of holders
    does; processors that keep joining an initialised point get on.  Round
    trips, bounds and the equivalence of the bit scans with a reference are
    stated where the code has them.  A page that was read once is found in the
    page cache, an inode that is no longer used in the inode cache, a mounted
    file system under its inode; the mapping of an address is found, a fault on
    it maps the page; taking an address space down frees exactly its mappings.
    Whatever calls and page faults happen, only whole pages of user space are
    mapped, with no flags but permissions.

    Some theorems show where the code fails: releasing a mutex somebody sleeps
    on, and the first timer interrupt after taking a contended one, dereference
    the null pointer, because [wait_type] is never reset; a broadcast without
    sleepers leaves a lock taken, so that a readers-writer lock is jammed by the
    first write unlock nobody waits for; deadlock detection hangs on a cycle of
    other threads; nothing initialises the rendezvous points of exclusion.c, and
    no processor that joins one ever leaves it; blocks at addresses from 2^31 on
    cannot be freed, because their hash is negative; [kern_realloc] keeps a lock when it may not use the reserve, and
    faults on blocks that already have the requested size.  No object can be
    mapped into an address space, no address space is given back, objects do not
    fit in their blocks; while one anonymous page exists no other is created, and
    at most one thread is ever entered in the table of threads.  Taking a single mapping out of an address
    space leaves a link to freed memory in its tree, deleting a thread one in
    the table.  The binary heap template loses what is inserted, and the
    parallel port sends only the last of the writes it has buffered.

    ** Bounds

    The theorems about the heap hold for a heap below 2^31: above it the code
    itself computes indices outside its table (data_structures.h takes the
    remainder of a signed hash), and the definitions do so too.

    Loops carry fuel.  The theorems either give the fuel that is enough (one
    step per mutex for [detect_deadlock], one level per holder for
    [thread_adjust_priority], one step per block size for the allocator) or the
    definitions use a bound that the theorems show is never reached.

    ** Not modelled

    Some files do not compile as they are.  Where what they mean is plain they
    are modelled with that meaning, and their headers say what was supplied: a
    qualifier and a variable that HASH_TABLE and BINARY_HEAP do not bind, the
    undeclared lock and the field [id] of thread_table.c, a variable of
    parport.c.  swap.c declares no operation, fund_inode.c reads and writes its
    free list through void pointers, thread.c, vm_fault.c, lru_page.c and the
    read-only file system are stubs: there is no code in them whose effect could
    be stated.  The swap device, the functions of a file system, the page table
    routines, the routine that drives the port and the reports of illegal
    accesses are arguments of the definitions that use them or appear as the
    list of calls.  The start-up assembly and the switching of contexts are
    machine code and stay outside. *)

From stdpp Require Export base tactics list gmap sets.
From Stdlib Require Export ZArith Lia ZifyNat ZifyBool.

(** ** Pointers and machine integers *)

(** A C pointer is its 32-bit address; the null pointer is address 0
    (include/definitions.h). *)
Abbreviation ptr := Z (only parsing).
Definition NULL : ptr := 0%Z.

(** [unsigned int] arithmetic wraps modulo 2^32; [int] is the two's complement
    reading of the same word. *)
Definition u32 (x : Z) : Z := x mod 2 ^ 32.
Definition s32 (x : Z) : Z :=
  let y := u32 x in if (y <? 2 ^ 31)%Z then y else (y - 2 ^ 32)%Z.

(** ** The effect monad

    The kernel's C functions are modelled as state transformers with explicit
    failure: [Fault] is undefined behaviour (a null or wild dereference, an
    array access out of bounds), [Deadlock] is a thread waiting for a lock it
    holds itself or spinning for an event that never comes, and [NoFuel] means that a loop was cut off by the bound of
    the model.  The theorems show that none of the three happens. *)
Inductive outcome (A : Type) : Type :=
| Done (a : A)
| Fault
| Deadlock
| NoFuel.
Arguments Done {A} a.
Arguments Fault {A}.
Arguments Deadlock {A}.
Arguments NoFuel {A}.

Definition M (St A : Type) : Type := St → outcome (A * St).

Global Instance M_ret St : MRet (M St) := λ A a s, Done (a, s).
Global Instance M_bind St : MBind (M St) := λ A B f m s,
  match m s with
  | Done (a, s') => f a s'
  | Fault => Fault
  | Deadlock => Deadlock
  | NoFuel => NoFuel
  end.

Definition fault {St A} : M St A := λ _, Fault.
Definition gets {St A} (f : St → A) : M St A := λ s, Done (f s, s).
Definition modify {St} (f : St → St) : M St unit := λ s, Done (tt, f s).
Definition getopt {St A} (f : St → option A) : M St A :=
  λ s, match f s with Some a => Done (a, s) | None => Fault end.
Definition putopt {St} (f : St → option St) : M St unit :=
  λ s, match f s with Some s' => Done (tt, s') | None => Fault end.

(** A lock is a boolean in the state; taking one that is already held by the
    running thread never returns. *)
Definition lock {St} (held : St → bool) (set : bool → St → St) : M St unit :=
  λ s, if held s then Deadlock else Done (tt, set true s).
Definition unlock {St} (set : bool → St → St) : M St unit :=
  λ s, Done (tt, set false s).

(** C loops: the body either goes round again or leaves with a value. *)
Abbreviation Continue := inl (only parsing).
Abbreviation Break := inr (only parsing).

Fixpoint loop {St A B} (fuel : nat) (body : A → M St (A + B)) (a : A) : M St B :=
  match fuel with
  | O => λ _, NoFuel
  | S n => r ← body a;
           match r with
           | inl a' => loop n body a'
           | inr b => mret b
           end
  end.

(** Running an operation on a part of a larger state. *)
Definition zoom {St T A} (get : St → T) (put : T → St → St) (m : M T A) : M St A :=
  λ s, match m (get s) with
       | Done (a, t) => Done (a, put t s)
       | Fault => Fault
       | Deadlock => Deadlock
       | NoFuel => NoFuel
       end.

(** [for(i = i0; i < n; i++) body(i)], counting with a natural number. *)
Fixpoint for_upto {St} (n : nat) (i : Z) (body : Z → M St unit) : M St unit :=
  match n with
  | O => mret tt
  | S n' => body i;; for_upto n' (i + 1)%Z body
  end.

(** ** Total-correctness weakest preconditions *)

Definition wp {St A} (m : M St A) (Q : A → St → Prop) (s : St) : Prop :=
  match m s with Done (a, s') => Q a s' | _ => False end.

Section wp_rules.
Context {St : Type}.
Implicit Types s : St.

Lemma wp_Done {A} (m : M St A) Q s :
  wp m Q s ↔ ∃ a s', m s = Done (a, s') ∧ Q a s'.
Proof.
  unfold wp. destruct (m s) as [[a s']| | |]; naive_solver.
Qed.

Lemma wp_ret {A} (a : A) (Q : A → St → Prop) s : Q a s → wp (mret a) Q s.
Proof. done. Qed.

Lemma wp_bind {A B} (m : M St A) (f : A → M St B) Q s :
  wp m (λ a s', wp (f a) Q s') s → wp (m ≫= f) Q s.
Proof.
  unfold wp, mbind, M_bind. destruct (m s) as [[a s']| | |]; naive_solver.
Qed.

(** Running the first part of a sequence whose effect is known. *)
Lemma bind_wp {A B} (m : M St A) (f : A → M St B) s a s' :
  wp m (λ r x, r = a ∧ x = s') s → (m ≫= f) s = f a s'.
Proof.
  unfold wp, mbind, M_bind. destruct (m s) as [[b x]| | |]; [|done..]. by intros [-> ->].
Qed.

(** The outcome of a sequence whose first part succeeds, and of one whose first
    part does not. *)
Lemma bind_out {A B} (m : M St A) (f : A → M St B) s o :
  wp m (λ a x, f a x = o) s → (m ≫= f) s = o.
Proof. unfold wp, mbind, M_bind. by destruct (m s) as [[b x]| | |]. Qed.

(** A sequence that returns, its first part returned. *)
Lemma bind_done {A B} (m : M St A) (f : A → M St B) s r :
  (m ≫= f) s = Done r → ∃ a s', m s = Done (a, s') ∧ f a s' = Done r.
Proof. unfold mbind, M_bind. destruct (m s) as [[a s']| | |]; [by eauto|done..]. Qed.

Lemma fault_bind {A B} (m : M St A) (f : A → M St B) s : m s = Fault → (m ≫= f) s = Fault.
Proof. unfold mbind, M_bind. by intros ->. Qed.

Lemma deadlock_bind {A B} (m : M St A) (f : A → M St B) s :
  m s = Deadlock → (m ≫= f) s = Deadlock.
Proof. unfold mbind, M_bind. by intros ->. Qed.

Lemma run_wp {A} (m : M St A) s a s' : wp m (λ r x, r = a ∧ x = s') s → m s = Done (a, s').
Proof. unfold wp. destruct (m s) as [[b x]| | |]; [|done..]. by intros [-> ->]. Qed.

Lemma wp_run {A} (m : M St A) s a (P : St → Prop) :
  wp m (λ r x, r = a ∧ P x) s → ∃ s', m s = Done (a, s') ∧ P s'.
Proof. unfold wp. destruct (m s) as [[b x]| | |]; [|done..]. intros [-> HP]. by exists x. Qed.

Lemma wp_mono {A} (m : M St A) (P Q : A → St → Prop) s :
  wp m P s → (∀ a s', P a s' → Q a s') → wp m Q s.
Proof. unfold wp. destruct (m s) as [[a s']| | |]; naive_solver. Qed.

Lemma wp_gets {A} (f : St → A) (Q : A → St → Prop) s :
  Q (f s) s → wp (gets f) Q s.
Proof. done. Qed.

Lemma wp_modify (f : St → St) (Q : unit → St → Prop) s :
  Q tt (f s) → wp (modify f) Q s.
Proof. done. Qed.

Lemma wp_getopt {A} (f : St → option A) a (Q : A → St → Prop) s :
  f s = Some a → Q a s → wp (getopt f) Q s.
Proof. unfold wp, getopt. by intros ->. Qed.

Lemma wp_putopt (f : St → option St) s' (Q : unit → St → Prop) s :
  f s = Some s' → Q tt s' → wp (putopt f) Q s.
Proof. unfold wp, putopt. by intros ->. Qed.

Lemma wp_lock (held : St → bool) set (Q : unit → St → Prop) s :
  held s = false → Q tt (set true s) → wp (lock held set) Q s.
Proof. unfold wp, lock. by intros ->. Qed.

Lemma wp_unlock (set : bool → St → St) (Q : unit → St → Prop) s :
  Q tt (set false s) → wp (unlock set) Q s.
Proof. done. Qed.

(** A loop terminates when a measure decreases, and the fuel only has to
    exceed the measure. *)
Lemma wp_loop {A B} (I : A → St → Prop) (μ : A → St → nat)
    (body : A → M St (A + B)) (Q : B → St → Prop) fuel a s :
  (∀ a s, I a s →
     wp (body a) (λ r s', match r with
                          | inl a' => I a' s' ∧ μ a' s' < μ a s
                          | inr b => Q b s'
                          end) s) →
  I a s → μ a s < fuel → wp (loop fuel body a) Q s.
Proof.
  intros Hbody. revert a s.
  induction fuel as [|n IH]; intros a s HI Hlt; [lia|]; simpl.
  apply wp_bind. eapply wp_mono; [by apply Hbody|].
  intros [a'|b] s'; simpl; [|done].
  intros [HI' Hdec]. apply IH; [done|lia].
Qed.

Lemma wp_zoom {T A} (get : St → T) put (m : M T A) (Q : A → St → Prop) s :
  wp m (λ a t, Q a (put t s)) (get s) → wp (zoom get put m) Q s.
Proof.
  unfold wp, zoom. destruct (m (get s)) as [[a t]| | |]; done.
Qed.

Lemma wp_for_upto (I : Z → St → Prop) (body : Z → M St unit) n i s :
  (∀ j s, (i ≤ j < i + Z.of_nat n)%Z → I j s →
          wp (body j) (λ _ s', I (j + 1)%Z s') s) →
  I i s → wp (for_upto n i body) (λ _ s', I (i + Z.of_nat n)%Z s') s.
Proof.
  revert i s. induction n as [|n IH]; intros i s Hbody HI.
  - simpl. unfold wp, mret, M_ret. by rewrite Z.add_0_r.
  - cbn [for_upto]. apply wp_bind. eapply wp_mono; [apply Hbody; [lia|done]|].
    intros [] s' HI'. eapply wp_mono; [apply IH; [|done]|].
    + intros j s'' Hj. apply Hbody. lia.
    + intros ? s''; simpl. by replace (i + Z.of_nat (S n))%Z
        with (i + 1 + Z.of_nat n)%Z by lia.
Qed.
End wp_rules.

(** ** Partial correctness, for calls of code that may not return *)

Definition wlp {St A} (m : M St A) (Q : A → St → Prop) (s : St) : Prop :=
  ∀ a s', m s = Done (a, s') → Q a s'.

Section wlp_rules.
Context {St : Type}.
Implicit Types s : St.

Lemma wlp_bind {A B} (m : M St A) (f : A → M St B) Q s :
  wlp m (λ a s', wlp (f a) Q s') s → wlp (m ≫= f) Q s.
Proof. intros H b s' (a & s1 & Hm & Hf)%bind_done. by eapply H. Qed.

Lemma wp_wlp {A} (m : M St A) Q s : wp m Q s → wlp m Q s.
Proof. unfold wp. intros H a s' Hm. by rewrite Hm in H. Qed.

Lemma wlp_mono {A} (m : M St A) (P Q : A → St → Prop) s :
  wlp m P s → (∀ a s', P a s' → Q a s') → wlp m Q s.
Proof. intros HP HPQ a s' Hm. by apply HPQ, HP. Qed.

Lemma wlp_ret {A} (a : A) (Q : A → St → Prop) s : Q a s → wlp (mret a) Q s.
Proof. intros H b s' [= <- <-]. exact H. Qed.

Lemma wlp_putopt (f : St → option St) (Q : unit → St → Prop) s :
  (∀ s', f s = Some s' → Q tt s') → wlp (putopt f) Q s.
Proof. unfold wlp, putopt. intros H [] s'. destruct (f s) eqn:Hf; [|done]. intros [= <-]. by apply H. Qed.

Lemma wlp_lock (held : St → bool) set (Q : unit → St → Prop) s :
  (held s = false → Q tt (set true s)) → wlp (lock held set) Q s.
Proof. unfold wlp, lock. intros H [] s'. destruct (held s); [done|]. intros [= <-]. by apply H. Qed.
End wlp_rules.

(** ** Operations that keep a property of the state

    [keeps P m]: whenever [m] returns from a state with [P], the final state has
    [P].  The rules follow the structure of the code, so that [auto] with the
    rules of the primitive operations proves [keeps] of most code. *)
Section keeps.
Context {St : Type} (P : St → Prop).

Definition keeps {A} (m : M St A) : Prop := ∀ s, P s → wlp m (λ _ s', P s') s.

Lemma keeps_ret {A} (a : A) : keeps (mret a).
Proof. intros s Hs. by apply wlp_ret. Qed.

Lemma keeps_fault {A} : keeps (@fault St A).
Proof. by intros s Hs a s'. Qed.

Lemma keeps_bind {A B} (m : M St A) (f : A → M St B) :
  keeps m → (∀ a, keeps (f a)) → keeps (m ≫= f).
Proof.
  intros Hm Hf s Hs. apply wlp_bind. eapply wlp_mono; [by apply Hm|]. intros a s'. apply Hf.
Qed.

Lemma keeps_gets {A} (f : St → A) : keeps (gets f).
Proof. intros s Hs a s' [= _ <-]. exact Hs. Qed.

Lemma keeps_getopt {A} (f : St → option A) : keeps (getopt f).
Proof. intros s Hs a s'. unfold getopt. destruct (f s); [|done]. by intros [= _ <-]. Qed.

Lemma keeps_modify (f : St → St) : (∀ s, P s → P (f s)) → keeps (modify f).
Proof. intros Hf s Hs [] s' [= <-]. by apply Hf. Qed.

Lemma keeps_putopt (f : St → option St) :
  (∀ s s', P s → f s = Some s' → P s') → keeps (putopt f).
Proof. intros Hf s Hs. apply wlp_putopt. intros s'. by apply Hf. Qed.

Lemma keeps_lock (held : St → bool) set : (∀ s, P s → P (set true s)) → keeps (lock held set).
Proof. intros Hf s Hs. apply wlp_lock. intros _. by apply Hf. Qed.

Lemma keeps_unlock (set : bool → St → St) : (∀ s, P s → P (set false s)) → keeps (unlock set).
Proof. apply keeps_modify. Qed.

Lemma keeps_loop {A B} fuel (body : A → M St (A + B)) a :
  (∀ a, keeps (body a)) → keeps (loop fuel body a).
Proof.
  intros Hb. revert a. induction fuel as [|n IH]; intros a; [by intros s Hs b s'|].
  apply keeps_bind; [done|]. intros [a'|b]; [apply IH|apply keeps_ret].
Qed.

Lemma keeps_for_upto n i (body : Z → M St unit) :
  (∀ j, keeps (body j)) → keeps (for_upto n i body).
Proof.
  intros Hb. revert i. induction n as [|n IH]; intros i; [apply keeps_ret|].
  by apply keeps_bind.
Qed.

Lemma keeps_zoom {T A} (get : St → T) put (m : M T A) :
  (∀ s t, P s → P (put t s)) → keeps (zoom get put m).
Proof.
  intros Hp s Hs a s'. unfold zoom. destruct (m (get s)) as [[b t]| | |]; [|done..].
  intros [= _ <-]. by apply Hp.
Qed.

Lemma keeps_if {A} (b : bool) (m n : M St A) : keeps m → keeps n → keeps (if b then m else n).
Proof. by destruct b. Qed.
End keeps.

(** Taking and releasing a mutex of a set. *)
Lemma lock_unlock `{Countable K} (l : K) (h : gset K) : l ∉ h → ({[l]} ∪ h) ∖ {[l]} = h.
Proof. set_solver. Qed.

Create HintDb kernel discriminated.

Create HintDb keeps discriminated.
#[export] Hint Resolve keeps_ret keeps_fault keeps_gets keeps_getopt : keeps.

(** Following the structure of an operation down to its primitive operations,
    which the hints know. *)
Ltac keeps_step :=
  match goal with
  | |- keeps _ (mbind _ _) => apply keeps_bind; [|intros ?]
  | |- keeps _ (loop _ _ _) => apply keeps_loop; intros ?
  | |- keeps _ (for_upto _ _ _) => apply keeps_for_upto; intros ?
  | |- keeps _ (match ?x with _ => _ end) => destruct x
  | |- _ => solve [auto with keeps]
  end.
Ltac keeps_steps := repeat (cbn zeta; keeps_step).

(** One step of symbolic execution. *)
Ltac wp_step :=
  match goal with
  | |- wp (mbind _ _) _ _ => apply wp_bind
  | |- wp (mret _) _ _ => apply wp_ret
  | |- wp (gets _) _ _ => apply wp_gets
  | |- wp (modify _) _ _ => apply wp_modify
  | |- wp (unlock _) _ _ => apply wp_unlock
  | |- wp (lock _ _) _ _ => apply wp_lock; [by auto|]
  | |- wp (zoom _ _ _) _ _ => apply wp_zoom
  | |- wp (if ?b then _ else _) _ _ => destruct b eqn:?
  end.
Ltac wp_steps := repeat (wp_step; cbn beta).

(** ** Fields of nodes in a store

    The macros of include/data_structures.h are parameterised by accessor
    macros ([next(x)], [left(x)], ...).  A [field] is such an accessor over an
    arbitrary kernel state: reading or writing it at an address that holds no
    node fails. *)
Record field (St V : Type) := Field {
  fget : St → ptr → option V;
  fset : St → ptr → V → option St;
}.
Arguments Field {St V}.
Arguments fget {St V}.
Arguments fset {St V}.

Definition load {St V} (f : field St V) (p : ptr) : M St V := getopt (λ s, fget f s p).
Definition store {St V} (f : field St V) (p : ptr) (v : V) : M St unit :=
  putopt (λ s, fset f s p v).

Class FieldOk {St V} (f : field St V) : Prop := {
  fget_fset_eq s p v s' : fset f s p v = Some s' → fget f s' p = Some v;
  fget_fset_ne s p v s' q : fset f s p v = Some s' → p ≠ q → fget f s' q = fget f s q;
  fset_ok s p v : is_Some (fget f s p) → is_Some (fset f s p v);
}.

Arguments fget_fset_eq {St V} f {_}.
Arguments fget_fset_ne {St V} f {_}.
Arguments fset_ok {St V} f {_}.

(** Writing [f] does not change the observation [obs]. *)
Class Stable {St V T} (f : field St V) (obs : St → T) : Prop :=
  stable s p v s' : fset f s p v = Some s' → obs s' = obs s.

(** Writing [f] does not change the field [g]. *)
Class Indep {St V W} (f : field St V) (g : field St W) : Prop :=
  indep q : Stable f (λ s, fget g s q).
Global Existing Instance indep.

Section field_rules.
Context {St V : Type} (f : field St V) `{!FieldOk f}.

Lemma wp_load s p v (Q : V → St → Prop) :
  fget f s p = Some v → Q v s → wp (load f p) Q s.
Proof. intros Hv HQ. by apply (wp_getopt (λ s, fget f s p) v). Qed.

Lemma wp_store s p v (Q : unit → St → Prop) :
  is_Some (fget f s p) →
  (∀ s', fset f s p v = Some s' → Q tt s') → wp (store f p v) Q s.
Proof.
  intros Hp HQ. destruct (fset_ok f s p v Hp) as [s' Hs'].
  apply (wp_putopt (λ s, fset f s p v) s'); eauto.
Qed.

Lemma keeps_load (P : St → Prop) p : keeps P (load f p).
Proof. apply keeps_getopt. Qed.

Lemma keeps_store (P : St → Prop) p v :
  (∀ s s', P s → fset f s p v = Some s' → P s') → keeps P (store f p v).
Proof. apply keeps_putopt. Qed.

Lemma fset_valid s p v s' q :
  fset f s p v = Some s' → is_Some (fget f s q) → is_Some (fget f s' q).
Proof.
  intros Hs Hq. destruct (decide (p = q)) as [->|Hne].
  - erewrite (fget_fset_eq f) by done. eauto.
  - by erewrite (fget_fset_ne f).
Qed.
End field_rules.

#[export] Hint Resolve keeps_load : keeps.

(** Fields of records kept in a finite store inside the state. *)
Section store_fields.
Context {St N : Type} (get : St → gmap ptr N) (put : gmap ptr N → St → St).

Definition node_field {V} (proj : N → V) (upd : V → N → N) : field St V :=
  Field (λ s p, proj <$> get s !! p)
        (λ s p v, match get s !! p with
                  | Some n => Some (put (<[p := upd v n]> (get s)) s)
                  | None => None
                  end).

Class LensOk : Prop := {
  get_put m s : get (put m s) = m;
}.

Lemma node_field_ok {V} `{!LensOk} (proj : N → V) upd :
  (∀ v n, proj (upd v n) = v) → FieldOk (node_field proj upd).
Proof.
  intros Hpu. split; simpl.
  - intros s p v s'. destruct (get s !! p); [|done]. intros [= <-].
    by rewrite get_put, lookup_insert_eq; simpl; rewrite Hpu.
  - intros s p v s' q. destruct (get s !! p); [|done]. intros [= <-] Hne.
    by rewrite get_put, lookup_insert_ne.
  - intros s p v [w Hw]. destruct (get s !! p); [eauto|done].
Qed.

Lemma node_field_indep {V W} `{!LensOk} (proj : N → V) upd (proj' : N → W) upd' :
  (∀ v n, proj' (upd v n) = proj' n) →
  Indep (node_field proj upd) (node_field proj' upd').
Proof.
  intros Hpu q s p v s'; simpl. destruct (get s !! p) eqn:Hp; [|done].
  intros [= <-]. rewrite get_put. destruct (decide (p = q)) as [->|Hne].
  - rewrite lookup_insert_eq, Hp. simpl. by rewrite Hpu.
  - by rewrite lookup_insert_ne.
Qed.

Lemma node_field_stable {V T} (proj : N → V) upd (obs : St → T) :
  (∀ m s, obs (put m s) = obs s) → Stable (node_field proj upd) obs.
Proof.
  intros Hobs s p v s'; simpl. destruct (get s !! p); [|done].
  intros [= <-]. apply Hobs.
Qed.

Lemma node_field_stable_dom {V} `{!LensOk} (proj : N → V) upd :
  Stable (node_field proj upd) (λ s, dom (get s)).
Proof.
  intros s p v s'; simpl. destruct (get s !! p) eqn:Hp; [|done].
  intros [= <-]. rewrite get_put, dom_insert_lookup_L; [done|eauto].
Qed.
End store_fields.

(** ** Chains: null-terminated singly linked lists in a store *)
Section chain.
Context {St : Type} (f : field St ptr).

Fixpoint chain (s : St) (p : ptr) (l : list ptr) : Prop :=
  match l with
  | [] => p = NULL
  | x :: l' => p = x ∧ x ≠ NULL ∧ ∃ q, fget f s x = Some q ∧ chain s q l'
  end.

Lemma chain_det s p l1 l2 : chain s p l1 → chain s p l2 → l1 = l2.
Proof.
  revert p l2. induction l1 as [|x l1 IH]; intros p [|y l2]; simpl;
    [done|naive_solver|naive_solver|].
  intros (-> & _ & q & Hq & H1) (-> & _ & q' & Hq' & H2).
  rewrite Hq in Hq'; simplify_eq. f_equal; eauto.
Qed.

Lemma chain_app s p l1 l2 :
  chain s p (l1 ++ l2) → ∃ q, chain s q l2 ∧
    (∀ r, head l2 = Some r → q = r).
Proof.
  revert p. induction l1 as [|x l1 IH]; intros p; simpl.
  - intros H. exists p. split; [done|]. destruct l2; naive_solver.
  - intros (_ & _ & q & _ & H). eauto.
Qed.

Lemma chain_valid s p l x : chain s p l → x ∈ l → x ≠ NULL ∧ is_Some (fget f s x).
Proof.
  revert p. induction l as [|y l IH]; intros p; simpl; [set_solver|].
  intros (-> & Hy & q & Hq & H) [->|Hx]%elem_of_cons; [eauto|eauto].
Qed.

Lemma chain_NoDup s p l : chain s p l → NoDup l.
Proof.
  revert p. induction l as [|x l IH]; intros p Hc; [constructor|].
  constructor; [|destruct Hc as (_ & _ & q & _ & H); eauto].
  intros (l1 & l2 & ->)%list_elem_of_split.
  destruct (chain_app s p (x :: l1) (x :: l2) Hc) as (q & Hq & Hhd).
  rewrite (Hhd x) in Hq by done.
  assert (p = x) as -> by (destruct Hc; done).
  pose proof (chain_det _ _ _ _ Hc Hq) as Heq.
  apply (f_equal length) in Heq. simpl in Heq. rewrite length_app in Heq.
  simpl in Heq. lia.
Qed.

(** A write outside the chain leaves it in place. *)
Lemma chain_frame s s' p l :
  (∀ x, x ∈ l → fget f s' x = fget f s x) → chain s p l → chain s' p l.
Proof.
  revert p. induction l as [|x l IH]; intros p Heq; simpl; [done|].
  intros (-> & Hx & q & Hq & H). split_and!; [done|done|].
  exists q. rewrite Heq by set_solver. split; [done|].
  apply IH; [|done]. intros y Hy. apply Heq. set_solver.
Qed.

Lemma chain_null s p l : chain s p l → p = NULL → l = [].
Proof. destruct l; naive_solver. Qed.

Lemma chain_nonnull s p l :
  chain s p l → p ≠ NULL → ∃ q l', l = p :: l' ∧ fget f s p = Some q ∧ chain s q l'.
Proof. destruct l; naive_solver. Qed.
End chain.

(** ** Generic lemmas *)

(** Exchanging two elements of a list. *)
Lemma swap_perm {E} (v : list E) i p a b :
  i ≠ p → v !! i = Some a → v !! p = Some b → <[p := a]> (<[i := b]> v) ≡ₚ v.
Proof.
  intros Hne Hi Hp. apply Permutation_inj. split; [by rewrite !length_insert|].
  pose proof (lookup_lt_Some _ _ _ Hi). pose proof (lookup_lt_Some _ _ _ Hp).
  exists (λ j, if decide (j = p) then i else if decide (j = i) then p else j). split.
  - intros x y. repeat case_decide; lia.
  - intros j. repeat case_decide; subst.
    + by rewrite list_lookup_insert_eq by (by rewrite length_insert).
    + by rewrite list_lookup_insert_ne, list_lookup_insert_eq by done.
    + by rewrite !list_lookup_insert_ne by done.
Qed.

(** ** Counting the threads at a program counter *)
Section in_pc.
Context {A : Type} `{!EqDecision A}.
Implicit Types (m : gmap nat A) (p q r : A).

Definition in_pc p m : nat := base.size (filter (λ kv, kv.2 = p) m).

Lemma in_pc_delete q r t m :
  m !! t = Some q → in_pc r m = (in_pc r (delete t m) + if decide (q = r) then 1 else 0)%nat.
Proof.
  intros Ht. unfold in_pc. rewrite <-(insert_delete_id m t q Ht) at 1.
  assert (delete t m !! t = None) as Hm0 by apply lookup_delete_eq.
  case_decide as Hx.
  - rewrite map_filter_insert_True by done.
    rewrite map_size_insert_None; [lia|]. apply map_lookup_filter_None. by left.
  - rewrite map_filter_insert_False, delete_id by done. lia.
Qed.

Lemma in_pc_insert p q r t m :
  m !! t = Some q →
  (in_pc r (<[t := p]> m) + (if decide (q = r) then 1 else 0) =
   in_pc r m + (if decide (p = r) then 1 else 0))%nat.
Proof.
  intros Ht. rewrite (in_pc_delete q r t m Ht).
  rewrite (in_pc_delete p r t (<[t := p]> m)) by apply lookup_insert_eq.
  rewrite delete_insert_eq. lia.
Qed.

Lemma in_pc_pos t p m : m !! t = Some p → (0 < in_pc p m)%nat.
Proof. intros Ht. rewrite (in_pc_delete p p t m Ht), decide_True by done. lia. Qed.

Lemma in_pc_two m t u p :
  m !! t = Some p → m !! u = Some p → t ≠ u → (2 ≤ in_pc p m)%nat.
Proof.
  intros Ht Hu Hne. rewrite (in_pc_delete p p t m Ht), decide_True by done.
  pose proof (in_pc_pos u p (delete t m)) as H. rewrite lookup_delete_ne in H by done.
  specialize (H Hu). lia.
Qed.

Lemma in_pc_ex p m : (0 < in_pc p m)%nat → ∃ t, m !! t = Some p.
Proof.
  unfold in_pc. intros H.
  destruct (map_choose (filter (λ kv : nat * A, kv.2 = p) m)) as (t & q & Hq).
  { intros He. rewrite He, map_size_empty in H. lia. }
  apply map_lookup_filter_Some in Hq as [Hq Hp]. simpl in Hp. subst. eauto.
Qed.

Lemma in_pc_zero p m : (∀ t, m !! t ≠ Some p) → in_pc p m = 0%nat.
Proof.
  intros Hm. destruct (decide (in_pc p m = 0%nat)) as [|Hne]; [done|].
  destruct (in_pc_ex p m) as [t Ht]; [lia|]. by destruct (Hm t).
Qed.

Lemma in_pc_le p m : (in_pc p m ≤ base.size m)%nat.
Proof. apply map_subseteq_size, map_filter_subseteq. Qed.

(** All threads but one are at [p]. *)
Lemma in_pc_others p q t m :
  S (in_pc p m) = base.size m → m !! t = Some q → q ≠ p →
  ∀ u r, u ≠ t → m !! u = Some r → r = p.
Proof.
  intros Hsz Ht Hq u r Hu Hr. destruct (decide (r = p)) as [|Hrp]; [done|]. exfalso.
  pose proof (in_pc_delete q p t m Ht) as H1. rewrite decide_False in H1 by done.
  assert (delete t m !! u = Some r) as Hr' by (by rewrite lookup_delete_ne).
  pose proof (in_pc_delete r p u _ Hr') as H2. rewrite decide_False in H2 by done.
  pose proof (in_pc_le p (delete u (delete t m))) as H3.
  rewrite !map_size_delete_Some in H3 by eauto.
  pose proof (in_pc_pos u r _ Hr') as H4. pose proof (in_pc_le r (delete t m)) as H5.
  rewrite map_size_delete_Some in H5 by eauto. lia.
Qed.
End in_pc.

(** The threads are the numbers below [n], all at [p]. *)
Definition all_at {A} (n : nat) (p : A) : gmap nat A :=
  list_to_map ((λ t, (t, p)) <$> seq 0 n).

Lemma all_at_lookup {A} n (p q : A) t : all_at n p !! t = Some q → q = p.
Proof.
  intros Hp. apply elem_of_list_to_map_2 in Hp.
  by apply list_elem_of_fmap in Hp as (? & [= _ ->] & _).
Qed.

Lemma all_at_size {A} n (p : A) : base.size (all_at n p) = n.
Proof.
  unfold all_at. rewrite map_size_list_to_map; [by rewrite length_fmap, length_seq|].
  rewrite <-list_fmap_compose, list_fmap_id. apply NoDup_seq.
Qed.

Lemma u32_range x : (0 ≤ u32 x < 2 ^ 32)%Z.
Proof. unfold u32. apply Z.mod_pos_bound. lia. Qed.

Lemma u32_small x : (0 ≤ x < 2 ^ 32)%Z → u32 x = x.
Proof. apply Z.mod_small. Qed.

Lemma s32_small x : (0 ≤ x < 2 ^ 31)%Z → s32 x = x.
Proof.
  intros Hx. unfold s32. rewrite u32_small by lia.
  destruct (Z.ltb_spec x (2 ^ 31)); lia.
Qed.

#[export] Hint Resolve u32_range u32_small s32_small : kernel.
