(* ===== verification/HashTable.v ===== *)
(** * The hash table template of include/data_structures.h

    [STAT_HASH_TABLE] generates, for a node type and its accessor macros, the
    functions [insert], [lookup] and [delete] over an array of singly linked
    buckets.  The template is modelled once over an arbitrary kernel state
    ([hash_ops] holds the macro arguments, [HashOk] their laws) and
    instantiated by the components that expand the macro.  The theorems give
    the template's contract twice: bucket by bucket, for any [unique_eq], and
    as a refinement of a finite map when [unique_eq] is equality. *)

From S2P Require Import Prelude.
From stdpp Require Import functions.

(** The macro arguments: [next], [unique_id], [unique_eq], [hash_func],
    [size], and the array of buckets. *)
Record hash_ops (St K : Type) := HashOps {
  ht_next : field St ptr;
  ht_id : St → ptr → option K;
  ht_eq : K → K → bool;
  ht_hash : St → K → option Z;
  ht_size : Z;
  ht_slot : St → Z → ptr;
  ht_set_slot : Z → ptr → St → St;
  ht_fuel : St → nat;
}.
Arguments HashOps {St K}.
Arguments ht_next {St K}.
Arguments ht_id {St K}.
Arguments ht_eq {St K}.
Arguments ht_hash {St K}.
Arguments ht_size {St K}.
Arguments ht_slot {St K}.
Arguments ht_set_slot {St K}.
Arguments ht_fuel {St K}.

(** An observation that neither links nor bucket heads can change. *)
Class HashFrame {St K T} (H : hash_ops St K) (obs : St → T) : Prop := {
  hf_next : Stable (ht_next H) obs;
  hf_slot i p s : obs (ht_set_slot H i p s) = obs s;
}.

Class HashOk {St K} (H : hash_ops St K) : Prop := {
  hk_next : FieldOk (ht_next H);
  hk_size : (0 < ht_size H < 2 ^ 32)%Z;
  hk_next_slot i : Stable (ht_next H) (λ s, ht_slot H s i);
  hk_id p : HashFrame H (λ s, ht_id H s p);
  hk_hash k : HashFrame H (λ s, ht_hash H s k);
  hk_slot_next i p s q : fget (ht_next H) (ht_set_slot H i p s) q = fget (ht_next H) s q;
  hk_slot_eq i p s : ht_slot H (ht_set_slot H i p s) i = p;
  hk_slot_ne i j p s : i ≠ j → ht_slot H (ht_set_slot H i p s) j = ht_slot H s j;
  hk_fuel s l : NoDup l → (∀ x, x ∈ l → is_Some (fget (ht_next H) s x)) →
    length l < ht_fuel H s;
}.
Global Existing Instances hk_next.

Section template.
Context {St K : Type} (H : hash_ops St K).

(** [index = hash_func(key) % size], where [index] is an [unsigned int]: the
    remainder of a negative hash is negative and becomes an index far outside
    the array. *)
Definition bucket_index (h : Z) : Z := u32 (Z.rem h (ht_size H)).
Definition index_of (s : St) (key : K) : option Z :=
  h ← ht_hash H s key;
  if (bucket_index h <? ht_size H)%Z then Some (bucket_index h) else None.
Definition hash_index (key : K) : M St Z := getopt (λ s, index_of s key).

Definition hash_table_insert (inn : ptr) : M St K :=
  key ← getopt (λ s, ht_id H s inn);
  index ← hash_index key;
  hd ← gets (λ s, ht_slot H s index);
  store (ht_next H) inn hd;;
  modify (ht_set_slot H index inn);;
  mret key.

(** One round of the [while(null != curr)] loop of the lookup. *)
Definition lookup_step (key : K) (curr : ptr) : M St (ptr + ptr) :=
  if (curr =? NULL)%Z then mret (Break NULL) else
  k ← getopt (λ s, ht_id H s curr);
  if ht_eq H k key then mret (Break curr) else
  nxt ← load (ht_next H) curr;
  mret (Continue nxt).

Definition hash_table_lookup (key : K) : M St ptr :=
  index ← hash_index key;
  curr ← gets (λ s, ht_slot H s index);
  fuel ← gets (ht_fuel H);
  loop fuel (lookup_step key) curr.

(** One round of the delete loop; the state is the pair [(last, curr)]. *)
Definition delete_step (key : K) (lc : ptr * ptr) : M St ((ptr * ptr) + ptr) :=
  let '(last, curr) := lc in
  if (curr =? NULL)%Z then mret (Break NULL) else
  k ← getopt (λ s, ht_id H s curr);
  if ht_eq H k key then
    nxt ← load (ht_next H) curr;
    store (ht_next H) last nxt;;
    mret (Break curr)
  else
    nxt ← load (ht_next H) curr;
    mret (Continue (curr, nxt)).

Definition hash_table_delete (key : K) : M St ptr :=
  index ← hash_index key;
  curr ← gets (λ s, ht_slot H s index);
  if (curr =? NULL)%Z then mret NULL else
  k ← getopt (λ s, ht_id H s curr);
  if ht_eq H k key then
    nxt ← load (ht_next H) curr;
    modify (ht_set_slot H index nxt);;
    mret curr
  else
    nxt ← load (ht_next H) curr;
    fuel ← gets (ht_fuel H);
    loop fuel (delete_step key) (curr, nxt).
End template.

(** A property that relinking keeps is kept by the operations. *)
Section keeps.
Context {St K : Type} (H : hash_ops St K) (P : St → Prop).
Hypothesis Hnext : ∀ p v, keeps P (store (ht_next H) p v).
Hypothesis Hslot : ∀ i p s, P s → P (ht_set_slot H i p s).

Lemma hash_insert_keeps inn : keeps P (hash_table_insert H inn).
Proof. unfold hash_table_insert, hash_index. keeps_steps. apply keeps_modify, Hslot. Qed.

Lemma hash_lookup_keeps key : keeps P (hash_table_lookup H key).
Proof. unfold hash_table_lookup, hash_index, lookup_step. keeps_steps. Qed.

Lemma hash_delete_keeps key : keeps P (hash_table_delete H key).
Proof. unfold hash_table_delete, hash_index, delete_step. keeps_steps. apply keeps_modify, Hslot. Qed.
End keeps.

(** ** Bucket-level contract *)

Section spec.
Context {St K : Type} (H : hash_ops St K) `{!HashOk H}.

Definition matches (s : St) (key : K) (x : ptr) : bool :=
  match ht_id H s x with Some k => ht_eq H k key | None => false end.

Fixpoint find_node (s : St) (key : K) (l : list ptr) : ptr :=
  match l with
  | [] => NULL
  | x :: l' => if matches s key x then x else find_node s key l'
  end.

Fixpoint remove_node (s : St) (key : K) (l : list ptr) : list ptr :=
  match l with
  | [] => []
  | x :: l' => if matches s key x then l' else x :: remove_node s key l'
  end.

(** [L i] are the nodes of bucket [i], in order. *)
Definition buckets (s : St) (L : Z → list ptr) : Prop :=
  ∀ i, (0 ≤ i < ht_size H)%Z →
    chain (ht_next H) s (ht_slot H s i) (L i) ∧
    ∀ x, x ∈ L i → ∃ k, ht_id H s x = Some k ∧ index_of H s k = Some i.

Lemma index_range s key i : index_of H s key = Some i → (0 ≤ i < ht_size H)%Z.
Proof.
  unfold index_of. destruct (ht_hash H s key) as [h|]; [|done]. simpl.
  destruct (Z.ltb_spec (bucket_index H h) (ht_size H)); [|done]. intros [= <-].
  split; [apply u32_range|done].
Qed.

(** The hashes of the unsigned types all have a bucket. *)
Lemma unsigned_index h : (0 ≤ h)%Z → bucket_index H h = (h mod ht_size H)%Z.
Proof.
  intros Hh. pose proof (hk_size (H:=H)). unfold bucket_index.
  rewrite Z.rem_mod_nonneg by lia. apply u32_small.
  pose proof (Z.mod_pos_bound h (ht_size H)). lia.
Qed.

Lemma index_unsigned s key h :
  ht_hash H s key = Some h → (0 ≤ h)%Z → index_of H s key = Some (h mod ht_size H)%Z.
Proof.
  intros Hk Hh. pose proof (hk_size (H:=H)). unfold index_of. rewrite Hk. simpl.
  rewrite (unsigned_index h Hh). pose proof (Z.mod_pos_bound h (ht_size H)).
  by rewrite (proj2 (Z.ltb_lt _ _)) by lia.
Qed.

Lemma index_frame s s' key : ht_hash H s' key = ht_hash H s key → index_of H s' key = index_of H s key.
Proof. intros Heq. unfold index_of. by rewrite Heq. Qed.

Lemma wp_hash_index s key i Q :
  index_of H s key = Some i → Q i s → wp (hash_index H key) Q s.
Proof. intros Hi HQ. by apply (wp_getopt _ i). Qed.

Lemma lookup_loop s key l curr fuel :
  chain (ht_next H) s curr l →
  (∀ x, x ∈ l → is_Some (ht_id H s x)) → length l < fuel →
  wp (loop fuel (lookup_step H key) curr)
     (λ r s', s' = s ∧ r = find_node s key l) s.
Proof.
  revert curr fuel. induction l as [|x l IH]; intros curr [|fuel] Hc Hid Hf;
    simpl in Hf; try lia; simpl; apply wp_bind; unfold lookup_step.
  - simpl in Hc. subst. rewrite Z.eqb_refl. done.
  - destruct Hc as (-> & Hx & q & Hq & Hc).
    rewrite (proj2 (Z.eqb_neq _ _) Hx).
    destruct (Hid x) as [k Hk]; [set_solver|].
    apply wp_bind, (wp_getopt _ k); [done|].
    unfold matches; rewrite Hk. destruct (ht_eq H k key); [done|].
    apply wp_bind, wp_load with q; [done|]. apply wp_ret.
    apply IH; [done| |lia]. intros y Hy. apply Hid. set_solver.
Qed.

Lemma buckets_fuel s L i :
  buckets s L → (0 ≤ i < ht_size H)%Z → length (L i) < ht_fuel H s.
Proof.
  intros HL Hi. destruct (HL i Hi) as [Hc _]. apply hk_fuel.
  - by eapply chain_NoDup.
  - intros x Hx. by apply (chain_valid _ s _ _ x Hc).
Qed.

Lemma buckets_id s L i x :
  buckets s L → (0 ≤ i < ht_size H)%Z → x ∈ L i → is_Some (ht_id H s x).
Proof.
  intros HL Hi Hx. destruct (HL i Hi) as [_ Hid]. naive_solver.
Qed.

Lemma lookup_bucket s L key i :
  buckets s L → index_of H s key = Some i →
  wp (hash_table_lookup H key)
     (λ r s', s' = s ∧ r = find_node s key (L i)) s.
Proof.
  intros HL Hh. pose proof (index_range _ _ _ Hh) as Hr.
  apply wp_bind. eapply wp_hash_index; [done|].
  do 2 (apply wp_bind, wp_gets).
  apply lookup_loop; [by apply HL| |by apply buckets_fuel].
  intros x Hx. by eapply buckets_id.
Qed.

Lemma buckets_same s L i : buckets s L → buckets s (<[i := L i]> L).
Proof.
  intros HL j Hj. destruct (decide (i = j)) as [<-|Hne].
  - rewrite fn_lookup_insert. by apply HL.
  - rewrite fn_lookup_insert_ne by done. by apply HL.
Qed.

(** The state reached by an operation that only relinks nodes. *)
Definition hash_only (s s' : St) : Prop :=
  ∀ T (obs : St → T), HashFrame H obs → obs s' = obs s.

Lemma hash_only_refl s : hash_only s s.
Proof. by intros T obs _. Qed.

Lemma hash_only_store s p v s' :
  fset (ht_next H) s p v = Some s' → hash_only s s'.
Proof. intros Hs T obs [Hn _]. by eapply Hn. Qed.

Lemma hash_only_slot s i p : hash_only s (ht_set_slot H i p s).
Proof. intros T obs [_ Hsl]. apply Hsl. Qed.

Lemma hash_only_trans s1 s2 s3 :
  hash_only s1 s2 → hash_only s2 s3 → hash_only s1 s3.
Proof. intros H1 H2 T obs Hf. rewrite (H2 _ _ Hf). by apply H1. Qed.

Lemma hash_only_matches s s' key x :
  hash_only s s' → matches s' key x = matches s key x.
Proof. intros Ho. unfold matches. by rewrite (Ho _ _ (hk_id x)). Qed.

Lemma hash_only_ids s s' :
  hash_only s s' →
  ∀ i x, (∃ k, ht_id H s x = Some k ∧ index_of H s k = Some i) →
         (∃ k, ht_id H s' x = Some k ∧ index_of H s' k = Some i).
Proof.
  intros Ho i x (k & Hk & Hi). exists k.
  by rewrite (Ho _ _ (hk_id x)), (index_frame _ _ _ (Ho _ _ (hk_hash k))).
Qed.

(** Buckets with different indices share no node. *)
Lemma buckets_disjoint s L i j x :
  buckets s L → (0 ≤ i < ht_size H)%Z → (0 ≤ j < ht_size H)%Z →
  x ∈ L i → x ∈ L j → i = j.
Proof.
  intros HL Hi Hj Hxi Hxj.
  destruct (HL i Hi) as [_ (k & Hk & Hh)%(λ f, f x Hxi)].
  destruct (HL j Hj) as [_ (k' & Hk' & Hh')%(λ f, f x Hxj)].
  congruence.
Qed.

(** Replacing one bucket by another one. *)
Lemma buckets_update s s' L i l :
  buckets s L → hash_only s s' → (0 ≤ i < ht_size H)%Z →
  chain (ht_next H) s' (ht_slot H s' i) l →
  (∀ x, x ∈ l → ∃ k, ht_id H s x = Some k ∧ index_of H s k = Some i) →
  (∀ j, i ≠ j → ht_slot H s' j = ht_slot H s j) →
  (∀ j x, (0 ≤ j < ht_size H)%Z → i ≠ j → x ∈ L j →
          fget (ht_next H) s' x = fget (ht_next H) s x) →
  buckets s' (<[i := l]> L).
Proof.
  intros HL Ho Hi Hc Hid Hslot Hnext j Hj.
  destruct (decide (i = j)) as [<-|Hne].
  - rewrite fn_lookup_insert. split; [done|].
    intros x Hx. eapply hash_only_ids; eauto.
  - rewrite fn_lookup_insert_ne by done. destruct (HL j Hj) as [Hcj Hidj]. split.
    + rewrite Hslot by done. eapply chain_frame; [|done].
      intros x Hx. by eapply Hnext.
    + intros x Hx. eapply hash_only_ids; eauto.
Qed.

Lemma insert_bucket s L inn key i :
  buckets s L → inn ≠ NULL → is_Some (fget (ht_next H) s inn) →
  ht_id H s inn = Some key → index_of H s key = Some i →
  (∀ i, (0 ≤ i < ht_size H)%Z → inn ∉ L i) →
  wp (hash_table_insert H inn)
     (λ r s', r = key ∧ hash_only s s' ∧
              (∀ x, x ≠ inn → fget (ht_next H) s' x = fget (ht_next H) s x) ∧
              buckets s' (<[i := inn :: L i]> L)) s.
Proof.
  intros HL Hnn Hv Hid Hh Hout. pose proof (index_range _ _ _ Hh) as Hr.
  apply wp_bind, (wp_getopt _ key); [done|].
  apply wp_bind. eapply wp_hash_index; [done|].
  apply wp_bind, wp_gets, wp_bind, (wp_store (ht_next H)); [done|].
  intros s' Hs'. apply wp_bind, wp_modify, wp_ret.
  assert (hash_only s (ht_set_slot H i inn s')) as Ho.
  { eapply hash_only_trans; [by eapply hash_only_store|apply hash_only_slot]. }
  assert (∀ x, x ≠ inn → fget (ht_next H)
    (ht_set_slot H i inn s') x = fget (ht_next H) s x) as Hfr.
  { intros x Hx. rewrite hk_slot_next. by apply (fget_fset_ne _ _ _ _ _ _ Hs'). }
  split_and!; [done|done|done|].
  apply (buckets_update s); [done|done|done| | | |].
  - rewrite hk_slot_eq. split_and!; [done|done|].
    exists (ht_slot H s i). split.
    + rewrite hk_slot_next. by apply (fget_fset_eq _ _ _ _ _ Hs').
    + eapply chain_frame; [|by apply HL].
      intros x Hx. apply Hfr. intros ->. by apply (Hout i).
  - intros x [->|Hx]%elem_of_cons; [eauto|by apply HL].
  - intros j Hj. rewrite hk_slot_ne by done. by apply (hk_next_slot j) in Hs'.
  - intros j x Hj Hne Hx. apply Hfr. intros ->. by apply (Hout j).
Qed.

Lemma chain_unlink s s' p l1 w x l2 q :
  chain (ht_next H) s p (l1 ++ w :: x :: l2) → fget (ht_next H) s x = Some q →
  fset (ht_next H) s w q = Some s' → chain (ht_next H) s' p (l1 ++ w :: l2).
Proof.
  intros Hc Hq Hs.
  pose proof (chain_NoDup _ _ _ _ Hc) as Hnd.
  assert (∀ y, y ≠ w → fget (ht_next H) s' y = fget (ht_next H) s y) as Hfr.
  { intros y Hy. by apply (fget_fset_ne _ _ _ _ _ _ Hs). }
  revert p Hc. induction l1 as [|a l1 IH]; intros p; simpl.
  - intros (-> & Hw & q1 & Hq1 & (-> & Hx & q2 & Hq2 & Hc)).
    split_and!; [done|done|]. exists q. split.
    { by apply (fget_fset_eq _ _ _ _ _ Hs). }
    rewrite Hq in Hq2; simplify_eq. eapply chain_frame; [|done].
    intros y Hy. apply Hfr. intros ->.
    simpl in Hnd. inversion Hnd; set_solver.
  - intros (-> & Ha & q1 & Hq1 & Hc). split_and!; [done|done|].
    exists q1. inversion Hnd as [|?? Hna Hnd']; subst.
    split; [rewrite Hfr by set_solver; done|by apply IH].
Qed.

Lemma delete_loop s key l last curr fuel :
  chain (ht_next H) s curr l → is_Some (fget (ht_next H) s last) →
  (∀ x, x ∈ l → is_Some (ht_id H s x)) → length l < fuel →
  wp (loop fuel (delete_step H key) (last, curr))
     (λ r s', r = find_node s key l ∧
        ((s' = s ∧ remove_node s key l = l) ∨
         ∃ l1 w x l2 q, last :: l = l1 ++ w :: x :: l2 ∧
           last :: remove_node s key l = l1 ++ w :: l2 ∧
           fget (ht_next H) s x = Some q ∧
           fset (ht_next H) s w q = Some s')) s.
Proof.
  revert last curr fuel.
  induction l as [|x l IH]; intros last curr [|fuel] Hc Hlast Hid Hf;
    simpl in Hf; try lia; simpl; apply wp_bind; unfold delete_step.
  - simpl in Hc. subst. rewrite Z.eqb_refl. apply wp_ret, wp_ret. naive_solver.
  - destruct Hc as (-> & Hx & q & Hq & Hc).
    rewrite (proj2 (Z.eqb_neq _ _) Hx).
    destruct (Hid x) as [k Hk]; [set_solver|].
    apply wp_bind, (wp_getopt _ k); [done|].
    unfold matches; rewrite Hk. destruct (ht_eq H k key).
    + apply wp_bind, wp_load with q; [done|].
      apply wp_bind, (wp_store (ht_next H)); [done|]. intros s' Hs'.
      apply wp_ret, wp_ret. split; [done|]. right.
      by exists [], last, x, l, q.
    + apply wp_bind, wp_load with q; [done|]. apply wp_ret.
      eapply wp_mono; [apply IH; [done|eauto| |lia]|].
      { intros y Hy. apply Hid. set_solver. }
      intros r s' (-> & [[-> ->]|(l1 & w & y & l2 & q' & Heq & Heq' & Hy & Hs)]);
        (split; [done|]); [by left|].
      right. exists (last :: l1), w, y, l2, q'. simpl. by rewrite Heq, Heq'.
Qed.

Lemma remove_node_incl s key l x : x ∈ remove_node s key l → x ∈ l.
Proof.
  induction l as [|y l IH]; simpl; [done|].
  destruct (matches s key y); set_solver.
Qed.

(** A step of the client that leaves the table alone. *)
Lemma buckets_frame s s' L :
  buckets s L →
  (∀ i, (0 ≤ i < ht_size H)%Z → ht_slot H s' i = ht_slot H s i) →
  (∀ i x, (0 ≤ i < ht_size H)%Z → x ∈ L i →
     fget (ht_next H) s' x = fget (ht_next H) s x ∧ ht_id H s' x = ht_id H s x) →
  (∀ k, ht_hash H s' k = ht_hash H s k) →
  buckets s' L.
Proof.
  intros HL Hslot Hnode Hhash i Hi. destruct (HL i Hi) as [Hc Hids]. split.
  - rewrite Hslot by done. eapply chain_frame; [|done].
    intros x Hx. by apply (Hnode i).
  - intros x Hx. destruct (Hids x Hx) as (k & Hk & Hh).
    destruct (Hnode i x Hi Hx) as [_ Hid]. exists k. by rewrite Hid, (index_frame s s').
Qed.

Lemma find_node_frame s s' key l :
  (∀ x, x ∈ l → ht_id H s' x = ht_id H s x) → find_node s' key l = find_node s key l.
Proof.
  induction l as [|x l IH]; simpl; intros Hx; [done|].
  unfold matches. rewrite Hx by (by left). rewrite IH; [done|]. set_solver.
Qed.

Lemma find_node_match s key l :
  (find_node s key l = NULL ∧ ∀ x, x ∈ l → matches s key x = false) ∨
  (find_node s key l ∈ l ∧ matches s key (find_node s key l) = true).
Proof.
  induction l as [|x l IH]; simpl; [left; set_solver|].
  destruct (matches s key x) eqn:Hm; [right; set_solver|].
  destruct IH as [[-> IH]|[IH1 IH2]]; [left|right; set_solver].
  split; [done|]. intros y [->|Hy]%elem_of_cons; eauto.
Qed.

(** Removing the match of one key does not disturb the others, and removes
    the keys that have the same match. *)
Lemma find_remove_other s key key' l :
  (∀ x, x ∈ l → matches s key x = true → matches s key' x = false) →
  find_node s key' (remove_node s key l) = find_node s key' l.
Proof.
  induction l as [|x l IH]; simpl; intros Hx; [done|].
  destruct (matches s key x) eqn:Hm.
  - by rewrite (Hx x) by (done || by left).
  - simpl. rewrite IH; [done|]. intros y Hy. apply Hx. by right.
Qed.

Lemma find_not_removed s key l :
  NoDup l → matches s key (find_node s key l) = true → find_node s key l ∉ remove_node s key l.
Proof.
  induction l as [|x l IH]; simpl; intros Hnd Hm0; [set_solver|].
  inversion Hnd as [|?? Hx Hnd']; subst. destruct (matches s key x) eqn:Hm; [done|].
  rewrite elem_of_cons. intros [Heq|Hr]; [congruence|]. by apply IH.
Qed.

Lemma find_remove_self s key key' l :
  (∀ x y, x ∈ l → y ∈ l → matches s key x = true → matches s key y = true → x = y) →
  NoDup l → (∀ x, x ∈ l → matches s key' x = true → matches s key x = true) →
  find_node s key' (remove_node s key l) = NULL.
Proof.
  induction l as [|x l IH]; simpl; intros Hu Hnd Hk; [done|].
  inversion Hnd as [|?? Hx Hnd']; subst.
  destruct (matches s key x) eqn:Hm.
  - destruct (find_node_match s key' l) as [[-> _]|[Hin Hm']]; [done|].
    exfalso. apply Hx. rewrite (Hu x (find_node s key' l)); set_solver.
  - simpl. destruct (matches s key' x) eqn:Hm'; [|apply IH; set_solver].
    rewrite (Hk x) in Hm; [done|by left|done].
Qed.

Lemma delete_bucket s L key i :
  buckets s L → index_of H s key = Some i →
  wp (hash_table_delete H key)
     (λ r s', r = find_node s key (L i) ∧ hash_only s s' ∧
              (∀ x, x ∉ L i →
                    fget (ht_next H) s' x = fget (ht_next H) s x) ∧
              buckets s' (<[i := remove_node s key (L i)]> L)) s.
Proof.
  intros HL Hh. pose proof (index_range _ _ _ Hh) as Hr.
  destruct (HL i Hr) as [Hc Hids].
  pose proof (buckets_fuel s L i HL Hr) as Hfuel.
  apply wp_bind. eapply wp_hash_index; [done|].
  apply wp_bind, wp_gets.
  destruct (L i) as [|x l] eqn:HLi.
  { simpl in Hc. rewrite Hc, Z.eqb_refl. apply wp_ret. simpl.
    split_and!; [done|apply hash_only_refl|done|].
    rewrite <-HLi. by apply buckets_same. }
  destruct Hc as (Hsl & Hx & q & Hq & Hc). rewrite Hsl.
  rewrite (proj2 (Z.eqb_neq _ _) Hx).
  destruct (buckets_id s L i x HL Hr) as [k Hk]; [rewrite HLi; set_solver|].
  apply wp_bind, (wp_getopt _ k); [done|].
  assert (∀ j y, (0 ≤ j < ht_size H)%Z → i ≠ j → y ∈ L j → y ∉ x :: l) as Hdisj.
  { intros j y Hj Hne Hy Hy'. rewrite <-HLi in Hy'. by eapply Hne, buckets_disjoint. }
  simpl. unfold matches; rewrite Hk. destruct (ht_eq H k key).
  - apply wp_bind, wp_load with q; [done|]. apply wp_bind, wp_modify, wp_ret.
    split_and!; [done|apply hash_only_slot|intros; apply hk_slot_next|].
    apply (buckets_update s); [done|apply hash_only_slot|done| | | |].
    + rewrite hk_slot_eq. eapply chain_frame; [|done]. intros; apply hk_slot_next.
    + intros y Hy. apply Hids. set_solver.
    + intros j Hj. by apply hk_slot_ne.
    + intros; apply hk_slot_next.
  - apply wp_bind, wp_load with q; [done|]. apply wp_bind, wp_gets.
    simpl in Hfuel.
    eapply wp_mono; [apply delete_loop; [done|eauto| |lia]|].
    { intros y Hy. eapply buckets_id; [done..|]. rewrite HLi. set_solver. }
    intros r s' (-> & [[-> Hrm]|(l1 & w & y & l2 & q' & Heq & Heq' & Hy & Hs)]);
      (split; [done|]).
    + rewrite Hrm. split_and!; [apply hash_only_refl|done|].
      rewrite <-HLi. by apply buckets_same.
    + assert (∀ z, z ∉ x :: l → fget (ht_next H) s' z = fget (ht_next H) s z) as Hfr.
      { intros z Hz. apply (fget_fset_ne _ _ _ _ _ _ Hs).
        intros ->. apply Hz. rewrite Heq. set_solver. }
      split_and!; [by eapply hash_only_store|done|].
      apply (buckets_update s); [done|by eapply hash_only_store|done| | | |].
      * rewrite (hk_next_slot i _ _ _ _ Hs), Hsl, Heq'.
        eapply chain_unlink; [|done|done]. rewrite <-Heq. simpl. eauto.
      * intros z Hz. apply Hids. apply elem_of_cons in Hz as [->|Hz]; [set_solver|].
        apply remove_node_incl in Hz. set_solver.
      * intros j Hj. by apply (hk_next_slot j) in Hs.
      * intros j z Hj Hne Hz. eapply Hfr, Hdisj; eauto.
Qed.
End spec.

(** ** Refinement of a finite map

    When [unique_eq] is equality and no two nodes of the table have the same
    identifier, the table implements a finite map from identifiers to nodes. *)

Class HashEq {St K} (H : hash_ops St K) : Prop :=
  hash_eq a b : ht_eq H a b = true ↔ a = b.

Section map_refinement.
Context {St K : Type} `{EqDecision K, !Countable K}.
Context (H : hash_ops St K) `{!HashOk H, !HashEq H}.

Definition refines_map (s : St) (m : gmap K ptr) : Prop :=
  ∃ L, buckets H s L ∧
       ∀ k p, m !! k = Some p ↔
              ht_id H s p = Some k ∧ ∃ i, (0 ≤ i < ht_size H)%Z ∧ p ∈ L i.

Lemma matches_true s key x : matches H s key x = true ↔ ht_id H s x = Some key.
Proof.
  unfold matches. destruct (ht_id H s x) as [k|]; [|naive_solver].
  rewrite (hash_eq k key). naive_solver.
Qed.

Lemma find_node_cases s key l :
  (find_node H s key l = NULL ∧ ∀ x, x ∈ l → ht_id H s x ≠ Some key) ∨
  (find_node H s key l ∈ l ∧ ht_id H s (find_node H s key l) = Some key).
Proof.
  induction l as [|x l IH]; simpl; [left; set_solver|].
  destruct (matches H s key x) eqn:Hm.
  - apply matches_true in Hm. right. set_solver.
  - assert (ht_id H s x ≠ Some key) as Hx.
    { rewrite <-matches_true, Hm. done. }
    destruct IH as [[-> IH]|[IH1 IH2]]; [left|right; set_solver].
    split; [done|]. intros y [->|Hy]%elem_of_cons; eauto.
Qed.

Lemma elem_of_remove_node s key l x :
  NoDup l →
  (∀ y z, y ∈ l → z ∈ l → ht_id H s y = Some key → ht_id H s z = Some key → y = z) →
  x ∈ remove_node H s key l ↔ x ∈ l ∧ ht_id H s x ≠ Some key.
Proof.
  induction l as [|y l IH]; simpl; intros Hnd Huniq; [set_solver|].
  inversion Hnd as [|?? Hy Hnd']; subst.
  destruct (matches H s key y) eqn:Hm.
  - apply matches_true in Hm. rewrite elem_of_cons. split.
    + intros Hx. split; [by right|]. intros Hid.
      rewrite (Huniq y x) in Hy by set_solver. done.
    + intros [[->|Hx] Hid]; done.
  - assert (ht_id H s y ≠ Some key) as Hy'.
    { rewrite <-matches_true, Hm. done. }
    rewrite !elem_of_cons, IH by set_solver. naive_solver.
Qed.

Lemma refines_find s L (m : gmap K ptr) key i :
  buckets H s L → (∀ k p, m !! k = Some p ↔
    ht_id H s p = Some k ∧ ∃ i, (0 ≤ i < ht_size H)%Z ∧ p ∈ L i) →
  index_of H s key = Some i →
  find_node H s key (L i) = default NULL (m !! key).
Proof.
  intros HL Hm Hh. pose proof (index_range H _ _ _ Hh) as Hr.
  destruct (find_node_cases s key (L i)) as [[-> Hno]|[Hin Hid]].
  - destruct (m !! key) as [p|] eqn:Hp; [|done].
    apply Hm in Hp as (Hid & j & Hi & Hp).
    destruct (HL j Hi) as [_ Hids]. destruct (Hids p Hp) as (k & Hk & Hh').
    simplify_eq. exfalso. by eapply Hno.
  - by rewrite (proj2 (Hm key _) (conj Hid (ex_intro _ _ (conj Hr Hin)))).
Qed.

Lemma refines_node s (m : gmap K ptr) k p :
  refines_map s m → m !! k = Some p →
  p ≠ NULL ∧ is_Some (fget (ht_next H) s p) ∧ ht_id H s p = Some k.
Proof.
  intros (L & HL & Hm) Hp. apply Hm in Hp as (Hid & i & Hi & Hp).
  destruct (HL i Hi) as [Hc _].
  destruct (chain_valid _ _ _ _ _ Hc Hp) as [Hn Hv]. done.
Qed.

Lemma refines_hash s (m : gmap K ptr) k p :
  refines_map s m → m !! k = Some p → is_Some (index_of H s k).
Proof.
  intros (L & HL & Hm) Hp. apply Hm in Hp as (Hid & i & Hi & Hp).
  destruct (HL i Hi) as [_ Hids]. destruct (Hids p Hp) as (k' & Hk & Hh).
  rewrite Hid in Hk. simplify_eq. eauto.
Qed.

Lemma lookup_refines s m key :
  refines_map s m → is_Some (index_of H s key) →
  wp (hash_table_lookup H key)
     (λ r s', s' = s ∧ r = default NULL (m !! key)) s.
Proof.
  intros (L & HL & Hm) [b Hh].
  eapply wp_mono; [by eapply lookup_bucket|].
  intros r s' [-> ->]. split; [done|]. by apply refines_find.
Qed.

Lemma insert_refines s m inn key :
  refines_map s m → inn ≠ NULL → is_Some (fget (ht_next H) s inn) →
  ht_id H s inn = Some key → is_Some (index_of H s key) → m !! key = None →
  wp (hash_table_insert H inn)
     (λ r s', r = key ∧ hash_only H s s' ∧
              (∀ x, x ≠ inn → fget (ht_next H) s' x = fget (ht_next H) s x) ∧
              refines_map s' (<[key := inn]> m)) s.
Proof.
  intros (L & HL & Hm) Hnn Hv Hid [b Hh] Hfresh.
  pose proof (index_range H _ _ _ Hh) as Hr.
  assert (∀ i, (0 ≤ i < ht_size H)%Z → inn ∉ L i) as Hout.
  { intros i Hi Hin. rewrite (proj2 (Hm key inn)) in Hfresh by eauto. done. }
  eapply wp_mono; [by eapply insert_bucket|].
  intros r s' (-> & Ho & Hfr & HL'). split_and!; [done|done|done|].
  exists (<[b := inn :: L b]> L). split; [done|].
  intros k p. rewrite (Ho _ _ (hk_id p)). split.
  - intros Hp. destruct (decide (key = k)) as [<-|Hne].
    + rewrite lookup_insert_eq in Hp; simplify_eq. split; [done|].
      exists b. rewrite fn_lookup_insert. set_solver.
    + rewrite lookup_insert_ne in Hp by done. apply Hm in Hp as (Hk & i & Hi & Hp).
      split; [done|]. exists i. split; [done|].
      destruct (decide (b = i)) as [<-|Hne'].
      * rewrite fn_lookup_insert. set_solver.
      * by rewrite fn_lookup_insert_ne.
  - intros (Hk & i & Hi & Hp).
    destruct (decide (b = i)) as [<-|Hne'].
    + rewrite fn_lookup_insert in Hp. apply elem_of_cons in Hp as [->|Hp].
      * simplify_eq. by rewrite lookup_insert_eq.
      * rewrite lookup_insert_ne; [apply Hm; eauto|].
        intros ->. rewrite (proj2 (Hm k p)) in Hfresh by eauto. done.
    + rewrite fn_lookup_insert_ne in Hp by done.
      rewrite lookup_insert_ne; [apply Hm; eauto|].
      intros ->. rewrite (proj2 (Hm k p)) in Hfresh by eauto. done.
Qed.

Lemma delete_refines s m key :
  refines_map s m → is_Some (index_of H s key) →
  wp (hash_table_delete H key)
     (λ r s', r = default NULL (m !! key) ∧ hash_only H s s' ∧
              (∀ x, (∀ k, m !! k ≠ Some x) →
                    fget (ht_next H) s' x = fget (ht_next H) s x) ∧
              refines_map s' (delete key m)) s.
Proof.
  intros (L & HL & Hm) [b Hh]. pose proof (index_range H _ _ _ Hh) as Hr.
  eapply wp_mono; [by eapply delete_bucket|].
  intros r s' (-> & Ho & Hfr & HL'). split_and!; [by apply refines_find|done| |].
  { intros x Hx. apply Hfr. intros Hin. destruct (HL _ Hr) as [_ Hids].
    destruct (Hids x Hin) as (k & Hk & _). apply (Hx k), Hm. eauto. }
  exists (<[b := remove_node H s key (L b)]> L).
  split; [done|]. intros k p. rewrite (Ho _ _ (hk_id p)).
  assert (p ∈ remove_node H s key (L b) ↔
          p ∈ L b ∧ ht_id H s p ≠ Some key) as Hrm.
  { apply elem_of_remove_node; [by eapply chain_NoDup, HL|].
    intros y z Hy Hz Hidy Hidz.
    assert (m !! key = Some y) by (apply Hm; eauto).
    assert (m !! key = Some z) by (apply Hm; eauto). congruence. }
  rewrite lookup_delete_Some, Hm. split.
  - intros (Hne & Hk & i & Hi & Hp). split; [done|]. exists i. split; [done|].
    destruct (decide (b = i)) as [<-|Hne'].
    + rewrite fn_lookup_insert. apply Hrm. naive_solver.
    + by rewrite fn_lookup_insert_ne.
  - intros (Hk & i & Hi & Hp).
    destruct (decide (b = i)) as [<-|Hne'].
    + rewrite fn_lookup_insert in Hp. apply Hrm in Hp as [Hp Hne]. naive_solver.
    + rewrite fn_lookup_insert_ne in Hp by done. split; [|eauto].
      intros ->. destruct (HL i Hi) as [_ Hids].
      destruct (Hids p Hp) as (k' & Hk' & Hh'). simplify_eq.
Qed.

(** A step of the client that leaves the table alone. *)
Lemma refines_frame s s' m :
  refines_map s m →
  (∀ i, ht_slot H s' i = ht_slot H s i) →
  (∀ k p, m !! k = Some p →
     fget (ht_next H) s' p = fget (ht_next H) s p ∧ ht_id H s' p = ht_id H s p) →
  (∀ k, ht_hash H s' k = ht_hash H s k) →
  refines_map s' m.
Proof.
  intros (L & HL & Hm) Hslot Hnode Hhash. exists L.
  assert (∀ i p, (0 ≤ i < ht_size H)%Z → p ∈ L i → ∃ k, m !! k = Some p) as Hin.
  { intros i p Hi Hp. destruct (HL i Hi) as [_ Hids].
    destruct (Hids p Hp) as (k & Hk & _). exists k. apply Hm; eauto. }
  split.
  - intros i Hi. destruct (HL i Hi) as [Hc Hids]. split.
    + rewrite Hslot. eapply chain_frame; [|done].
      intros x Hx. destruct (Hin i x Hi Hx) as [k Hk]. by apply (Hnode k).
    + intros x Hx. destruct (Hids x Hx) as (k & Hk & Hh).
      destruct (Hin i x Hi Hx) as [k' Hk']. destruct (Hnode k' x Hk') as [_ Hx'].
      exists k. by rewrite Hx', (index_frame H s s').
  - intros k p. rewrite Hm. split.
    + intros (Hk & i & Hi & Hp). split; [|eauto].
      destruct (Hin i p Hi Hp) as [k' Hk']. destruct (Hnode k' p Hk') as [_ Hx'].
      by rewrite Hx'.
    + intros (Hk & i & Hi & Hp). split; [|eauto].
      destruct (Hin i p Hi Hp) as [k' Hk']. destruct (Hnode k' p Hk') as [_ Hx'].
      by rewrite <-Hx'.
Qed.

(** Tables of at most one node. *)
Lemma refines_empty s : (∀ i, ht_slot H s i = NULL) → refines_map s ∅.
Proof.
  intros Hs. exists (λ _, []). split; [|intros k p; rewrite lookup_empty; set_solver].
  intros i Hi. split; [apply Hs|set_solver].
Qed.

Lemma refines_singleton s k p b :
  p ≠ NULL → ht_id H s p = Some k → index_of H s k = Some b →
  fget (ht_next H) s p = Some NULL →
  (∀ i, ht_slot H s i = if decide (i = b) then p else NULL) →
  refines_map s {[k := p]}.
Proof.
  intros Hp Hk Hh Hn Hs. pose proof (index_range H _ _ _ Hh) as Hr.
  exists (λ i, if decide (i = b) then [p] else []). split.
  - intros i Hi. rewrite Hs. case_decide as Hd; [subst|split; [done|set_solver]].
    split; [split_and!; [done|done|by exists NULL]|]. intros x ->%list_elem_of_singleton. eauto.
  - intros k' p'. rewrite lookup_singleton_Some. split.
    + intros [<- <-]. split; [done|]. exists b. split; [done|].
      rewrite decide_True by done. by left.
    + intros (Hk' & i & _ & Hin). case_decide; [|set_solver].
      apply list_elem_of_singleton in Hin as ->. rewrite Hk in Hk'. by simplify_eq.
Qed.
End map_refinement.

(** ** The contract as a simulation *)

(** The three operations as commands, with the result each returns. *)
Inductive hash_cmd (K : Type) := HInsert (inn : ptr) | HLookup (key : K) | HDelete (key : K).
Arguments HInsert {K}.
Arguments HLookup {K}.
Arguments HDelete {K}.

Section simulation.
Context {St K : Type} `{EqDecision K, !Countable K}.
Context (H : hash_ops St K) `{!HashOk H, !HashEq H}.

Definition hash_run (c : hash_cmd K) : M St (K + ptr) :=
  match c with
  | HInsert inn => key ← hash_table_insert H inn; mret (inl key)
  | HLookup key => p ← hash_table_lookup H key; mret (inr p)
  | HDelete key => p ← hash_table_delete H key; mret (inr p)
  end.

(** The same commands on a finite map. *)
Inductive map_run (s : St) (m : gmap K ptr) : hash_cmd K → K + ptr → gmap K ptr → Prop :=
| run_insert inn key :
    ht_id H s inn = Some key → map_run s m (HInsert inn) (inl key) (<[key := inn]> m)
| run_lookup key : map_run s m (HLookup key) (inr (default NULL (m !! key))) m
| run_delete key :
    map_run s m (HDelete key) (inr (default NULL (m !! key))) (delete key m).

(** What a caller has to respect: only unlinked nodes with a new identifier
    are inserted. *)
Definition hash_pre (s : St) (m : gmap K ptr) (c : hash_cmd K) : Prop :=
  match c with
  | HInsert inn =>
      inn ≠ NULL ∧ is_Some (fget (ht_next H) s inn) ∧
      ∃ key, ht_id H s inn = Some key ∧ is_Some (index_of H s key) ∧ m !! key = None
  | HLookup key | HDelete key => is_Some (index_of H s key)
  end.

Lemma hash_run_refines s m c :
  refines_map H s m → hash_pre s m c →
  ∃ r s' m', hash_run c s = Done (r, s') ∧ map_run s m c r m' ∧ refines_map H s' m'.
Proof.
  intros Hm Hpre. assert (wp (hash_run c) (λ r s', ∃ m', map_run s m c r m' ∧
    refines_map H s' m') s) as (r & s' & Hr & m' & Hq)%wp_Done; [|by eauto 6].
  destruct c as [inn|key|key]; simpl in *; apply wp_bind.
  - destruct Hpre as (Hnn & Hv & key & Hid & Hh & Hfr).
    eapply wp_mono; [by apply (insert_refines H s m inn key)|].
    intros r s' (-> & _ & _ & Hm'). apply wp_ret. eexists. split; [by constructor|done].
  - eapply wp_mono; [by apply (lookup_refines H s m key)|].
    intros r s' (-> & ->). apply wp_ret. eexists. split; [by constructor|done].
  - eapply wp_mono; [by apply (delete_refines H s m key)|].
    intros r s' (-> & _ & _ & Hm'). apply wp_ret. eexists. split; [by constructor|done].
Qed.

(** C3: the hash table template implements a finite map.  Every insertion,
    lookup and deletion terminates, returns what the map operation returns
    and leaves a table that represents the resulting map. *)
Theorem hash_table_refines_map s m c :
  refines_map H s m → hash_pre s m c →
  ∃ r s' m', hash_run c s = Done (r, s') ∧ map_run s m c r m' ∧ refines_map H s' m'.
Proof. apply hash_run_refines. Qed.
End simulation.

(** ** Tables of records kept in a store

    The usual instance: the nodes are records in a finite store of the state,
    and the array of buckets is an array in the state.  [key] and [hash] may
    read other parts of the state; the hash is an [unsigned int]. *)
Section node_table.
Context {St N K : Type} (get : St → gmap ptr N) (put : gmap ptr N → St → St).
Context (slot : St → Z → ptr) (set_slot : Z → ptr → St → St).
Context (next : N → ptr) (upd : ptr → N → N).
Context (key : St → N → option K) (eqk : K → K → bool) (hash : St → K → option Z) (size : Z).

Definition node_table : hash_ops St K := {|
  ht_next := node_field get put next upd;
  ht_id s p := get s !! p ≫= key s;
  ht_eq := eqk;
  ht_hash s k := u32 <$> hash s k;
  ht_size := size;
  ht_slot := slot;
  ht_set_slot := set_slot;
  ht_fuel s := S (base.size (get s));
|}.

(** The store and the array are separate parts of the state, on which the
    link of a node, its key and the hash of a key depend as expected. *)
Class NodeTable : Prop := {
  nt_lens : LensOk get put;
  nt_next v n : next (upd v n) = v;
  nt_size : (0 < size < 2 ^ 32)%Z;
  nt_slot_put m s i : slot (put m s) i = slot s i;
  nt_get_slot i p s : get (set_slot i p s) = get s;
  nt_slot_eq i p s : slot (set_slot i p s) i = p;
  nt_slot_ne i j p s : i ≠ j → slot (set_slot i p s) j = slot s j;
  nt_key_upd s v n : key s (upd v n) = key s n;
  nt_key_put m s n : key (put m s) n = key s n;
  nt_key_slot i p s n : key (set_slot i p s) n = key s n;
  nt_hash_put s p v n k : get s !! p = Some n → hash (put (<[p := upd v n]> (get s)) s) k = hash s k;
  nt_hash_slot i p s k : hash (set_slot i p s) k = hash s k;
}.

Context `{!NodeTable}.

Lemma store_fuel s (l : list ptr) :
  NoDup l → (∀ x, x ∈ l → is_Some (get s !! x)) → length l < S (base.size (get s)).
Proof.
  intros Hnd Hl. apply Nat.lt_succ_r.
  rewrite <-size_dom, <-(size_list_to_set (C:=gset ptr) l) by done.
  apply subseteq_size. intros x Hx%elem_of_list_to_set. by apply elem_of_dom, Hl.
Qed.

(** Relinking a node leaves an observation alone that reads neither links nor
    the array. *)
Lemma node_table_frame {T} (obs : St → T) :
  (∀ s p v n, get s !! p = Some n → obs (put (<[p := upd v n]> (get s)) s) = obs s) →
  (∀ i p s, obs (set_slot i p s) = obs s) → HashFrame node_table obs.
Proof.
  intros Hput Hslot. split; [|done]. intros s p v s'; simpl.
  destruct (get s !! p) as [n|] eqn:Hn; [|done]. intros [= <-]. by apply Hput.
Qed.

Lemma node_table_data {T} (data : N → T) q :
  (∀ v n, data (upd v n) = data n) → HashFrame node_table (λ s, data <$> get s !! q).
Proof.
  intros Hd. apply node_table_frame.
  - intros s p v n Hn. rewrite (get_put get put (LensOk:=nt_lens)).
    destruct (decide (p = q)) as [->|]; [|by rewrite lookup_insert_ne].
    by rewrite lookup_insert_eq, Hn; simpl; rewrite Hd.
  - intros i p s. by rewrite nt_get_slot.
Qed.

Lemma node_table_ok : HashOk node_table.
Proof.
  pose proof nt_lens. split; simpl.
  - apply node_field_ok; [done|apply nt_next].
  - apply nt_size.
  - intros i. apply node_field_stable. intros m s. apply nt_slot_put.
  - intros p. apply node_table_frame.
    + intros s q v n Hn. rewrite (get_put get put (LensOk:=nt_lens)). destruct (decide (q = p)) as [->|].
      * rewrite lookup_insert_eq, Hn. simpl. by rewrite nt_key_put, nt_key_upd.
      * rewrite lookup_insert_ne by done. destruct (get s !! p); [apply nt_key_put|done].
    + intros i q s. rewrite nt_get_slot. destruct (get s !! p); [apply nt_key_slot|done].
  - intros k. apply node_table_frame.
    + intros s p v n Hn. by rewrite nt_hash_put.
    + intros i p s. by rewrite nt_hash_slot.
  - intros i p s q. by rewrite nt_get_slot.
  - apply nt_slot_eq.
  - apply nt_slot_ne.
  - intros s l Hnd Hl. apply store_fuel; [done|]. intros x Hx.
    specialize (Hl x Hx). destruct (get s !! x); [eauto|]. by destruct Hl.
Qed.

(** An unsigned hash always has a bucket. *)
Lemma node_table_index s k h :
  hash s k = Some h → index_of node_table s k = Some (u32 h mod size)%Z.
Proof.
  intros Hh. pose proof node_table_ok. apply (index_unsigned node_table); simpl; [by rewrite Hh|].
  apply u32_range.
Qed.

Lemma node_table_some s k : is_Some (hash s k) → is_Some (index_of node_table s k).
Proof. intros [h Hh]. eexists. by apply node_table_index. Qed.
End node_table.

(** Reduces the existence of a bucket to that of the hash. *)
Ltac has_bucket := apply node_table_some; [apply _|simpl].
