(* ===== verification/CircularList.v ===== *)
(** * The circular list template of include/data_structures.h

    [CIRCULAR_LIST] generates [clist_insert] and [clist_delete] over doubly
    linked circular lists; any node of the list denotes the list that starts
    there.  The template is modelled over an arbitrary state with two pointer
    fields, and both functions are proved against a representation predicate
    [clist s p l]: the list that starts at [p] holds exactly the nodes [l]. *)

From S2P Require Import Prelude.

Record clist_ops (St : Type) := ClistOps {
  cl_next : field St ptr;
  cl_last : field St ptr;
}.
Arguments ClistOps {St}.
Arguments cl_next {St}.
Arguments cl_last {St}.

Class ClistOk {St} (C : clist_ops St) : Prop := {
  ck_next : FieldOk (cl_next C);
  ck_last : FieldOk (cl_last C);
  ck_next_last : Indep (cl_next C) (cl_last C);
  ck_last_next : Indep (cl_last C) (cl_next C);
}.
Global Existing Instances ck_next ck_last ck_next_last ck_last_next.

(** An observation that relinking cannot change. *)
Class ClistFrame {St T} (C : clist_ops St) (obs : St → T) : Prop := {
  cf_next : Stable (cl_next C) obs;
  cf_last : Stable (cl_last C) obs;
}.

Section template.
Context {St : Type} (C : clist_ops St).

Definition clist_insert (lst inn : ptr) : M St ptr :=
  if (lst =? NULL)%Z then
    store (cl_next C) inn inn;;
    store (cl_last C) inn inn;;
    mret inn
  else
    store (cl_next C) inn lst;;
    l ← load (cl_last C) lst;
    store (cl_last C) inn l;;
    l' ← load (cl_last C) lst;
    store (cl_next C) l' inn;;
    store (cl_last C) lst inn;;
    mret inn.

Definition clist_delete (lst : ptr) : M St ptr :=
  if (lst =? NULL)%Z then mret NULL else
  n ← load (cl_next C) lst;
  if (lst =? n)%Z then mret NULL else
  l ← load (cl_last C) lst;
  n ← load (cl_next C) lst;
  store (cl_next C) l n;;
  n' ← load (cl_next C) lst;
  l' ← load (cl_last C) lst;
  store (cl_last C) n' l';;
  load (cl_next C) lst.
End template.

Section spec.
Context {St : Type} (C : clist_ops St).

(** Consecutive nodes point at each other. *)
Fixpoint links (s : St) (l : list ptr) : Prop :=
  match l with
  | x :: l' =>
      match l' with
      | y :: _ => fget (cl_next C) s x = Some y ∧ fget (cl_last C) s y = Some x
      | [] => True
      end ∧ links s l'
  | [] => True
  end.

Definition clist (s : St) (p : ptr) (l : list ptr) : Prop :=
  links s l ∧ NoDup l ∧ (∀ x, x ∈ l → x ≠ NULL) ∧
  match head l, last l with
  | Some h, Some e =>
      p = h ∧ fget (cl_next C) s e = Some h ∧ fget (cl_last C) s h = Some e
  | _, _ => p = NULL
  end.

Lemma links_app s l1 l2 :
  links s (l1 ++ l2) ↔
  links s l1 ∧ links s l2 ∧
  match last l1, head l2 with
  | Some x, Some y => fget (cl_next C) s x = Some y ∧ fget (cl_last C) s y = Some x
  | _, _ => True
  end.
Proof.
  induction l1 as [|x l1 IH]; [simpl; naive_solver|].
  destruct l1 as [|y l1].
  - simpl. destruct l2; simpl; naive_solver.
  - change ((x :: y :: l1) ++ l2) with (x :: ((y :: l1) ++ l2)).
    rewrite last_cons_cons. simpl links at 1. simpl links at 2. simpl app in IH.
    simpl links in IH. naive_solver.
Qed.

Lemma links_frame s s' l :
  (∀ x, x ∈ l → Some x ≠ last l → fget (cl_next C) s' x = fget (cl_next C) s x) →
  (∀ x, x ∈ tail l → fget (cl_last C) s' x = fget (cl_last C) s x) →
  NoDup l → links s l → links s' l.
Proof.
  induction l as [|x l IH]; intros Hn Hl Hnd; [done|].
  inversion Hnd as [|?? Hx Hnd']; subst.
  destruct l as [|y l]; [done|]. simpl. intros [[Hxy Hyx] Hlinks].
  rewrite Hn, Hl; [|set_solver|set_solver|].
  - split; [done|]. apply IH; [|set_solver|done|done].
    intros z Hz Hz'. apply Hn; [set_solver|]. by rewrite last_cons_cons.
  - rewrite last_cons_cons. intros Heq. symmetry in Heq.
    apply last_Some_elem_of in Heq. done.
Qed.

Lemma last_cons_some (x : ptr) l : ∃ e, last (x :: l) = Some e.
Proof. destruct (last (x :: l)) eqn:Hn; [eauto|by apply last_None in Hn]. Qed.

(** The same list, seen from another of its nodes. *)
Lemma clist_rotate s p l1 x l2 :
  clist s p (l1 ++ x :: l2) → clist s x (x :: l2 ++ l1).
Proof.
  intros (Hl & Hnd & Hnn & Hends). destruct (last_cons_some x l2) as [e He].
  destruct l1 as [|h l1].
  { rewrite app_nil_r. simpl app in *. split_and!; [done|done|done|].
    rewrite He in *. simpl head in *. naive_solver. }
  destruct (last_cons_some h l1) as [w Hw].
  rewrite last_app, He in Hends. simpl in Hends.
  destruct Hends as (-> & Heh & Hhe).
  apply links_app in Hl as (Hl1 & Hl2 & Hj). rewrite Hw in Hj. simpl in Hj.
  change (x :: l2 ++ h :: l1) with ((x :: l2) ++ (h :: l1)). split_and!.
  - apply links_app. rewrite He. simpl head. done.
  - rewrite Permutation_app_comm. done.
  - intros y. rewrite elem_of_app. intros Hy. apply Hnn, elem_of_app. naive_solver.
  - rewrite last_app, Hw. simpl. naive_solver.
Qed.

Lemma clist_empty s : clist s NULL [].
Proof. split_and!; [done|constructor|set_solver|done]. Qed.

Lemma clist_nil s l : clist s NULL l → l = [].
Proof.
  intros (_ & _ & Hnn & Hends). destruct l as [|h t]; [done|].
  destruct (last_cons_some h t) as [e He]. rewrite He in Hends.
  simpl in Hends. destruct Hends as [<- _]. exfalso. by apply (Hnn NULL); [left|].
Qed.

Lemma clist_cons s p l :
  clist s p l → p ≠ NULL → ∃ t e, l = p :: t ∧ last l = Some e ∧
    fget (cl_next C) s e = Some p ∧ fget (cl_last C) s p = Some e.
Proof.
  intros (_ & _ & Hnn & Hends) Hp. destruct l as [|h t]; [done|].
  destruct (last_cons_some h t) as [e He]. rewrite He in Hends.
  simpl in Hends. naive_solver.
Qed.

Lemma clist_head s p x l : clist s p (x :: l) → p = x.
Proof.
  intros (_ & _ & _ & Hends). destruct (last_cons_some x l) as [e He].
  rewrite He in Hends. simpl in Hends. naive_solver.
Qed.

(** Where the list continues after a prefix. *)
Lemma clist_after s p l1 x l2 :
  clist s p (l1 ++ x :: l2) → fget (cl_next C) s x = Some (default p (head l2)).
Proof.
  intros (Hl & _ & _ & Hends). destruct l2 as [|y l2].
  - rewrite last_snoc in Hends. destruct l1; simpl in *; naive_solver.
  - apply links_app in Hl as (_ & Hl & _). simpl. by destruct Hl as [[? _] _].
Qed.

Lemma clist_det s p l l' : clist s p l → clist s p l' → l = l'.
Proof.
  intros Hc Hc'. destruct l as [|h t].
  { destruct Hc as (_ & _ & _ & Hp). simpl in Hp. subst p. by apply clist_nil in Hc'. }
  destruct l' as [|h' t'].
  { destruct Hc' as (_ & _ & _ & Hp). simpl in Hp. subst p. by apply clist_nil in Hc. }
  apply clist_head in Hc as Hh, Hc' as Hh'. subst h h'.
  assert (∀ l1 l2 l2', clist s p (l1 ++ l2) → clist s p (l1 ++ l2') → l1 ≠ [] → l2 = l2') as H.
  { intros l1 l2. revert l1. induction l2 as [|x l2 IH]; intros l1 l2' H H' Hne.
    all: destruct l1 as [|e l1 _] using rev_ind; [done|]; rewrite <-!app_assoc in H, H'.
    all: pose proof (clist_after _ _ _ _ _ H) as Hn; pose proof (clist_after _ _ _ _ _ H') as Hn'.
    all: assert (∀ y l3, clist s p (l1 ++ [e] ++ y :: l3) → y ≠ p) as Hnp by
      (intros y l3 Hy ->; pose proof Hy as (_ & Hnd & _); destruct l1 as [|q l1];
       apply clist_head in Hy; subst; simpl in Hnd; apply NoDup_cons_1_1 in Hnd; set_solver).
    all: rewrite Hn in Hn'; destruct l2' as [|y l2']; simpl in Hn'; try done;
      injection Hn' as Hxy; try (by exfalso; eapply Hnp).
    subst y. f_equal. apply (IH ((l1 ++ [e]) ++ [x])); [by rewrite <-!app_assoc..|].
    by destruct l1. }
  f_equal. by apply (H [p]).
Qed.

Lemma clist_frame s s' p l :
  (∀ x, x ∈ l → fget (cl_next C) s' x = fget (cl_next C) s x ∧
                fget (cl_last C) s' x = fget (cl_last C) s x) →
  clist s p l → clist s' p l.
Proof.
  intros Heq (Hl & Hnd & Hnn & Hends). split_and!; [|done|done|].
  - eapply links_frame; [| |done|done]; intros x Hx; [intros _|]; apply Heq; [done|].
    destruct l; [done|]. by right.
  - destruct l as [|h t]; [done|].
    destruct (last (h :: t)) as [e|] eqn:Hlast; [|done]. simpl in *.
    apply last_Some_elem_of in Hlast as He.
    destruct (Heq e) as [-> _]; [done|].
    destruct (Heq h) as [_ ->]; [by left|]. done.
Qed.

(** Every node of a list is valid. *)
Lemma clist_valid s p l x :
  clist s p l → x ∈ l →
  is_Some (fget (cl_next C) s x) ∧ is_Some (fget (cl_last C) s x).
Proof.
  intros Hc (l1 & l2 & ->)%list_elem_of_split.
  apply clist_rotate in Hc as Hr.
  destruct Hr as (Hl & _ & _ & Hends). split.
  - destruct (l2 ++ l1) as [|y t] eqn:Heq; simpl in *; [naive_solver|].
    destruct Hl as [[Hx _] _]. eauto.
  - destruct (last_cons_some x (l2 ++ l1)) as [e He]. rewrite He in Hends.
    simpl in Hends. naive_solver.
Qed.

(** What relinking changes: nothing but the two link fields, and those only
    at nodes of [l]. *)
Definition clist_only (s s' : St) (l : list ptr) : Prop :=
  (∀ T (obs : St → T), ClistFrame C obs → obs s' = obs s) ∧
  ∀ x, x ∉ l → fget (cl_next C) s' x = fget (cl_next C) s x ∧
               fget (cl_last C) s' x = fget (cl_last C) s x.

Lemma clist_only_refl s l : clist_only s s l.
Proof. split; [by intros T obs _|done]. Qed.

Lemma clist_only_trans s1 s2 s3 l :
  clist_only s1 s2 l → clist_only s2 s3 l → clist_only s1 s3 l.
Proof.
  intros [H1 F1] [H2 F2]. split.
  - intros T obs Hf. rewrite (H2 _ _ Hf). by apply H1.
  - intros x Hx. destruct (F1 x Hx), (F2 x Hx). split; congruence.
Qed.

End spec.

Section field_values.
Context {St : Type} (C : clist_ops St) `{!ClistOk C}.

Lemma clist_only_next s p v s' l :
  fset (cl_next C) s p v = Some s' → p ∈ l → clist_only C s s' l.
Proof.
  intros Hs Hp. split.
  - intros T obs [Hn _]. by eapply Hn.
  - intros x Hx. split; [|by apply (ck_next_last (C:=C) x) in Hs].
    apply (fget_fset_ne _ _ _ _ _ _ Hs). by intros ->.
Qed.

Lemma clist_only_last s p v s' l :
  fset (cl_last C) s p v = Some s' → p ∈ l → clist_only C s s' l.
Proof.
  intros Hs Hp. split.
  - intros T obs [_ Hl]. by eapply Hl.
  - intros x Hx. split; [by apply (ck_last_next (C:=C) x) in Hs|].
    apply (fget_fset_ne _ _ _ _ _ _ Hs). by intros ->.
Qed.

(** The values of the two fields after a store, as rewriting rules. *)
Lemma next_after_next s p v s' x :
  fset (cl_next C) s p v = Some s' →
  fget (cl_next C) s' x = if decide (p = x) then Some v else fget (cl_next C) s x.
Proof.
  intros Hs. case_decide as Hd; [subst; by apply (fget_fset_eq _ _ _ _ _ Hs)|].
  by apply (fget_fset_ne _ _ _ _ _ _ Hs).
Qed.

Lemma last_after_last s p v s' x :
  fset (cl_last C) s p v = Some s' →
  fget (cl_last C) s' x = if decide (p = x) then Some v else fget (cl_last C) s x.
Proof.
  intros Hs. case_decide as Hd; [subst; by apply (fget_fset_eq _ _ _ _ _ Hs)|].
  by apply (fget_fset_ne _ _ _ _ _ _ Hs).
Qed.

Lemma last_after_next s p v s' x :
  fset (cl_next C) s p v = Some s' → fget (cl_last C) s' x = fget (cl_last C) s x.
Proof. apply (ck_next_last (C:=C) x). Qed.

Lemma next_after_last s p v s' x :
  fset (cl_last C) s p v = Some s' → fget (cl_next C) s' x = fget (cl_next C) s x.
Proof. apply (ck_last_next (C:=C) x). Qed.
End field_values.

(** Compute the link fields of the current state from those of the first one. *)
Ltac clist_fields :=
  repeat match goal with
  | Hs : fset (cl_next _) _ _ _ = Some ?s |- context [fget (cl_next _) ?s _] =>
      rewrite !(next_after_next _ _ _ _ _ _ Hs)
  | Hs : fset (cl_last _) _ _ _ = Some ?s |- context [fget (cl_next _) ?s _] =>
      rewrite !(next_after_last _ _ _ _ _ _ Hs)
  | Hs : fset (cl_next _) _ _ _ = Some ?s |- context [fget (cl_last _) ?s _] =>
      rewrite !(last_after_next _ _ _ _ _ _ Hs)
  | Hs : fset (cl_last _) _ _ _ = Some ?s |- context [fget (cl_last _) ?s _] =>
      rewrite !(last_after_last _ _ _ _ _ _ Hs)
  end;
  repeat case_decide; simplify_eq.

Section contract.
Context {St : Type} (C : clist_ops St) `{!ClistOk C}.

Lemma last_NoDup_not_tail (h : ptr) (t : list ptr) :
  NoDup (h :: t) → h ∉ t.
Proof. by inversion 1. Qed.

(** [clist_insert] pushes the new node in front. *)
Lemma clist_insert_spec s p l inn :
  clist C s p l → inn ≠ NULL → inn ∉ l →
  is_Some (fget (cl_next C) s inn) → is_Some (fget (cl_last C) s inn) →
  wp (clist_insert C p inn)
     (λ r s', r = inn ∧ clist C s' inn (inn :: l) ∧ clist_only C s s' (inn :: l)) s.
Proof.
  intros Hc Hnn Hout Hvn Hvl. unfold clist_insert.
  destruct (Z.eqb_spec p NULL) as [->|Hp].
  - apply clist_nil in Hc as ->.
    apply wp_bind, (wp_store (cl_next C)); [done|]. intros s1 Hs1.
    apply wp_bind, (wp_store (cl_last C)); [clist_fields; done|]. intros s2 Hs2.
    apply wp_ret. split_and!; [done| |].
    + split_and!; [done|apply NoDup_singleton|set_solver|]. simpl.
      split_and!; [done|clist_fields; done|clist_fields; done].
    + eapply (clist_only_trans C);
        [eapply clist_only_next|eapply clist_only_last]; eauto; by left.
  - destruct (clist_cons _ _ _ _ Hc Hp) as (t & e & -> & Hlast & Hep & Hpe).
    assert (e ∈ p :: t) as He by by apply last_Some_elem_of.
    destruct (clist_valid _ _ _ _ e Hc He) as [Hven Hvel].
    destruct Hc as (Hl & Hnd & Hn & _).
    assert (inn ≠ p ∧ inn ≠ e) as [Hip Hie] by set_solver.
    apply wp_bind, (wp_store (cl_next C)); [done|]. intros s1 Hs1.
    apply wp_bind, (wp_load (cl_last C)) with e; [clist_fields; done|].
    apply wp_bind, (wp_store (cl_last C)); [clist_fields; done|]. intros s2 Hs2.
    apply wp_bind, (wp_load (cl_last C)) with e; [clist_fields; done|].
    apply wp_bind, (wp_store (cl_next C)); [clist_fields; done|]. intros s3 Hs3.
    apply wp_bind, (wp_store (cl_last C)); [clist_fields; eauto|]. intros s4 Hs4.
    apply wp_ret. split_and!; [done| |].
    + split_and!.
      * change (inn :: p :: t) with ([inn] ++ p :: t). apply links_app. split_and!.
        -- simpl. done.
        -- apply (links_frame _ s); [| |done|done].
           ++ intros x Hx Hxl. rewrite Hlast in Hxl. assert (x ≠ e) by congruence.
              clist_fields; done || set_solver.
           ++ intros x Hx. simpl in Hx. apply last_NoDup_not_tail in Hnd.
              clist_fields; done || set_solver.
        -- simpl. clist_fields; done.
      * by constructor.
      * set_solver.
      * rewrite last_cons_cons, Hlast. simpl. clist_fields; done.
    + eapply (clist_only_trans C); [eapply (clist_only_next C); [done|set_solver]|].
      eapply (clist_only_trans C); [eapply (clist_only_last C); [done|set_solver]|].
      eapply (clist_only_trans C); [eapply (clist_only_next C); [done|set_solver]|].
      eapply (clist_only_last C); [done|set_solver].
Qed.

(** [clist_delete] unlinks the node it is given and returns its successor,
    or null when it was the only node. *)
Lemma clist_delete_spec s p l :
  clist C s p l →
  wp (clist_delete C p)
     (λ r s', r = default NULL (head (tail l)) ∧ clist C s' r (tail l) ∧
              clist_only C s s' l) s.
Proof.
  intros Hc. unfold clist_delete. destruct (Z.eqb_spec p NULL) as [->|Hp].
  { apply clist_nil in Hc as ->. apply wp_ret.
    split_and!; [done|apply clist_empty|apply clist_only_refl]. }
  destruct (clist_cons _ _ _ _ Hc Hp) as (t & e & -> & Hlast & Hep & Hpe).
  destruct (clist_valid _ _ _ _ p Hc ltac:(by left)) as [[n Hn] Hvl].
  apply wp_bind, (wp_load (cl_next C)) with n; [done|].
  destruct Hc as (Hl & Hnd & Hnn & _). destruct t as [|y t].
  { simpl in Hlast. simplify_eq. rewrite Z.eqb_refl. apply wp_ret.
    split_and!; [done|apply clist_empty|apply clist_only_refl]. }
  simpl in Hl. destruct Hl as ((Hpy & Hyp) & Hl). simplify_eq.
  inversion Hnd as [|?? Hpt Hnd']; subst.
  rewrite last_cons_cons in Hlast.
  assert (e ∈ y :: t) as He by by apply last_Some_elem_of.
  assert (p ≠ y ∧ p ≠ e) as [Hpy' Hpe'] by set_solver.
  rewrite (proj2 (Z.eqb_neq p y)) by done.
  apply wp_bind, (wp_load (cl_last C)) with e; [done|].
  apply wp_bind, (wp_load (cl_next C)) with y; [done|].
  apply wp_bind, (wp_store (cl_next C)); [done|]. intros s1 Hs1.
  apply wp_bind, (wp_load (cl_next C)) with y; [clist_fields; done|].
  apply wp_bind, (wp_load (cl_last C)) with e; [clist_fields; done|].
  apply wp_bind, (wp_store (cl_last C)); [clist_fields; eauto|]. intros s2 Hs2.
  apply (wp_load (cl_next C)) with y; [clist_fields; done|]. simpl tail.
  split_and!; [done| |].
  - split_and!; [|done|set_solver|].
    + apply (links_frame _ s); [| |done|done].
      * intros x Hx Hxl. rewrite Hlast in Hxl. assert (x ≠ e) by congruence.
        clist_fields; done.
      * intros x Hx. simpl in Hx. apply last_NoDup_not_tail in Hnd'.
        clist_fields; done || set_solver.
    + rewrite Hlast. simpl. clist_fields; done.
  - eapply (clist_only_trans C);
      [eapply (clist_only_next C); [done|set_solver]|
       eapply (clist_only_last C); [done|set_solver]].
Qed.

(** Deleting any node of the list. *)
Lemma clist_delete_mid s p l1 x l2 :
  clist C s p (l1 ++ x :: l2) →
  wp (clist_delete C x)
     (λ r s', r = default NULL (head (l2 ++ l1)) ∧ clist C s' r (l2 ++ l1) ∧
              clist_only C s s' (l1 ++ x :: l2)) s.
Proof.
  intros Hc. apply clist_rotate in Hc.
  eapply wp_mono; [by apply clist_delete_spec|]. simpl.
  intros r s' (-> & Hc' & Ho & Hfr). split_and!; [done|done|].
  split; [done|]. intros y Hy. apply Hfr. set_solver.
Qed.

(** Unlinking a node by hand, back link first: the list is still denoted by
    any of the other nodes. *)
Lemma clist_unlink_spec s p x l1 l2 :
  clist C s p (p :: l1 ++ x :: l2) →
  wp (n ← load (cl_next C) x; l ← load (cl_last C) x;
      store (cl_last C) n l;;
      l ← load (cl_last C) x; n ← load (cl_next C) x;
      store (cl_next C) l n)
     (λ _ s', clist C s' p (p :: l1 ++ l2) ∧ clist_only C s s' (p :: l1 ++ x :: l2)) s.
Proof.
  intros Hc. pose proof (clist_rotate C s p (p :: l1) x l2 Hc) as Hr.
  assert (∃ y t, l2 ++ p :: l1 = y :: t) as (y & t & Heq) by (destruct l2; simpl; eauto).
  rewrite Heq in Hr.
  destruct (clist_cons _ _ _ _ Hr) as (? & e & [= <-] & Hlast & Hep & Hpe).
  { destruct Hr as (_ & _ & Hnn & _). apply Hnn. by left. }
  destruct Hr as (Hl & Hnd & Hnn & _). simpl in Hl. destruct Hl as ((Hpy & Hyp) & Hl).
  inversion Hnd as [|?? Hpt Hnd']; subst. rewrite last_cons_cons in Hlast.
  assert (e ∈ y :: t) as He by by apply last_Some_elem_of.
  assert (x ≠ y ∧ x ≠ e) as [Hxy Hxe] by set_solver.
  apply wp_bind, (wp_load (cl_next C)) with y; [done|].
  apply wp_bind, (wp_load (cl_last C)) with e; [done|].
  apply wp_bind, (wp_store (cl_last C)); [eauto|]. intros s1 Hs1.
  apply wp_bind, (wp_load (cl_last C)) with e; [clist_fields; done|].
  apply wp_bind, (wp_load (cl_next C)) with y; [clist_fields; done|].
  apply (wp_store (cl_next C)); [clist_fields; eauto|]. intros s2 Hs2. split.
  - apply (clist_rotate C s2 y l2 p l1). rewrite Heq. split_and!; [|done|set_solver|].
    + apply (links_frame C s); [| |done|done].
      * intros z Hz Hzl. rewrite Hlast in Hzl. assert (z ≠ e) by congruence.
        clist_fields; done.
      * intros z Hz. simpl in Hz. apply last_NoDup_not_tail in Hnd'.
        clist_fields; done || set_solver.
    + rewrite Hlast. simpl. clist_fields; done.
  - assert (∀ z, z ∈ y :: t → z ∈ p :: l1 ++ x :: l2) as Hin.
    { intros z. rewrite <-Heq. set_solver. }
    eapply (clist_only_trans C);
      [eapply (clist_only_last C); [done|]|eapply (clist_only_next C); [done|]]; apply Hin;
      [by left|done].
Qed.

(** The successor of a node is a node. *)
Lemma clist_next_in s p l x :
  clist C s p l → x ∈ l → ∃ y, fget (cl_next C) s x = Some y ∧ y ∈ l ∧ y ≠ NULL.
Proof.
  intros Hc (l1 & l2 & ->)%list_elem_of_split.
  pose proof (clist_rotate C _ _ _ _ _ Hc) as (_ & _ & Hnn & _).
  assert (∃ y, fget (cl_next C) s x = Some y ∧ y ∈ l1 ++ x :: l2) as (y & Hy & Hin).
  { rewrite (clist_after C s p l1 x l2 Hc). eexists. split; [done|].
    destruct l2 as [|y l2]; simpl; [|set_solver].
    destruct l1 as [|h l1]; apply clist_head in Hc; subst; set_solver. }
  exists y. split_and!; [done|done|]. apply Hnn. set_solver.
Qed.
End contract.

(** ** Properties *)

Section properties.
Context {St : Type} (C : clist_ops St) `{!ClistOk C}.

(** [clist_insert] makes the new node the first of the list, in front of
    all the others in their order, and writes no other node. *)
Theorem clist_insert_pushes s p l inn :
  clist C s p l → inn ≠ NULL → inn ∉ l →
  is_Some (fget (cl_next C) s inn) → is_Some (fget (cl_last C) s inn) →
  ∃ s', clist_insert C p inn s = Done (inn, s') ∧ clist C s' inn (inn :: l) ∧
        clist_only C s s' (inn :: l).
Proof.
  intros Hc Hnn Hout Hn Hl.
  pose proof (clist_insert_spec C s p l inn Hc Hnn Hout Hn Hl) as (r & s' & Hr & -> & H)%wp_Done.
  eauto.
Qed.

(** [clist_delete] on any node of a list unlinks exactly that node: the
    ring of the others, from its successor on, is left and returned. *)
Theorem clist_delete_unlinks s p l1 x l2 :
  clist C s p (l1 ++ x :: l2) →
  ∃ s', clist_delete C x s = Done (default NULL (head (l2 ++ l1)), s') ∧
        clist C s' (default NULL (head (l2 ++ l1))) (l2 ++ l1) ∧
        clist_only C s s' (l1 ++ x :: l2).
Proof.
  intros Hc. pose proof (clist_delete_mid C s p l1 x l2 Hc) as (r & s' & Hr & -> & H)%wp_Done.
  eauto.
Qed.
End properties.
