(* ===== verification/SiftHeap.v ===== *)
(** * Indexed binary heaps

    src/sched/priority_heap.c, src/sched/affinity_heap.c and the colour table of
    src/mem/phys_mem/page_alloc.c are the same algorithm: a binary heap in an
    array, in which an element is moved by shifting a hole up and then down,
    and every move also records the new index in the element itself.  The two
    loops are modelled here once, over an arbitrary state; the three clients
    provide the array, the key and the write that moves an element.

    Indices are the code's 1-based [i]; the array cell of [i] is [i - 1].  They
    are natural numbers: an array of pointers in a 32-bit address space has
    fewer than 2^30 cells, so [2 * i + 1] does not overflow an [int]. *)

From S2P Require Import Prelude.

#[local] Ltac Zify.zify_post_hook ::= Z.to_euclidean_division_equations.

Record sift_ops (St : Type) := SiftOps {
  so_size : St → nat;
  so_arr : St → list Z;
  so_key : St → Z → option Z;
  so_pos : St → Z → option nat;
  so_place : nat → Z → M St unit;
  so_before : Z → Z → bool;
}.
Arguments SiftOps {St}.
Arguments so_size {St}.
Arguments so_arr {St}.
Arguments so_key {St}.
Arguments so_pos {St}.
Arguments so_place {St}.
Arguments so_before {St}.

Section sift.
Context {St : Type} (O : sift_ops St).

(** [data_name[j]] *)
Definition arr_get (j : nat) : M St Z := getopt (λ s, so_arr O s !! j).

Definition elt_before (a b : Z) : M St bool :=
  ka ← getopt (λ s, so_key O s a);
  kb ← getopt (λ s, so_key O s b);
  mret (so_before O ka kb).

(** [while(i != 1 && tmp before data_name[(i / 2) - 1]) ...] *)
Definition bubble_step (tmp : Z) (i : nat) : M St (nat + nat) :=
  if (i =? 1)%nat then mret (Break i) else
  p ← arr_get (i / 2 - 1);
  b ← elt_before tmp p;
  if (b : bool) then so_place O i p;; mret (Continue (i / 2)%nat)
  else mret (Break i).

Definition bubble_up (tmp : Z) (i : nat) : M St nat :=
  fuel ← gets (so_size O);
  loop (S fuel) (bubble_step tmp) i.

(** [while(cont) ...]: [pick] is the nest of conditions that chooses the
    child to pull up, if any. *)
Definition fall_step (pick : Z → nat → M St (option nat)) (tmp : Z) (i : nat) :
    M St (nat + nat) :=
  c ← pick tmp i;
  match c with
  | None => mret (Break i)
  | Some c => e ← arr_get (c - 1); so_place O i e;; mret (Continue c)
  end.

Definition fall_down (pick : Z → nat → M St (option nat)) (tmp : Z) (i : nat) :
    M St nat :=
  fuel ← gets (so_size O);
  loop (S fuel) (fall_step pick tmp) i.
End sift.

(** ** Correctness *)

Class SiftFrame {St T} (O : sift_ops St) (obs : St → T) : Prop :=
  sift_frame i e s s' : so_place O i e s = Done (tt, s') → obs s' = obs s.

Class SiftOk {St} (O : sift_ops St) : Prop := {
  sk_place i e s :
    1 ≤ i ≤ length (so_arr O s) → is_Some (so_key O s e) →
    wp (so_place O i e)
       (λ _ s', so_arr O s' = <[i - 1 := e]> (so_arr O s) ∧
                so_pos O s' e = Some i ∧
                (∀ x, x ≠ e → so_pos O s' x = so_pos O s x)) s;
  sk_size : SiftFrame O (so_size O);
  sk_key x : SiftFrame O (λ s, so_key O s x);
  sk_irrefl a : so_before O a a = false;
  sk_trans a b c : so_before O b a = false → so_before O c b = false →
                   so_before O c a = false;
  sk_total a b : so_before O a b = true → so_before O b a = false;
}.
Global Existing Instances sk_size sk_key.

Lemma take_last (v : list Z) (e : Z) :
  v !! (length v - 1) = Some e → take (length v - 1) v ++ [e] = v.
Proof.
  intros He. pose proof (lookup_lt_Some _ _ _ He).
  rewrite <-(take_drop (length v - 1) v) at 3. f_equal.
  rewrite (drop_S _ e), drop_ge by (done || lia). done.
Qed.

(** Cutting the last element off and moving it into the cell [i]. *)
Definition pull_last (v : list Z) (i : nat) (tmp : Z) : list Z :=
  <[i - 1 := tmp]> (take (length v - 1) v).

Lemma pull_last_perm (v : list Z) i e tmp :
  v !! (i - 1) = Some e → v !! (length v - 1) = Some tmp → i - 1 < length v - 1 →
  e :: pull_last v i tmp ≡ₚ v.
Proof.
  intros He Htmp Hi. unfold pull_last. set (w := take (length v - 1) v).
  assert (v = w ++ [tmp]) as Hv by (symmetry; by apply take_last).
  assert (w !! (i - 1) = Some e) as Hw by (unfold w; by rewrite lookup_take_lt by lia).
  pose proof (lookup_lt_Some _ _ _ Hw).
  rewrite insert_take_drop by done.
  rewrite <-(take_drop_middle w (i - 1) e Hw) in Hv at 1.
  rewrite Hv. solve_Permutation.
Qed.

Lemma pull_last_lookup (v : list Z) i tmp j :
  j < length v - 1 → j ≠ i - 1 → pull_last v i tmp !! j = v !! j.
Proof.
  intros Hj Hne. unfold pull_last.
  by rewrite list_lookup_insert_ne, lookup_take_lt by done.
Qed.

Lemma pull_last_length (v : list Z) i tmp : length (pull_last v i tmp) = length v - 1.
Proof. unfold pull_last. rewrite length_insert, length_take. lia. Qed.

Section correctness.
Context {St : Type} (O : sift_ops St) `{!SiftOk O}.

Definition sift_only (s s' : St) : Prop :=
  ∀ T (obs : St → T), SiftFrame O obs → obs s' = obs s.

Lemma sift_only_refl s : sift_only s s.
Proof. by intros T obs _. Qed.

Lemma sift_only_trans s1 s2 s3 : sift_only s1 s2 → sift_only s2 s3 → sift_only s1 s3.
Proof. intros H1 H2 T obs Hf. rewrite (H2 _ _ Hf). by apply H1. Qed.

(** Key order: [a] may stand above [b]. *)
Definition le (a b : Z) : Prop := so_before O b a = false.

Lemma le_trans a b c : le a b → le b c → le a c.
Proof. apply sk_trans. Qed.

Section keys.
Variable ks : Z → Z.  (** the keys of the elements, fixed during a sift *)

(** The element at 1-based index [j] respects its parent. *)
Definition ordered_at (v : list Z) (j : nat) : Prop :=
  ∀ a b, v !! (j - 1) = Some a → v !! (j / 2 - 1) = Some b → le (ks b) (ks a).

(** Heap order, except around the hole [i]. *)
Definition weak_heap (v : list Z) (i : nat) : Prop :=
  (∀ j, 2 ≤ j ≤ length v → j ≠ i → j / 2 ≠ i → ordered_at v j) ∧
  (∀ j a b, 2 ≤ j ≤ length v → j / 2 = i → 2 ≤ i →
     v !! (j - 1) = Some a → v !! (i / 2 - 1) = Some b → le (ks b) (ks a)).

Definition full_heap (v : list Z) : Prop :=
  ∀ j, 2 ≤ j ≤ length v → ordered_at v j.

Lemma full_heap_weak v i : full_heap v → weak_heap v i.
Proof.
  intros Hf. split; [eauto|].
  intros j a b Hj <- Hi Ha Hb.
  destruct (lookup_lt_is_Some_2 v (j / 2 - 1)) as [c Hc]; [lia|].
  eapply le_trans; [apply (Hf (j / 2)); [lia|done|done]|by apply (Hf j)].
Qed.

(** The array [s] holds [v], except in the cell of the hole [i]; [v] has the
    moving element [tmp] there. *)
Record holed (s : St) (v : list Z) (i : nat) (tmp : Z) : Prop := {
  ho_size : so_size O s = length v;
  ho_cap : length v ≤ length (so_arr O s);
  ho_idx : 1 ≤ i ≤ length v;
  ho_tmp : v !! (i - 1) = Some tmp;
  ho_arr j : j < length v → j ≠ i - 1 → so_arr O s !! j = v !! j;
  ho_pos j e : v !! j = Some e → j ≠ i - 1 → so_pos O s e = Some (S j);
  ho_key e : e ∈ v → so_key O s e = Some (ks e);
  ho_nodup : NoDup v;
}.

(** An array without a hole, and a heap at rest. *)
Record heap_shape (s : St) (v : list Z) : Prop := {
  hp_size : so_size O s = length v;
  hp_cap : length v ≤ length (so_arr O s);
  hp_arr j : j < length v → so_arr O s !! j = v !! j;
  hp_pos j e : v !! j = Some e → so_pos O s e = Some (S j);
  hp_key e : e ∈ v → so_key O s e = Some (ks e);
  hp_nodup : NoDup v;
}.

Definition heap_at (s : St) (v : list Z) : Prop := heap_shape s v ∧ full_heap v.

(** Moving [e] from index [p] into the hole [i]. *)
Definition shift (v : list Z) (i p : nat) (tmp e : Z) : list Z :=
  <[p - 1 := tmp]> (<[i - 1 := e]> v).

Lemma shift_perm v i p tmp e :
  i - 1 ≠ p - 1 → v !! (i - 1) = Some tmp → v !! (p - 1) = Some e →
  shift v i p tmp e ≡ₚ v.
Proof.
  intros Hne Hi Hp. by apply swap_perm.
Qed.

Lemma shift_lookup v i p tmp e j :
  i - 1 < length v → p - 1 < length v →
  shift v i p tmp e !! j =
    if decide (j = p - 1) then Some tmp else
    if decide (j = i - 1) then Some e else v !! j.
Proof.
  intros Hi Hp. unfold shift. repeat case_decide; subst.
  - by rewrite list_lookup_insert_eq by (by rewrite length_insert).
  - by rewrite list_lookup_insert_ne, list_lookup_insert_eq by done.
  - by rewrite !list_lookup_insert_ne by done.
Qed.

Lemma holed_move s v i p tmp e :
  holed s v i tmp → 1 ≤ p ≤ length v → p ≠ i → v !! (p - 1) = Some e →
  wp (so_place O i e)
     (λ _ s', holed s' (shift v i p tmp e) p tmp ∧ sift_only s s') s.
Proof.
  intros [Hsz Hcap Hidx Htmp Harr Hpos Hkey Hnd] Hp Hne He.
  assert (e ≠ tmp) as Het.
  { intros ->. apply Hne. pose proof (NoDup_lookup _ _ _ _ Hnd He Htmp). lia. }
  assert (e ∈ v) as Hev by (by eapply list_elem_of_lookup_2).
  pose proof (sk_place i e s) as Hpl. specialize (Hpl ltac:(lia)).
  specialize (Hpl ltac:(rewrite Hkey by done; eauto)).
  apply wp_Done in Hpl as (u & s' & Hrun & Harr' & Hpe & Hpo). destruct u.
  apply wp_Done. exists tt, s'. split; [done|].
  assert (sift_only s s') as Ho.
  { intros T obs Hf. by eapply Hf. }
  assert (length (shift v i p tmp e) = length v) as Hlen.
  { unfold shift. by rewrite !length_insert. }
  split; [|done]. split; rewrite ?Hlen.
  - by rewrite (Ho _ _ sk_size).
  - by rewrite Harr', length_insert.
  - done.
  - rewrite shift_lookup by lia. by rewrite decide_True by done.
  - intros j Hj Hjp. rewrite shift_lookup by lia. rewrite decide_False by done.
    rewrite Harr'. case_decide; subst.
    + by rewrite list_lookup_insert_eq by lia.
    + rewrite list_lookup_insert_ne by done. by apply Harr.
  - intros j x. rewrite shift_lookup by lia. intros Hj Hjp.
    rewrite decide_False in Hj by done. case_decide as Hd.
    + simplify_eq. rewrite Hpe. f_equal. lia.
    + rewrite Hpo; [by apply Hpos|]. intros ->.
      pose proof (NoDup_lookup _ _ _ _ Hnd He Hj). lia.
  - intros x Hx. rewrite (Ho _ _ (sk_key x)). apply Hkey.
    by rewrite <-(shift_perm v i p tmp e) by (done || lia).
  - by rewrite shift_perm by (done || lia).
Qed.

Lemma weak_heap_up v i tmp e :
  weak_heap v i → 2 ≤ i ≤ length v → v !! (i - 1) = Some tmp →
  v !! (i / 2 - 1) = Some e → so_before O (ks tmp) (ks e) = true →
  weak_heap (shift v i (i / 2) tmp e) (i / 2).
Proof.
  intros [Hw Hg] Hi Htmp He Hlt.
  assert (length (shift v i (i / 2) tmp e) = length v) as Hlen.
  { unfold shift. by rewrite !length_insert. }
  split; rewrite Hlen.
  - intros j Hj Hji Hjp a b. rewrite !shift_lookup by lia.
    rewrite (decide_False (P:=j - 1 = i / 2 - 1)) by lia.
    rewrite (decide_False (P:=j / 2 - 1 = i / 2 - 1)) by lia.
    assert (j ≠ i) by (intros ->; lia).
    rewrite (decide_False (P:=j - 1 = i - 1)) by lia.
    case_decide as Hd.
    + intros Ha [= <-]. eapply (Hg j); eauto; lia.
    + intros Ha Hb. apply (Hw j); [done..|lia|done|done].
  - intros j a b Hj Hjp Hp. rewrite !shift_lookup by lia.
    rewrite (decide_False (P:=j - 1 = i / 2 - 1)) by lia.
    rewrite (decide_False (P:=i / 2 / 2 - 1 = i / 2 - 1)) by lia.
    rewrite (decide_False (P:=i / 2 / 2 - 1 = i - 1)) by lia.
    case_decide as Hd.
    + intros [= <-] Hb. apply (Hw (i / 2)); [lia..|done|done].
    + intros Ha Hb.
      apply le_trans with (ks e); [apply (Hw (i / 2)); done || lia|].
      apply (Hw j); [lia|lia|lia|done|]. by rewrite Hjp.
Qed.

Lemma weak_heap_down v i c tmp e :
  weak_heap v i → ordered_at v i → 1 ≤ i → c / 2 = i → 2 ≤ c ≤ length v →
  v !! (i - 1) = Some tmp → v !! (c - 1) = Some e →
  so_before O (ks e) (ks tmp) = true →
  (∀ j a, 2 ≤ j ≤ length v → j / 2 = i → v !! (j - 1) = Some a → le (ks e) (ks a)) →
  weak_heap (shift v i c tmp e) c ∧ ordered_at (shift v i c tmp e) c.
Proof.
  intros [Hw Hg] Hoi Hi Hci Hc Htmp He Hlt Hbest.
  assert (length (shift v i c tmp e) = length v) as Hlen.
  { unfold shift. by rewrite !length_insert. }
  split; [split; rewrite Hlen|].
  - intros j Hj Hjc Hjp a b. rewrite !shift_lookup by lia.
    rewrite (decide_False (P:=j - 1 = c - 1)) by lia.
    rewrite (decide_False (P:=j / 2 - 1 = c - 1)) by lia.
    case_decide as Hd1; case_decide as Hd2; try lia.
    + assert (j = i) as -> by lia. intros [= <-] Hb.
      destruct (decide (i = 1)) as [->|]; [lia|]. eapply (Hg c); eauto; lia.
    + intros Ha [= <-]. apply (Hbest j); [done|lia|done].
    + apply (Hw j); lia.
  - intros j a b Hj Hjc _. rewrite !shift_lookup by lia.
    rewrite (decide_False (P:=j - 1 = c - 1)) by lia.
    rewrite (decide_False (P:=j - 1 = i - 1)) by lia.
    rewrite (decide_False (P:=c / 2 - 1 = c - 1)) by lia.
    rewrite (decide_True (P:=c / 2 - 1 = i - 1)) by lia.
    intros Ha [= <-]. apply (Hw j); [lia|lia|lia|done|]. by rewrite Hjc.
  - intros a b. rewrite !shift_lookup by lia.
    rewrite (decide_True (P:=c - 1 = c - 1)) by lia.
    rewrite (decide_False (P:=c / 2 - 1 = c - 1)) by lia.
    rewrite (decide_True (P:=c / 2 - 1 = i - 1)) by lia.
    intros [= <-] [= <-]. by apply sk_total.
Qed.

Lemma wp_elt_before s a b (Q : bool → St → Prop) ka kb :
  so_key O s a = Some ka → so_key O s b = Some kb →
  Q (so_before O ka kb) s → wp (elt_before O a b) Q s.
Proof.
  intros Ha Hb HQ.
  apply wp_bind, (wp_getopt _ ka); [done|].
  apply wp_bind, (wp_getopt _ kb); [done|]. done.
Qed.

Lemma holed_get s v i tmp j e (Q : Z → St → Prop) :
  holed s v i tmp → j ≠ i - 1 → v !! j = Some e → Q e s → wp (arr_get O j) Q s.
Proof.
  intros Hh Hj He HQ. apply (wp_getopt _ e); [|done].
  rewrite (ho_arr _ _ _ _ Hh); [done| |done]. by eapply lookup_lt_Some.
Qed.

Lemma bubble_up_spec s v i tmp :
  holed s v i tmp → weak_heap v i →
  wp (bubble_up O tmp i)
     (λ i' s', ∃ v', v' ≡ₚ v ∧ holed s' v' i' tmp ∧ weak_heap v' i' ∧
                     (2 ≤ i' → ordered_at v' i') ∧ sift_only s s') s.
Proof.
  intros Hh Hw. apply wp_bind, wp_gets.
  apply wp_loop with
    (I := λ i' s', ∃ v', v' ≡ₚ v ∧ holed s' v' i' tmp ∧ weak_heap v' i' ∧
                         sift_only s s') (μ := λ i' _, i').
  - clear i Hh Hw. intros i s1 (v1 & Hperm & Hh & Hw & Ho). unfold bubble_step.
    pose proof (ho_idx _ _ _ _ Hh) as Hi. pose proof (ho_tmp _ _ _ _ Hh) as Htmp.
    destruct (Nat.eqb_spec i 1) as [->|Hi1].
    { apply wp_ret. exists v1. split_and!; [done..|lia|done]. }
    destruct (lookup_lt_is_Some_2 v1 (i / 2 - 1)) as [e He]; [lia|].
    apply wp_bind. eapply holed_get; [done|lia|done|].
    apply wp_bind. eapply wp_elt_before;
      [apply (ho_key _ _ _ _ Hh); by eapply list_elem_of_lookup_2..|].
    destruct (so_before O (ks tmp) (ks e)) eqn:Hlt.
    + apply wp_bind. eapply wp_mono; [eapply (holed_move s1 v1 i (i / 2)); done || lia|].
      intros [] s2 [Hh2 Ho2]. apply wp_ret. split; [|lia].
      exists (shift v1 i (i / 2) tmp e). split_and!.
      * rewrite <-Hperm. apply shift_perm; [lia|done|done].
      * done.
      * apply weak_heap_up; [done|lia|done..].
      * by eapply sift_only_trans.
    + apply wp_ret. exists v1. split_and!; [done..| |done].
      intros _ a b Ha Hb. simplify_eq. done.
  - exists v. split_and!; [done..|apply sift_only_refl].
  - rewrite (ho_size _ _ _ _ Hh). pose proof (ho_idx _ _ _ _ Hh). lia.
Qed.

(** What the choice of the child must guarantee. *)
Definition pick_ok (pick : Z → nat → M St (option nat)) : Prop :=
  ∀ s v i tmp, holed s v i tmp →
    wp (pick tmp i)
       (λ c s', s' = s ∧
          match c with
          | None => ∀ j a, 2 ≤ j ≤ length v → j / 2 = i → v !! (j - 1) = Some a →
                           le (ks tmp) (ks a)
          | Some c => 2 ≤ c ≤ length v ∧ c / 2 = i ∧ ∃ e, v !! (c - 1) = Some e ∧
              so_before O (ks e) (ks tmp) = true ∧
              (∀ j a, 2 ≤ j ≤ length v → j / 2 = i → v !! (j - 1) = Some a →
                      le (ks e) (ks a))
          end) s.

Lemma fall_down_spec pick s v i tmp :
  pick_ok pick → holed s v i tmp → weak_heap v i → (2 ≤ i → ordered_at v i) →
  wp (fall_down O pick tmp i)
     (λ i' s', ∃ v', v' ≡ₚ v ∧ holed s' v' i' tmp ∧ full_heap v' ∧
                     sift_only s s') s.
Proof.
  intros Hpick Hh Hw Hi. apply wp_bind, wp_gets.
  apply wp_loop with
    (I := λ i' s', ∃ v', v' ≡ₚ v ∧ holed s' v' i' tmp ∧ weak_heap v' i' ∧
                         (2 ≤ i' → ordered_at v' i') ∧ sift_only s s')
    (μ := λ i' _, length v - i').
  - clear i Hh Hw Hi. intros i s1 (v1 & Hperm & Hh & Hw & Hoi & Ho).
    pose proof (ho_idx _ _ _ _ Hh) as Hi. pose proof (ho_tmp _ _ _ _ Hh) as Htmp.
    apply wp_bind. eapply wp_mono; [by apply Hpick|].
    intros [c|] s1' [-> Hc].
    + destruct Hc as (Hcl & Hci & e & He & Hlt & Hbest).
      apply wp_bind. eapply holed_get; [done|lia|done|].
      apply wp_bind. eapply wp_mono; [eapply (holed_move s1 v1 i c); done || lia|].
      intros [] s2 [Hh2 Ho2]. apply wp_ret.
      assert (ordered_at v1 i) as Hoi'.
      { destruct (decide (2 ≤ i)); [by apply Hoi|]. assert (i = 1) as -> by lia.
        intros a b Ha Hb. simpl in *. simplify_eq. apply sk_irrefl. }
      destruct (weak_heap_down v1 i c tmp e) as [Hw' Ho']; try done || lia.
      apply Permutation_length in Hperm as Hlen.
      split; [|lia]. exists (shift v1 i c tmp e). split_and!; [|done..|].
      * rewrite <-Hperm. apply shift_perm; [lia|done|done].
      * by eapply sift_only_trans.
    + apply wp_ret. exists v1. split_and!; [done|done| |done].
      intros j Hj. destruct (decide (j = i)) as [->|]; [apply Hoi; lia|].
      destruct (decide (j / 2 = i)) as [Hji|]; [|by apply Hw].
      intros a b Ha Hb. rewrite Hji in Hb. simplify_eq. by apply (Hc j).
  - exists v. split_and!; [done..|apply sift_only_refl].
  - rewrite (ho_size _ _ _ _ Hh). lia.
Qed.

(** The last write fills the hole. *)
Lemma place_spec s v i tmp :
  holed s v i tmp → full_heap v →
  wp (so_place O i tmp) (λ _ s', heap_at s' v ∧ sift_only s s') s.
Proof.
  intros [Hsz Hcap Hidx Htmp Harr Hpos Hkey Hnd] Hf.
  pose proof (sk_place i tmp s) as Hpl. specialize (Hpl ltac:(lia)).
  assert (tmp ∈ v) as Htv by (by eapply list_elem_of_lookup_2).
  specialize (Hpl ltac:(rewrite Hkey by done; eauto)).
  apply wp_Done in Hpl as (u & s' & Hrun & Harr' & Hpe & Hpo). destruct u.
  apply wp_Done. exists tt, s'. split; [done|].
  assert (sift_only s s') as Ho.
  { intros T obs Hfr. by eapply Hfr. }
  split; [|done]. split; [|done]. split; [| | | | |done].
  - by rewrite (Ho _ _ sk_size).
  - by rewrite Harr', length_insert.
  - intros j Hj. rewrite Harr'. destruct (decide (j = i - 1)) as [->|].
    + by rewrite list_lookup_insert_eq by lia.
    + rewrite list_lookup_insert_ne by done. by apply Harr.
  - intros j e He. destruct (decide (j = i - 1)) as [->|].
    + simplify_eq. rewrite Hpe. f_equal. lia.
    + rewrite Hpo; [by apply Hpos|]. intros ->.
      pose proof (NoDup_lookup _ _ _ _ Hnd He Htmp). lia.
  - intros e He. rewrite (Ho _ _ (sk_key e)). by apply Hkey.
Qed.

(** The common ends of all operations: fall down (after bubbling up) and fill
    the hole. *)
Lemma sift_down_spec pick s v i tmp :
  pick_ok pick → holed s v i tmp → weak_heap v i → (2 ≤ i → ordered_at v i) →
  wp (i ← fall_down O pick tmp i; so_place O i tmp)
     (λ _ s', ∃ v', v' ≡ₚ v ∧ heap_at s' v' ∧ sift_only s s') s.
Proof.
  intros Hpick Hh Hw Ho. apply wp_bind. eapply wp_mono; [by apply fall_down_spec|].
  intros i' s1 (v1 & Hp1 & Hh1 & Hf1 & Ho1).
  eapply wp_mono; [by apply (place_spec s1 v1 i' tmp)|].
  intros [] s2 [Hh2 Ho2]. exists v1. split_and!; [done|done|].
  by eapply sift_only_trans.
Qed.

Lemma sift_spec pick s v i tmp :
  pick_ok pick → holed s v i tmp → weak_heap v i →
  wp (i ← bubble_up O tmp i; i ← fall_down O pick tmp i; so_place O i tmp)
     (λ _ s', ∃ v', v' ≡ₚ v ∧ heap_at s' v' ∧ sift_only s s') s.
Proof.
  intros Hpick Hh Hw. apply wp_bind. eapply wp_mono; [by apply bubble_up_spec|].
  intros i' s1 (v1 & Hp1 & Hh1 & Hw1 & Hf1 & Ho1).
  eapply wp_mono; [by apply (sift_down_spec pick s1 v1)|].
  intros [] s2 (v2 & Hp2 & Hh2 & Ho2). exists v2. split_and!; [by rewrite Hp2|done|].
  by eapply sift_only_trans.
Qed.

Lemma heap_shape_frame s s' v : heap_shape s v →
  so_size O s' = so_size O s → so_arr O s' = so_arr O s →
  (∀ e, e ∈ v → so_pos O s' e = so_pos O s e ∧ so_key O s' e = so_key O s e) →
  heap_shape s' v.
Proof.
  intros [Hsz Hcap Harr Hpos Hkey Hnd] Hs Ha He.
  split; rewrite ?Hs, ?Ha; try done.
  - intros j e Hj. destruct (He e) as [-> _]; [by eapply list_elem_of_lookup_2|eauto].
  - intros e Hev. destruct (He e Hev) as [_ ->]. eauto.
Qed.

(** Taking the element at index [i] out of the array makes a hole there. *)
Lemma shape_holed s v i tmp :
  heap_shape s v → 1 ≤ i → v !! (i - 1) = Some tmp → holed s v i tmp.
Proof.
  intros [Hsz Hcap Harr Hpos Hkey Hnd] Hi Htmp.
  pose proof (lookup_lt_Some _ _ _ Htmp). split; eauto; lia.
Qed.

(** *** Arrays out of order

    The operations keep the array and the recorded indices right even where
    the elements are not in order, and touch no element outside the array. *)

(** What a sift does to the elements outside [v]. *)
Definition sift_in (v : list Z) (s s' : St) : Prop :=
  sift_only s s' ∧ ∀ x, x ∉ v → so_pos O s' x = so_pos O s x.

Lemma sift_in_refl v s : sift_in v s s.
Proof. split; [apply sift_only_refl|done]. Qed.

Lemma sift_in_trans v s1 s2 s3 : sift_in v s1 s2 → sift_in v s2 s3 → sift_in v s1 s3.
Proof.
  intros [H1 F1] [H2 F2]. split; [by eapply sift_only_trans|].
  intros x Hx. by rewrite F2, F1.
Qed.

Lemma place_in s v i e :
  e ∈ v → is_Some (so_key O s e) → 1 ≤ i ≤ length (so_arr O s) →
  wp (so_place O i e) (λ _ s', sift_in v s s') s.
Proof.
  intros Hv Hk Hi. pose proof (sk_place i e s Hi Hk) as ([] & s' & Hrun & _ & _ & Hpo)%wp_Done.
  apply wp_Done. exists tt, s'. split; [done|]. split.
  - intros T obs Hf. by eapply Hf.
  - intros x Hx. apply Hpo. by intros ->.
Qed.

Lemma holed_move_in s v w i p tmp e :
  holed s v i tmp → v ≡ₚ w → 1 ≤ p ≤ length v → p ≠ i → v !! (p - 1) = Some e →
  wp (so_place O i e)
     (λ _ s', (∃ v', v' ≡ₚ w ∧ holed s' v' p tmp) ∧ sift_in w s s') s.
Proof.
  intros Hh Hvw Hp Hne He. pose proof Hh as [Hsz Hcap Hidx Htmp Harr Hpos Hkey Hnd].
  assert (e ∈ v) as Hev by (by eapply list_elem_of_lookup_2).
  pose proof (place_in s w i e) as Hin. rewrite <-Hvw in Hin.
  specialize (Hin Hev ltac:(rewrite Hkey by done; eauto) ltac:(lia)).
  pose proof (holed_move s v i p tmp e Hh Hp Hne He) as Hm.
  apply wp_Done in Hm as ([] & s' & Hrun & Hh' & _).
  unfold wp in *. rewrite Hrun in *. split.
  - exists (shift v i p tmp e). split; [|done]. rewrite <-Hvw. apply shift_perm; [lia|done|done].
  - exact Hin.
Qed.

Lemma bubble_up_in s v w i tmp :
  holed s v i tmp → v ≡ₚ w →
  wp (bubble_up O tmp i)
     (λ i' s', (∃ v', v' ≡ₚ w ∧ holed s' v' i' tmp) ∧ sift_in w s s') s.
Proof.
  intros Hh Hvw. apply wp_bind, wp_gets.
  apply wp_loop with
    (I := λ i' s', (∃ v', v' ≡ₚ w ∧ holed s' v' i' tmp) ∧ sift_in w s s') (μ := λ i' _, i').
  - clear v i Hh Hvw. intros i s1 [(v1 & Hperm & Hh) Ho]. unfold bubble_step.
    pose proof (ho_idx _ _ _ _ Hh) as Hi. pose proof (ho_tmp _ _ _ _ Hh) as Htmp.
    destruct (Nat.eqb_spec i 1) as [->|Hi1]; [apply wp_ret; eauto|].
    destruct (lookup_lt_is_Some_2 v1 (i / 2 - 1)) as [e He]; [lia|].
    apply wp_bind. eapply holed_get; [done|lia|done|].
    apply wp_bind. eapply wp_elt_before;
      [apply (ho_key _ _ _ _ Hh); by eapply list_elem_of_lookup_2..|].
    destruct (so_before O (ks tmp) (ks e)); [|apply wp_ret; eauto].
    apply wp_bind. eapply wp_mono; [eapply (holed_move_in s1 v1 w i (i / 2)); done || lia|].
    intros [] s2 [Hv2 Ho2]. apply wp_ret. split; [|lia]. split; [done|]. by eapply sift_in_trans.
  - split; [by exists v|apply sift_in_refl].
  - rewrite (ho_size _ _ _ _ Hh). pose proof (ho_idx _ _ _ _ Hh). lia.
Qed.

Lemma fall_down_in pick s v w i tmp :
  pick_ok pick → holed s v i tmp → v ≡ₚ w →
  wp (fall_down O pick tmp i)
     (λ i' s', (∃ v', v' ≡ₚ w ∧ holed s' v' i' tmp) ∧ sift_in w s s') s.
Proof.
  intros Hpick Hh Hvw. apply wp_bind, wp_gets.
  apply wp_loop with
    (I := λ i' s', (∃ v', v' ≡ₚ w ∧ holed s' v' i' tmp) ∧ sift_in w s s')
    (μ := λ i' _, length w - i').
  - intros j s1 [(v1 & Hperm & Hh1) Ho].
    pose proof (ho_idx _ _ _ _ Hh1) as Hi. apply Permutation_length in Hperm as Hlen.
    apply wp_bind. eapply wp_mono; [by apply Hpick|].
    intros [c|] s1' [-> Hc]; [|apply wp_ret; eauto].
    destruct Hc as (Hcl & Hci & e & He & _ & _).
    apply wp_bind. eapply holed_get; [done|lia|done|].
    apply wp_bind. eapply wp_mono; [eapply (holed_move_in s1 v1 w j c); done || lia|].
    intros [] s2 [Hv2 Ho2]. apply wp_ret. split; [|lia]. split; [done|]. by eapply sift_in_trans.
  - split; [by exists v|apply sift_in_refl].
  - rewrite (ho_size _ _ _ _ Hh). apply Permutation_length in Hvw. lia.
Qed.

Lemma place_shape s v w i tmp :
  holed s v i tmp → v ≡ₚ w →
  wp (so_place O i tmp) (λ _ s', heap_shape s' v ∧ sift_in w s s') s.
Proof.
  intros Hh Hvw. pose proof Hh as [Hsz Hcap Hidx Htmp Harr Hpos Hkey Hnd].
  assert (tmp ∈ v) as Htv by (by eapply list_elem_of_lookup_2).
  pose proof (place_in s w i tmp) as Hin. rewrite <-Hvw in Hin.
  specialize (Hin Htv ltac:(rewrite Hkey by done; eauto) ltac:(lia)).
  pose proof (sk_place i tmp s ltac:(lia) ltac:(rewrite Hkey by done; eauto)) as Hpl.
  apply wp_Done in Hpl as ([] & s' & Hrun & Harr' & Hpe & Hpo).
  unfold wp in *. rewrite Hrun in *. destruct Hin as [Ho Hin].
  split; [|by split].
  split; [| | | | |done].
  - by rewrite (Ho _ _ sk_size).
  - by rewrite Harr', length_insert.
  - intros j Hj. rewrite Harr'. destruct (decide (j = i - 1)) as [->|].
    + by rewrite list_lookup_insert_eq by lia.
    + rewrite list_lookup_insert_ne by done. by apply Harr.
  - intros j e He. destruct (decide (j = i - 1)) as [->|].
    + simplify_eq. rewrite Hpe. f_equal. lia.
    + rewrite Hpo; [by apply Hpos|]. intros ->.
      pose proof (NoDup_lookup _ _ _ _ Hnd He Htmp). lia.
  - intros e He. rewrite (Ho _ _ (sk_key e)). by apply Hkey.
Qed.

(** Both ends of the operations again, without any order. *)
Lemma sift_down_shape pick s v w i tmp :
  pick_ok pick → holed s v i tmp → v ≡ₚ w →
  wp (i ← fall_down O pick tmp i; so_place O i tmp)
     (λ _ s', (∃ v', v' ≡ₚ w ∧ heap_shape s' v') ∧ sift_in w s s') s.
Proof.
  intros Hpick Hh Hvw. apply wp_bind. eapply wp_mono; [by apply (fall_down_in pick s v w)|].
  intros i' s1 [(v1 & Hp1 & Hh1) Ho1].
  eapply wp_mono; [by apply (place_shape s1 v1 w i' tmp)|].
  intros [] s2 [Hh2 Ho2]. split; [by exists v1|]. by eapply sift_in_trans.
Qed.

Lemma sift_shape pick s v w i tmp :
  pick_ok pick → holed s v i tmp → v ≡ₚ w →
  wp (i ← bubble_up O tmp i; i ← fall_down O pick tmp i; so_place O i tmp)
     (λ _ s', (∃ v', v' ≡ₚ w ∧ heap_shape s' v') ∧ sift_in w s s') s.
Proof.
  intros Hpick Hh Hvw. apply wp_bind. eapply wp_mono; [by apply (bubble_up_in s v w)|].
  intros i' s1 [(v1 & Hp1 & Hh1) Ho1].
  eapply wp_mono; [by apply (sift_down_shape pick s1 v1 w)|].
  intros [] s2 [Hv2 Ho2]. split; [done|]. by eapply sift_in_trans.
Qed.

(** The first element of a heap is extremal. *)
Lemma full_heap_head v h e :
  full_heap v → head v = Some h → e ∈ v → le (ks h) (ks e).
Proof.
  intros Hf Hh [j Hj]%list_elem_of_lookup_1.
  assert (v !! 0 = Some h) as H0 by (by destruct v).
  revert e Hj. induction (lt_wf j) as [j _ IH]. intros e Hj.
  destruct (decide (j = 0)) as [->|Hne]; [simplify_eq; apply sk_irrefl|].
  pose proof (lookup_lt_Some _ _ _ Hj).
  destruct (lookup_lt_is_Some_2 v ((j + 1) / 2 - 1)) as [p Hp]; [lia|].
  apply le_trans with (ks p); [apply (IH ((j + 1) / 2 - 1)); [lia|done]|].
  apply (Hf (j + 1)); [lia| |done]. by replace (j + 1 - 1) with j by lia.
Qed.
Lemma pull_last_weak v i tmp :
  weak_heap v i → 1 ≤ i ≤ length v - 1 → weak_heap (pull_last v i tmp) i.
Proof.
  intros [Hw Hg] Hi. split; rewrite pull_last_length.
  - intros j Hj Hji Hjp a b. rewrite !pull_last_lookup by lia. apply Hw; lia.
  - intros j a b Hj Hjp Hi2. rewrite !pull_last_lookup by lia. apply Hg; lia.
Qed.

(** Dropping the last element keeps the order. *)
Lemma take_full v : full_heap v → full_heap (take (length v - 1) v).
Proof.
  intros Hf j. rewrite length_take. intros Hj a b.
  rewrite !lookup_take_lt by lia. apply Hf. lia.
Qed.
End keys.

(** Order and shape depend on the keys of the elements only. *)
Lemma ordered_at_ext ks ks' v j :
  (∀ e, e ∈ v → ks e = ks' e) → ordered_at ks v j → ordered_at ks' v j.
Proof.
  intros Heq Ho a b Ha Hb.
  rewrite <-!Heq by (by eapply list_elem_of_lookup_2). eauto.
Qed.

Lemma weak_heap_ext ks ks' v i :
  (∀ j e, v !! j = Some e → j ≠ i - 1 → ks e = ks' e) →
  weak_heap ks v i → 1 ≤ i → weak_heap ks' v i.
Proof.
  intros Heq [Hw Hg] Hi. split.
  - intros j Hj Hji Hjp a b Ha Hb.
    rewrite <-(Heq _ _ Ha), <-(Heq _ _ Hb) by lia. by apply (Hw j).
  - intros j a b Hj Hjp Hi2 Ha Hb.
    rewrite <-(Heq _ _ Ha), <-(Heq _ _ Hb) by lia. by apply (Hg j).
Qed.

Lemma heap_at_keys ks ks' s v :
  (∀ e, e ∈ v → ks e = ks' e) → heap_at ks s v → heap_at ks' s v.
Proof.
  intros Heq [[Hsz Hcap Harr Hpos Hkey Hnd] Hf]. split.
  - split; eauto. intros e He. rewrite <-Heq by done. eauto.
  - intros j Hj. by eapply ordered_at_ext, Hf.
Qed.
End correctness.
