(* ===== verification/BinHeap.v ===== *)
(** * The binary heap template of include/data_structures.h

    [BINARY_HEAP] generates a heap of elements of any type in a block of
    memory, with its size and capacity in front.  The elements may be records,
    which [memcpy] copies, or pointers, whose objects the accessor macros read
    and write; the model covers both.  The template binds neither [f_prefix]
    nor the index [num] from which its delete function starts; [num] is a
    variable of the place of expansion, an argument here.

    The falling loops compare a child with the old content of the hole, not with
    the element that moves, and the insertion never stores its element: the
    theorems at the end say what this does. *)

From S2P Require Import Prelude.
#[local] Open Scope Z_scope.

(** The macro arguments and the heaps in memory: the fields [size], [max] and
    [data_name] by the address of the heap.  [hp_set_key] and [hp_update] give
    the new value of the variable they are applied to. *)
Record heap_ops (St E : Type) := HeapOps {
  hp_comp : St → E → E → option Z;
  hp_get_key : St → E → option Z;
  hp_set_key : E → Z → M St E;
  hp_update : E → Z → M St E;
  hp_resize : Z → Z;
  hp_failure : E;
  hp_malloc : Z → M St ptr;
  hp_realloc : ptr → Z → M St ptr;
  hp_bytes : Z;
  hp_size : St → gmap ptr Z;
  hp_set_size : gmap ptr Z → St → St;
  hp_max : St → gmap ptr Z;
  hp_set_max : gmap ptr Z → St → St;
  hp_data : St → gmap (ptr * Z) E;
  hp_set_data : gmap (ptr * Z) E → St → St;
}.
Arguments HeapOps {St E}.
Arguments hp_comp {St E}.
Arguments hp_get_key {St E}.
Arguments hp_set_key {St E}.
Arguments hp_update {St E}.
Arguments hp_resize {St E}.
Arguments hp_failure {St E}.
Arguments hp_malloc {St E}.
Arguments hp_realloc {St E}.
Arguments hp_bytes {St E}.
Arguments hp_size {St E}.
Arguments hp_set_size {St E}.
Arguments hp_max {St E}.
Arguments hp_set_max {St E}.
Arguments hp_data {St E}.
Arguments hp_set_data {St E}.

(** [sizeof(prefix_heap)] without the array, which is also its offset. *)
Definition heap_header : Z := 8.

Section template.
Context {St E : Type} (O : heap_ops St E).

Definition heap_get_size (heap : ptr) : M St Z := getopt (λ s, hp_size O s !! heap).
Definition heap_get_max (heap : ptr) : M St Z := getopt (λ s, hp_max O s !! heap).
Definition heap_put_size (heap : ptr) (v : Z) : M St unit :=
  putopt (λ s, _ ← hp_size O s !! heap; Some (hp_set_size O (<[heap := v]> (hp_size O s)) s)).
Definition heap_put_max (heap : ptr) (v : Z) : M St unit :=
  putopt (λ s, _ ← hp_max O s !! heap; Some (hp_set_max O (<[heap := v]> (hp_max O s)) s)).

(** [heap->data_name[j]] *)
Definition bheap_at (heap : ptr) (j : Z) : M St E := getopt (λ s, hp_data O s !! (heap, j)).
Definition bheap_put (heap : ptr) (j : Z) (e : E) : M St unit :=
  putopt (λ s, _ ← hp_data O s !! (heap, j);
    Some (hp_set_data O (<[(heap, j) := e]> (hp_data O s)) s)).

(** [1 == comp(a, b)] *)
Definition above (a b : E) : M St bool := c ← getopt (λ s, hp_comp O s a b); mret (c =? 1).

(** [update_index(heap->data_name[i - 1], i)] *)
Definition bheap_update (heap : ptr) (i : Z) : M St unit :=
  e ← bheap_at heap (i - 1); e' ← hp_update O e i; bheap_put heap (i - 1) e'.

(** [memcpy(heap->data_name + (i - 1), heap->data_name + (c - 1), sizeof(type))]
    with the update of the index. *)
Definition bheap_move (heap : ptr) (i c : Z) : M St unit :=
  e ← bheap_at heap (c - 1); bheap_put heap (i - 1) e;; bheap_update heap i.

(** [while(i != 1 && 1 == comp(tmp, heap->data_name[(i / 2) - 1]))] *)
Definition heap_climb_step (heap : ptr) (tmp : E) (i : Z) : M St (Z + Z) :=
  if i =? 1 then mret (Break i) else
  p ← bheap_at heap (Z.quot i 2 - 1);
  b ← above tmp p;
  if (b : bool) then bheap_move heap i (Z.quot i 2);; mret (Continue (Z.quot i 2))
  else mret (Break i).

(** [(c <= heap->size) && 1 == comp(heap->data_name[c - 1], heap->data_name[d - 1])] *)
Definition child_above (heap : ptr) (c d : Z) : M St bool :=
  size ← heap_get_size heap;
  if u32 c <=? size then
    a ← bheap_at heap (c - 1);
    b ← bheap_at heap (d - 1);
    above a b
  else mret false.

(** One round of [while(cont)], which is the same in the three functions. *)
Definition heap_fall_step (heap : ptr) (i : Z) : M St (Z + Z) :=
  right ← child_above heap (2 * i + 1) i;
  if (right : bool) then
    l ← child_above heap (2 * i) (2 * i + 1);
    if (l : bool) then bheap_move heap i (2 * i);; mret (Continue (2 * i))
    else bheap_move heap i (2 * i + 1);; mret (Continue (2 * i + 1))
  else
    left ← child_above heap (2 * i) i;
    if (left : bool) then
      r ← child_above heap (2 * i + 1) (2 * i);
      if (r : bool) then bheap_move heap i (2 * i + 1);; mret (Continue (2 * i + 1))
      else bheap_move heap i (2 * i);; mret (Continue (2 * i))
    else mret (Break i).

(** The cells of a new block of [n] bytes, with indeterminate contents. *)
Definition new_heap (garbage : E) (out n : Z) : M St unit :=
  modify (λ s,
    if (out =? NULL) || (n <? heap_header) then s else
    hp_set_data O (list_to_map ((λ j, ((out, j), garbage)) <$>
                     seqZ 0 ((n - heap_header) / hp_bytes O)) ∪ hp_data O s)
      (hp_set_max O (<[out := 0]> (hp_max O s)) (hp_set_size O (<[out := 0]> (hp_size O s)) s))).

(** The template calls [malloc], not its argument [alloc_func]. *)
Definition bheap_init (garbage : E) (size : Z) : M St ptr :=
  let n := u32 (heap_header + u32 (hp_bytes O * size)) in
  out ← hp_malloc O n;
  new_heap garbage out n;;
  heap_put_size out 0;;
  heap_put_max out size;;
  mret out.

Definition bheap_insert (fuel : nat) (heap : ptr) (inn : E) : M St unit :=
  size ← heap_get_size heap;
  max ← heap_get_max heap;
  heap ← (if max <=? size then
            heap_put_max heap (hp_resize O max);;
            max ← heap_get_max heap;
            hp_realloc O (heap + heap_header) (u32 (heap_header + u32 (max * hp_bytes O)))
          else mret heap);
  size ← heap_get_size heap;
  heap_put_size heap (u32 (size + 1));;
  i ← loop fuel (heap_climb_step heap inn) (u32 (size + 1));
  _ ← loop fuel (heap_fall_step heap) i;
  mret tt.

Definition bheap_head (heap : ptr) : M St E :=
  size ← heap_get_size heap;
  if negb (0 =? size) then bheap_at heap 0 else mret (hp_failure O).

Definition bheap_delete (num : Z) (fuel : nat) (heap : ptr) (index : Z) : M St E :=
  size ← heap_get_size heap;
  if (0 =? size) || (0 =? index) || (size <? index) then mret (hp_failure O) else
  out ← bheap_at heap (index - 1);
  heap_put_size heap (size - 1);;
  if index - 1 =? size - 1 then mret out else
  if negb (0 =? size - 1) then
    tmp ← bheap_at heap (size - 1);
    i ← loop fuel (heap_climb_step heap tmp) num;
    _ ← loop fuel (heap_fall_step heap) i;
    mret out
  else mret out.

(** [memcpy(heap->data_name + (i - 1), &tmp, sizeof(type)); update_index(...)] *)
Definition bheap_settle (heap : ptr) (i : Z) (tmp : E) : M St unit :=
  bheap_put heap (i - 1) tmp;; bheap_update heap i.

Definition bheap_key_set (fuel : nat) (heap : ptr) (index key : Z) : M St unit :=
  size ← heap_get_size heap;
  if (0 =? size) || (0 =? index) || (size <? index) then mret tt else
  tmp ← bheap_at heap (index - 1);
  k ← getopt (λ s, hp_get_key O s tmp);
  if k =? key then mret tt else
  tmp ← hp_set_key O tmp key;
  if k <? key then
    if index =? 1 then mret tt else
    i ← loop fuel (heap_climb_step heap tmp) index;
    i ← loop fuel (heap_fall_step heap) i;
    bheap_settle heap i tmp
  else
    i ← loop fuel (heap_fall_step heap) index;
    bheap_settle heap i tmp.
End template.

(** ** Heaps of records *)

(** An order on elements, and what the macros and the memory owe the template:
    [update_index] leaves the element and the heaps alone, as the null macro
    does. *)
Class HeapOk {St E} (O : heap_ops St E) (cmp : E → E → Z) : Prop := {
  hk_comp s a b : hp_comp O s a b = Some (cmp a b);
  hk_data m s : hp_data O (hp_set_data O m s) = m;
  hk_size_data m s : hp_size O (hp_set_data O m s) = hp_size O s;
  hk_size m s : hp_size O (hp_set_size O m s) = m;
  hk_data_size m s : hp_data O (hp_set_size O m s) = hp_data O s;
  hk_update e i s : wp (hp_update O e i) (λ r s', r = e ∧ hp_data O s' = hp_data O s ∧
                                                  hp_size O s' = hp_size O s) s;
  hk_refl a : cmp a a ≠ 1;
  hk_trans a b c : cmp b a ≠ 1 → cmp c b ≠ 1 → cmp c a ≠ 1;
  hk_total a b : cmp a b = 1 → cmp b a ≠ 1;
}.

Section correctness.
Context {St E : Type} (O : heap_ops St E) (cmp : E → E → Z) `{!HeapOk O cmp} (heap : ptr).

(** The element at the 1-based index [i]. *)
Definition elt (v : list E) (i : Z) : option E := v !! Z.to_nat (i - 1).

(** The first cells of the heap hold [v]. *)
Definition cells (s : St) (v : list E) : Prop :=
  ∀ i, 1 ≤ i ≤ Z.of_nat (length v) → hp_data O s !! (heap, i - 1) = elt v i.

Record heap_rep (s : St) (v : list E) : Prop := {
  hr_size : hp_size O s !! heap = Some (Z.of_nat (length v));
  hr_cells : cells s v;
  hr_small : Z.of_nat (length v) < 2 ^ 30;
}.

(** No element is above its parent. *)
Definition ordered_at (v : list E) (j : Z) : Prop :=
  ∀ a b, elt v j = Some a → elt v (j / 2) = Some b → cmp a b ≠ 1.
Definition heap_order (v : list E) : Prop := ∀ j, 2 ≤ j ≤ Z.of_nat (length v) → ordered_at v j.

(** Heap order but for the hole [i]. *)
Definition weak_order (v : list E) (i : Z) : Prop :=
  (∀ j, 2 ≤ j ≤ Z.of_nat (length v) → j ≠ i → ordered_at v j) ∧
  (∀ j a b, 2 ≤ j ≤ Z.of_nat (length v) → j / 2 = i → 2 ≤ i →
     elt v j = Some a → elt v (i / 2) = Some b → cmp a b ≠ 1).

Definition put (v : list E) (i : Z) (e : E) : list E := <[Z.to_nat (i - 1) := e]> v.

Lemma elt_some v i : 1 ≤ i ≤ Z.of_nat (length v) → is_Some (elt v i).
Proof. intros Hi. apply lookup_lt_is_Some. lia. Qed.

Lemma elt_range v i a : 1 ≤ i → elt v i = Some a → i ≤ Z.of_nat (length v).
Proof. intros Hi Ha%lookup_lt_Some. lia. Qed.

Lemma elt_put v i e j : 1 ≤ i ≤ Z.of_nat (length v) → 1 ≤ j →
  elt (put v i e) j = if decide (j = i) then Some e else elt v j.
Proof.
  intros Hi Hj. unfold elt, put. case_decide as Hd.
  - subst. apply list_lookup_insert_eq. lia.
  - apply list_lookup_insert_ne. lia.
Qed.

Lemma put_length v i e : length (put v i e) = length v.
Proof. apply length_insert. Qed.

Lemma order_weak v i : heap_order v → weak_order v i.
Proof.
  intros Ho. split; [eauto|]. intros j a b Hj <- Hi Ha Hb.
  destruct (elt_some v (j / 2)) as [c Hc]; [lia|].
  eapply (hk_trans _ c); [by apply (Ho (j / 2)); [lia|..]|by apply (Ho j)].
Qed.

(** Pulling the parent into the hole repairs the order. *)
Lemma pull_order v i p : weak_order v i → 2 ≤ i ≤ Z.of_nat (length v) → elt v (i / 2) = Some p →
  heap_order (put v i p).
Proof.
  intros [Ho Hi'] Hi Hp j Hj a b. rewrite put_length in Hj. rewrite !elt_put by lia.
  destruct (decide (j = i)) as [->|Hne].
  - rewrite decide_False by lia. intros [= <-]. rewrite Hp. intros [= <-]. apply hk_refl.
  - destruct (decide (j / 2 = i)) as [Hd|Hd].
    + intros Ha [= <-]. apply (Hi' j a p); (done || lia).
    + intros Ha Hb. apply (Ho j); (done || lia).
Qed.

Lemma put_swap v i p e tmp : 1 ≤ i ≤ Z.of_nat (length v) → 1 ≤ p ≤ Z.of_nat (length v) → i ≠ p →
  elt v p = Some e → put (put v i e) p tmp ≡ₚ put v i tmp.
Proof.
  intros Hi Hp Hne He. unfold put.
  rewrite <-(list_insert_insert_eq v (Z.to_nat (i - 1)) e tmp). apply swap_perm; [lia|..].
  - apply list_lookup_insert_eq. lia.
  - rewrite list_lookup_insert_ne by lia. exact He.
Qed.

(** The moving element settles where it is above what was there but not above
    the parent. *)
Lemma settle_order v i x tmp : heap_order v → 1 ≤ i → elt v i = Some x → cmp x tmp ≠ 1 →
  (2 ≤ i → ∀ p, elt v (i / 2) = Some p → cmp tmp p ≠ 1) → heap_order (put v i tmp).
Proof.
  intros Ho Hi Hx Hxt Hp j Hj a b. pose proof (elt_range v i x Hi Hx) as Hr.
  rewrite put_length in Hj. rewrite !elt_put by lia.
  destruct (decide (j = i)) as [->|Hne].
  - rewrite decide_False by lia. intros [= <-] Hb. apply Hp; (done || lia).
  - destruct (decide (j / 2 = i)) as [Hd|Hd].
    + intros Ha [= <-]. eapply hk_trans; [exact Hxt|]. apply (Ho j); [done|done|by rewrite Hd].
    + intros Ha Hb. apply (Ho j); (done || lia).
Qed.

(** ** The loops *)

Lemma wp_heap_at s v i (Q : E → St → Prop) :
  heap_rep s v → 1 ≤ i ≤ Z.of_nat (length v) → (∀ e, elt v i = Some e → Q e s) →
  wp (bheap_at O heap (i - 1)) Q s.
Proof.
  intros Hr Hi HQ. destruct (elt_some v i Hi) as [e He].
  apply (wp_getopt _ e); [|by apply HQ].
  destruct Hr as [_ Hc _]. by rewrite Hc.
Qed.

Lemma wp_heap_put s v i e (Q : unit → St → Prop) :
  heap_rep s v → 1 ≤ i ≤ Z.of_nat (length v) → (∀ s', heap_rep s' (put v i e) → Q tt s') →
  wp (bheap_put O heap (i - 1) e) Q s.
Proof.
  intros [Hs Hc Hb] Hi HQ. destruct (elt_some v i Hi) as [x Hx].
  eapply wp_putopt; [by rewrite (Hc i Hi), Hx|]. apply HQ. split.
  - by rewrite hk_size_data, put_length.
  - intros j. rewrite put_length. intros Hj. rewrite hk_data, elt_put by lia. case_decide as Hd.
    + subst. apply lookup_insert_eq.
    + rewrite lookup_insert_ne by (intros [=]; lia). by apply Hc.
  - by rewrite put_length.
Qed.

Lemma put_same v i e : elt v i = Some e → put v i e = v.
Proof. apply list_insert_id. Qed.

Lemma heap_update_spec s v i (Q : unit → St → Prop) :
  heap_rep s v → 1 ≤ i ≤ Z.of_nat (length v) → (∀ s', heap_rep s' v → Q tt s') →
  wp (bheap_update O heap i) Q s.
Proof.
  intros Hr Hi HQ. apply wp_bind. eapply wp_heap_at; [done|done|]. intros e He.
  apply wp_bind. eapply wp_mono; [apply hk_update|]. intros r s' (-> & Hd & Hs).
  eapply (wp_heap_put s' v); [|done|]; [|by rewrite put_same].
  destruct Hr as [H1 H2 H3]. split; [by rewrite Hs|intros j Hj; rewrite Hd; by apply H2|done].
Qed.

Lemma heap_move_spec s v i c (Q : unit → St → Prop) :
  heap_rep s v → 1 ≤ i ≤ Z.of_nat (length v) → 1 ≤ c ≤ Z.of_nat (length v) →
  (∀ s' e, elt v c = Some e → heap_rep s' (put v i e) → Q tt s') → wp (bheap_move O heap i c) Q s.
Proof.
  intros Hr Hi Hc HQ. apply wp_bind. eapply wp_heap_at; [done..|]. intros e He.
  apply wp_bind. eapply wp_heap_put; [done..|]. intros s' Hr'.
  eapply heap_update_spec; [done|by rewrite put_length|]. intros s2. by apply HQ.
Qed.

Lemma above_spec s a b (Q : bool → St → Prop) : Q (cmp a b =? 1) s → wp (above O a b) Q s.
Proof. intros HQ. apply wp_bind, (wp_getopt _ (cmp a b)); [apply hk_comp|by apply wp_ret]. Qed.

Lemma climb_loop fuel s v i tmp :
  heap_rep s v → weak_order v i → 1 ≤ i ≤ Z.of_nat (length v) → (Z.to_nat i ≤ fuel)%nat →
  wp (loop fuel (heap_climb_step O heap tmp) i)
     (λ i' s', ∃ v', heap_rep s' v' ∧ 1 ≤ i' ≤ Z.of_nat (length v') ∧
        put v' i' tmp ≡ₚ put v i tmp ∧ length v' = length v ∧ (∀ e, e ∈ v' → e ∈ v) ∧
        (i' = i ∧ v' = v ∨ heap_order v' ∧ ∃ x, elt v' i' = Some x ∧ cmp x tmp ≠ 1) ∧
        (2 ≤ i' → ∀ p, elt v' (i' / 2) = Some p → cmp tmp p ≠ 1) ∧
        ((2 ≤ i → ∀ p, elt v (i / 2) = Some p → cmp tmp p ≠ 1) → v' = v)) s.
Proof.
  revert s v i. induction fuel as [|fuel IH]; intros s v i Hr Hw Hi Hf; [lia|].
  cbn [loop]. apply wp_bind. unfold heap_climb_step. destruct (Z.eqb_spec i 1) as [->|Hne].
  { apply wp_ret, wp_ret. exists v. split_and!; [done|lia..|done|done|done|by left|lia|done]. }
  rewrite Z.quot_div_nonneg by lia. apply wp_bind. eapply wp_heap_at; [done|lia|]. intros p Hp.
  apply wp_bind, above_spec. destruct (Z.eqb_spec (cmp tmp p) 1) as [Hab|Hab].
  - apply wp_bind. eapply heap_move_spec; [done|lia|lia|]. intros s1 e He Hr1. rewrite Hp in He. simplify_eq.
    apply wp_ret. pose proof (pull_order v i e Hw ltac:(lia) Hp) as Ho1.
    assert (elt (put v i e) (i / 2) = Some e) as Hx by (rewrite elt_put by lia; by rewrite decide_False by lia).
    eapply wp_mono; [apply (IH s1 (put v i e) (i / 2)); [done|by apply order_weak|rewrite put_length; lia|lia]|].
    intros i' s' (v' & Hr' & Hi' & Hperm & Hlen & Hin & Hcase & Hpar & _).
    exists v'. split_and!; [done|lia..| |by rewrite Hlen, put_length| | |done|].
    + rewrite Hperm. apply put_swap; [lia..|done].
    + intros y Hy%Hin. apply list_elem_of_lookup in Hy as [j Hj].
      apply list_lookup_insert_Some in Hj as [(_ & <- & _)|[_ Hj]]; eapply list_elem_of_lookup_2; [exact Hp|exact Hj].
    + right. destruct Hcase as [[-> ->]|Hcase]; [|done]. split; [done|]. exists e. split; [done|].
      by apply hk_total.
    + intros Hno. by destruct (Hno ltac:(lia) e Hp).
  - apply wp_ret, wp_ret. exists v. split_and!; [done|lia..|done|done|done|by left| |done]. intros _ q Hq. congruence.
Qed.

(** On a heap that is in order around [i] nothing falls. *)
Lemma child_stays s v c d : heap_rep s v → 1 ≤ d ≤ Z.of_nat (length v) → 1 ≤ c < 2 ^ 32 →
  (c ≤ Z.of_nat (length v) → ∀ a b, elt v c = Some a → elt v d = Some b → cmp a b ≠ 1) →
  wp (child_above O heap c d) (λ r s', r = false ∧ s' = s) s.
Proof.
  intros Hr Hd Hc Hno. apply wp_bind. eapply wp_getopt; [apply Hr|]. rewrite u32_small by lia.
  destruct (Z.leb_spec c (Z.of_nat (length v))); [|by apply wp_ret].
  apply wp_bind. eapply wp_heap_at; [done|lia|]. intros a Ha.
  apply wp_bind. eapply wp_heap_at; [done|lia|]. intros b Hb. apply above_spec.
  split; [|done]. apply Z.eqb_neq. by apply Hno.
Qed.

Lemma fall_stays fuel s v i : heap_rep s v → 1 ≤ i ≤ Z.of_nat (length v) → (0 < fuel)%nat →
  (∀ j, 2 ≤ j ≤ Z.of_nat (length v) → j / 2 = i → ordered_at v j) →
  loop fuel (heap_fall_step O heap) i s = Done (i, s).
Proof.
  intros Hr Hi Hf Ho. destruct fuel as [|fuel]; [lia|]. apply run_wp. cbn [loop]. apply wp_bind.
  pose proof (hr_small _ _ Hr). apply wp_bind. eapply wp_mono.
  { apply (child_stays s v (2 * i + 1) i); [done..|lia|]. intros Hc a b Ha Hb.
    assert ((2 * i + 1) / 2 = i) as Hd by lia. eapply (Ho (2 * i + 1)); [lia|done|done|by rewrite Hd]. }
  intros r s' [-> ->]. apply wp_bind. eapply wp_mono.
  { apply (child_stays s v (2 * i) i); [done..|lia|]. intros Hc a b Ha Hb.
    assert ((2 * i) / 2 = i) as Hd by lia. eapply (Ho (2 * i)); [lia|done|done|by rewrite Hd]. }
  intros r s' [-> ->]. by apply wp_ret, wp_ret.
Qed.

(** ** The operations *)

Lemma settle_spec s v i tmp (Q : unit → St → Prop) :
  heap_rep s v → 1 ≤ i ≤ Z.of_nat (length v) → (∀ s', heap_rep s' (put v i tmp) → Q tt s') →
  wp (bheap_settle O heap i tmp) Q s.
Proof.
  intros Hr Hi HQ. apply wp_bind. eapply wp_heap_put; [done..|]. intros s1 Hr1.
  eapply heap_update_spec; [done|by rewrite put_length|done].
Qed.

(** Climbing and falling from a heap in order: the hole is where the element
    belongs, and nothing falls. *)
Lemma climb_fall fuel s v i tmp {A} (f : Z → M St A) Q :
  heap_rep s v → weak_order v i → 1 ≤ i ≤ Z.of_nat (length v) → (Z.to_nat i ≤ fuel)%nat →
  (heap_order v ∨ Z.of_nat (length v) < 2 * i) →
  (∀ i' s' v', heap_rep s' v' → 1 ≤ i' ≤ Z.of_nat (length v') → put v' i' tmp ≡ₚ put v i tmp →
     length v' = length v → (∀ e, e ∈ v' → e ∈ v) →
     (i' = i ∧ v' = v ∨ heap_order v' ∧ ∃ x, elt v' i' = Some x ∧ cmp x tmp ≠ 1) →
     (2 ≤ i' → ∀ p, elt v' (i' / 2) = Some p → cmp tmp p ≠ 1) →
     ((2 ≤ i → ∀ p, elt v (i / 2) = Some p → cmp tmp p ≠ 1) → v' = v) → wp (f i') Q s') →
  wp (i ← loop fuel (heap_climb_step O heap tmp) i; i ← loop fuel (heap_fall_step O heap) i; f i) Q s.
Proof.
  intros Hr Hw Hi Hf Ho HQ. apply wp_bind. eapply wp_mono; [by apply (climb_loop fuel s v i tmp)|].
  intros i' s' (v' & Hr' & Hi' & Hperm & Hlen & Hin & Hcase & Hpar & Hst). apply wp_bind. unfold wp at 1.
  rewrite (fall_stays fuel s' v' i'); [by apply (HQ i' s' v')|done|done|lia|].
  intros j Hj Hji. destruct Hcase as [[-> ->]|[Ho' _]]; [|by apply Ho'].
  destruct Ho as [Ho|Ho]; [by apply Ho|lia].
Qed.
End correctness.

(** ** Properties *)

(** Keys of records: [set_key] changes the copy it is given. *)
Class KeysOk {St E} (O : heap_ops St E) (cmp : E → E → Z) (key : E → Z) (setk : E → Z → E) : Prop := {
  ko_get s e : hp_get_key O s e = Some (key e);
  ko_set e k s : hp_set_key O e k s = Done (setk e k, s);
  ko_up e k : key e < k → cmp e (setk e k) ≠ 1;
}.

Section theorems.
Context {St E : Type} (O : heap_ops St E) (cmp : E → E → Z) `{!HeapOk O cmp} (heap : ptr).

Lemma rep_longer s v g : heap_rep O heap s v → hp_data O s !! (heap, Z.of_nat (length v)) = Some g →
  Z.of_nat (length v) + 1 < 2 ^ 30 → hp_size O s !! heap = Some (Z.of_nat (length v)) →
  heap_rep O heap (hp_set_size O (<[heap := Z.of_nat (length v) + 1]> (hp_size O s)) s) (v ++ [g]).
Proof.
  intros [Hs Hc Hb] Hg Hlt Hsz. assert (Z.of_nat (length (v ++ [g])) = Z.of_nat (length v) + 1) as Hl.
  { rewrite length_app. simpl. lia. }
  split; rewrite ?Hl; [by rewrite hk_size, lookup_insert_eq| |done].
  intros i. rewrite Hl. intros Hi. rewrite hk_data_size. unfold elt.
  destruct (decide (i = Z.of_nat (length v) + 1)) as [->|Hne].
  - rewrite lookup_app_r by lia. replace (Z.to_nat _ - length v)%nat with 0%nat by lia.
    simpl. rewrite <-Hg. do 2 f_equal. lia.
  - rewrite lookup_app_l by lia. apply Hc. lia.
Qed.

Lemma rep_shorter s v x : heap_rep O heap s (v ++ [x]) →
  heap_rep O heap (hp_set_size O (<[heap := Z.of_nat (length v)]> (hp_size O s)) s) v.
Proof.
  intros [Hs Hc Hb]. rewrite length_app in Hb. simpl in Hb.
  split; [by rewrite hk_size, lookup_insert_eq| |lia].
  intros i Hi. rewrite hk_data_size, Hc by (rewrite length_app; lia). unfold elt. rewrite lookup_app_l by lia. done.
Qed.

(** The heap template loses what is inserted.  With room in the block the
    insertion returns and counts one element more; the loops find the place
    where the new element would keep the heap in order, but it is never
    written there: what the heap holds afterwards was in it before, or is the
    old content [g] of the cell behind its end. *)
Theorem bheap_insert_loses s v g inn max fuel :
  heap_rep O heap s v → heap_order cmp v →
  hp_max O s !! heap = Some max → Z.of_nat (length v) < max → Z.of_nat (length v) + 1 < 2 ^ 30 →
  hp_data O s !! (heap, Z.of_nat (length v)) = Some g → (length v < fuel)%nat →
  ∃ s' v' i, bheap_insert O fuel heap inn s = Done (tt, s') ∧ heap_rep O heap s' v' ∧
    length v' = S (length v) ∧ (∀ e, e ∈ v' → e ∈ v ∨ e = g) ∧
    put v' i inn ≡ₚ inn :: v.
Proof.
  intros Hr Ho Hm Hlt Hb Hg Hf. pose proof Hr as [Hs _ _].
  pose proof (rep_longer s v g Hr Hg Hb Hs) as Hr1. set (n := Z.of_nat (length v)) in *.
  assert (length (v ++ [g]) = S (length v)) as Hl by (rewrite length_app; simpl; lia).
  assert (wp (bheap_insert O fuel heap inn) (λ _ s', ∃ v' i, heap_rep O heap s' v' ∧
    length v' = S (length v) ∧ (∀ e, e ∈ v' → e ∈ v ∨ e = g) ∧ put v' i inn ≡ₚ inn :: v) s) as Hwp.
  2: { apply wp_Done in Hwp as ([] & s' & Hd & v' & i & H). by exists s', v', i. }
  apply wp_bind, (wp_getopt _ n); [done|]. apply wp_bind, (wp_getopt _ max); [done|].
  rewrite (proj2 (Z.leb_gt max n)) by done. apply wp_bind, wp_ret.
  apply wp_bind, (wp_getopt _ n); [done|]. rewrite u32_small by lia.
  apply wp_bind. eapply wp_putopt; [by rewrite Hs|].
  eapply (climb_fall O cmp heap); [exact Hr1| |rewrite Hl; lia|lia|right; rewrite Hl; lia|].
  - split; [|intros j a b; rewrite Hl; lia]. intros j Hj Hne a b Ha Hbb. rewrite Hl in Hj.
    unfold elt in Ha, Hbb. rewrite lookup_app_l in Ha, Hbb by lia. apply (Ho j); [lia|done|done].
  - intros i' s' v' Hr' Hi' Hperm Hlen Hin _ _ _. apply wp_ret. exists v', i'. split_and!; [done|by rewrite Hlen| |].
    + intros e He%Hin. set_solver.
    + rewrite Hperm. unfold put. replace (Z.to_nat (n + 1 - 1)) with (length v + 0)%nat by lia.
      rewrite insert_app_r. simpl. by rewrite Permutation_app_comm.
Qed.

(** Deletion, started where the element is, returns the element but takes
    the last one out of the heap: the last element is compared on the way up,
    and never stored.  If it belongs where the deleted element was or below,
    nothing is moved at all, and the deleted element stays. *)
Theorem bheap_delete_drops_last s v index out tmp fuel :
  heap_rep O heap s (v ++ [tmp]) → heap_order cmp (v ++ [tmp]) → 1 ≤ index ≤ Z.of_nat (length v) →
  elt v index = Some out → (length v < fuel)%nat →
  ∃ s' v', bheap_delete O index fuel heap index s = Done (out, s') ∧ heap_rep O heap s' v' ∧
    length v' = length v ∧ heap_order cmp v' ∧ (∀ e, e ∈ v' → e ∈ v) ∧
    ((∀ p, elt v (index / 2) = Some p → cmp tmp p ≠ 1) → v' = v).
Proof.
  intros Hr Ho Hi Hout Hf. pose proof (rep_shorter s v tmp Hr) as Hr1. pose proof Hr as [Hs Hc _].
  assert (Z.of_nat (length (v ++ [tmp])) = Z.of_nat (length v) + 1) as Hl by (rewrite length_app; simpl; lia).
  rewrite Hl in Hs. set (n := Z.of_nat (length v)) in *.
  assert (∀ j, 1 ≤ j ≤ n → elt (v ++ [tmp]) j = elt v j) as Hv.
  { intros j Hj. unfold elt. by rewrite lookup_app_l by lia. }
  assert (heap_order cmp v) as Ho1.
  { intros j Hj a b Ha Hb. rewrite <-Hv in Ha, Hb by lia. by apply (Ho j); [lia|..]. }
  assert (wp (bheap_delete O index fuel heap index) (λ r s', r = out ∧ ∃ v', heap_rep O heap s' v' ∧
    length v' = length v ∧ heap_order cmp v' ∧ (∀ e, e ∈ v' → e ∈ v) ∧
    ((2 ≤ index → ∀ p, elt v (index / 2) = Some p → cmp tmp p ≠ 1) → v' = v)) s) as Hwp.
  2: { apply wp_Done in Hwp as (r & s' & Hd & -> & v' & ? & ? & ? & ? & Hst). exists s', v'. eauto 9. }
  apply wp_bind, (wp_getopt _ (n + 1)); [done|].
  replace ((0 =? n + 1) || (0 =? index) || (n + 1 <? index)) with false by lia.
  apply wp_bind, (wp_getopt _ out); [by rewrite Hc, Hv by lia|].
  replace (n + 1 - 1) with n by lia. apply wp_bind. eapply wp_putopt; [by rewrite Hs|].
  replace (index - 1 =? n) with false by lia. replace (0 =? n) with false by lia. simpl negb. cbv iota.
  apply wp_bind, (wp_getopt _ tmp).
  { rewrite hk_data_size. replace n with (n + 1 - 1) by lia. rewrite Hc by lia.
    unfold elt. rewrite lookup_app_r by lia. by replace (Z.to_nat (n + 1 - 1) - length v)%nat with 0%nat by lia. }
  eapply (climb_fall O cmp heap); [exact Hr1|by apply (order_weak O)|done|lia|by left|].
  intros i' s' v' Hr' Hi' _ Hlen Hin Hcase _ Hst. apply wp_ret. split; [done|].
  exists v'. split_and!; [done..| |done|done]. by destruct Hcase as [[_ ->]|[? _]].
Qed.

Section keys.
Context (key : E → Z) (setk : E → Z → E) `{!KeysOk O cmp key setk}.

(** Raising a key below the root works: the element goes up to where it
    belongs, and the heap stays in order with the same elements. *)
Theorem bheap_key_set_raises s v index e k fuel :
  heap_rep O heap s v → heap_order cmp v → 2 ≤ index → elt v index = Some e → key e < k →
  (length v < fuel)%nat →
  ∃ s' v', bheap_key_set O fuel heap index k s = Done (tt, s') ∧ heap_rep O heap s' v' ∧
    heap_order cmp v' ∧ v' ≡ₚ put v index (setk e k).
Proof.
  intros Hr Ho Hi He Hk Hf. pose proof (elt_range v index e ltac:(lia) He) as Hn. pose proof Hr as [Hs Hc _].
  assert (wp (bheap_key_set O fuel heap index k) (λ _ s', ∃ v', heap_rep O heap s' v' ∧
    heap_order cmp v' ∧ v' ≡ₚ put v index (setk e k)) s) as Hwp.
  2: { apply wp_Done in Hwp as ([] & s' & Hd & v' & H). by exists s', v'. }
  apply wp_bind, (wp_getopt _ (Z.of_nat (length v))); [done|].
  replace (_ || _) with false by lia.
  apply wp_bind, (wp_getopt _ e); [by rewrite Hc by lia|].
  apply wp_bind, (wp_getopt _ (key e)); [apply ko_get|]. rewrite (proj2 (Z.eqb_neq _ _)) by lia.
  apply wp_bind. unfold wp at 1. rewrite ko_set. rewrite (proj2 (Z.ltb_lt _ _)) by lia.
  rewrite (proj2 (Z.eqb_neq _ _)) by lia.
  eapply (climb_fall O cmp heap); [done|by apply (order_weak O)|lia|lia|by left|].
  intros i' s' v' Hr' Hi' Hperm Hlen _ Hcase Hpar _. eapply (settle_spec O cmp); [done|done|].
  intros s2 Hr2. exists (put v' i' (setk e k)). split_and!; [done| |done].
  destruct Hcase as [[-> ->]|(Ho' & x & Hx & Hxt)].
  - apply (settle_order O cmp v index e); [done|lia|done|by apply ko_up|done].
  - by apply (settle_order O cmp v' i' x); [done|lia|..].
Qed.

(** Other changes of a key do not move the element.  A raised root is not
    even written; an element whose key is lowered is written back where it was,
    whatever stands below it, because the falling loop compares the children
    with the element as it was before the change. *)
Theorem bheap_key_set_stays s v index e k fuel :
  heap_rep O heap s v → heap_order cmp v → 1 ≤ index → elt v index = Some e → key e ≠ k →
  k < key e ∨ index = 1 → (0 < fuel)%nat →
  ∃ s', bheap_key_set O fuel heap index k s = Done (tt, s') ∧
    heap_rep O heap s' (if key e <? k then v else put v index (setk e k)).
Proof.
  intros Hr Ho Hi He Hk Hcase Hf. pose proof (elt_range v index e ltac:(lia) He) as Hn. pose proof Hr as [Hs Hc _].
  assert (wp (bheap_key_set O fuel heap index k) (λ _ s',
    heap_rep O heap s' (if key e <? k then v else put v index (setk e k))) s) as Hwp.
  2: { apply wp_Done in Hwp as ([] & s' & Hd & H). by exists s'. }
  apply wp_bind, (wp_getopt _ (Z.of_nat (length v))); [done|].
  replace (_ || _) with false by lia.
  apply wp_bind, (wp_getopt _ e); [by rewrite Hc by lia|].
  apply wp_bind, (wp_getopt _ (key e)); [apply ko_get|]. rewrite (proj2 (Z.eqb_neq _ _)) by lia.
  apply wp_bind. unfold wp at 1. rewrite ko_set. destruct (Z.ltb_spec (key e) k) as [Hlt|Hge].
  - replace (index =? 1) with true by lia. by apply wp_ret.
  - apply wp_bind. unfold wp at 1. erewrite (fall_stays O cmp); [|done|lia|done|by intros; apply Ho].
    by eapply (settle_spec O cmp); [done|lia|].
Qed.
End keys.
End theorems.

(** ** An instance: records of a key and a value, the largest key first *)

Record kv_state := KvState {
  kv_size : gmap ptr Z;
  kv_max : gmap ptr Z;
  kv_data : gmap (ptr * Z) (Z * Z);
}.

Definition kv_cmp (a b : Z * Z) : Z := Z.sgn (a.1 - b.1).
Definition kv_set (e : Z * Z) (k : Z) : Z * Z := (k, e.2).

(** No allocator: the heaps below exist and have room. *)
Definition kv_heap : heap_ops kv_state (Z * Z) := {|
  hp_comp _ a b := Some (kv_cmp a b);
  hp_get_key _ e := Some e.1;
  hp_set_key e k := mret (kv_set e k);
  hp_update e _ := mret e;
  hp_resize n := 2 * n;
  hp_failure := (0, 0);
  hp_malloc _ := mret NULL;
  hp_realloc _ _ := mret NULL;
  hp_bytes := 8;
  hp_size := kv_size;
  hp_set_size m s := KvState m (kv_max s) (kv_data s);
  hp_max := kv_max;
  hp_set_max m s := KvState (kv_size s) m (kv_data s);
  hp_data := kv_data;
  hp_set_data m s := KvState (kv_size s) (kv_max s) m;
|}.

Global Instance kv_heap_ok : HeapOk kv_heap kv_cmp.
Proof. split; try done; unfold kv_cmp; intros; lia. Qed.

Global Instance kv_keys_ok : KeysOk kv_heap kv_cmp fst kv_set.
Proof. split; [done..|]. intros e k. unfold kv_cmp, kv_set. simpl. lia. Qed.

(** A heap of three records with room for a fourth, in which a record 99 was
    left behind. *)
Definition kv_three : kv_state := KvState {[500 := 3]} {[500 := 4]}
  {[(500, 0) := (9, 1); (500, 1) := (8, 2); (500, 2) := (7, 3); (500, 3) := (99, 4)]}.
Abbreviation kv_list := [(9, 1); (8, 2); (7, 3)].

Lemma kv_three_rep : heap_rep kv_heap 500 kv_three kv_list.
Proof.
  split; [done| |done]. intros i Hi. simpl in Hi.
  assert (i = 1 ∨ i = 2 ∨ i = 3) as [->|[->| ->]] by lia; done.
Qed.

Lemma kv_three_order : heap_order kv_cmp kv_list.
Proof.
  intros j Hj a b. simpl in Hj. assert (j = 2 ∨ j = 3) as [->| ->] by lia; by intros [= <-] [= <-].
Qed.

Lemma bheap_insert_loses_witness :
  ∃ s' v', bheap_insert kv_heap 9 500 (10, 5) kv_three = Done (tt, s') ∧ heap_rep kv_heap 500 s' v' ∧
    length v' = 4%nat ∧ ∀ e, e ∈ v' → e ∈ kv_list ∨ e = (99, 4).
Proof.
  destruct (bheap_insert_loses kv_heap kv_cmp 500 kv_three kv_list (99, 4) (10, 5) 4 9)
    as (s' & v' & i & H1 & H2 & H3 & H4 & _);
    [exact kv_three_rep|exact kv_three_order|reflexivity|simpl; lia|simpl; lia|reflexivity|simpl; lia|].
  exists s', v'. split; [exact H1|]. split; [exact H2|]. split; [exact H3|exact H4].
Defined.

Lemma bheap_delete_drops_last_witness :
  ∃ s' v', bheap_delete kv_heap 2 9 500 2 kv_three = Done ((8, 2), s') ∧
    heap_rep kv_heap 500 s' v' ∧ v' = [(9, 1); (8, 2)].
Proof.
  destruct (bheap_delete_drops_last kv_heap kv_cmp 500 kv_three [(9, 1); (8, 2)] 2 (8, 2) (7, 3) 9)
    as (s' & v' & H1 & H2 & _ & _ & _ & H3);
    [exact kv_three_rep|exact kv_three_order|simpl; lia|reflexivity|simpl; lia|].
  exists s', v'. split; [exact H1|]. split; [exact H2|].
  apply H3. intros p [= <-]. discriminate.
Defined.

Lemma bheap_key_set_raises_witness :
  ∃ s' v', bheap_key_set kv_heap 9 500 3 12 kv_three = Done (tt, s') ∧ heap_rep kv_heap 500 s' v' ∧
    heap_order kv_cmp v' ∧ v' ≡ₚ [(9, 1); (8, 2); (12, 3)].
Proof.
  destruct (bheap_key_set_raises kv_heap kv_cmp 500 fst kv_set kv_three kv_list 3 (7, 3) 12 9)
    as (s' & v' & H); [exact kv_three_rep|exact kv_three_order|lia|reflexivity|simpl; lia|simpl; lia|].
  exists s', v'. exact H.
Defined.

Lemma bheap_key_set_stays_witness :
  ∃ s', bheap_key_set kv_heap 9 500 1 0 kv_three = Done (tt, s') ∧
    heap_rep kv_heap 500 s' [(0, 1); (8, 2); (7, 3)].
Proof.
  destruct (bheap_key_set_stays kv_heap kv_cmp 500 fst kv_set kv_three kv_list 1 (9, 1) 0 9)
    as (s' & H1 & H2);
    [exact kv_three_rep|exact kv_three_order|lia|reflexivity|simpl; lia|left; simpl; lia|lia|].
  exists s'. split; [exact H1|exact H2].
Defined.
