(* ===== verification/RedBlack.v ===== *)
(** * The red-black tree template of include/data_structures.h

    [RED_BLACK_TREE] generates insertion and deletion over nodes with links to
    both children and to the parent.  The template is modelled over a store of
    nodes; the comparison of two nodes and the [flags] word, which the template
    reads but never writes, are parameters.  Where the code passes the address
    of a tree variable, the definitions return its new value. *)

From S2P Require Import Prelude.
#[local] Open Scope Z_scope.

(** The accessor macros [left(x)], [right(x)], [up(x)] and [color(x)]. *)
Record tnode := TNode {
  t_left : ptr;
  t_right : ptr;
  t_up : ptr;
  t_color : Z;
}.

(** [_COLOR], the mask of the colour bit, and [_BLACK]; red is 0. *)
Definition COLOR : Z := 0x01.
Definition BLACK : Z := 0x01.

Abbreviation tstore := (gmap ptr tnode).
Implicit Types N : tstore.

Definition left_field : field tstore ptr :=
  node_field id (λ m _, m) t_left (λ v n, TNode v (t_right n) (t_up n) (t_color n)).
Definition right_field : field tstore ptr :=
  node_field id (λ m _, m) t_right (λ v n, TNode (t_left n) v (t_up n) (t_color n)).
Definition up_field : field tstore ptr :=
  node_field id (λ m _, m) t_up (λ v n, TNode (t_left n) (t_right n) v (t_color n)).
Definition color_field : field tstore Z :=
  node_field id (λ m _, m) t_color (λ v n, TNode (t_left n) (t_right n) (t_up n) v).

Abbreviation get_left := (load left_field).
Abbreviation get_right := (load right_field).
Abbreviation get_up := (load up_field).
Abbreviation get_color := (load color_field).
Abbreviation set_left := (store left_field).
Abbreviation set_right := (store right_field).
Abbreviation set_up := (store up_field).
Abbreviation set_color := (store color_field).

Definition nonnull (p : ptr) : bool := negb (p =? NULL).

(** [color(x) & COLOR], [color(x) |= BLACK] and [color(x) &= ~COLOR]. *)
Definition is_black (c : Z) : bool := negb (Z.land c COLOR =? 0).
Definition blacken (p : ptr) : M tstore unit :=
  c ← get_color p; set_color p (Z.lor c BLACK).
Definition redden (p : ptr) : M tstore unit :=
  c ← get_color p; set_color p (Z.land c (Z.lnot COLOR)).

(** A missing node counts as black. *)
Definition node_black (p : ptr) : M tstore bool :=
  if p =? NULL then mret true else c ← get_color p; mret (is_black c).

(** ** Relatives and rotations *)

Definition uncle_node (node : ptr) : M tstore ptr :=
  u ← get_up node;
  g ← get_up u;
  l ← get_left g;
  if u =? l then get_right g else get_left g.

Definition brother_node (node : ptr) : M tstore ptr :=
  u ← get_up node;
  l ← get_left u;
  if node =? l then get_right u else get_left u.

(** The rotations take the node the variable points to and return the node it
    points to afterwards. *)
Definition s_right_rotate (top : ptr) : M tstore ptr :=
  child ← get_left top;
  ct ← get_color top;
  let tmp := Z.land ct COLOR in
  redden top;;
  ct ← get_color top;
  cc ← get_color child;
  set_color top (Z.lor ct (Z.land cc COLOR));;
  redden child;;
  cc ← get_color child;
  set_color child (Z.lor cc tmp);;
  rc ← get_right child;
  set_left top rc;;
  (if nonnull rc then set_up rc top else mret tt);;
  u ← get_up top;
  set_up child u;;
  set_right child top;;
  set_up top child;;
  mret child.

(** Unlike its mirror image, this one overwrites the other bits of the colour. *)
Definition s_left_rotate (top : ptr) : M tstore ptr :=
  child ← get_right top;
  ct ← get_color top;
  let tmp := Z.land ct COLOR in
  redden top;;
  cc ← get_color child;
  set_color top (Z.land cc COLOR);;
  redden child;;
  cc ← get_color child;
  set_color child (Z.lor cc tmp);;
  lc ← get_left child;
  set_right top lc;;
  (if nonnull lc then set_up lc top else mret tt);;
  u ← get_up top;
  set_up child u;;
  set_left child top;;
  set_up top child;;
  mret child.

Definition d_right_rotate (top : ptr) : M tstore ptr :=
  l ← get_left top;
  l ← s_left_rotate l;
  set_left top l;;
  s_right_rotate top.

Definition d_left_rotate (top : ptr) : M tstore ptr :=
  r ← get_right top;
  r ← s_right_rotate r;
  set_right top r;;
  s_left_rotate top.

(** [if(null != up(curr)) child_direction = (curr == left(up(curr)))], a
    rotation at [curr], and the link from the parent. *)
Definition rotate_linked (rotate : ptr → M tstore ptr) (curr : ptr) : M tstore ptr :=
  u ← get_up curr;
  child_direction ← (if nonnull u then l ← get_left u; mret (curr =? l) else mret false);
  curr ← rotate curr;
  u ← get_up curr;
  (if nonnull u then
     if (child_direction : bool) then set_left u curr else set_right u curr
   else mret tt);;
  mret curr.

Section template.
Context (comp : ptr → ptr → Z) (flags : ptr → Z).

(** ** Insertion *)

(** [do { last = curr; ... } while(null != curr)] *)
Definition descend_step (inn curr : ptr) : M tstore (ptr + ptr) :=
  next ← (if 0 <? comp curr inn then get_left curr else get_right curr);
  if nonnull next then mret (Continue next) else mret (Break curr).

Definition insert_fix_step (curr : ptr) : M tstore (ptr + ptr) :=
  u ← get_up curr;
  if u =? NULL then mret (Break curr) else
  cu ← get_color u;
  if is_black cu then mret (Break curr) else
  un ← uncle_node curr;
  black ← node_black un;
  g ← get_up u;
  if negb black then
    l ← get_left g;
    blacken l;;
    r ← get_right g;
    blacken r;;
    gu ← get_up g;
    (if nonnull gu then redden g else mret tt);;
    mret (Continue g)
  else
    gl ← get_left g;
    top ← (if u =? gl then
             l ← get_left u;
             if curr =? l then rotate_linked s_right_rotate g
             else rotate_linked d_right_rotate g
           else
             r ← get_right u;
             if curr =? r then rotate_linked s_left_rotate g
             else rotate_linked d_left_rotate g);
    mret (Break top).

(** [while(NULL != up(curr)) curr = up(curr)] *)
Definition climb_step (curr : ptr) : M tstore (ptr + ptr) :=
  u ← get_up curr;
  if nonnull u then mret (Continue u) else mret (Break curr).

(** No loop visits a node twice. *)
Definition tree_fuel : M tstore nat := gets (λ N, S (base.size N)).

Definition tree_insert (tree inn : ptr) : M tstore ptr :=
  redden inn;;
  fuel ← tree_fuel;
  if nonnull tree then
    last ← loop fuel (descend_step inn) tree;
    set_up inn last;;
    set_right inn NULL;;
    set_left inn NULL;;
    (if comp inn last <? 0 then set_left last inn else set_right last inn);;
    curr ← loop fuel insert_fix_step inn;
    loop fuel climb_step curr
  else
    set_up inn NULL;;
    set_right inn NULL;;
    set_left inn NULL;;
    blacken inn;;
    mret inn.

(** ** Deletion *)

(** The loop that looks for a node equivalent to [inn]. *)
Definition find_step (inn target : ptr) : M tstore (ptr + ptr) :=
  if target =? NULL then mret (Break NULL) else
  if comp target inn =? 0 then mret (Break target) else
  next ← (if comp target inn =? -1 then get_left target else get_right target);
  mret (Continue next).

(** The far end of a subtree: leftmost if [direction], rightmost if not. *)
Definition extreme_step (direction : bool) (node : ptr) : M tstore (ptr + ptr) :=
  next ← (if direction then get_left node else get_right node);
  if nonnull next then mret (Continue next) else mret (Break node).

(** One round of the fixer: all four cases of the brother. *)
Definition delete_fix_step (fix_ptr : ptr) : M tstore (ptr + unit) :=
  u ← get_up fix_ptr;
  if u =? NULL then mret (Break tt) else
  cf ← get_color fix_ptr;
  if negb (is_black cf) then
    blacken fix_ptr;;
    mret (Break tt)
  else
    b ← brother_node fix_ptr;
    cb ← get_color b;
    bu ← get_up b;
    bl ← get_left bu;
    if negb (is_black cb) then
      (if b =? bl then rotate_linked s_right_rotate bu else rotate_linked s_left_rotate bu);;
      mret (Continue fix_ptr)
    else
      l ← get_left b;
      r ← get_right b;
      lb ← node_black l;
      rb ← node_black r;
      if lb && rb then
        redden b;;
        u ← get_up fix_ptr;
        mret (Continue u)
      else if (if b =? bl then lb && negb rb else rb && negb lb) then
        (if b =? bl then
           top ← s_left_rotate b;
           u ← get_up top;
           set_left u top
         else
           top ← s_right_rotate b;
           u ← get_up top;
           set_right u top);;
        mret (Continue fix_ptr)
      else
        (if b =? bl then rotate_linked s_right_rotate bu else rotate_linked s_left_rotate bu);;
        u ← get_up fix_ptr;
        b ← brother_node u;
        blacken b;;
        mret (Break tt).

(** [replacement] takes the place of [target]. *)
Definition replace_node (target replacement : ptr) (direction : bool) : M tstore unit :=
  redden replacement;;
  c ← get_color replacement;
  set_color replacement (Z.lor c (Z.land (flags target) COLOR));;
  l ← get_left target;
  r ← get_right target;
  (if negb (l =? replacement) && negb (r =? replacement) then
     u ← get_up replacement;
     if direction then
       rr ← get_right replacement;
       (if nonnull u then set_left u rr else mret tt);;
       rr ← get_right replacement;
       (if nonnull rr then u ← get_up replacement; set_up rr u else mret tt)
     else
       ll ← get_left replacement;
       (if nonnull u then set_right u ll else mret tt);;
       ll ← get_left replacement;
       (if nonnull ll then u ← get_up replacement; set_up ll u else mret tt)
   else if r =? replacement then
     rr ← get_right replacement; set_right target rr
   else
     ll ← get_left replacement; set_left target ll);;
  l ← get_left target;
  (if nonnull l then set_up l replacement else mret tt);;
  r ← get_right target;
  (if nonnull r then set_up r replacement else mret tt);;
  u ← get_up target;
  (if nonnull u then
     l ← get_left u;
     if target =? l then set_left u replacement else set_right u replacement
   else mret tt);;
  u ← get_up target;
  set_up replacement u;;
  r ← get_right target;
  set_right replacement (if negb (r =? replacement) then r else NULL);;
  l ← get_left target;
  set_left replacement (if negb (l =? replacement) then l else NULL).

(** The target has been found and is not the only node: [run_fixer],
    [fix_ptr], [replacement] and [direction] are set. *)
Definition delete_found (target fix_ptr replacement : ptr) (run_fixer direction : bool) :
    M tstore ptr :=
  fuel ← tree_fuel;
  (if run_fixer then loop (2 * fuel) delete_fix_step fix_ptr else mret tt);;
  replacement ← (if nonnull replacement then
                   replace_node target replacement direction;;
                   mret replacement
                 else
                   u ← get_up target;
                   l ← get_left u;
                   if target =? l then set_left u NULL;; mret u
                   else set_right u NULL;; mret u);
  loop fuel climb_step replacement.

(** Returns the deleted node and the new value of the tree variable. *)
Definition tree_delete (tree inn : ptr) : M tstore (ptr * ptr) :=
  fuel ← tree_fuel;
  target ← loop fuel (find_step inn) tree;
  if nonnull target then
    l ← get_left target;
    r ← get_right target;
    if negb (nonnull l) && negb (nonnull r) then
      u ← get_up target;
      if nonnull u then
        c ← get_color target;
        tree ← delete_found target target NULL (is_black c) false;
        mret (target, tree)
      else mret (target, NULL)
    else
      let direction := negb (nonnull l) in
      replacement ← loop fuel (extreme_step direction) (if direction then r else l);
      c ← get_color replacement;
      tree ← delete_found target replacement replacement (is_black c) direction;
      mret (target, tree)
  else mret (NULL, tree).
End template.
