(* ===== verification/RedBlackSpec.v ===== *)
(** * Insertion into a red-black tree

    The linked nodes represent a functional tree; [tree_insert] is proved to
    implement a functional insertion on it, which keeps the order of the nodes
    and the balance that the header of the template promises. *)

From S2P Require Import Prelude RedBlack.
#[local] Open Scope Z_scope.
Implicit Types N : tstore.

(** ** Trees and their representation *)

(** A node carries its colour word. *)
Inductive tree := E | T (c : Z) (l : tree) (x : ptr) (r : tree).
Implicit Types t l r : tree.

Definition root t : ptr := match t with E => NULL | T _ _ x _ => x end.

Fixpoint nodes t : list ptr :=
  match t with E => [] | T _ l x r => nodes l ++ x :: nodes r end.

(** The path from a subtree up to the root: the subtree is the left child of
    [x], or its right child. *)
Inductive frame := FL (c : Z) (x : ptr) (r : tree) | FR (l : tree) (c : Z) (x : ptr).
Implicit Types k : list frame.

Definition f_node (f : frame) : ptr := match f with FL _ x _ | FR _ _ x => x end.
Definition f_color (f : frame) : Z := match f with FL c _ _ | FR _ c _ => c end.
Definition f_sibling (f : frame) : tree := match f with FL _ _ r => r | FR l _ _ => l end.

Definition fill (f : frame) (t : tree) : tree :=
  match f with FL c x r => T c t x r | FR l c x => T c l x t end.
Fixpoint plug k t : tree := match k with [] => t | f :: k' => plug k' (fill f t) end.

Definition parent k : ptr := match k with [] => NULL | f :: _ => f_node f end.

Fixpoint knodes k : list ptr :=
  match k with [] => [] | f :: k' => f_node f :: nodes (f_sibling f) ++ knodes k' end.

Fixpoint rep N (up : ptr) t : Prop :=
  match t with
  | E => True
  | T c l x r => N !! x = Some (TNode (root l) (root r) up c) ∧ rep N x l ∧ rep N x r
  end.

(** The nodes of the path, around a subtree whose root is [h]. *)
Fixpoint krep N k (h : ptr) : Prop :=
  match k with
  | [] => True
  | FL c x r :: k' =>
      N !! x = Some (TNode h (root r) (parent k') c) ∧ rep N x r ∧ krep N k' x
  | FR l c x :: k' =>
      N !! x = Some (TNode (root l) h (parent k') c) ∧ rep N x l ∧ krep N k' x
  end.

(** The linked nodes at [p] form the tree [t]. *)
Record tree_rep N (p : ptr) t : Prop := {
  tr_root : p = root t;
  tr_rep : rep N NULL t;
  tr_nodup : NoDup (nodes t);
  tr_null : NULL ∉ nodes t;
}.

(** A position in a tree: the subtree [t] below the path [k]. *)
Record at_pos N k t : Prop := {
  ap_rep : rep N (parent k) t;
  ap_krep : krep N k (root t);
  ap_nodup : NoDup (nodes t ++ knodes k);
  ap_null : NULL ∉ nodes t ++ knodes k;
}.

Lemma plug_nodes k t : nodes (plug k t) ≡ₚ nodes t ++ knodes k.
Proof.
  revert t. induction k as [|f k IH]; intros t; simpl; [by rewrite app_nil_r|].
  rewrite IH. destruct f; simpl.
  - by rewrite <-app_assoc.
  - rewrite <-!Permutation_middle. simpl. constructor.
    rewrite <-app_assoc. apply Permutation_app_swap_app.
Qed.

Lemma plug_rep N k t : rep N NULL (plug k t) ↔ rep N (parent k) t ∧ krep N k (root t).
Proof.
  revert t. induction k as [|[c x r|l c x] k IH]; intros t; simpl; [naive_solver|..];
    rewrite IH; simpl; naive_solver.
Qed.

Lemma pos_tree N k t : at_pos N k t ↔ tree_rep N (root (plug k t)) (plug k t).
Proof.
  split; intros [H1 H2 H3 H4]; split; try done.
  - by apply plug_rep.
  - by rewrite plug_nodes.
  - by rewrite plug_nodes.
  - by apply plug_rep in H2 as [].
  - by apply plug_rep in H2 as [].
  - by rewrite <-plug_nodes.
  - by rewrite <-plug_nodes.
Qed.

(** *** Frames *)

Lemma rep_frame N N' up t :
  (∀ x, x ∈ nodes t → N' !! x = N !! x) → rep N up t → rep N' up t.
Proof.
  revert up. induction t as [|c l IHl x r IHr]; intros up Heq; simpl in *; [done|].
  intros (Hx & Hl & Hr). split_and!.
  - rewrite Heq; [done|set_solver].
  - apply IHl; [set_solver|done].
  - apply IHr; [set_solver|done].
Qed.

Lemma krep_frame N N' k h :
  (∀ x, x ∈ knodes k → N' !! x = N !! x) → krep N k h → krep N' k h.
Proof.
  revert h. induction k as [|[c x r|l c x] k IH]; intros h Heq; simpl in *; [done|..];
    (intros (Hx & Hs & Hk); split_and!;
     [rewrite Heq; [done|set_solver]
     |eapply rep_frame; [|done]; set_solver|apply IH; [set_solver|done]]).
Qed.

(** Giving the subtree another parent. *)
Lemma rep_reparent N N' up up' t :
  NoDup (nodes t) → (∀ x, x ∈ nodes t → x ≠ root t → N' !! x = N !! x) →
  (t ≠ E → N' !! root t = (λ n, TNode (t_left n) (t_right n) up' (t_color n)) <$> N !! root t) →
  rep N up t → rep N' up' t.
Proof.
  destruct t as [|c l x r]; simpl; [done|]. intros Hnd Heq Hx (Hn & Hl & Hr).
  apply NoDup_app in Hnd as (Hndl & Hd & [Hxr Hndr]%NoDup_cons).
  split_and!.
  - rewrite Hx, Hn; done.
  - eapply rep_frame; [|done]. intros y Hy. apply Heq; [set_solver|].
    intros ->. apply (Hd x Hy). set_solver.
  - eapply rep_frame; [|done]. intros y Hy. apply Heq; [set_solver|]. by intros ->.
Qed.

(** ** Symbolic execution over the store *)

Lemma wp_get_left N p n Q : N !! p = Some n → Q (t_left n) N → wp (get_left p) Q N.
Proof. intros Hp HQ. apply wp_load with (t_left n); [|done]. simpl. by rewrite Hp. Qed.
Lemma wp_get_right N p n Q : N !! p = Some n → Q (t_right n) N → wp (get_right p) Q N.
Proof. intros Hp HQ. apply wp_load with (t_right n); [|done]. simpl. by rewrite Hp. Qed.
Lemma wp_get_up N p n Q : N !! p = Some n → Q (t_up n) N → wp (get_up p) Q N.
Proof. intros Hp HQ. apply wp_load with (t_up n); [|done]. simpl. by rewrite Hp. Qed.
Lemma wp_get_color N p n Q : N !! p = Some n → Q (t_color n) N → wp (get_color p) Q N.
Proof. intros Hp HQ. apply wp_load with (t_color n); [|done]. simpl. by rewrite Hp. Qed.

Lemma wp_set_left N p v pl pr u c Q :
  N !! p = Some (TNode pl pr u c) → Q tt (<[p := TNode v pr u c]> N) → wp (set_left p v) Q N.
Proof. intros Hp HQ. unfold wp, store, putopt. simpl. by rewrite Hp. Qed.
Lemma wp_set_right N p v pl pr u c Q :
  N !! p = Some (TNode pl pr u c) → Q tt (<[p := TNode pl v u c]> N) → wp (set_right p v) Q N.
Proof. intros Hp HQ. unfold wp, store, putopt. simpl. by rewrite Hp. Qed.
Lemma wp_set_up N p v pl pr u c Q :
  N !! p = Some (TNode pl pr u c) → Q tt (<[p := TNode pl pr v c]> N) → wp (set_up p v) Q N.
Proof. intros Hp HQ. unfold wp, store, putopt. simpl. by rewrite Hp. Qed.
Lemma wp_set_color N p v pl pr u c Q :
  N !! p = Some (TNode pl pr u c) → Q tt (<[p := TNode pl pr u v]> N) → wp (set_color p v) Q N.
Proof. intros Hp HQ. unfold wp, store, putopt. simpl. by rewrite Hp. Qed.
Lemma wp_redden N p pl pr u c Q :
  N !! p = Some (TNode pl pr u c) →
  Q tt (<[p := TNode pl pr u (Z.land c (Z.lnot COLOR))]> N) → wp (redden p) Q N.
Proof.
  intros Hp HQ. apply wp_bind. eapply wp_get_color; [done|]. by eapply wp_set_color.
Qed.
Lemma wp_blacken N p pl pr u c Q :
  N !! p = Some (TNode pl pr u c) →
  Q tt (<[p := TNode pl pr u (Z.lor c BLACK)]> N) → wp (blacken p) Q N.
Proof.
  intros Hp HQ. apply wp_bind. eapply wp_get_color; [done|]. by eapply wp_set_color.
Qed.

(** The contents of a node after a sequence of writes. *)
Ltac look := rewrite ?lookup_insert_ne by done; rewrite ?lookup_insert_eq; done.

(** One access of a node. *)
Ltac tstep :=
  match goal with
  | |- wp (mbind _ _) _ _ => apply wp_bind
  | |- wp (mret _) _ _ => apply wp_ret
  | |- wp (load left_field _) _ _ => eapply wp_get_left; [look|]
  | |- wp (load right_field _) _ _ => eapply wp_get_right; [look|]
  | |- wp (load up_field _) _ _ => eapply wp_get_up; [look|]
  | |- wp (load color_field _) _ _ => eapply wp_get_color; [look|]
  | |- wp (store left_field _ _) _ _ => eapply wp_set_left; [look|]
  | |- wp (store right_field _ _) _ _ => eapply wp_set_right; [look|]
  | |- wp (store up_field _ _) _ _ => eapply wp_set_up; [look|]
  | |- wp (store color_field _ _) _ _ => eapply wp_set_color; [look|]
  | |- wp (redden _) _ _ => eapply wp_redden; [look|]
  | |- wp (blacken _) _ _ => eapply wp_blacken; [look|]
  end; cbn [t_left t_right t_up t_color].

(** ** Rotations *)

(** The colour word [c] with the colour of [d]. *)
Definition recolor (c d : Z) : Z := Z.lor (Z.land c (Z.lnot COLOR)) (Z.land d COLOR).

Lemma nonnull_true p : p ≠ NULL → nonnull p = true.
Proof. intros Hp. unfold nonnull. by rewrite (proj2 (Z.eqb_neq p NULL)). Qed.

Lemma root_in t : t ≠ E → root t ∈ nodes t.
Proof. destruct t; [done|]. simpl. set_solver. Qed.

Lemma rep_root N up t : t ≠ E → rep N up t →
  ∃ pl pr c, N !! root t = Some (TNode pl pr up c).
Proof. destruct t as [|c l x r]; [done|]. intros _ (Hx & _). eauto. Qed.

(** [if(null != p) up(p) = v] for the root of a subtree. *)
Lemma wp_set_parent N up v t (Q : unit → tstore → Prop) :
  rep N up t → NoDup (nodes t) → NULL ∉ nodes t →
  (∀ N', rep N' v t → (∀ z, z ∉ nodes t → N' !! z = N !! z) → Q tt N') →
  wp (if nonnull (root t) then set_up (root t) v else mret tt) Q N.
Proof.
  intros Hr Hnd Hnull HQ. destruct t as [|c l x r]; [by apply HQ|].
  pose proof Hr as (Hx & _). simpl in Hnull. cbn [root].
  rewrite nonnull_true by set_solver. eapply wp_set_up; [done|]. apply HQ.
  - eapply rep_reparent; [done| | |exact Hr]; simpl.
    + intros y _ Hne. by rewrite lookup_insert_ne.
    + intros _. by rewrite lookup_insert_eq, Hx.
  - intros z Hz. rewrite lookup_insert_ne; [done|]. set_solver.
Qed.

(** What a rotation promises: the tree at [top] becomes [t']. *)
Definition rotates (rotate : ptr → M tstore ptr) t t' : Prop :=
  nodes t' ≡ₚ nodes t ∧
  ∀ N up, rep N up t → NoDup (nodes t) → NULL ∉ nodes t →
    wp (rotate (root t))
       (λ p N', p = root t' ∧ rep N' up t' ∧ ∀ z, z ∉ nodes t → N' !! z = N !! z) N.

Lemma rotation_apart a y b x c :
  NoDup ((nodes a ++ y :: nodes b) ++ x :: nodes c) →
  x ≠ y ∧ NoDup (nodes b) ∧
  (∀ z, z ∈ nodes a → z ≠ x ∧ z ≠ y ∧ ¬ z ∈ nodes b) ∧
  (∀ z, z ∈ nodes b → z ≠ x ∧ z ≠ y) ∧
  (∀ z, z ∈ nodes c → z ≠ x ∧ z ≠ y ∧ ¬ z ∈ nodes b).
Proof.
  rewrite <-app_assoc. simpl.
  intros (_ & H1 & [H2 H3]%NoDup_cons)%NoDup_app.
  apply NoDup_app in H3 as (? & H4 & [H5 _]%NoDup_cons).
  set_unfold. split_and!; naive_solver.
Qed.

Ltac elsewhere := intros; rewrite ?lookup_insert_ne by naive_solver; done.

Lemma s_right_rotate_spec ct cc a y b x c :
  rotates s_right_rotate (T ct (T cc a y b) x c)
    (T (recolor cc ct) a y (T (recolor ct cc) b x c)).
Proof.
  split; [simpl; by rewrite <-app_assoc|].
  intros N up (Hx & (Hy & Ha & Hb) & Hc) Hnd Hnull. simpl in *.
  destruct (rotation_apart _ _ _ _ _ Hnd) as (Hxy & Hndb & Hza & Hzb & Hzc).
  unfold s_right_rotate. repeat tstep. cbn [root].
  apply (wp_set_parent _ y); [|done|set_solver|].
  { eapply rep_frame; [|exact Hb]. elsewhere. }
  intros N' Hb' Hrest.
  assert (N' !! x = Some (TNode (root b) (root c) up (recolor ct cc))) as Hx'.
  { rewrite Hrest by naive_solver. look. }
  assert (N' !! y = Some (TNode (root a) (root b) x (recolor cc ct))) as Hy'.
  { rewrite Hrest by naive_solver. look. }
  repeat tstep. split; [done|]. split_and!; [look| |look| | |].
  - eapply rep_frame; [|exact Ha]. intros z Hz. destruct (Hza z Hz) as (? & ? & ?).
    rewrite !lookup_insert_ne by done. rewrite Hrest by done. elsewhere.
  - eapply rep_frame; [|exact Hb']. elsewhere.
  - eapply rep_frame; [|exact Hc]. intros z Hz. destruct (Hzc z Hz) as (? & ? & ?).
    rewrite !lookup_insert_ne by done. rewrite Hrest by done. elsewhere.
  - intros z Hz. assert (z ≠ x ∧ z ≠ y ∧ z ∉ nodes b) as (? & ? & ?).
    { clear -Hz. set_solver. }
    rewrite !lookup_insert_ne by done. rewrite Hrest by done. elsewhere.
Qed.

Lemma s_left_rotate_spec ct cc a x b y c :
  rotates s_left_rotate (T ct a x (T cc b y c))
    (T (recolor cc ct) (T (Z.land cc COLOR) a x b) y c).
Proof.
  split; [simpl; by rewrite <-app_assoc|].
  intros N up (Hx & Ha & (Hy & Hb & Hc)) Hnd Hnull. simpl in *.
  destruct (rotation_apart a x b y c) as (Hxy & Hndb & Hza & Hzb & Hzc).
  { by rewrite <-app_assoc. }
  unfold s_left_rotate. repeat tstep. cbn [root].
  apply (wp_set_parent _ y); [|done|set_solver|].
  { eapply rep_frame; [|exact Hb]. elsewhere. }
  intros N' Hb' Hrest.
  assert (N' !! x = Some (TNode (root a) (root b) up (Z.land cc COLOR))) as Hx'.
  { rewrite Hrest by naive_solver. look. }
  assert (N' !! y = Some (TNode (root b) (root c) x (recolor cc ct))) as Hy'.
  { rewrite Hrest by naive_solver. look. }
  repeat tstep. split; [done|]. split_and!; [look|look| | | |].
  - eapply rep_frame; [|exact Ha]. intros z Hz. destruct (Hza z Hz) as (? & ? & ?).
    rewrite !lookup_insert_ne by done. rewrite Hrest by done. elsewhere.
  - eapply rep_frame; [|exact Hb']. elsewhere.
  - eapply rep_frame; [|exact Hc]. intros z Hz. destruct (Hzc z Hz) as (? & ? & ?).
    rewrite !lookup_insert_ne by done. rewrite Hrest by done. elsewhere.
  - intros z Hz. assert (z ≠ x ∧ z ≠ y ∧ z ∉ nodes b) as (? & ? & ?).
    { clear -Hz. set_solver. }
    rewrite !lookup_insert_ne by done. rewrite Hrest by done. elsewhere.
Qed.

(** Rotating a child and linking it again. *)
Lemma rotate_child_left {A} rotate N up ct l x r l' (k : M tstore A) Q :
  rotates rotate l l' → rep N up (T ct l x r) →
  NoDup (nodes (T ct l x r)) → NULL ∉ nodes (T ct l x r) →
  (∀ N', rep N' up (T ct l' x r) → (∀ z, z ∉ nodes (T ct l x r) → N' !! z = N !! z) →
     wp k Q N') →
  wp (p ← rotate (root l); set_left x p;; k) Q N.
Proof.
  intros [Hperm Hrot] (Hx & Hl & Hr) Hnd Hnull HQ. simpl in *.
  apply NoDup_app in Hnd as (Hndl & Hd & [Hxr Hndr]%NoDup_cons).
  assert (¬ x ∈ nodes l) as Hxl. { intros Hin. apply (Hd x Hin). set_solver. }
  apply wp_bind. eapply wp_mono; [apply (Hrot N x); [done|done|set_solver]|].
  intros p N' (-> & Hl' & Hrest). apply wp_bind. eapply wp_set_left; [by rewrite Hrest|]. apply HQ.
  - split_and!; [look|..].
    + eapply rep_frame; [|exact Hl']. intros z Hz. rewrite Hperm in Hz.
      rewrite lookup_insert_ne; [done|]. by intros ->.
    + eapply rep_frame; [|exact Hr]. intros z Hz.
      rewrite lookup_insert_ne by (by intros ->).
      apply Hrest. intros Hin. apply (Hd z Hin). set_solver.
  - intros z Hz. rewrite lookup_insert_ne by set_solver. apply Hrest. set_solver.
Qed.

Lemma rotate_child_right {A} rotate N up ct l x r r' (k : M tstore A) Q :
  rotates rotate r r' → rep N up (T ct l x r) →
  NoDup (nodes (T ct l x r)) → NULL ∉ nodes (T ct l x r) →
  (∀ N', rep N' up (T ct l x r') → (∀ z, z ∉ nodes (T ct l x r) → N' !! z = N !! z) →
     wp k Q N') →
  wp (p ← rotate (root r); set_right x p;; k) Q N.
Proof.
  intros [Hperm Hrot] (Hx & Hl & Hr) Hnd Hnull HQ. simpl in *.
  apply NoDup_app in Hnd as (Hndl & Hd & [Hxr Hndr]%NoDup_cons).
  assert (¬ x ∈ nodes l) as Hxl. { intros Hin. apply (Hd x Hin). set_solver. }
  apply wp_bind. eapply wp_mono; [apply (Hrot N x); [done|done|set_solver]|].
  intros p N' (-> & Hr' & Hrest). apply wp_bind. eapply wp_set_right; [by rewrite Hrest|]. apply HQ.
  - split_and!; [look|..].
    + eapply rep_frame; [|exact Hl]. intros z Hz.
      rewrite lookup_insert_ne by (by intros ->).
      apply Hrest. intros Hin. apply (Hd z Hz). set_solver.
    + eapply rep_frame; [|exact Hr']. intros z Hz. rewrite Hperm in Hz.
      rewrite lookup_insert_ne; [done|]. by intros ->.
  - intros z Hz. rewrite lookup_insert_ne by set_solver. apply Hrest. set_solver.
Qed.

Lemma d_right_rotate_spec ct cu cn a u b n c x d :
  let cn' := recolor cn cu in
  rotates d_right_rotate (T ct (T cu a u (T cn b n c)) x d)
    (T (recolor cn' ct) (T (Z.land cn COLOR) a u b) n (T (recolor ct cn') c x d)).
Proof.
  intros cn'. pose proof (s_left_rotate_spec cu cn a u b n c) as H1.
  pose proof (s_right_rotate_spec ct cn' (T (Z.land cn COLOR) a u b) n c x d) as [Hp2 H2].
  assert (nodes (T ct (T cn' (T (Z.land cn COLOR) a u b) n c) x d) =
          nodes (T ct (T cu a u (T cn b n c)) x d)) as Heq.
  { simpl. rewrite <-!app_assoc. simpl. by rewrite <-?app_assoc. }
  split; [by rewrite Hp2, Heq|].
  intros N up Hr Hnd Hnull. pose proof Hr as (Hx & _).
  apply wp_bind. eapply wp_get_left; [exact Hx|].
  eapply (rotate_child_left _ _ _ _ _ _ _ _ _ _ H1); [done..|].
  intros N' Hr' Hrest. eapply wp_mono; [apply H2; [done|by rewrite Heq..]|].
  intros p N'' (-> & Hr'' & Hrest'). split_and!; [done|done|].
  intros z Hz. rewrite Hrest' by (by rewrite Heq). by apply Hrest.
Qed.

Lemma d_left_rotate_spec ct cu cn a x b n c u d :
  let cn' := recolor cn cu in
  rotates d_left_rotate (T ct a x (T cu (T cn b n c) u d))
    (T (recolor cn' ct) (T (Z.land cn' COLOR) a x b) n (T (recolor cu cn) c u d)).
Proof.
  intros cn'. pose proof (s_right_rotate_spec cu cn b n c u d) as H1.
  pose proof (s_left_rotate_spec ct cn' a x b n (T (recolor cu cn) c u d)) as [Hp2 H2].
  assert (nodes (T ct a x (T cn' b n (T (recolor cu cn) c u d))) =
          nodes (T ct a x (T cu (T cn b n c) u d))) as Heq.
  { simpl. rewrite <-!app_assoc. simpl. by rewrite <-?app_assoc. }
  split; [by rewrite Hp2, Heq|].
  intros N up Hr Hnd Hnull. pose proof Hr as (Hx & _).
  apply wp_bind. eapply wp_get_right; [exact Hx|].
  eapply (rotate_child_right _ _ _ _ _ _ _ _ _ _ H1); [done..|].
  intros N' Hr' Hrest. eapply wp_mono; [apply H2; [done|by rewrite Heq..]|].
  intros p N'' (-> & Hr'' & Hrest'). split_and!; [done|done|].
  intros z Hz. rewrite Hrest' by (by rewrite Heq). by apply Hrest.
Qed.

(** Another subtree at the end of the path. *)
Definition hang (f : frame) (h up : ptr) : tnode :=
  match f with
  | FL c _ r => TNode h (root r) up c
  | FR l c _ => TNode (root l) h up c
  end.

Lemma krep_cons N f k h :
  krep N (f :: k) h ↔ N !! f_node f = Some (hang f h (parent k)) ∧
    rep N (f_node f) (f_sibling f) ∧ krep N k (f_node f).
Proof. by destruct f. Qed.

Lemma krep_rehang N f k h h' :
  krep N (f :: k) h → NoDup (knodes (f :: k)) →
  krep (<[f_node f := hang f h' (parent k)]> N) (f :: k) h'.
Proof.
  rewrite !krep_cons. intros (_ & Hs & Hk) [Hx _]%NoDup_cons. split_and!; [look| |].
  - eapply rep_frame; [|exact Hs]. intros z Hz. rewrite lookup_insert_ne; [done|]. set_solver.
  - eapply krep_frame; [|exact Hk]. intros z Hz. rewrite lookup_insert_ne; [done|]. set_solver.
Qed.

(** [child_direction] tells the two kinds of frame apart. *)
Lemma hang_direction f h up :
  h ≠ NULL → (h ∉ nodes (f_sibling f)) →
  (h =? t_left (hang f h up)) = match f with FL _ _ _ => true | FR _ _ _ => false end.
Proof.
  intros Hh Hs. destruct f as [c x r|l c x]; simpl in *; [apply Z.eqb_refl|].
  apply Z.eqb_neq. intros ->. destruct l; [done|]. simpl in Hs. set_solver.
Qed.

Lemma rotates_nonempty rotate t t' : rotates rotate t t' → t ≠ E → t' ≠ E.
Proof.
  intros [Hperm _] Hne ->. simpl in Hperm. apply Permutation_nil_l in Hperm.
  destruct t as [|? l ? ?]; [done|]. simpl in Hperm. by destruct (nodes l).
Qed.

(** [rotate_linked] rotates the subtree at a position of a tree. *)
Lemma rotate_linked_spec rotate N k t t' :
  rotates rotate t t' → t ≠ E → at_pos N k t →
  wp (rotate_linked rotate (root t)) (λ p N', p = root t' ∧ at_pos N' k t') N.
Proof.
  intros Hrot Hne [Hr Hk Hnd Hnull]. pose proof (rotates_nonempty _ _ _ Hrot Hne) as Hne'.
  destruct Hrot as [Hperm Hrot]. pose proof Hnd as (Hndt & Hd & Hndk)%NoDup_app.
  destruct (rep_root _ _ _ Hne Hr) as (pl & pr & ct & Hroot).
  pose proof (root_in t Hne) as Hin.
  assert (∀ N', rep N' (parent k) t' → krep N' k (root t') → at_pos N' k t') as Hpos.
  { intros N' H1 H2. split; [done|done|by rewrite Hperm|by rewrite Hperm]. }
  unfold rotate_linked. apply wp_bind. eapply wp_get_up; [exact Hroot|]. cbn [t_up].
  assert (NULL ∉ nodes t) as Hnt by (clear -Hnull; set_solver).
  assert (root t ≠ NULL) as Hrt by (by intros Heq; rewrite Heq in Hin).
  destruct k as [|f k].
  - apply wp_bind, wp_ret, wp_bind. eapply wp_mono; [by apply (Hrot N NULL)|].
    intros p N' (-> & Hr' & _).
    destruct (rep_root _ _ _ Hne' Hr') as (pl' & pr' & ct' & Hroot').
    apply wp_bind. eapply wp_get_up; [exact Hroot'|]. apply wp_bind, wp_ret, wp_ret.
    split; [done|]. by apply Hpos.
  - pose proof Hk as (Hx & Hs & Hk')%krep_cons. cbn [parent].
    assert (f_node f ≠ NULL) as Hfn by (clear -Hnull; set_solver).
    rewrite nonnull_true by done.
    apply wp_bind, wp_bind. eapply wp_get_left; [exact Hx|]. apply wp_ret.
    rewrite hang_direction; [|done|].
    2:{ intros Hf. apply (Hd _ Hin). simpl. clear -Hf. set_solver. }
    apply wp_bind. eapply wp_mono; [by apply (Hrot N (f_node f))|].
    intros p N' (-> & Hr' & Hrest).
    destruct (rep_root _ _ _ Hne' Hr') as (pl' & pr' & ct' & Hroot').
    apply wp_bind. eapply wp_get_up; [exact Hroot'|]. cbn [t_up].
    rewrite nonnull_true by done.
    assert (krep N' (f :: k) (root t)) as Hk2.
    { eapply krep_frame; [|exact Hk]. intros z Hz. apply Hrest. intros Hzt. by apply (Hd z). }
    pose proof Hk2 as (Hx' & _)%krep_cons.
    assert (at_pos (<[f_node f := hang f (root t') (parent k)]> N') (f :: k) t') as Hfin.
    { apply Hpos; [|by apply krep_rehang with (root t)].
      eapply rep_frame; [|exact Hr']. intros z Hz. rewrite lookup_insert_ne; [done|].
      intros <-. rewrite Hperm in Hz. apply (Hd _ Hz). left. }
    apply wp_bind. destruct f; [eapply wp_set_left|eapply wp_set_right]; try exact Hx';
      by apply wp_ret.
Qed.

(** ** Positions *)

Lemma pos_fill N f k t : at_pos N (f :: k) t ↔ at_pos N k (fill f t).
Proof. by rewrite !pos_tree. Qed.

Lemma pos_node N k c l x r :
  at_pos N k (T c l x r) → N !! x = Some (TNode (root l) (root r) (parent k) c) ∧ x ≠ NULL.
Proof.
  intros [(Hx & _) _ _ Hnull]. split; [done|]. intros ->. apply Hnull. simpl. set_solver.
Qed.

Lemma pos_nodup N k c l x r :
  at_pos N k (T c l x r) → (x ∉ nodes l) ∧ (x ∉ nodes r) ∧ x ∉ knodes k.
Proof.
  intros [_ _ Hnd _]. simpl in Hnd. rewrite <-app_assoc in Hnd.
  apply NoDup_app in Hnd as (_ & Hd & [Hx _]%NoDup_cons). split_and!; [|set_solver..].
  intros Hin. apply (Hd x Hin). left.
Qed.

(** Writing the colour of a node. *)
Lemma pos_recolor N k c c' l x r :
  at_pos N k (T c l x r) →
  at_pos (<[x := TNode (root l) (root r) (parent k) c']> N) k (T c' l x r).
Proof.
  intros Hp. destruct (pos_nodup _ _ _ _ _ _ Hp) as (Hxl & Hxr & Hxk).
  destruct Hp as [(Hx & Hl & Hr) Hk Hnd Hnull]. split; [|..|done|done].
  - split_and!; [look| |]; (eapply rep_frame; [|done]); intros z Hz;
      by rewrite lookup_insert_ne by (by intros ->).
  - eapply krep_frame; [|exact Hk]. intros z Hz.
    by rewrite lookup_insert_ne by (by intros ->).
Qed.

Lemma wp_blacken_pos N k c l x r (Q : unit → tstore → Prop) :
  at_pos N k (T c l x r) →
  (∀ N', at_pos N' k (T (Z.lor c BLACK) l x r) → Q tt N') → wp (blacken x) Q N.
Proof.
  intros Hp HQ. destruct (pos_node _ _ _ _ _ _ Hp) as [Hx _].
  eapply wp_blacken; [done|]. by eapply HQ, pos_recolor.
Qed.

Lemma wp_redden_pos N k c l x r (Q : unit → tstore → Prop) :
  at_pos N k (T c l x r) →
  (∀ N', at_pos N' k (T (Z.land c (Z.lnot COLOR)) l x r) → Q tt N') → wp (redden x) Q N.
Proof.
  intros Hp HQ. destruct (pos_node _ _ _ _ _ _ Hp) as [Hx _].
  eapply wp_redden; [done|]. by eapply HQ, pos_recolor.
Qed.

(** The sibling at the end of a path is a position, too. *)
Definition flip (f : frame) (t : tree) : frame :=
  match f with FL c x _ => FR t c x | FR _ c x => FL c x t end.

Lemma fill_flip f t : fill (flip f t) (f_sibling f) = fill f t.
Proof. by destruct f. Qed.

Definition root_black t : bool := match t with E => true | T c _ _ _ => is_black c end.

Lemma wp_node_black N k t (Q : bool → tstore → Prop) :
  at_pos N k t → Q (root_black t) N → wp (node_black (root t)) Q N.
Proof.
  intros Hp HQ. unfold node_black. destruct t as [|c l x r]; [by apply wp_ret|].
  destruct (pos_node _ _ _ _ _ _ Hp) as [Hx Hnn]. cbn [root].
  rewrite (proj2 (Z.eqb_neq x NULL)) by done. apply wp_bind.
  eapply wp_get_color; [done|]. by apply wp_ret.
Qed.

(** ** Restoring the balance after an insertion *)

Definition darken t : tree :=
  match t with E => E | T c l x r => T (Z.lor c BLACK) l x r end.
Definition lighten t : tree :=
  match t with E => E | T c l x r => T (Z.land c (Z.lnot COLOR)) l x r end.
Definition with_sibling (f : frame) (t : tree) : frame :=
  match f with FL c x _ => FL c x t | FR _ c x => FR t c x end.

(** The four rotation cases: [t] is a child of [f1], which is a child of [f2]. *)
Definition rebalance (f1 f2 : frame) t : tree :=
  match f2, f1, t with
  | FL cg g d, FL cp p s, _ => T (recolor cp cg) t p (T (recolor cg cp) s g d)
  | FL cg g d, FR s cp p, T c l x r =>
      let c' := recolor c cp in
      T (recolor c' cg) (T (Z.land c COLOR) s p l) x (T (recolor cg c') r g d)
  | FR d cg g, FR s cp p, _ => T (recolor cp cg) (T (Z.land cp COLOR) d g s) p t
  | FR d cg g, FL cp p s, T c l x r =>
      let c' := recolor c cp in
      T (recolor c' cg) (T (Z.land c' COLOR) d g l) x (T (recolor cp c) r p s)
  | _, _, E => E
  end.

(** The grandparent after the colours of the parent and the uncle have been
    changed; the root of the tree stays black. *)
Definition push_up (f1 f2 : frame) (top : bool) t : tree :=
  let g := fill (with_sibling f2 (darken (f_sibling f2))) (darken (fill f1 t)) in
  if top then g else lighten g.

(** Where the loop of [tree_insert] stops: the tree it leaves. *)
Fixpoint fixup k t : tree :=
  match k with
  | f1 :: k1 =>
      match k1 with
      | f2 :: k2 =>
          if is_black (f_color f1) then plug k t
          else if root_black (f_sibling f2) then plug k2 (rebalance f1 f2 t)
          else fixup k2 (push_up f1 f2 (match k2 with [] => true | _ => false end) t)
      | [] => plug k t
      end
  | [] => plug k t
  end.

(** The facts about the nodes on the path that the code reads. *)
Lemma pos_frame N f k t :
  at_pos N (f :: k) t →
  N !! f_node f = Some (hang f (root t) (parent k)) ∧ f_node f ≠ NULL ∧
  (t ≠ E → root t ≠ NULL ∧ root t ∉ nodes (f_sibling f)).
Proof.
  intros [_ Hk Hnd Hnull]. pose proof Hk as (Hx & _)%krep_cons. split_and!; [done| |].
  - clear -Hnull. set_solver.
  - intros Hne. pose proof (root_in t Hne) as Hin. split.
    + intros Heq. rewrite Heq in Hin. apply Hnull. set_solver.
    + intros Hs. apply NoDup_app in Hnd as (_ & Hd & _). apply (Hd _ Hin). simpl. set_solver.
Qed.

Lemma pos_direction N f k t :
  at_pos N (f :: k) t → t ≠ E →
  (root t =? t_left (hang f (root t) (parent k))) =
    match f with FL _ _ _ => true | FR _ _ _ => false end.
Proof. intros Hp Hne. destruct (pos_frame _ _ _ _ Hp) as (_ & _ & H). by apply hang_direction; apply H. Qed.

Lemma hang_up f h up : t_up (hang f h up) = up.
Proof. by destruct f. Qed.
Lemma hang_color f h up : t_color (hang f h up) = f_color f.
Proof. by destruct f. Qed.
Lemma hang_sibling f h up :
  (if match f with FL _ _ _ => true | FR _ _ _ => false end
   then t_right (hang f h up) else t_left (hang f h up)) = root (f_sibling f).
Proof. by destruct f. Qed.
Lemma fill_root f t : root (fill f t) = f_node f.
Proof. by destruct f. Qed.
Lemma fill_nonempty f t : fill f t ≠ E.
Proof. by destruct f. Qed.

Lemma pos_up N k t : at_pos N k t → t ≠ E → ∃ n, N !! root t = Some n ∧ t_up n = parent k.
Proof.
  intros [Hr _ _ _] Hne. destruct (rep_root _ _ _ Hne Hr) as (? & ? & ? & Hx). eauto.
Qed.

Lemma uncle_spec N f1 f2 k t (Q : ptr → tstore → Prop) :
  at_pos N (f1 :: f2 :: k) t → t ≠ E → Q (root (f_sibling f2)) N → wp (uncle_node (root t)) Q N.
Proof.
  intros Hp Hne HQ. destruct (pos_up _ _ _ Hp Hne) as (n & Hn & Hup).
  destruct (pos_frame _ _ _ _ Hp) as (H1 & _ & _).
  pose proof Hp as Hp2%pos_fill. destruct (pos_frame _ _ _ _ Hp2) as (H2 & _ & _).
  pose proof (pos_direction _ _ _ _ Hp2 (fill_nonempty f1 t)) as Hdir. rewrite fill_root in *.
  apply wp_bind. eapply wp_get_up; [exact Hn|]. rewrite Hup. cbn [parent].
  apply wp_bind. eapply wp_get_up; [exact H1|]. rewrite hang_up. cbn [parent].
  apply wp_bind. eapply wp_get_left; [exact H2|]. rewrite Hdir.
  rewrite <-(hang_sibling f2 (f_node f1) (parent k)) in HQ.
  destruct f2; [eapply wp_get_right|eapply wp_get_left]; done.
Qed.

Lemma blacken_hole N k t (Q : unit → tstore → Prop) :
  at_pos N k t → t ≠ E → (∀ N', at_pos N' k (darken t) → Q tt N') →
  wp (blacken (root t)) Q N.
Proof. intros Hp Hne HQ. destruct t; [done|]. by eapply wp_blacken_pos. Qed.

Lemma blacken_sibling N f k t (Q : unit → tstore → Prop) :
  at_pos N (f :: k) t → f_sibling f ≠ E →
  (∀ N', at_pos N' (with_sibling f (darken (f_sibling f)) :: k) t → Q tt N') →
  wp (blacken (root (f_sibling f))) Q N.
Proof.
  intros Hp Hne HQ. apply (blacken_hole _ (flip f t :: k)); [|done|].
  - by rewrite pos_fill, fill_flip, <-pos_fill.
  - intros N' Hp'. apply HQ. rewrite pos_fill in *. by destruct f.
Qed.

Lemma lighten_top {A} N k t (m : M tstore A) Q :
  at_pos N k t → t ≠ E →
  (∀ N', at_pos N' k (if match k with [] => true | _ => false end then t else lighten t) →
     wp m Q N') →
  wp (gu ← get_up (root t); (if nonnull gu then redden (root t) else mret tt);; m) Q N.
Proof.
  intros Hp Hne HQ. destruct (pos_up _ _ _ Hp Hne) as (n & Hn & Hup).
  apply wp_bind. eapply wp_get_up; [exact Hn|]. rewrite Hup. apply wp_bind.
  destruct k as [|f k]; [by apply wp_ret, HQ|]. cbn [parent].
  destruct (pos_frame _ _ _ _ Hp) as (_ & Hf & _). rewrite nonnull_true by done.
  destruct t; [done|]. eapply wp_redden_pos; [exact Hp|]. intros N' Hp'. by apply HQ.
Qed.

Lemma with_sibling_props f t s :
  f_node (with_sibling f s) = f_node f ∧ f_sibling (with_sibling f s) = s ∧
  fill (with_sibling f s) t = fill (flip f t) s.
Proof. by destruct f. Qed.

(** The branch of a red uncle. *)
Lemma push_up_spec {A} N f1 f2 k t (m : M tstore A) Q :
  at_pos N (f1 :: f2 :: k) t → root_black (f_sibling f2) = false →
  (∀ N', at_pos N' k (push_up f1 f2 (match k with [] => true | _ => false end) t) → wp m Q N') →
  wp (l ← get_left (f_node f2);
      blacken l;;
      r ← get_right (f_node f2);
      blacken r;;
      gu ← get_up (f_node f2);
      (if nonnull gu then redden (f_node f2) else mret tt);;
      m) Q N.
Proof.
  intros Hp%pos_fill Hred HQ.
  assert (f_sibling f2 ≠ E) as Hs by (by intros Heq; rewrite Heq in Hred).
  pose proof (fill_nonempty f1 t) as Hne.
  set (s := darken (f_sibling f2)). set (u := darken (fill f1 t)).
  assert (root (fill (with_sibling f2 s) u) = f_node f2) as Hroot.
  { rewrite fill_root. apply with_sibling_props, E. }
  assert (∀ N', at_pos N' (with_sibling f2 s :: k) u →
    wp (gu ← get_up (f_node f2); (if nonnull gu then redden (f_node f2) else mret tt);; m) Q N')
    as Htop.
  { intros N' Hp'%pos_fill. rewrite <-Hroot.
    apply (lighten_top N' k); [done|apply fill_nonempty|done]. }
  destruct (pos_frame _ _ _ _ Hp) as (H2 & _).
  apply wp_bind. eapply wp_get_left; [exact H2|]. apply wp_bind.
  destruct f2 as [cg g d|d cg g]; simpl in Hs; cbn [hang t_left f_node].
  - apply (blacken_hole N (FL cg g d :: k)); [done..|]. intros N1 Hp1.
    destruct (pos_frame _ _ _ _ Hp1) as (H21 & _). apply wp_bind.
    eapply wp_get_right; [exact H21|]. apply wp_bind. cbn [hang t_right].
    apply (blacken_sibling N1 (FL cg g d) k u); [done..|]. apply Htop.
  - apply (blacken_sibling N (FR d cg g) k (fill f1 t)); [done..|]. intros N1 Hp1.
    destruct (pos_frame _ _ _ _ Hp1) as (H21 & _). apply wp_bind.
    eapply wp_get_right; [exact H21|]. apply wp_bind. cbn [hang t_right].
    apply (blacken_hole N1 (with_sibling (FR d cg g) s :: k)); [done..|]. apply Htop.
Qed.

Lemma pos_direction_right N f k t :
  at_pos N (f :: k) t → t ≠ E →
  (root t =? t_right (hang f (root t) (parent k))) =
    match f with FL _ _ _ => false | FR _ _ _ => true end.
Proof.
  intros Hp Hne. destruct (pos_frame _ _ _ _ Hp) as (_ & _ & H). destruct (H Hne) as [Hnn Hs].
  destruct f as [c x r|l c x]; simpl in *; [|apply Z.eqb_refl].
  apply Z.eqb_neq. intros Heq. rewrite Heq in Hnn, Hs. destruct r; [done|]. simpl in Hs. set_solver.
Qed.

(** The rotation cases. *)
Lemma rebalance_rotates f1 f2 c l x r :
  let t := T c l x r in
  rotates (match f2, f1 with
           | FL _ _ _, FL _ _ _ => s_right_rotate
           | FL _ _ _, FR _ _ _ => d_right_rotate
           | FR _ _ _, FR _ _ _ => s_left_rotate
           | FR _ _ _, FL _ _ _ => d_left_rotate
           end) (fill f2 (fill f1 t)) (rebalance f1 f2 t).
Proof.
  destruct f2, f1; simpl;
    [apply s_right_rotate_spec|apply d_right_rotate_spec
    |apply d_left_rotate_spec|apply s_left_rotate_spec].
Qed.

Lemma rebalance_step N f1 f2 k t (Q : ptr + ptr → tstore → Prop) :
  at_pos N (f1 :: f2 :: k) t → t ≠ E →
  (∀ N', at_pos N' k (rebalance f1 f2 t) → Q (Break (root (rebalance f1 f2 t))) N') →
  wp (gl ← get_left (f_node f2);
      top ← (if f_node f1 =? gl then
               l ← get_left (f_node f1);
               if root t =? l then rotate_linked s_right_rotate (f_node f2)
               else rotate_linked d_right_rotate (f_node f2)
             else
               r ← get_right (f_node f1);
               if root t =? r then rotate_linked s_left_rotate (f_node f2)
               else rotate_linked d_left_rotate (f_node f2));
      mret (Break top)) Q N.
Proof.
  intros Hp Hne HQ. destruct (pos_frame _ _ _ _ Hp) as (H1 & _).
  pose proof (pos_direction _ _ _ _ Hp Hne) as Hd1.
  pose proof (pos_direction_right _ _ _ _ Hp Hne) as Hd1'.
  pose proof Hp as Hp2%pos_fill. destruct (pos_frame _ _ _ _ Hp2) as (H2 & _).
  pose proof (pos_direction _ _ _ _ Hp2 (fill_nonempty f1 t)) as Hd2. rewrite fill_root in *.
  apply pos_fill in Hp2. assert (at_pos N k (fill f2 (fill f1 t))) as Hp3 by (by rewrite <-!pos_fill).
  pose proof (fill_nonempty f2 (fill f1 t)) as Hne2.
  destruct t as [|c l x r]; [done|].
  pose proof (rebalance_rotates f1 f2 c l x r) as Hrot. cbv zeta in Hrot.
  rewrite <-(fill_root f2 (fill f1 (T c l x r))).
  apply wp_bind. eapply wp_get_left; [by rewrite fill_root|]. rewrite Hd2.
  assert (∀ rot, rotates rot (fill f2 (fill f1 (T c l x r))) (rebalance f1 f2 (T c l x r)) →
    wp (rotate_linked rot (root (fill f2 (fill f1 (T c l x r)))))
       (λ a N', wp (mret (Break a)) Q N') N) as Hdo.
  { intros rot Hr. eapply wp_mono; [apply (rotate_linked_spec _ _ _ _ _ Hr Hne2 Hp3)|].
    intros p N' [-> Hp']. by apply wp_ret, HQ. }
  apply wp_bind. destruct f2, f1; cbn beta iota; apply wp_bind;
    first [eapply wp_get_left; [exact H1|]; rewrite Hd1; by apply Hdo
          |eapply wp_get_right; [exact H1|]; rewrite Hd1'; by apply Hdo].
Qed.

(** The root of the tree is black. *)
Definition top_black k : Prop :=
  match last k with Some f => is_black (f_color f) = true | None => True end.

Lemma insert_fix_step_spec N k t :
  at_pos N k t → t ≠ E → top_black k →
  wp (insert_fix_step (root t))
     (λ res N', match res with
              | inl p => ∃ k' t', at_pos N' k' t' ∧ p = root t' ∧ t' ≠ E ∧ top_black k' ∧
                  fixup k t = fixup k' t' ∧ (length k' < length k)%nat
              | inr p => ∃ k' t', at_pos N' k' t' ∧ p = root t' ∧ t' ≠ E ∧ plug k' t' = fixup k t
              end) N.
Proof.
  intros Hp Hne Htop. destruct (pos_up _ _ _ Hp Hne) as (n & Hn & Hup).
  unfold insert_fix_step. apply wp_bind. eapply wp_get_up; [exact Hn|]. rewrite Hup.
  destruct k as [|f1 k]; [apply wp_ret; by exists [], t|]. cbn [parent].
  destruct (pos_frame _ _ _ _ Hp) as (H1 & Hn1 & _).
  rewrite (proj2 (Z.eqb_neq _ NULL)) by done.
  apply wp_bind. eapply wp_get_color; [exact H1|]. rewrite hang_color.
  destruct (is_black (f_color f1)) eqn:Hb1.
  { apply wp_ret. exists (f1 :: k), t. split_and!; [done..|].
    destruct k; [done|]. cbn [fixup]. by rewrite Hb1. }
  destruct k as [|f2 k].
  { exfalso. unfold top_black in Htop. simpl in Htop. congruence. }
  apply wp_bind, (uncle_spec N f1 f2 k t); [done..|].
  apply wp_bind, (wp_node_black N (flip f2 (fill f1 t) :: k)).
  { by rewrite pos_fill, fill_flip, <-!pos_fill. }
  apply wp_bind. eapply wp_get_up; [exact H1|]. rewrite hang_up. cbn [parent].
  destruct (root_black (f_sibling f2)) eqn:Hs; cbn [negb].
  - apply (rebalance_step N f1 f2 k t); [done..|]. intros N' Hp'.
    exists k, (rebalance f1 f2 t). split_and!; [done|done| |].
    + destruct t; [done|]. by destruct f2, f1.
    + cbn [fixup]. by rewrite Hb1, Hs.
  - apply (push_up_spec N f1 f2 k t); [done..|]. intros N' Hp'. apply wp_ret.
    set (g := push_up _ _ _ _) in *. exists k, g.
    assert (root g = f_node f2) as Hg.
    { subst g. unfold push_up. destruct k, f2, f1; reflexivity. }
    split_and!; [done|by rewrite Hg| | | |simpl; lia].
    + intros Heq. rewrite Heq in Hg. destruct (pos_frame _ _ _ _ (proj1 (pos_fill _ _ _ _) Hp)) as (_ & Hn2 & _). done.
    + unfold top_black in *. by destruct k.
    + cbn [fixup]. by rewrite Hb1, Hs.
Qed.

(** ** In-order positions *)

(** The nodes to the left and to the right of the hole of a path. *)
Fixpoint before k : list ptr :=
  match k with
  | [] => []
  | FL _ _ _ :: k' => before k'
  | FR l _ x :: k' => before k' ++ nodes l ++ [x]
  end.
Fixpoint after k : list ptr :=
  match k with
  | [] => []
  | FL _ x r :: k' => x :: nodes r ++ after k'
  | FR _ _ _ :: k' => after k'
  end.

Lemma plug_inorder k t : nodes (plug k t) = before k ++ nodes t ++ after k.
Proof.
  revert t. induction k as [|[c x r|l c x] k IH]; intros t; simpl; [by rewrite app_nil_r|..];
    rewrite IH; simpl; by rewrite <-!app_assoc.
Qed.

Lemma rebalance_nodes f1 f2 t :
  t ≠ E → nodes (rebalance f1 f2 t) = nodes (fill f2 (fill f1 t)).
Proof.
  intros Hne. destruct t as [|c l x r]; [done|].
  destruct f2, f1; simpl; rewrite <-?app_assoc; simpl; by rewrite <-?app_assoc.
Qed.

Lemma darken_nodes t : nodes (darken t) = nodes t.
Proof. by destruct t. Qed.
Lemma lighten_nodes t : nodes (lighten t) = nodes t.
Proof. by destruct t. Qed.

Lemma push_up_nodes f1 f2 top t : nodes (push_up f1 f2 top t) = nodes (fill f2 (fill f1 t)).
Proof.
  unfold push_up. destruct top; rewrite ?lighten_nodes;
    destruct f2; simpl; by rewrite !darken_nodes.
Qed.

(** Restoring the balance keeps the order of the nodes. *)
Lemma fixup_nodes k t : t ≠ E → nodes (fixup k t) = nodes (plug k t).
Proof.
  intros Hne. remember (length k) as n eqn:Hn.
  revert k t Hne Hn. induction n as [n IH] using lt_wf_ind; intros k t Hne ->.
  destruct k as [|f1 [|f2 k]]; [done..|]. cbn [fixup].
  destruct (is_black (f_color f1)); [done|]. destruct (root_black (f_sibling f2)).
  - change (plug (f1 :: f2 :: k) t) with (plug k (fill f2 (fill f1 t))).
    by rewrite !plug_inorder, rebalance_nodes.
  - rewrite (IH (length k)); [|simpl; lia| |done].
    + change (plug (f1 :: f2 :: k) t) with (plug k (fill f2 (fill f1 t))).
      by rewrite !plug_inorder, push_up_nodes.
    + unfold push_up. destruct k, f2, f1; simpl; done.
Qed.

Lemma path_length k t : (length k ≤ length (nodes (plug k t)))%nat.
Proof.
  rewrite plug_nodes, length_app. assert (length k ≤ length (knodes k))%nat; [|lia].
  induction k as [|f k IH]; simpl; [done|]. rewrite length_app. lia.
Qed.

Lemma rep_dom N up t x : rep N up t → x ∈ nodes t → is_Some (N !! x).
Proof.
  revert up. induction t as [|c l IHl y r IHr]; intros up; simpl; [set_solver|].
  intros (Hy & Hl & Hr) [Hx|[->|Hx]%elem_of_cons]%elem_of_app; eauto.
Qed.

Lemma tree_size N p t : tree_rep N p t → (length (nodes t) ≤ base.size N)%nat.
Proof.
  intros [_ Hr Hnd _]. rewrite <-(size_list_to_set (C := gset ptr)) by done.
  rewrite <-size_dom. apply subseteq_size. intros x Hx%elem_of_list_to_set.
  apply elem_of_dom. by eapply rep_dom.
Qed.

(** ** The loops of [tree_insert] *)

Section insert.
Context (comp : ptr → ptr → Z).

(** The path to the place of a new node. *)
Fixpoint locate (inn : ptr) t k : list frame :=
  match t with
  | E => k
  | T c l x r => if 0 <? comp x inn then locate inn l (FL c x r :: k)
                 else locate inn r (FR l c x :: k)
  end.

Lemma locate_plug inn t k : plug (locate inn t k) E = plug k t.
Proof.
  revert k. induction t as [|c l IHl x r IHr]; intros k; simpl; [done|].
  destruct (0 <? comp x inn); [apply IHl|apply IHr].
Qed.

Lemma locate_top inn t k :
  top_black k → (k = [] → root_black t = true) → top_black (locate inn t k).
Proof.
  revert k. induction t as [|c l IHl x r IHr]; intros k Hk Hr; simpl; [done|].
  destruct (0 <? comp x inn); [apply IHl|apply IHr]; try done;
    unfold top_black in *; (destruct k; [by apply Hr|by rewrite last_cons_cons]).
Qed.

Lemma descend_spec inn N t k fuel :
  at_pos N k t → t ≠ E → (length (nodes t) < fuel)%nat →
  wp (loop fuel (descend_step comp inn) (root t))
     (λ p N', N' = N ∧ p = parent (locate inn t k)) N.
Proof.
  revert k t. induction fuel as [|fuel IH]; intros k t Hp Hne Hf; [lia|].
  destruct t as [|c l x r]; [done|]. simpl in Hf. rewrite length_app in Hf. simpl in Hf.
  destruct (pos_node _ _ _ _ _ _ Hp) as [Hx Hnn].
  apply wp_bind. unfold descend_step. cbn [root locate].
  assert (∀ f s, fill f s = T c l x r → (length (nodes s) < fuel)%nat →
    parent (f :: k) = x →
    wp (if nonnull (root s) then mret (Continue (root s)) else mret (Break x))
       (λ res N', wp (match res with inl a => loop fuel (descend_step comp inn) a
                                   | inr b => mret b end)
                     (λ p N'', N'' = N ∧ p = parent (locate inn s (f :: k))) N') N) as Hgo.
  { intros f s Hfill Hlen Hpar.
    assert (at_pos N (f :: k) s) as Hps by (by rewrite pos_fill, Hfill).
    destruct s as [|c' l' x' r'] eqn:Hs; [by apply wp_ret, wp_ret|].
    destruct (pos_node _ _ _ _ _ _ Hps) as [_ Hnn']. cbn [root]. rewrite nonnull_true by done.
    apply wp_ret. by apply (IH (f :: k) (T c' l' x' r')). }
  destruct (0 <? comp x inn); apply wp_bind.
  - eapply wp_get_left; [exact Hx|]. apply (Hgo (FL c x r) l); [done|lia|done].
  - eapply wp_get_right; [exact Hx|]. apply (Hgo (FR l c x) r); [done|lia|done].
Qed.

Lemma fix_loop_spec N k t fuel :
  at_pos N k t → t ≠ E → top_black k → (length k < fuel)%nat →
  wp (loop fuel insert_fix_step (root t))
     (λ p N', ∃ k' t', at_pos N' k' t' ∧ p = root t' ∧ t' ≠ E ∧ plug k' t' = fixup k t) N.
Proof.
  revert N k t. induction fuel as [|fuel IH]; intros N k t Hp Hne Htop Hf; [lia|].
  apply wp_bind. eapply wp_mono; [by apply insert_fix_step_spec|].
  intros [p|p] N'; [|done]. intros (k' & t' & Hp' & -> & Hne' & Htop' & Heq & Hlen).
  rewrite Heq. apply IH; [done..|lia].
Qed.

Lemma climb_spec N k t fuel :
  at_pos N k t → t ≠ E → (length k < fuel)%nat →
  wp (loop fuel climb_step (root t)) (λ p N', N' = N ∧ p = root (plug k t)) N.
Proof.
  revert k t. induction fuel as [|fuel IH]; intros k t Hp Hne Hf; [lia|].
  destruct (pos_up _ _ _ Hp Hne) as (n & Hn & Hup).
  apply wp_bind, wp_bind. eapply wp_get_up; [exact Hn|]. rewrite Hup.
  destruct k as [|f k]; [by apply wp_ret, wp_ret|]. cbn [parent].
  destruct (pos_frame _ _ _ _ Hp) as (_ & Hnn & _). rewrite nonnull_true by done.
  apply wp_ret. rewrite <-(fill_root f t). simpl in Hf.
  apply (IH k (fill f t)); [by rewrite <-pos_fill|apply fill_nonempty|lia].
Qed.

(** The last step down goes the way the comparison says. *)
Definition goes (inn : ptr) (f : frame) : Prop :=
  match f with
  | FL _ x _ => 0 < comp x inn
  | FR _ _ x => comp x inn ≤ 0
  end.

Lemma locate_cons inn t k :
  t ≠ E → ∃ f k', locate inn t k = f :: k' ∧ goes inn f.
Proof.
  revert k. induction t as [|c l IHl x r IHr]; intros k Hne; [done|]. simpl.
  destruct (Z.ltb_spec 0 (comp x inn)).
  - destruct l as [|? ? ? ?]; [by eexists _, _|by apply IHl].
  - destruct r as [|? ? ? ?]; [by eexists _, _|by apply IHr].
Qed.

(** Hanging a new leaf below [f]. *)
Lemma link_spec {A} N f k inn n (m : M tstore A) Q :
  at_pos N (f :: k) E → N !! inn = Some n → inn ∉ knodes (f :: k) → inn ≠ NULL →
  (comp inn (f_node f) <? 0) = match f with FL _ _ _ => true | FR _ _ _ => false end →
  (∀ N', at_pos N' (f :: k) (T (t_color n) E inn E) → wp m Q N') →
  wp (set_up inn (f_node f);;
      set_right inn NULL;;
      set_left inn NULL;;
      (if comp inn (f_node f) <? 0 then set_left (f_node f) inn else set_right (f_node f) inn);;
      m) Q N.
Proof.
  intros [_ Hk Hnd Hnull] Hin Hfresh Hnn Hdir HQ. destruct n as [pl pr pu c].
  do 3 (apply wp_bind; first [eapply wp_set_up; [look|]|eapply wp_set_right; [look|]
                             |eapply wp_set_left; [look|]]).
  set (N1 := <[inn := _]> _).
  assert (∀ z, z ≠ inn → N1 !! z = N !! z) as Hout.
  { intros z Hz. subst N1. by rewrite !lookup_insert_ne. }
  assert (N1 !! inn = Some (TNode NULL NULL (f_node f) c)) as Hin1 by (subst N1; look).
  clearbody N1.
  assert (krep N1 (f :: k) NULL) as Hk1.
  { eapply krep_frame; [|exact Hk]. intros z Hz. apply Hout. by intros ->. }
  pose proof Hk1 as (Hf & _)%krep_cons.
  assert (at_pos (<[f_node f := hang f inn (parent k)]> N1) (f :: k) (T c E inn E)) as Hp.
  { split; [|by apply (krep_rehang _ _ _ NULL)|..].
    - split_and!; [|done|done]. rewrite lookup_insert_ne; [done|].
      intros Heq. apply Hfresh. rewrite <-Heq. left.
    - simpl. by apply NoDup_cons.
    - simpl in *. set_solver. }
  apply wp_bind. rewrite Hdir. destruct f; [eapply wp_set_left|eapply wp_set_right];
    try exact Hf; by apply HQ.
Qed.

(** The tree after an insertion; [c] is the colour word of the new node. *)
Definition rb_insert t inn c : tree :=
  match t with
  | E => T (Z.lor c BLACK) E inn E
  | _ => fixup (locate inn t []) (T c E inn E)
  end.

Hypothesis comp_flip : ∀ x y, (comp y x <? 0) = (0 <? comp x y).

Lemma goes_direction inn f :
  goes inn f →
  (comp inn (f_node f) <? 0) = match f with FL _ _ _ => true | FR _ _ _ => false end.
Proof.
  rewrite comp_flip. destruct f; simpl; [by apply Z.ltb_lt|by apply Z.ltb_ge].
Qed.

Lemma redden_new N p t inn n (Q : unit → tstore → Prop) :
  tree_rep N p t → N !! inn = Some n → inn ∉ nodes t →
  (∀ N' n', tree_rep N' p t → N' !! inn = Some n' →
     t_color n' = Z.land (t_color n) (Z.lnot COLOR) → base.size N' = base.size N → Q tt N') →
  wp (redden inn) Q N.
Proof.
  intros [Hroot Hr Hnd Hnull] Hin Hfresh HQ. destruct n as [pl pr pu c].
  eapply wp_redden; [exact Hin|]. eapply HQ; [|apply lookup_insert_eq|done|].
  - split; [done| |done|done]. eapply rep_frame; [|exact Hr]. intros z Hz.
    rewrite lookup_insert_ne; [done|]. by intros ->.
  - apply map_size_insert_Some. eauto.
Qed.

Lemma tree_insert_spec N p t inn n :
  tree_rep N p t → N !! inn = Some n → inn ∉ nodes t → inn ≠ NULL → root_black t = true →
  wp (tree_insert comp p inn)
     (λ p' N', tree_rep N' p' (rb_insert t inn (Z.land (t_color n) (Z.lnot COLOR)))) N.
Proof.
  intros Ht Hin Hfresh Hnn Hblack. apply wp_bind, (redden_new N p t inn n); [done..|].
  intros N1 [pl pr pu c] Ht1 Hin1 Hc Hsz. simpl in Hc. subst c.
  set (c := Z.land _ _). apply wp_bind, wp_gets.
  pose proof (tree_size _ _ _ Ht1) as Hlen.
  assert (length (nodes t) < base.size N1)%nat as Hlt.
  { rewrite <-size_dom. rewrite <-(size_list_to_set (C := gset ptr)) by apply Ht1.
    apply subset_size. split.
    - intros x Hx%elem_of_list_to_set. apply elem_of_dom. eapply rep_dom; [apply Ht1|done].
    - intros Hsub. apply Hfresh, (elem_of_list_to_set (C := gset ptr)), Hsub, elem_of_dom. eauto. }
  pose proof Ht1 as [-> Hr Hnd Hnull]. destruct t as [|ct lt xt rt] eqn:Het.
  { cbn [root nonnull]. simpl. repeat tstep.
    split; [done| |by apply NoDup_singleton|set_solver].
    split_and!; [look|done|done]. }
  rewrite <-Het in *. assert (t ≠ E) as Hne by (by rewrite Het).
  assert (at_pos N1 [] t) as Hp by (by apply pos_tree).
  assert (root t ≠ NULL) as Hrn.
  { intros Heq. apply Hnull. rewrite <-Heq. by apply root_in. }
  rewrite nonnull_true by done. apply wp_bind.
  eapply wp_mono; [apply (descend_spec inn N1 t []); [done|done|lia]|].
  intros last N' [-> ->].
  destruct (locate_cons inn t [] Hne) as (f & k & Hloc & Hgoes).
  assert (at_pos N1 (f :: k) E) as Hpe.
  { rewrite <-Hloc. apply pos_tree. rewrite locate_plug. done. }
  pose proof (plug_nodes (f :: k) E) as Hperm. rewrite <-Hloc, locate_plug, Hloc in Hperm.
  rewrite Hloc. apply (link_spec _ f k inn (TNode pl pr pu c)); [done|done| |done| |].
  { intros Hk. apply Hfresh. rewrite Hperm. done. }
  { by apply goes_direction. }
  intros N2 Hp2. simpl in Hp2.
  assert (nodes (fixup (f :: k) (T c E inn E)) = nodes (plug (f :: k) (T c E inn E)))
    as Hfn by (by apply fixup_nodes).
  assert (length (nodes (plug (f :: k) (T c E inn E))) = S (length (nodes t))) as Hlen2.
  { rewrite plug_nodes, Hperm. done. }
  apply wp_bind. eapply wp_mono.
  { apply (fix_loop_spec N2 (f :: k) (T c E inn E)); [done|done| |].
    - rewrite <-Hloc. by apply locate_top.
    - pose proof (path_length (f :: k) (T c E inn E)). lia. }
  intros q N3 (k' & t' & Hp3 & -> & Hne' & Heq).
  eapply wp_mono; [apply (climb_spec N3 k' t'); [done|done|]|].
  { pose proof (path_length k' t') as Hpl. rewrite Heq, Hfn in Hpl. lia. }
  intros q N4 [-> ->]. apply pos_tree in Hp3. rewrite Heq in Hp3.
  unfold rb_insert. rewrite Het, <-Het, Hloc, Heq. done.
Qed.
End insert.
