(* ===== verification/RedBlackInsert.v ===== *)
(** * What insertion into a red-black tree preserves

    The functional insertion of [RedBlackSpec] keeps the nodes sorted and the
    tree balanced; with the refinement proved there, so does [tree_insert].
    Deletion finds no node but the root. *)

From S2P Require Import Prelude RedBlack RedBlackSpec.
From Stdlib Require Import Sorted.
#[local] Open Scope Z_scope.
Implicit Types N : tstore.
Implicit Types t l r : tree.
Implicit Types k : list frame.

(** ** Colour words *)

Lemma is_black_odd c : is_black c = Z.odd c.
Proof.
  unfold is_black, COLOR. rewrite <-Z.bit0_odd. change 1 with (Z.ones 1).
  rewrite Z.land_ones, <-Z.bit0_mod by lia. by destruct (Z.testbit c 0).
Qed.

Lemma black_lor c : is_black (Z.lor c BLACK) = true.
Proof. by rewrite is_black_odd, <-Z.bit0_odd, Z.lor_spec, orb_true_r. Qed.

Lemma black_clear c : is_black (Z.land c (Z.lnot COLOR)) = false.
Proof. by rewrite is_black_odd, <-Z.bit0_odd, Z.land_spec, andb_false_r. Qed.

Lemma black_mask c : is_black (Z.land c COLOR) = is_black c.
Proof. by rewrite !is_black_odd, <-!Z.bit0_odd, Z.land_spec, andb_true_r. Qed.

Lemma black_recolor c d : is_black (recolor c d) = is_black d.
Proof.
  unfold recolor. rewrite !is_black_odd, <-!Z.bit0_odd, Z.lor_spec, !Z.land_spec.
  by rewrite andb_false_r, andb_true_r.
Qed.

(** ** Balance *)

(** No red node has a red child, and every path to a leaf has [n] black nodes. *)
Inductive rb : tree → nat → Prop :=
| rb_E : rb E 0
| rb_B c l x r n : is_black c = true → rb l n → rb r n → rb (T c l x r) (S n)
| rb_R c l x r n : is_black c = false → root_black l = true → root_black r = true →
    rb l n → rb r n → rb (T c l x r) n.

Definition head_black k : Prop :=
  match k with f :: _ => is_black (f_color f) = true | [] => False end.

(** A path that can take a subtree of black height [n]. *)
Fixpoint kok k (n : nat) : Prop :=
  match k with
  | [] => True
  | f :: k' =>
      rb (f_sibling f) n ∧
      if is_black (f_color f) then kok k' (S n)
      else root_black (f_sibling f) = true ∧ head_black k' ∧ kok k' n
  end.

Lemma fill_rb f t n :
  rb t n → rb (f_sibling f) n →
  (is_black (f_color f) = false → root_black t = true ∧ root_black (f_sibling f) = true) →
  rb (fill f t) (if is_black (f_color f) then S n else n) ∧
  root_black (fill f t) = is_black (f_color f).
Proof.
  intros Ht Hs Hred. destruct (is_black (f_color f)) eqn:Hc.
  - destruct f; simpl in *; split; try done; by apply rb_B.
  - destruct (Hred eq_refl). destruct f; simpl in *; split; try done; by apply rb_R.
Qed.

Lemma plug_rb k t n :
  rb t n → kok k n → root_black t = true ∨ head_black k →
  ∃ m, rb (plug k t) m ∧ root_black (plug k t) = true.
Proof.
  revert t n. induction k as [|f k IH]; intros t n Ht Hk Hc; simpl.
  { destruct Hc; [eauto|done]. }
  destruct Hk as [Hs Hk]. simpl in Hc.
  destruct (fill_rb f t n Ht Hs) as [Hf Hb].
  { intros Hred. rewrite Hred in Hk, Hc. destruct Hc; [naive_solver|done]. }
  apply (IH _ _ Hf); rewrite ?Hb; destruct (is_black (f_color f)); [done| |by left|];
    [apply Hk|right; apply Hk].
Qed.

Lemma locate_ok comp inn t k n :
  rb t n → kok k n → root_black t = true ∨ head_black k → kok (locate comp inn t k) 0.
Proof.
  revert k n. induction t as [|c l IHl x r IHr]; intros k n Ht Hk Hc; simpl.
  { by inversion Ht; subst. }
  assert (∀ f s, f_color f = c → (f_sibling f = l ∧ s = r ∨ f_sibling f = r ∧ s = l) →
    ∃ m, rb s m ∧ kok (f :: k) m ∧ (root_black s = true ∨ head_black (f :: k))) as Hstep.
  { intros f s Hf Hs. simpl. rewrite Hf. simpl in Hc.
    inversion Ht as [|? ? ? ? m Hb Hl Hr|? ? ? ? m Hb Hbl Hbr Hl Hr]; subst; rewrite Hb in *.
    - exists m. destruct Hs as [[-> ->]|[-> ->]]; auto.
    - destruct Hc as [|Hc]; [done|].
      exists n. destruct Hs as [[-> ->]|[-> ->]]; split_and!; auto. }
  destruct (0 <? comp x inn).
  - destruct (Hstep (FL c x r) l) as (m & H1 & H2 & H3); [done|by right|]. by eapply IHl.
  - destruct (Hstep (FR l c x) r) as (m & H1 & H2 & H3); [done|by left|]. by eapply IHr.
Qed.

Lemma rb_red t n : rb t n → root_black t = false →
  ∃ c l x r, t = T c l x r ∧ is_black c = false ∧ rb l n ∧ rb r n ∧
    root_black l = true ∧ root_black r = true.
Proof. intros Ht. destruct Ht; simpl; intros Hb; [done|congruence|eauto 10]. Qed.

Lemma rebalance_rb f1 f2 t n :
  rb t n → root_black t = false → is_black (f_color f2) = true →
  is_black (f_color f1) = false → rb (f_sibling f1) n → root_black (f_sibling f1) = true →
  rb (f_sibling f2) n → root_black (f_sibling f2) = true →
  rb (rebalance f1 f2 t) (S n) ∧ root_black (rebalance f1 f2 t) = true.
Proof.
  intros Ht Hred Hc2 Hc1 Hs1 Hb1 Hs2 Hb2.
  destruct (rb_red t n Ht Hred) as (c & l & x & r & -> & Hc & Hl & Hr & Hbl & Hbr).
  destruct f2, f1; simpl in *; (split; [apply rb_B|]);
    rewrite ?black_recolor; try done; apply rb_R;
    rewrite ?black_recolor, ?black_mask, ?black_recolor; done.
Qed.

Lemma darken_rb t n : rb t n → root_black t = false → rb (darken t) (S n) ∧
  root_black (darken t) = true.
Proof.
  intros Ht Hred. destruct (rb_red t n Ht Hred) as (c & l & x & r & -> & _ & Hl & Hr & _).
  simpl. rewrite black_lor. split; [|done]. apply rb_B; [apply black_lor|done..].
Qed.

Lemma push_up_rb f1 f2 t n top :
  rb t n → is_black (f_color f1) = false → rb (f_sibling f1) n →
  rb (f_sibling f2) n → root_black (f_sibling f2) = false → is_black (f_color f2) = true →
  let g := push_up f1 f2 top t in
  (∃ m, rb g m ∧ (top = false → m = S n)) ∧ root_black g = top.
Proof.
  intros Ht Hc1 Hs1 Hs2 Hred Hc2. cbv zeta.
  destruct (darken_rb _ _ Hs2 Hred) as [Hd Hdb].
  assert (rb (darken (fill f1 t)) (S n) ∧ root_black (darken (fill f1 t)) = true) as [Hp Hpb].
  { destruct f1; simpl; rewrite black_lor; (split; [|done]); by apply rb_B; [apply black_lor|..]. }
  unfold push_up. destruct f2; simpl in *; destruct top; simpl; rewrite ?black_clear;
    (split; [|done]).
  1, 3: eexists; split; [by apply rb_B|done].
  all: exists (S n); split; [|done]; apply rb_R; first [done|apply black_clear].
Qed.

(** The loop of [tree_insert] leaves a balanced tree. *)
Lemma fixup_rb k t n :
  rb t n → kok k n → root_black t = match k with [] => true | _ => false end →
  ∃ m, rb (fixup k t) m ∧ root_black (fixup k t) = true.
Proof.
  remember (length k) as len eqn:Hlen. revert k t n Hlen.
  induction len as [len IH] using lt_wf_ind; intros k t n -> Ht Hk Hb.
  destruct k as [|f1 k]; [by exists n|].
  destruct (is_black (f_color f1)) eqn:Hc1.
  { destruct (plug_rb (f1 :: k) t n) as (m & Hm); [done|done|by right|].
    exists m. destruct k; [done|]. cbn [fixup]. by rewrite Hc1. }
  destruct Hk as [Hs1 Hk]. rewrite Hc1 in Hk. destruct Hk as (Hb1 & Hh & Hk).
  destruct k as [|f2 k]; [done|]. simpl in Hh. destruct Hk as [Hs2 Hk]. rewrite Hh in Hk.
  cbn [fixup]. rewrite Hc1. destruct (root_black (f_sibling f2)) eqn:Hb2.
  - destruct (rebalance_rb f1 f2 t n) as [Hr Hrb]; [done..|].
    eapply plug_rb; [exact Hr|exact Hk|by left].
  - set (top := match k with [] => true | _ => false end).
    destruct (push_up_rb f1 f2 t n top) as [(m & Hg & Hm) Hgb]; [done..|].
    destruct k as [|f3 k]; [by exists m|]. rewrite (Hm eq_refl) in Hg.
    apply (IH (length (f3 :: k)) ltac:(simpl; lia) _ _ (S n)); done.
Qed.

(** The depth bound that the header of the template states. *)
Fixpoint height t : nat :=
  match t with E => 0 | T _ l _ r => S (Nat.max (height l) (height r)) end.

Lemma rb_height t n : rb t n →
  (height t ≤ 2 * n + if root_black t then 0 else 1)%nat ∧ (2 ^ n ≤ S (length (nodes t)))%nat.
Proof.
  induction 1 as [|c l x r n Hc Hl [IHl1 IHl2] Hr [IHr1 IHr2]
                  |c l x r n Hc Hbl Hbr Hl [IHl1 IHl2] Hr [IHr1 IHr2]];
    simpl; [lia|rewrite length_app, Hc; simpl|rewrite length_app, Hc; simpl].
  - destruct (root_black l), (root_black r); lia.
  - rewrite Hbl, Hbr in *. lia.
Qed.

(** ** Order *)

(** A comparison of nodes: the two directions agree, and it is transitive. *)
Class CompOk (comp : ptr → ptr → Z) : Prop := {
  comp_flip x y : (comp y x <? 0) = (0 <? comp x y);
  comp_trans x y z : comp x y ≤ 0 → comp y z ≤ 0 → comp x z ≤ 0;
  comp_sign x y : comp x y = -1 ∨ comp x y = 0 ∨ comp x y = 1;
}.

Section order.
Context (comp : ptr → ptr → Z) `{!CompOk comp}.

Definition ordered (l : list ptr) : Prop := StronglySorted (λ x y, comp x y ≤ 0) l.

Lemma comp_lt x y : 0 < comp x y ↔ comp y x < 0.
Proof. pose proof (comp_flip x y). lia. Qed.

Lemma ordered_app (l1 l2 : list ptr) :
  ordered (l1 ++ l2) ↔
    ordered l1 ∧ ordered l2 ∧ ∀ x y, x ∈ l1 → y ∈ l2 → comp x y ≤ 0.
Proof.
  induction l1 as [|a l1 IH]; simpl.
  - split; [intros H; split_and!; [constructor|done|set_solver]|by intros (_ & ? & _)].
  - split.
    + intros [H Ha]%StronglySorted_inv. apply IH in H as (H1 & H2 & H3).
      rewrite Forall_app, !Forall_forall in Ha. destruct Ha as [Ha1 Ha2].
      split_and!; [constructor; [done|by apply Forall_forall]|done|].
      intros x y [->|Hx]%elem_of_cons Hy; [by apply Ha2|by apply H3].
    + intros ([H1 Ha]%StronglySorted_inv & H2 & H3). constructor.
      * apply IH. split_and!; [done|done|]. intros x y Hx Hy. apply H3; set_solver.
      * rewrite Forall_app. split; [done|]. apply Forall_forall. intros y Hy.
        apply H3; set_solver.
Qed.

(** Everything to the left of the place found is at most the new node, and
    everything to the right is greater. *)
Lemma locate_sides inn t k :
  ordered (nodes t) →
  (∀ x, x ∈ before k → comp x inn ≤ 0) → (∀ x, x ∈ after k → 0 < comp x inn) →
  (∀ x, x ∈ before (locate comp inn t k) → comp x inn ≤ 0) ∧
  (∀ x, x ∈ after (locate comp inn t k) → 0 < comp x inn).
Proof.
  revert k. induction t as [|c l IHl x r IHr]; intros k Ho Hb Ha; simpl; [done|].
  simpl in Ho. apply ordered_app in Ho as (Hl & [Hr Hx]%StronglySorted_inv & Hlx).
  rewrite Forall_forall in Hx.
  destruct (Z.ltb_spec 0 (comp x inn)) as [Hlt|Hge]; [apply IHl|apply IHr]; try done; simpl.
  - intros y [->|[Hy|Hy]%elem_of_app]%elem_of_cons; [done| |by apply Ha].
    destruct (Z.lt_ge_cases 0 (comp y inn)) as [|Hle]; [done|].
    pose proof (comp_trans x y inn (Hx y Hy) Hle). lia.
  - intros y [Hy|[Hy|Hy%list_elem_of_singleton]%elem_of_app]%elem_of_app; [by apply Hb| |by subst].
    apply (comp_trans y x inn); [|lia]. apply Hlx; [done|left].
Qed.

Lemma locate_empty inn t : before (locate comp inn t []) ++ after (locate comp inn t []) = nodes t.
Proof.
  pose proof (plug_inorder (locate comp inn t []) E) as H. by rewrite locate_plug in H.
Qed.

Lemma rb_insert_nodes inn t c :
  nodes (rb_insert comp t inn c) =
    before (locate comp inn t []) ++ inn :: after (locate comp inn t []).
Proof.
  destruct t as [|ct lt xt rt] eqn:Ht; [done|]. unfold rb_insert. rewrite <-Ht.
  rewrite fixup_nodes by done. by rewrite plug_inorder.
Qed.

Lemma rb_insert_ordered inn t c :
  ordered (nodes t) → ordered (nodes (rb_insert comp t inn c)).
Proof.
  intros Ho. destruct (locate_sides inn t [] Ho) as [Hb Ha]; [simpl; set_solver..|].
  rewrite rb_insert_nodes. rewrite <-(locate_empty inn t) in Ho.
  apply ordered_app in Ho as (H1 & H2 & H3). apply ordered_app. split_and!; [done| |].
  - constructor; [done|]. apply Forall_forall. intros y Hy%Ha. apply comp_lt in Hy. lia.
  - intros x y Hx [->|Hy]%elem_of_cons; [by apply Hb|by apply H3].
Qed.

Lemma rb_insert_balanced inn t c n :
  is_black c = false → rb t n → root_black t = true →
  ∃ m, rb (rb_insert comp t inn c) m ∧ root_black (rb_insert comp t inn c) = true.
Proof.
  intros Hc Ht Hb. destruct t as [|ct lt xt rt] eqn:Het.
  { simpl. exists 1%nat. rewrite black_lor. split; [|done].
    apply rb_B; [apply black_lor|constructor..]. }
  unfold rb_insert. rewrite <-Het in *.
  destruct (locate_cons comp inn t []) as (f & k & Hloc & _); [by rewrite Het|].
  apply (fixup_rb _ _ 0).
  - apply rb_R; [done|done|done|constructor..].
  - eapply locate_ok; [exact Ht|done|by left].
  - by rewrite Hloc.
Qed.
End order.

(** ** Search trees *)

(** The nodes at [p] form a sorted and balanced tree. *)
Record search_tree (comp : ptr → ptr → Z) N (p : ptr) t : Prop := {
  st_rep : tree_rep N p t;
  st_order : ordered comp (nodes t);
  st_balance : ∃ n, rb t n;
  st_root : root_black t = true;
}.

(** [comp] of src/mem/virt_mem/virt_mem.c. *)
Definition vmap_comp (x y : ptr) : Z := if y <? x then 1 else if negb (x =? y) then -1 else 0.

Global Instance vmap_comp_ok : CompOk vmap_comp.
Proof.
  unfold vmap_comp. split; intros x y.
  - destruct (Z.ltb_spec x y), (Z.ltb_spec y x), (Z.eqb_spec x y), (Z.eqb_spec y x); simpl; lia.
  - intros z. destruct (Z.ltb_spec y x), (Z.ltb_spec z y), (Z.ltb_spec z x),
      (Z.eqb_spec x y), (Z.eqb_spec y z), (Z.eqb_spec x z); simpl; lia.
  - destruct (y <? x), (x =? y); simpl; auto.
Qed.

(** ** Deletion looks the wrong way *)

Section delete.
Context (comp : ptr → ptr → Z) (flags : ptr → Z) `{!CompOk comp}.

(** A subtree whose nodes all compare the same way holds no equivalent node. *)
Lemma find_misses N inn v up t fuel :
  v ≠ 0 → rep N up t → NULL ∉ nodes t → (∀ y, y ∈ nodes t → comp y inn = v) →
  (length (nodes t) < fuel)%nat →
  wp (loop fuel (find_step comp inn) (root t)) (λ p N', p = NULL ∧ N' = N) N.
Proof.
  intros Hv. revert up t. induction fuel as [|fuel IH]; intros up t Hr Hnull Hall Hf; [lia|].
  apply wp_bind. destruct t as [|c l x r]; simpl in *; [by apply wp_ret, wp_ret|].
  rewrite length_app in Hf. simpl in Hf. destruct Hr as (Hx & Hl & Hr).
  unfold find_step. rewrite (proj2 (Z.eqb_neq x NULL)) by set_solver.
  rewrite (Hall x) by set_solver. rewrite (proj2 (Z.eqb_neq v 0)) by done.
  apply wp_bind. destruct (v =? -1);
    [eapply wp_get_left; [exact Hx|]|eapply wp_get_right; [exact Hx|]]; apply wp_ret.
  - eapply (IH x l); [done|set_solver|set_solver|lia].
  - eapply (IH x r); [done|set_solver|set_solver|lia].
Qed.

Lemma tree_delete_spec N p t inn :
  tree_rep N p t → ordered comp (nodes t) → t ≠ E → comp (root t) inn ≠ 0 →
  wp (tree_delete comp flags p inn) (λ res N', res = (NULL, p) ∧ N' = N) N.
Proof.
  intros Ht Ho Hne Hc. pose proof (tree_size _ _ _ Ht) as Hlen.
  destruct Ht as [-> Hr Hnd Hnull]. destruct t as [|c l x r]; [done|]. simpl in *.
  rewrite length_app in Hlen. simpl in Hlen. destruct Hr as (Hx & Hl & Hr).
  apply ordered_app in Ho as (_ & [_ Hxr]%StronglySorted_inv & Hlx); [|done].
  rewrite Forall_forall in Hxr.
  apply wp_bind, wp_gets, wp_bind.
  eapply (wp_mono _ (λ p N', p = NULL ∧ N' = N)).
  2:{ intros q N' [-> ->]. by apply wp_ret. }
  apply wp_bind. unfold find_step. rewrite (proj2 (Z.eqb_neq x NULL)) by set_solver.
  rewrite (proj2 (Z.eqb_neq _ 0)) by done.
  apply wp_bind. destruct (comp_sign x inn) as [Hs|[Hs|Hs]]; [|done|]; rewrite Hs; simpl.
  - eapply wp_get_left; [exact Hx|]. apply wp_ret.
    eapply (find_misses _ _ (-1)); [done|exact Hl|set_solver| |lia].
    intros y Hy. destruct (Z.lt_ge_cases (comp y inn) 0) as [Hlt|Hge].
    + destruct (comp_sign y inn) as [|[|]]; lia.
    + exfalso. assert (comp y x ≤ 0) as Hyx by (apply Hlx; [done|left]).
      assert (comp inn y ≤ 0).
      { destruct (Z.le_gt_cases (comp inn y) 0); [done|].
        pose proof (comp_lt comp inn y). lia. }
      pose proof (comp_trans inn y x). pose proof (comp_lt comp inn x). lia.
  - eapply wp_get_right; [exact Hx|]. apply wp_ret.
    eapply (find_misses _ _ 1); [done|exact Hr|set_solver| |lia].
    intros y Hy. destruct (Z.lt_ge_cases 0 (comp y inn)) as [Hlt|Hge].
    + destruct (comp_sign y inn) as [|[|]]; lia.
    + exfalso. pose proof (comp_trans x y inn (Hxr y Hy) Hge). lia.
Qed.
End delete.

(** ** Properties *)

(** C4: [tree_insert] is insertion into a sorted balanced tree.  It terminates
    without a fault; the nodes keep their order, the new one is placed behind
    the nodes that are not greater and before the others, no red node gets a
    red child, and all paths to a leaf have the same number of black nodes. *)
Theorem tree_insert_search_tree comp `{!CompOk comp} N p t inn :
  search_tree comp N p t → is_Some (N !! inn) → inn ∉ nodes t → inn ≠ NULL →
  ∃ p' N' t' (l1 l2 : list ptr), tree_insert comp p inn N = Done (p', N') ∧
    search_tree comp N' p' t' ∧ nodes t = l1 ++ l2 ∧ nodes t' = l1 ++ inn :: l2 ∧
    (∀ x, x ∈ l1 → comp x inn ≤ 0) ∧ (∀ x, x ∈ l2 → 0 < comp x inn).
Proof.
  intros [Hrep Ho [n Hn] Hb] [nd Hin] Hfresh Hnn.
  pose proof (tree_insert_spec comp comp_flip N p t inn nd Hrep Hin Hfresh Hnn Hb)
    as (p' & N' & HN' & Hrep')%wp_Done.
  destruct (locate_sides comp inn t []) as [Hl Hr]; [done|simpl; set_solver..|].
  exists p', N', (rb_insert comp t inn (Z.land (t_color nd) (Z.lnot COLOR))),
    (before (locate comp inn t [])), (after (locate comp inn t [])).
  split_and!; [exact HN'| | |apply rb_insert_nodes|exact Hl|exact Hr].
  - destruct (rb_insert_balanced comp inn t (Z.land (t_color nd) (Z.lnot COLOR)) n)
      as (m & Hm & Hmb); [apply black_clear|done|done|].
    split; [done|by apply rb_insert_ordered|by exists m|done].
  - symmetry. apply locate_empty.
Qed.

(** One black node at 16 and an unlinked one at 32. *)
Definition two_nodes : tstore :=
  {[ 16 := TNode 0 0 0 1; 32 := TNode 0 0 0 0 ]}.

Lemma two_nodes_tree : search_tree vmap_comp two_nodes 16 (T 1 E 16 E).
Proof.
  split; [|by repeat constructor|exists 1%nat; apply rb_B; [done|constructor..]|done].
  split; [done| |by apply NoDup_singleton|by intros ?%list_elem_of_singleton].
  by split_and!.
Qed.

Lemma tree_insert_search_tree_witness :
  ∃ p' N' t' (l1 l2 : list ptr), tree_insert vmap_comp 16 32 two_nodes = Done (p', N') ∧
    search_tree vmap_comp N' p' t' ∧ nodes (T 1 E 16 E) = l1 ++ l2 ∧
    nodes t' = l1 ++ 32 :: l2 ∧
    (∀ x, x ∈ l1 → vmap_comp x 32 ≤ 0) ∧ (∀ x, x ∈ l2 → 0 < vmap_comp x 32).
Proof.
  apply (tree_insert_search_tree vmap_comp two_nodes 16 (T 1 E 16 E) 32);
    [exact two_nodes_tree|by eexists|by intros ?%list_elem_of_singleton|done].
Defined.

(** A tree of [n] nodes is at most [2 * log2 (n + 1)] deep, as the header of
    the template says. *)
Theorem search_tree_depth comp N p t :
  search_tree comp N p t → Z.of_nat (height t) ≤ 2 * Z.log2 (Z.of_nat (length (nodes t)) + 1).
Proof.
  intros [_ _ [n Hn] Hb]. destruct (rb_height t n Hn) as [H1 H2]. rewrite Hb in H1.
  assert (Z.of_nat n ≤ Z.log2 (Z.of_nat (length (nodes t)) + 1)); [|lia].
  apply Z.log2_le_pow2; [lia|]. apply inj_le in H2. rewrite Nat2Z.inj_pow in H2. lia.
Qed.

Lemma search_tree_depth_witness :
  Z.of_nat (height (T 1 E 16 E)) ≤ 2 * Z.log2 (Z.of_nat (length (nodes (T 1 E 16 E))) + 1).
Proof. exact (search_tree_depth vmap_comp two_nodes 16 (T 1 E 16 E) two_nodes_tree). Defined.

(** [tree_delete] finds only the root.  Its search goes left from a node that
    is less than the one it looks for, while insertion puts greater nodes on the
    right: any other node is reported as absent, and nothing is changed. *)
Theorem tree_delete_misses comp flags `{!CompOk comp} N p t inn :
  search_tree comp N p t → t ≠ E → comp p inn ≠ 0 →
  tree_delete comp flags p inn N = Done ((NULL, p), N).
Proof.
  intros [Hrep Ho _ _] Hne Hc. apply run_wp. apply (tree_delete_spec comp flags N p t); try done.
  by destruct Hrep as [<- _ _ _].
Qed.

(** The nodes 16, 32 and 48 with 32 as the root. *)
Definition three_nodes : tstore :=
  {[ 16 := TNode 0 0 32 0; 32 := TNode 16 48 0 1; 48 := TNode 0 0 32 0; 8 := TNode 0 0 0 0 ]}.

Lemma three_nodes_tree : search_tree vmap_comp three_nodes 32 (T 1 (T 0 E 16 E) 32 (T 0 E 48 E)).
Proof.
  split; [|by repeat constructor|exists 1%nat; by repeat constructor|done].
  split; [done|by split_and!| |].
  - apply (bool_decide_unpack _). vm_compute. exact I.
  - apply (bool_decide_unpack _). vm_compute. exact I.
Qed.

(** 48 is in the tree. *)
Lemma tree_delete_misses_witness :
  tree_delete vmap_comp (λ _, 0) 32 48 three_nodes = Done ((NULL, 32), three_nodes).
Proof.
  apply (tree_delete_misses vmap_comp _ three_nodes 32 (T 1 (T 0 E 16 E) 32 (T 0 E 48 E)) 48);
    [exact three_nodes_tree|discriminate|discriminate].
Defined.

(** Deleting the root can leave a red one: the replacement is coloured with a
    bit of its [flags] instead of its [color].  The next insertion below it
    looks for the uncle of a child of the root and dereferences null. *)
Example tree_delete_root_then_insert_faults :
  ∃ N, tree_delete vmap_comp (λ _, 0) 32 32 three_nodes = Done ((32, 16), N) ∧
    t_color <$> N !! 16 = Some 0 ∧ tree_insert vmap_comp 16 8 N = Fault.
Proof. eexists. split; [vm_compute; reflexivity|]. split; vm_compute; reflexivity. Qed.
