(* ===== verification/Thread.v ===== *)
(** * Threads (include/thread.h)

    The thread control block shared by the scheduler, the run queues and the
    synchronization primitives.  [remaining] is the only signed field; the
    other integers are [unsigned int].  The display name, the system call
    interface and signals are not modelled. *)

From S2P Require Import Prelude.

(** Scheduling states (with SCHED_SPECIAL_MODES). *)
Definition SCHED_RUNNABLE : Z := 0.
Definition SCHED_NO_RESCHED : Z := 1.
Definition SCHED_EXCLUSIVE : Z := 2.
Definition SCHED_ATOMIC : Z := 3.
Definition SCHED_STOPPED : Z := 8.
Definition SCHED_INT_SLEEP : Z := 9.
Definition SCHED_UNINT_SLEEP : Z := 10.
Definition SCHED_DEAD : Z := 11.
Definition THREAD_USE_REENTRY : Z := 1.
Definition THREAD_FPU : Z := 2.

(** [thread_stat_t], without the display name. *)
Record thread_stat_t := ThreadStat {
  st_id : Z;
  st_perm : Z;
  st_flags : Z;
  remaining : Z;
  status : Z;
  run_status : Z;
  hard_priority : Z;
  soft_priority : Z;
  reentry : Z;
  stk_ptr : ptr;
  num_inodes : Z;
  inodes : ptr;
  addr_spc : ptr;
}.

Definition set_st_id (v : Z) (x : thread_stat_t) : thread_stat_t :=
  ThreadStat v (st_perm x) (st_flags x) (remaining x) (status x) (run_status x) (hard_priority x) (soft_priority x) (reentry x) (stk_ptr x) (num_inodes x) (inodes x) (addr_spc x).
Definition set_st_perm (v : Z) (x : thread_stat_t) : thread_stat_t :=
  ThreadStat (st_id x) v (st_flags x) (remaining x) (status x) (run_status x) (hard_priority x) (soft_priority x) (reentry x) (stk_ptr x) (num_inodes x) (inodes x) (addr_spc x).
Definition set_st_flags (v : Z) (x : thread_stat_t) : thread_stat_t :=
  ThreadStat (st_id x) (st_perm x) v (remaining x) (status x) (run_status x) (hard_priority x) (soft_priority x) (reentry x) (stk_ptr x) (num_inodes x) (inodes x) (addr_spc x).
Definition set_remaining (v : Z) (x : thread_stat_t) : thread_stat_t :=
  ThreadStat (st_id x) (st_perm x) (st_flags x) v (status x) (run_status x) (hard_priority x) (soft_priority x) (reentry x) (stk_ptr x) (num_inodes x) (inodes x) (addr_spc x).
Definition set_status (v : Z) (x : thread_stat_t) : thread_stat_t :=
  ThreadStat (st_id x) (st_perm x) (st_flags x) (remaining x) v (run_status x) (hard_priority x) (soft_priority x) (reentry x) (stk_ptr x) (num_inodes x) (inodes x) (addr_spc x).
Definition set_run_status (v : Z) (x : thread_stat_t) : thread_stat_t :=
  ThreadStat (st_id x) (st_perm x) (st_flags x) (remaining x) (status x) v (hard_priority x) (soft_priority x) (reentry x) (stk_ptr x) (num_inodes x) (inodes x) (addr_spc x).
Definition set_hard_priority (v : Z) (x : thread_stat_t) : thread_stat_t :=
  ThreadStat (st_id x) (st_perm x) (st_flags x) (remaining x) (status x) (run_status x) v (soft_priority x) (reentry x) (stk_ptr x) (num_inodes x) (inodes x) (addr_spc x).
Definition set_soft_priority (v : Z) (x : thread_stat_t) : thread_stat_t :=
  ThreadStat (st_id x) (st_perm x) (st_flags x) (remaining x) (status x) (run_status x) (hard_priority x) v (reentry x) (stk_ptr x) (num_inodes x) (inodes x) (addr_spc x).
Definition set_reentry (v : Z) (x : thread_stat_t) : thread_stat_t :=
  ThreadStat (st_id x) (st_perm x) (st_flags x) (remaining x) (status x) (run_status x) (hard_priority x) (soft_priority x) v (stk_ptr x) (num_inodes x) (inodes x) (addr_spc x).
Definition set_stk_ptr (v : ptr) (x : thread_stat_t) : thread_stat_t :=
  ThreadStat (st_id x) (st_perm x) (st_flags x) (remaining x) (status x) (run_status x) (hard_priority x) (soft_priority x) (reentry x) v (num_inodes x) (inodes x) (addr_spc x).
Definition set_num_inodes (v : Z) (x : thread_stat_t) : thread_stat_t :=
  ThreadStat (st_id x) (st_perm x) (st_flags x) (remaining x) (status x) (run_status x) (hard_priority x) (soft_priority x) (reentry x) (stk_ptr x) v (inodes x) (addr_spc x).
Definition set_inodes (v : ptr) (x : thread_stat_t) : thread_stat_t :=
  ThreadStat (st_id x) (st_perm x) (st_flags x) (remaining x) (status x) (run_status x) (hard_priority x) (soft_priority x) (reentry x) (stk_ptr x) (num_inodes x) v (addr_spc x).
Definition set_addr_spc (v : ptr) (x : thread_stat_t) : thread_stat_t :=
  ThreadStat (st_id x) (st_perm x) (st_flags x) (remaining x) (status x) (run_status x) (hard_priority x) (soft_priority x) (reentry x) (stk_ptr x) (num_inodes x) (inodes x) v.

(** [struct thread_t]; the spinlock [sync_mutex] is a boolean. *)
Record thread_t := Thread {
  stat : thread_stat_t;
  sync_mutex : bool;
  epoch : Z;
  cpu_id : Z;
  affinity : Z;
  affinity_heap_pos : nat;
  priority_heap_pos : nat;
  t_flags : Z;
  queue_next : ptr;
  queue_last : ptr;
  thash_next : ptr;
  wait_type : Z;
  wait_obj : ptr;
  context : Z * Z;
}.

Definition set_stat (v : thread_stat_t) (x : thread_t) : thread_t :=
  Thread v (sync_mutex x) (epoch x) (cpu_id x) (affinity x) (affinity_heap_pos x) (priority_heap_pos x) (t_flags x) (queue_next x) (queue_last x) (thash_next x) (wait_type x) (wait_obj x) (context x).
Definition set_sync_mutex (v : bool) (x : thread_t) : thread_t :=
  Thread (stat x) v (epoch x) (cpu_id x) (affinity x) (affinity_heap_pos x) (priority_heap_pos x) (t_flags x) (queue_next x) (queue_last x) (thash_next x) (wait_type x) (wait_obj x) (context x).
Definition set_epoch (v : Z) (x : thread_t) : thread_t :=
  Thread (stat x) (sync_mutex x) v (cpu_id x) (affinity x) (affinity_heap_pos x) (priority_heap_pos x) (t_flags x) (queue_next x) (queue_last x) (thash_next x) (wait_type x) (wait_obj x) (context x).
Definition set_cpu_id (v : Z) (x : thread_t) : thread_t :=
  Thread (stat x) (sync_mutex x) (epoch x) v (affinity x) (affinity_heap_pos x) (priority_heap_pos x) (t_flags x) (queue_next x) (queue_last x) (thash_next x) (wait_type x) (wait_obj x) (context x).
Definition set_affinity (v : Z) (x : thread_t) : thread_t :=
  Thread (stat x) (sync_mutex x) (epoch x) (cpu_id x) v (affinity_heap_pos x) (priority_heap_pos x) (t_flags x) (queue_next x) (queue_last x) (thash_next x) (wait_type x) (wait_obj x) (context x).
Definition set_affinity_heap_pos (v : nat) (x : thread_t) : thread_t :=
  Thread (stat x) (sync_mutex x) (epoch x) (cpu_id x) (affinity x) v (priority_heap_pos x) (t_flags x) (queue_next x) (queue_last x) (thash_next x) (wait_type x) (wait_obj x) (context x).
Definition set_priority_heap_pos (v : nat) (x : thread_t) : thread_t :=
  Thread (stat x) (sync_mutex x) (epoch x) (cpu_id x) (affinity x) (affinity_heap_pos x) v (t_flags x) (queue_next x) (queue_last x) (thash_next x) (wait_type x) (wait_obj x) (context x).
Definition set_t_flags (v : Z) (x : thread_t) : thread_t :=
  Thread (stat x) (sync_mutex x) (epoch x) (cpu_id x) (affinity x) (affinity_heap_pos x) (priority_heap_pos x) v (queue_next x) (queue_last x) (thash_next x) (wait_type x) (wait_obj x) (context x).
Definition set_queue_next (v : ptr) (x : thread_t) : thread_t :=
  Thread (stat x) (sync_mutex x) (epoch x) (cpu_id x) (affinity x) (affinity_heap_pos x) (priority_heap_pos x) (t_flags x) v (queue_last x) (thash_next x) (wait_type x) (wait_obj x) (context x).
Definition set_queue_last (v : ptr) (x : thread_t) : thread_t :=
  Thread (stat x) (sync_mutex x) (epoch x) (cpu_id x) (affinity x) (affinity_heap_pos x) (priority_heap_pos x) (t_flags x) (queue_next x) v (thash_next x) (wait_type x) (wait_obj x) (context x).
Definition set_thash_next (v : ptr) (x : thread_t) : thread_t :=
  Thread (stat x) (sync_mutex x) (epoch x) (cpu_id x) (affinity x) (affinity_heap_pos x) (priority_heap_pos x) (t_flags x) (queue_next x) (queue_last x) v (wait_type x) (wait_obj x) (context x).
Definition set_wait_type (v : Z) (x : thread_t) : thread_t :=
  Thread (stat x) (sync_mutex x) (epoch x) (cpu_id x) (affinity x) (affinity_heap_pos x) (priority_heap_pos x) (t_flags x) (queue_next x) (queue_last x) (thash_next x) v (wait_obj x) (context x).
Definition set_wait_obj (v : ptr) (x : thread_t) : thread_t :=
  Thread (stat x) (sync_mutex x) (epoch x) (cpu_id x) (affinity x) (affinity_heap_pos x) (priority_heap_pos x) (t_flags x) (queue_next x) (queue_last x) (thash_next x) (wait_type x) v (context x).
Definition set_context (v : Z * Z) (x : thread_t) : thread_t :=
  Thread (stat x) (sync_mutex x) (epoch x) (cpu_id x) (affinity x) (affinity_heap_pos x) (priority_heap_pos x) (t_flags x) (queue_next x) (queue_last x) (thash_next x) (wait_type x) (wait_obj x) v.

(** Writing a field of [thread->stat]. *)
Definition on_stat (f : thread_stat_t → thread_stat_t) (t : thread_t) : thread_t :=
  set_stat (f (stat t)) t.

(** The zero-filled control block. *)
Definition thread_zero : thread_t :=
  Thread (ThreadStat 0 0 0 0 0 0 0 0 0 0 0 0 0) false 0 0 0 0 0 0 0 0 0 0 0 (0, 0)%Z.
