(* ===== verification/ThreadHeaps.v ===== *)
(** * Run queues: priority and affinity heaps

    src/sched/priority_heap.c and src/sched/affinity_heap.c: binary heaps of
    threads in which every thread records its own 1-based index.  The two files
    differ in the key, the index field and the comparison; [heap_kind] holds
    these differences and the functions are modelled once.  A heap state is the
    store of threads and the heap structure. *)

From Stdlib Require Import Sorting.Sorted.
From S2P Require Import Prelude Thread SiftHeap.

#[local] Ltac Zify.zify_post_hook ::= Z.to_euclidean_division_equations.

(** [priority_heap] and [affinity_heap]: [max] is the size in bytes of the
    array [data_name], [data_addr] its address. *)
Record heap_t := Heap {
  size : nat;
  max : Z;
  data_addr : ptr;
  data_name : list ptr;
}.

Record hstate := HState {
  threads : gmap ptr thread_t;
  heap : heap_t;
}.

Definition set_threads (m : gmap ptr thread_t) (s : hstate) : hstate := HState m (heap s).
Definition set_size (n : nat) (s : hstate) : hstate :=
  HState (threads s) (Heap n (max (heap s)) (data_addr (heap s)) (data_name (heap s))).
Definition set_data (d : list ptr) (s : hstate) : hstate :=
  HState (threads s) (Heap (size (heap s)) (max (heap s)) (data_addr (heap s)) d).

(** What distinguishes the two heaps: the key and index fields, the order,
    and the tests of [set_key] on the old key and the new value. *)
Record heap_kind := HeapKind {
  hk_key : thread_t → Z;
  hk_set_key : Z → thread_t → thread_t;
  hk_pos : thread_t → nat;
  hk_set_pos : nat → thread_t → thread_t;
  hk_before : Z → Z → bool;
  hk_same : Z → Z → bool;
  hk_improves : Z → Z → bool;
}.

(** priority_heap.c: a max-heap on the signed [stat.remaining].  [set_key]
    takes an [unsigned int], so its two tests compare as unsigned. *)
Definition priority_kind : heap_kind := {|
  hk_key t := remaining (stat t);
  hk_set_key v := on_stat (set_remaining (s32 v));
  hk_pos := priority_heap_pos;
  hk_set_pos := set_priority_heap_pos;
  hk_before a b := (b <? a)%Z;
  hk_same k v := (u32 k =? v)%Z;
  hk_improves k v := (u32 k <? v)%Z;
|}.

(** affinity_heap.c: a min-heap on the unsigned [affinity]. *)
Definition affinity_kind : heap_kind := {|
  hk_key := affinity;
  hk_set_key := set_affinity;
  hk_pos := affinity_heap_pos;
  hk_set_pos := set_affinity_heap_pos;
  hk_before a b := (a <? b)%Z;
  hk_same k v := (k =? v)%Z;
  hk_improves k v := (v <? k)%Z;
|}.

Section operations.
Context (K : heap_kind).

(** [e->heap_pos = i; data_name[i - 1] = e;] *)
Definition heap_place (i : nat) (e : ptr) : M hstate unit :=
  t ← getopt (λ s, threads s !! e);
  modify (λ s, set_threads (<[e := hk_set_pos K i t]> (threads s)) s);;
  putopt (λ s, if decide (i - 1 < length (data_name (heap s)))
               then Some (set_data (<[i - 1 := e]> (data_name (heap s))) s)
               else None).

Definition heap_sift : sift_ops hstate := {|
  so_size s := size (heap s);
  so_arr s := data_name (heap s);
  so_key s e := hk_key K <$> threads s !! e;
  so_pos s e := hk_pos K <$> threads s !! e;
  so_place := heap_place;
  so_before := hk_before K;
|}.

(** The nest of conditions of the falling loop. *)
Definition heap_pick (tmp : ptr) (i : nat) : M hstate (option nat) :=
  n ← gets (λ s, size (heap s));
  right ← (if 2 * i + 1 <=? n then
             r ← arr_get heap_sift (2 * i); elt_before heap_sift r tmp
           else mret false);
  if (right : bool) then
    left ← (if 2 * i <=? n then
              l ← arr_get heap_sift (2 * i - 1);
              r ← arr_get heap_sift (2 * i); elt_before heap_sift l r
            else mret false);
    mret (Some (if (left : bool) then 2 * i else 2 * i + 1))
  else
    left ← (if 2 * i <=? n then
              l ← arr_get heap_sift (2 * i - 1); elt_before heap_sift l tmp
            else mret false);
    if (left : bool) then
      right' ← (if 2 * i + 1 <=? n then
                  r ← arr_get heap_sift (2 * i);
                  l ← arr_get heap_sift (2 * i - 1); elt_before heap_sift r l
                else mret false);
      mret (Some (if (right' : bool) then 2 * i + 1 else 2 * i))
    else mret None.

Definition heap_insert (inn : ptr) : M hstate unit :=
  modify (λ s, set_size (S (size (heap s))) s);;
  i ← gets (λ s, size (heap s));
  i ← bubble_up heap_sift inn i;
  i ← fall_down heap_sift heap_pick inn i;
  heap_place i inn.

Definition heap_head : M hstate ptr :=
  n ← gets (λ s, size (heap s));
  if n =? 0 then mret NULL else arr_get heap_sift 0.

Definition heap_delete (num : nat) : M hstate ptr :=
  n ← gets (λ s, size (heap s));
  if (n =? 0) || (num =? 0) || (n <? num) then mret NULL else
  out ← arr_get heap_sift (num - 1);
  modify (λ s, set_size (size (heap s) - 1) s);;
  n ← gets (λ s, size (heap s));
  if num - 1 =? n then mret out else
  (if negb (n =? 0) then
     tmp ← arr_get heap_sift n;
     i ← bubble_up heap_sift tmp num;
     i ← fall_down heap_sift heap_pick tmp i;
     heap_place i tmp
   else mret tt);;
  mret out.

Definition heap_set_key (index : nat) (val : Z) : M hstate unit :=
  n ← gets (λ s, size (heap s));
  if (index =? 0) || (n <? index) then mret tt else
  tmp ← arr_get heap_sift (index - 1);
  t ← getopt (λ s, threads s !! tmp);
  if hk_same K (hk_key K t) val then mret tt else
  modify (λ s, set_threads (<[tmp := hk_set_key K val t]> (threads s)) s);;
  if hk_improves K (hk_key K t) val then
    if index =? 1 then mret tt else
    i ← bubble_up heap_sift tmp index;
    i ← fall_down heap_sift heap_pick tmp i;
    heap_place i tmp
  else
    i ← fall_down heap_sift heap_pick tmp index;
    heap_place i tmp.
End operations.

Definition priority_heap_insert := heap_insert priority_kind.
Definition priority_heap_head := heap_head priority_kind.
Definition priority_heap_delete := heap_delete priority_kind.
Definition priority_heap_set_key := heap_set_key priority_kind.
Definition priority_heap_remove := priority_heap_delete 1.

Definition affinity_heap_insert := heap_insert affinity_kind.
Definition affinity_heap_head := heap_head affinity_kind.
Definition affinity_heap_delete := heap_delete affinity_kind.
Definition affinity_heap_set_key := heap_set_key affinity_kind.
Definition affinity_heap_remove := affinity_heap_delete 1.

(** ** Creating and growing the array *)

Section grow.
(** [kern_realloc] over the state [T] of the kernel heap: the block, the new
    size, the old size and the priority, to the new block and its size. *)
Context {T : Type} (krealloc : ptr → Z → Z → Z → M T (ptr * Z)).

(** The first cells keep their contents, the new ones are unspecified. *)
Definition resized (d : list ptr) (old new : Z) : list ptr :=
  take (Z.to_nat (new / 4)) (take (Z.to_nat (old / 4)) d ++ replicate (Z.to_nat (new / 4)) NULL).

(** The array is doubled when it has no cell to spare.  A failed reallocation
    leaves a null array. *)
Definition heap_grow (size' : Z) : M (heap_t * T) unit :=
  h ← gets fst;
  if (max h / 4 <=? size')%Z then
    let new_max := u32 (max h * 2) in
    '(p, n) ← zoom snd (λ t s, (s.1, t)) (krealloc (data_addr h) new_max (max h) 0%Z);
    modify (λ s, (Heap (size h) n p
                    (if (p =? NULL)%Z then [] else resized (data_name h) (max h) n), s.2))
  else mret tt.

(** [malloc] and [kern_malloc] over the same state: the second returns a block
    and its size. *)
Context (kmal : Z → M T ptr) (kern_mal : Z → Z → M T (ptr * Z)).

(** [priority_heap_init] and [affinity_heap_init]: the structure of three words
    is allocated first and must exist; the array may be null. *)
Definition heap_init (n : Z) : M T heap_t :=
  out ← kmal 12%Z;
  if (out =? NULL)%Z then fault else
  '(p, m) ← kern_mal (u32 (n * 4)) 0%Z;
  mret (Heap 0 m p (if (p =? NULL)%Z then [] else replicate (Z.to_nat (m / 4)) NULL)).
End grow.

(** ** Correctness *)

Class KindOk (K : heap_kind) : Prop := {
  kk_pos i t : hk_pos K (hk_set_pos K i t) = i;
  kk_key i t : hk_key K (hk_set_pos K i t) = hk_key K t;
  kk_pos_key v t : hk_pos K (hk_set_key K v t) = hk_pos K t;
  kk_pos_pos i j t : hk_set_pos K i (hk_set_pos K j t) = hk_set_pos K i t;
  kk_pos_id t : hk_set_pos K (hk_pos K t) t = t;
  kk_irrefl a : hk_before K a a = false;
  kk_trans a b c : hk_before K b a = false → hk_before K c b = false →
                   hk_before K c a = false;
  kk_total a b : hk_before K a b = true → hk_before K b a = false;
}.

Global Instance priority_kind_ok : KindOk priority_kind.
Proof. split; simpl; try done; try (by intros []); intros; lia. Qed.

Global Instance affinity_kind_ok : KindOk affinity_kind.
Proof. split; simpl; try done; try (by intros []); intros; lia. Qed.

(** A thread up to the index field of the heap. *)
Definition erase (K : heap_kind) (t : thread_t) : thread_t := hk_set_pos K 0 t.

Section correctness.
Context (K : heap_kind) `{!KindOk K}.

Lemma heap_place_run i e s s' :
  heap_place K i e s = Done (tt, s') →
  ∃ t, threads s !! e = Some t ∧ i - 1 < length (data_name (heap s)) ∧
    s' = HState (<[e := hk_set_pos K i t]> (threads s))
           (Heap (size (heap s)) (max (heap s)) (data_addr (heap s)) (<[i - 1 := e]> (data_name (heap s)))).
Proof.
  unfold heap_place, mbind, M_bind, getopt, modify, putopt, set_data, set_threads.
  destruct (threads s !! e) as [t|]; simpl; [|done].
  case_decide; [|done]. intros [= <-]. eauto.
Qed.

Global Instance heap_frame_thread p : SiftFrame (heap_sift K) (λ s, erase K <$> threads s !! p).
Proof.
  intros i e s s' (t & Ht & _ & ->)%heap_place_run. simpl.
  destruct (decide (e = p)) as [->|]; [|by rewrite lookup_insert_ne].
  rewrite lookup_insert_eq, Ht. simpl. unfold erase. by rewrite kk_pos_pos.
Qed.

Global Instance heap_frame_max : SiftFrame (heap_sift K) (λ s, max (heap s)).
Proof. by intros i e s s' (t & Ht & _ & ->)%heap_place_run. Qed.

Global Instance heap_frame_cap :
  SiftFrame (heap_sift K) (λ s, length (data_name (heap s))).
Proof.
  intros i e s s' (t & Ht & _ & ->)%heap_place_run. simpl. by rewrite length_insert.
Qed.

Global Instance heap_sift_ok : SiftOk (heap_sift K).
Proof.
  split.
  - intros i e s Hi [k Hk]. simpl in *. destruct (threads s !! e) as [t|] eqn:Ht; [|done].
    apply wp_bind, (wp_getopt _ t); [done|].
    apply wp_bind, wp_modify. eapply wp_putopt; [rewrite decide_True by (simpl; lia); done|].
    simpl. split_and!; [done| |].
    + rewrite lookup_insert_eq. simpl. by rewrite kk_pos.
    + intros x Hx. by rewrite lookup_insert_ne.
  - by intros i e s s' (t & Ht & _ & ->)%heap_place_run.
  - intros x i e s s' (t & Ht & _ & ->)%heap_place_run. simpl.
    destruct (decide (e = x)) as [->|]; [|by rewrite lookup_insert_ne].
    rewrite lookup_insert_eq, Ht. simpl. by rewrite kk_key.
  - apply kk_irrefl.
  - apply kk_trans.
  - apply kk_total.
Qed.

(** The key of every thread of a state. *)
Definition keys (s : hstate) (e : ptr) : Z := default 0%Z (hk_key K <$> threads s !! e).

(** The heap holds the threads [v], in array order. *)
Definition heap_wf (s : hstate) (v : list ptr) : Prop := heap_at (heap_sift K) (keys s) s v.

(** What heap operations do to the threads: only the index field changes. *)
Definition only_pos (s s' : hstate) : Prop :=
  (∀ p, erase K <$> threads s' !! p = erase K <$> threads s !! p) ∧
  max (heap s') = max (heap s) ∧
  length (data_name (heap s')) = length (data_name (heap s)).

Lemma sift_only_pos s s' : sift_only (heap_sift K) s s' → only_pos s s'.
Proof.
  intros Ho. split_and!.
  - intros p. apply (Ho _ (λ s, erase K <$> threads s !! p) _).
  - apply (Ho _ (λ s, max (heap s)) _).
  - apply (Ho _ (λ s, length (data_name (heap s))) _).
Qed.

Lemma only_pos_keys s s' e : only_pos s s' → keys s' e = keys s e.
Proof.
  intros (Hp & _ & _). specialize (Hp e). unfold keys.
  destruct (threads s' !! e) as [t'|], (threads s !! e) as [t|]; try done.
  simpl in *. apply (inj Some) in Hp. apply (f_equal (hk_key K)) in Hp.
  unfold erase in Hp. by rewrite !kk_key in Hp.
Qed.

Lemma heap_wf_after ks s s' v :
  heap_at (heap_sift K) ks s' v → (∀ e, e ∈ v → ks e = keys s e) →
  only_pos s s' → heap_wf s' v.
Proof.
  intros Hh Hk Ho. eapply heap_at_keys; [|done].
  intros e He. rewrite Hk by done. symmetry. by apply only_pos_keys.
Qed.

Lemma before_trans a b c :
  hk_before K a b = true → hk_before K b c = true → hk_before K a c = true.
Proof.
  intros Hab Hbc. destruct (hk_before K a c) eqn:Hac; [done|].
  rewrite <-Hab. symmetry. by eapply kk_trans, Hac; apply kk_total.
Qed.

(** The choice made by the nested conditions is right. *)
Lemma heap_pick_ok ks : pick_ok (heap_sift K) ks (heap_pick K).
Proof.
  intros s v i tmp Hh. unfold heap_pick.
  pose proof (ho_size _ _ _ _ _ _ Hh) as Hsz. simpl in Hsz.
  pose proof (ho_idx _ _ _ _ _ _ Hh) as Hi.
  assert (∀ j e, v !! j = Some e → so_key (heap_sift K) s e = Some (ks e)) as Hkey.
  { intros j e He. eapply ho_key; [done|]. by eapply list_elem_of_lookup_2. }
  pose proof (Hkey _ _ (ho_tmp _ _ _ _ _ _ Hh)) as Hkt.
  apply wp_bind, wp_gets. rewrite Hsz. clear Hsz.
  destruct (Nat.leb_spec (2 * i) (length v)) as [H2|H2].
  2:{ rewrite (proj2 (Nat.leb_gt (2 * i + 1) _)) by lia. repeat wp_step.
      split; [done|]. intros j a Hj Hji. lia. }
  destruct (lookup_lt_is_Some_2 v (2 * i - 1)) as [l Hl]; [lia|].
  pose proof (Hkey _ _ Hl) as Hkl.
  destruct (Nat.leb_spec (2 * i + 1) (length v)) as [H3|H3].
  - destruct (lookup_lt_is_Some_2 v (2 * i)) as [r Hr]; [lia|].
    pose proof (Hkey _ _ Hr) as Hkr.
    assert (∀ (P : Z → Prop), P (ks l) → P (ks r) →
      ∀ j a, 2 ≤ j ≤ length v → j / 2 = i → v !! (j - 1) = Some a → P (ks a)) as Hch.
    { intros P Pl Pr j a Hj Hji Ha.
      assert (j = 2 * i ∨ j = 2 * i + 1) as [->| ->] by lia; [congruence|].
      rewrite Nat.add_sub in Ha. congruence. }
    repeat first [wp_step | eapply (holed_get _ _ _ _ _ _ (2 * i)); [done|lia|done|]
      | eapply (holed_get _ _ _ _ _ _ (2 * i - 1)); [done|lia|done|]
      | eapply wp_elt_before; [done..|]].
    all: split; [done|].
    + destruct (so_before (heap_sift K) (ks l) (ks r)) eqn:Hlr; (split; [lia|]);
        (split; [lia|]); [exists l|exists r; rewrite Nat.add_sub]; (split; [done|]).
      * split; [by eapply before_trans|].
        apply Hch; [apply kk_irrefl|by apply kk_total].
      * split; [done|]. apply Hch; [done|apply kk_irrefl].
    + destruct (so_before (heap_sift K) (ks r) (ks l)) eqn:Hrl; (split; [lia|]);
        (split; [lia|]); [exists r; rewrite Nat.add_sub|exists l]; (split; [done|]).
      * split; [by eapply before_trans|].
        apply Hch; [by apply kk_total|apply kk_irrefl].
      * split; [done|]. apply Hch; [apply kk_irrefl|done].
    + by apply Hch.
  - assert (∀ (P : Z → Prop), P (ks l) →
      ∀ j a, 2 ≤ j ≤ length v → j / 2 = i → v !! (j - 1) = Some a → P (ks a)) as Hch.
    { intros P Pl j a Hj Hji Ha. assert (j = 2 * i) as -> by lia. congruence. }
    repeat first [wp_step
      | eapply (holed_get _ _ _ _ _ _ (2 * i - 1)); [done|lia|done|]
      | eapply wp_elt_before; [done..|]].
    all: split; [done|].
    + split_and!; [lia..|exists l; split_and!; [done|done|]].
      apply Hch, kk_irrefl.
    + by apply Hch.
Qed.

(** The common ends of all operations. *)
Lemma sink_spec ks s v i tmp :
  holed (heap_sift K) ks s v i tmp → weak_heap (heap_sift K) ks v i →
  (2 ≤ i → ordered_at (heap_sift K) ks v i) →
  wp (i ← fall_down (heap_sift K) (heap_pick K) tmp i; heap_place K i tmp)
     (λ _ s', ∃ v', v' ≡ₚ v ∧ heap_at (heap_sift K) ks s' v' ∧ only_pos s s') s.
Proof.
  intros Hh Hw Ho. eapply wp_mono.
  { apply (sift_down_spec (heap_sift K) ks (heap_pick K)); [apply heap_pick_ok|done..]. }
  intros [] s' (v' & Hp & Hh' & Ho'%sift_only_pos). eauto.
Qed.

Lemma resift_spec ks s v i tmp :
  holed (heap_sift K) ks s v i tmp → weak_heap (heap_sift K) ks v i →
  wp (i ← bubble_up (heap_sift K) tmp i;
      i ← fall_down (heap_sift K) (heap_pick K) tmp i; heap_place K i tmp)
     (λ _ s', ∃ v', v' ≡ₚ v ∧ heap_at (heap_sift K) ks s' v' ∧ only_pos s s') s.
Proof.
  intros Hh Hw. eapply wp_mono.
  { apply (sift_spec (heap_sift K) ks (heap_pick K)); [apply heap_pick_ok|done..]. }
  intros [] s' (v' & Hp & Hh' & Ho'%sift_only_pos). eauto.
Qed.

Lemma heap_wf_lookup s v e : heap_wf s v → e ∈ v → is_Some (threads s !! e).
Proof.
  intros [Hs _] He. pose proof (hp_key _ _ _ _ Hs e He) as Hk. simpl in Hk.
  destruct (threads s !! e); [eauto|done].
Qed.

Lemma keys_lookup s e :
  is_Some (threads s !! e) → so_key (heap_sift K) s e = Some (keys s e).
Proof. intros [t Ht]. unfold keys. simpl. by rewrite Ht. Qed.

(** Insertion: when the array has room, the heap gains exactly [inn]. *)
Lemma heap_insert_spec s v inn :
  heap_wf s v → inn ∉ v → is_Some (threads s !! inn) →
  length v < length (data_name (heap s)) →
  wp (heap_insert K inn)
     (λ _ s', ∃ v', v' ≡ₚ inn :: v ∧ heap_wf s' v' ∧ only_pos s s') s.
Proof.
  intros [[Hsz Hcap Harr Hpos Hkey Hnd] Hf] Hout Hin Hroom. simpl in *.
  apply wp_bind, wp_modify, wp_bind, wp_gets. simpl. rewrite Hsz.
  assert (∀ j, j < length v → (v ++ [inn]) !! j = v !! j) as Hlk.
  { intros j Hj. by rewrite lookup_app_l. }
  eapply wp_mono.
  { apply (resift_spec (keys s) _ (v ++ [inn]) (S (length v)) inn).
    - split; simpl; rewrite ?length_app; simpl.
      + lia.
      + lia.
      + lia.
      + rewrite Nat.sub_0_r, lookup_app_r, Nat.sub_diag by done. done.
      + intros j Hj Hne. rewrite lookup_app_l by lia. apply Harr. lia.
      + intros j e He Hne. apply lookup_lt_Some in He as Hj.
        rewrite length_app in Hj. simpl in Hj.
        apply Hpos. by rewrite Hlk in He by lia.
      + intros e [He|He]%elem_of_app; [by apply Hkey|].
        apply list_elem_of_singleton in He as ->. by apply (keys_lookup s).
      + apply NoDup_app. split_and!; [done|set_solver|apply NoDup_singleton].
    - split; rewrite length_app; cbn [length].
      + intros j Hj Hne Hnp a b. rewrite !Hlk by lia. apply Hf. lia.
      + intros j a b Hj Hjp. lia. }
  intros [] s' (v' & Hp & Hh & Ho). exists v'. split_and!.
  - rewrite Hp. by rewrite Permutation_app_comm.
  - eapply heap_wf_after; [done| |done]. done.
  - done.
Qed.

(** Deletion at any index: the element found there leaves the heap.  The
    key of that element need not respect the order. *)
Lemma heap_delete_weak ks s v num e :
  heap_shape (heap_sift K) ks s v → weak_heap (heap_sift K) ks v num →
  1 ≤ num → v !! (num - 1) = Some e →
  wp (heap_delete K num)
     (λ r s', r = e ∧ ∃ v', e :: v' ≡ₚ v ∧ heap_at (heap_sift K) ks s' v' ∧
              only_pos s s') s.
Proof.
  intros Hs Hw Hnum He. destruct Hs as [Hsz Hcap Harr Hpos Hkey Hnd]. simpl in *.
  pose proof (lookup_lt_Some _ _ _ He) as Hlt.
  apply wp_bind, wp_gets. rewrite Hsz.
  rewrite (proj2 (Nat.eqb_neq (length v) 0)), (proj2 (Nat.eqb_neq num 0)),
    (proj2 (Nat.ltb_ge (length v) num)) by lia. simpl orb.
  apply wp_bind, (wp_getopt _ e); [simpl; by rewrite Harr|].
  apply wp_bind, wp_modify, wp_bind, wp_gets. simpl. rewrite Hsz.
  destruct (Nat.eqb_spec (num - 1) (length v - 1)) as [Heq|Hne].
  - apply wp_ret. split; [done|]. exists (take (length v - 1) v). split_and!.
    + rewrite Heq in He. apply take_last in He as Hv.
      rewrite Permutation_cons_append. by rewrite Hv.
    + split; [split; simpl; rewrite ?length_take|].
      * lia.
      * lia.
      * intros j Hj. rewrite lookup_take_lt by lia. apply Harr. lia.
      * intros j x [Hj Hlj]%lookup_take_Some. eauto.
      * intros x Hx. apply Hkey. by eapply subseteq_take.
      * eapply sublist_NoDup; [done|apply sublist_take].
      * intros j. rewrite length_take. intros Hj a b.
        rewrite !lookup_take_lt by lia. apply Hw; lia.
    + split_and!; done.
  - rewrite (proj2 (Nat.eqb_neq (length v - 1) 0)) by lia. simpl negb. cbv iota.
    destruct (lookup_lt_is_Some_2 v (length v - 1)) as [tmp Htmp]; [lia|].
    apply wp_bind, wp_bind, (wp_getopt _ tmp); [simpl; rewrite Harr; [done|lia]|].
    pose proof (pull_last_perm v num e tmp He Htmp) as Hperm.
    eapply wp_mono.
    { apply (resift_spec ks _ (pull_last v num tmp) num tmp).
      - split; simpl; rewrite ?pull_last_length.
        + lia.
        + lia.
        + lia.
        + unfold pull_last. rewrite list_lookup_insert_eq; [done|].
          rewrite length_take. lia.
        + intros j Hj Hjn. rewrite pull_last_lookup by lia. apply Harr. lia.
        + intros j x Hj Hjn. apply lookup_lt_Some in Hj as Hl.
          rewrite pull_last_length in Hl.
          rewrite pull_last_lookup in Hj by lia. eauto.
        + intros x Hx. apply Hkey. rewrite <-Hperm by lia. set_solver.
        + rewrite <-Hperm in Hnd by lia. by inversion Hnd.
      - apply pull_last_weak; [done|lia]. }
    intros [] s' (v' & Hp & Hh & Ho). apply wp_ret. split; [done|].
    exists v'. split_and!; [|done|done]. rewrite Hp. apply Hperm. lia.
Qed.

Lemma heap_delete_spec s v num e :
  heap_wf s v → 1 ≤ num → v !! (num - 1) = Some e →
  wp (heap_delete K num)
     (λ r s', r = e ∧ ∃ v', e :: v' ≡ₚ v ∧ heap_wf s' v' ∧ only_pos s s') s.
Proof.
  intros [Hs Hf] Hnum He. eapply wp_mono.
  { eapply heap_delete_weak; [done|by apply (full_heap_weak (heap_sift K))|done|done]. }
  intros r s' (-> & v' & Hp & Hh & Ho). split; [done|]. exists v'.
  split_and!; [done| |done]. eapply heap_wf_after; [done| |done]. done.
Qed.

(** An index outside the heap is refused and nothing changes. *)
Lemma heap_delete_none s v num :
  heap_wf s v → num = 0 ∨ length v < num →
  heap_delete K num s = Done (NULL, s).
Proof.
  intros [Hs _] Hnum. unfold heap_delete, mbind, M_bind, gets.
  rewrite (hp_size _ _ _ _ Hs : size (heap s) = _).
  destruct Hnum as [->|Hlt].
  - by rewrite Nat.eqb_refl, orb_true_r.
  - rewrite (proj2 (Nat.ltb_lt _ _) Hlt). by rewrite orb_true_r.
Qed.

(** The head is null exactly when the heap is empty, and otherwise no other
    element comes before it. *)
Lemma heap_head_spec s v :
  heap_wf s v →
  wp (heap_head K)
     (λ r s', s' = s ∧ r = default NULL (head v) ∧
              ∀ e, e ∈ v → hk_before K (keys s e) (keys s r) = false) s.
Proof.
  intros [Hs Hf]. apply wp_bind, wp_gets.
  rewrite (hp_size _ _ _ _ Hs : size (heap s) = _).
  destruct v as [|h v]; simpl.
  - apply wp_ret. split_and!; [done|done|set_solver].
  - apply (wp_getopt _ h).
    { rewrite (hp_arr _ _ _ _ Hs); [done|simpl; lia]. }
    split_and!; [done|done|]. intros e He.
    by apply (full_heap_head (heap_sift K) (keys s) (h :: v) h e).
Qed.

(** The comparisons of [set_key] agree with the order of the heap. *)
Definition set_key_sane (t : thread_t) (val : Z) : Prop :=
  let k := hk_key K t in
  let k' := hk_key K (hk_set_key K val t) in
  (hk_same K k val = true → hk_set_key K val t = t) ∧
  (hk_improves K k val = true → hk_before K k k' = false) ∧
  (hk_improves K k val = false → hk_before K k' k = false).

(** Changing the key of one element: the array is still right, and the order
    may only be wrong around that element. *)
Lemma rekey_shape s v i e t val :
  heap_wf s v → 1 ≤ i → v !! (i - 1) = Some e → threads s !! e = Some t →
  let s1 := set_threads (<[e := hk_set_key K val t]> (threads s)) s in
  heap_shape (heap_sift K) (keys s1) s1 v ∧ weak_heap (heap_sift K) (keys s1) v i ∧
  keys s1 e = hk_key K (hk_set_key K val t) ∧
  (∀ x, x ≠ e → keys s1 x = keys s x).
Proof.
  intros [Hs Hf] Hi He Ht s1. destruct Hs as [Hsz Hcap Harr Hpos Hkey Hnd]. simpl in *.
  assert (∀ x, x ≠ e → keys s1 x = keys s x) as Hne.
  { intros x Hx. unfold keys, s1. simpl. by rewrite lookup_insert_ne. }
  split_and!.
  - split; simpl; [done|done|done| | |done].
    + intros j x Hj. rewrite <-(Hpos j x Hj).
      destruct (decide (e = x)) as [<-|]; [|by rewrite lookup_insert_ne].
      rewrite lookup_insert_eq, Ht. simpl. by rewrite kk_pos_key.
    + intros x Hx. destruct (decide (e = x)) as [<-|].
      * rewrite lookup_insert_eq. unfold keys, s1. simpl. by rewrite lookup_insert_eq.
      * rewrite lookup_insert_ne, Hne by done. by apply Hkey.
  - apply (weak_heap_ext (heap_sift K) (keys s)); [|by apply (full_heap_weak (heap_sift K))|done].
    intros j x Hj Hji. symmetry. apply Hne. intros ->.
    apply Hji. by eapply NoDup_lookup.
  - unfold keys, s1. simpl. by rewrite lookup_insert_eq.
  - done.
Qed.

Lemma heap_set_key_spec s v index e t val :
  heap_wf s v → 1 ≤ index → v !! (index - 1) = Some e → threads s !! e = Some t →
  set_key_sane t val →
  wp (heap_set_key K index val)
     (λ _ s', ∃ v', v' ≡ₚ v ∧ heap_wf s' v' ∧
        only_pos (set_threads (<[e := hk_set_key K val t]> (threads s)) s) s') s.
Proof.
  intros Hwf Hi He Ht (Hsame & Himp & Hwor).
  pose proof (rekey_shape s v index e t val Hwf Hi He Ht) as Hre. simpl in Hre.
  set (s1 := set_threads (<[e := hk_set_key K val t]> (threads s)) s) in *.
  destruct Hre as (Hs1 & Hw1 & Hke & Hkne).
  pose proof Hwf as [[Hsz _ Harr _ _ Hnd] Hf]. simpl in Hsz, Harr.
  pose proof (lookup_lt_Some _ _ _ He) as Hlt.
  assert (keys s e = hk_key K t) as Hkold by (unfold keys; by rewrite Ht).
  apply wp_bind, wp_gets. rewrite Hsz.
  rewrite (proj2 (Nat.eqb_neq index 0)), (proj2 (Nat.ltb_ge (length v) index)) by lia.
  simpl orb. cbv iota.
  apply wp_bind, (wp_getopt _ e); [simpl; by rewrite Harr|].
  apply wp_bind, (wp_getopt _ t); [done|].
  destruct (hk_same K (hk_key K t) val) eqn:Hsm.
  { apply wp_ret. exists v. split_and!; [done|done|].
    assert (s1 = s) as ->; [|done].
    unfold s1. rewrite Hsame, insert_id by done. by destruct s. }
  apply wp_bind, wp_modify. fold s1.
  assert (∀ s' v', v' ≡ₚ v → heap_at (heap_sift K) (keys s1) s' v' → only_pos s1 s' →
            ∃ v', v' ≡ₚ v ∧ heap_wf s' v' ∧ only_pos s1 s') as Hend.
  { intros s' v' Hp Hh Ho. exists v'. split_and!; [done| |done].
    eapply heap_wf_after; [done| |done]. done. }
  destruct (hk_improves K (hk_key K t) val) eqn:Him.
  - destruct (Nat.eqb_spec index 1) as [->|Hne1].
    + apply wp_ret, (Hend s1 v); [done| |done]. split; [done|].
      intros j Hj. destruct Hw1 as [Hw1 _]. simpl in He.
      assert (∀ a, v !! (j - 1) = Some a → a ≠ e) as Hae.
      { intros a Ha ->. pose proof (NoDup_lookup _ _ _ _ Hnd Ha He). lia. }
      destruct (decide (j / 2 = 1)) as [Hj2|]; [|apply Hw1; lia].
      intros a b Ha Hb. rewrite Hj2 in Hb. simpl in Hb.
      assert (b = e) as -> by congruence.
      rewrite Hke, Hkne by eauto.
      apply (le_trans (heap_sift K) _ (keys s e)); [rewrite Hkold; by apply Himp|].
      apply (Hf j); [done|done|]. by rewrite Hj2.
    + eapply wp_mono.
      { apply (resift_spec (keys s1) _ v index e); [by apply (shape_holed (heap_sift K))|done]. }
      intros [] s' (v' & Hp & Hh & Ho). eauto.
  - eapply wp_mono.
    { apply (sink_spec (keys s1) _ v index e); [by apply (shape_holed (heap_sift K))|done|].
      intros Hi2 a b Ha Hb. assert (a = e) as -> by congruence.
      rewrite Hke, Hkne.
      - apply (le_trans (heap_sift K) _ (keys s e)); [apply (Hf index); [lia|done|done]|].
        rewrite Hkold. by apply Hwor.
      - intros ->. pose proof (NoDup_lookup _ _ _ _ Hnd Ha Hb). lia. }
    intros [] s' (v' & Hp & Hh & Ho). eauto.
Qed.

(** *** Queues out of order

    Where a queue may be out of order, the operations still keep it well
    shaped, and they change the index of no thread outside the queue. *)

Definition queue_shape (s : hstate) (v : list ptr) : Prop :=
  heap_shape (heap_sift K) (keys s) s v.

Definition moved (v : list ptr) (s s' : hstate) : Prop :=
  (∀ p, erase K <$> threads s' !! p = erase K <$> threads s !! p) ∧
  (∀ p, p ∉ v → threads s' !! p = threads s !! p) ∧
  (max (heap s'), data_addr (heap s'), length (data_name (heap s'))) =
  (max (heap s), data_addr (heap s), length (data_name (heap s))).

#[export] Instance heap_frame_block :
  SiftFrame (heap_sift K)
    (λ s, (max (heap s), data_addr (heap s), length (data_name (heap s)))).
Proof.
  intros i e s s' (t & Ht & _ & ->)%heap_place_run. simpl. by rewrite length_insert.
Qed.

Lemma erase_pos_eq (t t' : thread_t) : erase K t' = erase K t → hk_pos K t' = hk_pos K t → t' = t.
Proof.
  intros He Hp. rewrite <-(kk_pos_id t'), <-(kk_pos_id t), Hp.
  rewrite <-(kk_pos_pos _ 0 t'), <-(kk_pos_pos _ 0 t). by f_equal.
Qed.

Lemma sift_in_moved v s s' : sift_in (heap_sift K) v s s' → moved v s s'.
Proof.
  intros [Ho Hin].
  assert (∀ p, erase K <$> threads s' !! p = erase K <$> threads s !! p) as He.
  { intros p. apply (Ho _ (λ s, erase K <$> threads s !! p) _). }
  split; [done|]. split; [|by apply (Ho _ _ heap_frame_block)].
  intros p Hp. specialize (He p). specialize (Hin p Hp). simpl in Hin.
  destruct (threads s' !! p) as [t'|], (threads s !! p) as [t|]; try done.
  simpl in *. f_equal. apply erase_pos_eq; congruence.
Qed.

Lemma moved_keys v s s' e : moved v s s' → keys s' e = keys s e.
Proof.
  intros (Hp & _ & _). specialize (Hp e). unfold keys.
  destruct (threads s' !! e) as [t'|], (threads s !! e) as [t|]; try done.
  simpl in *. apply (inj Some) in Hp. apply (f_equal (hk_key K)) in Hp.
  unfold erase in Hp. by rewrite !kk_key in Hp.
Qed.

Lemma shape_after ks (s' : hstate) v :
  heap_shape (heap_sift K) ks s' v → (∀ e, e ∈ v → ks e = keys s' e) → queue_shape s' v.
Proof. intros [? ? ? ? Hk ?] Hks. split; try done. intros e He. rewrite <-Hks by done. eauto. Qed.

Lemma heap_insert_shape s v inn :
  queue_shape s v → inn ∉ v → is_Some (threads s !! inn) →
  length v < length (data_name (heap s)) →
  wp (heap_insert K inn)
     (λ _ s', (∃ v', v' ≡ₚ inn :: v ∧ queue_shape s' v') ∧ moved (inn :: v) s s') s.
Proof.
  intros [Hsz Hcap Harr Hpos Hkey Hnd] Hout Hin Hroom. simpl in *.
  apply wp_bind, wp_modify, wp_bind, wp_gets. simpl. rewrite Hsz.
  assert (∀ j, j < length v → (v ++ [inn]) !! j = v !! j) as Hlk.
  { intros j Hj. by rewrite lookup_app_l. }
  eapply wp_mono.
  { apply (sift_shape (heap_sift K) (keys s) (heap_pick K) _ (v ++ [inn]) (inn :: v) (S (length v)) inn);
      [apply heap_pick_ok| |by rewrite Permutation_app_comm].
    split; simpl; rewrite ?length_app; simpl; [lia|lia|lia| | | | |].
    - by rewrite Nat.sub_0_r, lookup_app_r, Nat.sub_diag by done.
    - intros j Hj Hne. rewrite lookup_app_l by lia. apply Harr. lia.
    - intros j e He Hne. apply lookup_lt_Some in He as Hj.
      rewrite length_app in Hj. simpl in Hj. apply Hpos. by rewrite Hlk in He by lia.
    - intros e [He|He]%elem_of_app; [by apply Hkey|].
      apply list_elem_of_singleton in He as ->. by apply (keys_lookup s).
    - apply NoDup_app. split_and!; [done|set_solver|apply NoDup_singleton]. }
  intros [] s' [(v' & Hp & Hs) Hm%sift_in_moved].
  split; [|exact Hm]. exists v'. split; [done|].
  eapply shape_after; [done|]. intros e _. by rewrite (moved_keys _ _ _ _ Hm).
Qed.

Lemma heap_delete_shape ks (s : hstate) v num e :
  heap_shape (heap_sift K) ks s v → 1 ≤ num → v !! (num - 1) = Some e →
  wp (heap_delete K num)
     (λ r s', r = e ∧ (∃ v', e :: v' ≡ₚ v ∧ queue_shape s' v') ∧ moved v s s') s.
Proof.
  intros [Hsz Hcap Harr Hpos Hkey Hnd] Hnum He. simpl in *.
  pose proof (lookup_lt_Some _ _ _ He) as Hlt.
  assert (∀ x, x ∈ v → ks x = keys s x) as Hks.
  { intros x Hx. specialize (Hkey x Hx). unfold keys.
    destruct (threads s !! x); [|done]. simpl in *. congruence. }
  apply wp_bind, wp_gets. rewrite Hsz.
  rewrite (proj2 (Nat.eqb_neq (length v) 0)), (proj2 (Nat.eqb_neq num 0)),
    (proj2 (Nat.ltb_ge (length v) num)) by lia. simpl orb.
  apply wp_bind, (wp_getopt _ e); [simpl; by rewrite Harr|].
  apply wp_bind, wp_modify, wp_bind, wp_gets. simpl. rewrite Hsz.
  destruct (Nat.eqb_spec (num - 1) (length v - 1)) as [Heq|Hne].
  - apply wp_ret. split; [done|]. split; [|done]. exists (take (length v - 1) v). split.
    + rewrite Heq in He. apply take_last in He as Hv.
      rewrite Permutation_cons_append. by rewrite Hv.
    + apply (shape_after ks).
      * split; simpl; rewrite ?length_take; [lia|lia| | | |].
        -- intros j Hj. rewrite lookup_take_lt by lia. apply Harr. lia.
        -- intros j x [Hj Hlj]%lookup_take_Some. eauto.
        -- intros x Hx. apply Hkey. by eapply subseteq_take.
        -- eapply sublist_NoDup; [done|apply sublist_take].
      * intros x Hx. apply Hks. by eapply subseteq_take.
  - rewrite (proj2 (Nat.eqb_neq (length v - 1) 0)) by lia. simpl negb. cbv iota.
    destruct (lookup_lt_is_Some_2 v (length v - 1)) as [tmp Htmp]; [lia|].
    apply wp_bind, wp_bind, (wp_getopt _ tmp); [simpl; rewrite Harr; [done|lia]|].
    pose proof (pull_last_perm v num e tmp He Htmp ltac:(lia)) as Hperm.
    assert (∀ x, x ∈ pull_last v num tmp → x ∈ v) as Hsub.
    { intros x Hx. rewrite <-Hperm. by right. }
    eapply wp_mono.
    { apply (sift_shape (heap_sift K) ks (heap_pick K) _ (pull_last v num tmp)
        (pull_last v num tmp) num tmp); [apply heap_pick_ok| |done].
      split; simpl; rewrite ?pull_last_length; [lia|lia|lia| | | | |].
      - unfold pull_last. rewrite list_lookup_insert_eq; [done|]. rewrite length_take. lia.
      - intros j Hj Hjn. rewrite pull_last_lookup by lia. apply Harr. lia.
      - intros j x Hj Hjn. apply lookup_lt_Some in Hj as Hl.
        rewrite pull_last_length in Hl. rewrite pull_last_lookup in Hj by lia. eauto.
      - intros x Hx. by apply Hkey, Hsub.
      - rewrite <-Hperm in Hnd. by inversion Hnd. }
    intros [] s' [(v' & Hp & Hs) Hm%sift_in_moved]. apply wp_ret. split; [done|].
    split.
    + exists v'. split; [by rewrite Hp|]. eapply shape_after; [done|].
      intros x Hx. rewrite (moved_keys _ _ _ _ Hm). rewrite Hks; [done|]. apply Hsub. by rewrite <-Hp.
    + destruct Hm as (H1 & H2 & H3). split; [done|]. split; [|done].
      intros x Hx. rewrite H2; [done|]. intros Hx'. by apply Hx, Hsub.
Qed.

Lemma heap_set_key_shape s v index e t val :
  queue_shape s v → 1 ≤ index → v !! (index - 1) = Some e → threads s !! e = Some t →
  wp (heap_set_key K index val)
     (λ _ s', (∃ v', v' ≡ₚ v ∧ queue_shape s' v') ∧
        ∃ t1, (t1 = t ∨ t1 = hk_set_key K val t) ∧
          moved v (set_threads (<[e := t1]> (threads s)) s) s') s.
Proof.
  intros Hs Hi He Ht. pose proof Hs as [Hsz Hcap Harr Hpos Hkey Hnd]. simpl in *.
  pose proof (lookup_lt_Some _ _ _ He) as Hlt.
  apply wp_bind, wp_gets. rewrite Hsz.
  rewrite (proj2 (Nat.eqb_neq index 0)), (proj2 (Nat.ltb_ge (length v) index)) by lia.
  simpl orb. cbv iota.
  apply wp_bind, (wp_getopt _ e); [simpl; by rewrite Harr|].
  apply wp_bind, (wp_getopt _ t); [done|].
  destruct (hk_same K (hk_key K t) val).
  { apply wp_ret. split; [by exists v|]. exists t. split; [by left|].
    assert (set_threads (<[e := t]> (threads s)) s = s) as ->; [|done].
    rewrite insert_id by done. by destruct s. }
  apply wp_bind, wp_modify.
  set (s1 := set_threads (<[e := hk_set_key K val t]> (threads s)) s).
  assert (queue_shape s1 v) as Hs1.
  { split; simpl; [done|done|done| | |done].
    - intros j x Hj. rewrite <-(Hpos j x Hj).
      destruct (decide (e = x)) as [<-|]; [|by rewrite lookup_insert_ne].
      rewrite lookup_insert_eq, Ht. simpl. by rewrite kk_pos_key.
    - intros x Hx. unfold keys, s1. simpl. destruct (decide (e = x)) as [<-|].
      + by rewrite lookup_insert_eq.
      + rewrite lookup_insert_ne by done. by apply Hkey. }
  assert (∀ s', (∃ v', v' ≡ₚ v ∧ heap_shape (heap_sift K) (keys s1) s' v') ∧
    sift_in (heap_sift K) v s1 s' → (∃ v', v' ≡ₚ v ∧ queue_shape s' v') ∧
      ∃ t1, (t1 = t ∨ t1 = hk_set_key K val t) ∧
        moved v (set_threads (<[e := t1]> (threads s)) s) s') as Hend.
  { intros s' [(v' & Hp & Hs') Hm%sift_in_moved]. split; [|eauto]. exists v'. split; [done|].
    eapply shape_after; [done|]. intros x _. by rewrite (moved_keys _ _ _ _ Hm). }
  assert (holed (heap_sift K) (keys s1) s1 v index e) as Hh by (by apply (shape_holed (heap_sift K))).
  destruct (hk_improves K (hk_key K t) val).
  - destruct (Nat.eqb_spec index 1) as [->|Hne1].
    + apply wp_ret, Hend. split; [by exists v|apply sift_in_refl].
    + eapply wp_mono; [by apply (sift_shape (heap_sift K) (keys s1) (heap_pick K) _ v v);
        [apply heap_pick_ok|..]|]. intros [] s'. apply Hend.
  - eapply wp_mono; [by apply (sift_down_shape (heap_sift K) (keys s1) (heap_pick K) _ v v);
      [apply heap_pick_ok|..]|]. intros [] s'. apply Hend.
Qed.

End correctness.

Lemma StronglySorted_weaken {A} (R1 R2 : A → A → Prop) l :
  (∀ a b, R1 a b → R2 a b) → StronglySorted R1 l → StronglySorted R2 l.
Proof.
  intros HR. induction 1 as [|a l _ IH Ha]; constructor; [done|].
  eapply Forall_impl; [exact Ha|]. simpl. auto.
Qed.

(** Taking out the head [n] times. *)
Fixpoint heap_drain (K : heap_kind) (n : nat) : M hstate (list ptr) :=
  match n with
  | O => mret []
  | S n => e ← heap_delete K 1; l ← heap_drain K n; mret (e :: l)
  end.

Section properties.
Context (K : heap_kind) `{!KindOk K}.

(** [a] may leave the heap before [b]. *)
Definition not_after (s : hstate) (a b : ptr) : Prop :=
  hk_before K (keys K s b) (keys K s a) = false.

(** inserting a thread into a run queue that has room keeps the queue a
    heap in which every thread records its own index; the queue holds one
    thread more, and no thread changes otherwise. *)
Theorem heap_insert_keeps_heap s v inn :
  heap_wf K s v → inn ∉ v → is_Some (threads s !! inn) →
  length v < length (data_name (heap s)) →
  ∃ s' v', heap_insert K inn s = Done (tt, s') ∧ v' ≡ₚ inn :: v ∧ heap_wf K s' v' ∧
           only_pos K s s'.
Proof.
  intros Hw Hout Hin Hroom.
  pose proof (heap_insert_spec K s v inn Hw Hout Hin Hroom) as ([] & s' & Hs' & v' & H)%wp_Done.
  eauto.
Qed.

(** A thread can be deleted through the index it records: the deletion
    removes that thread and no other and leaves a heap. *)
Theorem heap_delete_by_index s v e i :
  heap_wf K s v → e ∈ v → hk_pos K <$> threads s !! e = Some i →
  ∃ s' v', heap_delete K i s = Done (e, s') ∧ e :: v' ≡ₚ v ∧ heap_wf K s' v' ∧
           only_pos K s s'.
Proof.
  intros Hw He Hi. apply list_elem_of_lookup_1 in He as [j Hj].
  pose proof Hw as [Hs _]. pose proof (hp_pos _ _ _ _ Hs j e Hj) as Hp. simpl in Hp.
  assert (i = S j) as -> by congruence.
  pose proof (heap_delete_spec K s v (S j) e Hw ltac:(lia)) as Hd.
  rewrite Nat.sub_succ, Nat.sub_0_r in Hd.
  destruct (proj1 (wp_Done _ _ _) (Hd Hj)) as (r & s' & Hs' & -> & v' & H). eauto.
Qed.

Lemma heap_drain_spec s v :
  heap_wf K s v →
  wp (heap_drain K (length v))
     (λ l _, l ≡ₚ v ∧ StronglySorted (not_after s) l) s.
Proof.
  remember (length v) as n eqn:Hn. revert s v Hn.
  induction n as [|n IH]; intros s v Hn Hw; simpl.
  - apply wp_ret. destruct v; [|done]. split; [done|constructor].
  - destruct v as [|e v]; [done|]. injection Hn as Hn.
    pose proof Hw as [_ Hf].
    apply wp_bind. eapply wp_mono; [by apply (heap_delete_spec K s (e :: v) 1 e)|].
    intros r s1 (-> & v1 & Hp & Hw1 & Ho). apply (Permutation_cons_inv (a:=e)) in Hp.
    assert (n = length v1) as Hn1 by (by rewrite Hp).
    apply wp_bind. eapply wp_mono; [by apply (IH s1 v1)|].
    intros l s2 [Hl Hsorted]. apply wp_ret. split; [by rewrite Hl, Hp|].
    constructor.
    + eapply StronglySorted_weaken; [|exact Hsorted]. unfold not_after.
      intros a b. by rewrite !(only_pos_keys K s s1).
    + apply Forall_forall. intros b Hb. unfold not_after.
      apply (full_heap_head (heap_sift K) (keys K s) (e :: v) e b); [done|done|].
      right. by rewrite <-Hp, <-Hl.
Qed.

(** C6: the run queues are priority queues.  Taking out the head until the
    queue is empty yields every thread of the queue once, and none before a
    thread that the order of the queue puts first. *)
Theorem heap_drain_sorted s v :
  heap_wf K s v →
  ∃ l s', heap_drain K (length v) s = Done (l, s') ∧ l ≡ₚ v ∧
          StronglySorted (not_after s) l.
Proof.
  intros Hw. pose proof (heap_drain_spec s v Hw) as (l & s' & Hs' & H)%wp_Done. eauto.
Qed.
End properties.

(** [priority_heap_set_key] gives a thread another remaining time and keeps
    the queue a heap, as long as the old and the new time are not negative. *)
Theorem priority_heap_set_key_keeps_heap s v index e t val :
  heap_wf priority_kind s v → 1 ≤ index → v !! (index - 1) = Some e → threads s !! e = Some t →
  (0 ≤ remaining (stat t) < 2 ^ 31)%Z → (0 ≤ val < 2 ^ 31)%Z →
  ∃ s' v', priority_heap_set_key index val s = Done (tt, s') ∧ v' ≡ₚ v ∧
    heap_wf priority_kind s' v' ∧
    only_pos priority_kind (set_threads (<[e := on_stat (set_remaining val) t]> (threads s)) s) s'.
Proof.
  intros Hw Hi He Ht Hk Hv.
  assert (set_key_sane priority_kind t val) as Hsane.
  { unfold set_key_sane. simpl. rewrite s32_small, u32_small by lia. split_and!; [|lia|lia].
    intros Heq. assert (val = remaining (stat t)) as -> by lia. by destruct t as [[]]. }
  pose proof (heap_set_key_spec priority_kind s v index e t val Hw Hi He Ht Hsane)
    as ([] & s' & Hs' & v' & Hp & Hw' & Ho)%wp_Done.
  simpl in Ho. rewrite s32_small in Ho by done. eauto 6.
Qed.

(** [affinity_heap_set_key] gives a thread another affinity and keeps the
    queue a heap, for all words. *)
Theorem affinity_heap_set_key_keeps_heap s v index e t val :
  heap_wf affinity_kind s v → 1 ≤ index → v !! (index - 1) = Some e → threads s !! e = Some t →
  ∃ s' v', affinity_heap_set_key index val s = Done (tt, s') ∧ v' ≡ₚ v ∧
    heap_wf affinity_kind s' v' ∧
    only_pos affinity_kind (set_threads (<[e := set_affinity val t]> (threads s)) s) s'.
Proof.
  intros Hw Hi He Ht.
  assert (set_key_sane affinity_kind t val) as Hsane.
  { unfold set_key_sane. simpl. split_and!; [|lia|lia].
    intros Heq. assert (val = affinity t) as -> by lia. by destruct t. }
  pose proof (heap_set_key_spec affinity_kind s v index e t val Hw Hi He Ht Hsane)
    as ([] & s' & Hs' & v' & Hp & Hw' & Ho)%wp_Done. eauto 6.
Qed.

(** ** Two threads, for the witnesses *)

(** A queued thread. *)
Definition queued (remaining pos : Z) : thread_t :=
  set_priority_heap_pos (Z.to_nat pos) (set_affinity_heap_pos (Z.to_nat pos)
    (on_stat (set_remaining remaining) thread_zero)).

(** Thread 100 at the head with time [a], thread 200 behind it with time [b],
    thread 300 outside; the array has room for four. *)
Definition two_threads (a b : Z) : hstate :=
  HState {[ 100%Z := queued a 1; 200%Z := queued b 2; 300%Z := queued 3 0 ]}
    (Heap 2 16 4096 [100%Z; 200%Z; 0%Z; 0%Z]).

Lemma two_threads_shape K ks a b :
  K = priority_kind ∨ K = affinity_kind →
  (∀ e, e ∈ [100; 200]%Z → ks e = keys K (two_threads a b) e) →
  heap_shape (heap_sift K) ks (two_threads a b) [100%Z; 200%Z].
Proof.
  intros HK Hks. split.
  - by destruct HK as [-> | ->].
  - simpl. lia.
  - by intros [|[|j]] Hj; [..|simpl in Hj; lia].
  - intros [|[|j]] e He; [injection He as <-; by destruct HK as [-> | ->]..|done].
  - intros e He. rewrite Hks by done.
    apply elem_of_cons in He as [->| ->%list_elem_of_singleton]; by destruct HK as [-> | ->].
  - apply (bool_decide_unpack _). by vm_compute.
Qed.

Lemma two_threads_wf K a b :
  K = priority_kind ∨ K = affinity_kind → (b ≤ a)%Z → heap_wf K (two_threads a b) [100%Z; 200%Z].
Proof.
  intros HK Hab. split; [by apply two_threads_shape|].
  intros j Hj x y Hx Hy. simpl in Hj. assert (j = 2) as -> by lia.
  injection Hx as <-. injection Hy as <-.
  destruct HK as [-> | ->]; unfold le; simpl; [|done].
  change (keys priority_kind (two_threads a b) 100) with a.
  change (keys priority_kind (two_threads a b) 200) with b. lia.
Qed.

Lemma heap_insert_keeps_heap_witness :
  ∃ s' v', heap_insert priority_kind 300 (two_threads 9 4) = Done (tt, s') ∧
    v' ≡ₚ [300; 100; 200]%Z ∧ heap_wf priority_kind s' v' ∧
    only_pos priority_kind (two_threads 9 4) s'.
Proof.
  apply (heap_insert_keeps_heap priority_kind (two_threads 9 4) [100; 200]%Z 300).
  - apply two_threads_wf; [by left|lia].
  - apply (bool_decide_unpack _). by vm_compute.
  - by eexists.
  - simpl. lia.
Defined.

Lemma heap_delete_by_index_witness :
  ∃ s' v', heap_delete affinity_kind 2 (two_threads 9 4) = Done (200%Z, s') ∧
    200%Z :: v' ≡ₚ [100; 200]%Z ∧ heap_wf affinity_kind s' v' ∧
    only_pos affinity_kind (two_threads 9 4) s'.
Proof.
  apply (heap_delete_by_index affinity_kind (two_threads 9 4) [100; 200]%Z 200 2).
  - apply two_threads_wf; [by right|lia].
  - apply (bool_decide_unpack _). by vm_compute.
  - reflexivity.
Defined.

Lemma heap_drain_sorted_witness :
  ∃ l s', heap_drain priority_kind 2 (two_threads 9 4) = Done (l, s') ∧ l ≡ₚ [100; 200]%Z ∧
    StronglySorted (not_after priority_kind (two_threads 9 4)) l.
Proof.
  apply (heap_drain_sorted priority_kind (two_threads 9 4) [100; 200]%Z).
  apply two_threads_wf; [by left|lia].
Defined.

Lemma priority_heap_set_key_keeps_heap_witness :
  ∃ s' v', priority_heap_set_key 2 12 (two_threads 9 4) = Done (tt, s') ∧ v' ≡ₚ [100; 200]%Z ∧
    heap_wf priority_kind s' v' ∧
    only_pos priority_kind
      (set_threads (<[200%Z := on_stat (set_remaining 12) (queued 4 2)]>
         (threads (two_threads 9 4))) (two_threads 9 4)) s'.
Proof.
  apply (priority_heap_set_key_keeps_heap (two_threads 9 4) [100; 200]%Z 2 200 (queued 4 2) 12).
  - apply two_threads_wf; [by left|lia].
  - lia.
  - reflexivity.
  - reflexivity.
  - simpl. lia.
  - lia.
Defined.

Lemma affinity_heap_set_key_keeps_heap_witness :
  ∃ s' v', affinity_heap_set_key 1 12 (two_threads 9 4) = Done (tt, s') ∧ v' ≡ₚ [100; 200]%Z ∧
    heap_wf affinity_kind s' v' ∧
    only_pos affinity_kind
      (set_threads (<[100%Z := set_affinity 12 (queued 9 1)]>
         (threads (two_threads 9 4))) (two_threads 9 4)) s'.
Proof.
  apply (affinity_heap_set_key_keeps_heap (two_threads 9 4) [100; 200]%Z 1 100 (queued 9 1) 12).
  - apply two_threads_wf; [by right|lia].
  - lia.
  - reflexivity.
  - reflexivity.
Defined.

(** [priority_heap_set_key] breaks the order for negative times.  The old
    time is compared with the new one as unsigned words, so a thread whose
    time was negative is not moved up: after raising its time from -1 to 7 the
    head of the queue is still the thread with time 5. *)
Theorem priority_heap_set_key_negative :
  heap_wf priority_kind (two_threads 5 (-1)) [100; 200]%Z ∧
  ∃ s', priority_heap_set_key 2 7 (two_threads 5 (-1)) = Done (tt, s') ∧
    keys priority_kind s' 100 = 5%Z ∧ keys priority_kind s' 200 = 7%Z ∧
    (∃ s'', priority_heap_head s' = Done (100%Z, s'')) ∧
    ∀ v, ¬ heap_wf priority_kind s' v.
Proof.
  split; [apply two_threads_wf; [by left|lia]|].
  eexists. split; [vm_compute; reflexivity|].
  split; [by vm_compute|]. split; [by vm_compute|]. split; [eexists; by vm_compute|].
  intros v [Hs Hf]. pose proof (hp_size _ _ _ _ Hs) as Hsz. simpl in Hsz.
  pose proof (hp_arr _ _ _ _ Hs) as Harr. simpl in Harr.
  pose proof (Harr 0 ltac:(lia)) as H0. pose proof (Harr 1 ltac:(lia)) as H1.
  simpl in H0, H1. specialize (Hf 2 ltac:(lia) 200%Z 100%Z (eq_sym H1) (eq_sym H0)).
  vm_compute in Hf. discriminate.
Qed.
