(* ===== verification/Bits.v ===== *)
(** * Powers of two (arch/mem/malloc/ia_32_round.s)

    The five rounding helpers of the allocator are small assembly routines
    around [bsr] and [bsf] and a table of the powers of two.  [bsr] and [bsf]
    leave their destination undefined on 0, and the table has 32 entries: both
    cases are the undefined result [None]. *)

From S2P Require Import Prelude.
#[local] Open Scope Z_scope.

Definition size_tab (i : Z) : option Z :=
  if decide (0 ≤ i < 32) then Some (2 ^ i) else None.

(** Index of the most and of the least significant bit of a word. *)
Definition bsr (x : Z) : option Z := if decide (0 < x) then Some (Z.log2 x) else None.
Definition bsf (x : Z) : option Z :=
  if decide (0 < x) then Some (Z.log2 (Z.land x (- x))) else None.

Definition addr_size (x : Z) : option Z := bsf x ≫= size_tab.
Definition round_down (x : Z) : option Z := bsr x ≫= size_tab.
Definition round_up (x : Z) : option Z := i ← bsr (u32 (x - 1)); size_tab (i + 1).
Definition ilog (x : Z) : option Z := bsr x.
Definition addr_power (x : Z) : option Z := bsr x.

(** A power of two that a 32-bit word can hold. *)
Definition pow2 (x : Z) : Prop := ∃ k, 0 ≤ k < 32 ∧ x = 2 ^ k.

Lemma pow2_pos x : pow2 x → 0 < x.
Proof. intros (k & Hk & ->). apply Z.pow_pos_nonneg; lia. Qed.

Lemma pow2_divide x y : pow2 x → pow2 y → x ≤ y → (x | y).
Proof.
  intros (k & Hk & ->) (l & Hl & ->) Hle. exists (2 ^ (l - k)).
  rewrite <-Z.pow_add_r by (apply Z.pow_le_mono_r_iff in Hle; lia).
  f_equal. lia.
Qed.

Lemma pow2_total x y : pow2 x → pow2 y → (x | y) ∨ (y | x).
Proof.
  intros Hx Hy. destruct (Z.le_ge_cases x y); [left|right]; by apply pow2_divide.
Qed.

Lemma pow2_le_half x y : pow2 x → pow2 y → x < y → (2 * x | y).
Proof.
  intros (k & Hk & ->) (l & Hl & ->) Hlt. apply Z.pow_lt_mono_r_iff in Hlt; [|lia..].
  exists (2 ^ (l - k - 1)). rewrite <-Z.pow_succ_r, <-Z.pow_add_r by lia. f_equal. lia.
Qed.

(** [round_down x] is the largest power of two below [x]. *)
Lemma round_down_spec x :
  0 < x < 2 ^ 32 →
  ∃ r, round_down x = Some r ∧ pow2 r ∧ r ≤ x < 2 * r.
Proof.
  intros Hx. unfold round_down, bsr. rewrite decide_True by lia. simpl.
  pose proof (Z.log2_nonneg x). pose proof (Z.log2_spec x ltac:(lia)) as Hs.
  assert (Z.log2 x < 32) by (apply Z.log2_lt_pow2; lia).
  unfold size_tab. rewrite decide_True by lia. eexists. split; [done|].
  rewrite Z.pow_succ_r in Hs by lia. split; [by eexists|lia].
Qed.

Lemma addr_power_pow2 k : 0 ≤ k → addr_power (2 ^ k) = Some k.
Proof.
  intros Hk. unfold addr_power, bsr.
  rewrite decide_True by (apply Z.pow_pos_nonneg; lia). by rewrite Z.log2_pow2.
Qed.

(** [round_up x] is the smallest power of two that is not below [x]. *)
Lemma round_up_spec x :
  2 ≤ x ≤ 2 ^ 31 →
  ∃ r, round_up x = Some r ∧ pow2 r ∧ x ≤ r < 2 * x.
Proof.
  intros Hx. unfold round_up, bsr. rewrite u32_small, decide_True by lia. simpl.
  pose proof (Z.log2_nonneg (x - 1)). pose proof (Z.log2_spec (x - 1) ltac:(lia)) as Hs.
  assert (Z.log2 (x - 1) < 31) by (apply Z.log2_lt_pow2; lia).
  unfold size_tab. rewrite decide_True by lia. eexists. split; [done|].
  rewrite <-Z.add_1_r in Hs. split; [eexists; split; [|done]; lia|].
  rewrite Z.pow_add_r in * by lia. lia.
Qed.

Lemma log2_lowbit_odd m k : 0 ≤ k → Z.odd m = true → 0 < m →
  Z.log2 (Z.land (m * 2 ^ k) (- (m * 2 ^ k))) = k.
Proof.
  intros Hk Hm Hpos.
  assert (Z.land (m * 2 ^ k) (- (m * 2 ^ k)) = 2 ^ k) as ->; [|by apply Z.log2_pow2].
  apply Z.bits_inj'. intros n Hn. rewrite Z.land_spec, Z.pow2_bits_eqb by done.
  replace (- (m * 2 ^ k)) with ((- m) * 2 ^ k) by lia.
  destruct (Z.lt_trichotomy n k) as [Hlt|[->|Hgt]].
  - rewrite Z.mul_pow2_bits_low by lia. simpl. symmetry. apply Z.eqb_neq. lia.
  - rewrite !Z.mul_pow2_bits by lia. rewrite Z.sub_diag, !Z.bit0_odd, Z.eqb_refl.
    rewrite Z.odd_opp, Hm. done.
  - rewrite !Z.mul_pow2_bits by lia.
    replace (- m) with (Z.lnot (m - 1)) by (unfold Z.lnot; lia).
    rewrite Z.lnot_spec by lia.
    assert (Z.testbit (m - 1) (n - k) = Z.testbit m (n - k)) as ->.
    { destruct (Zodd_ex m) as [q ->]; [by apply Zodd_bool_iff|].
      replace (2 * q + 1 - 1) with (2 * q) by lia.
      replace (n - k) with (Z.succ (n - k - 1)) by lia.
      by rewrite Z.testbit_even_succ, Z.testbit_odd_succ by lia. }
    rewrite andb_negb_r. symmetry. apply Z.eqb_neq. lia.
Qed.

(** [addr_size x] is the largest power of two that divides the address. *)
Lemma addr_size_spec x :
  0 < x < 2 ^ 32 →
  ∃ r, addr_size x = Some r ∧ pow2 r ∧ (r | x) ∧
       ∀ y, pow2 y → (y | x) → (y | r).
Proof.
  intros Hx.
  assert (∃ m k, 0 ≤ k ∧ Z.odd m = true ∧ x = m * 2 ^ k) as (m & k & Hk & Hm & Heq).
  { assert (∀ n : nat, ∀ y, 0 < y → (Z.to_nat y ≤ n)%nat →
      ∃ m k, 0 ≤ k ∧ Z.odd m = true ∧ y = m * 2 ^ k) as Hall.
    { induction n as [|n IH]; intros y Hy Hn; [lia|].
      destruct (Z.odd y) eqn:Ho; [exists y, 0; split_and!; [lia|done|lia]|].
      assert (Z.even y = true) as He by (by rewrite <-Z.negb_odd, Ho).
      apply Z.even_spec in He as [q ->].
      destruct (IH q) as (m & k & Hk & Hm & ->); [lia..|].
      exists m, (k + 1). split_and!; [lia|done|]. rewrite Z.pow_add_r by lia. lia. }
    by apply (Hall (Z.to_nat x)); lia. }
  assert (0 < 2 ^ k) by (apply Z.pow_pos_nonneg; lia).
  assert (0 < m) by nia.
  assert (k < 32).
  { apply (Z.pow_lt_mono_r_iff 2); [lia..|]. nia. }
  unfold addr_size, bsf. rewrite decide_True by lia. simpl.
  rewrite Heq, log2_lowbit_odd by done.
  unfold size_tab. rewrite decide_True by lia. exists (2 ^ k).
  split_and!; [done|by exists k|by exists m|].
  intros y (l & Hl & ->) [q Hq]. destruct (Z.le_gt_cases l k) as [Hle|Hgt].
  - apply pow2_divide; [by exists l|by exists k|]. by apply Z.pow_le_mono_r; lia.
  - exfalso. assert (m = q * 2 ^ (l - k)) as ->.
    { apply (Z.mul_cancel_r _ _ (2 ^ k)); [lia|].
      rewrite Hq, <-Z.mul_assoc, <-Z.pow_add_r by lia. f_equal. f_equal. lia. }
    replace (l - k) with (Z.succ (l - k - 1)) in Hm by lia.
    rewrite Z.pow_succ_r in Hm by lia.
    rewrite !Z.odd_mul in Hm. simpl in Hm. by rewrite andb_false_r in Hm.
Qed.

(** ** The reference definitions

    What the bit scans compute, by search among the powers of two. *)

Lemma mod_divide p x : x mod p = 0 ↔ (p | x).
Proof.
  destruct (decide (p = 0)) as [->|]; [|by apply Z.mod_divide].
  rewrite Z.mod_0_r. split; [intros ->; apply Z.divide_0_r|by apply Z.divide_0_l].
Qed.

#[export] Instance divide_dec p x : Decision (p | x).
Proof. refine (cast_if (decide (x mod p = 0))); by rewrite <-mod_divide. Defined.

Definition powers : list Z := (λ k : nat, 2 ^ Z.of_nat k) <$> seq 0 32.

Lemma elem_of_powers x : x ∈ powers ↔ pow2 x.
Proof.
  unfold powers, pow2. rewrite list_elem_of_fmap. setoid_rewrite elem_of_seq. split.
  - intros (k & -> & Hk). exists (Z.of_nat k). split; [lia|done].
  - intros (k & Hk & ->). exists (Z.to_nat k). split; [f_equal; lia|lia].
Qed.

Fixpoint increasing (l : list Z) : bool :=
  match l with
  | x :: ((y :: _) as l') => (x <? y) && increasing l'
  | _ => true
  end.

Lemma increasing_above x l y : increasing (x :: l) = true → y ∈ l → x < y.
Proof.
  revert x. induction l as [|z l IH]; intros x; [set_solver|]. simpl.
  intros [Hxz%Z.ltb_lt Hl]%andb_true_iff Hy. apply elem_of_cons in Hy as [->|Hy]; [done|].
  specialize (IH z Hl Hy). lia.
Qed.

Lemma increasing_tail x l : increasing (x :: l) = true → increasing l = true.
Proof. destruct l; [done|]. by intros [_ ?]%andb_true_iff. Qed.

Section search.
Context (P : Z → Prop) `{!∀ x, Decision (P x)}.

Lemma last_filter l r :
  increasing l = true → r ∈ l → P r → (∀ y, y ∈ l → P y → y ≤ r) → last (filter P l) = Some r.
Proof.
  induction l as [|x l IH]; intros Hi Hr HP Hmax; [by apply elem_of_nil in Hr|].
  assert (∀ y, y ∈ l → x < y) as Habove by (intros; by eapply increasing_above).
  apply elem_of_cons in Hr as [<-|Hr].
  - rewrite filter_cons_True by done. assert (filter P l = []) as ->; [|done].
    destruct (filter P l) as [|y l'] eqn:Hf; [done|].
    assert (y ∈ filter P l) as [HPy Hy]%list_elem_of_filter by (rewrite Hf; by left).
    specialize (Hmax y ltac:(by right) HPy). specialize (Habove y Hy). lia.
  - specialize (IH (increasing_tail _ _ Hi) Hr HP ltac:(intros; apply Hmax; [by right|done])).
    destruct (decide (P x)); [rewrite filter_cons_True by done|by rewrite filter_cons_False].
    destruct (filter P l) as [|y l']; [done|]. by rewrite last_cons_cons.
Qed.

Lemma head_filter l r :
  increasing l = true → r ∈ l → P r → (∀ y, y ∈ l → P y → r ≤ y) → head (filter P l) = Some r.
Proof.
  induction l as [|x l IH]; intros Hi Hr HP Hmin; [by apply elem_of_nil in Hr|].
  apply elem_of_cons in Hr as [<-|Hr]; [by rewrite filter_cons_True|].
  rewrite filter_cons_False.
  - apply IH; [by eapply increasing_tail|done..|]. intros. by apply Hmin; [right|].
  - intros HPx. specialize (Hmin x ltac:(by left) HPx).
    pose proof (increasing_above _ _ _ Hi Hr). lia.
Qed.

Lemma filter_none l : (∀ y, y ∈ l → ¬ P y) → filter P l = [].
Proof.
  intros Hno. destruct (filter P l) as [|y l'] eqn:Hf; [done|].
  assert (y ∈ filter P l) as [HPy Hy]%list_elem_of_filter by (rewrite Hf; by left).
  by destruct (Hno y Hy).
Qed.
End search.

(** C33: the bit-scan routines of the allocator compute what a search among the
    32 powers of two finds: the largest that is at most [x] (none for 0), the
    smallest that is at least [x] (none above 2^31), and the largest that divides
    [x]. *)
Theorem rounding_reference x :
  0 ≤ x < 2 ^ 32 →
  round_down x = last (filter (λ p, p ≤ x) powers) ∧
  (2 ≤ x → round_up x = head (filter (λ p, x ≤ p) powers)) ∧
  (1 ≤ x → addr_size x = last (filter (λ p, (p | x)) powers)).
Proof.
  intros Hx. split_and!.
  - destruct (decide (x = 0)) as [->|Hne]; [by vm_compute|].
    destruct (round_down_spec x ltac:(lia)) as (r & -> & Hr & Hle & Hlt). symmetry.
    apply last_filter; [done|by apply elem_of_powers|done|].
    intros y Hy%elem_of_powers Hyx. destruct (Z.le_gt_cases y r) as [|Hgt]; [done|].
    pose proof (Z.divide_pos_le _ _ (pow2_pos y Hy) (pow2_le_half r y Hr Hy Hgt)). lia.
  - intros Hx2. destruct (Z.le_gt_cases x (2 ^ 31)) as [Hle|Hgt].
    + destruct (round_up_spec x ltac:(lia)) as (r & -> & Hr & Hxr & Hlt). symmetry.
      apply head_filter; [done|by apply elem_of_powers|done|].
      intros y Hy%elem_of_powers Hyx. destruct (Z.le_gt_cases r y) as [|Hgt]; [done|].
      pose proof (Z.divide_pos_le _ _ (pow2_pos r Hr) (pow2_le_half y r Hy Hr Hgt)). lia.
    + rewrite filter_none.
      * unfold round_up, bsr. rewrite u32_small, decide_True by lia. simpl.
        assert (Z.log2 (x - 1) = 31) as ->; [|done].
        apply Z.log2_unique; lia.
      * intros y (k & Hk & ->)%elem_of_powers Hy.
        assert (2 ^ k ≤ 2 ^ 31) by (apply Z.pow_le_mono_r; lia). lia.
  - intros Hx1. destruct (addr_size_spec x ltac:(lia)) as (r & -> & Hr & Hdiv & Hmax). symmetry.
    apply last_filter; [done|by apply elem_of_powers|done|].
    intros y Hy%elem_of_powers Hyx. apply Z.divide_pos_le; [by apply pow2_pos|by apply Hmax].
Qed.

Lemma rounding_reference_witness :
  round_up 100 = Some 128 ∧ round_up 100 = head (filter (λ p, 100 ≤ p) powers).
Proof. split; [reflexivity|]. apply (rounding_reference 100); lia. Defined.
