(* ===== verification/Malloc.v ===== *)
(** * The kernel heap (src/mem/malloc/malloc.c)

    Free memory is a set of power-of-two blocks.  A free block starts with a
    header ([mem_node]) that links it into the circular list of its size class
    and into a hash table keyed by its address, which is how a block being
    freed finds free neighbours to merge with.

    [nodes] holds the headers that have been written.  Headers sit at multiples
    of 16, their size, so two of them never overlap; the contents of allocated
    blocks are not part of the state. *)

From S2P Require Import Prelude HashTable CircularList Bits.
From stdpp Require Import functions.
#[local] Open Scope Z_scope.

Definition SMALLEST_BLOCK : Z := 16.
Definition BLOCK_MASK : Z := 0xf.
Definition LIST_OFFSET : Z := 4.
Definition LARGEST_BLOCK : Z := 1024 * 1024.
Definition HASH_TABLE_SIZE : Z := 256 * 256 - 1.
Definition EMERGENCY_STORE : Z := 0x100000.

Record mem_node := MemNode {
  mn_next : ptr;
  mn_last : ptr;
  mn_hash_next : ptr;
  mn_size : Z;
}.

(** The static variables of malloc.c. *)
Record mstate := MState {
  nodes : gmap ptr mem_node;
  block_lists : list ptr;      (** one list head per size class, [high_list + 1] of them *)
  high_list : Z;
  hash_table : gmap Z ptr;     (** the non-null entries of the array *)
  heap_free : Z;
  m_mutex : bool;
  m_stat_mutex : bool;
}.

Definition set_nodes m s := MState m (block_lists s) (high_list s) (hash_table s)
  (heap_free s) (m_mutex s) (m_stat_mutex s).
Definition set_block_lists l s := MState (nodes s) l (high_list s) (hash_table s)
  (heap_free s) (m_mutex s) (m_stat_mutex s).
Definition set_hash_table h s := MState (nodes s) (block_lists s) (high_list s) h
  (heap_free s) (m_mutex s) (m_stat_mutex s).
Definition set_heap_free n s := MState (nodes s) (block_lists s) (high_list s)
  (hash_table s) n (m_mutex s) (m_stat_mutex s).
Definition set_m_mutex b s := MState (nodes s) (block_lists s) (high_list s)
  (hash_table s) (heap_free s) b (m_stat_mutex s).
Definition set_m_stat_mutex b s := MState (nodes s) (block_lists s) (high_list s)
  (hash_table s) (heap_free s) (m_mutex s) b.

(** ** Accessors: [next(x)], [last(x)], [hash_next(x)], [x->size] *)

Definition next_field : field mstate ptr :=
  node_field nodes set_nodes mn_next
    (λ v n, MemNode v (mn_last n) (mn_hash_next n) (mn_size n)).
Definition last_field : field mstate ptr :=
  node_field nodes set_nodes mn_last
    (λ v n, MemNode (mn_next n) v (mn_hash_next n) (mn_size n)).
Definition hash_next_field : field mstate ptr :=
  node_field nodes set_nodes mn_hash_next
    (λ v n, MemNode (mn_next n) (mn_last n) v (mn_size n)).

Definition get_size (p : ptr) : M mstate Z := getopt (λ s, mn_size <$> nodes s !! p).

(** [((mem_node* )p)->size = v] makes the memory at [p] a header. *)
Definition put_size (p : ptr) (v : Z) : M mstate unit :=
  putopt (λ s,
    if (p =? NULL)%Z then None else
    let n := default (MemNode 0 0 0 0) (nodes s !! p) in
    Some (set_nodes (<[p := MemNode (mn_next n) (mn_last n) (mn_hash_next n) v]> (nodes s)) s)).

(** The two data structures of the free blocks. *)
Definition mem_clist : clist_ops mstate := ClistOps next_field last_field.

(** [PTR_TO_UINT(x)] is a difference of pointers, which is signed. *)
Definition PTR_TO_UINT (x : ptr) : Z := s32 x.

Definition mem_hash : hash_ops mstate ptr := {|
  ht_next := hash_next_field;
  ht_id _ p := Some p;
  ht_eq := Z.eqb;
  ht_hash _ p := Some (PTR_TO_UINT p);
  ht_size := HASH_TABLE_SIZE;
  ht_slot s i := default NULL (hash_table s !! i);
  ht_set_slot i p s := set_hash_table (<[i := p]> (hash_table s)) s;
  ht_fuel s := S (base.size (nodes s));
|}.

Definition mutex_lock := lock m_mutex set_m_mutex.
Definition mutex_unlock := unlock set_m_mutex.
Definition stat_lock := lock m_stat_mutex set_m_stat_mutex.
Definition stat_unlock := unlock set_m_stat_mutex.

(** Pointer arithmetic on [char*]. *)
Definition ptr_add (p n : Z) : ptr := u32 (p + n).
Definition ptr_sub (p n : Z) : ptr := u32 (p - n).

(** [block_lists[list]]: an index outside the array is undefined. *)
Definition list_get (l : Z) : M mstate ptr :=
  getopt (λ s, if decide (0 ≤ l) then block_lists s !! Z.to_nat l else None).
Definition list_put (l : Z) (p : ptr) : M mstate unit :=
  putopt (λ s, if decide (0 ≤ l < Z.of_nat (length (block_lists s)))
               then Some (set_block_lists (<[Z.to_nat l := p]> (block_lists s)) s)
               else None).

(** ** Operations *)

Definition lookup_addr (p : ptr) : M mstate Z :=
  mutex_lock;;
  addr ← hash_table_lookup mem_hash p;
  mutex_unlock;;
  mret addr.

Definition insert_addr (addr : ptr) : M mstate unit :=
  sz ← get_size addr;
  pw ← getopt (λ _, addr_power sz);
  let lst := u32 (pw - LIST_OFFSET) in
  mutex_lock;;
  hd ← list_get lst;
  hd ← clist_insert mem_clist hd addr;
  list_put lst hd;;
  _ ← hash_table_insert mem_hash addr;
  sz ← get_size addr;
  modify (λ s, set_heap_free (u32 (heap_free s + sz)) s);;
  mutex_unlock.

Definition delete_addr_nolock (addr : ptr) : M mstate unit :=
  sz ← get_size addr;
  pw ← getopt (λ _, addr_power sz);
  let lst := u32 (pw - LIST_OFFSET) in
  hd ← clist_delete mem_clist addr;
  list_put lst hd;;
  sz ← get_size addr;
  modify (λ s, set_heap_free (u32 (heap_free s - sz)) s);;
  _ ← hash_table_delete mem_hash addr;
  mret tt.

Definition delete_addr (addr : ptr) : M mstate unit :=
  sz ← get_size addr;
  pw ← getopt (λ _, addr_power sz);
  let lst := u32 (pw - LIST_OFFSET) in
  mutex_lock;;
  hd ← clist_delete mem_clist addr;
  list_put lst hd;;
  _ ← hash_table_delete mem_hash addr;
  sz ← get_size addr;
  modify (λ s, set_heap_free (u32 (heap_free s - sz)) s);;
  mutex_unlock.

(** The loops that absorb free blocks delete one per round. *)
Definition merge_fuel : M mstate nat := gets (λ s, S (S (base.size (nodes s)))).

Definition merge_forward_step (p : ptr) (size : Z) : M mstate (Z + Z) :=
  a ← getopt (λ _, addr_size p);
  if size <? a then
    let forward_ptr := ptr_add p size in
    found ← lookup_addr forward_ptr;
    if negb (found =? 0) then
      delete_addr forward_ptr;;
      fsz ← get_size forward_ptr;
      mret (Continue (u32 (size + fsz)))
    else mret (Break size)
  else mret (Break size).

(** Returns the new value of [*size]. *)
Definition merge_block_forward (p : ptr) (size : Z) : M mstate Z :=
  fuel ← merge_fuel;
  size ← loop fuel (merge_forward_step p) size;
  put_size p size;;
  mret size.

Definition live_merge_step (p : ptr) (limit size : Z) : M mstate (Z + Z) :=
  a ← getopt (λ _, addr_size p);
  if (size <? a) && (size <? limit) then
    let forward_ptr := ptr_add p size in
    found ← lookup_addr forward_ptr;
    if negb (found =? 0) then
      delete_addr forward_ptr;;
      fsz ← get_size forward_ptr;
      mret (Continue (u32 (size + fsz)))
    else mret (Break size)
  else mret (Break size).

Definition live_merge_forward (p : ptr) (size limit : Z) : M mstate Z :=
  fuel ← merge_fuel;
  loop fuel (live_merge_step p limit) size.

Definition merge_block_step (ps : ptr * Z) : M mstate ((ptr * Z) + ptr) :=
  let '(p, size) := ps in
  if negb (size <? LARGEST_BLOCK) then mret (Break p) else
  size ← merge_block_forward p size;
  a ← getopt (λ _, addr_size p);
  if size =? a then
    let back_ptr := ptr_sub p size in
    found ← lookup_addr back_ptr;
    mergeable ← (if negb (found =? 0) then
                   bsz ← get_size back_ptr;
                   mret ((bsz =? size) && (size <? LARGEST_BLOCK))
                 else mret false);
    if (mergeable : bool) then
      delete_addr back_ptr;;
      bsz ← get_size back_ptr;
      put_size back_ptr (u32 (bsz * 2));;
      bsz ← get_size back_ptr;
      mret (Continue (back_ptr, bsz))
    else mret (Break p)
  else mret (Break p).

Definition merge_block (p : ptr) (size : Z) : M mstate ptr :=
  fuel ← merge_fuel;
  loop fuel merge_block_step (p, size).

(** One piece broken off the end of a block; a word has 32 bits, so there are
    at most 32 pieces. *)
Definition split_step (fd : ptr * Z) : M mstate ((ptr * Z) + Z) :=
  let '(front_ptr, diff) := fd in
  if SMALLEST_BLOCK <=? diff then
    pow_size ← getopt (λ _, round_down diff);
    let front_ptr := ptr_sub front_ptr pow_size in
    let diff := u32 (diff - pow_size) in
    put_size front_ptr pow_size;;
    insert_addr front_ptr;;
    mret (Continue (front_ptr, diff))
  else mret (Break diff).

Definition split_block (p : ptr) (size min_size : Z) : M mstate Z :=
  diff ← loop 33 split_step (ptr_add p size, u32 (size - min_size));
  stat_lock;;
  stat_unlock;;
  mret (u32 (min_size + diff)).

(** [for(; list <= high_list; list++)] *)
Definition acquire_step (lst : Z) : M mstate (Z + ptr) :=
  high ← gets high_list;
  if lst <=? high then
    mutex_lock;;
    hd ← list_get lst;
    if negb (hd =? NULL) then
      hd ← list_get lst;
      out ← load last_field hd;
      delete_addr_nolock out;;
      mutex_unlock;;
      mret (Break out)
    else
      mutex_unlock;;
      mret (Continue (u32 (lst + 1)))
  else mret (Break NULL).

Definition acquire_block (size : Z) : M mstate ptr :=
  pw ← getopt (λ _, ilog size);
  high ← gets high_list;
  loop (S (S (Z.to_nat high))) acquire_step (u32 (pw - LIST_OFFSET)).

Definition setup_block (p : ptr) (size : Z) : M mstate (ptr * Z) :=
  bsz ← get_size p;
  size ← split_block p bsz size;
  mret (p, size).

(** src/sys/util.c: there are no caches to empty yet. *)
Definition empty_caches : M mstate unit := mret tt.

(** Returns the block and the new value of [*size]. *)
Definition kern_malloc (size priority : Z) : M mstate (ptr * Z) :=
  block_size ← getopt (λ _, round_up size);
  stat_lock;;
  free ← gets heap_free;
  if (block_size <=? u32 (free - EMERGENCY_STORE)) || negb (priority =? 0) then
    stat_unlock;;
    out ← acquire_block block_size;
    if negb (out =? NULL) then setup_block out size
    else
      empty_caches;;
      out ← acquire_block block_size;
      if negb (out =? NULL) then setup_block out size
      else mret (NULL, size)
  else
    stat_unlock;;
    empty_caches;;
    stat_lock;;
    free ← gets heap_free;
    out ← (if block_size <=? u32 (free - EMERGENCY_STORE)
           then acquire_block block_size else mret NULL);
    if negb (out =? NULL) then
      stat_unlock;;
      setup_block out size
    else
      stat_unlock;;
      mret (NULL, size).

(** One round of the insertion loop of [kern_free]; the state is [(ptr, i)]. *)
Definition free_step (size : Z) (pi : ptr * Z) : M mstate ((ptr * Z) + unit) :=
  let '(p, i) := pi in
  if i <? size then
    r ← getopt (λ _, round_down (u32 (size - i)));
    let pow_size := if LARGEST_BLOCK <? r then LARGEST_BLOCK else r in
    put_size p pow_size;;
    insert_addr p;;
    mret (Continue (ptr_add p pow_size, u32 (i + pow_size)))
  else mret (Break tt).

Definition kern_free (p : ptr) (size : Z) : M mstate unit :=
  if negb (p =? NULL) && negb (size =? 0) then
    put_size p size;;
    p ← merge_block p size;
    size ← get_size p;
    loop (S (Z.to_nat (size / SMALLEST_BLOCK))) (free_step size) (p, 0);;
    stat_lock;;
    stat_unlock
  else mret tt.

(** ** Laws of the accessors *)

Global Instance nodes_lens : LensOk nodes set_nodes.
Proof. by split. Qed.

Global Instance mem_clist_ok : ClistOk mem_clist.
Proof.
  split; simpl; try (by apply node_field_ok);
    by apply node_field_indep.
Qed.

Global Instance mem_hash_ok : HashOk mem_hash.
Proof.
  split; simpl; try done.
  - by apply node_field_ok.
  - intros i. by apply node_field_stable.
  - intros i p s. by rewrite lookup_insert_eq.
  - intros i j p s Hij. by rewrite lookup_insert_ne.
  - intros s l Hnd Hl. apply Nat.lt_succ_r.
    rewrite <-size_dom. rewrite <-(size_list_to_set (C:=gset ptr) l) by done.
    apply subseteq_size. intros x Hx%elem_of_list_to_set.
    apply elem_of_dom. specialize (Hl x Hx). destruct (nodes s !! x); [eauto|].
    by destruct Hl.
Qed.

Lemma mem_index s p : 0 ≤ p < 2 ^ 31 → is_Some (index_of mem_hash s p).
Proof.
  intros Hp. eexists. apply (index_unsigned mem_hash); [done|].
  unfold PTR_TO_UINT. rewrite s32_small by lia. lia.
Qed.

Global Instance mem_hash_eq : HashEq mem_hash.
Proof. intros a b. apply Z.eqb_eq. Qed.

(** What the two data structures leave alone. *)
Section frames.
Implicit Types s : mstate.

Global Instance hash_frame_next x : HashFrame mem_hash (λ s, fget next_field s x).
Proof. split; [by apply node_field_indep|done]. Qed.
Global Instance hash_frame_last x : HashFrame mem_hash (λ s, fget last_field s x).
Proof. split; [by apply node_field_indep|done]. Qed.
Global Instance clist_frame_hash x : ClistFrame mem_clist (λ s, fget hash_next_field s x).
Proof. split; by apply node_field_indep. Qed.

Definition size_field : field mstate Z :=
  node_field nodes set_nodes mn_size
    (λ v n, MemNode (mn_next n) (mn_last n) (mn_hash_next n) v).

Global Instance hash_frame_size x : HashFrame mem_hash (λ s, fget size_field s x).
Proof. split; [by apply node_field_indep|done]. Qed.
Global Instance clist_frame_size x : ClistFrame mem_clist (λ s, fget size_field s x).
Proof. split; by apply node_field_indep. Qed.

(** The variables that are neither headers nor bucket heads. *)
Definition globals (s : mstate) :=
  (block_lists s, high_list s, heap_free s, m_mutex s, m_stat_mutex s).

Global Instance hash_frame_globals : HashFrame mem_hash globals.
Proof. split; [by apply node_field_stable|done]. Qed.
Global Instance clist_frame_globals : ClistFrame mem_clist globals.
Proof. split; by apply node_field_stable. Qed.
Global Instance clist_frame_table : ClistFrame mem_clist hash_table.
Proof. split; by apply node_field_stable. Qed.
End frames.

(** ** The representation of the set of free blocks *)

(** [fb] maps the address of every free block to its size. *)
Implicit Types fb : gmap ptr Z.

Definition total_free (fb : gmap ptr Z) : Z := map_fold (λ _ sz acc, sz + acc) 0 fb.

(** The hash table maps every free block's address to itself. *)
Definition self_map (fb : gmap ptr Z) : gmap ptr ptr := map_imap (λ p _, Some p) fb.

(** The hash of an address in the upper half of memory is negative and has no
    bucket: the heap has to lie in the lower half. *)
Abbreviation LOW_END := (2 ^ 31) (only parsing).

Record block_ok (s : mstate) (p sz : Z) : Prop := {
  bk_pos : 0 < p;
  bk_align : (sz | p);
  bk_end : p + sz ≤ LOW_END;
  bk_class : ∃ i : nat, (i < length (block_lists s))%nat ∧ sz = 2 ^ (Z.of_nat i + 4);
}.

Lemma block_low s p sz : block_ok s p sz → 0 ≤ p < LOW_END.
Proof.
  intros [Hp _ He (i & _ & ->)]. pose proof (Z.pow_pos_nonneg 2 (Z.of_nat i + 4)). lia.
Qed.

Definition disjoint_from (fb : gmap ptr Z) (p sz : Z) : Prop :=
  ∀ q sq, fb !! q = Some sq → p + sz ≤ q ∨ q + sq ≤ p.

Record malloc_rep (s : mstate) (fb : gmap ptr Z) (F : nat → list ptr) : Prop := {
  mr_high : 16 ≤ high_list s ≤ 27;   (** up to [LARGEST_BLOCK], within a word *)
  mr_len : length (block_lists s) = S (Z.to_nat (high_list s));
  mr_clist i hd : block_lists s !! i = Some hd → clist mem_clist s hd (F i);
  mr_class i p : (i < length (block_lists s))%nat →
    p ∈ F i ↔ fb !! p = Some (2 ^ (Z.of_nat i + 4));
  mr_hash : refines_map mem_hash s (self_map fb);
  mr_block p sz : fb !! p = Some sz → block_ok s p sz;
  mr_size p sz : fb !! p = Some sz → fget size_field s p = Some sz;
  mr_disj p sz : fb !! p = Some sz → disjoint_from (delete p fb) p sz;
  mr_free : heap_free s = u32 (total_free fb);
}.

Definition malloc_inv (s : mstate) (fb : gmap ptr Z) : Prop :=
  m_mutex s = false ∧ ∃ F, malloc_rep s fb F.

(** What no operation on the free blocks changes: the number of size classes,
    the other lock and the sizes recorded in the headers. *)
Definition same_env (s s' : mstate) : Prop :=
  high_list s' = high_list s ∧ m_stat_mutex s' = m_stat_mutex s ∧
  length (block_lists s') = length (block_lists s).
Definition same_sizes (s s' : mstate) : Prop :=
  ∀ q, fget size_field s' q = fget size_field s q.

Lemma same_env_refl s : same_env s s.
Proof. done. Qed.
Lemma same_env_trans s1 s2 s3 : same_env s1 s2 → same_env s2 s3 → same_env s1 s3.
Proof. intros (?&?&?) (?&?&?). split_and!; congruence. Qed.
#[export] Hint Resolve same_env_refl : kernel.

Lemma self_map_lookup fb k p : self_map fb !! k = Some p ↔ k = p ∧ is_Some (fb !! k).
Proof.
  unfold self_map. rewrite map_lookup_imap. destruct (fb !! k); simpl; naive_solver.
Qed.

Lemma self_map_default fb p : p ≠ 0 →
  (default NULL (self_map fb !! p) =? 0) = negb (bool_decide (is_Some (fb !! p))).
Proof.
  intros Hp. destruct (self_map fb !! p) as [q|] eqn:Hq.
  - apply self_map_lookup in Hq as [-> Hq]. rewrite bool_decide_eq_true_2 by done.
    simpl. by apply Z.eqb_neq.
  - rewrite bool_decide_eq_false_2; [done|]. intros Hs.
    assert (self_map fb !! p = Some p) by (by apply self_map_lookup). congruence.
Qed.

Lemma self_map_insert fb p sz : self_map (<[p:=sz]> fb) = <[p:=p]> (self_map fb).
Proof. unfold self_map. by rewrite (map_imap_insert _ _ _ _). Qed.

Lemma self_map_delete fb p : self_map (delete p fb) = delete p (self_map fb).
Proof. unfold self_map. by rewrite map_imap_delete. Qed.

Lemma total_free_insert fb p sz :
  fb !! p = None → total_free (<[p:=sz]> fb) = sz + total_free fb.
Proof.
  intros Hp. unfold total_free.
  rewrite (map_fold_insert_L (λ _ sz acc, sz + acc)); [done| |done]. intros. lia.
Qed.

Lemma total_free_delete fb p sz :
  fb !! p = Some sz → total_free fb = sz + total_free (delete p fb).
Proof.
  intros Hp. rewrite <-(insert_delete_id fb p sz) at 1 by done.
  apply total_free_insert. apply lookup_delete_eq.
Qed.

(** ** Single steps *)

Section steps.
Implicit Types s : mstate.

Lemma wp_get_size s p sz (Q : Z → mstate → Prop) :
  fget size_field s p = Some sz → Q sz s → wp (get_size p) Q s.
Proof. intros Hs HQ. by apply (wp_getopt (λ s, mn_size <$> nodes s !! p) sz). Qed.

Lemma wp_list_get s (i : nat) hd (Q : ptr → mstate → Prop) :
  block_lists s !! i = Some hd → Q hd s → wp (list_get (Z.of_nat i)) Q s.
Proof.
  intros Hhd HQ. eapply wp_getopt; [|done].
  by rewrite decide_True, Nat2Z.id by lia.
Qed.

Lemma wp_list_put s (i : nat) hd (Q : unit → mstate → Prop) :
  (i < length (block_lists s))%nat →
  Q tt (set_block_lists (<[i := hd]> (block_lists s)) s) →
  wp (list_put (Z.of_nat i) hd) Q s.
Proof.
  intros Hi HQ. eapply wp_putopt; [|exact HQ].
  by rewrite decide_True, Nat2Z.id by lia.
Qed.

Lemma next_valid s p : is_Some (fget size_field s p) →
  is_Some (fget next_field s p) ∧ is_Some (fget last_field s p) ∧
  is_Some (fget hash_next_field s p).
Proof. simpl. intros [? ?]. destruct (nodes s !! p); [eauto|done]. Qed.

(** The list index computed from the size of a block. *)
Lemma class_index (i : nat) :
  (i < 28)%nat → u32 (Z.of_nat i + 4 - LIST_OFFSET) = Z.of_nat i.
Proof.
  intros Hi. unfold LIST_OFFSET. rewrite u32_small; lia.
Qed.

Lemma class_inj (i j : nat) : 2 ^ (Z.of_nat i + 4) = 2 ^ (Z.of_nat j + 4) → i = j.
Proof. intros Heq. apply Z.pow_inj_r in Heq; lia. Qed.

Lemma class_pow2 (i : nat) : (i < 28)%nat → pow2 (2 ^ (Z.of_nat i + 4)).
Proof. intros Hi. eexists. split; [|done]. lia. Qed.

Lemma class_ge (i : nat) : 16 ≤ 2 ^ (Z.of_nat i + 4).
Proof. change 16 with (2 ^ 4). apply Z.pow_le_mono_r; lia. Qed.

Lemma rep_len s fb F i : malloc_rep s fb F → (i < length (block_lists s))%nat → (i < 28)%nat.
Proof. intros [Hh Hl _ _ _ _ _ _ _]. lia. Qed.

Lemma rep_F_disjoint s fb F i j x :
  malloc_rep s fb F → (i < length (block_lists s))%nat →
  (j < length (block_lists s))%nat → x ∈ F i → x ∈ F j → i = j.
Proof.
  intros Hr Hi Hj Hxi Hxj. apply (mr_class _ _ _ Hr) in Hxi, Hxj; [|done..].
  apply class_inj. congruence.
Qed.

Lemma sizes_hash s s' : hash_only mem_hash s s' → same_sizes s s'.
Proof. intros Ho q. apply (Ho _ (λ s, fget size_field s q) _). Qed.

Lemma globals_eq s s' : globals s' = globals s →
  block_lists s' = block_lists s ∧ high_list s' = high_list s ∧
  heap_free s' = heap_free s ∧ m_mutex s' = m_mutex s ∧
  m_stat_mutex s' = m_stat_mutex s.
Proof. unfold globals. intros [=]. done. Qed.

(** Blocks are determined by their addresses. *)
Lemma block_ok_env s s' p sz :
  length (block_lists s') = length (block_lists s) → block_ok s p sz → block_ok s' p sz.
Proof. intros Hl [? ? ? ?]. split; try done. by rewrite Hl. Qed.

Lemma disjoint_insert fb p sz q sq :
  disjoint_from fb p sz → fb !! p = None →
  <[p := sz]> fb !! q = Some sq → (∀ q sq, fb !! q = Some sq → disjoint_from (delete q fb) q sq) →
  disjoint_from (delete q (<[p := sz]> fb)) q sq.
Proof.
  intros Hd Hp Hq Hall r sr. destruct (decide (p = q)) as [<-|Hne].
  - rewrite lookup_insert_eq in Hq. simplify_eq.
    rewrite delete_insert_id by done. apply Hd.
  - rewrite lookup_insert_ne in Hq by done.
    rewrite lookup_delete_Some. intros [Hqr Hr].
    destruct (decide (p = r)) as [<-|Hpr].
    + rewrite lookup_insert_eq in Hr. simplify_eq. destruct (Hd q sq Hq); lia.
    + rewrite lookup_insert_ne in Hr by done.
      apply (Hall q sq Hq). by rewrite lookup_delete_ne.
Qed.

Lemma insert_addr_spec s fb p sz :
  malloc_inv s fb → block_ok s p sz → fget size_field s p = Some sz →
  fb !! p = None → disjoint_from fb p sz →
  wp (insert_addr p)
     (λ _ s', malloc_inv s' (<[p := sz]> fb) ∧ same_env s s' ∧ same_sizes s s') s.
Proof.
  intros [Hm [F Hr]] Hb Hsz Hfresh Hdisj. pose proof Hb as [Hpos Hal Hend (i & Hi & Hcl)].
  assert (i < 28)%nat as Hi28 by (by eapply rep_len).
  destruct (lookup_lt_is_Some_2 _ _ Hi) as [hd Hhd].
  destruct (next_valid s p) as (Hvn & Hvl & Hvh); [eauto|].
  assert (∀ j, (j < length (block_lists s))%nat → p ∉ F j) as Hout.
  { intros j Hj Hin. apply (mr_class _ _ _ Hr) in Hin; [|done]. congruence. }
  apply wp_bind. eapply wp_get_size; [done|].
  apply wp_bind, (wp_getopt _ (Z.of_nat i + 4)); [by rewrite Hcl, addr_power_pow2 by lia|].
  rewrite class_index by done.
  apply wp_bind, wp_lock; [done|].
  apply wp_bind. eapply wp_list_get; [done|].
  apply wp_bind. eapply wp_mono.
  { apply (clist_insert_spec mem_clist (set_m_mutex true s) hd (F i) p);
      [apply (clist_frame mem_clist s); [done|exact (mr_clist _ _ _ Hr i hd Hhd)]
      |unfold NULL; lia|by apply Hout|exact Hvn|exact Hvl]. }
  intros hd' s1 (-> & Hc1 & Ho1).
  destruct Ho1 as [Ho1 Hfr1].
  pose proof (globals_eq _ _ (Ho1 _ globals _)) as Hg1.
  destruct Hg1 as (Hbl1 & Hh1 & Hf1 & Hm1 & Hst1). simpl in Hbl1, Hh1, Hf1, Hm1, Hst1.
  apply wp_bind, wp_list_put; [by rewrite Hbl1|].
  set (s2 := set_block_lists _ s1).
  assert (fget size_field s2 p = Some sz) as Hsz2.
  { change (fget size_field s1 p = Some sz). by rewrite (Ho1 _ (λ s, fget size_field s p) _). }
  assert (refines_map mem_hash s2 (self_map fb)) as Hh2.
  { eapply refines_frame; [apply (mr_hash _ _ _ Hr)| | |done].
    - intros j. simpl. change (hash_table s2) with (hash_table s1).
      by rewrite (Ho1 _ hash_table _).
    - intros k q _. split; [|done]. apply (Ho1 _ (λ s, fget hash_next_field s q) _). }
  apply wp_bind. eapply wp_mono.
  { apply (insert_refines mem_hash s2 (self_map fb) p p); try done.
    - unfold NULL. lia.
    - apply (next_valid s2). eauto.
    - by apply mem_index, (block_low s p sz).
    - destruct (self_map fb !! p) as [q|] eqn:Hq; [|done].
      apply self_map_lookup in Hq as [_ [? ?]]. congruence. }
  intros _ s3 (_ & Ho3 & _ & Hh3).
  destruct (globals_eq _ _ (Ho3 _ globals _)) as (Hbl3 & Hhi3 & Hf3 & Hm3 & Hst3).
  simpl in Hbl3, Hhi3, Hf3, Hm3, Hst3.
  pose proof (sizes_hash _ _ Ho3) as Hss3.
  apply wp_bind. eapply wp_get_size; [by rewrite Hss3|].
  apply wp_bind, wp_modify. apply wp_unlock.
  assert (same_sizes s s3) as Hss.
  { intros q. rewrite Hss3. apply (Ho1 _ (λ s, fget size_field s q) _). }
  split_and!; [|split_and!; simpl; rewrite ?Hbl3, ?Hbl1, ?length_insert; congruence|exact Hss].
  set (s4 := set_m_mutex false _).
  assert (∀ hdj l, clist mem_clist s1 hdj l → clist mem_clist s4 hdj l) as H14.
  { intros hdj l. apply clist_frame. intros x _.
    split; [exact (Ho3 _ (λ s, fget next_field s x) _)|
            exact (Ho3 _ (λ s, fget last_field s x) _)]. }
  split; [done|]. exists (<[i := p :: F i]> F). split; simpl.
  - rewrite Hhi3, Hh1. by apply mr_high with fb F.
  - rewrite Hbl3, length_insert, Hbl1, Hhi3, Hh1. by eapply mr_len.
  - intros j hdj Hj. rewrite Hbl3, Hbl1 in Hj.
    destruct (decide (i = j)) as [<-|Hne].
    + rewrite list_lookup_insert_eq in Hj by done. injection Hj as <-.
      rewrite fn_lookup_insert. by apply H14.
    + rewrite list_lookup_insert_ne in Hj by done.
      rewrite fn_lookup_insert_ne by done. apply H14.
      apply (clist_frame mem_clist s); [|by apply (mr_clist _ _ _ Hr)].
      intros x Hx. apply lookup_lt_Some in Hj.
      apply Hfr1. intros [->|Hxi]%elem_of_cons; [by apply (Hout j)|].
      apply Hne. by eapply rep_F_disjoint.
  - intros j q. rewrite Hbl3, length_insert, Hbl1. intros Hj.
    destruct (decide (i = j)) as [<-|Hne].
    + rewrite fn_lookup_insert, elem_of_cons, (mr_class _ _ _ Hr), <-Hcl by done.
      destruct (decide (p = q)) as [<-|Hpq].
      * rewrite lookup_insert_eq. naive_solver.
      * rewrite lookup_insert_ne by done. naive_solver.
    + rewrite fn_lookup_insert_ne, (mr_class _ _ _ Hr) by done.
      destruct (decide (p = q)) as [<-|Hpq]; [|by rewrite lookup_insert_ne].
      rewrite lookup_insert_eq, Hfresh, Hcl. split; [done|].
      intros [= Heq]. apply class_inj in Heq. done.
  - rewrite self_map_insert. eapply refines_frame; [exact Hh3|done..].
  - intros q sq Hq. eapply (block_ok_env s).
    { simpl. by rewrite Hbl3, length_insert, Hbl1. }
    destruct (decide (p = q)) as [<-|Hpq].
    + rewrite lookup_insert_eq in Hq. by simplify_eq.
    + rewrite lookup_insert_ne in Hq by done. by apply (mr_block _ _ _ Hr).
  - intros q sq Hq. change (fget size_field s3 q = Some sq). rewrite Hss.
    destruct (decide (p = q)) as [<-|Hpq].
    + rewrite lookup_insert_eq in Hq. by simplify_eq.
    + rewrite lookup_insert_ne in Hq by done. by apply (mr_size _ _ _ Hr).
  - intros q sq Hq. apply disjoint_insert; try done. by apply (mr_disj _ _ _ Hr).
  - rewrite Hf3, Hf1, total_free_insert, (mr_free _ _ _ Hr) by done.
    unfold u32. rewrite Zplus_mod_idemp_l. f_equal. lia.
Qed.
(** The representation looks at the data of the allocator only. *)
Lemma rep_ext s s' fb F :
  nodes s' = nodes s → block_lists s' = block_lists s → high_list s' = high_list s →
  hash_table s' = hash_table s → heap_free s' = heap_free s →
  malloc_rep s fb F → malloc_rep s' fb F.
Proof.
  intros Hn Hb Hh Ht Hf Hr. destruct s, s'; simpl in *; subst.
  destruct Hr as [? ? Hc ? Hhash Hblk ? ? ?]. split; try done.
  - intros i hd Hi. eapply clist_frame; [|by apply Hc]. done.
  - eapply refines_frame; [exact Hhash|done..].
  - intros p sz Hp. by eapply block_ok_env, Hblk.
Qed.

(** Taking one block out of the lists, the hash table and the total. *)
Lemma rep_delete s s' fb F p sz i l1 l2 hd' :
  malloc_rep s fb F → fb !! p = Some sz → sz = 2 ^ (Z.of_nat i + 4) →
  (i < length (block_lists s))%nat → F i = l1 ++ p :: l2 →
  block_lists s' = <[i := hd']> (block_lists s) → high_list s' = high_list s →
  clist mem_clist s' hd' (l2 ++ l1) →
  (∀ x, x ∉ F i → fget next_field s' x = fget next_field s x ∧
                  fget last_field s' x = fget last_field s x) →
  refines_map mem_hash s' (delete p (self_map fb)) →
  same_sizes s s' → heap_free s' = u32 (heap_free s - sz) →
  malloc_rep s' (delete p fb) (<[i := l2 ++ l1]> F).
Proof.
  intros Hr Hp Hcl Hi HF Hbl Hhi Hc' Hfr Hh Hss Hf.
  destruct (lookup_lt_is_Some_2 _ _ Hi) as [hd Hhd].
  assert (NoDup (l1 ++ p :: l2)) as Hnd.
  { rewrite <-HF. apply (mr_clist _ _ _ Hr i hd Hhd). }
  assert (p ∉ l2 ++ l1) as Hpn.
  { rewrite <-Permutation_middle in Hnd. inversion Hnd as [|?? Hpn _]; subst.
    by rewrite Permutation_app_comm. }
  split.
  - rewrite Hhi. by eapply mr_high.
  - rewrite Hbl, length_insert, Hhi. by eapply mr_len.
  - intros j hdj Hj. rewrite Hbl in Hj. destruct (decide (i = j)) as [<-|Hne].
    + rewrite list_lookup_insert_eq in Hj by done. injection Hj as <-.
      by rewrite fn_lookup_insert.
    + rewrite list_lookup_insert_ne in Hj by done. rewrite fn_lookup_insert_ne by done.
      apply (clist_frame mem_clist s); [|by apply (mr_clist _ _ _ Hr)].
      intros x Hx. apply Hfr. intros Hxi. apply lookup_lt_Some in Hj.
      apply Hne. by eapply rep_F_disjoint.
  - intros j q. rewrite Hbl, length_insert. intros Hj.
    rewrite lookup_delete_Some. destruct (decide (i = j)) as [<-|Hne].
    + rewrite fn_lookup_insert, <-(mr_class _ _ _ Hr), HF by done.
      rewrite !elem_of_app, elem_of_cons. split; [|naive_solver].
      intros Hq. split; [|naive_solver]. intros <-. apply Hpn. set_solver.
    + rewrite fn_lookup_insert_ne, (mr_class _ _ _ Hr) by done.
      split; [|naive_solver]. intros Hq. split; [|done]. intros <-.
      apply Hne, class_inj. congruence.
  - by rewrite self_map_delete.
  - intros q sq [_ Hq]%lookup_delete_Some. eapply (block_ok_env s).
    + by rewrite Hbl, length_insert.
    + by apply (mr_block _ _ _ Hr).
  - intros q sq [_ Hq]%lookup_delete_Some. rewrite Hss. by apply (mr_size _ _ _ Hr).
  - intros q sq [_ Hq]%lookup_delete_Some r sr.
    rewrite delete_delete. intros [_ Hrr]%lookup_delete_Some.
    by apply (mr_disj _ _ _ Hr q sq Hq).
  - rewrite Hf, (mr_free _ _ _ Hr), (total_free_delete fb p sz) by done.
    unfold u32. rewrite Zminus_mod_idemp_l. f_equal. lia.
Qed.

(** Where a free block is. *)
Lemma rep_block s fb F p sz :
  malloc_rep s fb F → fb !! p = Some sz →
  ∃ i hd l1 l2, (i < 28)%nat ∧ sz = 2 ^ (Z.of_nat i + 4) ∧
    block_lists s !! i = Some hd ∧ F i = l1 ++ p :: l2 ∧
    clist mem_clist s hd (l1 ++ p :: l2) ∧ fget size_field s p = Some sz.
Proof.
  intros Hr Hp. destruct (mr_block _ _ _ Hr p sz Hp) as [_ _ _ (i & Hi & ->)].
  destruct (lookup_lt_is_Some_2 _ _ Hi) as [hd Hhd].
  apply (mr_class _ _ _ Hr) in Hp as HpF; [|done].
  apply list_elem_of_split in HpF as (l1 & l2 & HF).
  exists i, hd, l1, l2. split_and!; [by eapply rep_len|done..| |by apply (mr_size _ _ _ Hr)].
  rewrite <-HF. by apply (mr_clist _ _ _ Hr).
Qed.

Lemma delete_hash_table s fb F s1 p hd l :
  malloc_rep s fb F → clist_only mem_clist s s1 l → 0 ≤ p < LOW_END →
  wp (hash_table_delete mem_hash p)
     (λ _ s3, hash_only mem_hash (set_block_lists hd s1) s3 ∧
              refines_map mem_hash s3 (delete p (self_map fb)))
     (set_block_lists hd s1).
Proof.
  intros Hr [Ho1 _] Hp.
  eapply wp_mono; [apply (delete_refines mem_hash _ (self_map fb) p)|];
    [|by apply mem_index|by intros r s3 (_ & ? & _ & ?)].
  eapply refines_frame; [apply (mr_hash _ _ _ Hr)| | |done].
  - intros j. simpl. change (hash_table (set_block_lists hd s1)) with (hash_table s1).
    by rewrite (Ho1 _ hash_table _).
  - intros k q _. split; [|done]. apply (Ho1 _ (λ s, fget hash_next_field s q) _).
Qed.

Lemma delete_addr_nolock_spec s fb F p sz :
  malloc_rep s fb F → fb !! p = Some sz →
  wp (delete_addr_nolock p)
     (λ _ s', (∃ F', malloc_rep s' (delete p fb) F') ∧ m_mutex s' = m_mutex s ∧
              same_env s s' ∧ same_sizes s s') s.
Proof.
  intros Hr Hp. pose proof (block_low _ _ _ (mr_block _ _ _ Hr p sz Hp)) as Hlow.
  destruct (rep_block _ _ _ _ _ Hr Hp)
    as (i & hd & l1 & l2 & Hi28 & Hcl & Hhd & HF & Hc & Hsz).
  assert (i < length (block_lists s))%nat as Hi by (by apply lookup_lt_Some in Hhd).
  apply wp_bind. eapply wp_get_size; [done|].
  apply wp_bind, (wp_getopt _ (Z.of_nat i + 4)); [by rewrite Hcl, addr_power_pow2 by lia|].
  rewrite class_index by done.
  apply wp_bind. eapply wp_mono; [by apply (clist_delete_mid mem_clist s hd l1 p l2)|].
  intros hd' s1 (_ & Hc1 & Honly). pose proof Honly as [Ho1 Hfr1].
  destruct (globals_eq _ _ (Ho1 _ globals _)) as (Hbl1 & Hh1 & Hf1 & Hm1 & Hst1).
  apply wp_bind, wp_list_put; [by rewrite Hbl1|].
  assert (same_sizes s s1) as Hss1.
  { intros q. apply (Ho1 _ (λ s, fget size_field s q) _). }
  apply wp_bind. eapply wp_get_size; [by rewrite <-Hsz; apply Hss1|].
  apply wp_bind, wp_modify, wp_bind. simpl.
  set (s2 := set_heap_free _ _).
  eapply wp_mono.
  { apply (delete_refines mem_hash s2 (self_map fb) p); [|by apply mem_index].
    eapply refines_frame; [apply (mr_hash _ _ _ Hr)| | |done].
    - intros j. simpl. change (hash_table s2) with (hash_table s1).
      by rewrite (Ho1 _ hash_table _).
    - intros k q _. split; [|done]. apply (Ho1 _ (λ s, fget hash_next_field s q) _). }
  intros _ s3 (_ & Ho3 & _ & Hh3). apply wp_ret.
  destruct (globals_eq _ _ (Ho3 _ globals _)) as (Hbl3 & Hhi3 & Hf3 & Hm3 & Hst3).
  simpl in Hbl3, Hhi3, Hf3, Hm3, Hst3.
  assert (same_sizes s s3) as Hss.
  { intros q. rewrite (sizes_hash _ _ Ho3). apply Hss1. }
  split_and!; [|congruence| |done].
  - eexists. eapply (rep_delete s s3); try done.
    + by rewrite Hbl3, Hbl1.
    + congruence.
    + eapply clist_frame; [|exact Hc1]. intros x _.
      split; [exact (Ho3 _ (λ s, fget next_field s x) _)|
              exact (Ho3 _ (λ s, fget last_field s x) _)].
    + intros x Hx. rewrite HF in Hx. destruct (Hfr1 x Hx) as [H1 H2].
      split; [etransitivity; [exact (Ho3 _ (λ s, fget next_field s x) _)|exact H1]|
              etransitivity; [exact (Ho3 _ (λ s, fget last_field s x) _)|exact H2]].
    + by rewrite Hf3, Hf1.
  - split_and!; [congruence..|]. by rewrite Hbl3, length_insert, Hbl1.
Qed.

(** [delete_addr] does the same two deletions the other way round, under
    the lock. *)
Lemma delete_addr_spec s fb p sz :
  malloc_inv s fb → fb !! p = Some sz →
  wp (delete_addr p)
     (λ _ s', malloc_inv s' (delete p fb) ∧ same_env s s' ∧ same_sizes s s') s.
Proof.
  intros [Hm [F Hr]] Hp.
  pose proof (block_low _ _ _ (mr_block _ _ _ Hr p sz Hp)) as Hlow.
  destruct (rep_block _ _ _ _ _ Hr Hp)
    as (i & hd & l1 & l2 & Hi28 & Hcl & Hhd & HF & Hc & Hsz).
  assert (i < length (block_lists s))%nat as Hi by (by apply lookup_lt_Some in Hhd).
  apply wp_bind. eapply wp_get_size; [done|].
  apply wp_bind, (wp_getopt _ (Z.of_nat i + 4)); [by rewrite Hcl, addr_power_pow2 by lia|].
  rewrite class_index by done.
  apply wp_bind, wp_lock; [done|].
  assert (malloc_rep (set_m_mutex true s) fb F) as Hr' by (by apply (rep_ext s)).
  apply wp_bind. eapply wp_mono.
  { apply (clist_delete_mid mem_clist (set_m_mutex true s) hd l1 p l2).
    rewrite <-HF. by apply (mr_clist _ _ _ Hr' i). }
  intros hd' s1 (_ & Hc1 & Honly). pose proof Honly as [Ho1 Hfr1].
  destruct (globals_eq _ _ (Ho1 _ globals _)) as (Hbl1 & Hh1 & Hf1 & Hm1 & Hst1).
  simpl in Hbl1, Hh1, Hf1, Hm1, Hst1.
  apply wp_bind, wp_list_put; [by rewrite Hbl1|].
  apply wp_bind. eapply wp_mono; [eapply (delete_hash_table _ _ _ _ _ _ _ Hr' Honly)|].
  { done. }
  intros _ s3 (Ho3 & Hh3).
  destruct (globals_eq _ _ (Ho3 _ globals _)) as (Hbl3 & Hhi3 & Hf3 & Hm3 & Hst3).
  simpl in Hbl3, Hhi3, Hf3, Hm3, Hst3.
  assert (same_sizes s s3) as Hss.
  { intros q. rewrite (sizes_hash _ _ Ho3). apply (Ho1 _ (λ s, fget size_field s q) _). }
  apply wp_bind. eapply wp_get_size; [by rewrite Hss|].
  apply wp_bind, wp_modify, wp_unlock. set (s4 := set_m_mutex false _).
  split_and!; [|split_and!; simpl; [congruence..|]; by rewrite Hbl3, length_insert, Hbl1
               |exact Hss].
  split; [done|]. eexists. eapply (rep_delete s s4); try done.
  - simpl. by rewrite Hbl3, Hbl1.
  - simpl. congruence.
  - eapply clist_frame; [|exact Hc1]. intros x _.
    split; [exact (Ho3 _ (λ s, fget next_field s x) _)|
            exact (Ho3 _ (λ s, fget last_field s x) _)].
  - intros x Hx. rewrite HF in Hx. destruct (Hfr1 x Hx) as [H1 H2].
    split; [etransitivity; [exact (Ho3 _ (λ s, fget next_field s x) _)|exact H1]|
            etransitivity; [exact (Ho3 _ (λ s, fget last_field s x) _)|exact H2]].
  - eapply refines_frame; [exact Hh3|done..].
  - simpl. by rewrite Hf3, Hf1.
Qed.

Lemma lookup_addr_spec s fb p :
  malloc_inv s fb → 0 ≤ p < LOW_END →
  wp (lookup_addr p)
     (λ r s', s' = s ∧ (r =? 0) = negb (bool_decide (is_Some (fb !! p)))) s.
Proof.
  intros [Hm [F Hr]] Hlow. apply wp_bind, wp_lock; [done|].
  assert (malloc_rep (set_m_mutex true s) fb F) as Hr' by (by apply (rep_ext s)).
  apply wp_bind. eapply wp_mono.
  { apply (lookup_refines mem_hash); [apply (mr_hash _ _ _ Hr')|by apply mem_index]. }
  intros r s' [-> ->]. apply wp_bind, wp_unlock, wp_ret. split.
  - destruct s; simpl in *. by subst.
  - destruct (decide (p = 0)) as [->|Hp]; [|by apply self_map_default].
    assert (fb !! 0 = None) as Hnone.
    { destruct (fb !! 0) as [sz|] eqn:Hz; [|done].
      pose proof (bk_pos _ _ _ (mr_block _ _ _ Hr 0 sz Hz)). lia. }
    rewrite Hnone, bool_decide_eq_false_2 by (by intros []).
    destruct (self_map fb !! 0) eqn:Hz; [|done].
    apply self_map_lookup in Hz as [_ Hz]. rewrite Hnone in Hz. by destruct Hz.
Qed.

(** Writing a header outside the free blocks. *)
Lemma put_size_spec s fb p v :
  malloc_inv s fb → fb !! p = None → p ≠ 0 →
  wp (put_size p v)
     (λ _ s', malloc_inv s' fb ∧ same_env s s' ∧ fget size_field s' p = Some v) s.
Proof.
  intros [Hm [F Hr]] Hp Hnz.
  assert (∀ q, is_Some (fb !! q) → q ≠ p) as Hne.
  { intros q Hq ->. rewrite Hp in Hq. by destruct Hq. }
  unfold put_size, putopt, wp. rewrite (proj2 (Z.eqb_neq p NULL)) by done.
  split_and!; [|done|].
  2:{ simpl. by rewrite lookup_insert_eq. }
  split; [done|]. exists F. pose proof Hr as [? ? Hc Hcls Hhash Hblk Hsz ? ?].
  split; try done.
  - intros i hd Hi. eapply clist_frame; [|by apply Hc]. intros x Hx.
    apply lookup_lt_Some in Hi. apply Hcls in Hx; [|done].
    assert (p ≠ x) by (intros <-; congruence). simpl. by rewrite lookup_insert_ne.
  - eapply refines_frame; [exact Hhash|done| |done].
    intros k q [-> Hq]%self_map_lookup. split; [|done].
    assert (p ≠ q) by (intros <-; by apply (Hne p)). simpl. by rewrite lookup_insert_ne.
  - intros q sq Hq. by eapply block_ok_env, Hblk.
  - intros q sq Hq. assert (p ≠ q) by (intros <-; congruence).
    simpl. rewrite lookup_insert_ne by done. by apply Hsz.
Qed.
End steps.

(** ** The templates at work: witnesses over the heap's nodes *)

(** A heap of no free blocks and two unlinked headers. *)
Definition two_nodes : mstate :=
  MState {[ 16 := MemNode 0 0 0 16; 32 := MemNode 0 0 0 16 ]} (replicate 17 NULL) 16 ∅ 0 false false.

Lemma two_nodes_table : refines_map mem_hash two_nodes ∅.
Proof.
  exists (λ _, []). split.
  - intros i Hi. split; [done|]. intros x Hx. set_solver.
  - intros k p. rewrite lookup_empty. split; [done|]. intros (_ & i & _ & Hp). set_solver.
Qed.

Lemma hash_table_refines_map_witness :
  ∃ r s' m', hash_run mem_hash (HInsert 16) two_nodes = Done (r, s') ∧
    map_run mem_hash two_nodes ∅ (HInsert 16) r m' ∧ refines_map mem_hash s' m'.
Proof.
  apply (hash_table_refines_map mem_hash two_nodes ∅ (HInsert 16)); [exact two_nodes_table|].
  split; [discriminate|]. split; [eexists; reflexivity|].
  exists 16. split; [reflexivity|]. split; [eexists; reflexivity|reflexivity].
Defined.

Lemma clist_insert_pushes_witness :
  ∃ s', clist_insert mem_clist NULL 16 two_nodes = Done (16, s') ∧
    clist mem_clist s' 16 [16] ∧ clist_only mem_clist two_nodes s' [16].
Proof.
  apply (clist_insert_pushes mem_clist two_nodes NULL [] 16);
    [apply clist_empty|discriminate|apply not_elem_of_nil|eexists; reflexivity..].
Defined.

(** The ring of both headers. *)
Definition ring : mstate :=
  MState {[ 16 := MemNode 32 32 0 16; 32 := MemNode 16 16 0 16 ]} (replicate 17 NULL) 16 ∅ 0 false false.

Lemma ring_clist : clist mem_clist ring 16 [16; 32].
Proof.
  split; [by vm_compute|]. split; [|split; [|by vm_compute]].
  - apply (bool_decide_unpack _). vm_compute. exact I.
  - intros x Hx. apply elem_of_cons in Hx as [->|Hx]; [done|].
    by apply list_elem_of_singleton in Hx as ->.
Qed.

Lemma clist_delete_unlinks_witness :
  ∃ s', clist_delete mem_clist 32 ring = Done (16, s') ∧ clist mem_clist s' 16 [16] ∧
    clist_only mem_clist ring s' [16; 32].
Proof. exact (clist_delete_unlinks mem_clist ring 16 [16] 32 [] ring_clist). Defined.
