(* ===== verification/MallocSpec.v ===== *)
(** * The contract of the kernel heap

    The addresses that the free blocks cover are the abstract state of the
    allocator.  [kern_malloc] takes an interval out of it and [kern_free] puts
    one back; splitting and merging redistribute the rest among the blocks
    without changing it.

    All blocks lie below 2^31, where the signed hash of an address has a bucket
    of the table.  [kern_free_upper_half_faults] shows what the code does with a
    block above it. *)

From S2P Require Import Prelude HashTable CircularList Bits Malloc.
#[local] Open Scope Z_scope.
Implicit Types s : mstate.
Implicit Types fb : gmap ptr Z.

(** [a] is a free address. *)
Definition covers (fb : gmap ptr Z) (a : Z) : Prop :=
  ∃ p sz, fb !! p = Some sz ∧ p ≤ a < p + sz.

(** An interval outside the free blocks, below [LOW_END]. *)
Record region (fb : gmap ptr Z) (p sz : Z) : Prop := Region {
  rg_pos : 0 < p;
  rg_size : 0 ≤ sz;
  rg_gran : (16 | sz);
  rg_end : p + sz ≤ LOW_END;
  rg_disj : disjoint_from fb p sz;
}.

(** Large enough pieces of the interval start at its address. *)
Definition fits (p sz : Z) : Prop :=
  ∃ g, pow2 g ∧ (g | p) ∧ Z.min sz LARGEST_BLOCK ≤ g.

(** The free blocks and the interval exchange addresses; none is lost. *)
Definition moved (fb : gmap ptr Z) (p sz : Z) (fb' : gmap ptr Z) (p' sz' : Z) : Prop :=
  (∀ a, covers fb a ∨ p ≤ a < p + sz ↔ covers fb' a ∨ p' ≤ a < p' + sz') ∧
  total_free fb + sz = total_free fb' + sz'.

Lemma moved_refl fb p sz : moved fb p sz fb p sz.
Proof. done. Qed.

Lemma moved_trans fb1 p1 n1 fb2 p2 n2 fb3 p3 n3 :
  moved fb1 p1 n1 fb2 p2 n2 → moved fb2 p2 n2 fb3 p3 n3 → moved fb1 p1 n1 fb3 p3 n3.
Proof. intros [H1 T1] [H2 T2]. split; [intros a; by rewrite H1, H2|lia]. Qed.

Lemma covers_insert fb q f a :
  fb !! q = None → covers (<[q := f]> fb) a ↔ covers fb a ∨ q ≤ a < q + f.
Proof.
  intros Hq. split.
  - intros (p & sz & Hp & Ha). destruct (decide (q = p)) as [<-|Hne].
    + rewrite lookup_insert_eq in Hp. simplify_eq. by right.
    + rewrite lookup_insert_ne in Hp by done. left. by exists p, sz.
  - intros [(p & sz & Hp & Ha)|Ha].
    + exists p, sz. split; [|done]. rewrite lookup_insert_ne; [done|congruence].
    + exists q, f. by rewrite lookup_insert_eq.
Qed.

Lemma covers_delete fb q f a :
  fb !! q = Some f → covers fb a ↔ covers (delete q fb) a ∨ q ≤ a < q + f.
Proof.
  intros Hq. rewrite <-(insert_delete_id fb q f Hq) at 1.
  apply covers_insert. apply lookup_delete_eq.
Qed.

Lemma disjoint_fresh fb p sz q :
  (∀ q f, fb !! q = Some f → 0 < f) → disjoint_from fb p sz →
  p ≤ q < p + sz → fb !! q = None.
Proof.
  intros Hpos Hd Hq. destruct (fb !! q) as [f|] eqn:Hf; [|done].
  specialize (Hpos q f Hf). destruct (Hd q f Hf); lia.
Qed.

Lemma disjoint_sub fb p sz p' sz' :
  disjoint_from fb p sz → p ≤ p' → p' + sz' ≤ p + sz → disjoint_from fb p' sz'.
Proof. intros Hd H1 H2 q f Hq. destruct (Hd q f Hq); lia. Qed.

Lemma disjoint_insert_sub fb p sz q f :
  disjoint_from fb p sz → p + sz ≤ q ∨ q + f ≤ p → disjoint_from (<[q := f]> fb) p sz.
Proof.
  intros Hd Hq r sr. destruct (decide (q = r)) as [<-|Hne].
  - rewrite lookup_insert_eq. by intros [= <-].
  - rewrite lookup_insert_ne by done. apply Hd.
Qed.

Section blocks.
Context (s : mstate) (fb : gmap ptr Z) (Hinv : malloc_inv s fb).

Lemma inv_block p sz : fb !! p = Some sz → block_ok s p sz.
Proof. destruct Hinv as [_ [F Hr]]. apply (mr_block _ _ _ Hr). Qed.

Lemma inv_pow2 p sz : fb !! p = Some sz → pow2 sz ∧ 16 ≤ sz.
Proof.
  intros Hp. destruct (inv_block p sz Hp) as [_ _ _ (i & Hi & ->)].
  destruct Hinv as [_ [F Hr]].
  split; [apply class_pow2; by eapply rep_len|apply class_ge].
Qed.

Lemma inv_pos p sz : fb !! p = Some sz → 0 < sz.
Proof. intros Hp. apply inv_pow2 in Hp. lia. Qed.

Lemma inv_size p sz : fb !! p = Some sz → fget size_field s p = Some sz.
Proof. destruct Hinv as [_ [F Hr]]. apply (mr_size _ _ _ Hr). Qed.

Lemma inv_free : heap_free s = u32 (total_free fb).
Proof. destruct Hinv as [_ [F Hr]]. by eapply mr_free. Qed.

Lemma inv_disj p sz : fb !! p = Some sz → disjoint_from (delete p fb) p sz.
Proof. destruct Hinv as [_ [F Hr]]. apply (mr_disj _ _ _ Hr). Qed.

Lemma inv_fuel : (base.size fb ≤ base.size (nodes s))%nat.
Proof.
  rewrite <-!size_dom. apply subseteq_size. intros p Hp.
  apply elem_of_dom in Hp as [sz Hp]. apply inv_size in Hp.
  apply elem_of_dom. simpl in Hp. destruct (nodes s !! p); [eauto|done].
Qed.

Lemma pow2_16 r : pow2 r → 16 ≤ r → (16 | r).
Proof. intros Hr. apply pow2_divide; [by exists 4|done]. Qed.

(** A block taken off the free list is a region of its own. *)
Lemma region_delete p sz : fb !! p = Some sz → region (delete p fb) p sz.
Proof.
  intros Hp. pose proof (inv_block p sz Hp) as [Hpos _ Hend _].
  destruct (inv_pow2 p sz Hp) as [Hpw Hge].
  split; [done|lia|by apply pow2_16|done|by apply inv_disj].
Qed.

(** The size classes reach up to [2^(high_list + 4)]. *)
Lemma block_ok_intro p r :
  0 < p → (r | p) → p + r ≤ LOW_END → pow2 r → 16 ≤ r → r ≤ 2 ^ (high_list s + 4) →
  block_ok s p r.
Proof.
  intros Hp Hal Hend (k & Hk & ->) Hge Hle. split; [done..|].
  destruct Hinv as [_ [F Hr]]. pose proof (mr_high _ _ _ Hr). pose proof (mr_len _ _ _ Hr).
  assert (4 ≤ k) by (apply (Z.pow_le_mono_r_iff 2); lia).
  assert (k ≤ high_list s + 4) by (apply (Z.pow_le_mono_r_iff 2); lia).
  exists (Z.to_nat (k - 4)). split; [lia|f_equal; lia].
Qed.

Lemma class_bound p sz : fb !! p = Some sz → sz ≤ 2 ^ (high_list s + 4).
Proof.
  intros Hp. destruct (inv_block p sz Hp) as [_ _ _ (i & Hi & ->)].
  destruct Hinv as [_ [F Hr]]. pose proof (mr_high _ _ _ Hr). pose proof (mr_len _ _ _ Hr).
  apply Z.pow_le_mono_r; lia.
Qed.

Lemma largest_bound : LARGEST_BLOCK ≤ 2 ^ (high_list s + 4).
Proof.
  destruct Hinv as [_ [F Hr]]. pose proof (mr_high _ _ _ Hr).
  change LARGEST_BLOCK with (2 ^ 20). apply Z.pow_le_mono_r; lia.
Qed.
End blocks.

(** ** Exchanging blocks with the region *)

Definition sizes_pos (fb : gmap ptr Z) : Prop := ∀ q f, fb !! q = Some f → 0 < f.

Lemma give_end fb p n r :
  sizes_pos fb → region fb p (n + r) → (16 | n) → 0 ≤ n → 0 < r →
  fb !! (p + n) = None ∧ disjoint_from fb (p + n) r ∧
  region (<[p + n := r]> fb) p n ∧ moved fb p (n + r) (<[p + n := r]> fb) p n.
Proof.
  intros Hpos [Hp Hs Hg He Hd] Hgn Hn Hr.
  assert (fb !! (p + n) = None) as Hfresh by (eapply disjoint_fresh; [done..|lia]).
  split_and!; [done|by eapply disjoint_sub; [exact Hd|lia..]| |].
  - split; [done..|lia|].
    apply disjoint_insert_sub; [|lia]. by eapply disjoint_sub; [exact Hd|lia..].
  - split; [|rewrite total_free_insert by done; lia].
    intros a. rewrite covers_insert by done. split; [|intros [[?|?]|?]];
      [intros [?|?]|..]; [by left; left| |by left|by right; lia|by right; lia].
    destruct (decide (a < p + n)); [right; lia|left; right; lia].
Qed.

Lemma give_front fb p n r :
  sizes_pos fb → region fb p (r + n) → (16 | n) → 0 ≤ n → 0 < r →
  fb !! p = None ∧ disjoint_from fb p r ∧
  region (<[p := r]> fb) (p + r) n ∧ moved fb p (r + n) (<[p := r]> fb) (p + r) n.
Proof.
  intros Hpos [Hp Hs Hg He Hd] Hgn Hn Hr.
  assert (fb !! p = None) as Hfresh by (eapply disjoint_fresh; [done..|lia]).
  split_and!; [done|by eapply disjoint_sub; [exact Hd|lia..]| |].
  - split; [lia|done..|lia|].
    apply disjoint_insert_sub; [|lia]. by eapply disjoint_sub; [exact Hd|lia..].
  - split; [|rewrite total_free_insert by done; lia].
    intros a. rewrite covers_insert by done. split; [|intros [[?|?]|?]];
      [intros [?|?]|..]; [by left; left| |by left|by right; lia|by right; lia].
    destruct (decide (a < p + r)); [left; right; lia|right; lia].
Qed.

Section take.
Context (s : mstate) (fb : gmap ptr Z) (Hinv : malloc_inv s fb).

Lemma inv_sizes_pos : sizes_pos fb.
Proof. intros q f. by eapply inv_pos. Qed.

Lemma take_end p n f :
  region fb p n → fb !! (p + n) = Some f →
  region (delete (p + n) fb) p (n + f) ∧
  moved fb p n (delete (p + n) fb) p (n + f).
Proof.
  intros [Hp Hn Hg He Hd] Hf.
  destruct (region_delete _ _ Hinv _ _ Hf) as [_ Hf0 Hgf Hef Hdf].
  split.
  - split; [done|lia|by apply Z.divide_add_r|lia|].
    intros q sq Hq. pose proof Hq as [_ Hq']%lookup_delete_Some.
    pose proof (inv_sizes_pos q sq Hq'). specialize (Hd q sq Hq'). specialize (Hdf q sq Hq).
    lia.
  - split; [|rewrite (total_free_delete fb (p + n) f) by done; lia].
    intros a. rewrite (covers_delete fb (p + n) f) by done.
    split; [intros [[?|?]|?]|intros [?|?]];
      [by left|right; lia|right; lia|by left; left|].
    destruct (decide (a < p + n)); [right; lia|left; right; lia].
Qed.

Lemma take_back p n f :
  region fb p n → fb !! (p - f) = Some f →
  region (delete (p - f) fb) (p - f) (f + n) ∧
  moved fb p n (delete (p - f) fb) (p - f) (f + n).
Proof.
  intros [Hp Hn Hg He Hd] Hf.
  destruct (region_delete _ _ Hinv _ _ Hf) as [Hpf Hf0 Hgf Hef Hdf].
  split.
  - split; [done|lia|by apply Z.divide_add_r|lia|].
    intros q sq Hq. pose proof Hq as [_ Hq']%lookup_delete_Some.
    pose proof (inv_sizes_pos q sq Hq'). specialize (Hd q sq Hq'). specialize (Hdf q sq Hq).
    lia.
  - split; [|rewrite (total_free_delete fb (p - f) f) by done; lia].
    intros a. rewrite (covers_delete fb (p - f) f) by done.
    split; [intros [[?|?]|?]|intros [?|?]];
      [by left|right; lia|right; lia|by left; left|].
    destruct (decide (a < p)); [left; right; lia|right; lia].
Qed.
End take.

(** The size of the neighbour in front is bounded by the alignment. *)
Lemma forward_bound p n f a :
  0 < n < a → pow2 a → (a | p) → pow2 f → (f | p + n) → n + f ≤ a.
Proof.
  intros Hn Ha Hap Hf Hfp.
  pose proof (pow2_pos f Hf). pose proof (pow2_pos a Ha).
  assert (∀ d, (d | p) → (d | p + n) → (d | n)) as Hsub.
  { intros d H1 H2. replace n with (p + n - p) by lia. by apply Z.divide_sub_r. }
  assert ((f | a)) as Hfa.
  { destruct (Z.le_gt_cases f a); [by apply pow2_divide|]. exfalso.
    assert ((a | n)) as Han%Z.divide_pos_le; [|lia..].
    apply Hsub; [done|]. etransitivity; [|exact Hfp].
    apply pow2_divide; [done|done|lia]. }
  assert ((f | a - n)) as Hfn%Z.divide_pos_le; [|lia..].
  apply Z.divide_sub_r; [done|]. apply Hsub; [by etransitivity|done].
Qed.

(** ** Merging *)

(** The state of the allocator between two steps of an operation that started
    with the region [p, sz) next to the free blocks [fb]. *)
Definition exchanging (s : mstate) fb p sz (s' : mstate) p' sz' : Prop :=
  ∃ fb', malloc_inv s' fb' ∧ region fb' p' sz' ∧ moved fb p sz fb' p' sz' ∧ same_env s s'.

Lemma exchanging_intro s fb p sz :
  malloc_inv s fb → region fb p sz → exchanging s fb p sz s p sz.
Proof. intros Hi Hr. exists fb. split_and!; [done|done|apply moved_refl|done]. Qed.

Lemma size_delete_lt fb q f : fb !! q = Some f → (base.size (delete q fb) < base.size fb)%nat.
Proof.
  intros Hq. rewrite <-(insert_delete_id fb q f Hq) at 2.
  rewrite map_size_insert_None by apply lookup_delete_eq. lia.
Qed.

Lemma addr_size_region fb p sz :
  region fb p sz → 0 < sz →
  ∃ a, addr_size p = Some a ∧ pow2 a ∧ (a | p) ∧ ∀ y, pow2 y → (y | p) → (y | a).
Proof. intros [? ? ? ? ?] Hsz. apply addr_size_spec. lia. Qed.

Lemma fits_addr_size p sz a :
  pow2 a → (a | p) → (∀ y, pow2 y → (y | p) → (y | a)) → fits p sz →
  Z.min sz LARGEST_BLOCK ≤ a.
Proof.
  intros Ha Hap Hmax (g & Hg & Hgp & Hle).
  pose proof (pow2_pos a Ha). pose proof (Hmax g Hg Hgp) as Hga%Z.divide_pos_le; lia.
Qed.

(** The block up to the alignment of an address lies in the lower half as
    well. *)
Lemma aligned_end p a : pow2 a → (a | p) → 0 < p < LOW_END → p + a ≤ LOW_END.
Proof.
  intros Ha [k ->] [Hp Hlt]. pose proof (pow2_pos a Ha).
  assert (1 ≤ k) by nia.
  assert ((a | 2 ^ 31)) as [e He]; [apply pow2_divide; [done|by exists 31|nia]|].
  assert (k < e) by (apply (Z.mul_lt_mono_pos_r a); lia). nia.
Qed.

(** One round of the forward loop: it stops, or it absorbs the block in front.
    [live_merge_step] is the same loop with a limit. *)
Lemma live_merge_step_spec s fb p sz lim :
  malloc_inv s fb → region fb p sz → 0 < sz → fits p sz →
  wp (live_merge_step p lim sz)
     (λ r s', match r with
              | inl sz' => sz < sz' ∧ sz < lim ∧ fits p sz' ∧ ∃ q f,
                  fb !! q = Some f ∧ sz' = sz + f ∧
                  malloc_inv s' (delete q fb) ∧ region (delete q fb) p sz' ∧
                  moved fb p sz (delete q fb) p sz' ∧ same_env s s'
              | inr sz' => sz' = sz ∧ s' = s
              end) s.
Proof.
  intros Hi Hr Hsz Hfit. pose proof Hr as [Hp _ _ Hend _].
  destruct (addr_size_region _ _ _ Hr Hsz) as (a & Ha & Hpa & Hap & Hmax).
  apply wp_bind, (wp_getopt _ a); [done|].
  destruct (Z.ltb_spec sz a) as [Hlt|]; [|by apply wp_ret].
  destruct (Z.ltb_spec sz lim) as [Hlim|]; [|by apply wp_ret].
  assert (p + a ≤ LOW_END) as Hpe by (apply aligned_end; [done|done|lia]).
  unfold ptr_add in *. rewrite u32_small in * by lia.
  apply wp_bind. eapply wp_mono; [by apply (lookup_addr_spec s fb); [done|lia]|].
  intros r s' [-> ->]. rewrite negb_involutive.
  case_bool_decide as Hf; [|by apply wp_ret]. destruct Hf as [f Hf].
  destruct (inv_block _ _ Hi _ _ Hf) as [Hq Hal Hfe _].
  destruct (inv_pow2 _ _ Hi _ _ Hf) as [Hfp Hf16].
  assert (sz + f ≤ a) by (by eapply forward_bound).
  apply wp_bind. eapply wp_mono; [by apply (delete_addr_spec s fb _ f)|].
  intros _ s' (Hi' & He & Hss). apply wp_bind. eapply wp_get_size.
  { rewrite Hss. by apply (inv_size _ _ Hi). }
  apply wp_ret. rewrite u32_small by lia.
  destruct (take_end _ _ Hi _ _ _ Hr Hf) as [Hr' Hmv].
  split_and!; [lia|done| |].
  - exists a. split_and!; [done|done|lia].
  - exists (p + sz), f. done.
Qed.

(** [merge_block_forward] runs the same loop without the limit. *)
Lemma merge_forward_live p sz s :
  sz < 2 ^ 32 → merge_forward_step p sz s = live_merge_step p (2 ^ 32) sz s.
Proof.
  intros Hsz. unfold merge_forward_step, live_merge_step, mbind, M_bind, getopt.
  destruct (addr_size p); [|done].
  by rewrite (proj2 (Z.ltb_lt sz (2 ^ 32))), andb_true_r by done.
Qed.

Lemma merge_loop_spec s fb p sz lim step fuel :
  (∀ sz s, sz < 2 ^ 32 → step sz s = live_merge_step p lim sz s) →
  malloc_inv s fb → region fb p sz → 0 < sz → fits p sz → (base.size fb < fuel)%nat →
  wp (loop fuel step sz)
     (λ sz' s', ∃ fb', malloc_inv s' fb' ∧ region fb' p sz' ∧ moved fb p sz fb' p sz' ∧
        same_env s s' ∧ sz ≤ sz' ∧ fits p sz' ∧ (base.size fb' ≤ base.size fb)%nat ∧
        (sz' = sz ∨ sz' - lim < 2 ^ (high_list s + 4))) s.
Proof.
  intros Hstep. revert s fb sz.
  induction fuel as [|n IH]; intros s fb sz Hi Hr Hsz Hfit Hfuel; [lia|].
  pose proof Hr as [Hp _ _ Hend _].
  apply wp_bind. unfold wp. rewrite Hstep by lia.
  eapply wp_mono; [by apply (live_merge_step_spec s fb)|].
  intros [sz'|sz'] s'.
  - intros (Hlt & Hlim & Hfit' & q & f & Hf & -> & Hi' & Hr' & Hmv & He).
    pose proof (size_delete_lt fb q f Hf) as Hdec. pose proof (class_bound _ _ Hi _ _ Hf).
    pose proof He as (Hhigh & _).
    eapply wp_mono; [by apply (IH s' (delete q fb)); try done; lia|].
    intros sz' s'' (fb' & Hi'' & Hr'' & Hmv' & He' & Hle & Hfit'' & Hc & Hb).
    rewrite Hhigh in Hb. exists fb'.
    split_and!; [done|done|by eapply moved_trans|by eapply same_env_trans|lia|done|lia..].
  - intros [-> ->]. apply wp_ret. exists fb.
    split_and!; [done|done|apply moved_refl|done|lia|done|lia|by left].
Qed.

Lemma merge_block_forward_spec s fb p sz :
  malloc_inv s fb → region fb p sz → 0 < sz → fits p sz →
  wp (merge_block_forward p sz)
     (λ sz' s', ∃ fb', malloc_inv s' fb' ∧ region fb' p sz' ∧ moved fb p sz fb' p sz' ∧
        same_env s s' ∧ sz ≤ sz' ∧ fits p sz' ∧ (base.size fb' ≤ base.size fb)%nat ∧
        fget size_field s' p = Some sz') s.
Proof.
  intros Hi Hr Hsz Hfit. pose proof (inv_fuel s fb Hi).
  apply wp_bind, wp_gets, wp_bind.
  eapply wp_mono; [apply (merge_loop_spec s fb p sz (2 ^ 32));
                     [by apply merge_forward_live|done..|lia]|].
  intros sz' s1 (fb1 & Hi1 & Hr1 & Hmv1 & He1 & Hle & Hfit1 & Hc & _).
  assert (fb1 !! p = None).
  { destruct Hr1. eapply disjoint_fresh; [by eapply inv_sizes_pos|done|lia]. }
  apply wp_bind. eapply wp_mono; [apply put_size_spec; [done|done|destruct Hr; lia]|].
  intros _ s2 (Hi2 & He2 & Hsz2). apply wp_ret. exists fb1.
  split_and!; try done. by eapply same_env_trans.
Qed.

Lemma put_size_region s fb p sz v :
  malloc_inv s fb → region fb p sz → 0 < sz →
  wp (put_size p v)
     (λ _ s', malloc_inv s' fb ∧ same_env s s' ∧ fget size_field s' p = Some v) s.
Proof.
  intros Hi Hr Hsz. apply put_size_spec; [done| |destruct Hr; lia].
  destruct Hr. eapply disjoint_fresh; [by eapply inv_sizes_pos|done|lia].
Qed.

(** What the backward loop keeps between two rounds. *)
Definition merging (s0 : mstate) fb0 p0 sz0 (n : nat) (p sz : Z) (s : mstate) : Prop :=
  ∃ fb, malloc_inv s fb ∧ region fb p sz ∧ moved fb0 p0 sz0 fb p sz ∧ same_env s0 s ∧
        0 < sz ∧ fits p sz ∧ fget size_field s p = Some sz ∧ (base.size fb < n)%nat.

(** The block behind a block of the size of its alignment is aligned to twice
    that size. *)
Lemma fits_back p a :
  pow2 a → a < 2 ^ 31 → (a | p) → (∀ y, pow2 y → (y | p) → (y | a)) →
  fits (p - a) (a + a).
Proof.
  intros Ha Hlt [k ->] Hmax. pose proof (pow2_pos a Ha).
  assert (pow2 (2 * a)) as Ha2.
  { destruct Ha as (e & He & ->). exists (e + 1). rewrite Z.pow_add_r by lia.
    split; [|lia].
    assert (e < 31) by (apply (Z.pow_lt_mono_r_iff 2); lia). lia. }
  exists (2 * a). split_and!; [done| |lia].
  destruct (Z.Even_or_Odd k) as [[q ->]|[q ->]].
  - exfalso. assert ((2 * a | a)) as Hd%Z.divide_pos_le; [|lia..].
    apply Hmax; [done|]. exists q. lia.
  - exists q. lia.
Qed.

Lemma merge_block_step_spec s0 fb0 p0 sz0 n p sz s :
  merging s0 fb0 p0 sz0 (S n) p sz s →
  wp (merge_block_step (p, sz))
     (λ r s', match r with
              | inl (p', sz') => merging s0 fb0 p0 sz0 n p' sz' s'
              | inr p' => ∃ sz', merging s0 fb0 p0 sz0 (S n) p' sz' s'
              end) s.
Proof.
  intros Hm. unfold merge_block_step.
  destruct (Z.ltb_spec sz LARGEST_BLOCK) as [Hlt|]; simpl; [|apply wp_ret; eauto].
  destruct Hm as (fb & Hi & Hr & Hmv & He & Hsz & Hfit & _ & Hc).
  apply wp_bind. eapply wp_mono; [by apply (merge_block_forward_spec s fb)|].
  intros sz1 s1 (fb1 & Hi1 & Hr1 & Hmv1 & He1 & Hle & Hfit1 & Hc1 & Hsf1).
  assert (merging s0 fb0 p0 sz0 (S n) p sz1 s1) as Hm1.
  { exists fb1. split_and!; try done; [by eapply moved_trans|by eapply same_env_trans|lia..]. }
  pose proof Hr1 as [Hp _ _ Hend _].
  destruct (addr_size_region _ _ _ Hr1 ltac:(lia)) as (a & Ha & Hpa & Hap & Hmax).
  apply wp_bind, (wp_getopt _ a); [done|].
  destruct (Z.eqb_spec sz1 a) as [->|]; [|apply wp_ret; eauto].
  pose proof (Z.divide_pos_le _ _ Hp Hap) as Hpge.
  unfold ptr_sub. rewrite u32_small by lia.
  apply wp_bind. eapply wp_mono; [apply (lookup_addr_spec s1 fb1); [done|lia]|].
  intros r s' [-> ->]. rewrite negb_involutive.
  case_bool_decide as Hf; [destruct Hf as [f Hf]|by apply wp_ret; eauto].
  apply wp_bind, wp_bind. eapply wp_get_size; [by apply (inv_size _ _ Hi1)|]. apply wp_ret.
  destruct (Z.eqb_spec f a) as [->|]; simpl; [|by apply wp_ret; eauto].
  destruct (Z.ltb_spec a LARGEST_BLOCK) as [Hal|]; [|by apply wp_ret; eauto].
  destruct (take_back _ _ Hi1 _ _ _ Hr1 Hf) as [Hr2 Hmv2].
  pose proof (inv_block _ _ Hi1 _ _ Hf) as [Hb0 _ Hbe _].
  pose proof (fits_back p a Hpa ltac:(unfold LARGEST_BLOCK in Hal; lia) Hap Hmax) as Hfit2.
  apply wp_bind. eapply wp_mono; [by apply (delete_addr_spec s1 fb1 _ a)|].
  intros _ s2 (Hi2 & He2 & Hss). apply wp_bind. eapply wp_get_size.
  { rewrite Hss. by apply (inv_size _ _ Hi1). }
  rewrite u32_small by lia.
  apply wp_bind. eapply wp_mono; [eapply put_size_region; [done|exact Hr2|lia]|].
  intros _ s3 (Hi3 & He3 & Hsf3). apply wp_bind. eapply wp_get_size; [done|].
  apply wp_ret. replace (a * 2) with (a + a) by lia.
  destruct Hm1 as (fb1' & _). pose proof (size_delete_lt _ _ _ Hf).
  exists (delete (p - a) fb1). split_and!; try done; [| |lia| |lia].
  - eapply moved_trans; [|exact Hmv2]. by eapply moved_trans.
  - eapply same_env_trans; [exact He|]. eapply same_env_trans; [exact He1|].
    by eapply same_env_trans.
  - rewrite Hsf3. f_equal. lia.
Qed.

Lemma merge_block_loop_spec s0 fb0 p0 sz0 n p sz s :
  merging s0 fb0 p0 sz0 n p sz s →
  wp (loop n merge_block_step (p, sz))
     (λ p' s', ∃ fb' sz', malloc_inv s' fb' ∧ region fb' p' sz' ∧
        moved fb0 p0 sz0 fb' p' sz' ∧ same_env s0 s' ∧ 0 < sz' ∧ fits p' sz' ∧
        fget size_field s' p' = Some sz') s.
Proof.
  revert p sz s. induction n as [|n IH]; intros p sz s Hm.
  { destruct Hm as (fb & _ & _ & _ & _ & _ & _ & _ & Hc). lia. }
  apply wp_bind. eapply wp_mono; [by apply merge_block_step_spec|].
  intros [[p2 sz2]|p2] s2; [apply IH|].
  intros (sz' & fb' & Hi & Hr & Hmv & He & Hsz & Hfit & Hsf & _).
  apply wp_ret. exists fb', sz'. done.
Qed.

Lemma merge_block_spec s fb p sz :
  malloc_inv s fb → region fb p sz → 0 < sz → fits p sz → fget size_field s p = Some sz →
  wp (merge_block p sz)
     (λ p' s', ∃ fb' sz', malloc_inv s' fb' ∧ region fb' p' sz' ∧ moved fb p sz fb' p' sz' ∧
        same_env s s' ∧ 0 < sz' ∧ fits p' sz' ∧ fget size_field s' p' = Some sz') s.
Proof.
  intros Hi Hr Hsz Hfit Hsf. apply wp_bind, wp_gets, merge_block_loop_spec.
  exists fb. pose proof (inv_fuel s fb Hi). split_and!; try done. lia.
Qed.

(** ** Inserting a region piece by piece *)

Lemma wp_insert_piece {A} s fb p r (k : M mstate A) Q :
  malloc_inv s fb → fb !! p = None → disjoint_from fb p r → 0 < p → p + r ≤ LOW_END →
  pow2 r → 16 ≤ r → (r | p) → r ≤ 2 ^ (high_list s + 4) →
  (∀ s', malloc_inv s' (<[p := r]> fb) → same_env s s' → wp k Q s') →
  wp (put_size p r;; insert_addr p;; k) Q s.
Proof.
  intros Hi Hp Hd Hpos Hend Hpr Hr16 Hrp Hle Hk.
  apply wp_bind. eapply wp_mono; [by apply (put_size_spec s fb); try done; lia|].
  intros _ s1 (Hi1 & He1 & Hsf1). pose proof He1 as [Hh1 _].
  apply wp_bind. eapply wp_mono; [apply (insert_addr_spec s1 fb p r); try done|].
  - apply (block_ok_intro _ _ Hi1); try done. by rewrite Hh1.
  - intros _ s2 (Hi2 & He2 & _). apply Hk; [done|]. by eapply same_env_trans.
Qed.

Lemma round_down_16 n r : (16 | n) → 0 < n → pow2 r → r ≤ n < 2 * r → 16 ≤ r ∧ (16 | r).
Proof.
  intros Hd Hn Hr Hb. apply Z.divide_pos_le in Hd; [|done].
  assert (16 ≤ r) as Hge; [|split; [done|by apply pow2_16]].
  destruct (Z.le_gt_cases 16 r); [done|]. exfalso.
  pose proof (pow2_le_half r 16 Hr ltac:(by exists 4) ltac:(lia)) as ?%Z.divide_pos_le; lia.
Qed.

Lemma fits_divide p n r : fits p n → pow2 r → r ≤ Z.min n LARGEST_BLOCK → (r | p).
Proof.
  intros (g & Hg & Hgp & Hle) Hr Hrn. etransitivity; [|exact Hgp].
  apply pow2_divide; [done|done|lia].
Qed.

(** The piece [kern_free] cuts next. *)
Lemma free_piece p n r :
  (16 | n) → 0 < n → fits p n → pow2 r → r ≤ n < 2 * r →
  let r' := if LARGEST_BLOCK <? r then LARGEST_BLOCK else r in
  pow2 r' ∧ 16 ≤ r' ≤ n ∧ (r' | p) ∧ (16 | n - r') ∧ r' ≤ LARGEST_BLOCK ∧
  fits (p + r') (n - r').
Proof.
  intros Hgn Hn Hfit Hr Hb. destruct (round_down_16 n r Hgn Hn Hr Hb) as [Hr16 Hd16].
  assert (pow2 LARGEST_BLOCK) as HL by (by exists 20).
  destruct (Z.ltb_spec LARGEST_BLOCK r) as [Hlt|Hge]; cbn zeta.
  - assert ((LARGEST_BLOCK | p)) as HLp by (apply (fits_divide p n); [done|done|lia]).
    split_and!; [done|done|lia|done| |lia|].
    + apply Z.divide_sub_r; [done|]. by exists (2 ^ 16).
    + exists LARGEST_BLOCK. split_and!; [done| |lia].
      apply Z.divide_add_r; [done|]. by exists 1.
  - assert ((r | p)) as Hrp by (apply (fits_divide p n); [done|done|lia]).
    split_and!; [done|done|lia|done|by apply Z.divide_sub_r|lia|].
    exists r. split_and!; [done| |lia]. by apply Z.divide_add_r.
Qed.

Lemma free_loop_spec s fb p i size fuel :
  malloc_inv s fb → region fb p (size - i) → fits p (size - i) → 0 ≤ i →
  size < 2 ^ 32 → (Z.to_nat ((size - i) / SMALLEST_BLOCK) < fuel)%nat →
  wp (loop fuel (free_step size) (u32 p, i))
     (λ _ s', ∃ fb' p', malloc_inv s' fb' ∧ moved fb p (size - i) fb' p' 0 ∧ same_env s s') s.
Proof.
  revert s fb p i. induction fuel as [|f IH]; intros s fb p i Hi Hr Hfit H0 Hsz Hfuel; [lia|].
  apply wp_bind. unfold free_step. pose proof Hr as [Hp Hn Hg Hend Hd].
  destruct (Z.ltb_spec i size) as [Hlt|].
  2:{ apply wp_ret, wp_ret. exists fb, p. split_and!; [done| |done].
      assert (size - i = 0) as -> by lia. apply moved_refl. }
  assert (p < 2 ^ 32) by lia. rewrite (u32_small p), (u32_small (size - i)) by lia.
  destruct (round_down_spec (size - i)) as (r & Hrd & Hpr & Hb); [lia|].
  apply wp_bind, (wp_getopt _ r); [done|].
  destruct (free_piece p (size - i) r Hg ltac:(lia) Hfit Hpr Hb)
    as (Hpr' & Hr16 & Hrp & Hg' & HrL & Hfit').
  set (r' := if LARGEST_BLOCK <? r then LARGEST_BLOCK else r) in *. clearbody r'.
  destruct (give_front fb p (size - i - r') r') as (Hfresh & Hdisj & Hreg & Hmv);
    [by eapply inv_sizes_pos| |done|lia|lia|].
  { by replace (r' + (size - i - r')) with (size - i) by lia. }
  replace (r' + (size - i - r')) with (size - i) in Hmv by lia.
  pose proof (largest_bound _ _ Hi).
  eapply wp_insert_piece; try done; [lia..|]. intros s2 Hi2 He2.
  apply wp_ret. unfold ptr_add. rewrite (u32_small (i + r')) by lia.
  assert (size - (i + r') = size - i - r') as Heq by lia.
  eapply wp_mono; [apply (IH s2 (<[p := r']> fb)); rewrite ?Heq; try done; [lia|]|].
  - unfold SMALLEST_BLOCK in *. Z.to_euclidean_division_equations. lia.
  - intros _ s3 (fb3 & p3 & Hi3 & Hmv3 & He3). exists fb3, p3. rewrite Heq in Hmv3.
    split_and!; [done|by eapply moved_trans|by eapply same_env_trans].
Qed.

(** ** Freeing *)

Lemma wp_stat_pair s (Q : unit → mstate → Prop) :
  m_stat_mutex s = false → Q tt s → wp (stat_lock;; stat_unlock) Q s.
Proof.
  intros Hs HQ. apply wp_bind, wp_lock; [done|]. apply wp_unlock.
  replace (set_m_stat_mutex _ _) with s; [done|]. destruct s; simpl in *. by subst.
Qed.

Lemma moved_covers fb p sz fb' p' :
  moved fb p sz fb' p' 0 →
  (∀ a, covers fb' a ↔ covers fb a ∨ p ≤ a < p + sz) ∧ total_free fb' = total_free fb + sz.
Proof.
  intros [Hc Ht]. split; [|lia]. intros a. rewrite Hc. split; [by left|].
  intros [?|?]; [done|lia].
Qed.

Lemma kern_free_spec s fb p size :
  malloc_inv s fb → m_stat_mutex s = false → region fb p size → fits p size →
  wp (kern_free p size)
     (λ _ s', ∃ fb', malloc_inv s' fb' ∧ same_env s s' ∧
        (∀ a, covers fb' a ↔ covers fb a ∨ p ≤ a < p + size) ∧
        total_free fb' = total_free fb + size) s.
Proof.
  intros Hi Hst Hr Hfit. pose proof Hr as [Hp Hn Hg Hend Hd]. unfold kern_free.
  rewrite (proj2 (Z.eqb_neq p NULL)) by (unfold NULL; lia).
  destruct (Z.eqb_spec size 0) as [->|Hnz]; simpl.
  { apply wp_ret. exists fb. split_and!; [done|done| |lia].
    intros a. split; [by left|]. intros [?|?]; [done|lia]. }
  apply wp_bind. eapply wp_mono; [by apply (put_size_region s fb p size); try done; lia|].
  intros _ s1 (Hi1 & He1 & Hsf1).
  apply wp_bind. eapply wp_mono; [by apply (merge_block_spec s1 fb p size); try done; lia|].
  intros p2 s2 (fb2 & sz2 & Hi2 & Hr2 & Hmv2 & He2 & Hsz2 & Hfit2 & Hsf2).
  apply wp_bind. eapply wp_get_size; [done|].
  pose proof Hr2 as [Hp2 _ _ Hend2 _].
  apply wp_bind. rewrite <-(u32_small p2) by lia.
  eapply wp_mono; [apply (free_loop_spec s2 fb2 p2 0 sz2 (S (Z.to_nat (sz2 / SMALLEST_BLOCK)))); rewrite ?Z.sub_0_r; try done; lia|].
  intros _ s3 (fb3 & p3 & Hi3 & Hmv3 & He3). rewrite Z.sub_0_r in Hmv3.
  assert (same_env s s3) as He.
  { eapply same_env_trans; [exact He1|]. by eapply same_env_trans. }
  apply wp_stat_pair; [destruct He as (_ & -> & _); done|].
  exists fb3. split_and!; [done|done|..];
    eapply moved_covers, moved_trans; done.
Qed.

(** ** Splitting *)

Lemma split_loop_spec s fb p n d fuel :
  malloc_inv s fb → region fb p (n + d) → 0 < n → 0 ≤ d →
  (∃ g, pow2 g ∧ (g | p + n + d) ∧ d < g ∧ g ≤ 2 ^ (high_list s + 4)) →
  d < 2 ^ Z.of_nat fuel →
  wp (loop (S fuel) split_step (u32 (p + n + d), d))
     (λ d' s', ∃ fb', malloc_inv s' fb' ∧ region fb' p (n + d') ∧
        moved fb p (n + d) fb' p (n + d') ∧ same_env s s' ∧
        0 ≤ d' < SMALLEST_BLOCK ∧ d' ≤ d) s.
Proof.
  revert s fb d. induction fuel as [|f IH]; intros s fb d Hi Hr Hn Hd (g & Hg & Hgd & Hlt & Hgh) Hf.
  all: change (loop (S ?x) split_step ?y) with
    (r ← split_step y; match r with inl a => loop x split_step a | inr b => mret b end).
  all: apply wp_bind; unfold split_step; destruct (Z.leb_spec SMALLEST_BLOCK d) as [Hge|Hge].
  - exfalso. unfold SMALLEST_BLOCK in Hge. simpl in Hf. lia.
  - apply wp_ret, wp_ret. exists fb. split_and!; try done; lia.
  - pose proof Hr as [Hp _ Hgr Hend _].
    destruct (round_down_spec d) as (r & Hrd & Hpr & Hb); [unfold SMALLEST_BLOCK in Hge; lia|].
    assert (16 ≤ r ∧ (16 | r)) as [Hr16 Hrd16].
    { assert (16 ≤ r); [|split; [done|by apply pow2_16]].
      unfold SMALLEST_BLOCK in Hge. destruct (Z.le_gt_cases 16 r); [done|]. exfalso.
      pose proof (pow2_le_half r 16 Hpr ltac:(by exists 4) ltac:(lia)) as ?%Z.divide_pos_le; lia. }
    assert ((r | p + n + d)) as Hrdv.
    { etransitivity; [|exact Hgd]. apply pow2_divide; [done|done|lia]. }
    assert (∃ n', n' = n + d - r) as [n' Hn'] by eauto.
    assert (n + d = n' + r) as Heq by lia.
    assert ((r | p + n')) as Hrp.
    { replace (p + n') with (p + n + d - r) by lia. by apply Z.divide_sub_r. }
    assert ((16 | n')) by (rewrite Hn'; by apply Z.divide_sub_r).
    destruct (give_end fb p n' r) as (Hfresh & Hdisj & Hreg & Hmv);
      [by eapply inv_sizes_pos|by rewrite <-Heq|done|lia|lia|].
    apply wp_bind, (wp_getopt _ r); [done|].
    unfold ptr_sub. rewrite (u32_small (d - r)) by lia.
    assert (u32 (u32 (p + n + d) - r) = p + n') as Hfront.
    { unfold u32. rewrite Zminus_mod_idemp_l, Z.mod_small; lia. }
    rewrite Hfront. eapply wp_insert_piece; try done; [lia..|]. intros s2 Hi2 He2.
    apply wp_ret. rewrite <-(u32_small (p + n')) by lia.
    pose proof He2 as [Hh2 _].
    rewrite <-Heq in Hmv. assert (n' = n + (d - r)) as -> by lia. rewrite Z.add_assoc.
    eapply wp_mono; [apply (IH s2); try done; [lia| |]|].
    + exists r. split_and!; [done| |lia|rewrite Hh2; lia].
      by rewrite <-Z.add_assoc.
    + rewrite Nat2Z.inj_succ, Z.pow_succ_r in Hf by lia. lia.
    + intros d' s3 (fb3 & Hi3 & Hr3 & Hmv3 & He3 & Hd3). exists fb3.
      split_and!; [done|done| |by eapply same_env_trans|lia..].
      by eapply moved_trans.
  - apply wp_ret, wp_ret. exists fb. split_and!; try done; lia.
Qed.

(** [setup_block] cuts a block that has been taken off the lists down to the
    requested size, rounded up to the granularity. *)
Lemma setup_block_spec s fb p sz n :
  malloc_inv s fb → m_stat_mutex s = false → region fb p sz → pow2 sz → (sz | p) →
  sz ≤ 2 ^ (high_list s + 4) → fget size_field s p = Some sz → 0 < n ≤ sz →
  wp (setup_block p n)
     (λ r s', ∃ n', r = (p, n') ∧ n ≤ n' < n + SMALLEST_BLOCK ∧ fits p n' ∧ same_env s s' ∧
        ∃ fb', malloc_inv s' fb' ∧ region fb' p n' ∧ moved fb p sz fb' p n') s.
Proof.
  intros Hi Hst Hr Hpw Hal Hhi Hsf Hn. pose proof Hr as [Hp _ _ Hend _].
  assert (∃ d, sz = n + d) as [d Hd] by (exists (sz - n); lia).
  apply wp_bind. eapply wp_get_size; [done|].
  apply wp_bind. unfold split_block, ptr_add. rewrite (u32_small (sz - n)) by lia.
  rewrite Hd, Z.add_assoc. replace (n + d - n) with d by lia.
  apply wp_bind. eapply wp_mono.
  { apply (split_loop_spec s fb p n d 32); [done|by rewrite <-Hd|lia|lia| |simpl; lia].
    exists sz. split_and!; [done| |lia|done].
    rewrite <-Z.add_assoc, <-Hd. by apply Z.divide_add_r. }
  intros d' s1 (fb1 & Hi1 & Hr1 & Hmv & He1 & Hd' & Hle).
  pose proof He1 as (_ & Hst1 & _).
  apply wp_bind, wp_lock; [congruence|]. apply wp_bind, wp_unlock, wp_ret, wp_ret.
  pose proof Hr1 as [_ _ _ Hend1 _].
  replace (set_m_stat_mutex false (set_m_stat_mutex true s1)) with s1.
  2:{ destruct s1; simpl in *. rewrite Hst in Hst1. by subst. }
  exists (n + d'). rewrite u32_small by lia. split_and!; [done|lia|lia| |done|].
  - exists sz. split_and!; [done|done|lia].
  - by exists fb1.
Qed.

(** ** Finding a block *)

(** What [acquire_block] finds: a smallest free block of at least [lim]. *)
Definition acquired (s : mstate) fb (lim : Z) (p : ptr) (s' : mstate) : Prop :=
  (p = NULL ∧ s' = s ∧ ∀ q sq, fb !! q = Some sq → sq < lim) ∨
  ∃ sz, fb !! p = Some sz ∧ lim ≤ sz ∧ (∀ q sq, fb !! q = Some sq → lim ≤ sq → sz ≤ sq) ∧
        malloc_inv s' (delete p fb) ∧ same_env s s' ∧ same_sizes s s'.

Lemma inv_class s fb q sq :
  malloc_inv s fb → fb !! q = Some sq →
  ∃ j : nat, Z.of_nat j ≤ high_list s ∧ sq = 2 ^ (Z.of_nat j + 4).
Proof.
  intros Hi Hq. destruct (inv_block _ _ Hi q sq Hq) as [_ _ _ (j & Hj & ->)].
  destruct Hi as [_ [F Hr]]. pose proof (mr_len _ _ _ Hr). pose proof (mr_high _ _ _ Hr).
  exists j. split; [lia|done].
Qed.

Lemma acquire_loop_spec s fb lim (i : nat) fuel :
  malloc_inv s fb → (∀ q sq, fb !! q = Some sq → lim ≤ sq → 2 ^ (Z.of_nat i + 4) ≤ sq) →
  lim ≤ 2 ^ (Z.of_nat i + 4) →
  (Z.to_nat (high_list s + 1 - Z.of_nat i) < fuel)%nat →
  wp (loop fuel acquire_step (Z.of_nat i)) (acquired s fb lim) s.
Proof.
  intros Hi. revert i. induction fuel as [|f IH]; intros i Hmin Hlim Hf; [lia|].
  pose proof Hi as [Hmx [F Hr]]. pose proof (mr_high _ _ _ Hr). pose proof (mr_len _ _ _ Hr).
  apply wp_bind, wp_bind, wp_gets.
  destruct (Z.leb_spec (Z.of_nat i) (high_list s)) as [Hle|Hgt].
  2:{ apply wp_ret, wp_ret. left. split_and!; [done..|]. intros q sq Hq.
      destruct (Z.lt_ge_cases sq lim) as [|Hge]; [done|]. exfalso.
      specialize (Hmin q sq Hq Hge). destruct (inv_class _ _ _ _ Hi Hq) as (j & Hj & ->).
      apply Z.pow_le_mono_r_iff in Hmin; lia. }
  assert (i < length (block_lists s))%nat as Hil by lia.
  destruct (lookup_lt_is_Some_2 _ _ Hil) as [hd Hhd].
  pose proof (mr_clist _ _ _ Hr i hd Hhd) as Hc.
  apply wp_bind, wp_lock; [done|]. set (s1 := set_m_mutex true s).
  assert (malloc_rep s1 fb F) as Hr1 by (by apply (rep_ext s)).
  apply wp_bind. eapply wp_list_get; [exact Hhd|].
  destruct (Z.eqb_spec hd NULL) as [->|Hnn]; simpl.
  - apply clist_nil in Hc as HF. apply wp_bind, wp_unlock, wp_ret.
    replace (set_m_mutex false s1) with s by (destruct s; simpl in *; by subst).
    rewrite u32_small by lia. replace (Z.of_nat i + 1) with (Z.of_nat (S i)) by lia.
    apply IH; [|rewrite Nat2Z.inj_succ; etransitivity; [exact Hlim|]; apply Z.pow_le_mono_r; lia
               |lia].
    intros q sq Hq Hge. specialize (Hmin q sq Hq Hge).
    destruct (inv_class _ _ _ _ Hi Hq) as (j & Hj & ->).
    apply Z.pow_le_mono_r_iff in Hmin; [|lia..]. apply Z.pow_le_mono_r; [lia|].
    assert (i ≠ j); [|lia]. intros <-. apply (mr_class _ _ _ Hr) in Hq; [|done].
    rewrite HF in Hq. set_solver.
  - apply wp_bind. eapply wp_list_get; [exact Hhd|].
    destruct (clist_cons _ _ _ _ Hc Hnn) as (t & e & HF & Hlast & _ & Hle').
    assert (fb !! e = Some (2 ^ (Z.of_nat i + 4))) as He.
    { apply (mr_class _ _ _ Hr); [done|]. rewrite HF. apply last_Some_elem_of.
      by rewrite <-HF. }
    apply wp_bind, wp_load with e; [exact Hle'|].
    apply wp_bind. eapply wp_mono; [by apply (delete_addr_nolock_spec s1 fb F e (2 ^ (Z.of_nat i + 4)))|].
    intros _ s2 ((F2 & Hr2) & _ & Henv & Hss). apply wp_bind, wp_unlock, wp_ret, wp_ret.
    right. exists (2 ^ (Z.of_nat i + 4)). split_and!; [done|done|done| | |exact Hss].
    + split; [done|]. exists F2. by apply (rep_ext s2).
    + exact Henv.
Qed.

Lemma acquire_block_spec s fb r :
  malloc_inv s fb → pow2 r → 16 ≤ r →
  wp (acquire_block r) (acquired s fb r) s.
Proof.
  intros Hi (k & Hk & ->) Hr.
  assert (4 ≤ k) by (apply (Z.pow_le_mono_r_iff 2); lia).
  pose proof Hi as [_ [F HF]]. pose proof (mr_high _ _ _ HF).
  apply wp_bind, (wp_getopt _ k); [by apply addr_power_pow2; lia|].
  apply wp_bind, wp_gets. unfold LIST_OFFSET. rewrite u32_small by lia.
  replace (k - 4) with (Z.of_nat (Z.to_nat (k - 4))) by lia.
  apply acquire_loop_spec; [done|..];
    (replace (Z.of_nat (Z.to_nat (k - 4)) + 4) with k by lia); [done|done|lia].
Qed.

(** Requests whose size class does not exist find nothing. *)
Lemma acquire_block_small s fb r :
  malloc_inv s fb → pow2 r → r < 16 →
  wp (acquire_block r) (λ p s', p = NULL ∧ s' = s) s.
Proof.
  intros Hi (k & Hk & ->) Hr.
  assert (k < 4) by (apply (Z.pow_lt_mono_r_iff 2); lia).
  pose proof Hi as [_ [F HF]]. pose proof (mr_high _ _ _ HF).
  apply wp_bind, (wp_getopt _ k); [by apply addr_power_pow2; lia|].
  apply wp_bind, wp_gets. change (S (S ?x)) with (1 + S x)%nat.
  assert (u32 (k - LIST_OFFSET) = 2 ^ 32 + k - 4) as ->.
  { unfold u32, LIST_OFFSET. rewrite <-(Z_mod_plus_full _ 1), Z.mod_small; lia. }
  apply wp_bind, wp_bind, wp_gets.
  destruct (Z.leb_spec (2 ^ 32 + k - 4) (high_list s)); [lia|].
  by apply wp_ret, wp_ret.
Qed.

(** ** Allocating *)

Definition reserve_left (s : mstate) (r : Z) : bool :=
  r <=? u32 (heap_free s - EMERGENCY_STORE).

(** When [kern_malloc] returns null: there is no class of blocks so small, no
    free block is large enough, or a request of the lowest priority does not
    pass the test for the reserve. *)
Definition refused (s : mstate) fb (size priority : Z) : Prop :=
  size ≤ 8 ∨ (∀ q sq, fb !! q = Some sq → sq < size) ∨
  (priority = 0 ∧ ∃ r, round_up size = Some r ∧ reserve_left s r = false).

(** What [kern_malloc] delivers: a region of at least [size] bytes, cut from a
    smallest sufficient block. *)
Definition allocated (s : mstate) fb (size : Z) (p n : Z) (s' : mstate) : Prop :=
  ∃ fb', malloc_inv s' fb' ∧ same_env s s' ∧ region fb' p n ∧ fits p n ∧
    size ≤ n < size + SMALLEST_BLOCK ∧
    (∀ a, covers fb a ↔ covers fb' a ∨ p ≤ a < p + n) ∧
    total_free fb = total_free fb' + n.

Lemma acquired_setup s fb size r p s1 :
  malloc_inv s fb → m_stat_mutex s1 = false → 0 < size ≤ r → acquired s fb r p s1 →
  p ≠ NULL →
  wp (setup_block p size) (λ '(p', n) s', p' = p ∧ allocated s fb size p n s') s1.
Proof.
  intros Hi Hst Hsz [(-> & _)|(sz & Hp & Hle & _ & Hi1 & He1 & Hss)] Hnn; [done|].
  pose proof (inv_block _ _ Hi _ _ Hp) as [Hpos Hal Hend _].
  destruct (inv_pow2 _ _ Hi _ _ Hp) as [Hpw _]. pose proof He1 as (Hh1 & _ & _).
  eapply wp_mono; [apply (setup_block_spec s1 (delete p fb) p sz size); try done|].
  - by eapply region_delete.
  - rewrite Hh1. by eapply class_bound.
  - rewrite Hss. by eapply inv_size.
  - lia.
  - intros [p' n] s2 (n' & [= -> ->] & Hn & Hfit & He2 & fb2 & Hi2 & Hr2 & [Hc Ht]).
    split; [done|]. exists fb2. split_and!; try done; [by eapply same_env_trans|lia..| |].
    + intros a. rewrite <-Hc. by apply covers_delete.
    + rewrite (total_free_delete fb p sz) by done. lia.
Qed.

Lemma round_up_least size r q :
  round_up size = Some r → 2 ≤ size ≤ 2 ^ 31 → pow2 q → q < r → q < size.
Proof.
  intros Hr Hsz Hq Hlt. destruct (round_up_spec size Hsz) as (r' & Hr' & Hpr & Hb).
  rewrite Hr in Hr'. simplify_eq.
  pose proof (pow2_le_half q r' Hq Hpr Hlt) as Hd%Z.divide_pos_le; lia.
Qed.

(** Acquiring a block and setting it up, or finding that there is none. *)
Lemma acquire_setup {A} s fb size priority r (k : ptr → M mstate A) Q :
  malloc_inv s fb → 2 ≤ size ≤ 2 ^ 31 → round_up size = Some r →
  (refused s fb size priority → wp (k NULL) Q s) →
  (∀ p s1, p ≠ NULL → 16 ≤ r → acquired s fb r p s1 → wp (k p) Q s1) →
  wp (out ← acquire_block r; k out) Q s.
Proof.
  intros Hi Hsz Hr Hnull Hsome.
  destruct (round_up_spec size Hsz) as (r' & Hr' & Hpr & Hb).
  rewrite Hr in Hr'. simplify_eq. apply wp_bind.
  destruct (Z.lt_ge_cases r' 16) as [Hlt|Hge].
  - eapply wp_mono; [by apply (acquire_block_small s fb)|]. intros p s' [-> ->].
    apply Hnull. left. destruct (Z.le_gt_cases size 8); [done|]. exfalso.
    assert (r' ≤ 8); [|lia]. destruct Hpr as (k' & Hk & ->).
    change 8 with (2 ^ 3). apply Z.pow_le_mono_r; [lia|].
    assert (k' < 4); [|lia]. apply (Z.pow_lt_mono_r_iff 2); lia.
  - eapply wp_mono; [by apply (acquire_block_spec s fb)|]. intros p s' Hacq.
    destruct (decide (p = NULL)) as [->|Hnn]; [|by apply Hsome].
    destruct Hacq as [(_ & -> & Hno)|(sz & Hp & _)].
    + apply Hnull. right; left. intros q sq Hq.
      eapply round_up_least; [done|done| |by apply (Hno q)]. by eapply inv_pow2.
    + pose proof (bk_pos _ _ _ (inv_block _ _ Hi _ _ Hp)). by unfold NULL in *.
Qed.

Lemma acquired_stat s fb r p s1 :
  acquired s fb r p s1 → m_stat_mutex s1 = m_stat_mutex s.
Proof. intros [(_ & -> & _)|(sz & _ & _ & _ & _ & (_ & ? & _) & _)]; done. Qed.

Definition malloc_result s fb (size priority : Z) (pn : ptr * Z) (s' : mstate) : Prop :=
  let '(p, n) := pn in
  (p = NULL ∧ n = size ∧ s' = s ∧ refused s fb size priority) ∨
  (p ≠ NULL ∧ allocated s fb size p n s' ∧ ¬ refused s fb size priority).

Lemma setup_result s fb size priority r p s1 :
  malloc_inv s fb → m_stat_mutex s1 = false → 2 ≤ size ≤ 2 ^ 31 → round_up size = Some r →
  16 ≤ r → (priority = 0 → reserve_left s r = true) → acquired s fb r p s1 →
  p ≠ NULL → wp (setup_block p size) (malloc_result s fb size priority) s1.
Proof.
  intros Hi Hst Hsz Hr Hr16 Hres Hacq Hnn.
  destruct (round_up_spec size Hsz) as (r' & Hr' & _ & Hb). rewrite Hr in Hr'. simplify_eq.
  eapply wp_mono; [eapply (acquired_setup s fb size r'); try done; lia|].
  intros [p' n] s' [-> Hal]. right. split_and!; [done|done|].
  intros [Hsmall|[Hno|(-> & r & Hr2 & Hn)]].
  - pose proof (round_up_least size r' 8 Hr Hsz ltac:(by exists 3)). lia.
  - destruct Hacq as [[-> _]|(sz & Hp & Hle & _)]; [done|]. specialize (Hno p sz Hp). lia.
  - rewrite Hr in Hr2. injection Hr2 as <-. by rewrite Hres in Hn.
Qed.

Lemma inv_set_stat s fb b : malloc_inv s fb → malloc_inv (set_m_stat_mutex b s) fb.
Proof. intros [Hm [F Hr]]. split; [done|]. exists F. by apply (rep_ext s). Qed.

Lemma set_stat_id s : m_stat_mutex s = false →
  set_m_stat_mutex false (set_m_stat_mutex true s) = s.
Proof. destruct s; simpl. by intros ->. Qed.

Lemma kern_malloc_spec s fb size priority :
  malloc_inv s fb → m_stat_mutex s = false → 2 ≤ size ≤ 2 ^ 31 →
  wp (kern_malloc size priority) (malloc_result s fb size priority) s.
Proof.
  intros Hi Hst Hsz. destruct (round_up_spec size Hsz) as (r & Hr & Hpr & Hb).
  apply wp_bind, (wp_getopt _ r); [done|]. apply wp_bind, wp_lock; [done|].
  apply wp_bind, wp_gets. simpl.
  destruct ((r <=? u32 (heap_free s - EMERGENCY_STORE)) || negb (priority =? 0)) eqn:Hc.
  - assert (∀ p s1 (k : M mstate (ptr * Z)), p ≠ NULL → 16 ≤ r → acquired s fb r p s1 →
      wp (if negb (p =? NULL) then setup_block p size else k) (malloc_result s fb size priority) s1)
      as Hset.
    { intros p s1 k Hnn Hr16 Hacq. rewrite (proj2 (Z.eqb_neq p NULL)) by done. simpl.
      eapply setup_result; try done; [by rewrite (acquired_stat _ _ _ _ _ Hacq)|].
      intros ->. unfold reserve_left, EMERGENCY_STORE. by rewrite orb_false_r in Hc. }
    apply wp_bind, wp_unlock. rewrite set_stat_id by done.
    apply (acquire_setup s fb size priority); [done..| |].
    + intros _. simpl. apply wp_bind, wp_ret.
      apply (acquire_setup s fb size priority); [done..| |].
      * intros Href. simpl. apply wp_ret. by left.
      * intros p s1. apply Hset.
    + intros p s1. apply Hset.
  - apply orb_false_iff in Hc as [Hlow Hprio].
    assert (priority = 0) as -> by lia.
    apply wp_bind, wp_unlock. rewrite set_stat_id by done.
    apply wp_bind, wp_ret, wp_bind, wp_lock; [done|].
    apply wp_bind, wp_gets. simpl. rewrite Hlow. apply wp_bind, wp_ret. simpl.
    apply wp_bind, wp_unlock, wp_ret. left.
    rewrite set_stat_id by done. split_and!; [done..|].
    right; right. split; [done|]. exists r. done.
Qed.

(** ** A heap with one free block, for the witnesses *)

(** One block of 512 KB, at 512 KB. *)
Definition one_block : mstate :=
  MState {[ 2 ^ 19 := MemNode (2 ^ 19) (2 ^ 19) 0 (2 ^ 19) ]}
    (<[15%nat := 2 ^ 19]> (replicate 17 NULL)) 16
    {[ 2 ^ 19 mod HASH_TABLE_SIZE := 2 ^ 19 ]} (2 ^ 19) false false.
Definition one_free : gmap ptr Z := {[ 2 ^ 19 := 2 ^ 19 ]}.

Lemma one_free_lookup p sz : one_free !! p = Some sz ↔ p = 2 ^ 19 ∧ sz = 2 ^ 19.
Proof.
  unfold one_free. rewrite lookup_singleton_Some. split; intros [H1 H2]; split; congruence.
Qed.

Lemma one_block_table : refines_map mem_hash one_block (self_map one_free).
Proof.
  exists (λ i, if decide (i = 2 ^ 19 mod HASH_TABLE_SIZE) then [2 ^ 19] else []). split.
  - intros i _. case_decide as Hi.
    + subst i. split.
      * split; [by vm_compute|]. split; [done|]. by exists 0.
      * intros x ->%list_elem_of_singleton. exists (2 ^ 19). by split_and!.
    + split; [|set_solver]. cbn -[Z.pow Z.modulo].
      by rewrite lookup_singleton_ne by (intros E; by rewrite E in Hi).
  - intros k p. rewrite self_map_lookup. split.
    + intros (-> & sz & [-> _]%one_free_lookup). split; [done|].
      exists (2 ^ 19 mod HASH_TABLE_SIZE). rewrite decide_True by done. split; [by vm_compute|set_solver].
    + intros ([= <-] & i & _ & Hp). case_decide; [|set_solver].
      apply list_elem_of_singleton in Hp as ->. split; [done|]. exists (2 ^ 19). by apply one_free_lookup.
Qed.

Lemma one_block_ring hd i : block_lists one_block !! i = Some hd →
  clist mem_clist one_block hd (if decide (i = 15%nat) then [2 ^ 19] else []).
Proof.
  change (block_lists one_block) with (<[15%nat := 2 ^ 19]> (replicate 17 NULL)).
  intros Hhd. case_decide as Hi.
  - subst i. rewrite list_lookup_insert_eq in Hhd by (rewrite length_replicate; lia).
    injection Hhd as <-. split; [by vm_compute|]. split; [apply NoDup_singleton|].
    split; [by intros x ->%list_elem_of_singleton|by vm_compute].
  - rewrite list_lookup_insert_ne in Hhd by done.
    apply lookup_replicate_1 in Hhd as [-> _]. apply clist_empty.
Qed.

Lemma one_block_inv : malloc_inv one_block one_free.
Proof.
  split; [done|]. exists (λ i, if decide (i = 15%nat) then [2 ^ 19] else []).
  assert (length (block_lists one_block) = 17%nat) as Hlen by done.
  split; [done|done| | |apply one_block_table| | | |done].
  - intros i hd. apply one_block_ring.
  - intros i p. rewrite Hlen, one_free_lookup. intros Hi. case_decide as H15.
    + subst. rewrite list_elem_of_singleton. by split; [|intros [-> _]].
    + split; [set_solver|]. intros [_ He]. exfalso. apply H15.
      apply (Z.pow_inj_r 2) in He; lia.
  - intros p sz [-> ->]%one_free_lookup. split; [done|by exists 1|done|].
    exists 15%nat. rewrite Hlen. by split; [lia|].
  - by intros p sz [-> ->]%one_free_lookup.
  - intros p sz [-> ->]%one_free_lookup. intros q sq [Hne Hq]%lookup_delete_Some.
    by apply one_free_lookup in Hq as [-> _].
Qed.

(** ** Properties *)

(** C1: [kern_free] gives back exactly the memory it is handed.  Freeing a
    region that is not free terminates without a fault, keeps the heap well
    formed (size classes, hash table, alignment, disjoint blocks, the byte
    count), and afterwards the free addresses are the old ones and those of
    the region.  (Heap and region lie below 2^31.) *)
Theorem kern_free_gives_back s fb p size :
  malloc_inv s fb → m_stat_mutex s = false → region fb p size → fits p size →
  ∃ s' fb', kern_free p size s = Done (tt, s') ∧ malloc_inv s' fb' ∧
    (∀ a, covers fb' a ↔ covers fb a ∨ p ≤ a < p + size) ∧
    total_free fb' = total_free fb + size.
Proof.
  intros Hi Hst Hr Hf.
  pose proof (kern_free_spec s fb p size Hi Hst Hr Hf) as ([] & s' & Hs' & fb' & Hi' & _ & Hc)%wp_Done.
  eauto 6.
Qed.

(** The lower neighbour of the free block, which it merges with. *)
Lemma kern_free_gives_back_witness :
  ∃ s' fb', kern_free (2 ^ 18) (2 ^ 18) one_block = Done (tt, s') ∧ malloc_inv s' fb' ∧
    (∀ a, covers fb' a ↔ covers one_free a ∨ 2 ^ 18 ≤ a < 2 ^ 18 + 2 ^ 18) ∧
    total_free fb' = total_free one_free + 2 ^ 18.
Proof.
  apply (kern_free_gives_back one_block one_free); [exact one_block_inv|reflexivity| |].
  - constructor; [lia|lia|exists (2 ^ 14); reflexivity|lia|].
    intros q sq [-> ->]%one_free_lookup. left. lia.
  - exists (2 ^ 18). split; [exists 18; split; [lia|reflexivity]|]. split; [exists 1; reflexivity|].
    unfold LARGEST_BLOCK. lia.
Defined.



(** [acquire_block] is a best fit: for a size class it takes off the free
    lists a smallest free block that is large enough, and it finds none only
    when there is none. *)
Theorem acquire_block_best_fit s fb r :
  malloc_inv s fb → pow2 r → 16 ≤ r →
  ∃ p s', acquire_block r s = Done (p, s') ∧
    ((p = NULL ∧ s' = s ∧ ∀ q sq, fb !! q = Some sq → sq < r) ∨
     ∃ sz, fb !! p = Some sz ∧ r ≤ sz ∧
       (∀ q sq, fb !! q = Some sq → r ≤ sq → sz ≤ sq) ∧ malloc_inv s' (delete p fb)).
Proof.
  intros Hi Hp Hr.
  pose proof (acquire_block_spec s fb r Hi Hp Hr) as (p & s' & Hs' & Hacq)%wp_Done.
  exists p, s'. split; [done|]. destruct Hacq as [?|(sz & Hf & Hle & Hb & Hi' & _)]; [by left|].
  right. by exists sz.
Qed.

Lemma acquire_block_best_fit_witness :
  ∃ p s', acquire_block 64 one_block = Done (p, s') ∧
    ((p = NULL ∧ s' = one_block ∧ ∀ q sq, one_free !! q = Some sq → sq < 64) ∨
     ∃ sz, one_free !! p = Some sz ∧ 64 ≤ sz ∧
       (∀ q sq, one_free !! q = Some sq → 64 ≤ sq → sz ≤ sq) ∧
       malloc_inv s' (delete p one_free)).
Proof.
  apply acquire_block_best_fit; [exact one_block_inv|exists 6; split; [lia|reflexivity]|lia].
Defined.

(** The emergency reserve is not kept.  The test of [kern_malloc] subtracts
    the reserve in unsigned arithmetic, so once less than the reserve is free
    it always passes: a request of the lowest priority is then served from the
    reserve whenever some block is large enough. *)
Theorem kern_malloc_drains_reserve s fb size q sq :
  malloc_inv s fb → m_stat_mutex s = false → 9 ≤ size ≤ 2 ^ 31 →
  heap_free s < EMERGENCY_STORE → fb !! q = Some sq → size ≤ sq →
  ∃ p n s', kern_malloc size 0 s = Done ((p, n), s') ∧ p ≠ NULL.
Proof.
  intros Hi Hst Hsz Hfree Hq Hle.
  pose proof (kern_malloc_spec s fb size 0 Hi Hst ltac:(lia)) as ([p n] & s' & Hs' & Hres)%wp_Done.
  exists p, n, s'. split; [done|]. destruct Hres as [(-> & _ & _ & Ho)|[Hnn _]]; [|done].
  exfalso. destruct Ho as [?|[Hno|(_ & r & Hr & Hres)]]; [lia|by specialize (Hno q sq Hq); lia|].
  destruct (round_up_spec size) as (r' & Hr' & Hpw & Hb); [lia|].
  assert (r' = r) as -> by congruence.
  unfold reserve_left, EMERGENCY_STORE in *. pose proof (inv_free _ _ Hi) as Hf.
  pose proof (u32_range (total_free fb)).
  assert (u32 (heap_free s - 0x100000) = heap_free s - 0x100000 + 2 ^ 32) as Hu.
  { unfold u32. rewrite <-(Z_mod_plus_full _ 1), Z.mod_small; lia. }
  rewrite Hu in Hres.
  assert (r ≤ 2 ^ 31); [|lia].
  destruct (Z.le_gt_cases r (2 ^ 31)) as [|Hgt]; [done|]. exfalso.
  assert (pow2 (2 ^ 31)) as Hp31 by (exists 31; split; [lia|done]).
  pose proof (round_up_least size r (2 ^ 31) Hr ltac:(lia) Hp31 Hgt). lia.
Qed.

Lemma kern_malloc_drains_reserve_witness :
  ∃ p n s', kern_malloc 4096 0 one_block = Done ((p, n), s') ∧ p ≠ NULL.
Proof.
  apply (kern_malloc_drains_reserve one_block one_free 4096 (2 ^ 19) (2 ^ 19));
    [exact one_block_inv|reflexivity|lia|reflexivity|by apply one_free_lookup|lia].
Defined.

(** ** The upper half of memory *)

(** The hash of an address is a signed number, so that an address of the upper
    half has a bucket only when the remainder is zero. *)
Lemma upper_index s p :
  LOW_END ≤ p < 2 ^ 32 → (2 ^ 32 - p) mod HASH_TABLE_SIZE ≠ 0 → index_of mem_hash s p = None.
Proof.
  intros Hp Hr. unfold index_of, mem_hash. simpl. unfold bucket_index, PTR_TO_UINT. simpl.
  assert (s32 p = - (2 ^ 32 - p)) as ->.
  { unfold s32. rewrite u32_small by lia. rewrite (proj2 (Z.ltb_ge p (2 ^ 31))) by lia. lia. }
  assert (0 < HASH_TABLE_SIZE < 2 ^ 31) as Hs by done.
  rewrite Z.rem_opp_l, Z.rem_mod_nonneg by lia.
  pose proof (Z.mod_pos_bound (2 ^ 32 - p) HASH_TABLE_SIZE ltac:(lia)).
  set (r := (2 ^ 32 - p) mod HASH_TABLE_SIZE) in *.
  assert (u32 (- r) = 2 ^ 32 - r) as ->.
  { unfold u32. rewrite <-(Z_mod_plus_full _ 1), Z.mod_small; lia. }
  by rewrite (proj2 (Z.ltb_ge _ _)) by lia.
Qed.

Lemma lookup_addr_upper s p :
  m_mutex s = false → LOW_END ≤ p < 2 ^ 32 → (2 ^ 32 - p) mod HASH_TABLE_SIZE ≠ 0 →
  lookup_addr p s = Fault.
Proof.
  intros Hm Hp Hr. apply bind_out, wp_lock; [done|]. apply fault_bind, fault_bind.
  unfold hash_index, getopt. by rewrite upper_index.
Qed.

(** Memory of the upper half cannot be given back.  [PTR_TO_UINT] is a signed
    difference, and the index computed from a negative hash lies far outside
    the table: freeing a block dereferences memory outside the array as soon as
    the neighbour it asks for first is at such an address. *)
Theorem kern_free_upper_half_faults s p size a :
  m_mutex s = false → p ≠ NULL → addr_size p = Some a → 0 < size ≤ a → size < LARGEST_BLOCK →
  let q := if size <? a then p + size else p - size in
  LOW_END ≤ q < 2 ^ 32 → (2 ^ 32 - q) mod HASH_TABLE_SIZE ≠ 0 → kern_free p size s = Fault.
Proof.
  intros Hm Hp Ha Hs Hl q Hq Hr. unfold kern_free.
  rewrite (proj2 (Z.eqb_neq p NULL)), (proj2 (Z.eqb_neq size 0)) by (done || lia). simpl.
  assert (∀ s1, m_mutex s1 = false → lookup_addr q s1 = Fault) as Hq'
    by (intros; by apply lookup_addr_upper).
  assert (∀ v s1 (Q : unit → mstate → Prop), m_mutex s1 = false →
    (∀ s2, m_mutex s2 = false → Q tt s2) → wp (put_size p v) Q s1) as Hput.
  { intros v s1 Q H1 HQ. eapply wp_putopt; [by rewrite (proj2 (Z.eqb_neq p NULL)) by done|].
    by apply HQ. }
  apply bind_out, Hput; [done|]. intros s1 H1. apply fault_bind. unfold merge_block.
  apply bind_out, wp_gets. simpl. apply fault_bind. unfold merge_block_step.
  rewrite (proj2 (Z.ltb_lt size LARGEST_BLOCK)) by done. simpl.
  unfold q in *. destruct (Z.ltb_spec size a) as [Hlt|Hge].
  - apply fault_bind. unfold merge_block_forward. apply bind_out, wp_gets. simpl.
    apply fault_bind, fault_bind. unfold merge_forward_step. apply bind_out, (wp_getopt _ a); [done|].
    rewrite (proj2 (Z.ltb_lt size a)) by done. apply fault_bind. unfold ptr_add.
    rewrite u32_small by lia. by apply Hq'.
  - assert (size = a) as -> by lia.
    apply bind_out. unfold merge_block_forward. apply wp_bind, wp_gets, wp_bind. simpl. apply wp_bind.
    unfold merge_forward_step. apply wp_bind, (wp_getopt _ a); [done|].
    rewrite Z.ltb_irrefl. apply wp_ret, wp_ret, wp_bind, Hput; [done|]. intros s2 H2. apply wp_ret.
    apply bind_out, (wp_getopt _ a); [done|]. rewrite Z.eqb_refl. apply fault_bind. unfold ptr_sub.
    rewrite u32_small by lia. by apply Hq'.
Qed.

(** Sixteen bytes above 2 GB, next to a heap in the lower half. *)
Lemma kern_free_upper_half_faults_witness : kern_free (2 ^ 31 + 16) 16 one_block = Fault.
Proof.
  apply (kern_free_upper_half_faults one_block (2 ^ 31 + 16) 16 16);
    [reflexivity|discriminate|by vm_compute|lia|by vm_compute|by vm_compute|by vm_compute].
Defined.
