(* ===== verification/Alloc.v ===== *)
(** * Dynamic memory: the interface and its implementation

    [Allocator] is what the rest of the kernel expects of [malloc] and [free]:
    a set of live blocks that never overlap.  The components that allocate are
    verified against this interface; the instance at the end of the file
    discharges it with the functions of src/mem/malloc/malloc.c. *)

From S2P Require Import Prelude Bits Malloc MallocSpec.
#[local] Open Scope Z_scope.

(** The operations, over the state [T] of an allocator. *)
Record allocator (T : Type) := Allocator {
  al_malloc : Z → M T ptr;
  al_free : ptr → M T unit;
}.
Arguments Allocator {T}.
Arguments al_malloc {T}.
Arguments al_free {T}.

(** [live] maps the address of every live block to its capacity. *)
Class AllocatorOk {T} (A : allocator T) (inv : T → gmap ptr Z → Prop) : Prop := {
  al_malloc_ok t live n :
    inv t live → 0 ≤ n < 2 ^ 30 →
    wp (al_malloc A n)
       (λ p t', (p = NULL ∧ inv t' live) ∨
                (p ≠ NULL ∧ ∃ c, n ≤ c ∧ live !! p = None ∧ inv t' (<[p := c]> live))) t;
  al_free_ok t live p c :
    inv t live → live !! p = Some c →
    wp (al_free A p) (λ _ t', inv t' (delete p live)) t;
  al_disjoint t live p c q d :
    inv t live → live !! p = Some c → live !! q = Some d → p ≠ q → 0 < c → 0 < d →
    p + c ≤ q ∨ q + d ≤ p;
  al_nonnull t live p : inv t live → is_Some (live !! p) → p ≠ NULL;
}.

(** ** [malloc] and [free] *)

(** [malloc] keeps the size of a block in the block's first word; [words] are
    these words. *)
Record astate := AState {
  a_heap : mstate;
  words : gmap ptr Z;
}.

Definition set_a_heap (h : mstate) (t : astate) : astate := AState h (words t).
Definition set_words (w : gmap ptr Z) (t : astate) : astate := AState (a_heap t) w.

Definition malloc (size : Z) : M astate ptr :=
  '(out, size) ← zoom a_heap set_a_heap (kern_malloc (u32 (size + 4)) 0);
  if negb (out =? NULL) then
    modify (λ t, set_words (<[out := size]> (words t)) t);;
    mret (ptr_add out 4)
  else mret out.

Definition free (p : ptr) : M astate unit :=
  size ← getopt (λ t, words t !! ptr_sub p 4);
  zoom a_heap set_a_heap (kern_free (ptr_sub p 4) size).

Definition malloc_allocator : allocator astate := Allocator malloc free.

(** ** The implementation meets the interface *)

(** A live block of capacity [c] at [p] and the word in front of it. *)
Record live_block (fb : gmap ptr Z) (w : gmap ptr Z) (p c : Z) : Prop := {
  lb_region : region fb (p - 4) (c + 4);
  lb_fits : fits (p - 4) (c + 4);
  lb_cap : 0 ≤ c;
  lb_word : w !! (p - 4) = Some (c + 4);
}.

Record alloc_rep (t : astate) (live fb : gmap ptr Z) : Prop := {
  ai_heap : malloc_inv (a_heap t) fb;
  ai_stat : m_stat_mutex (a_heap t) = false;
  ai_live p c : live !! p = Some c → live_block fb (words t) p c;
  ai_disj p c q d : live !! p = Some c → live !! q = Some d → p ≠ q →
    p + c ≤ q - 4 ∨ q + d ≤ p - 4;
}.

Definition alloc_inv (t : astate) (live : gmap ptr Z) : Prop := ∃ fb, alloc_rep t live fb.

(** Disjointness of a region, by addresses. *)
Lemma region_covers fb p sz a : region fb p sz → covers fb a → ¬ (p ≤ a < p + sz).
Proof. intros [_ _ _ _ Hd] (q & sq & Hq & Ha). destruct (Hd q sq Hq); lia. Qed.

Lemma region_intro fb fb' p sz :
  sizes_pos fb' → region fb p sz → 0 < sz →
  (∀ a, covers fb' a → ¬ (p ≤ a < p + sz)) → region fb' p sz.
Proof.
  intros Hpos [Hp Hn Hg He _] Hsz Hc. split; [done..|].
  intros q f Hq. pose proof (Hpos q f Hq).
  destruct (Z.le_gt_cases (p + sz) q); [by left|]. right.
  destruct (Z.le_gt_cases (q + f) p); [done|]. exfalso.
  apply (Hc (Z.max p q)); [|lia]. exists q, f. split; [done|lia].
Qed.

Lemma region_shrink fb fb' p sz :
  sizes_pos fb' → region fb p sz → 0 < sz → (∀ a, covers fb' a → covers fb a) →
  region fb' p sz.
Proof.
  intros Hpos Hr Hsz Hsub. eapply region_intro; [done..|].
  intros a Ha. by apply (region_covers fb), Hsub.
Qed.

Lemma live_block_mono fb fb' w w' p c :
  live_block fb w p c → region fb' (p - 4) (c + 4) → w' !! (p - 4) = w !! (p - 4) →
  live_block fb' w' p c.
Proof. intros [Hr Hf Hc Hw] Hr' Hw'. split; [done..|by rewrite Hw']. Qed.

Lemma malloc_ok t live n :
  alloc_inv t live → 0 ≤ n < 2 ^ 30 →
  wp (malloc n)
     (λ p t', (p = NULL ∧ alloc_inv t' live) ∨
              (p ≠ NULL ∧ ∃ c, n ≤ c ∧ live !! p = None ∧ alloc_inv t' (<[p := c]> live))) t.
Proof.
  intros [fb [Hi Hst Hlive Hdis]] Hn. apply wp_bind, wp_zoom.
  rewrite u32_small by lia.
  eapply wp_mono; [by apply (kern_malloc_spec (a_heap t) fb); [..|lia]|].
  intros [q m] s' [(-> & -> & -> & _)|(Hnn & (fb' & Hi' & (_ & Hst' & _) & Hr' & Hfit & Hm & Hcov & _) & _)].
  { apply wp_ret. left. split; [done|]. destruct t; exists fb; by split. }
  rewrite (proj2 (Z.eqb_neq q NULL)) by done. simpl.
  apply wp_bind, wp_modify, wp_ret. pose proof Hr' as [Hq _ Hqg Hqe _].
  apply Z.divide_pos_le in Hqg as Hm16; [|lia].
  unfold ptr_add. rewrite u32_small by lia. right.
  assert (∀ a, q ≤ a < q + m → covers fb a) as Hnew by (intros a Ha; apply Hcov; by right).
  assert (∀ p c, live !! p = Some c → p + c ≤ q ∨ q + m ≤ p - 4) as Hsep.
  { intros p c Hp. destruct (Hlive p c Hp) as [Hrp _ Hc _].
    destruct (Z.le_gt_cases (p + c) q); [by left|right].
    destruct (Z.le_gt_cases (q + m) (p - 4)); [done|]. exfalso.
    apply (region_covers fb (p - 4) (c + 4) (Z.max q (p - 4))); [done|apply Hnew; lia|lia]. }
  split; [unfold NULL; lia|]. exists (m - 4).
  assert (live !! (q + 4) = None) as Hfresh.
  { destruct (live !! (q + 4)) as [c|] eqn:Hc; [|done].
    pose proof (lb_cap _ _ _ _ (Hlive _ _ Hc)). destruct (Hsep _ _ Hc); lia. }
  split_and!; [lia|done|]. exists fb'. split; simpl; [done|congruence|..].
  - intros p c. destruct (decide (q + 4 = p)) as [<-|Hne].
    + rewrite lookup_insert_eq. intros [= <-].
      replace (q + 4 - 4) with q by lia. replace (m - 4 + 4) with m by lia.
      split; replace (q + 4 - 4) with q by lia; replace (m - 4 + 4) with m by lia;
        [done|done|lia|by rewrite lookup_insert_eq].
    + rewrite lookup_insert_ne by done. intros Hp.
      eapply live_block_mono; [by apply Hlive| |rewrite lookup_insert_ne; [done|lia]].
      destruct (Hlive p c Hp). eapply region_shrink; [by eapply inv_sizes_pos|done|lia|].
      intros a Ha. apply Hcov. by left.
  - intros p c r d. destruct (decide (q + 4 = p)) as [<-|Hnp].
    + rewrite lookup_insert_eq. intros [= <-] Hr Hne. rewrite lookup_insert_ne in Hr by done.
      destruct (Hsep _ _ Hr); lia.
    + rewrite lookup_insert_ne by done. intros Hp. destruct (decide (q + 4 = r)) as [<-|Hnr].
      * rewrite lookup_insert_eq. intros [= <-] _. destruct (Hsep _ _ Hp); lia.
      * rewrite lookup_insert_ne by done. intros Hr Hne. eapply Hdis; eauto.
Qed.

Lemma free_ok t live p c :
  alloc_inv t live → live !! p = Some c →
  wp (free p) (λ _ t', alloc_inv t' (delete p live)) t.
Proof.
  intros [fb [Hi Hst Hlive Hdis]] Hp.
  destruct (Hlive p c Hp) as [Hr Hfit Hc Hw]. pose proof Hr as [Hpos _ _ Hend _].
  assert (ptr_sub p 4 = p - 4) as Hsub by (apply u32_small; lia).
  apply wp_bind, (wp_getopt _ (c + 4)); [by rewrite Hsub|]. rewrite Hsub.
  apply wp_zoom. eapply wp_mono; [by apply (kern_free_spec (a_heap t) fb)|].
  intros _ s' (fb' & Hi' & (_ & Hst' & _) & Hcov & _).
  exists fb'. split; simpl; [done|congruence|..].
  - intros q d [Hne Hq]%lookup_delete_Some. destruct (Hlive q d Hq) as [Hrq Hfq Hd Hwq].
    split; [|done..]. eapply region_intro; [by eapply inv_sizes_pos|done|lia|].
    intros a Ha%Hcov Hin. destruct Ha as [Ha|Ha]; [by eapply region_covers|].
    destruct (Hdis p c q d Hp Hq Hne); lia.
  - intros q d r e [_ Hq]%lookup_delete_Some [_ Hr']%lookup_delete_Some. by apply Hdis.
Qed.

Global Instance malloc_allocator_ok : AllocatorOk malloc_allocator alloc_inv.
Proof.
  split.
  - apply malloc_ok.
  - apply free_ok.
  - intros t live p c q d [fb [_ _ _ Hdis]] Hp Hq Hne _ _.
    destruct (Hdis p c q d Hp Hq Hne); lia.
  - intros t live p [fb [_ _ Hlive _]] [c Hc] ->.
    destruct (Hlive _ _ Hc) as [[Hpos _ _ _ _] _ _ _]. unfold NULL in *. lia.
Qed.

(** Requests below the smallest size class find no class to search. *)
Lemma kern_malloc_small s fb size priority :
  malloc_inv s fb → m_stat_mutex s = false → 2 ≤ size ≤ 8 →
  kern_malloc size priority s = Done ((NULL, size), s).
Proof.
  intros Hi Hst Hsz.
  assert (wp (kern_malloc size priority) (λ r s', r = (NULL, size) ∧ s' = s) s)
    as (r & s' & Hr & -> & ->)%wp_Done; [|done].
  destruct (round_up_spec size) as (r & Hr & Hp & Hb); [lia|].
  assert (r < 16).
  { destruct (Z.lt_ge_cases r 16) as [|Hge]; [done|].
    assert (pow2 8) as H8 by (by exists 3).
    pose proof (round_up_least size r 8 Hr). lia. }
  assert (∀ B (k : ptr → M mstate B) Q, wp (k NULL) Q s →
    wp (out ← acquire_block r; k out) Q s) as Hacq.
  { intros B k Q HQ. apply wp_bind. eapply wp_mono; [by apply (acquire_block_small s fb)|].
    by intros p s' [-> ->]. }
  apply wp_bind, (wp_getopt _ r); [done|]. apply wp_bind, wp_lock; [done|].
  apply wp_bind, wp_gets. destruct (_ || _).
  - apply wp_bind, wp_unlock. rewrite set_stat_id by done.
    apply Hacq. apply wp_bind, wp_ret, Hacq. by apply wp_ret.
  - apply wp_bind, wp_unlock. rewrite set_stat_id by done.
    apply wp_bind, wp_ret, wp_bind, wp_lock; [done|]. apply wp_bind, wp_gets, wp_bind.
    destruct (_ <=? _).
    + eapply wp_mono; [apply (acquire_block_small (set_m_stat_mutex true s) fb);
        [by apply inv_set_stat|done|lia]|]. intros p s' [-> ->].
      apply wp_bind, wp_unlock. rewrite set_stat_id by done. by apply wp_ret.
    + apply wp_ret, wp_bind, wp_unlock. rewrite set_stat_id by done. by apply wp_ret.
Qed.

(** ** Properties *)

(** C16: the contract of [malloc].  It terminates without a fault and returns
    either null, with the live blocks as they were, or the address of a new
    live block of at least [n] bytes that overlaps no other live block.  (The
    heap lies below 2^31.) *)
Theorem malloc_fresh_block t live n :
  alloc_inv t live → 0 < n < 2 ^ 30 →
  ∃ p t', malloc n t = Done (p, t') ∧
    ((p = NULL ∧ alloc_inv t' live) ∨
     (p ≠ NULL ∧ ∃ c, n ≤ c ∧ alloc_inv t' (<[p := c]> live) ∧
      ∀ q d, live !! q = Some d → 0 < d → p + c ≤ q ∨ q + d ≤ p)).
Proof.
  intros Hi Hn. pose proof (malloc_ok t live n Hi ltac:(lia)) as (p & t' & Ht & Hres)%wp_Done.
  exists p, t'. split; [done|]. destruct Hres as [?|(Hnn & c & Hc & Hfr & Hi')]; [by left|right].
  split; [done|]. exists c. split_and!; [done|done|]. intros q d Hq Hd.
  assert (p ≠ q) as Hne by (intros ->; congruence).
  eapply (al_disjoint t' (<[p := c]> live) p c q d Hi'); [apply lookup_insert_eq| |done|lia|done].
  by rewrite lookup_insert_ne.
Qed.

(** One free block and no live one. *)
Lemma fresh_allocator : alloc_inv (AState one_block ∅) ∅.
Proof. exists one_free. split; [exact one_block_inv|done|by intros|by intros]. Qed.

Lemma malloc_fresh_block_witness :
  ∃ p t', malloc 100 (AState one_block ∅) = Done (p, t') ∧
    ((p = NULL ∧ alloc_inv t' ∅) ∨
     (p ≠ NULL ∧ ∃ c, 100 ≤ c ∧ alloc_inv t' (<[p := c]> ∅) ∧
      ∀ q d, (∅ : gmap ptr Z) !! q = Some d → 0 < d → p + c ≤ q ∨ q + d ≤ p)).
Proof. apply malloc_fresh_block; [exact fresh_allocator|lia]. Defined.

(** [malloc] never serves a request of at most four bytes: with its size
    word the block would belong to a class below the smallest, whose index
    wraps around, so null is returned however much memory is free. *)
Theorem malloc_tiny_fails t live n :
  alloc_inv t live → 0 ≤ n ≤ 4 → malloc n t = Done (NULL, t).
Proof.
  intros [fb [Hi Hst _ _]] Hn. unfold malloc, mbind, M_bind, zoom.
  rewrite u32_small by lia. rewrite (kern_malloc_small _ fb) by (first [done|lia]).
  by destruct t.
Qed.

Lemma malloc_tiny_fails_witness :
  malloc 4 (AState one_block ∅) = Done (NULL, AState one_block ∅).
Proof. apply (malloc_tiny_fails _ ∅); [exact fresh_allocator|lia]. Defined.

(** C34: memory survives a round trip.  A block that [malloc] returned can be
    freed, and the live blocks are then those before the call.  (The heap lies
    below 2^31.) *)
Theorem malloc_free_round_trip t live n p t' :
  alloc_inv t live → 0 < n < 2 ^ 30 → malloc n t = Done (p, t') → p ≠ NULL →
  ∃ t'', free p t' = Done (tt, t'') ∧ alloc_inv t'' live.
Proof.
  intros Hi Hn Hm Hnn. pose proof (malloc_ok t live n Hi ltac:(lia)) as Hw.
  unfold wp in Hw. rewrite Hm in Hw. destruct Hw as [[? _]|(_ & c & _ & Hfr & Hi')]; [done|].
  pose proof (free_ok t' _ p c Hi' (lookup_insert_eq _ _ _)) as ([] & t'' & Hf & Hi'')%wp_Done.
  exists t''. split; [done|]. by rewrite delete_insert_id in Hi''.
Qed.

Lemma malloc_free_round_trip_witness :
  ∃ t' t'', malloc 100 (AState one_block ∅) = Done (524292, t') ∧
    free 524292 t' = Done (tt, t'') ∧ alloc_inv t'' ∅.
Proof.
  assert (∃ t', malloc 100 (AState one_block ∅) = Done (524292, t')) as [t' Ht'].
  { eexists. vm_compute. reflexivity. }
  destruct (malloc_free_round_trip (AState one_block ∅) ∅ 100 524292 t') as (t'' & Hf & Hi);
    [exact fresh_allocator|lia|exact Ht'|discriminate|].
  exists t', t''. split; [exact Ht'|]. split; [exact Hf|exact Hi].
Defined.
