(* ===== verification/DynHash.v ===== *)
(** * The dynamic hash table template of include/data_structures.h

    [HASH_TABLE] generates the functions of [STAT_HASH_TABLE] over a table that
    is created at run time: its size is a field of the table and its buckets
    follow in the same block.  Once created, a table of [n] buckets behaves as
    the static template does for [n]; its creation is the new part, with the
    size of the block computed modulo 2^32. *)

From S2P Require Import Prelude HashTable MallocSpec Alloc.
#[local] Open Scope Z_scope.

(** The macro arguments.  [dh_sizes] and [dh_cells] are the fields [size] and
    [table] of the tables in memory: a cell is there if it lies in the block. *)
Record dyn_ops (St K : Type) := DynOps {
  dh_next : field St ptr;
  dh_id : St → ptr → option K;
  dh_eq : K → K → bool;
  dh_hash : St → K → option Z;
  dh_alloc : Z → M St ptr;
  dh_sizes : St → gmap ptr Z;
  dh_set_sizes : gmap ptr Z → St → St;
  dh_cells : St → gmap (ptr * Z) ptr;
  dh_set_cells : gmap (ptr * Z) ptr → St → St;
  dh_fuel : St → nat;
}.
Arguments DynOps {St K}.
Arguments dh_next {St K}.
Arguments dh_id {St K}.
Arguments dh_eq {St K}.
Arguments dh_hash {St K}.
Arguments dh_alloc {St K}.
Arguments dh_sizes {St K}.
Arguments dh_set_sizes {St K}.
Arguments dh_cells {St K}.
Arguments dh_set_cells {St K}.
Arguments dh_fuel {St K}.

(** [sizeof(prefix_hash_table)] and [sizeof(type)], a pointer. *)
Definition table_header : Z := 4.
Definition cell_bytes : Z := 4.

Section template.
Context {St K : Type} (D : dyn_ops St K).
(** What the cells of a new block hold. *)
Context (garbage : Z).

Definition dyn_get_size (table : ptr) : M St Z := getopt (λ s, dh_sizes D s !! table).
Definition dyn_get_cell (table : ptr) (i : Z) : M St ptr := getopt (λ s, dh_cells D s !! (table, i)).

(** [table->table[i] = p]: inside the block only. *)
Definition dyn_set_cell (table : ptr) (i : Z) (p : ptr) : M St unit :=
  putopt (λ s, _ ← dh_cells D s !! (table, i);
    Some (dh_set_cells D (<[(table, i) := p]> (dh_cells D s)) s)).

(** [out->size = size] *)
Definition dyn_set_size (out : ptr) (size : Z) : M St unit :=
  putopt (λ s, _ ← dh_sizes D s !! out; Some (dh_set_sizes D (<[out := size]> (dh_sizes D s)) s)).

(** The cells of a block of [n] bytes. *)
Definition block_cells (out n : Z) : gmap (ptr * Z) ptr :=
  list_to_map ((λ i, ((out, i), garbage)) <$> seqZ 0 ((n - table_header) / cell_bytes)).

(** The block that [alloc_func] returned, seen as a table. *)
Definition as_table (out n : Z) : M St unit :=
  modify (λ s,
    if (out =? NULL) || (n <? table_header) then s else
    dh_set_cells D (block_cells out n ∪ dh_cells D s)
      (dh_set_sizes D (<[out := garbage]> (dh_sizes D s)) s)).

Definition dyn_table_init (size : Z) : M St ptr :=
  let n := u32 (table_header + u32 (size * cell_bytes)) in
  out ← dh_alloc D n;
  as_table out n;;
  dyn_set_size out size;;
  for_upto (Z.to_nat size) 0 (λ i, dyn_set_cell out i NULL);;
  mret out.

(** [index = hash_func(key) % table->size]; the remainder by zero is undefined. *)
Definition dyn_index (table : ptr) (key : K) : M St Z :=
  h ← getopt (λ s, dh_hash D s key);
  n ← dyn_get_size table;
  if n =? 0 then fault else mret (u32 h mod n).

Definition dyn_table_insert (table inn : ptr) : M St K :=
  key ← getopt (λ s, dh_id D s inn);
  index ← dyn_index table key;
  hd ← dyn_get_cell table index;
  store (dh_next D) inn hd;;
  dyn_set_cell table index inn;;
  mret key.

(** One round of the [while(null != curr)] loop of the lookup. *)
Definition dyn_lookup_step (key : K) (curr : ptr) : M St (ptr + ptr) :=
  if curr =? NULL then mret (Break NULL) else
  k ← getopt (λ s, dh_id D s curr);
  if dh_eq D k key then mret (Break curr) else
  nxt ← load (dh_next D) curr;
  mret (Continue nxt).

Definition dyn_table_lookup (table : ptr) (key : K) : M St ptr :=
  index ← dyn_index table key;
  curr ← dyn_get_cell table index;
  fuel ← gets (dh_fuel D);
  loop fuel (dyn_lookup_step key) curr.

(** One round of the delete loop, on the pair [(last, curr)]. *)
Definition dyn_delete_step (key : K) (lc : ptr * ptr) : M St ((ptr * ptr) + ptr) :=
  let '(last, curr) := lc in
  if curr =? NULL then mret (Break NULL) else
  k ← getopt (λ s, dh_id D s curr);
  if dh_eq D k key then
    nxt ← load (dh_next D) curr;
    store (dh_next D) last nxt;;
    mret (Break curr)
  else
    nxt ← load (dh_next D) curr;
    mret (Continue (curr, nxt)).

Definition dyn_table_delete (table : ptr) (key : K) : M St ptr :=
  index ← dyn_index table key;
  curr ← dyn_get_cell table index;
  if curr =? NULL then mret NULL else
  k ← getopt (λ s, dh_id D s curr);
  if dh_eq D k key then
    nxt ← load (dh_next D) curr;
    dyn_set_cell table index nxt;;
    mret curr
  else
    nxt ← load (dh_next D) curr;
    fuel ← gets (dh_fuel D);
    loop fuel (dyn_delete_step key) (curr, nxt).
End template.

(** ** A table that exists is an instance of the static template *)

Class DynOk {St K} (D : dyn_ops St K) : Prop := {
  dk_next : FieldOk (dh_next D);
  dk_sizes : LensOk (dh_sizes D) (dh_set_sizes D);
  dk_cells m s : dh_cells D (dh_set_cells D m s) = m;
  dk_sizes_cells m s : dh_sizes D (dh_set_cells D m s) = dh_sizes D s;
  dk_cells_sizes m s : dh_cells D (dh_set_sizes D m s) = dh_cells D s;
  dk_next_sizes : Stable (dh_next D) (dh_sizes D);
  dk_next_cells : Stable (dh_next D) (dh_cells D);
  dk_id p : Stable (dh_next D) (λ s, dh_id D s p);
  dk_hash k : Stable (dh_next D) (λ s, dh_hash D s k);
  dk_id_cells p m s : dh_id D (dh_set_cells D m s) p = dh_id D s p;
  dk_hash_cells k m s : dh_hash D (dh_set_cells D m s) k = dh_hash D s k;
  dk_get_cells m s p : fget (dh_next D) (dh_set_cells D m s) p = fget (dh_next D) s p;
  dk_fuel s l : NoDup l → (∀ x, x ∈ l → is_Some (fget (dh_next D) s x)) →
    (length l < dh_fuel D s)%nat;
}.
Global Existing Instances dk_next dk_sizes dk_next_sizes dk_next_cells.

Section view.
Context {St K : Type} (D : dyn_ops St K) `{!DynOk D}.

(** The static template of the table at [table] with [n] buckets. *)
Definition static_view (table : ptr) (n : Z) : hash_ops St K := {|
  ht_next := dh_next D;
  ht_id := dh_id D;
  ht_eq := dh_eq D;
  ht_hash s k := u32 <$> dh_hash D s k;
  ht_size := n;
  ht_slot s i := default NULL (dh_cells D s !! (table, i));
  ht_set_slot i p s := dh_set_cells D (<[(table, i) := p]> (dh_cells D s)) s;
  ht_fuel := dh_fuel D;
|}.

(** [table] is a complete table of [n] buckets. *)
Record is_table (s : St) (table : ptr) (n : Z) : Prop := {
  it_size : dh_sizes D s !! table = Some n;
  it_range : 0 < n < 2 ^ 32;
  it_cells i : 0 ≤ i < n → is_Some (dh_cells D s !! (table, i));
}.

Lemma view_slot_frame {T} table n (obs : St → T) :
  Stable (dh_next D) obs → (∀ m s, obs (dh_set_cells D m s) = obs s) → HashFrame (static_view table n) obs.
Proof. intros Hn Hc. split; [done|]. intros i p s. apply Hc. Qed.

Lemma static_view_ok table n : 0 < n < 2 ^ 32 → HashOk (static_view table n).
Proof.
  intros Hn. split; simpl.
  - apply dk_next.
  - done.
  - intros i s p v s' Hs. by rewrite (dk_next_cells _ _ _ _ Hs).
  - intros p. apply view_slot_frame; [apply dk_id|apply dk_id_cells].
  - intros k. apply view_slot_frame.
    + intros s p v s' Hs. by rewrite (dk_hash k _ _ _ _ Hs).
    + intros m s. by rewrite dk_hash_cells.
  - intros i p s q. apply dk_get_cells.
  - intros i p s. by rewrite dk_cells, lookup_insert_eq.
  - intros i j p s Hij. rewrite dk_cells, lookup_insert_ne by congruence. done.
  - apply dk_fuel.
Qed.

(** Each operation on an existing table is the static one. *)
Section equal.
Context (s : St) (table n : Z) (Ht : is_table s table n).

Lemma dyn_index_eq key {A} (f : Z → M St A) o :
  (∀ h, dh_hash D s key = Some h → f (u32 h mod n) s = o (u32 h mod n) s) →
  (dyn_index D table key ≫= f) s = (hash_index (static_view table n) key ≫= o) s.
Proof.
  intros Hf. destruct Ht as [Hs Hr _]. pose proof (static_view_ok table n Hr).
  unfold dyn_index, hash_index, dyn_get_size, getopt, mbind, M_bind, mret, M_ret. simpl.
  destruct (dh_hash D s key) as [h|] eqn:Hh.
  - rewrite (index_unsigned (static_view table n) s key (u32 h)); [|simpl; by rewrite Hh|apply u32_range].
    rewrite Hs, (proj2 (Z.eqb_neq n 0)) by lia. by apply Hf.
  - unfold index_of. simpl. by rewrite Hh.
Qed.

Lemma get_cell_eq i {A} (f : ptr → M St A) :
  0 ≤ i < n → (dyn_get_cell D table i ≫= f) s = (gets (λ s, ht_slot (static_view table n) s i) ≫= f) s.
Proof.
  intros Hi. unfold dyn_get_cell, getopt, gets, mbind, M_bind. simpl.
  destruct (it_cells _ _ _ Ht i Hi) as [p ->]. done.
Qed.

Lemma dyn_lookup_eq key : dyn_table_lookup D table key s = hash_table_lookup (static_view table n) key s.
Proof.
  unfold dyn_table_lookup, hash_table_lookup. apply dyn_index_eq. intros h _.
  apply get_cell_eq. apply Z.mod_pos_bound, Ht.
Qed.

Lemma set_cell_eq s0 i p : dh_cells D s0 = dh_cells D s → 0 ≤ i < n →
  dyn_set_cell D table i p s0 = modify (ht_set_slot (static_view table n) i p) s0.
Proof.
  intros Hs Hi. unfold dyn_set_cell, putopt, modify. simpl. rewrite Hs.
  by destruct (it_cells _ _ _ Ht i Hi) as [q ->].
Qed.

Lemma dyn_insert_eq inn : dyn_table_insert D table inn s = hash_table_insert (static_view table n) inn s.
Proof.
  unfold dyn_table_insert, hash_table_insert.
  unfold mbind at 1 6, M_bind at 1 6, getopt. simpl. destruct (dh_id D s inn) as [key|]; [|done].
  apply dyn_index_eq. intros h _. pose proof (Z.mod_pos_bound (u32 h) n ltac:(apply Ht)) as Hr.
  rewrite get_cell_eq by done. unfold gets, store, putopt, mbind, M_bind. simpl.
  destruct (fset (dh_next D) s inn _) as [s'|] eqn:Hs; [|done]. rewrite set_cell_eq; [done| |done].
  by apply dk_next_cells in Hs.
Qed.

Lemma dyn_delete_eq key : dyn_table_delete D table key s = hash_table_delete (static_view table n) key s.
Proof.
  unfold dyn_table_delete, hash_table_delete. apply dyn_index_eq. intros h _.
  pose proof (Z.mod_pos_bound (u32 h) n ltac:(apply Ht)) as Hr. rewrite get_cell_eq by done.
  unfold gets, mbind, M_bind. simpl. destruct (_ =? NULL); [done|].
  unfold getopt. destruct (dh_id D s _) as [k|]; [|done]. destruct (dh_eq D k key); [|done].
  unfold load, getopt. simpl. destruct (fget (dh_next D) s _) as [q|]; [|done]. by rewrite set_cell_eq.
Qed.
End equal.

(** Operations leave the tables in place. *)
Definition table_shape (s : St) := (dh_sizes D s, dom (dh_cells D s)).

Lemma set_cell_shape sh table i p : keeps (λ s, table_shape s = sh) (dyn_set_cell D table i p).
Proof.
  apply keeps_putopt. intros s s' <-. destruct (dh_cells D s !! (table, i)) eqn:Hc; [|done].
  intros [= <-]. unfold table_shape. rewrite dk_sizes_cells, dk_cells, dom_insert_lookup_L by eauto. done.
Qed.

Lemma store_shape sh p v : keeps (λ s, table_shape s = sh) (store (dh_next D) p v).
Proof.
  apply keeps_store. intros s s' <- Hs. unfold table_shape.
  by rewrite (dk_next_sizes _ _ _ _ Hs), (dk_next_cells _ _ _ _ Hs).
Qed.
#[local] Hint Resolve set_cell_shape store_shape : keeps.

Lemma dyn_insert_shape sh table inn : keeps (λ s, table_shape s = sh) (dyn_table_insert D table inn).
Proof. unfold dyn_table_insert, dyn_index, dyn_get_size, dyn_get_cell. keeps_steps. Qed.

Lemma dyn_delete_shape sh table key : keeps (λ s, table_shape s = sh) (dyn_table_delete D table key).
Proof. unfold dyn_table_delete, dyn_index, dyn_get_size, dyn_get_cell, dyn_delete_step. keeps_steps. Qed.

Lemma is_table_shape s s' table n : table_shape s' = table_shape s → is_table s table n → is_table s' table n.
Proof.
  intros [= Hs Hc] [H1 H2 H3]. split; [by rewrite Hs|done|].
  intros i Hi. apply elem_of_dom. rewrite Hc. by apply elem_of_dom, H3.
Qed.
End view.

(** ** Creating a table *)

(** A counting loop whose body fails at [k]. *)
Lemma for_upto_fault {St} (I : Z → St → Prop) (body : Z → M St unit) k n i s :
  (∀ j s, I j s → i ≤ j < k → wp (body j) (λ _ s', I (j + 1) s') s) →
  (∀ s, I k s → body k s = Fault) → I i s → i ≤ k < i + Z.of_nat n → for_upto n i body s = Fault.
Proof.
  intros Hb Hk. revert i s Hb. induction n as [|n IH]; intros i s Hb HI Hr; [lia|]. cbn [for_upto].
  destruct (decide (i = k)) as [->|Hne]; [by apply fault_bind, Hk|].
  apply bind_out. eapply wp_mono; [apply Hb; [done|lia]|]. intros [] s' HI'.
  apply IH; [|done|lia]. intros j s0 Hj Hjr. apply Hb; [done|lia].
Qed.

Lemma block_cells_lookup garbage out n i :
  block_cells garbage out n !! (out, i) =
    if decide (0 ≤ i < (n - table_header) / cell_bytes) then Some garbage else None.
Proof.
  unfold block_cells. set (k := (n - table_header) / cell_bytes). case_decide as Hi.
  - apply elem_of_list_to_map_1.
    + rewrite <-list_fmap_compose. apply NoDup_fmap; [intros ??; simpl; congruence|apply NoDup_seqZ].
    + apply list_elem_of_fmap. exists i. split; [done|]. apply elem_of_seqZ. lia.
  - apply not_elem_of_list_to_map_1. rewrite <-list_fmap_compose.
    intros (j & Hj & Hin%elem_of_seqZ)%list_elem_of_fmap. simpl in Hj. simplify_eq. lia.
Qed.

Section init.
Context {St K : Type} (D : dyn_ops St K) `{!DynOk D} (garbage : Z).

(** The cells of the block [out] of [k] cells, the first [j] of them cleared. *)
Definition cleared (S0 : gmap ptr Z) (out k j : Z) (s : St) : Prop :=
  dh_sizes D s = S0 ∧
  ∀ i, dh_cells D s !! (out, i) =
    if decide (0 ≤ i < k) then Some (if decide (i < j) then NULL else garbage) else None.

(** No table at [out] yet. *)
Definition no_table (out : ptr) (s : St) : Prop :=
  dh_sizes D s !! out = None ∧ ∀ i, dh_cells D s !! (out, i) = None.

Lemma set_cell_clear S0 out k j s :
  cleared S0 out k j s → 0 ≤ j < k → wp (dyn_set_cell D out j NULL) (λ _ s', cleared S0 out k (j + 1) s') s.
Proof.
  intros [HS Hc] Hj. pose proof (Hc j) as Hcj. rewrite decide_True in Hcj by lia.
  eapply wp_putopt; [by rewrite Hcj|]. split; [by rewrite dk_sizes_cells|]. intros i. rewrite dk_cells.
  destruct (decide (i = j)) as [->|Hne].
  - rewrite lookup_insert_eq, !decide_True by lia. done.
  - rewrite lookup_insert_ne by congruence. rewrite Hc. repeat case_decide; (done || lia).
Qed.

Lemma set_cell_outside S0 out k s : cleared S0 out k k s → 0 ≤ k → dyn_set_cell D out k NULL s = Fault.
Proof.
  intros [_ Hc] Hk. unfold dyn_set_cell, putopt. rewrite Hc, decide_False by lia. done.
Qed.

(** The block before the loop. *)
Lemma as_table_spec out n size s :
  no_table out s → out ≠ NULL → table_header ≤ n →
  ∃ s', cleared (<[out := size]> (dh_sizes D s)) out ((n - table_header) / cell_bytes) 0 s' ∧
    ∀ A (m : M St A), (as_table D garbage out n;; dyn_set_size D out size;; m) s = m s'.
Proof.
  intros [Hs Hc] Hn Hr. eexists. split.
  2: { intros A m. apply bind_out, wp_modify.
    rewrite (proj2 (Z.eqb_neq out NULL)) by done. rewrite (proj2 (Z.ltb_ge n table_header)) by done.
    apply bind_out. eapply wp_putopt; [simpl|reflexivity].
    rewrite dk_sizes_cells, (get_put _ _ (LensOk := dk_sizes)), lookup_insert_eq. done. }
  split.
  - rewrite (get_put _ _ (LensOk := dk_sizes)). by rewrite insert_insert_eq.
  - intros i. rewrite dk_cells_sizes, dk_cells, lookup_union_l by apply Hc. rewrite block_cells_lookup.
    case_decide; [|done]. by rewrite decide_False by lia.
Qed.

(** The bytes asked for, modulo 2^32. *)
Definition init_bytes (size : Z) : Z := u32 (table_header + u32 (size * cell_bytes)).

Lemma init_bytes_exact size : 0 ≤ size < 2 ^ 30 - 1 → init_bytes size = table_header + cell_bytes * size.
Proof.
  intros Hs. unfold init_bytes, table_header, cell_bytes. rewrite (u32_small (size * 4)) by lia.
  rewrite u32_small by lia. lia.
Qed.

Lemma init_bytes_short size : 2 ^ 30 - 1 ≤ size < 2 ^ 32 →
  init_bytes size < table_header ∨
  table_header ≤ init_bytes size ∧ (init_bytes size - table_header) / cell_bytes < size.
Proof.
  intros Hs. unfold init_bytes, table_header, cell_bytes.
  assert (u32 (size * 4) = 4 * (size mod 2 ^ 30)) as ->.
  { unfold u32. replace (2 ^ 32) with (2 ^ 30 * 4) by done. rewrite Z.mul_mod_distr_r by lia. lia. }
  pose proof (Z.mod_pos_bound size (2 ^ 30) ltac:(lia)) as Hr.
  pose proof (Z.mod_le size (2 ^ 30) ltac:(lia) ltac:(lia)).
  destruct (decide (size mod 2 ^ 30 = 2 ^ 30 - 1)) as [->|Hne]; [left; done|right].
  rewrite u32_small by lia. replace (4 + 4 * (size mod 2 ^ 30) - 4) with (size mod 2 ^ 30 * 4) by lia.
  rewrite Z.div_mul by done. split; [lia|].
  destruct (decide (size < 2 ^ 30)); [|lia]. rewrite Z.mod_small in Hne by lia. lia.
Qed.

Lemma dyn_init_fails size s out s1 :
  2 ^ 30 - 1 ≤ size < 2 ^ 32 → dh_alloc D (init_bytes size) s = Done (out, s1) → no_table out s1 →
  out ≠ NULL → dyn_table_init D garbage size s = Fault.
Proof.
  intros Hs Ha Hno Hn. unfold dyn_table_init. fold (init_bytes size). apply bind_out. unfold wp. rewrite Ha.
  destruct (init_bytes_short size Hs) as [Hb|[Hb Hk]].
  - apply bind_out, wp_modify. rewrite (proj2 (Z.ltb_lt _ table_header)) by done. rewrite orb_true_r.
    apply fault_bind. unfold dyn_set_size, putopt. by rewrite (proj1 Hno).
  - destruct (as_table_spec out (init_bytes size) size s1 Hno Hn Hb) as (s2 & Hc & ->). apply fault_bind.
    set (k := (init_bytes size - table_header) / cell_bytes) in *.
    assert (0 ≤ k) by (apply Z.div_pos; unfold cell_bytes; lia).
    eapply (for_upto_fault (cleared (<[out:=size]> (dh_sizes D s1)) out k) _ k); [..|exact Hc|lia].
    + intros j s' Hj Hr. apply set_cell_clear; [done|lia].
    + intros s' Hj. by eapply set_cell_outside.
Qed.

Lemma dyn_init_spec size s out s1 :
  0 ≤ size < 2 ^ 30 - 1 → dh_alloc D (init_bytes size) s = Done (out, s1) → no_table out s1 →
  out ≠ NULL →
  wp (dyn_table_init D garbage size)
     (λ r s', r = out ∧ cleared (<[out := size]> (dh_sizes D s1)) out size size s') s.
Proof.
  intros Hs Ha Hno Hn. unfold dyn_table_init. fold (init_bytes size). apply wp_bind. unfold wp at 1. rewrite Ha.
  destruct (as_table_spec out (init_bytes size) size s1 Hno Hn) as (s2 & Hc & Heq).
  { rewrite init_bytes_exact by done. unfold table_header, cell_bytes. lia. }
  unfold wp. rewrite Heq. fold (wp (A := ptr) (St := St)). apply wp_bind.
  rewrite init_bytes_exact in Hc by done.
  replace ((table_header + cell_bytes * size - table_header) / cell_bytes) with size in Hc
    by (rewrite Z.add_simpl_l, (Z.mul_comm cell_bytes), Z.div_mul; done).
  eapply wp_mono; [eapply (wp_for_upto (cleared (<[out:=size]> (dh_sizes D s1)) out size)); [|exact Hc]|].
  - intros j s' Hj HI. apply set_cell_clear; [done|lia].
  - intros [] s'; cbn beta. rewrite Z2Nat.id by lia. intros Hc'. by apply wp_ret.
Qed.
End init.

(** ** The contract *)

Section contract.
Context {St K : Type} `{EqDecision K, !Countable K}.
Context (D : dyn_ops St K) `{!DynOk D} (dh_eq_spec : ∀ a b, dh_eq D a b = true ↔ a = b).

(** The table at [table] is complete and represents [m]. *)
Definition dyn_refines (s : St) (table : ptr) (n : Z) (m : gmap K ptr) : Prop :=
  is_table D s table n ∧ refines_map (static_view D table n) s m.

Definition dyn_run (table : ptr) (c : hash_cmd K) : M St (K + ptr) :=
  match c with
  | HInsert inn => key ← dyn_table_insert D table inn; mret (inl key)
  | HLookup key => p ← dyn_table_lookup D table key; mret (inr p)
  | HDelete key => p ← dyn_table_delete D table key; mret (inr p)
  end.

Lemma dyn_run_eq s table n c : is_table D s table n →
  dyn_run table c s = hash_run (static_view D table n) c s.
Proof.
  intros Ht. destruct c as [inn|key|key]; simpl; unfold mbind, M_bind.
  - by rewrite (dyn_insert_eq D s table n).
  - by rewrite (dyn_lookup_eq D s table n).
  - by rewrite (dyn_delete_eq D s table n).
Qed.

Lemma dyn_run_shape sh table c : keeps (λ s, table_shape D s = sh) (dyn_run table c).
Proof.
  pose proof (dyn_insert_shape D sh). pose proof (dyn_delete_shape D sh).
  assert (∀ key, keeps (λ s, table_shape D s = sh) (dyn_table_lookup D table key)).
  { intros key. unfold dyn_table_lookup, dyn_index, dyn_get_size, dyn_get_cell, dyn_lookup_step. keeps_steps. }
  destruct c; simpl; keeps_steps.
Qed.
End contract.

(** ** Properties *)

(** C21: a table created at run time implements a finite map, as the static
    tables do: every insertion, lookup and deletion terminates, returns what
    the map operation returns and leaves a complete table of the same size
    that represents the resulting map. *)
Theorem dyn_hash_refines_map {St K} `{EqDecision K, !Countable K} (D : dyn_ops St K) `{!DynOk D}
    s table n m c :
  (∀ a b, dh_eq D a b = true ↔ a = b) →
  dyn_refines D s table n m → hash_pre (static_view D table n) s m c →
  ∃ r s' m', dyn_run D table c s = Done (r, s') ∧ map_run (static_view D table n) s m c r m' ∧
    dyn_refines D s' table n m'.
Proof.
  intros Heq [Ht Hm] Hpre. pose proof (static_view_ok D table n (it_range _ _ _ _ Ht)) as Hok.
  assert (HashEq (static_view D table n)) as Heq' by exact Heq.
  destruct (hash_run_refines (static_view D table n) s m c Hm Hpre) as (r & s' & m' & Hr & Hrun & Hm').
  exists r, s', m'. rewrite (dyn_run_eq D s table n) by done. split_and!; [done..|]. split; [|done].
  eapply (is_table_shape D s); [|done]. eapply (dyn_run_shape D _ table c s eq_refl).
  by rewrite (dyn_run_eq D s table n).
Qed.

(** C32: how large a table can be.  The size of the block is computed modulo
    2^32, which is exact below 2^30 - 1 buckets: then the table is created with
    the size that was asked for and represents the empty map.  A larger table
    gets a block that is too small, and its initialisation writes past the end. *)
Theorem dyn_table_init_bounds {St K} `{EqDecision K, !Countable K} (D : dyn_ops St K) `{!DynOk D}
    garbage size s out s1 :
  0 ≤ size < 2 ^ 32 → dh_alloc D (init_bytes size) s = Done (out, s1) → no_table D out s1 → out ≠ NULL →
  (size < 2 ^ 30 - 1 → ∃ s2, dyn_table_init D garbage size s = Done (out, s2) ∧
     dh_sizes D s2 = <[out := size]> (dh_sizes D s1) ∧ (0 < size → dyn_refines D s2 out size ∅)) ∧
  (2 ^ 30 - 1 ≤ size → dyn_table_init D garbage size s = Fault).
Proof.
  intros Hs Ha Hno Hn. split; [|intros Hb; eapply (dyn_init_fails D garbage size s out s1); [lia|done..]].
  intros Hb. destruct (proj1 (wp_Done _ _ _) (dyn_init_spec D garbage size s out s1 ltac:(lia) Ha Hno Hn))
    as (r & s2 & Hi & -> & HS & Hc).
  exists s2. split_and!; [done|done|]. intros Hpos. split.
  - split; [by rewrite HS, lookup_insert_eq|lia|]. intros i Hi'. rewrite Hc, decide_True by done. eauto.
  - exists (λ _, []). split; [|intros k p; rewrite lookup_empty; set_solver].
    intros i Hi'. split; [|set_solver]. simpl in Hi' |- *. by rewrite Hc, !decide_True by lia.
Qed.

(** ** An instance *)

(** Keyed nodes in a store, tables from the kernel heap. *)
Record dyn_state := DynState {
  dy_nodes : gmap ptr (Z * ptr);
  dy_sizes : gmap ptr Z;
  dy_cells : gmap (ptr * Z) ptr;
  dy_heap : astate;
}.
Definition set_dy_nodes m s := DynState m (dy_sizes s) (dy_cells s) (dy_heap s).
Definition set_dy_sizes m s := DynState (dy_nodes s) m (dy_cells s) (dy_heap s).
Definition set_dy_cells m s := DynState (dy_nodes s) (dy_sizes s) m (dy_heap s).
Definition set_dy_heap t s := DynState (dy_nodes s) (dy_sizes s) (dy_cells s) t.

(** [STD_HASH_TABLE] passes [malloc] for [alloc_func]. *)
Definition std_hash : dyn_ops dyn_state Z := {|
  dh_next := node_field dy_nodes set_dy_nodes snd (λ v n, (n.1, v));
  dh_id s p := fst <$> dy_nodes s !! p;
  dh_eq := Z.eqb;
  dh_hash _ k := Some k;
  dh_alloc n := zoom dy_heap set_dy_heap (malloc n);
  dh_sizes := dy_sizes;
  dh_set_sizes := set_dy_sizes;
  dh_cells := dy_cells;
  dh_set_cells := set_dy_cells;
  dh_fuel s := S (base.size (dy_nodes s));
|}.

Lemma dy_nodes_lens : LensOk dy_nodes set_dy_nodes.
Proof. done. Qed.

Global Instance std_hash_ok : DynOk std_hash.
Proof.
  pose proof dy_nodes_lens. split; simpl; try done.
  - by apply node_field_ok.
  - by apply node_field_stable.
  - by apply node_field_stable.
  - intros p. intros s q v s'. simpl. destruct (dy_nodes s !! q) as [n|] eqn:Hn; [|done].
    intros [= <-]. simpl. destruct (decide (q = p)) as [->|]; [|by rewrite lookup_insert_ne].
    by rewrite lookup_insert_eq, Hn.
  - intros s l Hnd Hl. apply (store_fuel dy_nodes); [done|]. intros x Hx. specialize (Hl x Hx).
    simpl in Hl. destruct (dy_nodes s !! x); [eauto|by destruct Hl].
Qed.

Definition dyn_empty : dyn_state :=
  DynState {[800 := (5, 77)]} ∅ ∅ (AState one_block ∅).

(** A table of 16 buckets at the address that [malloc] gives. *)
Lemma dyn_table_init_bounds_witness :
  ∃ s2, dyn_table_init std_hash 99 16 dyn_empty = Done (524292, s2) ∧ dyn_refines std_hash s2 524292 16 ∅.
Proof.
  assert (∃ s1, dh_alloc std_hash (init_bytes 16) dyn_empty = Done (524292, s1) ∧ no_table std_hash 524292 s1)
    as (s1 & H1 & Hno) by (eexists; split; [vm_compute; reflexivity|by split]).
  destruct (dyn_table_init_bounds std_hash 99 16 dyn_empty 524292 s1) as [Hb _];
    [lia|exact H1|exact Hno|discriminate|].
  destruct (Hb ltac:(lia)) as (s2 & H2 & _ & Hr). exists s2. split; [exact H2|apply Hr; lia].
Defined.

(** A node is inserted into the table with one bucket. *)
Definition one_bucket : dyn_state :=
  DynState {[800 := (5, 77)]} {[524292 := 1]} {[(524292, 0) := NULL]} (AState one_block ∅).

Lemma dyn_hash_refines_map_witness :
  ∃ r s' m', dyn_run std_hash 524292 (HInsert 800) one_bucket = Done (r, s') ∧
    dyn_refines std_hash s' 524292 1 m'.
Proof.
  destruct (dyn_hash_refines_map std_hash one_bucket 524292 1 ∅ (HInsert 800)) as (r & s' & m' & Hr & _ & Hm).
  - intros a b. apply Z.eqb_eq.
  - split.
    + split; [reflexivity|lia|]. intros i Hi. replace i with 0 by lia. by eexists.
    + exists (λ _, []). split; [|intros k p; rewrite lookup_empty; set_solver].
      intros i Hi. simpl in Hi. replace i with 0 by lia. split; [reflexivity|set_solver].
  - split; [done|]. split; [by eexists|]. exists 5. split; [reflexivity|]. split; [by eexists|reflexivity].
  - exists r, s', m'. split; [exact Hr|exact Hm].
Defined.
