(* ===== verification/Realloc.v ===== *)
(** * Resizing blocks (src/mem/malloc/malloc.c)

    [kern_realloc] cuts a block down in place, lets it grow into the free
    blocks around it, or moves it.  The contents of a block are not part of the
    state of the heap; the copy that [kern_realloc] makes of them is part of
    its result. *)

From S2P Require Import Prelude HashTable CircularList Bits Malloc MallocSpec Alloc.
#[local] Open Scope Z_scope.
Implicit Types s : mstate.
Implicit Types fb : gmap ptr Z.

(** ** Operations *)

(** One round of [grow_block]; the state is [(ptr, *size)]. *)
Definition grow_step (new_size : Z) (ps : ptr * Z) : M mstate ((ptr * Z) + (ptr * Z)) :=
  let '(p, size) := ps in
  if negb (size <? new_size) then mret (Break (p, size)) else
  size ← live_merge_forward p size new_size;
  a ← getopt (λ _, addr_size p);
  if (size =? a) && (size <? new_size) then
    let back_ptr := ptr_sub p size in
    found ← lookup_addr back_ptr;
    mergeable ← (if negb (found =? 0) then
                   bsz ← get_size back_ptr; mret (bsz =? size)
                 else mret false);
    if (mergeable : bool) then
      delete_addr back_ptr;;
      bsz ← get_size back_ptr;
      put_size back_ptr (u32 (bsz * 2));;
      bsz ← get_size back_ptr;
      mret (Continue (back_ptr, bsz))
    else mret (Break (p, size))
  else mret (Break (p, size)).

(** Returns the block and the new value of [*size]. *)
Definition grow_block (p : ptr) (size new_size : Z) : M mstate (ptr * Z) :=
  fuel ← merge_fuel;
  loop fuel (grow_step new_size) (p, size).

(** One round of [cut_block_end]; the state is [(curr, free_size)]. *)
Definition cut_step (cf : ptr * Z) : M mstate ((ptr * Z) + unit) :=
  let '(curr, free_size) := cf in
  if negb (free_size =? 0) then
    a ← getopt (λ _, addr_size curr);
    in_size ← (if a <? free_size then mret a else getopt (λ _, round_down free_size));
    put_size curr in_size;;
    insert_addr curr;;
    mret (Continue (ptr_add curr in_size, u32 (free_size - in_size)))
  else mret (Break tt).

(** Returns the new value of [*min].  The pieces first grow with the alignment
    of [curr], at most once per bit of the address, and then shrink, at most
    once per bit of the size. *)
Definition cut_block_end (p : ptr) (min size : Z) : M mstate Z :=
  let start := u32 (Z.land min (Z.lnot BLOCK_MASK) + SMALLEST_BLOCK) in
  loop 64 cut_step (ptr_add p start, u32 (size - start));;
  mret start.

Definition trim_block (p : ptr) (size old_size : Z) : M mstate (ptr * Z) :=
  old_size ← live_merge_forward p old_size size;
  size ← cut_block_end p size old_size;
  mret (p, size).

(** A call of [memmove] or [memcpy]: destination, source and length. *)
Inductive copying := Memmove (dst src : ptr) (n : Z) | Memcpy (dst src : ptr) (n : Z).

(** [memcpy(out, ptr, copy_size); kern_free(grown, old_size); return out] *)
Definition move_block (out p grown : ptr) (size old_size copy_size : Z) :
    M mstate (ptr * Z * option copying) :=
  kern_free grown old_size;;
  mret (out, size, Some (Memcpy out p copy_size)).

(** The part of [kern_realloc] after the test of the free memory; the function
    contains it twice. *)
Definition grow_or_move (p : ptr) (size old_size : Z) : M mstate (ptr * Z * option copying) :=
  let copy_size := old_size in
  '(grown, old_size) ← grow_block p old_size size;
  if size <=? old_size then
    let copy := if negb (grown =? p) then Some (Memmove grown p copy_size) else None in
    size ← cut_block_end grown size old_size;
    mret (grown, size, copy)
  else
    '(out, size) ← kern_malloc size 1;
    if negb (out =? NULL) then move_block out p grown size old_size copy_size
    else
      empty_caches;;
      '(out, size) ← kern_malloc size 1;
      if negb (out =? NULL) then move_block out p grown size old_size copy_size
      else mret (NULL, old_size, None).

(** Returns the block, the new value of [*size] and the copy made. *)
Definition kern_realloc (p : ptr) (size old_size priority : Z) :
    M mstate (ptr * Z * option copying) :=
  if size <=? old_size then
    '(p, size) ← trim_block p size old_size;
    mret (p, size, None)
  else
    stat_lock;;
    free ← gets heap_free;
    if (u32 (size - old_size) <=? u32 (free - EMERGENCY_STORE)) || negb (priority =? 0) then
      stat_unlock;;
      grow_or_move p size old_size
    else
      stat_unlock;;
      empty_caches;;
      stat_lock;;
      free ← gets heap_free;
      if (u32 (size - old_size) <=? u32 (free - EMERGENCY_STORE)) || negb (priority =? 0) then
        stat_unlock;;
        grow_or_move p size old_size
      else mret (NULL, old_size, None).

(** [realloc] finds the size of the old block in the word in front of it. *)
Definition realloc (p : ptr) (size : Z) : M astate ptr :=
  old ← getopt (λ t, words t !! ptr_sub p 4);
  '(out, size, _) ← zoom a_heap set_a_heap
                      (kern_realloc (ptr_sub p 4) (u32 (size + 4)) old 0);
  if negb (out =? NULL) then
    modify (λ t, set_words (<[out := size]> (words t)) t);;
    mret (ptr_add out 4)
  else mret out.

(** The bounds of the heap, static variables that only the start-up code sets. *)
Record heap_state := HeapState {
  hs_heap : mstate;
  kern_heap_start : ptr;
  kern_heap_end : ptr;
  heap_size : Z;
}.

Definition kern_heap_init (start : ptr) (size : Z) : M heap_state unit :=
  modify (λ h, HeapState (set_heap_free size (hs_heap h)) start (ptr_add start size) size).

(** ** Cutting the end off a block *)

(** Behind the largest power of two that divides an address the alignment is
    at least doubled. *)
Lemma next_alignment c d :
  pow2 d → (d | c) → 0 < c < 2 ^ 32 → (∀ y, pow2 y → (y | c) → (y | d)) → (2 * d | c + d).
Proof.
  intros Hd [k ->] Hc Hmax. pose proof (pow2_pos d Hd).
  destruct (Z.Even_or_Odd k) as [[q ->]|[q ->]]; [|exists (q + 1); lia]. exfalso.
  destruct Hd as (e & He & ->). assert (e < 31).
  { apply (Z.pow_lt_mono_r_iff 2); [lia..|]. assert (0 < q) by nia. nia. }
  assert ((2 ^ (e + 1) | 2 ^ e)) as Hdv.
  { apply Hmax; [exists (e + 1); split; [lia|done]|].
    exists q. rewrite Z.pow_add_r by lia. lia. }
  apply Z.divide_pos_le in Hdv; [|done]. rewrite Z.pow_add_r in Hdv by lia. lia.
Qed.

(** One round gives back the first piece of the region. *)
Lemma cut_step_spec s fb c n :
  malloc_inv s fb → region fb c n → 0 < n → (16 | c) → n ≤ 2 ^ (high_list s + 4) →
  wp (cut_step (c, n))
     (λ r s', ∃ d, r = Continue (u32 (c + d), n - d) ∧
        pow2 d ∧ 16 ≤ d ≤ n ∧ (d | c) ∧
        ((∀ y, pow2 y → (y | c) → (y | d)) ∨ n < 2 * d) ∧
        malloc_inv s' (<[c := d]> fb) ∧ region (<[c := d]> fb) (c + d) (n - d) ∧
        moved fb c n (<[c := d]> fb) (c + d) (n - d) ∧ same_env s s') s.
Proof.
  intros Hi Hr Hn Hc Hhi. pose proof Hr as [Hpos _ Hg Hend _].
  unfold cut_step. rewrite (proj2 (Z.eqb_neq n 0)) by lia. simpl.
  destruct (addr_size_region _ _ _ Hr Hn) as (a & Ha & Hpa & Hac & Hmax).
  apply wp_bind, (wp_getopt _ a); [done|].
  assert (16 ≤ a) as Ha16.
  { assert ((16 | a)) as Hd by (apply Hmax; [by exists 4|done]).
    apply Z.divide_pos_le in Hd; [lia|by apply pow2_pos]. }
  destruct (round_down_spec n) as (r & Hrd & Hpr & Hb); [lia|].
  destruct (round_down_16 n r Hg Hn Hpr Hb) as [Hr16 _].
  assert (∃ d, (if a <? n then mret a else getopt (λ _, round_down n)) = mret d ∧
    pow2 d ∧ 16 ≤ d ≤ n ∧ (d | c) ∧ ((∀ y, pow2 y → (y | c) → (y | d)) ∨ n < 2 * d))
    as (d & -> & Hpd & Hd & Hdc & Hor).
  { destruct (Z.ltb_spec a n).
    - exists a. split_and!; [done..|lia|lia|done|by left].
    - exists r. split_and!; [by unfold getopt; rewrite Hrd|done|lia|lia| |right; lia].
      etransitivity; [|exact Hac]. apply pow2_divide; [done..|lia]. }
  apply wp_bind, wp_ret.
  destruct (give_front fb c (n - d) d) as (Hfresh & Hdisj & Hreg & Hmv);
    [by eapply inv_sizes_pos| | |lia|lia|].
  { by replace (d + (n - d)) with n by lia. }
  { apply Z.divide_sub_r; [done|apply pow2_16; [done|lia]]. }
  replace (d + (n - d)) with n in Hmv by lia.
  eapply wp_insert_piece; try done; [lia..|]. intros s2 Hi2 He2. apply wp_ret.
  exists d. unfold ptr_add. rewrite (u32_small (n - d)) by lia. done.
Qed.

Definition given_back s fb c n (s' : mstate) : Prop :=
  ∃ fb' c', malloc_inv s' fb' ∧ moved fb c n fb' c' 0 ∧ same_env s s' ∧
    (∀ q r, disjoint_from fb q r → q + r ≤ c → disjoint_from fb' q r).

Lemma given_back_step s fb c d n s1 s2 :
  moved fb c n (<[c := d]> fb) (c + d) (n - d) → same_env s s1 → 0 < d →
  given_back s1 (<[c := d]> fb) (c + d) (n - d) s2 → given_back s fb c n s2.
Proof.
  intros Hmv He Hd (fb' & c' & Hi & Hmv' & He' & Hdis). exists fb', c'.
  split_and!; [done|by eapply moved_trans|by eapply same_env_trans|].
  intros q r Hq Hle. apply Hdis; [|lia]. apply disjoint_insert_sub; [done|lia].
Qed.

Lemma cut_done fuel s fb c :
  malloc_inv s fb → wp (loop (S fuel) cut_step (u32 c, 0)) (λ _, given_back s fb c 0) s.
Proof.
  intros Hi. simpl. apply wp_bind, wp_ret, wp_ret. exists fb, c.
  split_and!; [done|apply moved_refl|done|done].
Qed.

(** Once the rest fits the alignment the pieces get smaller. *)
Lemma cut_tail_spec s fb c n k fuel :
  malloc_inv s fb → region fb c n → (16 | c) → n ≤ 2 ^ (high_list s + 4) →
  (∃ g, pow2 g ∧ (g | c) ∧ n ≤ g) → n < 2 ^ Z.of_nat k → (k < fuel)%nat →
  wp (loop fuel cut_step (u32 c, n)) (λ _, given_back s fb c n) s.
Proof.
  revert s fb c n fuel. induction k as [|k IH]; intros s fb c n [|fuel] Hi Hr Hc Hhi Hg Hk Hf;
    [lia| |lia|]; pose proof Hr as [Hpos Hn _ Hend _].
  { simpl in Hk. replace n with 0 by lia. by apply cut_done. }
  destruct (decide (n = 0)) as [->|Hnz]; [by apply cut_done|].
  rewrite (u32_small c) by lia. apply wp_bind.
  eapply wp_mono; [apply (cut_step_spec s fb c n); try done; lia|].
  intros _ s1 (d & -> & Hpd & Hd & Hdc & Hor & Hi1 & Hr1 & Hmv & He1). simpl.
  pose proof He1 as (Hh1 & _). destruct Hg as (g & Hpg & Hgc & Hgn).
  assert (n < 2 * d) as Hlt.
  { destruct Hor as [Hmax|]; [|done].
    pose proof (Z.divide_pos_le g d ltac:(lia) (Hmax g Hpg Hgc)). lia. }
  assert (2 * d ≤ 2 ^ Z.of_nat (S k)) as Hdk.
  { destruct Hpd as (e & He & ->). rewrite <-Z.pow_succ_r by lia.
    apply Z.pow_le_mono_r; [lia|]. apply Z.le_succ_l, (Z.pow_lt_mono_r_iff 2); lia. }
  rewrite Nat2Z.inj_succ, Z.pow_succ_r in Hdk by lia.
  eapply wp_mono; [apply (IH s1); try done; [|rewrite Hh1; lia| |lia|lia]|].
  - apply Z.divide_add_r; [done|apply pow2_16; [done|lia]].
  - exists d. split_and!; [done| |lia]. apply Z.divide_add_r; [done|exists 1; lia].
  - intros [] s2. apply given_back_step; try done; lia.
Qed.

(** Before, every piece doubles the alignment. *)
Lemma cut_loop_spec s fb c n j fuel :
  malloc_inv s fb → region fb c n → (16 | c) → n ≤ 2 ^ (high_list s + 4) →
  (j ≤ 32)%nat → (2 ^ (32 - Z.of_nat j) | c) → (j + 33 ≤ fuel)%nat →
  wp (loop fuel cut_step (u32 c, n)) (λ _, given_back s fb c n) s.
Proof.
  revert s fb c n fuel. induction j as [|j IH]; intros s fb c n [|fuel] Hi Hr Hc Hhi Hj Ha Hf;
    [lia| |lia|]; pose proof Hr as [Hpos Hn _ Hend _].
  all: destruct (decide (n = 0)) as [->|Hnz]; [by apply cut_done|].
  { apply Z.divide_pos_le in Ha; simpl in *; lia. }
  rewrite (u32_small c) by lia. apply wp_bind.
  eapply wp_mono; [apply (cut_step_spec s fb c n); try done; lia|].
  intros _ s1 (d & -> & Hpd & Hd & Hdc & Hor & Hi1 & Hr1 & Hmv & He1). simpl.
  pose proof He1 as (Hh1 & _).
  assert ((16 | c + d)) by (apply Z.divide_add_r; [done|apply pow2_16; [done|lia]]).
  apply (wp_mono _ (λ _, given_back s1 (<[c := d]> fb) (c + d) (n - d)));
    [|intros [] s2; apply given_back_step; try done; lia].
  destruct Hor as [Hmax|Hlt].
  - apply (IH s1); try done; [rewrite Hh1; lia|lia| |lia].
    etransitivity; [|apply next_alignment; try done; lia].
    assert ((2 ^ (32 - Z.of_nat (S j)) | d)) as [q ->].
    { apply Hmax; [|done]. exists (32 - Z.of_nat (S j)). split; [lia|done]. }
    exists q. replace (32 - Z.of_nat j) with (32 - Z.of_nat (S j) + 1) by lia.
    rewrite Z.pow_add_r by lia. lia.
  - apply (cut_tail_spec s1 _ _ _ 32); try done; [rewrite Hh1; lia| |lia|lia].
    exists d. split_and!; [done| |lia]. apply Z.divide_add_r; [done|exists 1; lia].
Qed.

(** Where [cut_block_end] cuts: at the next multiple of 16 above [min]. *)
Definition cut_point (min : Z) : Z := 16 * (min / 16) + 16.

Lemma cut_point_bounds min : 0 ≤ min → min < cut_point min ≤ min + 16 ∧ (16 | cut_point min).
Proof.
  intros Hm. unfold cut_point. pose proof (Z.mul_div_le min 16 ltac:(lia)).
  pose proof (Z.mod_pos_bound min 16). pose proof (Z.div_mod min 16).
  split; [lia|]. exists (min / 16 + 1). lia.
Qed.

Lemma cut_point_mask min : Z.land min (Z.lnot BLOCK_MASK) + SMALLEST_BLOCK = cut_point min.
Proof.
  unfold cut_point, SMALLEST_BLOCK. rewrite <-Z.ldiff_land.
  change BLOCK_MASK with (Z.ones 4). rewrite Z.ldiff_ones_r by lia.
  rewrite Z.shiftl_mul_pow2, Z.shiftr_div_pow2 by lia. change (2 ^ 4) with 16. lia.
Qed.

(** The cut point lies in a block of whole units that is larger than [min],
    unless it is as large as [min]. *)
Lemma cut_point_within min size : 0 ≤ min < size → (16 | size) → cut_point min ≤ size.
Proof.
  intros Hm [k ->]. unfold cut_point. assert (min / 16 < k); [|lia].
  apply Z.div_lt_upper_bound; lia.
Qed.

Lemma fits_16 p n : fits p n → 16 ≤ n → (16 | p).
Proof.
  intros (g & Hg & Hgp & Hle) Hn. etransitivity; [|exact Hgp].
  apply pow2_16; [done|]. unfold LARGEST_BLOCK in Hle. lia.
Qed.

Lemma fits_le p n m : fits p n → m ≤ n → fits p m.
Proof. intros (g & Hg & Hgp & Hle) Hm. exists g. split_and!; [done|done|lia]. Qed.

(** The region [p, sz) of [fb] has become the region [p', sz') of a heap with
    the same memory. *)
Definition resized (s : mstate) fb p sz (s' : mstate) p' sz' : Prop :=
  exchanging s fb p sz s' p' sz' ∧ fits p' sz'.

Lemma cut_block_end_spec s fb p min size :
  malloc_inv s fb → region fb p size → fits p size → 0 ≤ min → cut_point min ≤ size →
  size - cut_point min ≤ 2 ^ (high_list s + 4) →
  wp (cut_block_end p min size)
     (λ n s', n = cut_point min ∧ resized s fb p size s' p n) s.
Proof.
  intros Hi Hr Hfit Hm Hle Hhi. pose proof Hr as [Hp _ Hg Hend Hd].
  destruct (cut_point_bounds min Hm) as [Hb Hc16].
  unfold cut_block_end. rewrite cut_point_mask.
  set (n := cut_point min) in *. clearbody n. unfold ptr_add.
  rewrite (u32_small n), (u32_small (size - n)) by lia.
  apply wp_bind. eapply wp_mono.
  { apply (cut_loop_spec s fb (p + n) (size - n) 28); try done; try lia.
    - split; [lia..|by apply Z.divide_sub_r|lia|]. eapply disjoint_sub; [exact Hd|lia..].
    - apply Z.divide_add_r; [eapply fits_16; [done|lia]|done].
    - apply Z.divide_add_r; [eapply fits_16; [done|lia]|done]. }
  intros _ s1 (fb1 & c & Hi1 & [Hcov Ht] & He1 & Hdis). apply wp_ret.
  split; [done|]. split; [|by eapply fits_le].
  exists fb1. split_and!; [done| | |done].
  - split; [done|lia|done|lia|]. apply Hdis; [|lia]. eapply disjoint_sub; [exact Hd|lia..].
  - split; [|lia]. intros a. specialize (Hcov a). split.
    + intros Ha. destruct (decide (p ≤ a < p + n)); [by right|left].
      destruct (proj1 Hcov) as [?|?]; [|done|lia]. destruct Ha; [by left|right; lia].
    + intros [Ha|?]; [|right; lia]. destruct (proj2 Hcov) as [?|?]; [by left|by left|right; lia].
Qed.

(** ** Growing *)

(** What the loop of [grow_block] keeps: the block only gets larger, and not
    larger than needed by more than a block of the largest class. *)
Definition growing (s0 : mstate) fb0 p0 sz0 lim (n : nat) (p sz : Z) (s : mstate) : Prop :=
  ∃ fb, malloc_inv s fb ∧ region fb p sz ∧ moved fb0 p0 sz0 fb p sz ∧ same_env s0 s ∧
        fits p sz ∧ p ≤ p0 ∧ p0 + sz0 ≤ p + sz ∧
        (sz = sz0 ∨ sz - lim < 2 ^ (high_list s0 + 4)) ∧ (base.size fb < n)%nat.

(** The block behind is taken over together with its header. *)
Lemma absorb_back s fb p a (Q : (ptr * Z) + (ptr * Z) → mstate → Prop) :
  malloc_inv s fb → region fb p a → pow2 a → (a | p) →
  (∀ y, pow2 y → (y | p) → (y | a)) →
  (∀ s', malloc_inv s' (delete (p - a) fb) → same_env s s' → fb !! (p - a) = Some a →
     region (delete (p - a) fb) (p - a) (a + a) → moved fb p a (delete (p - a) fb) (p - a) (a + a) →
     fits (p - a) (a + a) → Q (Continue (p - a, a + a)) s') →
  Q (Break (p, a)) s →
  wp (found ← lookup_addr (ptr_sub p a);
      mergeable ← (if negb (found =? 0) then
                     bsz ← get_size (ptr_sub p a); mret (bsz =? a)
                   else mret false);
      if (mergeable : bool) then
        delete_addr (ptr_sub p a);;
        bsz ← get_size (ptr_sub p a);
        put_size (ptr_sub p a) (u32 (bsz * 2));;
        bsz ← get_size (ptr_sub p a);
        mret (Continue (ptr_sub p a, bsz))
      else mret (Break (p, a))) Q s.
Proof.
  intros Hi Hr Hpa Hap Hmax HQ1 HQ2. pose proof Hr as [Hp _ _ Hend _].
  pose proof (pow2_pos a Hpa). pose proof (Z.divide_pos_le _ _ Hp Hap).
  unfold ptr_sub. rewrite u32_small by lia.
  apply wp_bind. eapply wp_mono; [apply (lookup_addr_spec s fb); [done|lia]|].
  intros r s' [-> ->]. rewrite negb_involutive.
  case_bool_decide as Hf; [destruct Hf as [f Hf]|by apply wp_ret].
  apply wp_bind, wp_bind. eapply wp_get_size; [by apply (inv_size _ _ Hi)|]. apply wp_ret.
  destruct (Z.eqb_spec f a) as [->|]; simpl; [|by apply wp_ret].
  destruct (take_back _ _ Hi _ _ _ Hr Hf) as [Hr2 Hmv2].
  pose proof (inv_block _ _ Hi _ _ Hf) as [Hb0 _ Hbe _].
  assert (a < 2 ^ 31) as Ha31 by lia.
  apply wp_bind. eapply wp_mono; [by apply (delete_addr_spec s fb _ a)|].
  intros _ s2 (Hi2 & He2 & Hss). apply wp_bind. eapply wp_get_size.
  { rewrite Hss. by apply (inv_size _ _ Hi). }
  rewrite u32_small by lia.
  apply wp_bind. eapply wp_mono; [eapply put_size_region; [done|exact Hr2|lia]|].
  intros _ s3 (Hi3 & He3 & Hsf3). apply wp_bind. eapply wp_get_size; [done|].
  apply wp_ret. replace (a * 2) with (a + a) by lia.
  apply HQ1; try done; [by eapply same_env_trans|by apply fits_back].
Qed.

Lemma grow_step_spec s0 fb0 p0 sz0 lim n p sz s :
  0 < sz0 → growing s0 fb0 p0 sz0 lim (S n) p sz s →
  wp (grow_step lim (p, sz))
     (λ r s', match r with
              | inl (p', sz') => growing s0 fb0 p0 sz0 lim n p' sz' s'
              | inr (p', sz') => growing s0 fb0 p0 sz0 lim (S n) p' sz' s'
              end) s.
Proof.
  intros Hsz0 Hg. unfold grow_step.
  destruct (Z.ltb_spec sz lim) as [Hlt|]; simpl; [|by apply wp_ret].
  destruct Hg as (fb & Hi & Hr & Hmv & He & Hfit & Hp & Hpe & Hb & Hc).
  pose proof (inv_fuel s fb Hi). apply wp_bind, wp_bind, wp_gets.
  eapply wp_mono; [apply (merge_loop_spec s fb p sz lim); try done; lia|].
  intros sz1 s1 (fb1 & Hi1 & Hr1 & Hmv1 & He1 & Hle & Hfit1 & Hc1 & Hb1).
  pose proof He as (Hh & _). rewrite Hh in Hb1.
  assert (growing s0 fb0 p0 sz0 lim (S n) p sz1 s1) as Hg1.
  { exists fb1. split_and!; try done; [by eapply moved_trans|by eapply same_env_trans|lia..]. }
  destruct (addr_size_region _ _ _ Hr1 ltac:(lia)) as (a & Ha & Hpa & Hap & Hmax).
  apply wp_bind, (wp_getopt _ a); [done|].
  destruct (Z.eqb_spec sz1 a) as [->|]; [|by apply wp_ret].
  destruct (Z.ltb_spec a lim) as [Hlim|]; [|by apply wp_ret]. simpl.
  apply (absorb_back s1 fb1 p a); try done.
  intros s2 Hi2 He2 Hf Hr2 Hmv2 Hfit2.
  pose proof (size_delete_lt _ _ _ Hf). pose proof (class_bound _ _ Hi1 _ _ Hf) as Hcl.
  pose proof He1 as (Hh1 & _). rewrite Hh1, Hh in Hcl.
  pose proof (pow2_pos a Hpa).
  exists (delete (p - a) fb1). split_and!; try done; [| |lia..].
  - eapply moved_trans; [|exact Hmv2]. by eapply moved_trans.
  - eapply same_env_trans; [exact He|]. by eapply same_env_trans.
Qed.

Lemma grow_loop_spec s0 fb0 p0 sz0 lim n p sz s :
  0 < sz0 → growing s0 fb0 p0 sz0 lim n p sz s →
  wp (loop n (grow_step lim) (p, sz))
     (λ '(p', sz') s', ∃ m, growing s0 fb0 p0 sz0 lim m p' sz' s') s.
Proof.
  intros Hsz0. revert p sz s. induction n as [|n IH]; intros p sz s Hg.
  { destruct Hg as (fb & _ & _ & _ & _ & _ & _ & _ & _ & Hc). lia. }
  apply wp_bind. eapply wp_mono; [by apply grow_step_spec|].
  intros [[p2 sz2]|[p2 sz2]] s2 Hg2; [by apply IH|]. apply wp_ret. eauto.
Qed.

(** A block that has grown: it contains the old one. *)
Definition grown_to (s : mstate) fb p sz lim (s' : mstate) p' sz' : Prop :=
  resized s fb p sz s' p' sz' ∧ p' ≤ p ∧ p + sz ≤ p' + sz' ∧
  (sz' = sz ∨ sz' - lim < 2 ^ (high_list s + 4)).

Lemma grow_block_spec s fb p sz lim :
  malloc_inv s fb → region fb p sz → fits p sz → 0 < sz →
  wp (grow_block p sz lim) (λ '(p', sz') s', grown_to s fb p sz lim s' p' sz') s.
Proof.
  intros Hi Hr Hfit Hsz. pose proof (inv_fuel s fb Hi).
  apply wp_bind, wp_gets. eapply wp_mono.
  { apply (grow_loop_spec s fb p sz); [done|]. exists fb.
    split_and!; try done; [by left|lia]. }
  intros [p' sz'] s' (m & fb' & Hi' & Hr' & Hmv & He & Hfit' & Hp & Hpe & Hb & _).
  split; [|by split_and!]. split; [|done]. by exists fb'.
Qed.

(** ** The contract of [kern_realloc] *)

(** The copy that brings the contents of the block of [old] bytes at [p] to
    [out].  [memcpy] is called on ranges that do not overlap. *)
Definition copied (p out : ptr) (old : Z) (copy : option copying) : Prop :=
  (out = p ∧ copy = None) ∨ (out < p ∧ copy = Some (Memmove out p old)) ∨
  (copy = Some (Memcpy out p old) ∧ (out + old ≤ p ∨ p + old ≤ out)).

(** Enough memory is left beside the reserve, or the caller may use it. *)
Definition enough_left (s : mstate) (size old priority : Z) : bool :=
  (u32 (size - old) <=? u32 (heap_free s - EMERGENCY_STORE)) || negb (priority =? 0).

(** On success the region has become one of the requested size; on failure the
    block may have grown, and [n] is its size then. *)
Definition realloc_result s fb p old size (r : ptr * Z * option copying) (s' : mstate) : Prop :=
  let '(out, n, copy) := r in
  (out = NULL ∧ copy = None ∧ n < size ∧ ∃ grown, grown_to s fb p old size s' grown n) ∨
  (out ≠ NULL ∧ size ≤ n ≤ size + 16 ∧ resized s fb p old s' out n ∧ copied p out old copy).

(** A new block is taken before the old one is given back. *)
Lemma move_block_spec s0 fb0 p old size s fb grown g out n s1 :
  m_stat_mutex s = false → 0 < old < size → malloc_inv s fb → region fb grown g →
  moved fb0 p old fb grown g → same_env s0 s → fits grown g →
  grown ≤ p → p + old ≤ grown + g → allocated s fb size out n s1 → out ≠ NULL →
  wp (move_block out p grown n g old) (realloc_result s0 fb0 p old size) s1.
Proof.
  intros Hst Hlt Hi1 Hr1 [Hc1 Ht1] He1 Hfit1 Hle1 Hle2
    (fb2 & Hi2 & He2 & Hr2 & Hfit2 & Hn & Hc2 & Ht2) Hnn.
  unfold SMALLEST_BLOCK in Hn.
  assert (∀ a, out ≤ a < out + n → ¬ (grown ≤ a < grown + g)) as Hsep.
  { intros a Ha. eapply region_covers; [exact Hr1|]. apply Hc2. by right. }
  assert (region fb2 grown g) as Hr2'.
  { eapply region_shrink; [by eapply inv_sizes_pos|exact Hr1|lia|].
    intros a Ha. apply Hc2. by left. }
  apply wp_bind. eapply wp_mono; [apply (kern_free_spec s1 fb2); try done|].
  { by destruct He2 as (_ & -> & _). }
  intros _ s2 (fb3 & Hi3 & He3 & Hc3 & Ht3). apply wp_ret. right.
  split_and!; [done|lia..| |].
  - split; [|done]. exists fb3. split_and!; [done| | |].
    + eapply region_intro; [by eapply inv_sizes_pos|exact Hr2|lia|].
      intros a [Ha|Ha]%Hc3 Hin; [by apply (region_covers fb2 out n a)|by apply (Hsep a)].
    + split; [|lia]. intros a. rewrite Hc1, Hc2, Hc3. tauto.
    + eapply same_env_trans; [exact He1|]. by eapply same_env_trans.
  - right; right. split; [done|].
    destruct (Z.le_gt_cases (out + old) p); [by left|right].
    destruct (Z.le_gt_cases (p + old) out); [done|]. exfalso.
    apply (Hsep (Z.max out p)); lia.
Qed.

(** One attempt to allocate a block to move to. *)
Lemma try_move_spec s0 fb0 p old size s fb grown g k :
  m_stat_mutex s = false → 0 < old < size → size ≤ 2 ^ 31 → malloc_inv s fb →
  region fb grown g → moved fb0 p old fb grown g → same_env s0 s → fits grown g →
  grown ≤ p → p + old ≤ grown + g →
  wp (k size) (realloc_result s0 fb0 p old size) s →
  wp ('(out, n) ← kern_malloc size 1;
      if negb (out =? NULL) then move_block out p grown n g old else k n)
     (realloc_result s0 fb0 p old size) s.
Proof.
  intros Hst Hlt Hmax Hi Hr Hmv He Hfit Hle1 Hle2 Hk.
  apply wp_bind. eapply wp_mono; [by apply (kern_malloc_spec s fb size 1); [..|lia]|].
  intros [out n] s2 [(-> & -> & -> & _)|(Hnn & Hal & _)]; [done|].
  rewrite (proj2 (Z.eqb_neq out NULL)) by done.
  by apply (move_block_spec s0 fb0 p old size s fb).
Qed.

Lemma grow_or_move_spec s fb p size old :
  malloc_inv s fb → m_stat_mutex s = false → region fb p old → fits p old →
  0 < old < size → size ≤ 2 ^ 31 → ¬ (16 | size) →
  wp (grow_or_move p size old) (realloc_result s fb p old size) s.
Proof.
  intros Hi Hst Hr Hfit Hsz Hmax Hng. unfold grow_or_move.
  apply wp_bind. eapply wp_mono; [by apply (grow_block_spec s fb p old size); try done; lia|].
  intros [grown g] s1 Hgr. pose proof Hgr as (Hres & Hle1 & Hle2 & Htail).
  pose proof Hres as [(fb1 & Hi1 & Hr1 & Hmv1 & He1) Hfit1].
  assert (m_stat_mutex s1 = false) as Hst1 by (by destruct He1 as (_ & -> & _)).
  destruct (Z.leb_spec size g) as [Hge|Hlt].
  - assert (size < g).
    { destruct (decide (size = g)) as [->|]; [|lia]. by destruct Hr1. }
    assert (cut_point size ≤ g) by (apply cut_point_within; [lia|apply Hr1]).
    destruct (cut_point_bounds size ltac:(lia)) as [Hcp _].
    pose proof He1 as (Hh1 & _).
    apply wp_bind. eapply wp_mono.
    { apply (cut_block_end_spec s1 fb1 grown size g); try done; [lia|rewrite Hh1; lia]. }
    intros n s2 (-> & (fb2 & Hi2 & Hr2 & Hmv2 & He2) & Hfit2). apply wp_ret. right.
    split_and!; [destruct Hr2; unfold NULL; lia|lia..| |].
    + split; [|done]. exists fb2.
      split_and!; [done|done|by eapply moved_trans|by eapply same_env_trans].
    + destruct (Z.eqb_spec grown p) as [->|]; [by left|]. right; left. split; [lia|done].
  - apply (try_move_spec s fb p old size s1 fb1); try done.
    apply wp_bind, wp_ret, (try_move_spec s fb p old size s1 fb1); try done.
    apply wp_ret. left. split_and!; [done|done|done|]. by exists grown.
Qed.

(** Shrinking never touches the free blocks in front. *)
Lemma trim_block_spec s fb p size old :
  malloc_inv s fb → region fb p old → fits p old → 0 ≤ size < old →
  old ≤ 2 ^ (high_list s + 4) →
  wp (trim_block p size old)
     (λ '(q, n) s', q = p ∧ n = cut_point size ∧ resized s fb p old s' p n) s.
Proof.
  intros Hi Hr Hfit Hsz Hhi. pose proof (inv_fuel s fb Hi).
  destruct (cut_point_bounds size ltac:(lia)) as [Hcp _].
  apply wp_bind, wp_bind, wp_gets.
  destruct (addr_size_region _ _ _ Hr ltac:(lia)) as (a & Ha & _).
  eapply (wp_mono _ (λ n s', n = old ∧ s' = s)).
  { apply wp_bind, wp_bind, (wp_getopt _ a); [done|].
    destruct (Z.ltb_spec old size); [lia|]. rewrite andb_false_r. by apply wp_ret, wp_ret. }
  intros n s' [-> ->]. apply wp_bind.
  eapply wp_mono; [apply (cut_block_end_spec s fb p size old); try done; [lia| |lia]|].
  { apply cut_point_within; [lia|apply Hr]. }
  intros n s1 [-> Hres]. by apply wp_ret.
Qed.

Lemma kern_realloc_grow_eq p size old priority s :
  m_stat_mutex s = false → old < size → enough_left s size old priority = true →
  kern_realloc p size old priority s = grow_or_move p size old s.
Proof.
  intros Hst Hlt Hen. unfold kern_realloc, enough_left in *.
  rewrite (proj2 (Z.leb_gt size old)) by done.
  unfold stat_lock, stat_unlock, lock, unlock, gets, modify, mbind, M_bind.
  rewrite Hst. simpl. rewrite Hen. by rewrite set_stat_id.
Qed.

Lemma kern_realloc_spec s fb p size old priority :
  malloc_inv s fb → m_stat_mutex s = false → region fb p old → fits p old → 0 < old →
  (size < old → 0 ≤ size ∧ old ≤ 2 ^ (high_list s + 4)) → size ≤ 2 ^ 31 → ¬ (16 | size) →
  (old < size → enough_left s size old priority = true) →
  wp (kern_realloc p size old priority) (realloc_result s fb p old size) s.
Proof.
  intros Hi Hst Hr Hfit Hold Hshr Hmax Hng Hen.
  destruct (Z.lt_ge_cases old size) as [Hlt|Hge].
  - unfold wp. rewrite kern_realloc_grow_eq by auto. by apply grow_or_move_spec.
  - assert (size < old) as Hlt.
    { destruct (decide (size = old)) as [->|]; [|lia]. by destruct Hr. }
    destruct (Hshr Hlt) as [H0 Hhi]. destruct (cut_point_bounds size H0) as [Hcp _].
    unfold kern_realloc. rewrite (proj2 (Z.leb_le size old)) by done.
    apply wp_bind. eapply wp_mono; [by apply (trim_block_spec s fb p size old)|].
    intros [q n] s' (-> & -> & Hres). apply wp_ret. right.
    split_and!; [destruct Hr; unfold NULL; lia|lia|lia|done|by left].
Qed.

(** ** [realloc] *)

(** What the other live blocks see of a change of one of them. *)
Section others.
Context (t : astate) (live fb : gmap ptr Z) (p c : Z) (Hp : live !! p = Some c).
Context (Hrep : alloc_rep t live fb).
Context (s' : mstate) (fb' : gmap ptr Z) (out n : Z).
Context (Hi : malloc_inv s' fb') (Hr : region fb' out n).
Context (Hmv : moved fb (p - 4) (c + 4) fb' out n).

Lemma other_addr q d a :
  live !! q = Some d → p ≠ q → q - 4 ≤ a < q + d →
  ¬ covers fb a ∧ ¬ (p - 4 ≤ a < p - 4 + (c + 4)).
Proof.
  intros Hq Hne Ha. destruct (ai_live _ _ _ Hrep q d Hq) as [Hrq _ _ _]. split.
  - intros Hc. apply (region_covers fb (q - 4) (d + 4) a); [done|done|lia].
  - intros Hin. destruct (ai_disj _ _ _ Hrep p c q d Hp Hq Hne); lia.
Qed.

Lemma other_unmoved q d a :
  live !! q = Some d → p ≠ q → q - 4 ≤ a < q + d →
  ¬ covers fb' a ∧ ¬ (out ≤ a < out + n).
Proof.
  intros Hq Hne Ha. destruct (other_addr q d a Hq Hne Ha) as [H1 H2].
  destruct Hmv as [Hc _]. split; intros H; by destruct (proj2 (Hc a)); auto.
Qed.

Lemma other_region q d : live !! q = Some d → p ≠ q → region fb' (q - 4) (d + 4).
Proof.
  intros Hq Hne. destruct (ai_live _ _ _ Hrep q d Hq) as [Hrq _ Hd _].
  eapply region_intro; [by eapply inv_sizes_pos|exact Hrq|lia|].
  intros a Ha Hin. destruct (other_unmoved q d a Hq Hne); [lia|done].
Qed.

Lemma other_disjoint q d : 0 < n → live !! q = Some d → p ≠ q → q + d ≤ out ∨ out + n ≤ q - 4.
Proof.
  intros Hn Hq Hne. destruct (ai_live _ _ _ Hrep q d Hq) as [_ _ Hd _].
  destruct (Z.le_gt_cases (q + d) out); [by left|right].
  destruct (Z.le_gt_cases (out + n) (q - 4)); [done|]. exfalso.
  destruct (other_unmoved q d (Z.max out (q - 4)) Hq Hne); lia.
Qed.
End others.

Lemma realloc_moved t live fb p c s' out n :
  live !! p = Some c → alloc_rep t live fb → 4 ≤ n →
  resized (a_heap t) fb (p - 4) (c + 4) s' out n →
  alloc_inv (AState s' (<[out := n]> (words t))) (<[out + 4 := n - 4]> (delete p live)).
Proof.
  intros Hp Hrep Hn [(fb' & Hi & Hr & Hmv & _ & Hst & _) Hfit].
  assert (∀ q d, live !! q = Some d → p ≠ q → q + d ≤ out ∨ out + n ≤ q - 4) as Hsep.
  { intros q d. eapply other_disjoint; [done..|lia]. }
  exists fb'. split; simpl; [done|by rewrite Hst; eapply ai_stat|..].
  - intros q d. destruct (decide (out + 4 = q)) as [<-|Hne].
    + rewrite lookup_insert_eq. intros [= <-].
      split; replace (out + 4 - 4) with out by lia; replace (n - 4 + 4) with n by lia;
        [done|done|lia|by rewrite lookup_insert_eq].
    + rewrite lookup_insert_ne by done. intros [Hpq Hq]%lookup_delete_Some.
      pose proof (ai_live _ _ _ Hrep q d Hq) as Hl. pose proof (lb_cap _ _ _ _ Hl).
      eapply live_block_mono; [exact Hl|by apply (other_region t live fb p c Hp Hrep s' fb' out n)|].
      rewrite lookup_insert_ne; [done|]. destruct (Hsep q d Hq Hpq); lia.
  - intros q d r e. destruct (decide (out + 4 = q)) as [<-|Hq].
    + rewrite lookup_insert_eq. intros [= <-] Hr' Hne. rewrite lookup_insert_ne in Hr' by done.
      apply lookup_delete_Some in Hr' as [Hpr Hr']. destruct (Hsep r e Hr' Hpr); lia.
    + rewrite lookup_insert_ne by done. intros [Hpq Hq']%lookup_delete_Some.
      destruct (decide (out + 4 = r)) as [<-|Hr0].
      * rewrite lookup_insert_eq. intros [= <-] _. destruct (Hsep q d Hq' Hpq); lia.
      * rewrite lookup_insert_ne by done. intros [_ Hr']%lookup_delete_Some.
        by apply (ai_disj _ _ _ Hrep).
Qed.

(** After a failure the old block is live as before. *)
Lemma realloc_kept t live fb p c size s' grown n :
  live !! p = Some c → alloc_rep t live fb →
  grown_to (a_heap t) fb (p - 4) (c + 4) size s' grown n →
  alloc_inv (AState s' (words t)) live.
Proof.
  intros Hp Hrep ([(fb' & Hi & Hr & Hmv & _ & Hst & _) _] & Hle1 & Hle2 & _).
  exists fb'. split; simpl; [done|by rewrite Hst; eapply ai_stat| |by eapply ai_disj].
  intros q d Hq. pose proof (ai_live _ _ _ Hrep q d Hq) as Hl.
  eapply live_block_mono; [exact Hl| |done].
  destruct (decide (p = q)) as [<-|Hne]; [|by apply (other_region t live fb p c Hp Hrep s' fb' grown n)].
  assert (d = c) as -> by congruence. destruct Hl as [[H1 H2 H3 H4 _] _ _ _].
  split; [done..|]. eapply disjoint_sub; [apply Hr|lia..].
Qed.

Lemma realloc_ok t live p c n :
  alloc_inv t live → live !! p = Some c → 0 ≤ n < 2 ^ 30 → ¬ (16 | n + 4) →
  c + 4 ≤ 2 ^ (high_list (a_heap t) + 4) →
  (c < n → enough_left (a_heap t) (n + 4) (c + 4) 0 = true) →
  wp (realloc p n)
     (λ q t', (q = NULL ∧ c < n ∧ alloc_inv t' live) ∨
              (q ≠ NULL ∧ ∃ d, n ≤ d ∧ alloc_inv t' (<[q := d]> (delete p live)))) t.
Proof.
  intros [fb Hrep] Hp Hn Hng Hhi Hen.
  pose proof (ai_live _ _ _ Hrep p c Hp) as [Hr Hfit Hc Hw]. pose proof Hr as [Hpos _ _ Hend _].
  assert (ptr_sub p 4 = p - 4) as Hsub by (apply u32_small; lia).
  apply wp_bind, (wp_getopt _ (c + 4)); [by rewrite Hsub|]. rewrite Hsub, (u32_small (n + 4)) by lia.
  apply wp_bind, wp_zoom. eapply wp_mono.
  { apply (kern_realloc_spec (a_heap t) fb); try done; [by eapply ai_heap|by eapply ai_stat|lia..|].
    intros Hlt. apply Hen. lia. }
  intros [[out m] copy] s' [(-> & _ & Hm & grown & Hg)|(Hnn & Hm & Hres & _)].
  - apply wp_ret. left. split_and!; [done|destruct Hg as (_ & ? & ? & _); lia|].
    by eapply realloc_kept.
  - rewrite (proj2 (Z.eqb_neq out NULL)) by done.
    pose proof Hres as [(fb' & _ & [Ho _ Hog Hoe _] & _) _].
    apply Z.divide_pos_le in Hog; [|lia].
    apply wp_bind, wp_modify, wp_ret. unfold ptr_add. rewrite u32_small by lia. right.
    split; [unfold NULL; lia|]. exists (m - 4). split; [lia|].
    by apply (realloc_moved t live fb p c); [..|lia|].
Qed.

(** ** Properties *)


(** A block of 256 KB below the free block. *)
Lemma below_region : region one_free (2 ^ 18) (2 ^ 18) ∧ fits (2 ^ 18) (2 ^ 18).
Proof.
  split.
  - constructor; [lia|lia|exists (2 ^ 14); reflexivity|lia|].
    intros q sq [-> ->]%one_free_lookup. left. lia.
  - exists (2 ^ 18). split; [exists 18; split; [lia|reflexivity]|]. split; [exists 1; reflexivity|].
    unfold LARGEST_BLOCK. lia.
Qed.


(** [realloc] meets the contract of the allocator.  A live block is replaced
    by one of at least the requested capacity, or null is returned, only when
    the block was to grow, and then it is live as before; no other live block
    is affected or overlapped. *)
Theorem realloc_keeps_live t live p c n :
  alloc_inv t live → live !! p = Some c → 0 ≤ n < 2 ^ 30 → ¬ (16 | n + 4) →
  c + 4 ≤ 2 ^ (high_list (a_heap t) + 4) →
  (c < n → enough_left (a_heap t) (n + 4) (c + 4) 0 = true) →
  ∃ q t', realloc p n t = Done (q, t') ∧
    ((q = NULL ∧ c < n ∧ alloc_inv t' live) ∨
     (q ≠ NULL ∧ ∃ d, n ≤ d ∧ alloc_inv t' (<[q := d]> (delete p live)))).
Proof. intros. by apply wp_Done, (realloc_ok t live p c). Qed.

(** A live block that fills the memory below the free block. *)
Definition one_live : astate := AState one_block {[ 2 ^ 18 := 2 ^ 18 ]}.

Lemma one_live_inv : alloc_inv one_live {[ 2 ^ 18 + 4 := 2 ^ 18 - 4 ]}.
Proof.
  exists one_free. split; [exact one_block_inv|done|..].
  - intros p c [<- <-]%lookup_singleton_Some.
    replace (2 ^ 18 + 4 - 4) with (2 ^ 18) by lia. replace (2 ^ 18 - 4 + 4) with (2 ^ 18) by lia.
    split; replace (2 ^ 18 + 4 - 4) with (2 ^ 18) by lia;
      replace (2 ^ 18 - 4 + 4) with (2 ^ 18) by lia; [apply below_region..|lia|done].
  - by intros p c q d [<- <-]%lookup_singleton_Some [<- <-]%lookup_singleton_Some.
Qed.

Lemma realloc_keeps_live_witness :
  ∃ q t', realloc (2 ^ 18 + 4) 1000 one_live = Done (q, t') ∧
    ((q = NULL ∧ 2 ^ 18 - 4 < 1000 ∧ alloc_inv t' {[ 2 ^ 18 + 4 := 2 ^ 18 - 4 ]}) ∨
     (q ≠ NULL ∧ ∃ d, 1000 ≤ d ∧
        alloc_inv t' (<[q := d]> (delete (2 ^ 18 + 4) {[ 2 ^ 18 + 4 := 2 ^ 18 - 4 ]})))).
Proof.
  apply (realloc_keeps_live one_live _ _ (2 ^ 18 - 4));
    [exact one_live_inv|apply lookup_singleton_eq|lia| |simpl; lia|lia].
  intros [k Hk]. lia.
Defined.

(** [kern_realloc] loses a lock.  When the block is to grow into the
    emergency reserve the function returns null with [stat_mutex] taken; the
    next [kern_malloc] waits for it forever. *)
Theorem kern_realloc_leaves_lock s p size old priority size' r priority' :
  m_stat_mutex s = false → old < size → enough_left s size old priority = false →
  round_up size' = Some r →
  ∃ s', kern_realloc p size old priority s = Done ((NULL, old, None), s') ∧
    kern_malloc size' priority' s' = Deadlock.
Proof.
  intros Hst Hlt Hen Hr. exists (set_m_stat_mutex true s). split.
  - unfold kern_realloc, enough_left in *. rewrite (proj2 (Z.leb_gt size old)) by done.
    unfold empty_caches, stat_lock, stat_unlock, lock, unlock, gets, modify, mbind, M_bind.
    rewrite Hst. simpl. rewrite Hen. simpl. by rewrite Hen.
  - unfold kern_malloc, mbind, M_bind, getopt. by rewrite Hr.
Qed.

(** The state that an operation leaves. *)
Definition after {A} (m : M mstate A) (s : mstate) : mstate :=
  match m s with Done (_, s') => s' | _ => s end.

(** With one more block of 1 MB, a block cannot grow by 1 MB. *)
Lemma kern_realloc_leaves_lock_witness :
  ∃ s s', kern_free (2 ^ 20) (2 ^ 20) one_block = Done (tt, s) ∧
    kern_realloc (2 ^ 18) (2 ^ 20 + 2 ^ 18) (2 ^ 18) 0 s = Done ((NULL, 2 ^ 18, None), s') ∧
    kern_malloc 100 1 s' = Deadlock.
Proof.
  exists (after (kern_free (2 ^ 20) (2 ^ 20)) one_block).
  destruct (kern_realloc_leaves_lock (after (kern_free (2 ^ 20) (2 ^ 20)) one_block)
    (2 ^ 18) (2 ^ 20 + 2 ^ 18) (2 ^ 18) 0 100 128 1) as (s' & H1 & H2);
    [vm_compute; reflexivity|lia|vm_compute; reflexivity|vm_compute; reflexivity|].
  exists s'. split; [vm_compute; reflexivity|]. split; [exact H1|exact H2].
Defined.

(** A block that already has the requested size faults: [cut_block_end] cuts
    one unit behind its end, the size of the rest wraps around, and free blocks
    are made of the memory behind until their size has no class. *)
Example kern_realloc_same_size_faults :
  kern_realloc (2 ^ 18) (2 ^ 18) (2 ^ 18) 0 one_block = Fault.
Proof. vm_compute. reflexivity. Qed.

(** When [kern_realloc] fails after the block has grown, the caller learns the
    size of the grown block together with the address of the old one: here the
    two name a range that reaches into the free block at 2^19. *)
Example kern_realloc_failure_overstates :
  ∃ s s', kern_free (2 ^ 18) (2 ^ 17) one_block = Done (tt, s) ∧
    kern_realloc (2 ^ 18 + 2 ^ 17) (2 ^ 21) (2 ^ 17) 0 s = Done ((NULL, 2 ^ 18, None), s') ∧
    2 ^ 19 < 2 ^ 18 + 2 ^ 17 + 2 ^ 18 ∧ block_lists s' !! 15%nat = Some (2 ^ 19).
Proof.
  exists (after (kern_free (2 ^ 18) (2 ^ 17)) one_block),
    (after (kern_free (2 ^ 18) (2 ^ 17);;
            kern_realloc (2 ^ 18 + 2 ^ 17) (2 ^ 21) (2 ^ 17) 0) one_block).
  split_and!; vm_compute; reflexivity.
Qed.

(** The static variables before [kern_heap_init]. *)
Definition heap_start : heap_state := HeapState (MState ∅ [] 0 ∅ 0 false false) 0 0 0.

(** [kern_heap_init] counts the memory as free without making blocks of it:
    every request of more than 16 bytes fails afterwards. *)
Lemma kern_heap_init_provides_nothing start size n priority :
  17 ≤ n ≤ 2 ^ 31 →
  ∃ h, kern_heap_init start size heap_start = Done (tt, h) ∧ heap_free (hs_heap h) = size ∧
    kern_malloc n priority (hs_heap h) = Done ((NULL, n), hs_heap h).
Proof.
  intros Hn. eexists. split; [reflexivity|]. split; [done|]. simpl.
  set (s := set_heap_free _ _).
  destruct (round_up_spec n ltac:(lia)) as (r & Hr & (k & Hk & ->) & Hb).
  assert (5 ≤ k).
  { assert (4 < k); [|lia]. apply (Z.pow_lt_mono_r_iff 2); lia. }
  assert (acquire_block (2 ^ k) s = Done (NULL, s)) as Hacq.
  { unfold acquire_block, mbind, M_bind, getopt, ilog.
    change bsr with addr_power. rewrite addr_power_pow2 by lia.
    unfold LIST_OFFSET. rewrite u32_small by lia.
    assert (acquire_step (k - 4) s = Done (Break NULL, s)) as Hstep.
    { unfold acquire_step, mbind, M_bind, gets. simpl.
      by rewrite (proj2 (Z.leb_gt (k - 4) 0)) by lia. }
    simpl. unfold mbind, M_bind. by rewrite Hstep. }
  unfold kern_malloc, mbind, M_bind, getopt. rewrite Hr.
  unfold empty_caches, stat_lock, stat_unlock, lock, unlock, gets, modify, mret, M_ret.
  simpl. destruct (_ || _) eqn:Hc;
    [by change (set_m_stat_mutex _ _) with s; rewrite Hacq; simpl; rewrite Hacq|].
  apply orb_false_iff in Hc as [Hc _]. simpl. by rewrite Hc.
Qed.
