(* ===== verification/PageAlloc.v ===== *)
(** * Physical page allocation

    src/mem/phys_mem/page_alloc.c and the page half of
    src/mem/virt_mem/inv_page_table.c.  Free pages are kept in one circular
    list per colour.  Every address space (and shared object) has a colour
    table, an indexed min-heap ([SiftHeap]) of the colours by how many pages of
    that colour it holds, so that pages of its least used colour are handed out
    first.

    A colour table is an array of [3 * num_page_colors] words: the heap index of
    every colour, the count of every colour, and the colours in heap order.
    The model groups the first two by colour and keeps the third as
    [ordered]. *)

From stdpp Require Import functions.
From S2P Require Import Prelude CircularList SiftHeap.
#[local] Ltac Zify.zify_post_hook ::= Z.to_euclidean_division_equations.
#[local] Open Scope Z_scope.

Definition PAGE_SIZE : Z := 0x1000.

(** [color_index_tab(tab)[c]] and [color_count_tab(tab)[c]]. *)
Record color_t := Color {
  c_index : Z;
  c_count : Z;
}.

Record color_table := ColorTable {
  colors : list color_t;
  ordered : list Z;
}.

(** The links of an [inv_page_t]; its other fields belong to the page cache. *)
Record inv_page_t := InvPage {
  lnext : ptr;
  llast : ptr;
}.

(** The static variables of page_alloc.c, the inverse page table, and the
    colour table passed to the current call. *)
Record pstate := PState {
  num_page_colors : nat;
  free_pages : list ptr;
  page_count : list Z;
  inv_page_table : ptr;
  inv_pages : gmap ptr inv_page_t;
  color_tab : color_table;
  p_mutex : bool;
}.

Definition set_free_pages l s := PState (num_page_colors s) l (page_count s)
  (inv_page_table s) (inv_pages s) (color_tab s) (p_mutex s).
Definition set_page_count l s := PState (num_page_colors s) (free_pages s) l
  (inv_page_table s) (inv_pages s) (color_tab s) (p_mutex s).
Definition set_inv_pages m s := PState (num_page_colors s) (free_pages s) (page_count s)
  (inv_page_table s) m (color_tab s) (p_mutex s).
Definition set_color_tab t s := PState (num_page_colors s) (free_pages s) (page_count s)
  (inv_page_table s) (inv_pages s) t (p_mutex s).
Definition set_p_mutex b s := PState (num_page_colors s) (free_pages s) (page_count s)
  (inv_page_table s) (inv_pages s) (color_tab s) b.

(** Array access: outside the array the behaviour is undefined. *)
Definition at_index {A} (l : list A) (i : Z) : option A :=
  if decide (0 ≤ i) then l !! Z.to_nat i else None.
Definition put_index {A} (l : list A) (i : Z) (x : A) : option (list A) :=
  if decide (0 ≤ i < Z.of_nat (length l)) then Some (<[Z.to_nat i := x]> l) else None.

(** ** The inverse page table *)

(** [sizeof(inv_page_t)]: a 64-byte mutex, five words, three pointers and the
    29 buckets of the mapping table. *)
Definition inv_page_size : Z := 64 + 4 * 5 + 4 * 3 + 4 * 29.

Definition phys_to_page (addr : Z) : Z := addr / PAGE_SIZE.

Definition inv_page_lookup (table : ptr) (addr : Z) : ptr :=
  u32 (table + phys_to_page addr * inv_page_size).

Definition inv_page_addr (table : ptr) (inv_page : ptr) : Z :=
  u32 (Z.quot (inv_page - table) inv_page_size * PAGE_SIZE).

Definition page_color (n : nat) (addr : Z) : Z := (u32 addr / PAGE_SIZE) mod Z.of_nat n.

(** ** The colour table *)

(** [list_ptr[i - 1] = e; color_tab[list_ptr[i - 1]] = i - 1;] *)
Definition color_place (i : nat) (e : Z) : M color_table unit :=
  putopt (λ t, l ← put_index (ordered t) (Z.of_nat i - 1) e;
               Some (ColorTable (colors t) l));;
  e ← getopt (λ t, at_index (ordered t) (Z.of_nat i - 1));
  putopt (λ t, c ← at_index (colors t) e;
               l ← put_index (colors t) e (Color (Z.of_nat i - 1) (c_count c));
               Some (ColorTable l (ordered t))).

Definition color_sift (n : nat) : sift_ops color_table := {|
  so_size _ := n;
  so_arr := ordered;
  so_key t e := c_count <$> at_index (colors t) e;
  so_pos t e := (λ c, S (Z.to_nat (c_index c))) <$> at_index (colors t) e;
  so_place := color_place;
  so_before a b := a <? b;
|}.

(** The choice of the child to pull up. *)
Definition color_pick (n : nat) (tmp : Z) (i : nat) : M color_table (option nat) :=
  let O := color_sift n in
  right ← (if (2 * i + 1 <=? n)%nat then
             r ← arr_get O (2 * i); elt_before O r tmp
           else mret false);
  if (right : bool) then
    r ← arr_get O (2 * i);
    l ← arr_get O (2 * i - 1);
    b ← elt_before O r l;
    mret (Some (if (b : bool) then (2 * i + 1)%nat else (2 * i)%nat))
  else
    left ← (if (2 * i <=? n)%nat then
              l ← arr_get O (2 * i - 1); elt_before O l tmp
            else mret false);
    if (left : bool) then
      right' ← (if (2 * i + 1 <=? n)%nat then
                  r ← arr_get O (2 * i);
                  l ← arr_get O (2 * i - 1); elt_before O r l
                else mret false);
      mret (Some (if (right' : bool) then (2 * i + 1)%nat else (2 * i)%nat))
    else mret None.

(** [num] is a signed difference; the count wraps like the unsigned word it
    is. *)
Definition change_color_count (n : nat) (color num : Z) : M color_table unit :=
  if negb (num =? 0) then
    c ← getopt (λ t, at_index (colors t) color);
    let i := S (Z.to_nat (c_index c)) in
    let count := u32 (c_count c + num) in
    putopt (λ t, l ← put_index (colors t) color (Color (c_index c) count);
                 Some (ColorTable l (ordered t)));;
    i ← (if num <? 0 then bubble_up (color_sift n) color i else mret i);
    i ← fall_down (color_sift n) (color_pick n) color i;
    color_place i color
  else mret tt.

(** ** The free lists *)

Definition p_next : field pstate ptr :=
  node_field inv_pages set_inv_pages lnext (λ v n, InvPage v (llast n)).
Definition p_last : field pstate ptr :=
  node_field inv_pages set_inv_pages llast (λ v n, InvPage (lnext n) v).
Definition page_clist : clist_ops pstate := ClistOps p_next p_last.

Definition p_lock := lock p_mutex set_p_mutex.
Definition p_unlock := unlock set_p_mutex.

Definition on_color_tab : M color_table unit → M pstate unit := zoom color_tab set_color_tab.

(** [page_count[c]--; out = inv_page_addr(free_pages[c]);
    free_pages[c] = page_clist_delete(free_pages[c]);] *)
Definition take_page (c : Z) : M pstate Z :=
  n ← getopt (λ s, at_index (page_count s) c);
  putopt (λ s, l ← put_index (page_count s) c (u32 (n - 1)); Some (set_page_count l s));;
  p ← getopt (λ s, at_index (free_pages s) c);
  table ← gets inv_page_table;
  hd ← clist_delete page_clist p;
  putopt (λ s, l ← put_index (free_pages s) c hd; Some (set_free_pages l s));;
  mret (inv_page_addr table p).

Definition phys_page_alloc_step (i : Z) : M pstate (Z + Z) :=
  n ← gets num_page_colors;
  if i <? Z.of_nat n then
    p_lock;;
    c ← getopt (λ s, at_index (ordered (color_tab s)) i);
    cnt ← getopt (λ s, at_index (page_count s) c);
    if negb (cnt =? 0) then
      out ← take_page c;
      p_unlock;;
      mret (Break out)
    else
      p_unlock;;
      mret (Continue (i + 1))
  else mret (Break 0).

Definition phys_page_alloc : M pstate Z :=
  n ← gets num_page_colors;
  loop (S n) phys_page_alloc_step 0.

Definition kern_page_alloc : M pstate Z :=
  p_lock;;
  c ← getopt (λ s, at_index (ordered (color_tab s)) 0);
  cnt ← getopt (λ s, at_index (page_count s) c);
  if negb (cnt =? 0) then
    out ← take_page c;
    p_unlock;;
    n ← gets num_page_colors;
    c ← getopt (λ s, at_index (ordered (color_tab s)) 0);
    on_color_tab (change_color_count n c 1);;
    mret out
  else
    p_unlock;;
    mret 0.

(** [free_pages[c] = page_clist_insert(free_pages[c], p); page_count[c]++;] *)
Definition put_page (c : Z) (p : ptr) : M pstate unit :=
  hd ← getopt (λ s, at_index (free_pages s) c);
  hd ← clist_insert page_clist hd p;
  putopt (λ s, l ← put_index (free_pages s) c hd; Some (set_free_pages l s));;
  cnt ← getopt (λ s, at_index (page_count s) c);
  putopt (λ s, l ← put_index (page_count s) c (u32 (cnt + 1)); Some (set_page_count l s)).

Definition phys_page_free_one (addr : Z) : M pstate unit :=
  n ← gets num_page_colors;
  table ← gets inv_page_table;
  on_color_tab (change_color_count n (page_color n addr) (-1));;
  p_lock;;
  put_page (page_color n addr) (inv_page_lookup table addr);;
  p_unlock.

Definition phys_page_insert_one (addr : Z) : M pstate unit :=
  p_lock;;
  n ← gets num_page_colors;
  table ← gets inv_page_table;
  put_page (page_color n addr) (inv_page_lookup table addr);;
  p_unlock.

(** The loops over the array of addresses. *)
Definition phys_page_insert (addrs : list Z) : M pstate unit :=
  for_upto (length addrs) 0 (λ i, a ← getopt (λ _, at_index addrs i); phys_page_insert_one a).

Definition phys_page_free (addrs : list Z) : M pstate unit :=
  for_upto (length addrs) 0 (λ i, a ← getopt (λ _, at_index addrs i); phys_page_free_one a).

(** ** The colour table is a heap *)

Lemma at_index_nat {A} (l : list A) (i : nat) : at_index l (Z.of_nat i) = l !! i.
Proof. unfold at_index. by rewrite decide_True, Nat2Z.id by lia. Qed.

Lemma at_index_Some {A} (l : list A) i x :
  at_index l i = Some x ↔ 0 ≤ i ∧ l !! Z.to_nat i = Some x.
Proof. unfold at_index. case_decide; naive_solver. Qed.

Lemma at_index_lt {A} (l : list A) i :
  is_Some (at_index l i) ↔ 0 ≤ i < Z.of_nat (length l).
Proof.
  unfold at_index. case_decide; [rewrite lookup_lt_is_Some; lia|].
  split; [by intros []|lia].
Qed.

Lemma put_index_Some {A} (l l' : list A) i x :
  put_index l i x = Some l' ↔
  0 ≤ i < Z.of_nat (length l) ∧ l' = <[Z.to_nat i := x]> l.
Proof. unfold put_index. case_decide; naive_solver. Qed.

Lemma put_index_ok {A} (l : list A) i x :
  0 ≤ i < Z.of_nat (length l) → put_index l i x = Some (<[Z.to_nat i := x]> l).
Proof. intros Hi. by apply put_index_Some. Qed.

Lemma at_put_index {A} (l : list A) i j x :
  0 ≤ i < Z.of_nat (length l) →
  at_index (<[Z.to_nat i := x]> l) j = if decide (i = j) then Some x else at_index l j.
Proof.
  intros Hi. unfold at_index. repeat case_decide; subst; try done || lia.
  - rewrite list_lookup_insert_eq by lia. done.
  - by rewrite list_lookup_insert_ne by lia.
Qed.

Section color.
Context (n : nat).

Lemma color_place_run i e t t' :
  color_place i e t = Done (tt, t') → (1 ≤ i)%nat →
  ∃ c, at_index (colors t) e = Some c ∧ (i - 1 < length (ordered t))%nat ∧
    0 ≤ e < Z.of_nat (length (colors t)) ∧
    t' = ColorTable (<[Z.to_nat e := Color (Z.of_nat i - 1) (c_count c)]> (colors t))
                    (<[(i - 1)%nat := e]> (ordered t)).
Proof.
  intros Hrun Hi. revert Hrun.
  unfold color_place, mbind, M_bind, putopt, getopt, option_bind.
  unfold put_index at 1. case_decide as Hd; [|done]. simpl.
  rewrite at_put_index, decide_True by done.
  cbn [colors ordered].
  destruct (at_index (colors t) e) as [c|] eqn:Hc; simpl; [|done].
  pose proof (mk_is_Some _ _ Hc) as He%at_index_lt.
  rewrite put_index_ok by done. simpl. intros Hrun.
  exists c. replace (i - 1)%nat with (Z.to_nat (Z.of_nat i - 1)) by lia.
  split_and!; [done|lia..|by simplify_eq].
Qed.

Lemma color_place_ok i e t c :
  (1 ≤ i ≤ length (ordered t))%nat → at_index (colors t) e = Some c →
  color_place i e t = Done (tt,
    ColorTable (<[Z.to_nat e := Color (Z.of_nat i - 1) (c_count c)]> (colors t))
               (<[(i - 1)%nat := e]> (ordered t))).
Proof.
  intros Hi Hc. pose proof (mk_is_Some _ _ Hc) as He%at_index_lt.
  unfold color_place, mbind, M_bind, putopt, getopt, option_bind.
  rewrite put_index_ok by lia. simpl. rewrite at_put_index, decide_True by (done || lia).
  cbn [colors ordered]. rewrite Hc. simpl. rewrite put_index_ok by done.
  by replace (i - 1)%nat with (Z.to_nat (Z.of_nat i - 1)) by lia.
Qed.

(** A move writes no count. *)
Lemma color_place_count i e t t' x :
  color_place i e t = Done (tt, t') →
  c_count <$> at_index (colors t') x = c_count <$> at_index (colors t) x ∧
  length (colors t') = length (colors t) ∧ length (ordered t') = length (ordered t).
Proof.
  intros Hrun. assert (1 ≤ i)%nat as Hi.
  { destruct i; [|lia]. exfalso. revert Hrun.
    unfold color_place, mbind, M_bind, putopt, option_bind, put_index.
    by rewrite decide_False by lia. }
  destruct (color_place_run i e t t' Hrun Hi) as (c & Hc & Hlt & He & ->). simpl.
  rewrite !length_insert, at_put_index by done. split_and!; [|done..].
  case_decide; [subst; by rewrite Hc|done].
Qed.

Global Instance color_frame_key x :
  SiftFrame (color_sift n) (λ t, c_count <$> at_index (colors t) x).
Proof. intros i e t t' Hrun. by apply (color_place_count i e). Qed.

Global Instance color_frame_len :
  SiftFrame (color_sift n) (λ t, (length (colors t), length (ordered t))).
Proof.
  intros i e t t' Hrun. destruct (color_place_count i e t t' 0 Hrun) as (_ & H1 & H2).
  congruence.
Qed.

Global Instance color_sift_ok : SiftOk (color_sift n).
Proof.
  split; simpl.
  - intros i e t Hi He. destruct (at_index (colors t) e) as [c|] eqn:Hc; [|by destruct He].
    pose proof (mk_is_Some _ _ Hc) as Hlt%at_index_lt.
    apply wp_Done. eexists tt, _. split; [by apply color_place_ok|]. simpl.
    split_and!; [done| |].
    + rewrite at_put_index, decide_True by done. simpl. f_equal. lia.
    + intros x Hx. by rewrite at_put_index, decide_False by done.
  - by intros i e t t' _.
  - intros x. apply color_frame_key.
  - intros; lia.
  - intros; lia.
  - intros; lia.
Qed.

Lemma color_pick_ok ks : pick_ok (color_sift n) ks (color_pick n).
Proof.
  intros s v i tmp Hh. unfold color_pick.
  pose proof (ho_size _ _ _ _ _ _ Hh) as Hsz. simpl in Hsz.
  pose proof (ho_idx _ _ _ _ _ _ Hh) as Hi.
  assert (∀ j e, v !! j = Some e → so_key (color_sift n) s e = Some (ks e)) as Hkey.
  { intros j e He. eapply ho_key; [done|]. by eapply list_elem_of_lookup_2. }
  pose proof (Hkey _ _ (ho_tmp _ _ _ _ _ _ Hh)) as Hkt.
  destruct (Nat.leb_spec (2 * i) n) as [H2|H2].
  2:{ rewrite (proj2 (Nat.leb_gt (2 * i + 1) _)) by lia. repeat wp_step.
      split; [done|]. intros j a Hj Hji. lia. }
  destruct (lookup_lt_is_Some_2 v (2 * i - 1)) as [l Hl]; [lia|].
  pose proof (Hkey _ _ Hl) as Hkl.
  destruct (Nat.leb_spec (2 * i + 1) n) as [H3|H3].
  - destruct (lookup_lt_is_Some_2 v (2 * i)) as [r Hr]; [lia|].
    pose proof (Hkey _ _ Hr) as Hkr.
    assert (∀ (P : Z → Prop), P (ks l) → P (ks r) → ∀ j a,
      (2 ≤ j ≤ length v)%nat → (j / 2)%nat = i → v !! (j - 1)%nat = Some a → P (ks a)) as Hch.
    { intros P Pl Pr j a Hj Hji Ha.
      assert (j = 2 * i ∨ j = 2 * i + 1)%nat as [->| ->] by lia; [congruence|].
      rewrite Nat.add_sub in Ha. congruence. }
    repeat first [wp_step | eapply (holed_get _ _ _ _ _ _ (2 * i)%nat); [done|lia|done|]
      | eapply (holed_get _ _ _ _ _ _ (2 * i - 1)%nat); [done|lia|done|]
      | eapply wp_elt_before; [done..|]].
    all: split; [done|]; cbn [so_before color_sift] in *.
    + destruct (ks r <? ks l) eqn:Hrl; (split; [lia|]); (split; [lia|]).
      * exists r. rewrite Nat.add_sub. split; [done|]. split; [done|].
        apply Hch; unfold le; simpl; lia.
      * exists l. split; [done|]. split; [lia|]. apply Hch; unfold le; simpl; lia.
    + destruct (ks r <? ks l) eqn:Hrl; (split; [lia|]); (split; [lia|]).
      * exists r. rewrite Nat.add_sub. split; [done|]. split; [lia|].
        apply Hch; unfold le; simpl; lia.
      * exists l. split; [done|]. split; [done|]. apply Hch; unfold le; simpl; lia.
    + apply Hch; unfold le; simpl; lia.
  - assert (∀ (P : Z → Prop), P (ks l) → ∀ j a,
      (2 ≤ j ≤ length v)%nat → (j / 2)%nat = i → v !! (j - 1)%nat = Some a → P (ks a)) as Hch.
    { intros P Pl j a Hj Hji Ha. assert (j = 2 * i)%nat as -> by lia. congruence. }
    repeat first [wp_step
      | eapply (holed_get _ _ _ _ _ _ (2 * i - 1)%nat); [done|lia|done|]
      | eapply wp_elt_before; [done..|]].
    all: split; [done|].
    + split_and!; [lia..|exists l; split_and!; [done|done|]].
      apply Hch. unfold le. simpl. lia.
    + by apply Hch.
Qed.
End color.

Definition color_count (t : color_table) (c : Z) : Z :=
  default 0 (c_count <$> at_index (colors t) c).

(** The table orders all [n] colours by count; [v] is the order. *)
Record color_wf (n : nat) (t : color_table) (v : list Z) : Prop := {
  cw_heap : heap_at (color_sift n) (color_count t) t v;
  cw_all : v ≡ₚ seqZ 0 (Z.of_nat n);
  cw_colors : length (colors t) = n;
  cw_ordered : length (ordered t) = n;
  cw_word c : 0 ≤ color_count t c < 2 ^ 32;
}.

Section color_spec.
Context (n : nat).
Implicit Types t : color_table.

Lemma color_wf_elem t v c : color_wf n t v → 0 ≤ c < Z.of_nat n →
  ∃ j ct, v !! j = Some c ∧ at_index (colors t) c = Some ct ∧ c_count ct = color_count t c ∧
          S (Z.to_nat (c_index ct)) = S j.
Proof.
  intros [[Hs _] Hall Hl _ _] Hc.
  assert (c ∈ v) as Hv by (rewrite Hall; apply elem_of_seqZ; lia).
  apply list_elem_of_lookup_1 in Hv as [j Hj].
  destruct (proj2 (at_index_lt (colors t) c) ltac:(lia)) as [ct Hct].
  pose proof (hp_pos _ _ _ _ Hs j c Hj) as Hp. simpl in Hp. rewrite Hct in Hp.
  exists j, ct. split_and!; [done|done| |].
  - unfold color_count. by rewrite Hct.
  - simpl in Hp. congruence.
Qed.

Lemma color_count_only t t' c :
  sift_only (color_sift n) t t' → color_count t' c = color_count t c.
Proof.
  intros Ho. unfold color_count.
  by rewrite (Ho _ (λ t, c_count <$> at_index (colors t) c) _).
Qed.

(** The count of one colour changes and the heap order is restored. *)
Lemma change_color_count_spec t v c num :
  color_wf n t v → 0 ≤ c < Z.of_nat n →
  (0 < num → color_count t c + num < 2 ^ 32) →
  wp (change_color_count n c num)
     (λ _ t', (∃ v', color_wf n t' v') ∧
        ∀ x, color_count t' x = if decide (x = c) then u32 (color_count t c + num)
                                else color_count t x) t.
Proof.
  intros Hwf Hc Hov. unfold change_color_count.
  destruct (Z.eqb_spec num 0) as [->|Hnz]; simpl.
  { apply wp_ret. split; [by exists v|]. intros x. case_decide; [subst|done].
    rewrite Z.add_0_r, u32_small; [done|]. apply (cw_word _ _ _ Hwf). }
  destruct (color_wf_elem t v c Hwf Hc) as (j & ct & Hj & Hct & Hcnt & Hidx).
  pose proof Hwf as [[Hs Hf] Hall Hlc Hlo Hw].
  apply wp_bind, (wp_getopt _ ct); [done|]. rewrite Hidx.
  set (count := u32 (c_count ct + num)).
  set (t1 := ColorTable (<[Z.to_nat c := Color (c_index ct) count]> (colors t)) (ordered t)).
  apply wp_bind, (wp_putopt _ t1); [simpl; by rewrite put_index_ok by lia|].
  assert (∀ x, at_index (colors t1) x =
    if decide (c = x) then Some (Color (c_index ct) count) else at_index (colors t) x) as Hat.
  { intros x. apply at_put_index. lia. }
  assert (∀ x, color_count t1 x = if decide (x = c) then count else color_count t x) as Hcnt1.
  { intros x. unfold color_count. rewrite Hat. repeat case_decide; try done; congruence. }
  pose proof Hs as [Hsz Hcap Harr Hpos Hkey Hnd].
  assert (heap_shape (color_sift n) (color_count t1) t1 v) as Hs1.
  { split; [done|done|done| | |done].
    - intros i x Hx. simpl. rewrite Hat. case_decide; [subst x|by apply Hpos].
      rewrite <-(Hpos i c Hx). simpl. by rewrite Hct.
    - intros x Hx. simpl. rewrite Hat, Hcnt1. repeat case_decide; try congruence; [done|].
      by apply Hkey. }
  assert (holed (color_sift n) (color_count t1) t1 v (S j) c) as Hh.
  { apply shape_holed; [done|lia|]. by rewrite Nat.sub_succ, Nat.sub_0_r. }
  assert (weak_heap (color_sift n) (color_count t1) v (S j)) as Hwk.
  { apply (weak_heap_ext (color_sift n) (color_count t));
      [|by apply (full_heap_weak (color_sift n))|lia].
    intros i x Hx Hij. rewrite Hcnt1. case_decide; [subst x|done].
    exfalso. apply Hij. pose proof (NoDup_lookup _ _ _ _ Hnd Hx Hj). lia. }
  assert (∀ t' v', v' ≡ₚ v → heap_at (color_sift n) (color_count t1) t' v' →
            sift_only (color_sift n) t1 t' →
            (∃ v', color_wf n t' v') ∧ ∀ x, color_count t' x =
              if decide (x = c) then u32 (color_count t c + num) else color_count t x) as Hend.
  { intros t' v' Hp Hh' Ho.
    assert (∀ x, color_count t' x = color_count t1 x) as Hk.
    { intros x. by apply color_count_only. }
    pose proof (Ho _ (λ t, (length (colors t), length (ordered t))) _) as [= Hl1 Hl2].
    split; [|intros x; rewrite Hk, Hcnt1, <-Hcnt; done].
    exists v'. split.
    - eapply heap_at_keys; [|exact Hh']. intros x _. by rewrite Hk.
    - by rewrite Hp.
    - rewrite Hl1. simpl. by rewrite length_insert.
    - by rewrite Hl2.
    - intros x. rewrite Hk, Hcnt1. case_decide; [apply u32_range|apply Hw]. }
  destruct (Z.ltb_spec num 0) as [Hneg|Hpos'].
  - eapply wp_mono; [apply (sift_spec (color_sift n) (color_count t1) (color_pick n) _ v);
                       [apply color_pick_ok|done|done]|].
    intros [] t' (v' & Hp & Hh' & Ho). by apply (Hend t' v').
  - apply wp_bind, wp_ret.
    eapply wp_mono; [apply (sift_down_spec (color_sift n) (color_count t1) (color_pick n) _ v);
                       [apply color_pick_ok|done|done|]|].
    + intros Hi2 a b Ha Hb. rewrite Nat.sub_succ, Nat.sub_0_r in Ha.
      assert (a = c) as -> by congruence. unfold le. simpl.
      assert (b ≠ c) as Hbc.
      { intros ->. pose proof (NoDup_lookup _ _ _ _ Hnd Hb Hj). lia. }
      rewrite !Hcnt1, decide_True, decide_False by done.
      pose proof (Hf (S j)) as Hoj. unfold le in Hoj.
      specialize (Hoj ltac:(apply lookup_lt_Some in Hj; lia) c b).
      rewrite Nat.sub_succ, Nat.sub_0_r in Hoj. specialize (Hoj Hj Hb).
      unfold le in Hoj. simpl in Hoj. unfold count. rewrite Hcnt, u32_small.
      * lia.
      * pose proof (Hw c). lia.
    + intros [] t' (v' & Hp & Hh' & Ho). by apply (Hend t' v').
Qed.

(** The first colour of the order has the least count. *)
Lemma ordered_head t v c :
  color_wf n t v → at_index (ordered t) 0 = Some c →
  0 ≤ c < Z.of_nat n ∧ ∀ x, 0 ≤ x < Z.of_nat n → color_count t c ≤ color_count t x.
Proof.
  intros [[Hs Hf] Hall Hl Hlo _] Hc. apply at_index_Some in Hc as [_ Hc].
  change (Z.to_nat 0) with 0%nat in Hc.
  assert (length v = n) as Hlv by (by rewrite <-(hp_size _ _ _ _ Hs)).
  assert (head v = Some c) as Hhd.
  { pose proof (hp_arr _ _ _ _ Hs 0) as H0. simpl in H0.
    rewrite H0 in Hc; [by destruct v|]. apply lookup_lt_Some in Hc. lia. }
  split.
  - assert (c ∈ v) as Hv by (by apply head_Some_elem_of). rewrite Hall in Hv.
    apply elem_of_seqZ in Hv. lia.
  - intros x Hx. assert (x ∈ v) as Hxv by (rewrite Hall; apply elem_of_seqZ; lia).
    pose proof (full_heap_head (color_sift n) (color_count t) v c x Hf Hhd Hxv) as Hle.
    unfold le in Hle. simpl in Hle. lia.
Qed.
End color_spec.

(** ** Page addresses and page structures *)

(** A page whose structure lies within the address space. *)
Definition page_ok (table : ptr) (addr : Z) : Prop :=
  0 ≤ addr < 2 ^ 32 ∧ (PAGE_SIZE | addr) ∧ 0 < table ∧
  table + (phys_to_page addr + 1) * inv_page_size ≤ 2 ^ 32.

Lemma inv_page_lookup_small table addr :
  page_ok table addr → inv_page_lookup table addr = table + phys_to_page addr * inv_page_size.
Proof.
  intros (Ha & Hd & Ht & He). unfold inv_page_lookup. apply u32_small.
  unfold phys_to_page, PAGE_SIZE, inv_page_size in *. lia.
Qed.

Lemma inv_page_round_trip table addr :
  page_ok table addr → inv_page_addr table (inv_page_lookup table addr) = addr.
Proof.
  intros Hok. rewrite inv_page_lookup_small by done. destruct Hok as (Ha & Hd & Ht & He).
  unfold inv_page_addr, phys_to_page.
  replace (table + addr / PAGE_SIZE * inv_page_size - table)
    with (addr / PAGE_SIZE * inv_page_size) by lia.
  rewrite Z.quot_mul by (unfold inv_page_size; lia).
  destruct Hd as [k ->]. rewrite Z.div_mul by (unfold PAGE_SIZE; lia).
  apply u32_small. lia.
Qed.

Lemma inv_page_nonnull table addr : page_ok table addr → inv_page_lookup table addr ≠ NULL.
Proof.
  intros Hok. rewrite inv_page_lookup_small by done. destruct Hok as (Ha & Hd & Ht & He).
  unfold NULL, phys_to_page, inv_page_size, PAGE_SIZE in *. lia.
Qed.

Lemma inv_page_inj table a b :
  page_ok table a → page_ok table b → inv_page_lookup table a = inv_page_lookup table b → a = b.
Proof.
  intros Ha Hb Heq. rewrite <-(inv_page_round_trip table a), Heq by done.
  by apply inv_page_round_trip.
Qed.

Lemma page_color_range n addr : (0 < n)%nat → 0 ≤ page_color n addr < Z.of_nat n.
Proof. intros Hn. apply Z.mod_pos_bound. lia. Qed.

Global Instance inv_pages_lens : LensOk inv_pages set_inv_pages.
Proof. by split. Qed.

Global Instance page_clist_ok : ClistOk page_clist.
Proof.
  split; simpl; try (by apply node_field_ok); by apply node_field_indep.
Qed.

Definition p_rest (s : pstate) :=
  (num_page_colors s, free_pages s, page_count s, inv_page_table s, color_tab s, p_mutex s).

Global Instance clist_frame_rest : ClistFrame page_clist p_rest.
Proof. split; by apply node_field_stable. Qed.
Global Instance clist_frame_dom : ClistFrame page_clist (λ s, dom (inv_pages s)).
Proof. split; by apply node_field_stable_dom. Qed.

(** [F c] are the addresses of the free pages of colour [c], in list order. *)
Record pages_wf (s : pstate) (F : nat → list Z) : Prop := {
  pw_colors : (0 < num_page_colors s)%nat;
  pw_free : length (free_pages s) = num_page_colors s;
  pw_count c : (c < num_page_colors s)%nat →
    page_count s !! c = Some (Z.of_nat (length (F c))) ∧ Z.of_nat (length (F c)) < 2 ^ 32;
  pw_len : length (page_count s) = num_page_colors s;
  pw_list c hd : free_pages s !! c = Some hd →
    clist page_clist s hd (inv_page_lookup (inv_page_table s) <$> F c);
  pw_page c a : (c < num_page_colors s)%nat → a ∈ F c →
    page_ok (inv_page_table s) a ∧ page_color (num_page_colors s) a = Z.of_nat c;
}.

Lemma p_rest_eq s s' : p_rest s' = p_rest s →
  num_page_colors s' = num_page_colors s ∧ free_pages s' = free_pages s ∧
  page_count s' = page_count s ∧ inv_page_table s' = inv_page_table s ∧
  color_tab s' = color_tab s ∧ p_mutex s' = p_mutex s.
Proof. unfold p_rest. intros [=]. done. Qed.

(** Operations on the lists leave the rest of the state alone. *)
Definition p_same (s s' : pstate) : Prop :=
  num_page_colors s' = num_page_colors s ∧ inv_page_table s' = inv_page_table s ∧
  color_tab s' = color_tab s ∧ p_mutex s' = p_mutex s ∧
  dom (inv_pages s') = dom (inv_pages s).

(** Lists of different colours share no page structure. *)
Lemma pages_disjoint s F c d x :
  pages_wf s F → (c < num_page_colors s)%nat → (d < num_page_colors s)%nat →
  x ∈ inv_page_lookup (inv_page_table s) <$> F c →
  x ∈ inv_page_lookup (inv_page_table s) <$> F d → c = d.
Proof.
  intros Hw Hc Hd (a & -> & Ha)%list_elem_of_fmap (b & Heq & Hb)%list_elem_of_fmap.
  destruct (pw_page _ _ Hw c a Hc Ha) as [Hoka Hca].
  destruct (pw_page _ _ Hw d b Hd Hb) as [Hokb Hcb].
  apply inv_page_inj in Heq; [|done..]. subst. lia.
Qed.

(** Replacing the list of one colour. *)
Lemma pages_update s s' F c hd l :
  pages_wf s F → (c < num_page_colors s)%nat → p_same s s' →
  free_pages s' = <[c := hd]> (free_pages s) →
  page_count s' = <[c := Z.of_nat (length l)]> (page_count s) →
  Z.of_nat (length l) < 2 ^ 32 →
  clist page_clist s' hd (inv_page_lookup (inv_page_table s) <$> l) →
  (∀ a, a ∈ l → page_ok (inv_page_table s) a ∧ page_color (num_page_colors s) a = Z.of_nat c) →
  (∀ d x, (d < num_page_colors s)%nat → d ≠ c →
     x ∈ inv_page_lookup (inv_page_table s) <$> F d →
     fget p_next s' x = fget p_next s x ∧ fget p_last s' x = fget p_last s x) →
  pages_wf s' (<[c := l]> F).
Proof.
  intros Hw Hc (Hn & Ht & _ & _ & _) Hf Hcnt Hlen Hcl Hl Hfr. destruct Hw as [Hn0 Hfl Hct Hpl Hls Hpg].
  split; rewrite ?Hn, ?Ht; [done|by rewrite Hf, length_insert| |by rewrite Hcnt, length_insert|..].
  - intros d Hd. rewrite Hcnt. destruct (decide (c = d)) as [<-|Hne].
    + rewrite fn_lookup_insert, list_lookup_insert_eq by lia. done.
    + rewrite fn_lookup_insert_ne, list_lookup_insert_ne by done. by apply Hct.
  - intros d hd' Hd. rewrite Hf in Hd. destruct (decide (c = d)) as [<-|Hne].
    + rewrite list_lookup_insert_eq in Hd by lia. simplify_eq. by rewrite fn_lookup_insert.
    + rewrite list_lookup_insert_ne in Hd by done. rewrite fn_lookup_insert_ne by done.
      eapply clist_frame; [|by apply Hls]. intros x Hx. apply lookup_lt_Some in Hd.
      apply (Hfr d x); [lia|done|done].
  - intros d a Hd. destruct (decide (c = d)) as [<-|Hne].
    + rewrite fn_lookup_insert. apply Hl.
    + rewrite fn_lookup_insert_ne by done. by apply Hpg.
Qed.

Lemma clist_only_same s s' l : clist_only page_clist s s' l →
  p_same s s' ∧ free_pages s' = free_pages s ∧ page_count s' = page_count s.
Proof.
  intros [Ho _]. destruct (p_rest_eq _ _ (Ho _ p_rest _)) as (H1 & H2 & H3 & H4 & H5 & H6).
  split; [|done]. split_and!; try done. apply (Ho _ (λ s, dom (inv_pages s)) _).
Qed.

Lemma take_page_spec s F c a l :
  pages_wf s F → (c < num_page_colors s)%nat → F c = a :: l →
  wp (take_page (Z.of_nat c))
     (λ r s', r = a ∧ pages_wf s' (<[c := l]> F) ∧ p_same s s') s.
Proof.
  intros Hw Hc HF. pose proof Hw as [Hn0 Hfl Hct Hpl Hls Hpg].
  destruct (Hct c Hc) as [Hcnt Hlen]. rewrite HF in Hcnt, Hlen. cbn [length] in *.
  destruct (lookup_lt_is_Some_2 (free_pages s) c) as [hd Hhd]; [lia|].
  pose proof (Hls c hd Hhd) as Hcl. rewrite HF in Hcl.
  destruct (Hpg c a Hc) as [Hok _]; [rewrite HF; by left|].
  assert (hd = inv_page_lookup (inv_page_table s) a) as ->.
  { by eapply clist_head. }
  apply wp_bind, (wp_getopt _ (Z.of_nat (S (length l)))); [by rewrite at_index_nat|].
  set (s1 := set_page_count (<[c := Z.of_nat (length l)]> (page_count s)) s).
  apply wp_bind, (wp_putopt _ s1).
  { rewrite put_index_ok by lia. simpl. rewrite Nat2Z.id, u32_small by lia.
    do 3 f_equal. lia. }
  apply wp_bind, (wp_getopt _ (inv_page_lookup (inv_page_table s) a)); [by rewrite at_index_nat|].
  apply wp_bind, wp_gets, wp_bind.
  eapply wp_mono.
  { apply (clist_delete_spec page_clist s1 _ (inv_page_lookup (inv_page_table s) <$> a :: l)).
    eapply clist_frame; [|exact Hcl]. done. }
  intros hd' s2 (_ & Hcl2 & Honly). pose proof Honly as [_ Hfr].
  destruct (clist_only_same _ _ _ Honly) as ((Hn2 & Ht2 & Hct2 & Hm2 & Hd2) & Hf2 & Hc2).
  apply wp_bind. eapply wp_putopt.
  { rewrite put_index_ok by (rewrite Hf2; simpl; lia). rewrite Nat2Z.id. simpl. reflexivity. }
  apply wp_ret. split; [by rewrite inv_page_round_trip|].
  set (s3 := set_free_pages _ s2). assert (p_same s s3) as Hsame by done.
  split; [|done]. apply (pages_update s s3 F c hd'); try done; [..|].
  - simpl. by rewrite Hf2.
  - lia.
  - eapply clist_frame; [|exact Hcl2]. done.
  - intros x Hx. apply Hpg; [done|]. rewrite HF. by right.
  - intros d x Hd Hne Hx. apply (Hfr x). intros Hx'.
    apply Hne. eapply pages_disjoint; [done..| |]; [exact Hx|]. by rewrite HF.
Qed.

Lemma put_page_spec s F c a :
  pages_wf s F → (c < num_page_colors s)%nat → page_ok (inv_page_table s) a →
  page_color (num_page_colors s) a = Z.of_nat c → a ∉ F c →
  is_Some (inv_pages s !! inv_page_lookup (inv_page_table s) a) →
  Z.of_nat (length (F c)) + 1 < 2 ^ 32 →
  wp (put_page (Z.of_nat c) (inv_page_lookup (inv_page_table s) a))
     (λ _ s', pages_wf s' (<[c := a :: F c]> F) ∧ p_same s s') s.
Proof.
  intros Hw Hc Hok Hcol Hout [nd Hnd] Hroom. pose proof Hw as [Hn0 Hfl Hct Hpl Hls Hpg].
  destruct (Hct c Hc) as [Hcnt Hlen].
  destruct (lookup_lt_is_Some_2 (free_pages s) c) as [hd Hhd]; [lia|].
  apply wp_bind, (wp_getopt _ hd); [by rewrite at_index_nat|].
  apply wp_bind. eapply wp_mono.
  { apply (clist_insert_spec page_clist s hd _ _ (Hls c hd Hhd)).
    - by apply inv_page_nonnull.
    - intros (b & Heq & Hb)%list_elem_of_fmap. apply Hout.
      destruct (Hpg c b Hc Hb) as [Hokb _]. apply inv_page_inj in Heq; [by subst|done..].
    - simpl. rewrite Hnd. eauto.
    - simpl. rewrite Hnd. eauto. }
  intros hd' s1 (-> & Hcl1 & Honly). pose proof Honly as [_ Hfr].
  destruct (clist_only_same _ _ _ Honly) as ((Hn1 & Ht1 & Hct1 & Hm1 & Hd1) & Hf1 & Hc1).
  apply wp_bind. eapply wp_putopt.
  { rewrite put_index_ok by (rewrite Hf1; lia). rewrite Nat2Z.id. simpl. reflexivity. }
  apply wp_bind, (wp_getopt _ (Z.of_nat (length (F c)))).
  { simpl. by rewrite Hc1, at_index_nat. }
  eapply wp_putopt.
  { simpl. rewrite put_index_ok by (rewrite Hc1; lia). rewrite Nat2Z.id. simpl. reflexivity. }
  set (s3 := set_page_count _ _). assert (p_same s s3) as Hsame by done.
  split; [|done]. apply (pages_update s s3 F c (inv_page_lookup (inv_page_table s) a)); try done.
  - simpl. by rewrite Hf1.
  - simpl. rewrite Hc1, u32_small by lia. do 2 f_equal. lia.
  - cbn [length]. lia.
  - eapply clist_frame; [|exact Hcl1]. done.
  - intros b [->|Hb]%elem_of_cons; [done|by apply Hpg].
  - intros d x Hd Hne Hx. apply (Hfr x). intros [->|Hx']%elem_of_cons.
    + apply list_elem_of_fmap in Hx as (b & Heq & Hb).
      destruct (Hpg d b Hd Hb) as [Hokb Hcb]. apply inv_page_inj in Heq; [|done..]. subst. lia.
    + apply Hne. by eapply pages_disjoint.
Qed.

(** ** The operations *)

(** The pages that can be handed out, colour by colour, in the caller's
    order of preference. *)
Definition colour_at (s : pstate) (i c : nat) : Prop :=
  at_index (ordered (color_tab s)) (Z.of_nat i) = Some (Z.of_nat c) ∧
  (c < num_page_colors s)%nat.

Lemma color_wf_at n t v i :
  color_wf n t v → (i < n)%nat →
  ∃ c, at_index (ordered t) (Z.of_nat i) = Some (Z.of_nat c) ∧ (c < n)%nat.
Proof.
  intros Hwf Hi. pose proof Hwf as [[Hs _] Hall _ Hlo _].
  destruct (lookup_lt_is_Some_2 (ordered t) i) as [z Hz]; [lia|].
  assert (z ∈ v) as Hv.
  { pose proof (hp_arr _ _ _ _ Hs i) as Harr. simpl in Harr. rewrite Harr in Hz.
    - by eapply list_elem_of_lookup_2.
    - by rewrite <-(hp_size _ _ _ _ Hs). }
  rewrite Hall in Hv. apply elem_of_seqZ in Hv. exists (Z.to_nat z).
  rewrite at_index_nat, Hz. split; [f_equal; lia|lia].
Qed.

(** [phys_page_alloc] returns a page of the first colour in the table's order
    that has one. *)
Definition page_allocated (s : pstate) (F : nat → list Z) (r : Z) (s' : pstate) : Prop :=
  ∃ i c l, colour_at s i c ∧ F c = r :: l ∧
    (∀ j d, (j < i)%nat → colour_at s j d → F d = []) ∧
    pages_wf s' (<[c := l]> F) ∧ p_same s s'.

Lemma pages_wf_lock s F b : pages_wf s F → pages_wf (set_p_mutex b s) F.
Proof.
  intros [? ? ? ? Hl ?]. split; try done.
  intros c hd Hc. eapply clist_frame; [|by apply Hl]. done.
Qed.

Lemma set_p_mutex_id s : p_mutex s = false → set_p_mutex false (set_p_mutex true s) = s.
Proof. destruct s; simpl. by intros ->. Qed.

Lemma phys_page_alloc_loop s F v i fuel :
  pages_wf s F → color_wf (num_page_colors s) (color_tab s) v → p_mutex s = false →
  (i ≤ num_page_colors s)%nat → (num_page_colors s - i < fuel)%nat →
  (∀ j d, (j < i)%nat → colour_at s j d → F d = []) →
  wp (loop fuel phys_page_alloc_step (Z.of_nat i))
     (λ r s', page_allocated s F r s' ∨
              (r = 0 ∧ s' = s ∧ ∀ c, (c < num_page_colors s)%nat → F c = [])) s.
Proof.
  intros Hw Hcw Hm. revert i. induction fuel as [|f IH]; intros i Hi Hf Hprev; [lia|].
  apply wp_bind, wp_bind, wp_gets.
  destruct (Z.ltb_spec (Z.of_nat i) (Z.of_nat (num_page_colors s))) as [Hlt|Hge].
  2:{ apply wp_ret, wp_ret. right. split_and!; [done..|]. intros c Hc.
      destruct Hcw as [[Hs _] Hall _ _ _].
      assert (Z.of_nat c ∈ v) as Hv by (rewrite Hall; apply elem_of_seqZ; lia).
      apply list_elem_of_lookup_1 in Hv as [j Hj].
      pose proof (lookup_lt_Some _ _ _ Hj) as Hjl.
      pose proof (hp_size _ _ _ _ Hs) as Hsz. simpl in Hsz.
      apply (Hprev j); [lia|]. split; [|done]. rewrite at_index_nat.
      pose proof (hp_arr _ _ _ _ Hs j) as Harr. simpl in Harr. by rewrite Harr. }
  destruct (color_wf_at _ _ _ i Hcw) as (c & Hc & Hcn); [lia|].
  destruct (pw_count _ _ Hw c Hcn) as [Hcnt Hlen].
  apply wp_bind, wp_lock; [done|].
  apply wp_bind, (wp_getopt _ (Z.of_nat c)); [done|].
  apply wp_bind, (wp_getopt _ (Z.of_nat (length (F c)))); [by rewrite at_index_nat|].
  destruct (F c) as [|a l] eqn:HF; simpl.
  - apply wp_bind, wp_unlock, wp_ret. rewrite set_p_mutex_id by done.
    replace (Z.of_nat i + 1) with (Z.of_nat (S i)) by lia. apply IH; [lia|lia|].
    intros j d Hj Hd. destruct (decide (j = i)) as [->|]; [|apply (Hprev j); [lia|done]].
    destruct Hd as [Hd _]. rewrite Hc in Hd. by simplify_eq.
  - apply wp_bind. eapply wp_mono.
    { apply (take_page_spec (set_p_mutex true s) F c a l); [by apply pages_wf_lock|done|done]. }
    intros r s' (-> & Hw' & (H1 & H2 & H3 & _ & H5)).
    apply wp_bind, wp_unlock, wp_ret, wp_ret. left. exists i, c, l.
    do 3 (split; [done|]). split; [by apply pages_wf_lock|]. by split_and!.
Qed.

Lemma phys_page_alloc_spec s F v :
  pages_wf s F → color_wf (num_page_colors s) (color_tab s) v → p_mutex s = false →
  wp phys_page_alloc
     (λ r s', page_allocated s F r s' ∨
              (r = 0 ∧ s' = s ∧ ∀ c, (c < num_page_colors s)%nat → F c = [])) s.
Proof.
  intros Hw Hcw Hm. apply wp_bind, wp_gets.
  apply (phys_page_alloc_loop s F v 0); [done..|lia|lia|]. intros j d Hj. lia.
Qed.

(** A change of the colour table does not touch the lists. *)
Lemma pages_wf_tab s F t : pages_wf s F → pages_wf (set_color_tab t s) F.
Proof.
  intros [? ? ? ? Hl ?]. split; try done.
  intros c hd Hc. eapply clist_frame; [|by apply Hl]. done.
Qed.

(** [kern_page_alloc] serves the first colour only and counts the page. *)
Lemma kern_page_alloc_spec s F v :
  pages_wf s F → color_wf (num_page_colors s) (color_tab s) v → p_mutex s = false →
  (∀ c, color_count (color_tab s) c + 1 < 2 ^ 32) →
  wp kern_page_alloc
     (λ r s', ∃ c, colour_at s 0 c ∧
        ((r = 0 ∧ s' = s ∧ F c = []) ∨
         ∃ l, F c = r :: l ∧ pages_wf s' (<[c := l]> F) ∧
              (∃ v', color_wf (num_page_colors s') (color_tab s') v') ∧
              (∀ x, color_count (color_tab s') x =
                    color_count (color_tab s) x + (if decide (x = Z.of_nat c) then 1 else 0)) ∧
              p_mutex s' = false)) s.
Proof.
  intros Hw Hcw Hm Hov. pose proof (pw_colors _ _ Hw) as Hn0.
  destruct (color_wf_at _ _ _ 0 Hcw Hn0) as (c & Hc & Hcn).
  destruct (pw_count _ _ Hw c Hcn) as [Hcnt Hlen].
  apply wp_bind, wp_lock; [done|].
  apply wp_bind, (wp_getopt _ (Z.of_nat c)); [done|].
  apply wp_bind, (wp_getopt _ (Z.of_nat (length (F c)))); [by rewrite at_index_nat|].
  destruct (F c) as [|a l] eqn:HF; simpl.
  - apply wp_bind, wp_unlock, wp_ret. rewrite set_p_mutex_id by done.
    exists c. split; [done|]. by left.
  - apply wp_bind. eapply wp_mono.
    { apply (take_page_spec (set_p_mutex true s) F c a l); [by apply pages_wf_lock|done|done]. }
    intros r s' (-> & Hw' & (H1 & H2 & H3 & _ & H5)).
    apply wp_bind, wp_unlock, wp_bind, wp_gets. simpl in *.
    apply wp_bind, (wp_getopt _ (Z.of_nat c)); [simpl; by rewrite H3|].
    apply wp_bind, wp_zoom. simpl. rewrite ?H1, ?H3.
    eapply wp_mono; [apply (change_color_count_spec _ _ v); [done|lia|auto]|].
    intros [] t' ((v' & Hcw') & Hct). apply wp_ret. exists c. split; [done|]. right.
    exists l. split_and!; [done|by apply pages_wf_tab, pages_wf_lock| | |done].
    + exists v'. simpl. by rewrite H1.
    + intros x. simpl. rewrite Hct. pose proof (cw_word _ _ _ Hcw (Z.of_nat c)).
      specialize (Hov (Z.of_nat c)).
      case_decide; subst; [rewrite u32_small; lia|lia].
Qed.

(** *** Giving pages back *)

(** What every operation on pages keeps. *)
Definition p_static (s s' : pstate) : Prop :=
  num_page_colors s' = num_page_colors s ∧ inv_page_table s' = inv_page_table s ∧
  dom (inv_pages s') = dom (inv_pages s) ∧ p_mutex s' = p_mutex s.

Lemma p_static_trans s1 s2 s3 : p_static s1 s2 → p_static s2 s3 → p_static s1 s3.
Proof. intros (?&?&?&?) (?&?&?&?). split_and!; congruence. Qed.

(** A page in use: it has a structure and is on no free list. *)
Definition page_used (s : pstate) (F : nat → list Z) (a : Z) : Prop :=
  page_ok (inv_page_table s) a ∧
  inv_page_lookup (inv_page_table s) a ∈ dom (inv_pages s) ∧
  ∀ c, (c < num_page_colors s)%nat → a ∉ F c.

Definition colour_of (s : pstate) (a : Z) : nat := Z.to_nat (page_color (num_page_colors s) a).

Definition page_freed (s : pstate) F a s' : Prop :=
  pages_wf s' (<[colour_of s a := a :: F (colour_of s a)]> F) ∧ p_static s s'.

Lemma colour_of_lt s a : (0 < num_page_colors s)%nat →
  (colour_of s a < num_page_colors s)%nat ∧
  Z.of_nat (colour_of s a) = page_color (num_page_colors s) a.
Proof.
  intros Hn. pose proof (page_color_range (num_page_colors s) a Hn).
  unfold colour_of. lia.
Qed.

Lemma phys_page_insert_one_spec s F a :
  pages_wf s F → p_mutex s = false → page_used s F a →
  Z.of_nat (length (F (colour_of s a))) + 1 < 2 ^ 32 →
  wp (phys_page_insert_one a)
     (λ _ s', page_freed s F a s' ∧ color_tab s' = color_tab s) s.
Proof.
  intros Hw Hm (Hok & [nd Hnd]%elem_of_dom & Hout) Hroom.
  destruct (colour_of_lt s a (pw_colors _ _ Hw)) as [Hlt Hc].
  apply wp_bind, wp_lock; [done|]. apply wp_bind, wp_gets, wp_bind, wp_gets. simpl.
  rewrite <-Hc. apply wp_bind. eapply wp_mono.
  { apply (put_page_spec (set_p_mutex true s) F); try done;
      first [by apply pages_wf_lock|by apply Hout|by eexists]. }
  intros _ s' [Hw' (H1 & H2 & H3 & H4 & H5)]. apply wp_unlock.
  split; [|done]. split; [by apply pages_wf_lock|]. by split_and!.
Qed.

Lemma phys_page_free_one_spec s F v a :
  pages_wf s F → color_wf (num_page_colors s) (color_tab s) v → p_mutex s = false →
  page_used s F a → Z.of_nat (length (F (colour_of s a))) + 1 < 2 ^ 32 →
  wp (phys_page_free_one a)
     (λ _ s', page_freed s F a s' ∧
        (∃ v', color_wf (num_page_colors s') (color_tab s') v') ∧
        ∀ x, color_count (color_tab s') x =
             if decide (x = page_color (num_page_colors s) a)
             then u32 (color_count (color_tab s) x - 1) else color_count (color_tab s) x) s.
Proof.
  intros Hw Hcw Hm (Hok & [nd Hnd]%elem_of_dom & Hout) Hroom.
  destruct (colour_of_lt s a (pw_colors _ _ Hw)) as [Hlt Hc].
  apply wp_bind, wp_gets, wp_bind, wp_gets, wp_bind, wp_zoom. rewrite <-Hc.
  eapply wp_mono; [by apply (change_color_count_spec _ _ v); [done|lia|lia]|].
  intros [] t (Hv & Hct). apply wp_bind, wp_lock; [done|].
  apply wp_bind. eapply wp_mono.
  { apply (put_page_spec (set_p_mutex true (set_color_tab t s)) F); try done;
      first [by apply pages_wf_lock, pages_wf_tab|by apply Hout|by eexists]. }
  intros _ s' [Hw' (H1 & H2 & H3 & H4 & H5)]. apply wp_unlock. simpl in *.
  split; [|split].
  - split; [by apply pages_wf_lock|]. by split_and!.
  - by rewrite H1, H3.
  - intros x. rewrite H3, Hct. case_decide; by subst.
Qed.

(** The loops free the pages one by one. *)
Lemma page_loop_spec (one : Z → M pstate unit) (P : pstate → Prop) s F addrs :
  (∀ a s F, P s → pages_wf s F → p_mutex s = false → page_used s F a →
     Z.of_nat (length (F (colour_of s a))) + 1 < 2 ^ 32 →
     wp (one a) (λ _ s', page_freed s F a s' ∧ P s') s) →
  P s → pages_wf s F → p_mutex s = false → NoDup addrs →
  (∀ a, a ∈ addrs → page_used s F a) →
  (∀ c, (c < num_page_colors s)%nat →
     Z.of_nat (length (F c)) + Z.of_nat (length addrs) < 2 ^ 32) →
  wp (for_upto (length addrs) 0 (λ i, a ← getopt (λ _, at_index addrs i); one a))
     (λ _ s', P s' ∧ p_static s s' ∧ ∃ F', pages_wf s' F' ∧
        ∀ c, (c < num_page_colors s)%nat →
          F' c ≡ₚ filter (λ a, colour_of s a = c) addrs ++ F c) s.
Proof.
  intros Hone HP Hw Hm Hnd Hused Hroom.
  set (I := λ i s', P s' ∧ p_static s s' ∧ ∃ F', pages_wf s' F' ∧
        ∀ c, (c < num_page_colors s)%nat →
          F' c ≡ₚ filter (λ a, colour_of s a = c) (take (Z.to_nat i) addrs) ++ F c).
  eapply wp_mono.
  { apply (wp_for_upto I).
    - intros i s1 Hi (HP1 & Hst & F1 & Hw1 & HF1). pose proof Hst as (Hn & Ht & Hd & Hmx).
      destruct (lookup_lt_is_Some_2 addrs (Z.to_nat i)) as [a Ha]; [lia|].
      apply wp_bind, (wp_getopt _ a); [apply at_index_Some; split; [lia|done]|].
      assert (a ∈ addrs) as Hin by (by eapply list_elem_of_lookup_2).
      destruct (Hused a Hin) as (Hok & Hdom & Hout).
      assert (colour_of s1 a = colour_of s a) as Hca by (unfold colour_of; by rewrite Hn).
      destruct (colour_of_lt s a (pw_colors _ _ Hw)) as [Hlt _].
      assert (page_used s1 F1 a) as Hused1.
      { rewrite <-Ht in Hok. split; [done|]. rewrite Ht, Hd. split; [done|].
        rewrite Hn. intros c Hc. rewrite HF1 by done.
        intros [[_ Hat]%list_elem_of_filter|Hac]%elem_of_app; [|by apply (Hout c)].
        apply list_elem_of_lookup_1 in Hat as [j Hj].
        apply lookup_take_Some in Hj as [Hj Hji].
        pose proof (NoDup_lookup _ _ _ _ Hnd Ha Hj). lia. }
      eapply wp_mono; [apply (Hone a s1 F1); try done; [congruence|]|].
      + rewrite Hca, (HF1 _ Hlt), length_app.
        pose proof (length_filter (λ x, colour_of s x = colour_of s a) (take (Z.to_nat i) addrs)) as Hlf.
        rewrite length_take in Hlf. specialize (Hroom _ Hlt). lia.
      + intros _ s2 [[Hw2 Hst2] HP2]. split; [done|]. split; [by eapply p_static_trans|].
        rewrite Hca in Hw2. exists (<[colour_of s a := a :: F1 (colour_of s a)]> F1). split; [done|].
        intros c Hc. replace (Z.to_nat (i + 1)) with (S (Z.to_nat i)) by lia.
        rewrite (take_S_r _ _ a) by done. rewrite filter_app, filter_cons, filter_nil.
        destruct (decide (colour_of s a = c)) as [<-|Hne].
        * rewrite fn_lookup_insert, HF1 by done. solve_Permutation.
        * rewrite fn_lookup_insert_ne, HF1, app_nil_r by done. done.
    - split; [done|]. split; [done|]. exists F. split; [done|]. by intros c Hc. }
  intros _ s' (HP' & Hst & F' & Hw' & HF'). split; [done|]. split; [done|].
  exists F'. split; [done|]. intros c Hc. rewrite HF' by done.
  by rewrite Z.add_0_l, Nat2Z.id, firstn_all.
Qed.

Lemma phys_page_insert_spec s F addrs :
  pages_wf s F → p_mutex s = false → NoDup addrs → (∀ a, a ∈ addrs → page_used s F a) →
  (∀ c, (c < num_page_colors s)%nat →
     Z.of_nat (length (F c)) + Z.of_nat (length addrs) < 2 ^ 32) →
  wp (phys_page_insert addrs)
     (λ _ s', color_tab s' = color_tab s ∧ p_static s s' ∧ ∃ F', pages_wf s' F' ∧
        ∀ c, (c < num_page_colors s)%nat →
          F' c ≡ₚ filter (λ a, colour_of s a = c) addrs ++ F c) s.
Proof.
  intros Hw Hm Hnd Hused Hroom.
  apply (page_loop_spec _ (λ s', color_tab s' = color_tab s)); try done.
  intros a s1 F1 Hct Hw1 Hm1 Hu Hr.
  eapply wp_mono; [by apply phys_page_insert_one_spec|].
  intros _ s2 [Hf Hct2]. split; [done|congruence].
Qed.

Lemma phys_page_free_spec s F v addrs :
  pages_wf s F → color_wf (num_page_colors s) (color_tab s) v → p_mutex s = false →
  NoDup addrs → (∀ a, a ∈ addrs → page_used s F a) →
  (∀ c, (c < num_page_colors s)%nat →
     Z.of_nat (length (F c)) + Z.of_nat (length addrs) < 2 ^ 32) →
  wp (phys_page_free addrs)
     (λ _ s', (∃ v', color_wf (num_page_colors s') (color_tab s') v') ∧ p_static s s' ∧
        ∃ F', pages_wf s' F' ∧ ∀ c, (c < num_page_colors s)%nat →
          F' c ≡ₚ filter (λ a, colour_of s a = c) addrs ++ F c) s.
Proof.
  intros Hw Hcw Hm Hnd Hused Hroom.
  apply (page_loop_spec _ (λ s', ∃ v', color_wf (num_page_colors s') (color_tab s') v'));
    try done; [|by exists v].
  intros a s1 F1 [v1 Hcw1] Hw1 Hm1 Hu Hr.
  eapply wp_mono; [by apply (phys_page_free_one_spec s1 F1 v1)|].
  by intros _ s2 (Hf & Hv & _).
Qed.

(** ** A small machine, for the witnesses *)

(** Two colours; the pages at 0x1000 and 0x2000 are free, the page at 0x3000 is
    in use. *)
Definition three_pages : pstate :=
  PState 2 [0x1001a8; 0x1000d4] [1; 1] 0x100000
    {[ 0x1000d4 := InvPage 0x1000d4 0x1000d4; 0x1001a8 := InvPage 0x1001a8 0x1001a8;
       0x10027c := InvPage 0 0 ]}
    (ColorTable [Color 0 0; Color 1 0] [0; 1]) false.
Definition three_free (c : nat) : list Z :=
  match c with 0%nat => [0x2000] | 1%nat => [0x1000] | _ => [] end.

Lemma three_pages_ok k : 0 ≤ k < 16 → page_ok 0x100000 (k * 0x1000).
Proof.
  intros Hk. unfold page_ok, phys_to_page, PAGE_SIZE. rewrite Z.div_mul by lia.
  unfold inv_page_size. split; [lia|]. split; [by exists k|]. lia.
Qed.

Lemma three_pages_wf : pages_wf three_pages three_free.
Proof.
  split; [simpl; lia|done| |done| |].
  - intros [|[|c]] Hc; [by vm_compute..|simpl in Hc; lia].
  - intros [|[|c]] hd Hc; [..|done].
    + injection Hc as <-. split; [done|]. split; [apply NoDup_singleton|].
      split; [by intros x ->%list_elem_of_singleton|by vm_compute].
    + injection Hc as <-. split; [done|]. split; [apply NoDup_singleton|].
      split; [by intros x ->%list_elem_of_singleton|by vm_compute].
  - intros [|[|c]] a Hc Ha; [..|simpl in Hc; lia];
      apply list_elem_of_singleton in Ha as ->; (split; [|done]);
      [apply (three_pages_ok 2)|apply (three_pages_ok 1)]; lia.
Qed.

Lemma three_pages_colors : color_wf 2 (color_tab three_pages) [0; 1].
Proof.
  split; [|done..|].
  - split.
    + split; simpl; [done|done|by intros [|[|j]] Hj; [..|lia]| | |].
      * intros [|[|j]] e He; [by injection He as <-..|done].
      * intros e [->| ->%list_elem_of_singleton]%elem_of_cons; done.
      * apply (bool_decide_unpack _). by vm_compute.
    + intros j Hj a b Ha Hb. simpl in Hj. assert (j = 2%nat) as -> by lia.
      injection Ha as <-. by injection Hb as <-.
  - intros c. unfold color_count, at_index. simpl.
    case_decide; [|done]. destruct (Z.to_nat c) as [|[|?]]; done.
Qed.

Lemma three_pages_used : page_used three_pages three_free 0x3000.
Proof.
  split; [apply (three_pages_ok 3); lia|]. split; [by apply elem_of_dom|].
  intros [|[|c]] Hc; simpl; [by intros ?%list_elem_of_singleton..|simpl in Hc; lia].
Qed.

(** ** Properties *)

(** C20: [phys_page_alloc] returns a free page of the first colour in the order
    of the table that has one, takes it off that colour's list and leaves the
    other lists alone; it returns 0 and changes nothing exactly when no colour
    has a free page. *)
Theorem phys_page_alloc_first_colour s F v :
  pages_wf s F → color_wf (num_page_colors s) (color_tab s) v → p_mutex s = false →
  ∃ r s', phys_page_alloc s = Done (r, s') ∧
    (page_allocated s F r s' ∨
     (r = 0 ∧ s' = s ∧ ∀ c, (c < num_page_colors s)%nat → F c = [])).
Proof.
  intros Hw Hc Hm. pose proof (phys_page_alloc_spec s F v Hw Hc Hm) as (r & s' & H)%wp_Done. eauto.
Qed.

Lemma phys_page_alloc_first_colour_witness :
  ∃ r s', phys_page_alloc three_pages = Done (r, s') ∧
    (page_allocated three_pages three_free r s' ∨
     (r = 0 ∧ s' = three_pages ∧ ∀ c, (c < 2)%nat → three_free c = [])).
Proof.
  apply (phys_page_alloc_first_colour three_pages three_free [0; 1]);
    [exact three_pages_wf|exact three_pages_colors|reflexivity].
Defined.

(** [kern_page_alloc] serves the colour the table counts the least.  Its
    page leaves that colour's free list, the colour is counted once more, and
    the table is in order again. *)
Theorem kern_page_alloc_least_colour s F v :
  pages_wf s F → color_wf (num_page_colors s) (color_tab s) v → p_mutex s = false →
  (∀ c, color_count (color_tab s) c + 1 < 2 ^ 32) →
  ∃ r s' c, kern_page_alloc s = Done (r, s') ∧ (c < num_page_colors s)%nat ∧
    (∀ x, 0 ≤ x < Z.of_nat (num_page_colors s) →
       color_count (color_tab s) (Z.of_nat c) ≤ color_count (color_tab s) x) ∧
    ((r = 0 ∧ s' = s ∧ F c = []) ∨
     ∃ l, F c = r :: l ∧ pages_wf s' (<[c := l]> F) ∧
       (∃ v', color_wf (num_page_colors s') (color_tab s') v') ∧
       (∀ x, color_count (color_tab s') x =
             color_count (color_tab s) x + (if decide (x = Z.of_nat c) then 1 else 0))).
Proof.
  intros Hw Hcw Hm Hov.
  pose proof (kern_page_alloc_spec s F v Hw Hcw Hm Hov) as (r & s' & Hr & c & [Hc Hcn] & H)%wp_Done.
  exists r, s', c. split; [done|]. split; [done|].
  split; [by apply (ordered_head _ _ v)|].
  destruct H as [?|(l & ? & ? & ? & ? & _)]; [by left|right; eauto 6].
Qed.

Lemma kern_page_alloc_least_colour_witness :
  ∃ r s' c, kern_page_alloc three_pages = Done (r, s') ∧ (c < 2)%nat ∧
    (∀ x, 0 ≤ x < 2 → color_count (color_tab three_pages) (Z.of_nat c) ≤
                      color_count (color_tab three_pages) x) ∧
    ((r = 0 ∧ s' = three_pages ∧ three_free c = []) ∨
     ∃ l, three_free c = r :: l ∧ pages_wf s' (<[c := l]> three_free) ∧
       (∃ v', color_wf (num_page_colors s') (color_tab s') v') ∧
       (∀ x, color_count (color_tab s') x =
             color_count (color_tab three_pages) x + (if decide (x = Z.of_nat c) then 1 else 0))).
Proof.
  apply (kern_page_alloc_least_colour three_pages three_free [0; 1]);
    [exact three_pages_wf|exact three_pages_colors|reflexivity|].
  intros c. unfold color_count, at_index. simpl. case_decide; [|done].
  destruct (Z.to_nat c) as [|[|?]]; done.
Defined.

(** [change_color_count] keeps the colour table a heap: whatever the sign of
    the change, the colour's count becomes the new one, the other counts stay,
    and the colours are in heap order again with the recorded indices right. *)
Theorem change_color_count_reorders n t v c num :
  color_wf n t v → 0 ≤ c < Z.of_nat n → (0 < num → color_count t c + num < 2 ^ 32) →
  ∃ t' v', change_color_count n c num t = Done (tt, t') ∧ color_wf n t' v' ∧
    ∀ x, color_count t' x = if decide (x = c) then u32 (color_count t c + num) else color_count t x.
Proof.
  intros Hw Hc Ho.
  pose proof (change_color_count_spec n t v c num Hw Hc Ho) as ([] & t' & Ht & [v' Hv] & Hx)%wp_Done.
  eauto.
Qed.

Lemma change_color_count_reorders_witness :
  ∃ t' v', change_color_count 2 0 5 (color_tab three_pages) = Done (tt, t') ∧ color_wf 2 t' v' ∧
    ∀ x, color_count t' x = if decide (x = 0) then u32 (0 + 5) else color_count (color_tab three_pages) x.
Proof.
  apply (change_color_count_reorders 2 (color_tab three_pages) [0; 1] 0 5); [exact three_pages_colors|lia|done].
Defined.

(** [phys_page_free] gives a list of pages in use back to the free lists of
    their colours: each list gains exactly the pages of its colour, the colour
    table stays a heap, and no other page moves. *)
Theorem phys_page_free_by_colour s F v addrs :
  pages_wf s F → color_wf (num_page_colors s) (color_tab s) v → p_mutex s = false →
  NoDup addrs → (∀ a, a ∈ addrs → page_used s F a) →
  (∀ c, (c < num_page_colors s)%nat →
     Z.of_nat (length (F c)) + Z.of_nat (length addrs) < 2 ^ 32) →
  ∃ s' F', phys_page_free addrs s = Done (tt, s') ∧ pages_wf s' F' ∧
    (∃ v', color_wf (num_page_colors s') (color_tab s') v') ∧ p_mutex s' = false ∧
    ∀ c, (c < num_page_colors s)%nat → F' c ≡ₚ filter (λ a, colour_of s a = c) addrs ++ F c.
Proof.
  intros Hw Hc Hm Hnd Hu Hr.
  pose proof (phys_page_free_spec s F v addrs Hw Hc Hm Hnd Hu Hr)
    as ([] & s' & Hs' & Hv & (_ & _ & _ & Hm') & F' & Hw' & HF)%wp_Done.
  exists s', F'. split_and!; [done..|congruence|done].
Qed.

Lemma phys_page_free_by_colour_witness :
  ∃ s' F', phys_page_free [0x3000] three_pages = Done (tt, s') ∧ pages_wf s' F' ∧
    (∃ v', color_wf (num_page_colors s') (color_tab s') v') ∧ p_mutex s' = false ∧
    ∀ c, (c < 2)%nat → F' c ≡ₚ filter (λ a, colour_of three_pages a = c) [0x3000] ++ three_free c.
Proof.
  apply (phys_page_free_by_colour three_pages three_free [0; 1] [0x3000]);
    [exact three_pages_wf|exact three_pages_colors|reflexivity|apply NoDup_singleton| |].
  - intros a ->%list_elem_of_singleton. exact three_pages_used.
  - intros [|[|c]] Hc; simpl; lia.
Defined.

(** The inverse page table addresses pages faithfully: the structure of a
    page determines its address, so looking up a page and asking for the
    address of its structure is the identity. *)
Theorem inv_page_addr_lookup table addr :
  page_ok table addr → inv_page_addr table (inv_page_lookup table addr) = addr.
Proof. apply inv_page_round_trip. Qed.

Lemma inv_page_addr_lookup_witness :
  inv_page_addr 0x100000 (inv_page_lookup 0x100000 0x3000) = 0x3000.
Proof. apply inv_page_addr_lookup. apply (three_pages_ok 3). lia. Defined.
