(* ===== verification/CowTable.v ===== *)
(** * Copy-on-write reference counts (src/mem/virt_mem/cow_table.c)

    Pages that are mapped copy-on-write are counted in a hash table keyed by
    the source of the page.  An entry appears with the count 2 when a page is
    first shared and is freed when the last reference is dropped.  Entries are
    allocated through the [Allocator] interface. *)

From stdpp Require Import functions.
From S2P Require Import Prelude HashTable Alloc.
#[local] Open Scope Z_scope.

Definition COW_TABLE_SIZE : Z := 32767.

(** include/phys_mem.h: the tag [type] and the union it selects. *)
Inductive page_src_t :=
| PSRC_NULL
| PSRC_INODE (inode : ptr) (offset : Z)
| PSRC_ANON (anon_page : Z)
| PSRC_KERN.

Global Instance page_src_eq : EqDecision page_src_t.
Proof. solve_decision. Defined.

Record cow_entry_t := CowEntry {
  ce_page : page_src_t;
  ce_refs : Z;
  ce_next : ptr;
}.

(** [sizeof(cow_entry_t)]: the tag, two words of union, a count, a pointer. *)
Definition cow_entry_size : Z := 20.

(** [inode_ids] is [inode->stat.id] of the inodes, [T] the state of the
    allocator. *)
Record cstate (T : Type) := CState {
  entries : gmap ptr cow_entry_t;
  cow_buckets : gmap Z ptr;
  inode_ids : gmap ptr Z;
  cow_mutex : bool;
  cow_alloc : T;
}.
Arguments CState {T}.
Arguments entries {T}.
Arguments cow_buckets {T}.
Arguments inode_ids {T}.
Arguments cow_mutex {T}.
Arguments cow_alloc {T}.

Section operations.
Context {T : Type} (A : allocator T).
Implicit Types s : cstate T.

Definition set_entries (m : gmap ptr cow_entry_t) s : cstate T :=
  CState m (cow_buckets s) (inode_ids s) (cow_mutex s) (cow_alloc s).
Definition set_cow_buckets (b : gmap Z ptr) s : cstate T :=
  CState (entries s) b (inode_ids s) (cow_mutex s) (cow_alloc s).
Definition set_cow_mutex (b : bool) s : cstate T :=
  CState (entries s) (cow_buckets s) (inode_ids s) b (cow_alloc s).
Definition set_cow_alloc (t : T) s : cstate T :=
  CState (entries s) (cow_buckets s) (inode_ids s) (cow_mutex s) t.

(** [hash(s)]; [None] is a source naming an inode that does not exist. *)
Definition cow_hash (ids : gmap ptr Z) (src : page_src_t) : option Z :=
  match src with
  | PSRC_NULL | PSRC_KERN => Some 0
  | PSRC_ANON n => Some (u32 n)
  | PSRC_INODE inode offset => id ← ids !! inode; Some (u32 (u32 id * u32 offset))
  end.

(** [comp(a, b)]: the offset of [a] is compared with itself. *)
Definition cow_comp (a b : page_src_t) : bool :=
  match a, b with
  | PSRC_INODE i o, PSRC_INODE i' _ => (i =? i') && (o =? o)
  | PSRC_ANON n, PSRC_ANON n' => n =? n'
  | _, _ => false
  end.

Definition cow_next : field (cstate T) ptr :=
  node_field entries set_entries ce_next (λ v e, CowEntry (ce_page e) (ce_refs e) v).
Definition cow_refs : field (cstate T) Z :=
  node_field entries set_entries ce_refs (λ v e, CowEntry (ce_page e) v (ce_next e)).

Definition cow_table : hash_ops (cstate T) page_src_t := {|
  ht_next := cow_next;
  ht_id s p := ce_page <$> entries s !! p;
  ht_eq := cow_comp;
  ht_hash s := cow_hash (inode_ids s);
  ht_size := COW_TABLE_SIZE;
  ht_slot s i := default NULL (cow_buckets s !! i);
  ht_set_slot i p s := set_cow_buckets (<[i := p]> (cow_buckets s)) s;
  ht_fuel s := S (base.size (entries s));
|}.

Definition cow_lock := lock cow_mutex set_cow_mutex.
Definition cow_unlock := unlock set_cow_mutex.

(** [entry->page = src; entry->refs = 2;] on fresh memory. *)
Definition cow_entry_init (entry : ptr) (src : page_src_t) : M (cstate T) unit :=
  putopt (λ s, if entry =? NULL then None
               else Some (set_entries (<[entry := CowEntry src 2 NULL]> (entries s)) s)).

Definition cow_inc (src : page_src_t) : M (cstate T) unit :=
  cow_lock;;
  entry ← hash_table_lookup cow_table src;
  (if entry =? NULL then
     entry ← zoom cow_alloc set_cow_alloc (al_malloc A cow_entry_size);
     cow_entry_init entry src;;
     _ ← hash_table_insert cow_table entry;
     mret tt
   else
     r ← load cow_refs entry;
     store cow_refs entry (u32 (r + 1)));;
  cow_unlock.

Definition cow_lookup (src : page_src_t) : M (cstate T) Z :=
  cow_lock;;
  entry ← hash_table_lookup cow_table src;
  out ← (if entry =? NULL then mret 0 else load cow_refs entry);
  cow_unlock;;
  mret out.

Definition cow_dec (src : page_src_t) : M (cstate T) unit :=
  cow_lock;;
  entry ← hash_table_lookup cow_table src;
  (if negb (entry =? NULL) then
     r ← load cow_refs entry;
     if negb (r =? 1) then store cow_refs entry (u32 (r - 1))
     else
       _ ← hash_table_delete cow_table src;
       zoom cow_alloc set_cow_alloc (al_free A entry)
   else mret tt);;
  cow_unlock.
End operations.

(** ** Correctness *)

Section correctness.
Context {T : Type} (A : allocator T) (ainv : T → gmap ptr Z → Prop).
Implicit Types s : cstate T.
Implicit Types L : Z → list ptr.

Global Instance entries_lens : LensOk (@entries T) set_entries.
Proof. by split. Qed.

Global Instance cow_refs_ok : FieldOk (@cow_refs T).
Proof. by apply node_field_ok. Qed.

Global Instance cow_table_ok : HashOk (@cow_table T).
Proof.
  split; simpl; try done.
  - by apply node_field_ok.
  - intros i. by apply node_field_stable.
  - intros p. split; [|done]. intros s q v s'; simpl.
    destruct (entries s !! q) eqn:Hq; [|done]. intros [= <-]. simpl.
    destruct (decide (q = p)) as [->|]; [|by rewrite lookup_insert_ne].
    by rewrite lookup_insert_eq, Hq.
  - intros k. split; [|done]. intros s q v s'; simpl.
    destruct (entries s !! q); [|done]. by intros [= <-].
  - intros i p s. by rewrite lookup_insert_eq.
  - intros i j p s Hij. by rewrite lookup_insert_ne.
  - intros s l Hnd Hl. apply Nat.lt_succ_r.
    rewrite <-size_dom, <-(size_list_to_set (C:=gset ptr) l) by done.
    apply subseteq_size. intros x Hx%elem_of_list_to_set.
    apply elem_of_dom. specialize (Hl x Hx). destruct (entries s !! x); [eauto|].
    by destruct Hl.
Qed.

(** What linking entries leaves alone. *)
Definition entry_data (e : cow_entry_t) := (ce_page e, ce_refs e).
Definition cow_rest s := (inode_ids s, cow_mutex s, cow_alloc s).

Global Instance cow_frame_entry q :
  HashFrame (@cow_table T) (λ s, entry_data <$> entries s !! q).
Proof.
  split; [|done]. intros s p v s'; simpl.
  destruct (entries s !! p) eqn:Hp; [|done]. intros [= <-]. simpl.
  destruct (decide (p = q)) as [->|]; [|by rewrite lookup_insert_ne].
  by rewrite lookup_insert_eq, Hp.
Qed.
Global Instance cow_frame_rest : HashFrame (@cow_table T) cow_rest.
Proof.
  split; [|done]. intros s p v s'; simpl.
  destruct (entries s !! p); [|done]. by intros [= <-].
Qed.

Lemma entry_data_Some s s' q e :
  entry_data <$> entries s' !! q = entry_data <$> entries s !! q → entries s' !! q = Some e →
  ∃ e', entries s !! q = Some e' ∧ ce_page e' = ce_page e ∧ ce_refs e' = ce_refs e.
Proof.
  intros Heq He. rewrite He in Heq. destruct (entries s !! q) as [e'|]; [|done].
  simpl in Heq. unfold entry_data in Heq. exists e'. naive_solver.
Qed.

Lemma entry_data_proj (a b : option cow_entry_t) :
  entry_data <$> a = entry_data <$> b →
  ce_page <$> a = ce_page <$> b ∧ ce_refs <$> a = ce_refs <$> b.
Proof. destruct a, b; simpl; try done. unfold entry_data. intros [= -> ->]. done. Qed.

Lemma cow_comp_sym a b : cow_comp a b = true → cow_comp b a = true.
Proof. destruct a, b; simpl; try done; lia. Qed.
Lemma cow_comp_trans a b c :
  cow_comp a b = true → cow_comp b c = true → cow_comp a c = true.
Proof. destruct a, b, c; simpl; try done; lia. Qed.

(** The bucket of a source. *)
Definition cow_bucket s (src : page_src_t) : option Z := index_of (@cow_table T) s src.

(** The table counts [src] and [src'] in one entry: a source is counted with
    itself, and a page of an inode also with the other pages of the inode that
    fall into its bucket.  The null source and kernel pages are not counted. *)
Definition cow_same s (src src' : page_src_t) : bool :=
  match src, src' with
  | PSRC_ANON n, PSRC_ANON n' => n =? n'
  | PSRC_INODE i _, PSRC_INODE i' _ =>
      (i =? i') && bool_decide (cow_bucket s src = cow_bucket s src')
  | _, _ => false
  end.

Lemma cow_same_comp s src src' :
  cow_same s src src' = cow_comp src src' && bool_decide (cow_bucket s src = cow_bucket s src').
Proof.
  destruct src as [|i o|n|], src' as [|i' o'|n'|]; simpl; try done.
  - by rewrite Z.eqb_refl, andb_true_r.
  - destruct (Z.eqb_spec n n') as [->|]; [|done]. by rewrite bool_decide_eq_true_2.
Qed.

(** The entry that counts a source. *)
Definition cow_entry s L (src : page_src_t) : ptr :=
  match cow_bucket s src with Some i => find_node cow_table s src (L i) | None => NULL end.

(** The reference count of a source, read off the buckets. *)
Definition refs_of s L (src : page_src_t) : Z :=
  match cow_bucket s src with
  | Some i => default 0 (ce_refs <$> entries s !! find_node cow_table s src (L i))
  | None => 0
  end.

Record cow_wf s L (live : gmap ptr Z) : Prop := {
  cf_buckets : buckets cow_table s L;
  cf_alloc : ainv (cow_alloc s) live;
  cf_live i p : 0 ≤ i < COW_TABLE_SIZE → p ∈ L i →
    ∃ c, live !! p = Some c ∧ cow_entry_size ≤ c;
  cf_uniq i p q e f : 0 ≤ i < COW_TABLE_SIZE → p ∈ L i → q ∈ L i →
    entries s !! p = Some e → entries s !! q = Some f →
    cow_comp (ce_page e) (ce_page f) = true → p = q;
  cf_refs i p e : 0 ≤ i < COW_TABLE_SIZE → p ∈ L i → entries s !! p = Some e →
    1 ≤ ce_refs e < 2 ^ 32;
  cf_null : entries s !! NULL = None;
}.

Lemma cow_bucket_range s src i : cow_bucket s src = Some i → 0 ≤ i < COW_TABLE_SIZE.
Proof. apply (index_range (@cow_table T)). Qed.

(** Steps that leave links, pages and inodes alone. *)
Record cow_quiet s s' : Prop := {
  cq_slots : cow_buckets s' = cow_buckets s;
  cq_ids : inode_ids s' = inode_ids s;
  cq_nodes p : is_Some (entries s !! p) →
    fget cow_next s' p = fget cow_next s p ∧
    ce_page <$> entries s' !! p = ce_page <$> entries s !! p;
}.

Lemma in_entries s L i x : buckets cow_table s L → 0 ≤ i < COW_TABLE_SIZE → x ∈ L i →
  x ≠ NULL ∧ ∃ e, entries s !! x = Some e.
Proof.
  intros HL Hi Hx. destruct (HL i Hi) as [Hc _].
  destruct (chain_valid _ _ _ _ _ Hc Hx) as [Hn [v Hv]]. split; [done|].
  simpl in Hv. destruct (entries s !! x); [eauto|done].
Qed.

Lemma quiet_buckets s s' L : cow_quiet s s' → buckets cow_table s L → buckets cow_table s' L.
Proof.
  intros [Hsl Hid Hn] HL. eapply buckets_frame; [done| | |].
  - intros i _. simpl. by rewrite Hsl.
  - intros i x Hi Hx. destruct (in_entries s L i x HL Hi Hx) as (_ & e & He).
    apply (Hn x). eauto.
  - intros k. simpl. by rewrite Hid.
Qed.

Lemma quiet_bucket s s' src : inode_ids s' = inode_ids s → cow_bucket s' src = cow_bucket s src.
Proof. intros Hids. apply index_frame. simpl. by rewrite Hids. Qed.

Lemma quiet_find s s' L src i : cow_quiet s s' → buckets cow_table s L →
  0 ≤ i < COW_TABLE_SIZE → find_node cow_table s' src (L i) = find_node cow_table s src (L i).
Proof.
  intros [Hsl Hid Hn] HL Hi. apply (find_node_frame cow_table s s'). intros x Hx.
  destruct (in_entries s L i x HL Hi Hx) as (_ & e & He). apply (Hn x). eauto.
Qed.

Lemma matches_entry s key x e : entries s !! x = Some e →
  matches cow_table s key x = cow_comp (ce_page e) key.
Proof. intros He. unfold matches. simpl. by rewrite He. Qed.

(** What a search of a bucket finds. *)
Lemma find_cases s L live src i :
  cow_wf s L live → cow_bucket s src = Some i →
  let p := find_node cow_table s src (L i) in
  (p = NULL ∧ refs_of s L src = 0 ∧ ∀ x, x ∈ L i → matches cow_table s src x = false) ∨
  (p ≠ NULL ∧ p ∈ L i ∧ ∃ e, entries s !! p = Some e ∧ cow_comp (ce_page e) src = true ∧
     refs_of s L src = ce_refs e).
Proof.
  intros Hw Hi. pose proof (cow_bucket_range _ _ _ Hi) as Hr. unfold refs_of. rewrite Hi.
  destruct (find_node_match cow_table s src (L i)) as [[-> Hno]|[Hin Hm]]; cbn zeta.
  - left. by rewrite (cf_null _ _ _ Hw).
  - right. destruct (in_entries s L i _ (cf_buckets _ _ _ Hw) Hr Hin) as (Hn & e & He).
    split_and!; [done|done|]. exists e. rewrite He. split_and!; [done| |done].
    by rewrite <-(matches_entry s src _ e He).
Qed.

Lemma wf_mutex s L live b : cow_wf s L live → cow_wf (set_cow_mutex b s) L live.
Proof.
  intros [HL Ha Hl Hu Hrf Hn]. split; try done. by apply (quiet_buckets s).
Qed.

Lemma refs_mutex s L live b src :
  cow_wf s L live → refs_of (set_cow_mutex b s) L src = refs_of s L src.
Proof.
  intros Hw. unfold refs_of. rewrite (quiet_bucket s) by done.
  destruct (cow_bucket s src) as [i|] eqn:Hi; [|done].
  rewrite (quiet_find s) by (done || apply Hw || by eapply cow_bucket_range). done.
Qed.

Lemma cow_mutex_id s : cow_mutex s = false →
  set_cow_mutex false (set_cow_mutex true s) = s.
Proof. destruct s; simpl. by intros ->. Qed.

Lemma wp_cow_find s L live src i (Q : ptr → cstate T → Prop) :
  cow_wf s L live → cow_bucket s src = Some i →
  Q (find_node cow_table s src (L i)) s → wp (hash_table_lookup cow_table src) Q s.
Proof.
  intros Hw Hi HQ. eapply wp_mono; [apply (lookup_bucket cow_table s L src i); [apply (cf_buckets _ _ _ Hw)|done]|]. by intros r s' [-> ->].
Qed.

(** [cow_lookup] reads the count. *)
Lemma cow_lookup_spec s L live src :
  cow_wf s L live → cow_mutex s = false → is_Some (cow_bucket s src) →
  wp (cow_lookup src) (λ r s', s' = s ∧ r = refs_of s L src) s.
Proof.
  intros Hw Hm [i Hi]. apply wp_bind, wp_lock; [done|].
  pose proof (wf_mutex s L live true Hw) as Hw1. set (s1 := set_cow_mutex true s) in *.
  apply wp_bind. eapply (wp_cow_find s1); [done|exact Hi|].
  pose proof (refs_mutex s L live true src Hw) as Hrm. fold s1 in Hrm. rewrite <-Hrm.
  destruct (find_cases s1 L live src i Hw1 Hi) as [(-> & -> & _)|(Hn & _ & e & He & _ & ->)].
  - apply wp_bind, wp_ret, wp_bind, wp_unlock, wp_ret. unfold s1. by rewrite cow_mutex_id.
  - rewrite (proj2 (Z.eqb_neq _ NULL)) by done.
    apply wp_bind, (wp_load cow_refs) with (ce_refs e); [simpl in *; by rewrite He|].
    apply wp_bind, wp_unlock, wp_ret. unfold s1. by rewrite cow_mutex_id.
Qed.

(** Two sources share an entry exactly when they find the same one. *)
Lemma same_entry s L live src src' i e :
  cow_wf s L live → cow_bucket s src = Some i →
  let p := find_node cow_table s src (L i) in
  entries s !! p = Some e → p ≠ NULL →
  cow_same s src src' =
  match cow_bucket s src' with
  | Some i' => bool_decide (find_node cow_table s src' (L i') = p)
  | None => false
  end.
Proof.
  intros Hw Hi p He Hp. rewrite cow_same_comp, Hi.
  destruct (find_cases s L live src i Hw Hi) as [(Hc & _)|(_ & Hin & e' & He' & Hce & _)];
    [done|]. fold p in Hin, He'. simplify_eq.
  destruct (cow_bucket s src') as [i'|] eqn:Hi'.
  2:{ rewrite bool_decide_eq_false_2 by done. by rewrite andb_false_r. }
  pose proof (cow_bucket_range _ _ _ Hi) as Hr. pose proof (cow_bucket_range _ _ _ Hi') as Hr'.
  apply eq_true_iff_eq. rewrite andb_true_iff, !bool_decide_eq_true.
  destruct (find_cases s L live src' i' Hw Hi')
    as [(Hq & _ & Hno)|(Hn & Hin' & e' & He' & Hce' & _)].
  - split; [|by intros Heq; rewrite Hq in Heq].
    intros [Hc [= <-]]. specialize (Hno p Hin). rewrite (matches_entry s _ _ _ He) in Hno.
    by rewrite (cow_comp_trans _ _ _ Hce Hc) in Hno.
  - split.
    + intros [Hc [= <-]].
      eapply (cf_uniq _ _ _ Hw); [exact Hr|exact Hin'|exact Hin|done|done|].
      apply (cow_comp_trans _ src'); [done|]. apply cow_comp_sym. by eapply cow_comp_trans.
    + intros Heq. rewrite Heq in *. simplify_eq. split.
      * apply (cow_comp_trans _ (ce_page e)); [by apply cow_comp_sym|done].
      * f_equal. eapply (buckets_disjoint (@cow_table T)); [apply Hw|done|done|done|done].
Qed.

(** Changing a count. *)
Lemma set_refs_spec s L live src i e r s' :
  cow_wf s L live → cow_bucket s src = Some i →
  let p := find_node cow_table s src (L i) in
  entries s !! p = Some e → p ≠ NULL → fset cow_refs s p r = Some s' → 1 ≤ r < 2 ^ 32 →
  cow_wf s' L live ∧ cow_mutex s' = cow_mutex s ∧ inode_ids s' = inode_ids s ∧
  ∀ src', refs_of s' L src' = if cow_same s src src' then r else refs_of s L src'.
Proof.
  intros Hw Hi p He Hp. simpl. rewrite He. intros [= <-] Hrng.
  set (s' := set_entries _ s).
  assert (∀ q, ce_page <$> entries s' !! q = ce_page <$> entries s !! q) as Hpage.
  { intros q. simpl. destruct (decide (p = q)) as [<-|]; [|by rewrite lookup_insert_ne].
    by rewrite lookup_insert_eq, He. }
  assert (cow_quiet s s') as Hq.
  { split; [done|done|]. intros q _. split; [|apply Hpage].
    simpl. destruct (decide (p = q)) as [<-|]; [|by rewrite lookup_insert_ne].
    by rewrite lookup_insert_eq, He. }
  split_and!; [|done|done|].
  - destruct Hw as [HL Ha Hl Hu Hrf Hn]. split; [by apply (quiet_buckets s)|done|done| | |].
    + intros j x y ex ey Hj Hx Hy Hex Hey.
      pose proof (Hpage x) as Hpx. pose proof (Hpage y) as Hpy. rewrite Hex in Hpx.
      rewrite Hey in Hpy. simpl in Hpx, Hpy.
      destruct (entries s !! x) as [fx|] eqn:Hfx; [|done].
      destruct (entries s !! y) as [fy|] eqn:Hfy; [|done].
      simpl in *. injection Hpx as ->. injection Hpy as ->. by eapply Hu.
    + intros j x ex Hj Hx. simpl. destruct (decide (p = x)) as [<-|].
      * rewrite lookup_insert_eq. by intros [= <-].
      * rewrite lookup_insert_ne by done. by apply Hrf with j.
    + simpl. by rewrite lookup_insert_ne.
  - intros src'. rewrite (same_entry s L live src src' i e) by done. fold p.
    unfold refs_of. rewrite (quiet_bucket s s') by done.
    destruct (cow_bucket s src') as [i'|] eqn:Hi'; [|done].
    rewrite (quiet_find s s') by (done || apply Hw || by eapply cow_bucket_range).
    simpl. case_bool_decide as Heq.
    + by rewrite Heq, lookup_insert_eq.
    + by rewrite lookup_insert_ne.
Qed.

(** The count is zero exactly when there is no entry. *)
Lemma refs_pos s L live src i :
  cow_wf s L live → cow_bucket s src = Some i →
  (refs_of s L src =? 0) = (find_node cow_table s src (L i) =? NULL).
Proof.
  intros Hw Hi. pose proof (cow_bucket_range _ _ _ Hi) as Hr.
  destruct (find_cases s L live src i Hw Hi) as [(-> & -> & _)|(Hn & Hin & e & He & _ & ->)];
    [done|].
  pose proof (cf_refs _ _ _ Hw i _ e Hr Hin He).
  transitivity false; [apply Z.eqb_neq; lia|symmetry; by apply Z.eqb_neq].
Qed.

(** A source without an entry has no entry under another name. *)
Lemma refs_absent s L live src src' :
  cow_wf s L live → refs_of s L src = 0 → is_Some (cow_bucket s src) →
  cow_same s src src' = true → refs_of s L src' = 0.
Proof.
  intros Hw H0 [i Hi]. rewrite cow_same_comp. intros [Hc Hb]%andb_true_iff. apply bool_decide_eq_true in Hb.
  pose proof (cow_bucket_range _ _ _ Hi) as Hr. rewrite Hi in Hb. symmetry in Hb.
  pose proof (refs_pos s L live src i Hw Hi) as Hz. rewrite H0 in Hz. symmetry in Hz.
  apply Z.eqb_eq in Hz.
  destruct (find_cases s L live src i Hw Hi) as [(_ & _ & Hno)|(Hn & _)]; [|done].
  destruct (find_cases s L live src' i Hw Hb) as [(_ & -> & _)|(_ & Hin & e & He & Hce & _)];
    [done|]. specialize (Hno _ Hin). rewrite (matches_entry s src _ e He) in Hno.
  assert (cow_comp (ce_page e) src = true); [|congruence].
  eapply cow_comp_trans; [done|by apply cow_comp_sym].
Qed.

(** Linking a fresh entry. *)
Lemma insert_entry_spec s L live src i p c :
  cow_wf s L live → cow_bucket s src = Some i →
  find_node cow_table s src (L i) = NULL → p ≠ NULL → live !! p = None →
  cow_entry_size ≤ c →
  (∀ t, ainv t (<[p := c]> live) → ∀ s1, s1 = set_cow_alloc t s →
   wp (cow_entry_init p src;; _ ← hash_table_insert cow_table p; mret tt)
     (λ _ s', cow_wf s' (<[i := p :: L i]> L) (<[p := c]> live) ∧
        cow_mutex s' = cow_mutex s ∧ inode_ids s' = inode_ids s ∧
        ∀ src', refs_of s' (<[i := p :: L i]> L) src' =
          if cow_same s src src' then 2 else refs_of s L src') s1).
Proof.
  intros Hw Hi Hf Hp Hfresh Hc t Ht s1 ->. pose proof (cow_bucket_range _ _ _ Hi) as Hr.
  assert (∀ j, 0 ≤ j < COW_TABLE_SIZE → p ∉ L j) as Hout.
  { intros j Hj Hin. destruct (cf_live _ _ _ Hw j p Hj Hin) as (d & Hd & _). congruence. }
  destruct (find_cases s L live src i Hw Hi) as [(_ & Hr0 & Hno)|(Hn & _)];
    [|by rewrite Hf in Hn].
  unfold cow_entry_init, putopt. apply wp_bind. unfold wp at 1.
  rewrite (proj2 (Z.eqb_neq p NULL)) by done.
  set (s2 := set_entries _ _).
  assert (∀ q, q ≠ p → entries s2 !! q = entries s !! q) as Hold.
  { intros q Hq. simpl. by rewrite lookup_insert_ne. }
  assert (buckets cow_table s2 L) as HL2.
  { eapply buckets_frame; [apply (cf_buckets _ _ _ Hw)|done| |done].
    intros j x Hj Hx. assert (x ≠ p) by (intros ->; by apply (Hout j)).
    split; simpl; by rewrite lookup_insert_ne. }
  apply wp_bind. eapply wp_mono.
  { apply (insert_bucket cow_table s2 L p src i); try done.
    - simpl. rewrite lookup_insert_eq. by eexists.
    - simpl. by rewrite lookup_insert_eq. }
  intros _ s3 (_ & Ho & Hnx & HL3). apply wp_ret.
  assert (∀ q, entry_data <$> entries s3 !! q = entry_data <$> entries s2 !! q) as Hed.
  { intros q. apply (Ho _ (λ s, entry_data <$> entries s !! q) _). }
  pose proof (Ho _ cow_rest _) as [= Hids Hmx Hal]. simpl in Hids, Hmx, Hal.
  assert (∀ q e, q ≠ p → entries s3 !! q = Some e →
    ∃ e', entries s !! q = Some e' ∧ ce_page e' = ce_page e ∧ ce_refs e' = ce_refs e) as Hback.
  { intros q e Hq He. apply (entry_data_Some s2) in He; [|done]. by rewrite Hold in He. }
  assert (∀ e, entries s3 !! p = Some e → ce_page e = src ∧ ce_refs e = 2) as Hnew.
  { intros e He. apply (entry_data_Some s2) in He as (e' & He' & <- & <-); [|done].
    simpl in He'. rewrite lookup_insert_eq in He'. by simplify_eq. }
  set (L' := <[i := p :: L i]> L) in *.
  assert (∀ j q, 0 ≤ j < COW_TABLE_SIZE → q ∈ L' j → (q = p ∧ j = i) ∨ (q ≠ p ∧ q ∈ L j)) as HL'.
  { intros j q Hj. unfold L'. destruct (decide (i = j)) as [<-|Hne].
    - rewrite fn_lookup_insert, elem_of_cons. destruct (decide (q = p)); naive_solver.
    - rewrite fn_lookup_insert_ne by done. intros Hq. right. split; [|done].
      intros ->. by apply (Hout j). }
  split_and!; [|done|done|].
  - destruct Hw as [HL Ha Hl Hu Hrf Hn]. split; [done|by rewrite Hal| | | |].
    + intros j q Hj Hq. destruct (HL' j q Hj Hq) as [[-> ->]|[Hne Hq']].
      * rewrite lookup_insert_eq. eauto.
      * rewrite lookup_insert_ne by done. by eapply Hl.
    + intros j x y ex ey Hj Hx Hy Hex Hey Hcmp.
      pose proof (HL' j y Hj Hy) as Hyc.
      destruct (HL' j x Hj Hx) as [[-> ->]|[Hnx' Hx']], Hyc as [[-> Hjy]|[Hny Hy']];
        [done| | |].
      * destruct (Hnew ex Hex) as [Hps _].
        destruct (Hback y ey Hny Hey) as (fy & Hfy & Hpy & _).
        pose proof (Hno y Hy') as Hm. rewrite (matches_entry s src y fy Hfy) in Hm.
        rewrite Hps, <-Hpy in Hcmp. by rewrite (cow_comp_sym _ _ Hcmp) in Hm.
      * subst j. destruct (Hnew ey Hey) as [Hps _].
        destruct (Hback x ex Hnx' Hex) as (fx & Hfx & Hpx & _).
        pose proof (Hno x Hx') as Hm. rewrite (matches_entry s src x fx Hfx) in Hm.
        rewrite Hps, <-Hpx in Hcmp. by rewrite Hcmp in Hm.
      * destruct (Hback x ex Hnx' Hex) as (fx & Hfx & Hpx & _).
        destruct (Hback y ey Hny Hey) as (fy & Hfy & Hpy & _).
        rewrite <-Hpx, <-Hpy in Hcmp. by eapply Hu.
    + intros j x ex Hj Hx Hex. destruct (HL' j x Hj Hx) as [[-> ->]|[Hnx' Hx']].
      * destruct (Hnew ex Hex) as [_ ->]. lia.
      * destruct (Hback x ex Hnx' Hex) as (fx & Hfx & _ & <-). by eapply Hrf.
    + destruct (entries s3 !! NULL) as [e|] eqn:He; [|done].
      apply Hback in He as (e' & He' & _); [congruence|done].
  - intros src'. unfold refs_of. rewrite (quiet_bucket s s3) by done.
    rewrite cow_same_comp, Hi.
    destruct (cow_bucket s src') as [i'|] eqn:Hi'.
    2:{ rewrite bool_decide_eq_false_2 by done. by rewrite andb_false_r. }
    pose proof (cow_bucket_range _ _ _ Hi') as Hr'.
    assert (∀ l, (∀ x, x ∈ l → x ≠ p) →
      find_node cow_table s3 src' l = find_node cow_table s src' l) as Hfold.
    { intros l Hl. apply (find_node_frame cow_table s s3). intros x Hx%Hl. simpl.
      specialize (Hed x). rewrite Hold in Hed by done. by apply entry_data_proj. }
    assert (∀ q, q ≠ p → default 0 (ce_refs <$> entries s3 !! q) =
                          default 0 (ce_refs <$> entries s !! q)) as Hrefs.
    { intros q Hq. specialize (Hed q). rewrite Hold in Hed by done.
      by apply entry_data_proj in Hed as [_ ->]. }
    assert (∀ j q, 0 ≤ j < COW_TABLE_SIZE → q = find_node cow_table s src' (L j) → q ≠ p) as Hfp.
    { intros j q Hj -> Heq.
      destruct (find_node_match cow_table s src' (L j)) as [[Hz _]|[Hin _]]; [congruence|].
      rewrite Heq in Hin. by apply (Hout j). }
    unfold L'. destruct (decide (i = i')) as [<-|Hne].
    + rewrite fn_lookup_insert, bool_decide_eq_true_2, andb_true_r by done. simpl.
      assert (∃ e, entries s3 !! p = Some e) as [e He].
      { specialize (Hed p). simpl in Hed. rewrite lookup_insert_eq in Hed.
        destruct (entries s3 !! p); [eauto|done]. }
      destruct (Hnew e He) as [Hpg Hr2]. rewrite (matches_entry s3 src' p e He), Hpg.
      destruct (cow_comp src src'); [by rewrite He; simpl|].
      rewrite Hfold; [by rewrite Hrefs by (by eapply Hfp)|].
      intros x Hx ->. by apply (Hout i).
    + rewrite fn_lookup_insert_ne, bool_decide_eq_false_2, andb_false_r by congruence.
      rewrite Hfold; [by rewrite Hrefs by (by eapply Hfp)|].
      intros x Hx ->. by apply (Hout i').
Qed.

(** Unlinking an entry and freeing its memory. *)
Lemma delete_entry_spec `{!AllocatorOk A ainv} s L live src i e :
  cow_wf s L live → cow_bucket s src = Some i →
  let p := find_node cow_table s src (L i) in
  entries s !! p = Some e → p ≠ NULL →
  wp (_ ← hash_table_delete cow_table src; zoom cow_alloc set_cow_alloc (al_free A p))
     (λ _ s', ∃ L', cow_wf s' L' (delete p live) ∧ cow_mutex s' = cow_mutex s ∧
        inode_ids s' = inode_ids s ∧
        ∀ src', refs_of s' L' src' = if cow_same s src src' then 0 else refs_of s L src') s.
Proof.
  intros Hw Hi p He Hp. pose proof (cow_bucket_range _ _ _ Hi) as Hr.
  destruct (find_cases s L live src i Hw Hi) as [(Hc & _)|(_ & Hin & e' & He' & Hce & _)];
    [done|]. fold p in Hin, He'. simplify_eq.
  apply wp_bind. eapply wp_mono.
  { apply (delete_bucket cow_table s L src i); [apply (cf_buckets _ _ _ Hw)|done]. }
  intros _ s3 (_ & Ho & _ & HL3).
  assert (∀ q, entry_data <$> entries s3 !! q = entry_data <$> entries s !! q) as Hed.
  { intros q. apply (Ho _ (λ s, entry_data <$> entries s !! q) _). }
  pose proof (Ho _ cow_rest _) as [= Hids Hmx Hal].
  destruct (cf_live _ _ _ Hw i p Hr Hin) as (c & Hpc & _).
  apply wp_zoom. rewrite Hal. eapply wp_mono.
  { apply (al_free_ok (A:=A) (inv:=ainv) _ live p c); [apply (cf_alloc _ _ _ Hw)|done]. }
  intros [] t Ht. set (s4 := set_cow_alloc t s3).
  set (L' := <[i := remove_node cow_table s src (L i)]> L) in *.
  destruct Hw as [HL Ha Hl Hu Hrf Hn].
  assert (NoDup (L i)) as Hnd by (destruct (HL i Hr) as [Hc _]; by eapply chain_NoDup).
  assert (∀ x y, x ∈ L i → y ∈ L i → matches cow_table s src x = true →
            matches cow_table s src y = true → x = y) as Huq.
  { intros x y Hx Hy Hmx' Hmy.
    destruct (in_entries s L i x HL Hr Hx) as (_ & ex & Hex).
    destruct (in_entries s L i y HL Hr Hy) as (_ & ey & Hey).
    rewrite (matches_entry s src x ex Hex) in Hmx'.
    rewrite (matches_entry s src y ey Hey) in Hmy.
    eapply (Hu i); [done..|]. eapply cow_comp_trans; [done|by apply cow_comp_sym]. }
  assert (∀ j q, 0 ≤ j < COW_TABLE_SIZE → q ∈ L' j → q ≠ p ∧ q ∈ L j) as HL'.
  { intros j q Hj. unfold L'. destruct (decide (i = j)) as [<-|Hne].
    - rewrite fn_lookup_insert. intros Hq.
      split; [|by apply (remove_node_incl cow_table s src)].
      intros ->. eapply (find_not_removed cow_table s src (L i)); [done| |exact Hq].
      fold p. rewrite (matches_entry s src p _ He). exact Hce.
    - rewrite fn_lookup_insert_ne by done. intros Hq. split; [|done].
      intros ->. apply Hne. exact (buckets_disjoint cow_table s L i j p HL Hr Hj Hin Hq). }
  exists L'. split_and!; [split|done|done|].
  - by apply (quiet_buckets s3).
  - done.
  - intros j q Hj Hq. destruct (HL' j q Hj Hq) as [Hqp Hq'].
    rewrite lookup_delete_ne by done. by eapply Hl.
  - intros j x y ex ey Hj Hx Hy Hex Hey Hcmp.
    destruct (HL' j x Hj Hx) as [_ Hx'], (HL' j y Hj Hy) as [_ Hy'].
    apply (entry_data_Some s) in Hex as (fx & Hfx & Hpx & _); [|done].
    apply (entry_data_Some s) in Hey as (fy & Hfy & Hpy & _); [|done].
    rewrite <-Hpx, <-Hpy in Hcmp. by eapply Hu.
  - intros j x ex Hj Hx Hex. destruct (HL' j x Hj Hx) as [_ Hx'].
    apply (entry_data_Some s) in Hex as (fx & Hfx & _ & <-); [|done]. by eapply Hrf.
  - destruct (entries s4 !! NULL) as [ex|] eqn:Hex; [|done].
    apply (entry_data_Some s) in Hex as (fx & Hfx & _); [congruence|done].
  - intros src'. unfold refs_of. rewrite (quiet_bucket s s4) by done.
    rewrite cow_same_comp, Hi.
    destruct (cow_bucket s src') as [i'|] eqn:Hi'.
    2:{ rewrite bool_decide_eq_false_2 by done. by rewrite andb_false_r. }
    assert (∀ l, find_node cow_table s4 src' l = find_node cow_table s src' l) as Hfold.
    { intros l. apply (find_node_frame cow_table s s4). intros x _. simpl.
      by apply entry_data_proj. }
    assert (∀ q, default 0 (ce_refs <$> entries s4 !! q) =
                 default 0 (ce_refs <$> entries s !! q)) as Hrefs.
    { intros q. simpl. by destruct (entry_data_proj _ _ (Hed q)) as [_ ->]. }
    rewrite Hfold, Hrefs. unfold L'. destruct (decide (i = i')) as [<-|Hne].
    + rewrite fn_lookup_insert, bool_decide_eq_true_2, andb_true_r by done.
      destruct (cow_comp src src') eqn:Hcs.
      * rewrite (find_remove_self cow_table s src src'); [by rewrite Hn|done|done|].
        intros x Hx Hmx'. destruct (in_entries s L i x HL Hr Hx) as (_ & ex & Hex).
        rewrite (matches_entry s src' x ex Hex) in Hmx'.
        rewrite (matches_entry s src x ex Hex).
        eapply cow_comp_trans; [done|by apply cow_comp_sym].
      * rewrite (find_remove_other cow_table s src src'); [done|]. intros x Hx Hmx'.
        destruct (in_entries s L i x HL Hr Hx) as (_ & ex & Hex).
        rewrite (matches_entry s src x ex Hex) in Hmx'.
        rewrite (matches_entry s src' x ex Hex).
        destruct (cow_comp (ce_page ex) src') eqn:Hc'; [|done].
        rewrite <-Hcs. symmetry. eapply cow_comp_trans; [by apply cow_comp_sym|done].
    + by rewrite fn_lookup_insert_ne, bool_decide_eq_false_2, andb_false_r by congruence.
Qed.

(** What a new entry takes from the allocator. *)
Definition took_entry (live live' : gmap ptr Z) : Prop :=
  ∃ p c, cow_entry_size ≤ c ∧ live !! p = None ∧ live' = <[p := c]> live.

(** [cow_inc] creates the entry with two references or adds one. *)
Lemma cow_inc_spec `{!AllocatorOk A ainv} s L live src :
  cow_wf s L live → cow_mutex s = false → is_Some (cow_bucket s src) →
  refs_of s L src + 1 < 2 ^ 32 →
  (∀ t, al_malloc A cow_entry_size (cow_alloc s) ≠ Done (NULL, t)) →
  wp (cow_inc A src)
     (λ _ s', ∃ L' live', cow_wf s' L' live' ∧ cow_mutex s' = false ∧
        inode_ids s' = inode_ids s ∧
        (if refs_of s L src =? 0 then took_entry live live' else live' = live) ∧
        ∀ src', refs_of s' L' src' =
          if cow_same s src src'
          then (if refs_of s L src =? 0 then 2 else refs_of s L src + 1)
          else refs_of s L src') s.
Proof.
  intros Hw Hm [i Hi] Hov Hmem. apply wp_bind, wp_lock; [done|].
  pose proof (wf_mutex s L live true Hw) as Hw1.
  pose proof (λ src', refs_mutex s L live true src' Hw) as Hrm.
  set (s1 := set_cow_mutex true s) in *.
  apply wp_bind. eapply (wp_cow_find s1); [done|exact Hi|].
  rewrite <-Hrm, (refs_pos s1 L live src i) by done. rewrite <-Hrm in Hov.
  unfold took_entry. destruct (find_cases s1 L live src i Hw1 Hi) as [(Hf & _ & _)|(Hn & Hin & e & He & _ & Hre)].
  - rewrite Hf. apply wp_bind, wp_bind, wp_zoom.
    assert (wp (al_malloc A cow_entry_size) (λ p t, p ≠ NULL ∧ ∃ c, cow_entry_size ≤ c ∧
      live !! p = None ∧ ainv t (<[p := c]> live)) (cow_alloc s1)) as Hal.
    { pose proof (al_malloc_ok (A:=A) (inv:=ainv) (cow_alloc s1) live cow_entry_size
        (cf_alloc _ _ _ Hw1) ltac:(done)) as H1.
      apply wp_Done in H1 as (p & t & Hrun & H1). apply wp_Done. exists p, t. split; [done|].
      destruct H1 as [[-> _]|H1]; [by destruct (Hmem t)|done]. }
    eapply wp_mono; [exact Hal|]. intros p t (Hp & c & Hc & Hfresh & Ht). simpl.
    eapply wp_mono;
      [exact (insert_entry_spec s1 L live src i p c Hw1 Hi Hf Hp Hfresh Hc t Ht _ eq_refl)|].
    intros _ s2 (Hw2 & _ & Hids & Hr2). apply wp_unlock.
    eexists _, _. split_and!; [by apply wf_mutex|done|done|by exists p, c|].
    intros src'. rewrite (refs_mutex _ _ (<[p:=c]> live)) by done.
    rewrite Hr2. change (cow_same s1 src src') with (cow_same s src src').
    by rewrite Hrm.
  - rewrite (proj2 (Z.eqb_neq _ NULL)) by done.
    apply wp_bind, wp_bind, (wp_load cow_refs) with (ce_refs e); [simpl in *; by rewrite He|].
    pose proof (cf_refs _ _ _ Hw1 i _ e (cow_bucket_range _ _ _ Hi) Hin He).
    apply (wp_store cow_refs); [simpl in *; rewrite He; by eexists|]. intros s2 Hs2.
    rewrite Hre in Hov. rewrite u32_small in Hs2 by lia.
    destruct (set_refs_spec s1 L live src i e _ s2 Hw1 Hi He Hn Hs2)
      as (Hw2 & _ & Hids & Hr2); [lia|].
    apply wp_unlock. exists L, live. split_and!; [by apply wf_mutex|done|done|done|].
    intros src'. rewrite (refs_mutex _ L live) by done. rewrite Hr2, Hre.
    change (cow_same s1 src src') with (cow_same s src src'). by rewrite Hrm.
Qed.

(** [cow_dec] drops a reference; the entry with one reference goes away. *)
Lemma cow_dec_spec `{!AllocatorOk A ainv} s L live src :
  cow_wf s L live → cow_mutex s = false → is_Some (cow_bucket s src) →
  wp (cow_dec A src)
     (λ _ s', ∃ L', cow_wf s' L'
          (if refs_of s L src =? 1 then delete (cow_entry s L src) live else live) ∧
        cow_mutex s' = false ∧ inode_ids s' = inode_ids s ∧
        ∀ src', refs_of s' L' src' =
          if cow_same s src src' then Z.max 0 (refs_of s L src - 1)
          else refs_of s L src') s.
Proof.
  intros Hw Hm [i Hi]. apply wp_bind, wp_lock; [done|].
  pose proof (wf_mutex s L live true Hw) as Hw1.
  pose proof (λ src', refs_mutex s L live true src' Hw) as Hrm.
  set (s1 := set_cow_mutex true s) in *.
  apply wp_bind. eapply (wp_cow_find s1); [done|exact Hi|].
  rewrite <-Hrm.
  destruct (find_cases s1 L live src i Hw1 Hi) as [(Hf & Hr0 & _)|(Hn & Hin & e & He & _ & Hre)].
  - rewrite Hf. apply wp_bind, wp_ret, wp_unlock.
    assert (set_cow_mutex false s1 = s) as -> by (by apply cow_mutex_id). exists L. rewrite Hr0.
    split_and!; [done..|]. intros src'. destruct (cow_same s src src') eqn:Hs; [|done].
    rewrite <-Hrm. by apply (refs_absent s1 L live src).
  - rewrite (proj2 (Z.eqb_neq _ NULL)) by done. simpl negb. cbv iota.
    pose proof (cf_refs _ _ _ Hw1 i _ e (cow_bucket_range _ _ _ Hi) Hin He) as Hrng.
    apply wp_bind, wp_bind, (wp_load cow_refs) with (ce_refs e); [simpl in *; by rewrite He|].
    rewrite Hre. destruct (Z.eqb_spec (ce_refs e) 1) as [H1|H1]; simpl negb; cbv iota.
    + eapply wp_mono; [by apply (delete_entry_spec s1 L live src i e)|].
      intros _ s2 (L2 & Hw2 & _ & Hids & Hr2). apply wp_unlock.
      exists L2. split_and!; [|done|done|].
      { unfold cow_entry. rewrite Hi.
        rewrite <-(quiet_find s s1) by (done || apply Hw || by eapply cow_bucket_range).
        by apply wf_mutex. }
      intros src'. erewrite refs_mutex by done. rewrite Hr2, H1.
      change (cow_same s1 src src') with (cow_same s src src'). by rewrite Hrm.
    + apply (wp_store cow_refs); [simpl in *; rewrite He; by eexists|]. intros s2 Hs2.
      rewrite u32_small in Hs2 by lia.
      destruct (set_refs_spec s1 L live src i e _ s2 Hw1 Hi He Hn Hs2)
        as (Hw2 & _ & Hids & Hr2); [lia|].
      apply wp_unlock. exists L. split_and!; [by apply wf_mutex|done|done|].
      intros src'. rewrite (refs_mutex _ L live) by done. rewrite Hr2.
      rewrite Z.max_r by lia.
      change (cow_same s1 src src') with (cow_same s src src'). by rewrite Hrm.
Qed.
End correctness.

(** ** Properties *)

Section properties.
Context {T : Type} (A : allocator T) (ainv : T → gmap ptr Z → Prop) `{!AllocatorOk A ainv}.
Implicit Types s : cstate T.

Lemma cow_inc_run s L live src :
  cow_wf ainv s L live → cow_mutex s = false → is_Some (cow_bucket s src) →
  cow_same s src src = true → refs_of s L src + 1 < 2 ^ 32 →
  (∀ t, al_malloc A cow_entry_size (cow_alloc s) ≠ Done (NULL, t)) →
  let n := if refs_of s L src =? 0 then 2 else refs_of s L src + 1 in
  ∃ s' L' live', cow_inc A src s = Done (tt, s') ∧ cow_wf ainv s' L' live' ∧
    cow_mutex s' = false ∧ inode_ids s' = inode_ids s ∧ refs_of s' L' src = n ∧
    (if refs_of s L src =? 0 then took_entry live live' else live' = live) ∧
    ∀ src', refs_of s' L' src' = if cow_same s src src' then n else refs_of s L src'.
Proof.
  intros Hw Hm Hb Hs Ho Hn n.
  pose proof (cow_inc_spec A ainv s L live src Hw Hm Hb Ho Hn)
    as ([] & s' & Hs' & L' & live' & Hw' & Hm' & Hids & Hl & Hr)%wp_Done.
  exists s', L', live'. split_and!; try done. by rewrite Hr, Hs.
Qed.

Lemma cow_dec_run s L live src :
  cow_wf ainv s L live → cow_mutex s = false → is_Some (cow_bucket s src) →
  cow_same s src src = true →
  let n := Z.max 0 (refs_of s L src - 1) in
  let live' := if refs_of s L src =? 1 then delete (cow_entry s L src) live else live in
  ∃ s' L', cow_dec A src s = Done (tt, s') ∧ cow_wf ainv s' L' live' ∧
    cow_mutex s' = false ∧ inode_ids s' = inode_ids s ∧ refs_of s' L' src = n ∧
    ∀ src', refs_of s' L' src' = if cow_same s src src' then n else refs_of s L src'.
Proof.
  intros Hw Hm Hb Hs n live'.
  pose proof (cow_dec_spec A ainv s L live src Hw Hm Hb)
    as ([] & s' & Hs' & L' & Hw' & Hm' & Hids & Hr)%wp_Done.
  exists s', L'. split_and!; try done. by rewrite Hr, Hs.
Qed.

(** C23: [cow_inc] adds a reference to a page of a file or an anonymous page.
    The first call makes an entry that stands for two references, in a new
    block; later ones add one and allocate nothing.  The count of another
    source changes with it exactly when the table counts both in one entry,
    that is for pages of the same inode in the same bucket.  The table and the
    allocator stay consistent, and the mutex is released. *)
Theorem cow_inc_counts s L live src :
  cow_wf ainv s L live → cow_mutex s = false → is_Some (cow_bucket s src) →
  cow_same s src src = true → refs_of s L src + 1 < 2 ^ 32 →
  (∀ t, al_malloc A cow_entry_size (cow_alloc s) ≠ Done (NULL, t)) →
  let n := if refs_of s L src =? 0 then 2 else refs_of s L src + 1 in
  ∃ s' L' live', cow_inc A src s = Done (tt, s') ∧ cow_wf ainv s' L' live' ∧
    cow_mutex s' = false ∧ refs_of s' L' src = n ∧
    (if refs_of s L src =? 0 then took_entry live live' else live' = live) ∧
    ∀ src', refs_of s' L' src' = if cow_same s src src' then n else refs_of s L src'.
Proof.
  intros Hw Hm Hb Hs Ho Hn.
  destruct (cow_inc_run s L live src Hw Hm Hb Hs Ho Hn) as (s' & L' & live' & H1 & H2 & H3 & _ & H4).
  by exists s', L', live'.
Qed.

(** C24: [cow_dec] takes a reference to a page of a file or an anonymous page
    away.  A count never falls below zero; the last reference unlinks the entry
    and gives exactly its block back to the allocator, while every other call
    leaves the blocks alone.  The count of another source changes with it
    exactly when the table counts both in one entry (pages of the same inode
    in the same bucket). *)
Theorem cow_dec_counts s L live src :
  cow_wf ainv s L live → cow_mutex s = false → is_Some (cow_bucket s src) →
  cow_same s src src = true →
  let n := Z.max 0 (refs_of s L src - 1) in
  let live' := if refs_of s L src =? 1 then delete (cow_entry s L src) live else live in
  ∃ s' L', cow_dec A src s = Done (tt, s') ∧ cow_wf ainv s' L' live' ∧
    cow_mutex s' = false ∧ refs_of s' L' src = n ∧
    ∀ src', refs_of s' L' src' = if cow_same s src src' then n else refs_of s L src'.
Proof.
  intros Hw Hm Hb Hs.
  destruct (cow_dec_run s L live src Hw Hm Hb Hs) as (s' & L' & H1 & H2 & H3 & _ & H4).
  by exists s', L'.
Qed.

(** Pages of one inode are confused.  Two different offsets of an inode
    that fall into the same bucket are counted as one page, since [comp]
    compares an offset with itself: after the first sharing of one of them
    the other has two references as well. *)
Theorem cow_offsets_confused s L live inode o1 o2 :
  cow_wf ainv s L live → cow_mutex s = false →
  is_Some (cow_bucket s (PSRC_INODE inode o1)) →
  cow_bucket s (PSRC_INODE inode o1) = cow_bucket s (PSRC_INODE inode o2) →
  refs_of s L (PSRC_INODE inode o1) = 0 →
  (∀ t, al_malloc A cow_entry_size (cow_alloc s) ≠ Done (NULL, t)) →
  ∃ s', cow_inc A (PSRC_INODE inode o1) s = Done (tt, s') ∧
        cow_lookup (PSRC_INODE inode o2) s' = Done (2, s').
Proof.
  intros Hw Hm Hb Hsame H0 Hn.
  pose proof (cow_inc_spec A ainv s L live _ Hw Hm Hb ltac:(lia) Hn)
    as ([] & s' & Hs' & L' & live' & Hw' & Hm' & Hids & _ & Hr)%wp_Done.
  exists s'. split; [done|].
  assert (is_Some (cow_bucket s' (PSRC_INODE inode o2))) as Hb'.
  { rewrite (quiet_bucket s s'), <-Hsame by done. done. }
  pose proof (cow_lookup_spec ainv s' L' live' _ Hw' Hm' Hb')
    as (r & s'' & Hs'' & -> & ->)%wp_Done.
  rewrite Hs'', Hr. unfold cow_same.
  rewrite bool_decide_eq_true_2 by done. simpl. by rewrite !Z.eqb_refl, H0.
Qed.
End properties.

(** An empty table over an allocator with one free block, and one inode. *)
Definition empty_cow : cstate astate :=
  CState ∅ ∅ {[ 4096 := 1 ]} false (AState MallocSpec.one_block ∅).

Lemma empty_cow_wf : cow_wf alloc_inv empty_cow (λ _, []) ∅.
Proof.
  split; try (intros; set_solver).
  - intros i _. split; [done|]. intros x Hx. set_solver.
  - exact fresh_allocator.
Qed.

Lemma empty_cow_memory t :
  al_malloc malloc_allocator cow_entry_size (cow_alloc empty_cow) ≠ Done (NULL, t).
Proof. intros Ht. vm_compute in Ht. discriminate. Qed.

(** The first page of the inode that is shared. *)
Lemma cow_inc_counts_witness :
  ∃ s' L' live', cow_inc malloc_allocator (PSRC_INODE 4096 7) empty_cow = Done (tt, s') ∧
    cow_wf alloc_inv s' L' live' ∧ cow_mutex s' = false ∧ refs_of s' L' (PSRC_INODE 4096 7) = 2 ∧
    took_entry ∅ live' ∧
    ∀ src', refs_of s' L' src' =
      if cow_same empty_cow (PSRC_INODE 4096 7) src' then 2 else refs_of empty_cow (λ _, []) src'.
Proof.
  apply (cow_inc_counts malloc_allocator alloc_inv empty_cow (λ _, []) ∅ (PSRC_INODE 4096 7));
    [exact empty_cow_wf|reflexivity|by eexists|by vm_compute|reflexivity|exact empty_cow_memory].
Defined.

(** The table after that, which holds one entry in one block. *)
Lemma one_entry_cow :
  ∃ s L live, cow_inc malloc_allocator (PSRC_INODE 4096 7) empty_cow = Done (tt, s) ∧
    cow_wf alloc_inv s L live ∧ cow_mutex s = false ∧ inode_ids s = inode_ids empty_cow ∧
    refs_of s L (PSRC_INODE 4096 7) = 2.
Proof.
  assert (refs_of empty_cow (λ _, []) (PSRC_INODE 4096 7) = 0) as H0 by reflexivity.
  assert (cow_same empty_cow (PSRC_INODE 4096 7) (PSRC_INODE 4096 7) = true) as Hs by by vm_compute.
  assert (is_Some (cow_bucket empty_cow (PSRC_INODE 4096 7))) as Hb by by eexists.
  assert (refs_of empty_cow (λ _, []) (PSRC_INODE 4096 7) + 1 < 2 ^ 32) as Ho by (rewrite H0; lia).
  destruct (cow_inc_run malloc_allocator alloc_inv empty_cow (λ _, []) ∅ (PSRC_INODE 4096 7)
    empty_cow_wf eq_refl Hb Hs Ho empty_cow_memory)
    as (s & L & live & Hrun & Hw & Hm & Hids & Hr & _).
  exists s, L, live. split_and!; [exact Hrun|exact Hw|exact Hm|exact Hids|]. by rewrite Hr, H0.
Qed.

(** Two calls take both references away and free the entry. *)
Lemma cow_dec_counts_witness :
  ∃ s L live s1 L1 s2 L2, refs_of s L (PSRC_INODE 4096 7) = 2 ∧ cow_wf alloc_inv s L live ∧
    cow_dec malloc_allocator (PSRC_INODE 4096 7) s = Done (tt, s1) ∧ cow_wf alloc_inv s1 L1 live ∧
    cow_dec malloc_allocator (PSRC_INODE 4096 7) s1 = Done (tt, s2) ∧
    cow_wf alloc_inv s2 L2 (delete (cow_entry s1 L1 (PSRC_INODE 4096 7)) live) ∧
    refs_of s2 L2 (PSRC_INODE 4096 7) = 0.
Proof.
  destruct one_entry_cow as (s & L & live & _ & Hw & Hm & Hids & Hr).
  assert (∀ s : cstate astate, inode_ids s = inode_ids empty_cow → is_Some (cow_bucket s (PSRC_INODE 4096 7)) ∧
    cow_same s (PSRC_INODE 4096 7) (PSRC_INODE 4096 7) = true) as Hk.
  { intros s' Hs'. rewrite (quiet_bucket empty_cow) by done. split; [by eexists|].
    simpl. by rewrite bool_decide_eq_true_2. }
  destruct (cow_dec_counts malloc_allocator alloc_inv s L live (PSRC_INODE 4096 7))
    as (s1 & L1 & H1 & Hw1 & Hm1 & Hr1 & _); [done|done|by apply Hk..|].
  assert (inode_ids s1 = inode_ids empty_cow) as Hids1.
  { destruct (cow_dec_run malloc_allocator alloc_inv s L live (PSRC_INODE 4096 7) Hw Hm
      (proj1 (Hk s Hids)) (proj2 (Hk s Hids))) as (s' & L' & H & _ & _ & Hids' & _).
    rewrite H1 in H. injection H as <-. by rewrite Hids'. }
  rewrite Hr in Hw1, Hr1.
  destruct (cow_dec_counts malloc_allocator alloc_inv s1 L1 live (PSRC_INODE 4096 7))
    as (s2 & L2 & H2 & Hw2 & _ & Hr2 & _); [exact Hw1|exact Hm1|by apply Hk..|].
  rewrite Hr1 in Hw2, Hr2. exists s, L, live, s1, L1, s2, L2.
  split; [exact Hr|]. split; [exact Hw|]. split; [exact H1|]. split; [exact Hw1|].
  split; [exact H2|]. split; [exact Hw2|exact Hr2].
Defined.

Lemma cow_offsets_confused_witness :
  ∃ s', cow_inc malloc_allocator (PSRC_INODE 4096 0) empty_cow = Done (tt, s') ∧
        cow_lookup (PSRC_INODE 4096 32767) s' = Done (2, s').
Proof.
  apply (cow_offsets_confused malloc_allocator alloc_inv empty_cow (λ _, []) ∅);
    [exact empty_cow_wf|reflexivity|by eexists|reflexivity|reflexivity|exact empty_cow_memory].
Defined.
