(* ===== verification/CpuTables.v ===== *)
(** * Processor tables (arch/sys/ia_32_cputabs.c, arch/sys/ia_32_interrupt.c)

    Two independent parts: the gates of the interrupt descriptor table, whose
    encoding is inverted by [int_get_handler]; and the interpretation of the
    [cpuid] instruction.  The instruction itself, executed through the assembly
    routine [cpuid_store], is a parameter; [kernel_panic] halts the processor. *)

From S2P Require Import Prelude.
#[local] Open Scope Z_scope.

(** ** The interrupt descriptor table *)

Abbreviation idt_t := (list Z) (only parsing).

(** The word [int_set_handler] computes: the two halves of the address around
    a constant selector and type. *)
Definition gate (handler : Z) : Z :=
  let h_addr := Z.land (u32 handler) 0xffffffff in
  let h_addr := Z.land (Z.lor h_addr (Z.shiftl h_addr 32 mod 2 ^ 64)) 0xffff00000000ffff in
  Z.lor 0x00008e0000080000 h_addr.

(** [idt[inum] = ...]; an index past the table is undefined. *)
Definition int_set_handler (inum : Z) (handler : Z) : M idt_t unit :=
  putopt (λ idt, if decide (0 ≤ inum < Z.of_nat (length idt))
                 then Some (<[Z.to_nat inum := gate handler]> idt)
                 else None).

Definition int_get_handler (inum : Z) : M idt_t Z :=
  g ← getopt (λ idt, if decide (0 ≤ inum) then idt !! Z.to_nat inum else None);
  let out := u32 (Z.land g 0x0000ffff) in
  mret (Z.lor out (u32 (Z.land (Z.shiftr g 32) 0xffff0000))).

Definition IPI_BASE : Z := 0x30.
Definition IPI_STOP : Z := IPI_BASE + 0.
Definition IPI_RESTART : Z := IPI_BASE + 2.
Definition IPI_RESTART_TLBINV : Z := IPI_BASE + 3.
Definition IPI_RESTART_KERN_TLBINV : Z := IPI_BASE + 4.
Definition IPI_HALT : Z := IPI_BASE + 5.

(** The addresses of the assembly handlers. *)
Record handlers := Handlers {
  int_fatal : Z;
  int_ignore : Z;
  ipi_stop : Z;
  ipi_restart : Z;
  ipi_restart_tlbinv : Z;
  ipi_restart_kern_tlbinv : Z;
  ipi_halt : Z;
}.

Definition idt_init (h : handlers) : M idt_t unit :=
  for_upto 32 0 (λ i, int_set_handler i (int_fatal h));;
  for_upto 224 32 (λ i, int_set_handler i (int_ignore h));;
  int_set_handler IPI_STOP (ipi_stop h);;
  int_set_handler IPI_RESTART (ipi_restart h);;
  int_set_handler IPI_RESTART_TLBINV (ipi_restart_tlbinv h);;
  int_set_handler IPI_RESTART_KERN_TLBINV (ipi_restart_kern_tlbinv h);;
  int_set_handler IPI_HALT (ipi_halt h).

(** ** Cache and TLB descriptors *)

Definition CACHE_L1 : Z := 0x1.
Definition CACHE_L2 : Z := 0x4.
Definition CACHE_L3 : Z := 0x10.
Definition CACHE_L1_SPLIT : Z := 0x2.
Definition TLB_INSTR : Z := 0x100.
Definition TLB_DATA : Z := 0x400.
Definition TLB_INSTR_SPLIT : Z := 0x200.
Definition TLB_DATA_SPLIT : Z := 0x800.
Definition IA_32_X87 : Z := 0x1.
Definition IA_32_PSE : Z := 0x8.
Definition IA_32_APIC : Z := 0x200.
Definition CPU_REQUIRED : Z := Z.lor (Z.lor IA_32_X87 IA_32_PSE) IA_32_APIC.

(** The fields of [cache_tlb_t]; the structure is a function from them. *)
Inductive cache_field :=
| flags | trace_cache
| l1_icache | l1_dcache | l2_icache | l2_dcache | l3_icache | l3_dcache
| l1_icache_assoc | l1_dcache_assoc | l2_icache_assoc | l2_dcache_assoc
| l3_icache_assoc | l3_dcache_assoc
| l1_icache_line | l1_dcache_line | l2_icache_line | l2_dcache_line
| l3_icache_line | l3_dcache_line
| itlb_norm | itlb_super | dtlb_norm | dtlb_super
| itlb_norm_assoc | itlb_super_assoc | dtlb_norm_assoc | dtlb_super_assoc.

Global Instance cache_field_eq : EqDecision cache_field.
Proof. solve_decision. Defined.

Definition cache_tlb_t := cache_field → Z.

Definition set_field (f : cache_field) (v : Z) (c : cache_tlb_t) : cache_tlb_t :=
  λ g, if decide (f = g) then v else c g.

(** The two kinds of statements of the descriptor switch:
    [cache_tlb_data.f = v;] and [cache_tlb_data.flags |= v;] *)
Inductive assign :=
| Assign (f : cache_field) (v : Z)
| OrFlags (v : Z).

Definition run_assign (c : cache_tlb_t) (a : assign) : cache_tlb_t :=
  match a with
  | Assign f v => set_field f v c
  | OrFlags v => set_field flags (Z.lor (c flags) v) c
  end.

(** The recurring groups of statements. *)
Definition l1_icache_desc (size assoc line : Z) : list assign :=
  [OrFlags (Z.lor CACHE_L1 CACHE_L1_SPLIT); Assign l1_icache size;
   Assign l1_icache_assoc assoc; Assign l1_icache_line line].
Definition l1_dcache_desc (size assoc line : Z) : list assign :=
  [OrFlags (Z.lor CACHE_L1 CACHE_L1_SPLIT); Assign l1_dcache size;
   Assign l1_dcache_assoc assoc; Assign l1_dcache_line line].
Definition l2_cache_desc (size assoc line : Z) : list assign :=
  [OrFlags CACHE_L2; Assign l1_dcache size; Assign l1_dcache_assoc assoc;
   Assign l1_dcache_line line; Assign l1_icache size;
   Assign l1_icache_assoc assoc; Assign l1_icache_line line].
Definition l3_cache_desc (size assoc line : Z) : list assign :=
  [OrFlags CACHE_L3; Assign l3_dcache size; Assign l3_dcache_assoc assoc;
   Assign l3_dcache_line line; Assign l3_icache size;
   Assign l3_icache_assoc assoc; Assign l3_icache_line line].
Definition itlb_full_desc (n : Z) : list assign :=
  [OrFlags TLB_INSTR; Assign itlb_norm n; Assign itlb_norm_assoc n;
   Assign itlb_super n; Assign itlb_super_assoc n].
Definition dtlb_full_desc (n : Z) : list assign :=
  [OrFlags TLB_DATA; Assign dtlb_norm n; Assign dtlb_norm_assoc n;
   Assign dtlb_super n; Assign dtlb_super_assoc n].

(** The cases of the switch, in four ranges of descriptors. *)
Definition cache_desc_00_30 (desc : Z) : list assign :=
  match desc with
  | 0x01 => [OrFlags (Z.lor TLB_INSTR_SPLIT TLB_INSTR); Assign itlb_norm 32; Assign itlb_norm_assoc 4]
  | 0x02 => [OrFlags (Z.lor TLB_INSTR_SPLIT TLB_INSTR); Assign itlb_super 2; Assign itlb_super_assoc 4]
  | 0x03 => [OrFlags (Z.lor TLB_DATA_SPLIT TLB_DATA); Assign dtlb_norm 64; Assign dtlb_norm_assoc 4]
  | 0x04 => [OrFlags (Z.lor TLB_DATA_SPLIT TLB_DATA); Assign dtlb_super 8; Assign dtlb_super_assoc 4]
  | 0x06 => l1_icache_desc 8192 4 32
  | 0x08 => l1_icache_desc 16384 4 32
  | 0x0a => l1_dcache_desc 8192 2 32
  | 0x0c => l1_dcache_desc 16384 4 32
  | 0x22 => l3_cache_desc 524288 4 128
  | 0x23 => l3_cache_desc 1048576 8 128
  | 0x25 => l3_cache_desc 2097152 8 128
  | 0x2c => l1_icache_desc 32768 8 64
  | 0x30 => l1_dcache_desc 32768 8 64
  | _ => []
  end.

Definition cache_desc_41_5d (desc : Z) : list assign :=
  match desc with
  | 0x41 => l2_cache_desc 131072 4 32
  | 0x42 => l2_cache_desc 262144 4 32
  | 0x43 => l2_cache_desc 524288 4 32
  | 0x44 => l2_cache_desc 1048576 4 32
  | 0x45 => l2_cache_desc 2097152 4 32
  | 0x50 => itlb_full_desc 64
  | 0x51 => itlb_full_desc 128
  | 0x52 => itlb_full_desc 256
  | 0x5b => dtlb_full_desc 64
  | 0x5c => dtlb_full_desc 128
  | 0x5d => dtlb_full_desc 256
  | _ => []
  end.

Definition cache_desc_66_7d (desc : Z) : list assign :=
  match desc with
  | 0x66 => l1_dcache_desc 8192 4 64
  | 0x67 => l1_dcache_desc 16384 4 64
  | 0x68 => l1_dcache_desc 32768 4 64
  | 0x70 => [Assign trace_cache 12288]
  | 0x71 => [Assign trace_cache 16384]
  | 0x72 => [Assign trace_cache 32768]
  | 0x78 => l2_cache_desc 1048576 8 64
  | 0x79 => l2_cache_desc 131072 8 128
  | 0x7a => l2_cache_desc 262144 8 128
  | 0x7b => l2_cache_desc 524288 8 128
  | 0x7c => l2_cache_desc 1048576 8 128
  | 0x7d => l2_cache_desc 2097152 8 64
  | _ => []
  end.

Definition cache_desc_82_b3 (desc : Z) : list assign :=
  match desc with
  | 0x82 => l2_cache_desc 262144 8 32
  | 0x83 => l2_cache_desc 524288 8 32
  | 0x84 => l2_cache_desc 1048576 8 32
  | 0x85 => l2_cache_desc 2097152 8 32
  | 0x86 => l2_cache_desc 524288 8 64
  | 0x87 => l2_cache_desc 1048576 8 64
  | 0xb0 => [OrFlags (TLB_INSTR_SPLIT); Assign itlb_super 128; Assign itlb_super_assoc 4]
  | 0xb3 => [OrFlags (TLB_DATA_SPLIT); Assign dtlb_super 128; Assign dtlb_super_assoc 4]
  | _ => []
  end.

Definition cache_desc_stmts (desc : Z) : list assign :=
  if desc <=? 0x40 then cache_desc_00_30 desc
  else if desc <=? 0x5d then cache_desc_41_5d desc
  else if desc <=? 0x7d then cache_desc_66_7d desc
  else cache_desc_82_b3 desc.

Definition cache_desc_parse (desc : Z) (c : cache_tlb_t) : cache_tlb_t :=
  foldl run_assign c (cache_desc_stmts desc).

(** ** [cpuid] *)

Record cpu_info := CpuInfo {
  cpu_vendor_str : list Z;
  cpu_features : Z;
  cpu_brand : Z;
  cpu_logical : Z;
  cpu_stepping : Z;
  cpu_model : Z;
  cpu_family : Z;
  cache_tlb_data : cache_tlb_t;
}.

(** [buf[4]]: the registers eax, ebx, ecx and edx. *)
Definition regs : Type := Z * Z * Z * Z.
Definition reg (b : regs) (i : Z) : Z :=
  let '(a, b, c, d) := b in
  if i =? 0 then a else if i =? 1 then b else if i =? 2 then c else d.

(** [((char* )buf)[j]], as the unsigned char it is passed as. *)
Definition buf_byte (b : regs) (j : Z) : Z :=
  Z.land (Z.shiftr (reg b (j / 4)) (8 * (j mod 4))) 0xff.

Definition vendor_bytes (r : Z) : list Z :=
  [Z.land r 0xff; Z.land (Z.shiftr r 8) 0xff; Z.land (Z.shiftr r 16) 0xff;
   Z.land (Z.shiftr r 24) 0xff].

Definition vendor_string (b : regs) : list Z :=
  vendor_bytes (reg b 1) ++ vendor_bytes (reg b 3) ++ vendor_bytes (reg b 2) ++ [0].

Definition default_cache : cache_tlb_t := λ f,
  match f with
  | flags => Z.lor (Z.lor (Z.lor (Z.lor CACHE_L1 CACHE_L1_SPLIT) CACHE_L2) TLB_INSTR) TLB_DATA
  | trace_cache => 0
  | l1_dcache | l1_icache => 16384
  | l2_dcache | l2_icache => 262144
  | l3_dcache | l3_icache => 0
  | l1_dcache_assoc | l1_icache_assoc | l2_dcache_assoc | l2_icache_assoc => 4
  | l3_dcache_assoc | l3_icache_assoc => 0
  | l1_dcache_line | l1_icache_line | l2_dcache_line | l2_icache_line => 4
  | l3_dcache_line | l3_icache_line => 0
  | itlb_norm | itlb_super | dtlb_norm | dtlb_super => 128
  | itlb_norm_assoc | itlb_super_assoc | dtlb_norm_assoc | dtlb_super_assoc => 4
  end.

(** [for(j = 1; j < 16;) if(j & 0xfffffffc) parse(buf[j++]); else j += 4;] *)
Fixpoint desc_loop (fuel : nat) (b : regs) (j : Z) (c : cache_tlb_t) : option cache_tlb_t :=
  match fuel with
  | O => None
  | S n =>
      if j <? 16 then
        if negb (Z.land j 0xfffffffc =? 0)
        then desc_loop n b (j + 1) (cache_desc_parse (buf_byte b j) c)
        else desc_loop n b (j + 4) c
      else Some c
  end.

Section cpuid.
(** The results of the instruction: [cpuid n leaf] is what its execution
    number [n] returns for [leaf]. *)
Variable cpuid : nat → Z → regs.

Fixpoint cache_loop (rounds n : nat) (b : regs) (c : cache_tlb_t) : option cache_tlb_t :=
  match rounds with
  | O => Some c
  | S r => c ← desc_loop 16 b 1 c; cache_loop r (S n) (cpuid n 2) c
  end.

(** [None] is a kernel panic. *)
Definition cpuid_parse : option cpu_info :=
  let b0 := cpuid 0 0 in
  let max := reg b0 0 in
  if max <? 1 then None else
  let b1 := cpuid 1 1 in
  let features := reg b1 3 in
  if negb (Z.land features CPU_REQUIRED =? CPU_REQUIRED) then None else
  cache ← (if 2 <? max then
             let b2 := cpuid 2 2 in
             cache_loop (Z.to_nat (Z.land (reg b2 0) 0xff)) 3 b2 default_cache
           else Some default_cache);
  Some {|
    cpu_vendor_str := vendor_string b0;
    cpu_features := features;
    cpu_brand := Z.land (reg b1 1) 0xff;
    cpu_logical := Z.land (Z.shiftr (reg b1 1) 16) 0xff;
    cpu_stepping := Z.land (reg b1 0) 0xf;
    cpu_model := Z.lor (Z.land (Z.shiftr (reg b1 0) 4) 0xf)
                       (Z.land (Z.shiftr (reg b1 0) 12) 0xf0);
    cpu_family := Z.lor (Z.land (Z.shiftr (reg b1 0) 8) 0xf)
                        (Z.land (Z.shiftr (reg b1 0) 16) 0xff0);
    cache_tlb_data := cache;
  |}.
End cpuid.

(** ** Gates *)

Lemma u32_bits x n : 0 ≤ n → Z.testbit (u32 x) n = (n <? 32) && Z.testbit x n.
Proof.
  intros Hn. unfold u32. destruct (Z.ltb_spec n 32).
  - by rewrite Z.mod_pow2_bits_low by lia.
  - by rewrite Z.mod_pow2_bits_high by lia.
Qed.

Lemma mask_bits n : 0 ≤ n →
  Z.testbit 0xffff00000000ffff n = (n <? 16) || ((48 <=? n) && (n <? 64)).
Proof.
  intros Hn. change 0xffff00000000ffff with (Z.lor (Z.ones 16) (Z.shiftl (Z.ones 16) 48)).
  rewrite Z.lor_spec, Z.shiftl_spec, Z.testbit_ones_nonneg by lia.
  destruct (Z.leb_spec 48 n).
  - rewrite Z.testbit_ones_nonneg by lia. f_equal. simpl. lia.
  - rewrite Z.testbit_neg_r by lia. done.
Qed.

Lemma frame_bits n : 0 ≤ n < 16 ∨ 48 ≤ n → Z.testbit 0x00008e0000080000 n = false.
Proof.
  intros [Hn|Hn].
  - change 0x00008e0000080000 with (0x8e000008 * 2 ^ 16). apply Z.mul_pow2_bits_low. lia.
  - apply Z.bits_above_log2; [done|]. change (Z.log2 0x00008e0000080000) with 47. lia.
Qed.

(** Where the gate keeps the bits of the address. *)
Lemma gate_bits h n : 0 ≤ h < 2 ^ 32 → 0 ≤ n < 16 ∨ 48 ≤ n < 64 →
  Z.testbit (gate h) n = Z.testbit h (if n <? 16 then n else n - 32).
Proof.
  intros Hh Hn. unfold gate.
  rewrite Z.lor_spec, frame_bits by lia. simpl.
  rewrite Z.land_spec, mask_bits by lia.
  change 0xffffffff with (Z.ones 32). rewrite Z.land_ones, u32_small, Z.mod_small by lia.
  rewrite Z.lor_spec, Z.mod_pow2_bits_low, Z.shiftl_spec by lia.
  assert (∀ m, 32 ≤ m → Z.testbit h m = false) as Hhi.
  { intros m Hm. rewrite <-(Z.mod_small h (2 ^ 32)) by lia. apply Z.mod_pow2_bits_high. lia. }
  destruct (Z.ltb_spec n 16).
  - rewrite (Z.testbit_neg_r h (n - 32)) by lia. simpl. by rewrite orb_false_r, andb_true_r.
  - rewrite Hhi by lia. rewrite (proj2 (Z.leb_le 48 n)), (proj2 (Z.ltb_lt n 64)) by lia.
    simpl. by rewrite andb_true_r.
Qed.

Lemma gate_decode h : 0 ≤ h < 2 ^ 32 →
  Z.lor (u32 (Z.land (gate h) 0x0000ffff)) (u32 (Z.land (Z.shiftr (gate h) 32) 0xffff0000)) = h.
Proof.
  intros Hh. apply Z.bits_inj'. intros n Hn.
  rewrite Z.lor_spec, !u32_bits, !Z.land_spec, Z.shiftr_spec by lia.
  change 0xffff with (Z.ones 16). rewrite Z.testbit_ones_nonneg by lia.
  change 0xffff0000 with (Z.shiftl (Z.ones 16) 16). rewrite Z.shiftl_spec by lia.
  destruct (Z.ltb_spec n 32) as [H32|H32].
  2:{ simpl. rewrite <-(Z.mod_small h (2 ^ 32)) by lia. symmetry.
      apply Z.mod_pow2_bits_high. lia. }
  destruct (Z.ltb_spec n 16) as [H16|H16]; simpl.
  - rewrite (Z.testbit_neg_r _ (n - 16)) by lia.
    rewrite gate_bits, (proj2 (Z.ltb_lt n 16)) by lia. by rewrite andb_true_r, andb_false_r, orb_false_r.
  - rewrite Z.testbit_ones_nonneg, (proj2 (Z.ltb_lt (n - 16) 16)) by lia.
    rewrite andb_false_r, andb_true_r. simpl.
    rewrite gate_bits, (proj2 (Z.ltb_ge (n + 32) 16)) by lia. f_equal. lia.
Qed.

Lemma wp_set_handler idt i h (Q : unit → idt_t → Prop) :
  0 ≤ i < Z.of_nat (length idt) → Q tt (<[Z.to_nat i := gate h]> idt) →
  wp (int_set_handler i h) Q idt.
Proof.
  intros Hi HQ. eapply (wp_putopt _ (<[Z.to_nat i := gate h]> idt)); [|done].
  by rewrite decide_True.
Qed.

Lemma wp_get_handler idt i h (Q : Z → idt_t → Prop) :
  0 ≤ i → idt !! Z.to_nat i = Some (gate h) → 0 ≤ h < 2 ^ 32 → Q h idt →
  wp (int_get_handler i) Q idt.
Proof.
  intros Hi Hg Hh HQ. apply wp_bind, (wp_getopt _ (gate h)); [by rewrite decide_True|].
  apply wp_ret. by rewrite gate_decode.
Qed.

(** The handler of every vector after [idt_init]. *)
Definition handler_of (h : handlers) (i : Z) : Z :=
  if i =? IPI_HALT then ipi_halt h
  else if i =? IPI_RESTART_KERN_TLBINV then ipi_restart_kern_tlbinv h
  else if i =? IPI_RESTART_TLBINV then ipi_restart_tlbinv h
  else if i =? IPI_RESTART then ipi_restart h
  else if i =? IPI_STOP then ipi_stop h
  else if i <? 32 then int_fatal h else int_ignore h.

(** ** Descriptors *)

Definition tlb_field (f : cache_field) : bool :=
  match f with
  | itlb_norm | itlb_super | dtlb_norm | dtlb_super
  | itlb_norm_assoc | itlb_super_assoc | dtlb_norm_assoc | dtlb_super_assoc => true
  | _ => false
  end.

(** The statements of every descriptor have one of nine shapes. *)
Lemma cache_desc_cases (P : list assign → Prop) :
  P [] → (∀ s a l, P (l1_icache_desc s a l)) → (∀ s a l, P (l1_dcache_desc s a l)) →
  (∀ s a l, P (l2_cache_desc s a l)) → (∀ s a l, P (l3_cache_desc s a l)) →
  (∀ n, P (itlb_full_desc n)) → (∀ n, P (dtlb_full_desc n)) →
  (∀ f g a b c, tlb_field f = true → tlb_field g = true →
     P [OrFlags c; Assign f a; Assign g b]) →
  (∀ v, P [Assign trace_cache v]) → ∀ desc, P (cache_desc_stmts desc).
Proof.
  intros H0 H1 H2 H3 H4 H5 H6 H7 H8 desc. unfold cache_desc_stmts.
  unfold cache_desc_00_30, cache_desc_41_5d, cache_desc_66_7d, cache_desc_82_b3.
  repeat case_match; first [done|by apply H7|auto].
Qed.

(** Statements that leave a field alone. *)
Definition assigns (f : cache_field) (a : assign) : bool :=
  match a with
  | Assign g _ => bool_decide (g = f)
  | OrFlags _ => bool_decide (flags = f)
  end.

Lemma run_assigns_other f l c :
  forallb (λ a, negb (assigns f a)) l = true → foldl run_assign c l f = c f.
Proof.
  revert c. induction l as [|a l IH]; intros c; simpl; [done|].
  intros [Ha Hl]%andb_true_iff. rewrite IH by done.
  destruct a as [g v|v]; simpl in *; unfold set_field; by case_decide; case_bool_decide.
Qed.

Definition l2_field (f : cache_field) : bool :=
  match f with
  | l2_icache | l2_dcache | l2_icache_assoc | l2_dcache_assoc
  | l2_icache_line | l2_dcache_line => true
  | _ => false
  end.

Lemma cache_desc_l2 f desc :
  l2_field f = true → forallb (λ a, negb (assigns f a)) (cache_desc_stmts desc) = true.
Proof.
  intros Hf.
  apply (cache_desc_cases (λ l, forallb (λ a, negb (assigns f a)) l = true)); try done;
    try (intros; destruct f; simpl in Hf; done).
  intros g h a b v Hg Hh. destruct f, g, h; done.
Qed.

(** A stretch of the table filled with one handler. *)
Lemma wp_fill (g : Z → Z) (n : nat) (i : Z) h idt :
  0 ≤ i → i + Z.of_nat n ≤ Z.of_nat (length idt) →
  (∀ j, 0 ≤ j < i → idt !! Z.to_nat j = Some (g j)) →
  (∀ j, i ≤ j < i + Z.of_nat n → g j = gate h) →
  wp (for_upto n i (λ i, int_set_handler i h))
     (λ _ idt', length idt' = length idt ∧
        ∀ j, 0 ≤ j < i + Z.of_nat n → idt' !! Z.to_nat j = Some (g j)) idt.
Proof.
  intros Hi Hlen Hold Hg.
  apply (wp_for_upto (λ k idt', length idt' = length idt ∧
    ∀ j, 0 ≤ j < k → idt' !! Z.to_nat j = Some (g j))); [|done].
  intros j idt1 Hj [Hl1 H1]. apply wp_set_handler; [lia|].
  rewrite length_insert. split; [done|]. intros k Hk.
  destruct (decide (k = j)) as [->|].
  - rewrite list_lookup_insert_eq by lia. by rewrite Hg by lia.
  - rewrite list_lookup_insert_ne by lia. apply H1. lia.
Qed.

Lemma lookup_gate (idt : idt_t) k i x y :
  0 ≤ k < Z.of_nat (length idt) → 0 ≤ i → idt !! Z.to_nat i = Some (gate y) →
  <[Z.to_nat k := gate x]> idt !! Z.to_nat i = Some (gate (if i =? k then x else y)).
Proof.
  intros Hk Hi Hy. destruct (Z.eqb_spec i k) as [->|].
  - by rewrite list_lookup_insert_eq by lia.
  - by rewrite list_lookup_insert_ne by lia.
Qed.

Lemma idt_init_spec h idt :
  length idt = 256%nat →
  wp (idt_init h)
     (λ _ idt', length idt' = 256%nat ∧
        ∀ i, 0 ≤ i < 256 → idt' !! Z.to_nat i = Some (gate (handler_of h i))) idt.
Proof.
  intros Hlen.
  apply wp_bind. eapply wp_mono.
  { apply (wp_fill (λ i, gate (if i <? 32 then int_fatal h else int_ignore h)) 32 0);
      [lia|lia|lia|]. intros j Hj. by rewrite (proj2 (Z.ltb_lt j 32)) by lia. }
  intros _ idt1 [Hl1 H1].
  apply wp_bind. eapply wp_mono.
  { apply (wp_fill (λ i, gate (if i <? 32 then int_fatal h else int_ignore h)) 224 32);
      [lia|lia|exact H1|]. intros j Hj. by rewrite (proj2 (Z.ltb_ge j 32)) by lia. }
  intros _ idt2 [Hl2 H2].
  do 4 (apply wp_bind, wp_set_handler;
    [rewrite ?length_insert; unfold IPI_STOP, IPI_RESTART, IPI_RESTART_TLBINV,
       IPI_RESTART_KERN_TLBINV, IPI_BASE; lia|]).
  apply wp_set_handler; [rewrite ?length_insert; unfold IPI_HALT, IPI_BASE; lia|].
  split; [by rewrite !length_insert; lia|]. intros i Hi.
  repeat (apply lookup_gate; [rewrite ?length_insert; unfold IPI_STOP, IPI_RESTART,
    IPI_RESTART_TLBINV, IPI_RESTART_KERN_TLBINV, IPI_HALT, IPI_BASE; lia|lia|]).
  apply H2. lia.
Qed.

(** ** [cpuid] *)

(** The bytes of the four registers that the inner loop looks at. *)
Definition parsed_bytes (b : regs) : list Z :=
  buf_byte b <$> [5; 6; 7; 8; 9; 10; 11; 12; 13; 14; 15].

Lemma desc_loop_spec b c :
  desc_loop 16 b 1 c = Some (foldl (λ c d, cache_desc_parse d c) c (parsed_bytes b)).
Proof. reflexivity. Qed.

Lemma cache_loop_total cpuid r n b c : is_Some (cache_loop cpuid r n b c).
Proof.
  revert n b c. induction r as [|r IH]; intros n b c; cbn [cache_loop]; [eauto|].
  rewrite desc_loop_spec. apply IH.
Qed.

Lemma land_byte x : 0 ≤ Z.land x 0xff < 256.
Proof.
  change 0xff with (Z.ones 8). rewrite Z.land_ones by lia. apply Z.mod_pos_bound. lia.
Qed.

Lemma vendor_string_bytes b : Forall (λ x, 0 ≤ x < 256) (vendor_string b).
Proof.
  unfold vendor_string, vendor_bytes. simpl.
  repeat constructor; try lia; apply land_byte.
Qed.

(** ** Properties *)

(** [int_get_handler] returns the handler that [int_set_handler] stored,
    for every vector and every 32-bit address, and the other vectors of the
    table keep their gates. *)
Theorem int_handler_round_trip idt i h :
  0 ≤ i < Z.of_nat (length idt) → 0 ≤ h < 2 ^ 32 →
  ∃ idt', int_set_handler i h idt = Done (tt, idt') ∧ int_get_handler i idt' = Done (h, idt') ∧
    ∀ j, 0 ≤ j → j ≠ i → idt' !! Z.to_nat j = idt !! Z.to_nat j.
Proof.
  intros Hi Hh.
  assert (wp (int_set_handler i h) (λ _ idt', idt' = <[Z.to_nat i := gate h]> idt) idt)
    as ([] & idt' & Hs & ->)%wp_Done by (by apply wp_set_handler).
  exists (<[Z.to_nat i := gate h]> idt). split; [done|]. split.
  - assert (wp (int_get_handler i) (λ r idt', r = h ∧ idt' = <[Z.to_nat i := gate h]> idt)
      (<[Z.to_nat i := gate h]> idt)) as (r & idt' & Hg & -> & ->)%wp_Done; [|done].
    apply (wp_get_handler _ _ h); [lia| |done|done]. by rewrite list_lookup_insert_eq by lia.
  - intros j Hj Hne. by rewrite list_lookup_insert_ne by lia.
Qed.

Lemma int_handler_round_trip_witness :
  ∃ idt', int_set_handler 3 0xc0123456 (replicate 256 0) = Done (tt, idt') ∧
    int_get_handler 3 idt' = Done (0xc0123456, idt') ∧
    ∀ j, 0 ≤ j → j ≠ 3 → idt' !! Z.to_nat j = replicate 256 0 !! Z.to_nat j.
Proof. apply int_handler_round_trip; [rewrite length_replicate; lia|lia]. Defined.

(** After [idt_init] every one of the 256 vectors leads to its handler:
    the first 32 to the fatal one, the five interprocessor interrupts to
    theirs, and all others to the one that ignores the interrupt. *)
Theorem idt_init_installs h idt :
  length idt = 256%nat →
  (∀ i, 0 ≤ handler_of h i < 2 ^ 32) →
  ∃ idt', idt_init h idt = Done (tt, idt') ∧
    ∀ i, 0 ≤ i < 256 → int_get_handler i idt' = Done (handler_of h i, idt').
Proof.
  intros Hlen Hh. pose proof (idt_init_spec h idt Hlen) as ([] & idt' & Hs & _ & Hg)%wp_Done.
  exists idt'. split; [done|]. intros i Hi.
  assert (wp (int_get_handler i) (λ r idt'', r = handler_of h i ∧ idt'' = idt') idt')
    as (r & idt'' & Hr & -> & ->)%wp_Done; [|done].
  by apply (wp_get_handler _ _ (handler_of h i)); [lia|apply Hg|apply Hh|].
Qed.

Lemma idt_init_installs_witness :
  let h := Handlers 1 2 3 4 5 6 7 in
  ∃ idt', idt_init h (replicate 256 0) = Done (tt, idt') ∧
    ∀ i, 0 ≤ i < 256 → int_get_handler i idt' = Done (handler_of h i, idt').
Proof.
  intros h. apply idt_init_installs; [reflexivity|].
  intros i. unfold handler_of. simpl. repeat case_match; lia.
Defined.

Lemma cache_loop_other cpuid f r n b c c' :
  (∀ desc, forallb (λ a, negb (assigns f a)) (cache_desc_stmts desc) = true) →
  cache_loop cpuid r n b c = Some c' → c' f = c f.
Proof.
  intros Hf. revert n b c. induction r as [|r IH]; intros n b c; cbn [cache_loop].
  { by intros [= ->]. }
  rewrite desc_loop_spec. intros ->%IH. generalize (parsed_bytes b). intros l. revert c.
  induction l as [|d l IHl]; intros c; simpl; [done|]. rewrite IHl.
  unfold cache_desc_parse. by apply run_assigns_other.
Qed.

(** The size, associativity and line size of the second-level cache are
    never read from the processor: whatever [cpuid] reports, they keep the
    values [cpuid_parse] starts with, because the second-level descriptors
    write the first-level fields. *)
Theorem cpuid_l2_never_read cpuid info f :
  cpuid_parse cpuid = Some info → l2_field f = true →
  cache_tlb_data info f = default_cache f.
Proof.
  unfold cpuid_parse. intros Hp Hf.
  destruct (_ <? 1); [done|]. destruct (negb _); [done|].
  destruct (2 <? _).
  - destruct (cache_loop _ _ _ _ _) as [c|] eqn:Hc; [|done]. injection Hp as <-. simpl.
    eapply cache_loop_other; [|exact Hc]. intros desc. by apply cache_desc_l2.
  - by injection Hp as <-.
Qed.

(** A processor that reports a 2 MB second-level cache (descriptor 0x7d). *)
Definition big_l2 (n : nat) (leaf : Z) : regs :=
  if leaf =? 0 then (3, 0, 0, 0)
  else if leaf =? 1 then (0, 0, 0, CPU_REQUIRED)
  else (1, 0x7d00, 0, 0).

Lemma cpuid_l2_never_read_witness :
  ∃ info, cpuid_parse big_l2 = Some info ∧ cache_tlb_data info l2_dcache = 262144 ∧
          cache_tlb_data info l1_dcache = 2048 * 1024.
Proof.
  eexists. split; [reflexivity|]. split; [|vm_compute; reflexivity].
  apply (cpuid_l2_never_read big_l2); reflexivity.
Defined.

(** [cpuid_parse] panics exactly on processors without leaf 1 or without
    the features the kernel needs; on all others it terminates, whatever
    descriptors the processor reports. *)
Theorem cpuid_parse_panics cpuid :
  cpuid_parse cpuid = None ↔
  reg (cpuid 0%nat 0) 0 < 1 ∨ Z.land (reg (cpuid 1%nat 1) 3) CPU_REQUIRED ≠ CPU_REQUIRED.
Proof.
  unfold cpuid_parse. destruct (Z.ltb_spec (reg (cpuid 0%nat 0) 0) 1) as [Hm|Hm].
  { split; [by left|done]. }
  destruct (Z.eqb_spec (Z.land (reg (cpuid 1%nat 1) 3) CPU_REQUIRED) CPU_REQUIRED) as [Hf|Hf];
    simpl; [|split; [by right|done]].
  split; [|intros [|]; [lia|done]].
  destruct (2 <? _); [|done].
  match goal with |- context [cache_loop ?c ?r ?n ?b ?d] =>
    destruct (cache_loop_total c r n b d) as [? ->] end. done.
Qed.
