(* ===== verification/Util.v ===== *)
(** * Memory, strings, random numbers and boot-time allocation

    src/sys/util.c, include/util.h, src/sys/static_alloc.c and
    arch/sys/ia_32_util.c.  Memory is a function from addresses to bytes. *)

From S2P Require Import Prelude.
#[local] Open Scope Z_scope.

Definition mem : Type := Z → Z.

Definition read_byte (a : Z) : M mem Z := gets (λ m, m (u32 a)).
Definition write_byte (a v : Z) : M mem unit :=
  modify (λ m, λ b, if b =? u32 a then v else m b).

(** [for(i = n - 1; i >= 0; i--) body(i)] *)
Fixpoint for_downto {St} (n : nat) (body : Z → M St unit) : M St unit :=
  match n with
  | O => mret tt
  | S n' => body (Z.of_nat n');; for_downto n' body
  end.

(** ** Copying *)

(** The index is an [int]; from 2^31 on the loop of [memcpy_lo_hi] overflows
    it, and the one of [memcpy_hi_lo] starts below zero and copies nothing. *)
Definition memcpy_lo_hi (dst src size : Z) : M mem unit :=
  for_upto (Z.to_nat size) 0 (λ i, b ← read_byte (src + i); write_byte (dst + i) b).

Definition memcpy_hi_lo (dst src size : Z) : M mem unit :=
  for_downto (Z.to_nat (s32 (size - 1) + 1))
    (λ i, b ← read_byte (src + i); write_byte (dst + i) b).

Definition memcpy := memcpy_lo_hi.

Definition memmove (x y z : Z) : M mem unit :=
  if x <? y then memcpy_lo_hi x y z else memcpy_hi_lo x y z.

(** The loop bound is the value, not the size. *)
Definition memset (ptr val size : Z) : M mem unit :=
  for_upto (Z.to_nat val) 0 (λ i, write_byte (ptr + i) val).

(** ** Strings *)

(** A string of 16-bit characters up to its terminator; [None] is a read past
    the end of the memory that holds it. *)
Fixpoint strhash_from (out : Z) (s : list Z) : option Z :=
  match s with
  | [] => None
  | c :: s' => if c =? 0 then Some out else strhash_from (u32 (out + c)) s'
  end.

Definition strhash (s : list Z) : option Z := strhash_from 0 s.

(** ** Random numbers *)

Definition RAND_MOD : Z := 0xfffffffa.

Record rand_state := RandState {
  rand_seed : Z;
  rand_mutex : bool;
}.

Definition rand : M rand_state Z :=
  lock rand_mutex (λ b s, RandState (rand_seed s) b);;
  modify (λ s, RandState (u32 (rand_seed s * rand_seed s) mod RAND_MOD) (rand_mutex s));;
  out ← gets rand_seed;
  unlock (λ b s, RandState (rand_seed s) b);;
  mret out.

(** The variables are static, so they start as zero. *)
Definition rand_init : rand_state := RandState 0 false.

(** ** Boot-time allocation *)

Record static_state := StaticState {
  st_addr : Z;
  st_limit : Z;
  st_mem : mem;
}.

Section static_alloc.
(** [static_alloc_expand], an assembly routine, maps one more page and
    returns the new limit. *)
Variable static_alloc_expand : Z → Z.

Definition expand_step (_ : unit) : M static_state (unit + unit) :=
  a ← gets st_addr;
  l ← gets st_limit;
  if l <? a
  then modify (λ s, StaticState (st_addr s) (static_alloc_expand (st_limit s)) (st_mem s));;
       mret (Continue tt)
  else mret (Break tt).

Definition static_alloc (fuel : nat) (size align : Z) : M static_state Z :=
  a ← gets st_addr;
  let out := u32 ((u32 (a - 1) / align + 1) * align) in
  modify (λ s, StaticState (u32 (out + size)) (st_limit s) (st_mem s));;
  loop fuel expand_step tt;;
  zoom st_mem (λ m s, StaticState (st_addr s) (st_limit s) m) (memset out 0 size);;
  mret out.
End static_alloc.

Definition static_alloc_init (ptr lim : Z) : M static_state unit :=
  modify (λ s, StaticState ptr lim (st_mem s)).

(** ** Copying physical pages (arch/sys/ia_32_util.c) *)

(** The calls the two functions make, with the virtual addresses of the
    processor's window pages. *)
Inductive phys_call :=
| KernPageMap (virt : ptr) (phys : Z)
| Memcpy (dst src : ptr) (n : Z)
| Memset (dst : ptr) (val n : Z).

Definition UTIL_PAGE_SIZE : Z := 0x1000.

Fixpoint phys_memcpy_from (fuel : nat) (i window dst src size : Z) : list phys_call :=
  match fuel with
  | O => []
  | S f =>
      if i <? size then
        KernPageMap window (u32 (src + i * UTIL_PAGE_SIZE)) ::
        KernPageMap (window + UTIL_PAGE_SIZE) (u32 (dst + i * UTIL_PAGE_SIZE)) ::
        Memcpy (window + UTIL_PAGE_SIZE) window
               (if size <? UTIL_PAGE_SIZE then size else UTIL_PAGE_SIZE) ::
        phys_memcpy_from f (i + UTIL_PAGE_SIZE) window dst src size
      else []
  end.

Definition phys_memcpy (window dst src size : Z) : list phys_call :=
  phys_memcpy_from (S (Z.to_nat (size / UTIL_PAGE_SIZE))) 0 window dst src size.

Fixpoint phys_memset_from (fuel : nat) (i window dst val size : Z) : list phys_call :=
  match fuel with
  | O => []
  | S f =>
      if i <? size then
        KernPageMap window (u32 (dst + i * UTIL_PAGE_SIZE)) ::
        Memset window val (if size <? UTIL_PAGE_SIZE then size else UTIL_PAGE_SIZE) ::
        phys_memset_from f (i + UTIL_PAGE_SIZE) window dst val size
      else []
  end.

Definition phys_memset (window dst val size : Z) : list phys_call :=
  phys_memset_from (S (Z.to_nat (size / UTIL_PAGE_SIZE))) 0 window dst val size.

(** ** Correctness *)

(** [n] bytes at [p] that do not wrap around. *)
Definition in_range (p n : Z) : Prop := 0 ≤ p ∧ p + n ≤ 2 ^ 32.

(** The memory in which the bytes [[a, a + n)] are those that [m] has at [b]. *)
Definition copied (m : mem) (a b n : Z) (m' : mem) : Prop :=
  ∀ c, m' c = if (a <=? c) && (c <? a + n) then m (b + (c - a)) else m c.

Lemma wp_copy_byte (dst src i : Z) (m : mem) (Q : unit → mem → Prop) :
  0 ≤ dst + i < 2 ^ 32 → 0 ≤ src + i < 2 ^ 32 →
  Q tt (λ c, if c =? dst + i then m (src + i) else m c) →
  wp (b ← read_byte (src + i); write_byte (dst + i) b) Q m.
Proof.
  intros Hd Hs HQ. apply wp_bind, wp_gets, wp_modify.
  rewrite (u32_small (src + i)), (u32_small (dst + i)) by lia. exact HQ.
Qed.

(** Going up is right when the destination does not come after the source. *)
Lemma memcpy_lo_hi_spec dst src size m :
  in_range dst size → in_range src size → 0 ≤ size →
  dst ≤ src ∨ src + size ≤ dst →
  wp (memcpy_lo_hi dst src size) (λ _ m', copied m dst src size m') m.
Proof.
  intros [Hd Hde] [Hs Hse] Hn Hov. unfold memcpy_lo_hi. eapply wp_mono.
  { apply (wp_for_upto (λ i m', copied m dst src i m')).
    - intros i m1 Hi H1. apply wp_copy_byte; [lia|lia|].
      intros c. destruct (Z.eqb_spec c (dst + i)) as [->|Hne].
      + rewrite (proj2 (Z.leb_le dst _)), (proj2 (Z.ltb_lt (dst + i) _)) by lia. simpl.
        rewrite H1. replace (src + (dst + i - dst)) with (src + i) by lia.
        destruct ((dst <=? src + i) && (src + i <? dst + i)) eqn:Hin; [lia|done].
      + rewrite H1. destruct (Z.leb_spec dst c), (Z.ltb_spec c (dst + i)),
          (Z.ltb_spec c (dst + (i + 1))); done || lia.
    - intros c. rewrite Z.add_0_r. destruct (Z.leb_spec dst c), (Z.ltb_spec c dst); done || lia. }
  intros [] m' H. cbn beta in H. rewrite Z.add_0_l, Z2Nat.id in H by lia. exact H.
Qed.

Lemma wp_for_downto {St} (I : Z → St → Prop) (body : Z → M St unit) n s :
  (∀ j s, 0 ≤ j < Z.of_nat n → I (j + 1) s → wp (body j) (λ _ s', I j s') s) →
  I (Z.of_nat n) s → wp (for_downto n body) (λ _ s', I 0 s') s.
Proof.
  revert s. induction n as [|n IH]; intros s Hbody HI; [done|].
  apply wp_bind. eapply wp_mono; [apply Hbody; [lia|]|].
  - by replace (Z.of_nat n + 1) with (Z.of_nat (S n)) by lia.
  - intros [] s'. apply IH. intros j s1 Hj. apply Hbody. lia.
Qed.

(** Going down is right when the destination does not come before the source. *)
Lemma memcpy_hi_lo_spec dst src size m :
  in_range dst size → in_range src size → 0 ≤ size < 2 ^ 31 →
  src ≤ dst ∨ dst + size ≤ src →
  wp (memcpy_hi_lo dst src size) (λ _ m', copied m dst src size m') m.
Proof.
  intros [Hd Hde] [Hs Hse] Hn Hov. unfold memcpy_hi_lo.
  assert (s32 (size - 1) + 1 = size) as ->.
  { destruct (decide (size = 0)) as [->|]; [done|]. rewrite s32_small; lia. }
  eapply wp_mono.
  { apply (wp_for_downto (λ i m', copied m (dst + i) (src + i) (size - i) m')).
    - intros i m1 Hi H1. apply wp_copy_byte; [lia|lia|].
      intros c. destruct (Z.eqb_spec c (dst + i)) as [->|Hne].
      + rewrite (proj2 (Z.leb_le (dst + i) _)), (proj2 (Z.ltb_lt (dst + i) _)) by lia. simpl.
        rewrite H1. replace (src + i + (dst + i - (dst + i))) with (src + i) by lia.
        destruct ((dst + (i + 1) <=? src + i) && _) eqn:Hin; [lia|done].
      + rewrite H1.
        replace (src + (i + 1) + (c - (dst + (i + 1)))) with (src + i + (c - (dst + i))) by lia.
        destruct (Z.leb_spec (dst + (i + 1)) c), (Z.leb_spec (dst + i) c),
          (Z.ltb_spec c (dst + (i + 1) + (size - (i + 1)))),
          (Z.ltb_spec c (dst + i + (size - i))); done || lia.
    - intros c. destruct (Z.leb_spec (dst + Z.of_nat (Z.to_nat size)) c),
        (Z.ltb_spec c (dst + Z.of_nat (Z.to_nat size) + (size - Z.of_nat (Z.to_nat size))));
        done || lia. }
  intros [] m' H. cbn beta in H. by rewrite !Z.add_0_r, Z.sub_0_r in H.
Qed.

Lemma memmove_spec x y n m :
  in_range x n → in_range y n → 0 ≤ n < 2 ^ 31 →
  wp (memmove x y n) (λ _ m', copied m x y n m') m.
Proof.
  intros Hx Hy Hn. unfold memmove. destruct (Z.ltb_spec x y).
  - apply memcpy_lo_hi_spec; [done|done|lia|lia].
  - apply memcpy_hi_lo_spec; [done|done|lia|lia].
Qed.

(** [memset] writes as many bytes as its value says, whatever its size. *)
Lemma memset_spec ptr val size m :
  0 ≤ ptr → ptr + val ≤ 2 ^ 32 → 0 ≤ val < 256 →
  wp (memset ptr val size)
     (λ _ m', ∀ c, m' c = if (ptr <=? c) && (c <? ptr + val) then val else m c) m.
Proof.
  intros Hp He Hv. unfold memset. eapply wp_mono.
  { apply (wp_for_upto (λ i (m' : mem), ∀ c, m' c =
      if (ptr <=? c) && (c <? ptr + i) then val else m c)).
    - intros i m1 Hi H1. apply wp_modify. intros c. rewrite u32_small by lia.
      destruct (Z.eqb_spec c (ptr + i)) as [->|Hne].
      + by rewrite (proj2 (Z.leb_le ptr _)), (proj2 (Z.ltb_lt (ptr + i) _)) by lia.
      + rewrite H1. destruct (Z.leb_spec ptr c), (Z.ltb_spec c (ptr + i)),
          (Z.ltb_spec c (ptr + (i + 1))); done || lia.
    - intros c. rewrite Z.add_0_r. destruct (Z.leb_spec ptr c), (Z.ltb_spec c ptr); done || lia. }
  intros [] m' H c. cbn beta in H. rewrite H, Z.add_0_l, Z2Nat.id by lia. done.
Qed.

Lemma strhash_from_app out s s' :
  Forall (λ c, c ≠ 0) s → 0 ≤ out < 2 ^ 32 →
  strhash_from out (s ++ 0 :: s') = Some (u32 (out + foldr Z.add 0 s)).
Proof.
  intros Hs. revert out. induction Hs as [|c s Hc Hs IH]; intros out Ho; simpl.
  - by rewrite Z.add_0_r, u32_small.
  - rewrite (proj2 (Z.eqb_neq c 0)) by done. rewrite IH by apply u32_range.
    f_equal. unfold u32. rewrite Zplus_mod_idemp_l. f_equal. lia.
Qed.

Lemma rand_spec s :
  rand_mutex s = false →
  rand s = Done (u32 (rand_seed s * rand_seed s) mod RAND_MOD,
                 RandState (u32 (rand_seed s * rand_seed s) mod RAND_MOD) false).
Proof. intros Hm. unfold rand, lock, mbind, M_bind. by rewrite Hm. Qed.

(** A draw by a component that keeps the state of the random numbers. *)
Lemma zoom_rand_zero {St} (get : St → rand_state) put s :
  get s = rand_init → put rand_init s = s → zoom get put rand s = Done (0, s).
Proof. intros Hg Hp. unfold zoom. rewrite Hg, rand_spec by done. by change (RandState _ false) with rand_init; rewrite Hp. Qed.

(** Any number of draws from the seed the kernel starts with. *)
Fixpoint rand_draws (n : nat) : M rand_state (list Z) :=
  match n with
  | O => mret []
  | S n' => x ← rand; xs ← rand_draws n'; mret (x :: xs)
  end.

Lemma rand_draws_zero n : rand_draws n rand_init = Done (replicate n 0, rand_init).
Proof.
  induction n as [|n IH]; [done|]. cbn [rand_draws replicate]. unfold mbind, M_bind in *.
  rewrite rand_spec by done. change (RandState _ false) with rand_init. by rewrite IH.
Qed.

(** The next multiple of [align]. *)
Definition round_up_to (a align : Z) : Z := ((a - 1) / align + 1) * align.

Lemma round_up_to_spec a align :
  0 < align → (align | round_up_to a align) ∧ a ≤ round_up_to a align < a + align.
Proof.
  intros Ha. unfold round_up_to. split; [by eexists|].
  pose proof (Z.div_mod (a - 1) align). pose proof (Z.mod_pos_bound (a - 1) align). nia.
Qed.

Lemma static_alloc_spec expand fuel size align s :
  0 < st_addr s → 0 < align → 0 ≤ size →
  round_up_to (st_addr s) align + size ≤ st_limit s → st_limit s < 2 ^ 32 →
  wp (static_alloc expand (S fuel) size align)
     (λ r s', r = round_up_to (st_addr s) align ∧ st_addr s' = r + size ∧
        st_limit s' = st_limit s ∧ ∀ c, st_mem s' c = st_mem s c) s.
Proof.
  intros Hp Ha Hsz Hlim Hl32. destruct (round_up_to_spec (st_addr s) align Ha) as [_ Hb].
  apply wp_bind, wp_gets. cbv zeta. rewrite (u32_small (st_addr s - 1)) by lia.
  fold (round_up_to (st_addr s) align). set (out := round_up_to (st_addr s) align) in *.
  rewrite (u32_small out) by lia. rewrite (u32_small (out + size)) by lia.
  apply wp_bind, wp_modify, wp_bind, wp_bind, wp_bind, wp_gets, wp_bind, wp_gets. simpl.
  rewrite (proj2 (Z.ltb_ge (st_limit s) (out + size))) by lia.
  apply wp_ret, wp_ret, wp_bind, wp_zoom. eapply wp_mono; [by apply memset_spec; lia|].
  intros [] m Hm. cbn beta in Hm. apply wp_ret. split_and!; [done..|].
  intros c. simpl. rewrite Hm. destruct (Z.leb_spec out c), (Z.ltb_spec c (out + 0)); done || lia.
Qed.

(** One round copies everything that fits into a page. *)
Lemma phys_memcpy_small window dst src size :
  0 < size ≤ UTIL_PAGE_SIZE →
  phys_memcpy window dst src size =
    [KernPageMap window (u32 src); KernPageMap (window + UTIL_PAGE_SIZE) (u32 dst);
     Memcpy (window + UTIL_PAGE_SIZE) window size].
Proof.
  intros Hs. unfold phys_memcpy. cbn [phys_memcpy_from].
  rewrite (proj2 (Z.ltb_lt 0 size)), Z.mul_0_l, !Z.add_0_r by lia.
  assert ((if size <? UTIL_PAGE_SIZE then size else UTIL_PAGE_SIZE) = size) as ->.
  { destruct (Z.ltb_spec size UTIL_PAGE_SIZE); lia. }
  do 3 f_equal. destruct (Z.to_nat _); simpl; [done|].
  rewrite Z.add_0_l, (proj2 (Z.ltb_ge UTIL_PAGE_SIZE size)) by lia. done.
Qed.

(** ** Properties *)

(** [memmove] copies correctly between overlapping ranges: afterwards the
    destination holds what the source held before, and every other byte is as
    it was (for fewer than 2^31 bytes, the range of the index). *)
Theorem memmove_copies x y n m :
  in_range x n → in_range y n → 0 ≤ n < 2 ^ 31 →
  ∃ m', memmove x y n m = Done (tt, m') ∧
    (∀ i, 0 ≤ i < n → m' (x + i) = m (y + i)) ∧
    (∀ c, c < x ∨ x + n ≤ c → m' c = m c).
Proof.
  intros Hx Hy Hn. pose proof (memmove_spec x y n m Hx Hy Hn) as ([] & m' & Hm & H)%wp_Done.
  exists m'. split; [done|]. split.
  - intros i Hi. rewrite H, (proj2 (Z.leb_le x _)), (proj2 (Z.ltb_lt (x + i) _)) by lia. simpl.
    f_equal. lia.
  - intros c Hc. rewrite H. destruct (Z.leb_spec x c), (Z.ltb_spec c (x + n)); done || lia.
Qed.

Lemma memmove_copies_witness :
  ∃ m', memmove 12 10 4 (λ a, a) = Done (tt, m') ∧
    (∀ i, 0 ≤ i < 4 → m' (12 + i) = 10 + i) ∧ (∀ c, c < 12 ∨ 12 + 4 ≤ c → m' c = c).
Proof. apply (memmove_copies 12 10 4 (λ a, a)); unfold in_range; lia. Defined.

(** [memset] ignores its size: it writes as many bytes as the value says,
    so that clearing memory writes nothing. *)
Theorem memset_ignores_size ptr val size m :
  0 ≤ ptr → ptr + val ≤ 2 ^ 32 → 0 ≤ val < 256 →
  ∃ m', memset ptr val size m = Done (tt, m') ∧
    ∀ c, m' c = if (ptr <=? c) && (c <? ptr + val) then val else m c.
Proof.
  intros Hp He Hv. pose proof (memset_spec ptr val size m Hp He Hv) as ([] & m' & Hm & H)%wp_Done.
  eauto.
Qed.

Lemma memset_ignores_size_witness :
  ∃ m', memset 100 0 64 (λ _, 7) = Done (tt, m') ∧
    ∀ c, m' c = if (100 <=? c) && (c <? 100 + 0) then 0 else 7.
Proof. apply (memset_ignores_size 100 0 64 (λ _, 7)); lia. Defined.

(** [static_alloc] hands out aligned, consecutive memory: the address is the
    first multiple of the alignment from the current position on, and the next
    allocation starts behind the block (as long as no page has to be added). *)
Theorem static_alloc_aligned expand fuel size align s :
  0 < st_addr s → 0 < align → 0 ≤ size →
  round_up_to (st_addr s) align + size ≤ st_limit s → st_limit s < 2 ^ 32 →
  ∃ r s', static_alloc expand (S fuel) size align s = Done (r, s') ∧
    (align | r) ∧ st_addr s ≤ r < st_addr s + align ∧ st_addr s' = r + size ∧
    st_limit s' = st_limit s.
Proof.
  intros Hp Ha Hsz Hlim Hl.
  pose proof (static_alloc_spec expand fuel size align s Hp Ha Hsz Hlim Hl)
    as (r & s' & Hs & -> & Hr & Hl' & _)%wp_Done.
  exists (round_up_to (st_addr s) align), s'.
  destruct (round_up_to_spec (st_addr s) align Ha). split_and!; done || lia.
Qed.

Lemma static_alloc_aligned_witness :
  let s := StaticState 1001 5000 (λ _, 0) in
  ∃ r s', static_alloc (λ l, l + 4096) 1 100 16 s = Done (r, s') ∧
    (16 | r) ∧ 1001 ≤ r < 1001 + 16 ∧ st_addr s' = r + 100 ∧ st_limit s' = 5000.
Proof.
  intros s. apply (static_alloc_aligned (λ l, l + 4096) 0 100 16 s); simpl; try lia.
  by vm_compute.
Defined.

(** The random numbers of the kernel are all zero: the seed is never set, and
    zero is a fixed point of the generator. *)
Theorem rand_always_zero n :
  ∃ s, rand_draws n rand_init = Done (replicate n 0, s).
Proof. rewrite rand_draws_zero. eauto. Qed.

(** Copying more than one physical page goes astray: the second round maps
    the page 16 MB behind the first one and not the next one, since the byte
    offset is multiplied by the page size again. *)
Theorem phys_memcpy_second_page window dst src :
  phys_memcpy window dst src (2 * UTIL_PAGE_SIZE) =
    [KernPageMap window (u32 src);
     KernPageMap (window + UTIL_PAGE_SIZE) (u32 dst);
     Memcpy (window + UTIL_PAGE_SIZE) window UTIL_PAGE_SIZE;
     KernPageMap window (u32 (src + 2 ^ 24));
     KernPageMap (window + UTIL_PAGE_SIZE) (u32 (dst + 2 ^ 24));
     Memcpy (window + UTIL_PAGE_SIZE) window UTIL_PAGE_SIZE].
Proof.
  change (phys_memcpy window dst src (2 * UTIL_PAGE_SIZE)) with
    [KernPageMap window (u32 (src + 0));
     KernPageMap (window + UTIL_PAGE_SIZE) (u32 (dst + 0));
     Memcpy (window + UTIL_PAGE_SIZE) window UTIL_PAGE_SIZE;
     KernPageMap window (u32 (src + 2 ^ 24));
     KernPageMap (window + UTIL_PAGE_SIZE) (u32 (dst + 2 ^ 24));
     Memcpy (window + UTIL_PAGE_SIZE) window UTIL_PAGE_SIZE].
  by rewrite !Z.add_0_r.
Qed.
