(* ===== verification/ThreadTable.v ===== *)
(** * The thread table (src/sched/thread_table.c)

    Threads by identifier, in an instance of the hash table template.  The
    control block has its identifier in [stat], which the file reads as
    [thread->id]; the mutex of the file is a lock.  Identifiers come from the
    random numbers of [Util], blocks from the allocator interface. *)

From S2P Require Import Prelude HashTable MallocSpec Alloc Thread Util.
#[local] Open Scope Z_scope.

Definition THREAD_HASH_TABLE_SIZE : Z := 65535.

(** [th_nodes] are the control blocks, [th_slots] is the array [hash_table]. *)
Record ttstate (T : Type) := TTState {
  th_nodes : gmap ptr thread_t;
  th_slots : gmap Z ptr;
  th_mutex : bool;
  th_rand : rand_state;
  th_alloc : T;
}.
Arguments TTState {T}.
Arguments th_nodes {T}.
Arguments th_slots {T}.
Arguments th_mutex {T}.
Arguments th_rand {T}.
Arguments th_alloc {T}.

Section setters.
Context {T : Type}.
Implicit Types s : ttstate T.

Definition set_th_nodes m s : ttstate T := TTState m (th_slots s) (th_mutex s) (th_rand s) (th_alloc s).
Definition set_th_slots m s : ttstate T := TTState (th_nodes s) m (th_mutex s) (th_rand s) (th_alloc s).
Definition set_th_mutex b s : ttstate T := TTState (th_nodes s) (th_slots s) b (th_rand s) (th_alloc s).
Definition set_th_rand r s : ttstate T := TTState (th_nodes s) (th_slots s) (th_mutex s) r (th_alloc s).
Definition set_th_alloc a s : ttstate T := TTState (th_nodes s) (th_slots s) (th_mutex s) (th_rand s) a.

(** [STAT_HASH_TABLE(thread, static inline, thread_t*, unsigned int, ...)] *)
Definition thread_hash_table : hash_ops (ttstate T) Z :=
  node_table th_nodes set_th_nodes (λ s i, default NULL (th_slots s !! i))
    (λ i p s, set_th_slots (<[i := p]> (th_slots s)) s) thash_next set_thash_next
    (λ _ x, Some (st_id (stat x))) Z.eqb (λ _ k, Some k) THREAD_HASH_TABLE_SIZE.

Definition thread_table_lookup (id : Z) : M (ttstate T) ptr :=
  lock th_mutex set_th_mutex;;
  out ← hash_table_lookup thread_hash_table id;
  unlock set_th_mutex;;
  mret out.

Definition thread_rand : M (ttstate T) Z := zoom th_rand set_th_rand rand.

(** [while(NULL != lookup(id)) { unlock; id = rand(); lock; }] *)
Definition thread_id_step (id : Z) : M (ttstate T) (Z + Z) :=
  p ← hash_table_lookup thread_hash_table id;
  if negb (p =? NULL) then
    unlock set_th_mutex;;
    id ← thread_rand;
    lock th_mutex set_th_mutex;;
    mret (Continue id)
  else mret (Break id).

(** [thread->id = id] *)
Definition set_thread_id (thread : ptr) (id : Z) : M (ttstate T) unit :=
  putopt (λ s, x ← th_nodes s !! thread;
    Some (set_th_nodes (<[thread := on_stat (set_st_id id) x]> (th_nodes s)) s)).

Definition thread_table_insert (fuel : nat) (thread : ptr) : M (ttstate T) unit :=
  id ← thread_rand;
  lock th_mutex set_th_mutex;;
  id ← loop fuel thread_id_step id;
  set_thread_id thread id;;
  _ ← hash_table_insert thread_hash_table thread;
  unlock set_th_mutex.

(** [free(thread)]: the control block is gone. *)
Definition free_thread (A : allocator T) (thread : ptr) : M (ttstate T) unit :=
  zoom th_alloc set_th_alloc (al_free A thread);;
  modify (λ s, set_th_nodes (delete thread (th_nodes s)) s).

Definition thread_table_delete (A : allocator T) (id : Z) : M (ttstate T) unit :=
  lock th_mutex set_th_mutex;;
  thread ← hash_table_lookup thread_hash_table id;
  free_thread A thread;;
  unlock set_th_mutex.
End setters.

(** ** The table as an instance of the template *)

Global Instance thread_lens T : LensOk (@th_nodes T) set_th_nodes.
Proof. by split; intros; destruct s. Qed.

Global Instance thread_node_table T :
  NodeTable (@th_nodes T) set_th_nodes (λ s i, default NULL (th_slots s !! i))
    (λ i p s, set_th_slots (<[i := p]> (th_slots s)) s) thash_next set_thash_next
    (λ _ x, Some (st_id (stat x))) (λ _ k, Some k) THREAD_HASH_TABLE_SIZE.
Proof.
  split; simpl; try done; [by intros; rewrite lookup_insert_eq|by intros; rewrite lookup_insert_ne].
Qed.

Global Instance thread_hash_ok T : HashOk (@thread_hash_table T).
Proof. apply node_table_ok, _. Qed.

Global Instance thread_hash_eq T : HashEq (@thread_hash_table T).
Proof. intros a b. apply Z.eqb_eq. Qed.

Lemma thread_index {T} (s : ttstate T) id : is_Some (index_of thread_hash_table s id).
Proof. has_bucket. by eexists. Qed.

(** Linking does not touch the mutex, the allocator and the random numbers. *)
Definition thread_rest {T} (s : ttstate T) := (th_mutex s, th_rand s, th_alloc s).
Global Instance thread_rest_frame T : HashFrame thread_hash_table (@thread_rest T).
Proof. by apply node_table_frame. Qed.

Section table.
Context {T : Type}.
Implicit Types s : ttstate T.

(** The table between two calls: [m] are the threads by identifier. *)
Record tt_inv s (m : gmap Z ptr) : Prop := {
  tt_table : refines_map thread_hash_table s m;
  tt_mutex : th_mutex s = false;
  tt_rand : th_rand s = rand_init;
}.

Lemma thread_table_lock b s m :
  refines_map thread_hash_table s m → refines_map thread_hash_table (set_th_mutex b s) m.
Proof. intros Hm. by eapply refines_frame. Qed.

Lemma set_th_mutex_same s b : th_mutex s = b → set_th_mutex b (set_th_mutex true s) = s.
Proof. destruct s; simpl. by intros <-. Qed.

Lemma thread_lookup_spec s m id :
  tt_inv s m → thread_table_lookup id s = Done (default NULL (m !! id), s).
Proof.
  intros [Hm Hl Hr]. apply run_wp. apply wp_bind, wp_lock; [done|].
  apply wp_bind. eapply wp_mono; [apply (lookup_refines _ _ m id); [by apply thread_table_lock|by apply thread_index]|].
  intros p s' [-> ->]. apply wp_bind, wp_unlock, wp_ret. split; [done|]. by apply set_th_mutex_same.
Qed.

Lemma thread_rand_zero s : th_rand s = rand_init → thread_rand s = Done (0, s).
Proof. intros Hr. apply zoom_rand_zero; [done|]. destruct s; simpl in *. by subst. Qed.

(** With the mutex held, looking for an unused identifier from 0. *)
Lemma thread_id_first fuel s m :
  refines_map thread_hash_table s m → m !! 0 = None → (0 < fuel)%nat →
  loop fuel thread_id_step 0 s = Done (0, s).
Proof.
  intros Hm H0 Hf. destruct fuel as [|fuel]; [lia|]. apply run_wp. apply wp_bind, wp_bind.
  eapply wp_mono; [by apply (lookup_refines _ _ m 0); [exact Hm|eexists]|].
  intros p s' [-> ->]. rewrite H0. by apply wp_ret, wp_ret.
Qed.

Lemma thread_id_hangs fuel s m r :
  refines_map thread_hash_table s m → th_mutex s = true → th_rand s = rand_init → is_Some (m !! 0) →
  loop fuel thread_id_step 0 s ≠ Done r.
Proof.
  intros Hm Hl Hr [q Hq]. induction fuel as [|fuel IH]; [done|]. simpl.
  assert (thread_id_step 0 s = Done (inl 0, s)) as Hstep.
  { apply run_wp. apply wp_bind. eapply wp_mono; [by apply (lookup_refines _ _ m 0); [exact Hm|eexists]|].
    intros p s' [-> ->]. rewrite Hq. simpl default.
    destruct (refines_node _ _ _ _ _ Hm Hq) as (Hqn & _ & _).
    rewrite (proj2 (Z.eqb_neq q NULL) Hqn). simpl negb. cbv iota.
    apply wp_bind, wp_unlock, wp_bind. unfold wp at 1. rewrite thread_rand_zero by done.
    apply wp_bind, wp_lock; [done|]. apply wp_ret. split; [done|].
    destruct s; simpl in *. by subst. }
  unfold mbind, M_bind. by rewrite Hstep.
Qed.

(** The insertion of a thread the table does not hold. *)
Lemma thread_insert_first fuel s m thread x :
  tt_inv s m → m !! 0 = None → (∀ k, m !! k ≠ Some thread) →
  thread ≠ NULL → th_nodes s !! thread = Some x → (0 < fuel)%nat →
  wp (thread_table_insert fuel thread) (λ _ s', tt_inv s' (<[0 := thread]> m)) s.
Proof.
  intros [Hm Hl Hr] H0 Hnew Hnn Hx Hf. apply wp_bind. unfold wp at 1.
  rewrite thread_rand_zero by done. apply wp_bind, wp_lock; [done|].
  apply wp_bind. unfold wp at 1. erewrite thread_id_first; [|by apply thread_table_lock|done|done].
  apply wp_bind. eapply wp_putopt; [simpl; by rewrite Hx|].
  set (s1 := set_th_nodes _ _). assert (refines_map thread_hash_table s1 m) as Hm1.
  { eapply refines_frame; [exact Hm|done| |done]. intros k q Hq. simpl.
    rewrite lookup_insert_ne; [done|]. intros <-. by apply (Hnew k). }
  apply wp_bind. eapply wp_mono.
  { apply (insert_refines _ s1 m thread 0); simpl; rewrite ?lookup_insert_eq; eauto. }
  intros k s2 (_ & Ho & _ & Hm2). pose proof (Ho _ _ (thread_rest_frame T)) as Hrest.
  injection Hrest as Hl2 Hr2 _. apply wp_unlock. split; [by apply thread_table_lock|done|by simpl; rewrite Hr2].
Qed.

Lemma thread_insert_hangs fuel s m thread r :
  tt_inv s m → is_Some (m !! 0) → thread_table_insert fuel thread s ≠ Done r.
Proof.
  intros [Hm Hl Hr] H0. destruct r as [r s']. revert r s'.
  enough (wlp (thread_table_insert fuel thread) (λ _ _, False) s) as H by (intros r s' Hs; by apply (H r s')).
  apply wlp_bind. intros id s1. rewrite thread_rand_zero by done. intros [= <- <-].
  apply wlp_bind, wlp_lock. intros _. apply wlp_bind. intros id s1 Hloop. exfalso.
  eapply (thread_id_hangs fuel (set_th_mutex true s)); [by apply thread_table_lock|done|done|done|exact Hloop].
Qed.
End table.

Section deletion.
Context {T : Type} (A : allocator T) (inv : T → gmap ptr Z → Prop) `{!AllocatorOk A inv}.
Implicit Types s : ttstate T.

(** A search that reaches a block without a control block in it. *)
Lemma lookup_reaches_hole s s' key l curr p fuel :
  chain (ht_next thread_hash_table) s curr l → th_nodes s' = delete p (th_nodes s) →
  find_node thread_hash_table s key l = p → p ≠ NULL → (length l ≤ fuel)%nat →
  loop fuel (lookup_step thread_hash_table key) curr s' = Fault.
Proof.
  intros Hc Hs' Hp Hpn Hf. pose proof (chain_NoDup _ _ _ _ Hc) as Hnd.
  revert curr fuel Hc Hp Hf. induction l as [|x l IH]; intros curr [|fuel] Hc Hp Hf; simpl in Hf, Hp;
    [by subst|by subst|lia|].
  destruct Hc as (-> & Hx & q & Hq & Hc). inversion Hnd as [|?? Hxl Hnd']; subst x0 l0.
  unfold matches in Hp. simpl in Hq, Hp. destruct (th_nodes s !! x) as [n|] eqn:Hn; [|done].
  simpl in Hp. cbn [loop]. destruct (Z.eqb_spec (st_id (stat n)) key) as [Hk|Hk].
  - apply fault_bind. unfold lookup_step. rewrite (proj2 (Z.eqb_neq _ _) Hx). apply fault_bind.
    unfold getopt. simpl. by rewrite Hs', Hp, lookup_delete_eq.
  - assert (p ≠ x) as Hpx.
    { intros ->. destruct (find_node_match thread_hash_table s key l) as [[Hno _]|[Hin _]]; congruence. }
    assert (th_nodes s' !! x = Some n) as Hn' by (by rewrite Hs', lookup_delete_ne).
    apply bind_out. unfold lookup_step. rewrite (proj2 (Z.eqb_neq _ _) Hx).
    apply wp_bind, (wp_getopt _ (st_id (stat n))); [simpl; by rewrite Hn'|]. simpl ht_eq.
    rewrite (proj2 (Z.eqb_neq _ _) Hk). apply wp_bind, wp_load with q; [simpl; by rewrite Hn'|].
    apply wp_ret. apply IH; [done..|lia].
Qed.

Lemma thread_delete_spec s m live id p c :
  tt_inv s m → inv (th_alloc s) live → m !! id = Some p → live !! p = Some c →
  wp (thread_table_delete A id) (λ _ s', th_nodes s' = delete p (th_nodes s) ∧ th_slots s' = th_slots s ∧
    th_mutex s' = false ∧ inv (th_alloc s') (delete p live)) s.
Proof.
  intros [Hm Hl Hr] Hi Hp Hc. apply wp_bind, wp_lock; [done|]. apply wp_bind. eapply wp_mono.
  { apply (lookup_refines _ _ m id); [by apply thread_table_lock|by apply thread_index]. }
  intros q s1 [-> ->]. rewrite Hp. apply wp_bind, wp_bind, wp_zoom. simpl default.
  eapply wp_mono; [by eapply (al_free_ok (A:=A))|]. intros [] a Ha. apply wp_modify, wp_unlock. done.
Qed.

Lemma thread_lookup_hole s s' m id p :
  tt_inv s m → m !! id = Some p → th_nodes s' = delete p (th_nodes s) → th_slots s' = th_slots s →
  hash_table_lookup thread_hash_table id s' = Fault.
Proof.
  intros [Hm Hl Hr] Hp Hn Hs. destruct (refines_node _ _ _ _ _ Hm Hp) as (Hpn & [v Hv] & _).
  destruct Hm as (L & HL & HLm). destruct (thread_index s id) as [b Hbi].
  pose proof (index_range thread_hash_table _ _ _ Hbi) as Hb.
  apply bind_out. eapply wp_hash_index; [exact Hbi|]. apply bind_out, wp_gets, bind_out, wp_gets.
  eapply (lookup_reaches_hole s s' id (L b) _ p).
  - simpl. rewrite Hs. by apply HL.
  - exact Hn.
  - rewrite (refines_find _ s L m id b) by done. by rewrite Hp.
  - done.
  - pose proof (buckets_fuel thread_hash_table s L _ HL Hb) as Hf. simpl in Hf. simpl. rewrite Hn.
    rewrite map_size_delete_Some; [lia|]. simpl in Hv. destruct (th_nodes s !! p); [eauto|done].
Qed.
End deletion.

(** One control block from the kernel heap, not in the table and in it. *)
Definition one_thread_heap : astate :=
  match malloc 700 (AState one_block ∅) with Done (_, w) => w | _ => AState one_block ∅ end.
Definition unlinked_thread : ttstate astate :=
  TTState {[524292 := thread_zero]} ∅ false rand_init one_thread_heap.
Definition linked_thread : ttstate astate :=
  TTState {[524292 := thread_zero]} {[0 := 524292]} false rand_init one_thread_heap.

Lemma unlinked_thread_inv : tt_inv unlinked_thread ∅.
Proof. split; [by apply (refines_empty thread_hash_table)|done|done]. Qed.

Lemma linked_thread_inv : tt_inv linked_thread {[0 := 524292]}.
Proof.
  split; [|done|done]. apply (refines_singleton thread_hash_table linked_thread 0 524292 0); [done..|].
  intros i. simpl.
  case_decide as Hi; [by rewrite Hi|]. by rewrite lookup_singleton_ne by congruence.
Qed.

Lemma one_thread_live : ∃ c, alloc_inv one_thread_heap {[524292 := c]}.
Proof.
  assert (∃ w, malloc 700 (AState one_block ∅) = Done (524292, w) ∧ one_thread_heap = w) as (w & H & ->).
  { eexists. split; vm_compute; reflexivity. }
  destruct (malloc_fresh_block _ _ 700 fresh_allocator) as (p & t' & Hp & Hres); [lia|].
  rewrite H in Hp. injection Hp as <- <-. destruct Hres as [[]|(_ & c & _ & Hi & _)]; [done|by exists c].
Qed.

(** ** Properties *)

(** C39: the table takes one thread.  The first insertion gives the thread the
    identifier 0, under which it is then found; every random number is zero, so
    no later insertion ever returns. *)
Theorem thread_table_insert_once {T} (s : ttstate T) m thread x fuel :
  tt_inv s m → m !! 0 = None → (∀ k, m !! k ≠ Some thread) →
  thread ≠ NULL → th_nodes s !! thread = Some x → (0 < fuel)%nat →
  ∃ s1, thread_table_insert fuel thread s = Done (tt, s1) ∧ tt_inv s1 (<[0 := thread]> m) ∧
    thread_table_lookup 0 s1 = Done (thread, s1) ∧
    ∀ fuel' thread' r, thread_table_insert fuel' thread' s1 ≠ Done r.
Proof.
  intros Hi H0 Hnew Hnn Hx Hf.
  destruct (proj1 (wp_Done _ _ _) (thread_insert_first fuel s m thread x Hi H0 Hnew Hnn Hx Hf))
    as ([] & s1 & Hs1 & Hi1).
  exists s1. split_and!; [done|done| |].
  - by rewrite (thread_lookup_spec s1 (<[0 := thread]> m) 0 Hi1), lookup_insert_eq.
  - intros fuel' thread' r. eapply thread_insert_hangs; [done|]. rewrite lookup_insert_eq. eauto.
Qed.

Lemma thread_table_insert_once_witness :
  ∃ s1, thread_table_insert 1 524292 unlinked_thread = Done (tt, s1) ∧
    thread_table_lookup 0 s1 = Done (524292, s1) ∧ ∀ fuel r, thread_table_insert fuel 600000 s1 ≠ Done r.
Proof.
  destruct (thread_table_insert_once unlinked_thread ∅ 524292 thread_zero 1) as (s1 & H1 & _ & H2 & H3);
    [exact unlinked_thread_inv|reflexivity|discriminate|discriminate|reflexivity|lia|].
  exists s1. split; [exact H1|]. split; [exact H2|]. intros fuel r. apply H3.
Defined.

(** [thread_table_delete] gives the control block back to the allocator and
    leaves it in the table: every later lookup or deletion of the identifier
    reads the freed block. *)
Theorem thread_table_delete_dangles {T} (A : allocator T) inv `{!AllocatorOk A inv} (s : ttstate T) m live id p c :
  tt_inv s m → inv (th_alloc s) live → m !! id = Some p → live !! p = Some c →
  ∃ s1, thread_table_delete A id s = Done (tt, s1) ∧ inv (th_alloc s1) (delete p live) ∧
    thread_table_lookup id s1 = Fault ∧ thread_table_delete A id s1 = Fault.
Proof.
  intros Hi Hal Hp Hc.
  destruct (proj1 (wp_Done _ _ _) (thread_delete_spec A inv s m live id p c Hi Hal Hp Hc))
    as ([] & s1 & Hs1 & Hn & Hsl & Hl & Hal1).
  assert (hash_table_lookup thread_hash_table id (set_th_mutex true s1) = Fault) as Hf.
  { by apply (thread_lookup_hole s _ m id p). }
  exists s1. split_and!; [done|done|..]; apply bind_out, wp_lock; [done| |done|]; by apply fault_bind.
Qed.

Lemma thread_table_delete_dangles_witness :
  ∃ s1, thread_table_delete malloc_allocator 0 linked_thread = Done (tt, s1) ∧ thread_table_lookup 0 s1 = Fault.
Proof.
  destruct one_thread_live as [c Hc].
  destruct (thread_table_delete_dangles malloc_allocator alloc_inv linked_thread {[0 := 524292]}
    {[524292 := c]} 0 524292 c) as (s1 & H1 & _ & H2 & _);
    [exact linked_thread_inv|exact Hc|reflexivity|apply lookup_singleton_eq|].
  exists s1. split; [exact H1|exact H2].
Defined.
