(* ===== verification/MemInit.v ===== *)
(** * Laying out memory at boot

    [mem_static_init] of arch/mem/virt_mem/ia_32_meminit.c and the functions it
    or its callers use: [page_alloc_static_init] of
    src/mem/phys_mem/page_alloc.c and [inv_page_static_init] of
    src/mem/virt_mem/inv_page_table.c, over the allocation of [Util] and the
    description of the processor of [CpuTables]. *)

From S2P Require Import Prelude PageAlloc Util CpuTables.
#[local] Open Scope Z_scope.

Definition CACHE_LINE_SIZE : Z := 16.
Definition CACHE_L2_SPLIT : Z := 0x8.

(** The allocation and the static variables that the functions set; the last
    three are those of kern_addr.h and virt_mem.h. *)
Record boot_state := BootState {
  bt_static : static_state;
  bt_page_colors : Z;
  bt_free_pages : ptr;
  bt_page_count : ptr;
  bt_inv_page_table : ptr;
  bt_vm_obj : ptr;
  bt_addr_spc : ptr;
  bt_page_tables : ptr;
}.
Implicit Types s : boot_state.

Definition set_bt_static v s := BootState v (bt_page_colors s) (bt_free_pages s) (bt_page_count s)
  (bt_inv_page_table s) (bt_vm_obj s) (bt_addr_spc s) (bt_page_tables s).
Definition set_bt_page_colors v s := BootState (bt_static s) v (bt_free_pages s) (bt_page_count s)
  (bt_inv_page_table s) (bt_vm_obj s) (bt_addr_spc s) (bt_page_tables s).
Definition set_bt_free_pages v s := BootState (bt_static s) (bt_page_colors s) v (bt_page_count s)
  (bt_inv_page_table s) (bt_vm_obj s) (bt_addr_spc s) (bt_page_tables s).
Definition set_bt_page_count v s := BootState (bt_static s) (bt_page_colors s) (bt_free_pages s) v
  (bt_inv_page_table s) (bt_vm_obj s) (bt_addr_spc s) (bt_page_tables s).
Definition set_bt_inv_page_table v s := BootState (bt_static s) (bt_page_colors s) (bt_free_pages s)
  (bt_page_count s) v (bt_vm_obj s) (bt_addr_spc s) (bt_page_tables s).
Definition set_bt_vm_obj v s := BootState (bt_static s) (bt_page_colors s) (bt_free_pages s)
  (bt_page_count s) (bt_inv_page_table s) v (bt_addr_spc s) (bt_page_tables s).
Definition set_bt_addr_spc v s := BootState (bt_static s) (bt_page_colors s) (bt_free_pages s)
  (bt_page_count s) (bt_inv_page_table s) (bt_vm_obj s) v (bt_page_tables s).
Definition set_bt_page_tables v s := BootState (bt_static s) (bt_page_colors s) (bt_free_pages s)
  (bt_page_count s) (bt_inv_page_table s) (bt_vm_obj s) (bt_addr_spc s) v.

Section init.
(** The routine that maps one more page, a bound on how often it is called for
    one block, and the bounds of the kernel's addresses. *)
Context (expand : Z → Z) (fuel : nat) (kern_addr_start kern_addr_end : Z).

(** [kern_size / PAGE_SIZE]: the difference of two pointers is signed. *)
Definition kern_pages : Z := Z.quot (s32 (kern_addr_end - kern_addr_start)) PAGE_SIZE.

Definition salloc (size align : Z) : M boot_state Z :=
  zoom bt_static set_bt_static (static_alloc expand fuel size align).
Definition on_mem {B} (m : M mem B) : M boot_state B :=
  zoom (λ s, st_mem (bt_static s))
    (λ v s, set_bt_static (StaticState (st_addr (bt_static s)) (st_limit (bt_static s)) v) s) m.

(** [*(void** )a = v] *)
Definition write_word (a v : Z) : M mem unit :=
  for_upto 4 0 (λ i, write_byte (a + i) (Z.land (Z.shiftr v (8 * i)) 0xff)).

Definition page_alloc_static_init (cache_size : Z) : M boot_state unit :=
  modify (set_bt_page_colors (cache_size / PAGE_SIZE));;
  n ← gets bt_page_colors;
  p ← salloc (u32 (n * 4)) CACHE_LINE_SIZE;
  modify (set_bt_free_pages p);;
  q ← salloc (u32 (n * 4)) CACHE_LINE_SIZE;
  modify (set_bt_page_count q).

Definition inv_page_static_init (pages : Z) : M boot_state unit :=
  p ← salloc (u32 (pages * inv_page_size)) inv_page_size;
  modify (set_bt_inv_page_table p).

(** The size of the cache that decides the number of page colours. *)
Definition colour_cache_size (c : cache_tlb_t) : Z :=
  if Z.land (c flags) CACHE_L2_SPLIT =? 0 then c l2_dcache
  else if c l2_dcache <? c l2_icache then c l2_dcache else c l2_icache.

Definition page_tab_entry (dir tables i : Z) : M boot_state unit :=
  on_mem (write_word (u32 (dir + 4 * i)) (u32 (tables + PAGE_SIZE * i))).

(** [sizeof(kern_vm_obj)] is the size of a pointer. *)
Definition mem_static_init (c : cache_tlb_t) : M boot_state unit :=
  (if Z.land (c flags) CACHE_L3 =? 0 then page_alloc_static_init (colour_cache_size c) else mret tt);;
  obj ← salloc (u32 (4 + 4 * kern_pages)) CACHE_LINE_SIZE;
  modify (set_bt_vm_obj obj);;
  spc ← salloc (3 * PAGE_SIZE) PAGE_SIZE;
  modify (set_bt_addr_spc spc);;
  tables ← salloc (u32 (4 * kern_pages)) PAGE_SIZE;
  modify (set_bt_page_tables tables);;
  on_mem (memset obj 0 (u32 (4 + 4 * kern_pages)));;
  on_mem (memset spc 0 (3 * PAGE_SIZE));;
  on_mem (memset tables 0 (u32 (4 * kern_pages)));;
  let first := u32 kern_addr_start / 2 ^ 22 in
  for_upto (Z.to_nat (1024 - first)) first
    (page_tab_entry (u32 (spc + 2 * PAGE_SIZE)) tables).
End init.

(** ** Writing words *)

Definition byte_of (v i : Z) : Z := Z.land (Z.shiftr v (8 * i)) 0xff.
Definition word_at (m : mem) (a : Z) : Z :=
  m a + 2 ^ 8 * m (a + 1) + 2 ^ 16 * m (a + 2) + 2 ^ 24 * m (a + 3).

Lemma byte_of_div v i : 0 ≤ i → byte_of v i = (v / 2 ^ (8 * i)) mod 2 ^ 8.
Proof.
  intros Hi. unfold byte_of. rewrite Z.shiftr_div_pow2 by lia.
  change 0xff with (Z.ones 8). by rewrite Z.land_ones by lia.
Qed.

Lemma word_bytes v : 0 ≤ v < 2 ^ 32 →
  byte_of v 0 + 2 ^ 8 * byte_of v 1 + 2 ^ 16 * byte_of v 2 + 2 ^ 24 * byte_of v 3 = v.
Proof.
  intros Hv. rewrite !byte_of_div by lia. simpl.
  change (2 ^ 0) with 1. Z.to_euclidean_division_equations. lia.
Qed.

Lemma write_word_spec a v m :
  0 ≤ a → a + 4 ≤ 2 ^ 32 →
  wp (write_word a v) (λ _ m', ∀ c, m' c = if (a <=? c) && (c <? a + 4) then byte_of v (c - a) else m c) m.
Proof.
  intros Ha He. unfold write_word. eapply wp_mono.
  { apply (wp_for_upto (λ i (m' : mem), ∀ c, m' c =
      if (a <=? c) && (c <? a + i) then byte_of v (c - a) else m c)).
    - intros i m1 Hi H1. apply wp_modify. intros c. rewrite u32_small by lia.
      destruct (Z.eqb_spec c (a + i)) as [->|Hne].
      + rewrite (proj2 (Z.leb_le a _)), (proj2 (Z.ltb_lt (a + i) _)) by lia. unfold byte_of. simpl.
        do 2 f_equal. f_equal. lia.
      + rewrite H1. destruct (Z.leb_spec a c), (Z.ltb_spec c (a + i)),
          (Z.ltb_spec c (a + (i + 1))); done || lia.
    - intros c. rewrite Z.add_0_r. destruct (Z.leb_spec a c), (Z.ltb_spec c a); done || lia. }
  intros [] m' H c. exact (H c).
Qed.

(** ** The page directory *)

Definition set_mem (m : mem) s : boot_state :=
  set_bt_static (StaticState (st_addr (bt_static s)) (st_limit (bt_static s)) m) s.

(** The bytes of the entries from [first] up to [j]. *)
Definition dir_bytes (dir tables first j : Z) (m : mem) : mem := λ c,
  if (dir + 4 * first <=? c) && (c <? dir + 4 * j)
  then byte_of (u32 (tables + PAGE_SIZE * ((c - dir) / 4))) ((c - dir) mod 4) else m c.

Lemma page_tab_spec dir tables first n s :
  0 ≤ first → 0 ≤ dir → dir + 4 * (first + Z.of_nat n) ≤ 2 ^ 32 →
  wp (for_upto n first (page_tab_entry dir tables)) (λ _ s', ∃ m, s' = set_mem m s ∧
    ∀ c, m c = dir_bytes dir tables first (first + Z.of_nat n) (st_mem (bt_static s)) c) s.
Proof.
  intros Hf Hd He. apply (wp_for_upto (λ j s', ∃ m, s' = set_mem m s ∧
    ∀ c, m c = dir_bytes dir tables first j (st_mem (bt_static s)) c)).
  - intros j s1 Hj (m & -> & Hm). apply wp_zoom. simpl. rewrite (u32_small (dir + 4 * j)) by lia.
    eapply wp_mono; [apply (write_word_spec (dir + 4 * j)); lia|].
    intros [] m' Hm'. exists m'. split; [done|]. intros c. rewrite Hm'. unfold dir_bytes.
    destruct (Z.leb_spec (dir + 4 * j) c), (Z.ltb_spec c (dir + 4 * j + 4)); simpl.
    + rewrite (proj2 (Z.leb_le (dir + 4 * first) c)), (proj2 (Z.ltb_lt c (dir + 4 * (j + 1)))) by lia.
      simpl. assert ((c - dir) / 4 = j) as -> by (Z.to_euclidean_division_equations; lia).
      f_equal. Z.to_euclidean_division_equations; lia.
    + rewrite Hm. unfold dir_bytes. rewrite (proj2 (Z.ltb_ge c (dir + 4 * j))),
        (proj2 (Z.ltb_ge c (dir + 4 * (j + 1)))) by lia. by rewrite !andb_false_r.
    + rewrite Hm. unfold dir_bytes. destruct (Z.leb_spec (dir + 4 * first) c); [|done].
      rewrite (proj2 (Z.ltb_lt c (dir + 4 * j))), (proj2 (Z.ltb_lt c (dir + 4 * (j + 1)))) by lia. done.
    + lia.
  - exists (st_mem (bt_static s)). split; [by destruct s as [[]]|]. intros c. unfold dir_bytes.
    destruct (Z.leb_spec (dir + 4 * first) c), (Z.ltb_spec c (dir + 4 * first)); done || lia.
Qed.

Lemma dir_word dir tables first j m i :
  first ≤ i < j → word_at (dir_bytes dir tables first j m) (dir + 4 * i) = u32 (tables + PAGE_SIZE * i).
Proof.
  intros Hi. unfold word_at.
  assert (∀ k, 0 ≤ k < 4 → dir_bytes dir tables first j m (dir + 4 * i + k) =
    byte_of (u32 (tables + PAGE_SIZE * i)) k) as Hb.
  { intros k Hk. unfold dir_bytes.
    rewrite (proj2 (Z.leb_le _ _)), (proj2 (Z.ltb_lt _ _)) by lia. simpl.
    assert ((dir + 4 * i + k - dir) / 4 = i) as -> by (Z.to_euclidean_division_equations; lia).
    f_equal. Z.to_euclidean_division_equations; lia. }
  rewrite <-(Z.add_0_r (dir + 4 * i)) at 1. rewrite !Hb by lia. apply word_bytes, u32_range.
Qed.

(** ** The layout *)

Section layout.
Context (expand : Z → Z) (fuel : nat) (kern_addr_start kern_addr_end : Z).
Abbreviation pages := (kern_pages kern_addr_start kern_addr_end).

Lemma salloc_spec size align s :
  0 < st_addr (bt_static s) → 0 < align → 0 ≤ size →
  round_up_to (st_addr (bt_static s)) align + size ≤ st_limit (bt_static s) →
  st_limit (bt_static s) < 2 ^ 32 →
  wp (salloc expand (S fuel) size align) (λ r s', r = round_up_to (st_addr (bt_static s)) align ∧
    ∃ m, s' = set_bt_static (StaticState (r + size) (st_limit (bt_static s)) m) s ∧
      ∀ c, m c = st_mem (bt_static s) c) s.
Proof.
  intros Hp Ha Hsz Hlim Hl. apply wp_zoom.
  eapply wp_mono; [by apply (static_alloc_spec expand fuel size align)|].
  intros r [a l m] (-> & Ha' & Hl' & Hm). simpl in *. subst. split; [done|]. by exists m.
Qed.

Lemma kern_pages_bound : 0 ≤ kern_addr_end - kern_addr_start < 2 ^ 31 → 0 ≤ pages < 2 ^ 19.
Proof.
  intros Hs. unfold kern_pages, PAGE_SIZE. rewrite s32_small by lia.
  rewrite Z.quot_div_nonneg by lia.
  split; [by apply Z.div_pos; lia|]. apply Z.div_lt_upper_bound; lia.
Qed.

(** Clearing memory writes nothing. *)
Lemma memset_zero p size (Q : unit → boot_state → Prop) s :
  Q tt s → wp (on_mem (memset p 0 size)) Q s.
Proof. intros HQ. apply wp_zoom. apply wp_ret. by destruct s as [[]]. Qed.

(** The blocks of the page allocator, the object, the address space and the
    page tables of the kernel lie one behind the other, on the boundaries they
    need, and the last one ends at [last]. *)
Record boot_layout (from : Z) s (last : Z) : Prop := {
  bl_free : from ≤ bt_free_pages s;
  bl_count : bt_free_pages s + 4 * bt_page_colors s ≤ bt_page_count s;
  bl_obj : bt_page_count s + 4 * bt_page_colors s ≤ bt_vm_obj s;
  bl_spc : bt_vm_obj s + 4 + 4 * pages ≤ bt_addr_spc s;
  bl_tables : bt_addr_spc s + 3 * PAGE_SIZE ≤ bt_page_tables s;
  bl_last : bt_page_tables s + 4 * pages = last;
  bl_spc_page : (PAGE_SIZE | bt_addr_spc s);
  bl_tables_page : (PAGE_SIZE | bt_page_tables s);
}.

(** What [page_alloc_static_init] allocates. *)
Lemma page_alloc_init_spec size s :
  0 < st_addr (bt_static s) → 0 ≤ size < 2 ^ 32 →
  st_addr (bt_static s) + 8 * (size / PAGE_SIZE) + 32 ≤ st_limit (bt_static s) →
  st_limit (bt_static s) < 2 ^ 32 →
  wp (page_alloc_static_init expand (S fuel) size) (λ _ s',
    bt_page_colors s' = size / PAGE_SIZE ∧
    st_addr (bt_static s) ≤ bt_free_pages s' ∧
    bt_free_pages s' + 4 * bt_page_colors s' ≤ bt_page_count s' ∧
    bt_page_count s' + 4 * bt_page_colors s' = st_addr (bt_static s') ∧
    st_addr (bt_static s') ≤ st_addr (bt_static s) + 8 * (size / PAGE_SIZE) + 32 ∧
    st_limit (bt_static s') = st_limit (bt_static s) ∧
    ∀ c, st_mem (bt_static s') c = st_mem (bt_static s) c) s.
Proof.
  intros Hp Hs Hlim Hl. set (n := size / PAGE_SIZE) in *.
  assert (0 ≤ n < 2 ^ 20) as Hn.
  { unfold n, PAGE_SIZE. split; [by apply Z.div_pos; lia|]. apply Z.div_lt_upper_bound; lia. }
  destruct (round_up_to_spec (st_addr (bt_static s)) CACHE_LINE_SIZE) as [_ H1]; [done|].
  set (a1 := round_up_to _ _) in *.
  destruct (round_up_to_spec (a1 + n * 4) CACHE_LINE_SIZE) as [_ H2]; [done|].
  set (a2 := round_up_to (a1 + n * 4) _) in *. unfold CACHE_LINE_SIZE in *.
  apply wp_bind, wp_modify, wp_bind, wp_gets. simpl. fold n. rewrite (u32_small (n * 4)) by lia.
  apply wp_bind. eapply wp_mono; [apply salloc_spec; simpl; unfold CACHE_LINE_SIZE; try fold a1; lia|].
  intros r s1 (-> & m1 & -> & Hm1). simpl in Hm1. apply wp_bind, wp_modify.
  apply wp_bind. eapply wp_mono; [apply salloc_spec; simpl; unfold CACHE_LINE_SIZE; fold a1; try fold a2; lia|].
  intros r s2 (-> & m2 & -> & Hm2). apply wp_modify. simpl in *. unfold CACHE_LINE_SIZE. fold a1. fold a2.
  split_and!; [done|lia|lia|lia|lia|done|]. intros c. by rewrite Hm2, Hm1.
Qed.

(** The blocks and the entries of the directory. *)
Lemma mem_static_init_spec c s :
  colour_cache_size c = 262144 → Z.land (c flags) CACHE_L3 = 0 →
  0 < st_addr (bt_static s) → 0 ≤ kern_addr_start < 2 ^ 32 →
  0 ≤ kern_addr_end - kern_addr_start < 2 ^ 31 →
  st_addr (bt_static s) + 8 * pages + 7 * PAGE_SIZE ≤ st_limit (bt_static s) →
  st_limit (bt_static s) < 2 ^ 32 →
  wp (mem_static_init expand (S fuel) kern_addr_start kern_addr_end c)
    (λ _ s', bt_page_colors s' = 64 ∧ boot_layout (st_addr (bt_static s)) s' (st_addr (bt_static s')) ∧
      ∀ a, st_mem (bt_static s') a = dir_bytes (bt_addr_spc s' + 2 * PAGE_SIZE) (bt_page_tables s')
        (kern_addr_start / 2 ^ 22) 1024 (st_mem (bt_static s)) a) s.
Proof.
  intros Hsize H3 Hp Hk Hspan Hlim Hl. pose proof (kern_pages_bound Hspan) as Hpg.
  unfold mem_static_init. rewrite H3, Hsize. simpl (0 =? 0). cbv iota.
  apply wp_bind. eapply wp_mono; [apply page_alloc_init_spec; unfold PAGE_SIZE in *; simpl; lia|].
  change (262144 / PAGE_SIZE) with 64.
  intros _ s1 (Hc1 & Hf1 & Hg1 & Ha1 & Hb1 & Hl1 & Hm1). rewrite Hc1 in Hg1, Ha1.
  rewrite (u32_small (4 + 4 * pages)), (u32_small (4 * pages)), (u32_small kern_addr_start) by lia.
  assert (0 ≤ kern_addr_start / 2 ^ 22 < 1024) as Hfirst.
  { split; [by apply Z.div_pos; lia|]. apply Z.div_lt_upper_bound; lia. }
  set (first := kern_addr_start / 2 ^ 22) in *.
  destruct (round_up_to_spec (st_addr (bt_static s1)) CACHE_LINE_SIZE) as [_ R3]; [done|].
  set (a3 := round_up_to (st_addr (bt_static s1)) _) in *.
  destruct (round_up_to_spec (a3 + (4 + 4 * pages)) PAGE_SIZE) as [D4 R4]; [done|].
  set (a4 := round_up_to (a3 + (4 + 4 * pages)) _) in *.
  destruct (round_up_to_spec (a4 + 3 * PAGE_SIZE) PAGE_SIZE) as [D5 R5]; [done|].
  set (a5 := round_up_to (a4 + 3 * PAGE_SIZE) _) in *.
  assert (CACHE_LINE_SIZE = 16) as HC by done. assert (PAGE_SIZE = 4096) as HP by done.
  apply wp_bind. eapply wp_mono; [apply salloc_spec; simpl; try fold a3; lia|].
  intros r s2 (-> & m2 & -> & Hm2). fold a3. apply wp_bind, wp_modify.
  apply wp_bind. eapply wp_mono; [apply salloc_spec; simpl; try fold a4; lia|].
  intros r s3 (-> & m3 & -> & Hm3). simpl. fold a4. apply wp_bind, wp_modify.
  apply wp_bind. eapply wp_mono; [apply salloc_spec; simpl; try fold a5; lia|].
  intros r s4 (-> & m4 & -> & Hm4). simpl. fold a5. apply wp_bind, wp_modify.
  do 3 apply wp_bind, memset_zero. rewrite (u32_small (a4 + 2 * PAGE_SIZE)) by lia.
  eapply wp_mono; [apply page_tab_spec; lia|].
  intros [] s5 (m5 & -> & Hm5). simpl in *. split_and!; [done| |].
  - split; simpl; [lia|rewrite Hc1; lia|rewrite Hc1; lia|lia|lia|done|done|done].
  - intros a. rewrite Hm5. unfold dir_bytes. rewrite Z2Nat.id by lia.
    replace (first + (1024 - first)) with 1024 by lia.
    destruct (_ && _); [done|]. by rewrite Hm4, Hm3, Hm2, Hm1.
Qed.

(** C31: how memory is laid out at boot.  On every processor without a
    third-level cache, with enough memory mapped, and for a kernel whose addresses
    span less than 2 GB (the span is a signed integer), [mem_static_init] returns; the page allocator gets 64 page colours, whatever cache [cpuid]
    reported; the blocks it and the kernel's object, address space and page
    tables occupy lie one behind the other; the entries of the page directory
    from the kernel's addresses on hold the addresses of their page tables; and
    no other byte is written, so that none of the blocks is cleared. *)
Theorem mem_static_init_lays_out cpuid info s :
  cpuid_parse cpuid = Some info → Z.land (cache_tlb_data info flags) CACHE_L3 = 0 →
  0 < st_addr (bt_static s) → 0 ≤ kern_addr_start < 2 ^ 32 →
  0 ≤ kern_addr_end - kern_addr_start < 2 ^ 31 →
  st_addr (bt_static s) + 8 * pages + 7 * PAGE_SIZE ≤ st_limit (bt_static s) →
  st_limit (bt_static s) < 2 ^ 32 →
  ∃ s', mem_static_init expand (S fuel) kern_addr_start kern_addr_end (cache_tlb_data info) s = Done (tt, s') ∧
    bt_page_colors s' = 64 ∧ boot_layout (st_addr (bt_static s)) s' (st_addr (bt_static s')) ∧
    let dir := bt_addr_spc s' + 2 * PAGE_SIZE in let first := kern_addr_start / 2 ^ 22 in
    (∀ i, first ≤ i < 1024 →
       word_at (st_mem (bt_static s')) (dir + 4 * i) = u32 (bt_page_tables s' + PAGE_SIZE * i)) ∧
    ∀ c, c < dir + 4 * first ∨ dir + PAGE_SIZE ≤ c → st_mem (bt_static s') c = st_mem (bt_static s) c.
Proof.
  intros Hcpu H3 Hp Hk Hspan Hlim Hl.
  assert (∀ f, l2_field f = true → cache_tlb_data info f = default_cache f) as Hl2.
  { intros f. by apply (cpuid_l2_never_read cpuid). }
  assert (colour_cache_size (cache_tlb_data info) = 262144) as Hsize.
  { unfold colour_cache_size. rewrite (Hl2 l2_dcache), (Hl2 l2_icache) by done. simpl. by destruct (_ =? 0). }
  destruct (proj1 (wp_Done _ _ _) (mem_static_init_spec (cache_tlb_data info) s Hsize H3 Hp Hk Hspan Hlim Hl))
    as ([] & s' & Hr & Hcol & Hlay & Hm).
  exists s'. cbv zeta. split_and!; [exact Hr|exact Hcol|exact Hlay| |].
  - intros i Hi.
    rewrite <-(dir_word (bt_addr_spc s' + 2 * PAGE_SIZE) (bt_page_tables s') (kern_addr_start / 2 ^ 22)
      1024 (st_mem (bt_static s)) i Hi).
    unfold word_at. by rewrite !Hm.
  - intros c Hc. rewrite Hm. unfold dir_bytes, PAGE_SIZE in *.
    destruct (Z.leb_spec (bt_addr_spc s' + 2 * 0x1000 + 4 * (kern_addr_start / 2 ^ 22)) c); [|done].
    by rewrite (proj2 (Z.ltb_ge _ _)) by lia.
Qed.
End layout.

(** A kernel of one megabyte at 3 GB. *)
Lemma mem_static_init_lays_out_witness :
  let s := BootState (StaticState 0x100000 0x200000 (λ _, 7)) 0 NULL NULL NULL NULL NULL NULL in
  ∃ info s', cpuid_parse big_l2 = Some info ∧
    mem_static_init (λ l, l + 4096) 1 0xc0000000 0xc0100000 (cache_tlb_data info) s = Done (tt, s') ∧
    bt_page_colors s' = 64 ∧
    word_at (st_mem (bt_static s')) (bt_addr_spc s' + 2 * PAGE_SIZE + 4 * 768) =
      u32 (bt_page_tables s' + PAGE_SIZE * 768).
Proof.
  intros s. assert (∃ info, cpuid_parse big_l2 = Some info ∧ cache_tlb_data info flags = 0x507)
    as (info & Hi & Hf) by (eexists; split; [reflexivity|vm_compute; reflexivity]).
  destruct (mem_static_init_lays_out (λ l, l + 4096) 0 0xc0000000 0xc0100000 big_l2 info s)
    as (s' & Hr & Hc & _ & Hw & _);
    [exact Hi|by rewrite Hf|done|done|done|by vm_compute|done|].
  exists info, s'. split_and!; [exact Hi|exact Hr|exact Hc|].
  apply Hw. vm_compute. by split.
Defined.
