(* ===== verification/Inode.v ===== *)
(** * Inodes, the inode cache and mounted file systems

    src/io/inode.c, src/io/inode_cache.c and src/io/filesys.c.  The code keeps
    inodes in a table by identifier, cached inodes in two tables (by their place
    in a file system and by address) and a list of those that nobody uses, and
    mounted file systems in a table by the inode they are mounted on.  Inodes
    and file systems are objects with function pointers; what these point to is
    code of the file systems and a parameter of the model. *)

From stdpp Require Import functions countable.
From S2P Require Import Prelude HashTable CircularList Alloc Util.
#[local] Open Scope Z_scope.

(** ** Data *)

(** The identity, flags and counts of an inode's [stat], and [funcs], the set
    of functions it refers to.  Owner, size and the like are never read. *)
Record inode_t := Inode {
  stat_id : Z;
  stat_filesys : Z;
  hard_ref_count : Z;
  ref_count : Z;
  funcs : ptr;
  i_hash_next : ptr;
}.

(** [struct filesys_t]; [fs_code] stands for its function pointers. *)
Record filesys_t := Filesys {
  fs_src : ptr;
  fs_code : ptr;
  fs_hash_next : ptr;
}.

(** [fs_def_t] and the node that lists it by name. *)
Record fs_def_t := FsDef {
  def_name : list Z;
  def_mount : ptr;
}.
Record fs_node := FsNode {
  fn_fs : ptr;
  fn_hash_next : ptr;
}.

Record fs_ref := FsRef {
  fr_filesys : ptr;
  fr_filesys_id : Z;
}.
Global Instance fs_ref_eq : EqDecision fs_ref.
Proof. solve_decision. Defined.
Global Instance fs_ref_countable : Countable fs_ref.
Proof.
  by refine (inj_countable' (λ r, (fr_filesys r, fr_filesys_id r))
                            (λ p, FsRef p.1 p.2) _); intros [].
Defined.

Record cache_entry_t := CacheEntry {
  en_hash_next : ptr;
  en_rev_next : ptr;
  en_list_next : ptr;
  en_list_last : ptr;
  en_src : fs_ref;
  en_inode : ptr;
}.

(** Four links, a file system, a 64-bit number and an inode. *)
Definition cache_entry_size : Z := 32.

(** The static hash tables and mutexes of the three files, and the mutex of an
    inode. *)
Inductive table_id := InodeTable | CacheTable | RevTable | FsTable | MountTable.
Global Instance table_id_eq : EqDecision table_id.
Proof. solve_decision. Defined.
Global Instance table_id_countable : Countable table_id.
Proof.
  refine (inj_countable
    (λ t, match t with InodeTable => 0 | CacheTable => 1 | RevTable => 2 | FsTable => 3 | MountTable => 4 end)
    (λ n, match n with 0 => Some InodeTable | 1 => Some CacheTable | 2 => Some RevTable
                     | 3 => Some FsTable | 4 => Some MountTable | _ => None end) _).
  by intros [].
Defined.

Inductive lock_id := InodeMutex (inode : ptr) | TableMutex (t : table_id).
Global Instance lock_id_eq : EqDecision lock_id.
Proof. solve_decision. Defined.
Global Instance lock_id_countable : Countable lock_id.
Proof.
  refine (inj_countable
    (λ l, match l with InodeMutex p => inl p | TableMutex t => inr t end)
    (λ c, Some match c with inl p => InodeMutex p | inr t => TableMutex t end) _).
  by intros [].
Defined.

(** [slots] are the arrays of all tables, [held] the mutexes that are taken. *)
Record istate (T : Type) := IState {
  inodes : gmap ptr inode_t;
  filesystems : gmap ptr filesys_t;
  fs_defs : gmap ptr fs_def_t;
  fs_nodes : gmap ptr fs_node;
  cache : gmap ptr cache_entry_t;
  slots : gmap (table_id * Z) ptr;
  queue : ptr;
  held : gset lock_id;
  i_rand : rand_state;
  i_alloc : T;
}.
Arguments IState {T}.
Arguments inodes {T}.
Arguments filesystems {T}.
Arguments fs_defs {T}.
Arguments fs_nodes {T}.
Arguments cache {T}.
Arguments slots {T}.
Arguments queue {T}.
Arguments held {T}.
Arguments i_rand {T}.
Arguments i_alloc {T}.

Section setters.
Context {T : Type}.
Implicit Types s : istate T.

Definition set_inodes m s : istate T := IState m (filesystems s) (fs_defs s) (fs_nodes s)
  (cache s) (slots s) (queue s) (held s) (i_rand s) (i_alloc s).
Definition set_filesystems m s : istate T := IState (inodes s) m (fs_defs s) (fs_nodes s)
  (cache s) (slots s) (queue s) (held s) (i_rand s) (i_alloc s).
Definition set_fs_nodes m s : istate T := IState (inodes s) (filesystems s) (fs_defs s) m
  (cache s) (slots s) (queue s) (held s) (i_rand s) (i_alloc s).
Definition set_cache m s : istate T := IState (inodes s) (filesystems s) (fs_defs s)
  (fs_nodes s) m (slots s) (queue s) (held s) (i_rand s) (i_alloc s).
Definition set_slots m s : istate T := IState (inodes s) (filesystems s) (fs_defs s)
  (fs_nodes s) (cache s) m (queue s) (held s) (i_rand s) (i_alloc s).
Definition set_queue p s : istate T := IState (inodes s) (filesystems s) (fs_defs s)
  (fs_nodes s) (cache s) (slots s) p (held s) (i_rand s) (i_alloc s).
Definition set_held h s : istate T := IState (inodes s) (filesystems s) (fs_defs s)
  (fs_nodes s) (cache s) (slots s) (queue s) h (i_rand s) (i_alloc s).
Definition set_i_rand r s : istate T := IState (inodes s) (filesystems s) (fs_defs s)
  (fs_nodes s) (cache s) (slots s) (queue s) (held s) r (i_alloc s).
Definition set_i_alloc t s : istate T := IState (inodes s) (filesystems s) (fs_defs s)
  (fs_nodes s) (cache s) (slots s) (queue s) (held s) (i_rand s) t.

Definition slot (t : table_id) s (i : Z) : ptr := default NULL (slots s !! (t, i)).
Definition set_slot (t : table_id) (i : Z) (p : ptr) s : istate T :=
  set_slots (<[(t, i) := p]> (slots s)) s.
End setters.

(** The functions an inode refers to; a null pointer is [None].  Buffers and
    names are addresses; [dir_vlink], [spec_op] and [free] are never called. *)
Record inode_func_set_t (St : Type) := InodeFuncs {
  page_read : option (ptr → Z → Z → M St Z);
  page_write : option (ptr → Z → Z → M St Z);
  index_read : option (ptr → Z → Z → ptr → Z → M St Z);
  index_write : option (ptr → Z → Z → ptr → Z → M St Z);
  seq_read : option (ptr → Z → ptr → Z → M St Z);
  seq_write : option (ptr → Z → ptr → Z → M St Z);
  pack_read : option (ptr → Z → ptr → Z → M St Z);
  pack_write : option (ptr → Z → ptr → Z → M St Z);
  istat : option (ptr → ptr → M St Z);
  dir_lookup : option (ptr → ptr → M St ptr);
  dir_link : option (ptr → ptr → ptr → M St Z);
  dir_unlink : option (ptr → ptr → M St Z);
  dir_list : option (ptr → ptr → M St Z);
  dir_count : option (ptr → M St Z);
  slink_read : option (ptr → ptr → M St Z);
  slink_write : option (ptr → ptr → M St Z);
}.
Arguments page_read {St}.
Arguments page_write {St}.
Arguments index_read {St}.
Arguments index_write {St}.
Arguments seq_read {St}.
Arguments seq_write {St}.
Arguments pack_read {St}.
Arguments pack_write {St}.
Arguments istat {St}.
Arguments dir_lookup {St}.
Arguments dir_link {St}.
Arguments dir_unlink {St}.
Arguments dir_list {St}.
Arguments dir_count {St}.
Arguments slink_read {St}.
Arguments slink_write {St}.

(** The functions of a file system; calling a null pointer is [fault]. *)
Record fs_func_set_t (St : Type) := FsFuncs {
  inode_read : ptr → Z → M St ptr;
  inode_write : ptr → ptr → Z → M St unit;
  fs_inode_create : ptr → M St (ptr * Z);
  inode_delete : ptr → Z → M St unit;
  unmount : ptr → M St Z;
}.
Arguments inode_read {St}.
Arguments inode_write {St}.
Arguments fs_inode_create {St}.
Arguments inode_delete {St}.
Arguments unmount {St}.

Section operations.
Context {T : Type} (A : allocator T).
Context (strcmp : list Z → list Z → Z) (mount : ptr → ptr → M (istate T) ptr).
Context (fs_funcs : ptr → fs_func_set_t (istate T)).
Context (inode_funcs : ptr → inode_func_set_t (istate T)).
(** The value of a variable that was never assigned. *)
Context (indeterminate : Z).
Abbreviation St := (istate T).
Implicit Types s : St.

(** ** Mutexes and fields *)

Definition acquire (l : lock_id) : M St unit :=
  lock (λ s, bool_decide (l ∈ held s)) (λ _ s, set_held ({[l]} ∪ held s) s).
Definition release (l : lock_id) : M St unit :=
  unlock (λ _ s, set_held (held s ∖ {[l]}) s).
Definition clear_mutex (l : lock_id) : M St unit :=
  modify (λ s, set_held (held s ∖ {[l]}) s).

Definition get_inode (p : ptr) : M St inode_t := getopt (λ s, inodes s !! p).
Definition f_ref_count : field St Z := node_field inodes set_inodes ref_count
  (λ v i, Inode (stat_id i) (stat_filesys i) (hard_ref_count i) v (funcs i) (i_hash_next i)).
Definition f_hard_ref_count : field St Z := node_field inodes set_inodes hard_ref_count
  (λ v i, Inode (stat_id i) (stat_filesys i) v (ref_count i) (funcs i) (i_hash_next i)).
Definition f_stat_id : field St Z := node_field inodes set_inodes stat_id
  (λ v i, Inode v (stat_filesys i) (hard_ref_count i) (ref_count i) (funcs i) (i_hash_next i)).
Definition f_fs_src : field St ptr := node_field filesystems set_filesystems fs_src
  (λ v f, Filesys v (fs_code f) (fs_hash_next f)).
Definition f_list_next : field St ptr := node_field cache set_cache en_list_next
  (λ v e, CacheEntry (en_hash_next e) (en_rev_next e) v (en_list_last e) (en_src e) (en_inode e)).
Definition f_list_last : field St ptr := node_field cache set_cache en_list_last
  (λ v e, CacheEntry (en_hash_next e) (en_rev_next e) (en_list_next e) v (en_src e) (en_inode e)).
Definition f_en_inode : field St ptr := node_field cache set_cache en_inode
  (λ v e, CacheEntry (en_hash_next e) (en_rev_next e) (en_list_next e) (en_list_last e) (en_src e) v).

(** [x++] and [x--] on an unsigned field. *)
Definition increment (f : field St Z) (p : ptr) : M St unit :=
  n ← load f p; store f p (u32 (n + 1)).
Definition decrement (f : field St Z) (p : ptr) : M St unit :=
  n ← load f p; store f p (u32 (n - 1)).

(** [lock; inode->stat.ref_count++; unlock] *)
Definition take_reference (inode : ptr) : M St unit :=
  acquire (InodeMutex inode);;
  increment f_ref_count inode;;
  release (InodeMutex inode).

(** ** The hash tables *)

Definition inode_table : hash_ops St Z :=
  node_table inodes set_inodes (slot InodeTable) (set_slot InodeTable) i_hash_next
    (λ v i, Inode (stat_id i) (stat_filesys i) (hard_ref_count i) (ref_count i) (funcs i) v)
    (λ _ i, Some (stat_id i)) Z.eqb (λ _ k, Some k) 131071.

Definition cache_hash s (r : fs_ref) : option Z :=
  f ← filesystems s !! fr_filesys r;
  i ← inodes s !! fs_src f;
  Some (u32 (stat_id i * u32 (fr_filesys_id r))).
Definition rev_hash s (p : ptr) : option Z := stat_id <$> inodes s !! p.
Definition fs_ref_eqb (a b : fs_ref) : bool :=
  (fr_filesys a =? fr_filesys b) && (fr_filesys_id a =? fr_filesys_id b).

Definition upd_hash_next (v : ptr) (e : cache_entry_t) : cache_entry_t :=
  CacheEntry v (en_rev_next e) (en_list_next e) (en_list_last e) (en_src e) (en_inode e).
Definition upd_rev_next (v : ptr) (e : cache_entry_t) : cache_entry_t :=
  CacheEntry (en_hash_next e) v (en_list_next e) (en_list_last e) (en_src e) (en_inode e).

Definition cache_table : hash_ops St fs_ref :=
  node_table cache set_cache (slot CacheTable) (set_slot CacheTable) en_hash_next upd_hash_next
    (λ _ e, Some (en_src e)) fs_ref_eqb cache_hash 32767.
(** The reverse table's functions may be given the array of either table. *)
Definition rev_table (t : table_id) : hash_ops St ptr :=
  node_table cache set_cache (slot t) (set_slot t) en_rev_next upd_rev_next
    (λ _ e, Some (en_inode e)) Z.eqb rev_hash 32767.

Definition cache_clist : clist_ops St := ClistOps f_list_next f_list_last.

Definition fs_table : hash_ops St (list Z) :=
  node_table fs_nodes set_fs_nodes (slot FsTable) (set_slot FsTable) fn_hash_next
    (λ v n, FsNode (fn_fs n) v) (λ s n, def_name <$> fs_defs s !! fn_fs n)
    (λ a b, strcmp a b =? 0) (λ _ k, strhash k) 127.
Definition mount_table : hash_ops St ptr :=
  node_table filesystems set_filesystems (slot MountTable) (set_slot MountTable) fs_hash_next
    (λ v f, Filesys (fs_src f) (fs_code f) v) (λ _ f, Some (fs_src f)) Z.eqb rev_hash 511.

(** ** src/io/filesys.c *)

Definition filesys_mount (fsname : list Z) (inode : ptr) : M St ptr :=
  acquire (TableMutex FsTable);;
  node ← hash_table_lookup fs_table fsname;
  fs_def ← getopt (λ s, fn_fs <$> fs_nodes s !! node);
  if negb (fs_def =? NULL) then
    release (TableMutex FsTable);;
    code ← getopt (λ s, def_mount <$> fs_defs s !! fs_def);
    out ← mount code inode;
    (if negb (out =? NULL) then
       store f_fs_src out inode;;
       acquire (TableMutex MountTable);;
       _ ← hash_table_insert mount_table out;
       release (TableMutex MountTable)
     else mret tt);;
    mret out
  else mret NULL.

Definition get_fs_funcs (filesys : ptr) : M St (fs_func_set_t St) :=
  getopt (λ s, (λ f, fs_funcs (fs_code f)) <$> filesystems s !! filesys).

Definition filesys_unmount (filesys : ptr) : M St Z :=
  acquire (TableMutex MountTable);;
  ops ← get_fs_funcs filesys;
  out ← unmount ops filesys;
  (if out =? 0 then
     src ← load f_fs_src filesys;
     _ ← hash_table_delete mount_table src; mret tt
   else mret tt);;
  release (TableMutex MountTable);;
  mret out.

Definition filesys_lookup (inode : ptr) : M St ptr :=
  acquire (TableMutex MountTable);;
  filesys ← hash_table_lookup mount_table inode;
  release (TableMutex MountTable);;
  mret filesys.

(** [node->fs = def] in fresh memory. *)
Definition fs_node_init (node def : ptr) : M St unit :=
  putopt (λ s, if node =? NULL then None
               else Some (set_fs_nodes (<[node := FsNode def NULL]> (fs_nodes s)) s)).

Definition filesys_register (def : ptr) : M St unit :=
  node ← zoom i_alloc set_i_alloc (al_malloc A 8);
  fs_node_init node def;;
  acquire (TableMutex FsTable);;
  _ ← hash_table_insert fs_table node;
  release (TableMutex FsTable).

(** ** src/io/inode_cache.c *)

(** [entry->list_next->list_last = entry->list_last;
    entry->list_last->list_next = entry->list_next;] *)
Definition queue_unlink (entry : ptr) : M St unit :=
  n ← load f_list_next entry;
  l ← load f_list_last entry;
  store f_list_last n l;;
  l ← load f_list_last entry;
  n ← load f_list_next entry;
  store f_list_next l n.

(** Take an entry that is used again out of the list of unused ones. *)
Definition queue_remove (entry : ptr) : M St unit :=
  n ← load f_list_next entry;
  if negb (n =? NULL) then
    q ← gets queue;
    (if negb (q =? entry) then queue_unlink entry
     else q ← clist_delete cache_clist q; modify (set_queue q));;
    store f_list_next entry NULL;;
    store f_list_last entry NULL
  else mret tt.

(** The entry of a new inode.  [size] is the size of the block that was asked
    for: writing behind its end is undefined. *)
Definition cache_entry_init (entry size : Z) (src : fs_ref) (inode : ptr) : M St unit :=
  putopt (λ s, if (entry =? NULL) || (size <? cache_entry_size) then None
               else Some (set_cache (<[entry := CacheEntry NULL NULL NULL NULL src inode]> (cache s)) s)).

(** The common end of a miss and of a creation; [sizeof(entry)] is the size of
    a pointer. *)
Definition cache_add (src : fs_ref) (inode : ptr) : M St unit :=
  let sizeof_entry := 4 in
  entry ← zoom i_alloc set_i_alloc (al_malloc A sizeof_entry);
  cache_entry_init entry sizeof_entry src inode;;
  clear_mutex (InodeMutex inode);;
  store f_ref_count inode 1;;
  _ ← hash_table_insert cache_table entry;
  _ ← hash_table_insert (rev_table RevTable) entry;
  release (TableMutex CacheTable).

Definition inode_cache_lookup (filesys filesys_id : Z) : M St ptr :=
  let key := FsRef filesys filesys_id in
  acquire (TableMutex CacheTable);;
  entry ← hash_table_lookup cache_table key;
  if negb (entry =? NULL) then
    inode ← load f_en_inode entry;
    if negb (inode =? NULL) then
      queue_remove entry;;
      take_reference inode;;
      release (TableMutex CacheTable);;
      mret inode
    else mret NULL
  else
    ops ← get_fs_funcs filesys;
    inode ← inode_read ops filesys filesys_id;
    if negb (inode =? NULL) then
      cache_add key inode;;
      mret inode
    else
      release (TableMutex CacheTable);;
      mret NULL.

Definition inode_cache_free (inode : ptr) : M St unit :=
  acquire (TableMutex CacheTable);;
  entry ← hash_table_lookup (rev_table RevTable) inode;
  (if negb (entry =? NULL) then
     q ← gets queue; q ← clist_insert cache_clist q entry; modify (set_queue q)
   else mret tt);;
  release (TableMutex CacheTable).

Definition inode_cache_create (filesys : ptr) : M St ptr :=
  acquire (TableMutex CacheTable);;
  ops ← get_fs_funcs filesys;
  '(inode, filesys_id) ← fs_inode_create ops filesys;
  if negb (inode =? NULL) then
    cache_add (FsRef filesys filesys_id) inode;;
    mret inode
  else
    release (TableMutex CacheTable);;
    mret NULL.

(** The lookup function of the reverse table is called on the cache table. *)
Definition inode_cache_delete (inode : ptr) : M St unit :=
  acquire (TableMutex CacheTable);;
  entry ← hash_table_lookup (rev_table CacheTable) inode;
  (if negb (entry =? NULL) then
     store f_en_inode entry NULL;;
     q ← gets queue; q ← clist_insert cache_clist q entry; modify (set_queue q)
   else mret tt);;
  release (TableMutex CacheTable).

Definition inode_cache_sync_entry (entry : ptr) : M St unit :=
  src ← getopt (λ s, en_src <$> cache s !! entry);
  inode ← load f_en_inode entry;
  let fs := fr_filesys src in
  ops ← get_fs_funcs fs;
  if negb (inode =? NULL) then
    acquire (InodeMutex inode);;
    inode_write ops fs inode (fr_filesys_id src);;
    release (InodeMutex inode)
  else inode_delete ops fs (fr_filesys_id src).

(** ** src/io/inode.c *)

(** One test of [while(NULL != lookup(id) && 0 != id) id = rand();] *)
Definition unique_id_step (id : Z) : M St (Z + Z) :=
  p ← hash_table_lookup inode_table id;
  if negb (p =? NULL) && negb (0 =? id)
  then id ← zoom i_rand set_i_rand rand; mret (Continue id)
  else mret (Break id).

Definition get_unique_id (fuel : nat) : M St Z :=
  id ← zoom i_rand set_i_rand rand;
  loop fuel unique_id_step id.

(** [filesys] is the field of the [stat] that is passed. *)
Definition inode_create (fuel : nat) (filesys : Z) : M St ptr :=
  acquire (TableMutex InodeTable);;
  id ← get_unique_id fuel;
  fs_inode ← hash_table_lookup inode_table filesys;
  out ← (if negb (fs_inode =? NULL) then
           fs ← filesys_lookup fs_inode;
           if negb (fs =? NULL) then
             out ← inode_cache_create fs;
             store f_stat_id out id;;
             _ ← hash_table_insert inode_table out;
             mret out
           else mret NULL
         else mret NULL);
  release (TableMutex InodeTable);;
  mret out.

Definition inode_close (inode : ptr) : M St Z :=
  _ ← get_inode inode;
  acquire (InodeMutex inode);;
  decrement f_ref_count inode;;
  refs ← load f_ref_count inode;
  (if 0 =? refs then
     acquire (TableMutex InodeTable);;
     id ← load f_stat_id inode;
     _ ← hash_table_delete inode_table id;
     release (TableMutex InodeTable);;
     hard ← load f_hard_ref_count inode;
     if 0 =? hard then inode_cache_delete inode
     else
       inode_cache_free inode;;
       release (InodeMutex inode)
   else mret tt);;
  mret 0.

(** The operations dispatch to the functions of the inode; [call] is the
    common pattern [if(NULL != inode->funcs->f) return inode->funcs->f(...);
    else return d]. *)
Definition call {F R} (sel : inode_func_set_t St → option F) (inode : ptr) (d : R)
    (app : F → M St R) : M St R :=
  i ← get_inode inode;
  match sel (inode_funcs (funcs i)) with
  | Some f => app f
  | None => mret d
  end.

Definition inode_page_read (inode offset addr : Z) : M St Z :=
  call page_read inode (-1) (λ f, f inode offset addr).
Definition inode_page_write (inode offset addr : Z) : M St Z :=
  call page_write inode (-1) (λ f, f inode offset addr).
Definition inode_index_read (inode offset size p mode : Z) : M St Z :=
  call index_read inode (-1) (λ f, f inode offset size p mode).
Definition inode_index_write (inode offset size p mode : Z) : M St Z :=
  call index_write inode (-1) (λ f, f inode offset size p mode).
Definition inode_seq_read (inode size p mode : Z) : M St Z :=
  call seq_read inode (-1) (λ f, f inode size p mode).
Definition inode_seq_write (inode size p mode : Z) : M St Z :=
  call seq_write inode (-1) (λ f, f inode size p mode).
Definition inode_pack_read (inode size p mode : Z) : M St Z :=
  call pack_read inode (-1) (λ f, f inode size p mode).
Definition inode_pack_write (inode size p mode : Z) : M St Z :=
  call pack_write inode (-1) (λ f, f inode size p mode).
Definition inode_stat (inode stat : ptr) : M St Z :=
  call istat inode (-1) (λ f, f inode stat).
Definition inode_dir_lookup (dir name : ptr) : M St ptr :=
  call dir_lookup dir NULL (λ f, f dir name).
Definition inode_dir_list (inode buf : ptr) : M St Z :=
  call dir_list inode (-1) (λ f, f inode buf).
Definition inode_dir_count (inode : ptr) : M St Z :=
  call dir_count inode (-1) (λ f, f inode).
Definition inode_slink_read (inode buf : ptr) : M St Z :=
  call slink_read inode (-1) (λ f, f inode buf).
Definition inode_slink_write (inode buf : ptr) : M St Z :=
  call slink_write inode (-1) (λ f, f inode buf).

(** The file systems of both inodes are compared only when the directory
    supports links. *)
Definition inode_dir_link (dir name inode : ptr) : M St Z :=
  call dir_link dir (-1) (λ f,
    i ← get_inode inode;
    d ← get_inode dir;
    if stat_filesys i =? stat_filesys d then
      out ← f dir name inode;
      (if out =? 0 then increment f_hard_ref_count inode else mret tt);;
      mret out
    else mret (-1)).

(** [out] is returned without having been assigned. *)
Definition inode_dir_vlink (dir name inode : ptr) : M St Z :=
  call dir_link dir (-1) (λ _,
    increment f_ref_count inode;;
    mret indeterminate).

(** [dir_lookup] is called without a test for null. *)
Definition inode_dir_unlink (dir name : ptr) : M St Z :=
  call dir_unlink dir (-1) (λ f,
    d ← get_inode dir;
    lookup ← getopt (λ _, dir_lookup (inode_funcs (funcs d)));
    file ← lookup dir name;
    out ← f dir name;
    (if out =? 0 then decrement f_hard_ref_count file else mret tt);;
    mret out).
End operations.
