(* ===== verification/Parport.v ===== *)
(** * The parallel port (src/dev/parport/parport.c)

    A sequential device whose writes are collected in a buffer.  Memory is the
    byte memory of [Util]; what reaches the port is the list of characters
    passed to [parport_write_char], whose result nobody looks at.  The functions
    read the device data through a variable [out] that only [parport_create]
    declares; the inode is meant. *)

From S2P Require Import Prelude Alloc Util Inode.
#[local] Open Scope Z_scope.

(** include/inode.h *)
Definition MODE_POS : Z := 0xc.
Definition MODE_CURR : Z := 0x0.

(** [sizeof(unichar)] and [2 * PAGE_SIZE] *)
Definition unichar_size : Z := 2.
Definition parport_buf_size : Z := 2 * UTIL_PAGE_SIZE.

Record parport_data_t := ParportData {
  buf_size : Z;
  buf_pos : Z;
  port_addr : ptr;
  buf : ptr;
}.
Definition parport_data_size : Z := 16.

(** The inodes of ports and their [metadata], the mutexes that are taken and
    the characters sent so far. *)
Record ppstate (T : Type) := PpState {
  pp_inodes : gmap ptr inode_t;
  pp_data : gmap ptr parport_data_t;
  pp_held : gset ptr;
  pp_mem : mem;
  pp_sent : list (ptr * Z);
  pp_alloc : T;
}.
Arguments PpState {T}.
Arguments pp_inodes {T}.
Arguments pp_data {T}.
Arguments pp_held {T}.
Arguments pp_mem {T}.
Arguments pp_sent {T}.
Arguments pp_alloc {T}.

Section setters.
Context {T : Type}.
Implicit Types s : ppstate T.

Definition set_pp_inodes m s : ppstate T := PpState m (pp_data s) (pp_held s) (pp_mem s) (pp_sent s) (pp_alloc s).
Definition set_pp_data m s : ppstate T := PpState (pp_inodes s) m (pp_held s) (pp_mem s) (pp_sent s) (pp_alloc s).
Definition set_pp_held h s : ppstate T := PpState (pp_inodes s) (pp_data s) h (pp_mem s) (pp_sent s) (pp_alloc s).
Definition set_pp_mem m s : ppstate T := PpState (pp_inodes s) (pp_data s) (pp_held s) m (pp_sent s) (pp_alloc s).
Definition set_pp_sent l s : ppstate T := PpState (pp_inodes s) (pp_data s) (pp_held s) (pp_mem s) l (pp_alloc s).
Definition set_pp_alloc a s : ppstate T := PpState (pp_inodes s) (pp_data s) (pp_held s) (pp_mem s) (pp_sent s) a.
End setters.

Section operations.
Context {T : Type} (A : allocator T).
(** [kern_malloc] and [kern_free], [inode_id()], the address of
    [parport_funcs], [sizeof(inode_t)], and the value a function returns that
    ends without a [return]. *)
Context (kmalloc : Z → Z → M T (ptr * Z)) (kfree : ptr → Z → M T unit).
Context (inode_id : M (ppstate T) Z) (parport_funcs : ptr) (inode_size : Z) (indeterminate : Z).
Abbreviation St := (ppstate T).

Definition pp_lock (inode : ptr) : M St unit :=
  _ ← getopt (λ s, pp_inodes s !! inode);
  lock (λ s, bool_decide (inode ∈ pp_held s)) (λ _ s, set_pp_held ({[inode]} ∪ pp_held s) s).
Definition pp_unlock (inode : ptr) : M St unit := unlock (λ _ s, set_pp_held (pp_held s ∖ {[inode]}) s).

Definition get_data (inode : ptr) : M St parport_data_t := getopt (λ s, pp_data s !! inode).
Definition put_data (inode : ptr) (d : parport_data_t) : M St unit :=
  putopt (λ s, _ ← pp_data s !! inode; Some (set_pp_data (<[inode := d]> (pp_data s)) s)).

Definition on_mem {B} (m : M mem B) : M St B := zoom pp_mem set_pp_mem m.

(** A 16-bit character in memory, the low byte first. *)
Definition char_at (m : mem) (a : Z) : Z := m (u32 a) + 256 * m (u32 (a + 1)).
Definition parport_write_char (port : ptr) (c : Z) : M St unit :=
  modify (λ s, set_pp_sent (pp_sent s ++ [(port, c)]) s).

(** [for(i = 0; i < n; i++) parport_write_char(port, chars[i])] *)
Definition write_chars (port chars n : Z) : M St unit :=
  for_upto (Z.to_nat n) 0 (λ i,
    c ← gets (λ s, char_at (pp_mem s) (chars + unichar_size * i));
    parport_write_char port c).

Definition parport_create (port : ptr) : M St ptr :=
  out ← zoom pp_alloc set_pp_alloc (al_malloc A (u32 (inode_size + parport_data_size)));
  id ← inode_id;
  if out =? NULL then fault else
  modify (λ s, set_pp_inodes (<[out := Inode id 0 0 0 parport_funcs NULL]> (pp_inodes s))
                 (set_pp_held (pp_held s ∖ {[out]}) s));;
  '(b, n) ← zoom pp_alloc set_pp_alloc (kmalloc parport_buf_size 0);
  modify (λ s, set_pp_data (<[out := ParportData n 0 port b]> (pp_data s)) s);;
  mret out.

Definition parport_flush (inode : ptr) : M St unit :=
  d ← get_data inode;
  write_chars (port_addr d) (buf d) (buf_pos d);;
  d ← get_data inode;
  put_data inode (ParportData (buf_size d) 0 (port_addr d) (buf d)).

Definition parport_seq_write (inode size from seek mode : Z) : M St Z :=
  if (0 =? seek) && (Z.land mode MODE_POS =? MODE_CURR) then
    pp_lock inode;;
    d ← get_data inode;
    (if u32 (buf_pos d + size / unichar_size) <=? buf_size d then
       on_mem (memcpy (buf d) from size);;
       put_data inode (ParportData (buf_size d) (u32 (buf_pos d + size / unichar_size)) (port_addr d) (buf d))
     else
       parport_flush inode;;
       write_chars (port_addr d) from (size / unichar_size));;
    pp_unlock inode;;
    mret size
  else mret indeterminate.

(** [data] lies in the block of the inode; [free] gets its address. *)
Definition parport_free (inode : ptr) : M St unit :=
  d ← get_data inode;
  zoom pp_alloc set_pp_alloc (kfree (buf d) (buf_size d));;
  zoom pp_alloc set_pp_alloc (al_free A (inode + inode_size)).
End operations.

(** ** Writing *)

Section writing.
Context {T : Type} (indeterminate : Z).
Abbreviation St := (ppstate T).
Implicit Types s : St.

(** [n] characters of memory from [a] on. *)
Definition chars (m : mem) (a n : Z) : list Z := (λ i, char_at m (a + unichar_size * i)) <$> seqZ 0 n.
Definition sent_to (port : ptr) (l : list Z) : list (ptr * Z) := (λ c, (port, c)) <$> l.

Lemma write_chars_spec port a n s : 0 ≤ n →
  wp (write_chars port a n)
     (λ _ s', s' = set_pp_sent (pp_sent s ++ sent_to port (chars (pp_mem s) a n)) s) s.
Proof.
  intros Hn. eapply wp_mono.
  { apply (wp_for_upto (λ j s', s' = set_pp_sent (pp_sent s ++ sent_to port (chars (pp_mem s) a j)) s)).
    - intros j s1 Hj ->. apply wp_bind, wp_gets, wp_modify. unfold sent_to, chars. simpl.
      rewrite seqZ_app, !fmap_app by lia. simpl. by rewrite app_assoc.
    - unfold sent_to, chars. simpl. rewrite app_nil_r. by destruct s. }
  intros [] s'; cbn beta. by rewrite Z.add_0_l, Z2Nat.id by lia.
Qed.

(** A device that is ready: the inode exists and is not locked. *)
Record ready s (inode : ptr) (d : parport_data_t) : Prop := {
  rd_inode : is_Some (pp_inodes s !! inode);
  rd_data : pp_data s !! inode = Some d;
  rd_held : inode ∉ pp_held s;
}.

Lemma parport_flush_spec s inode d : pp_data s !! inode = Some d → 0 ≤ buf_pos d →
  wp (parport_flush inode) (λ _ s',
    s' = set_pp_data (<[inode := ParportData (buf_size d) 0 (port_addr d) (buf d)]> (pp_data s))
           (set_pp_sent (pp_sent s ++ sent_to (port_addr d) (chars (pp_mem s) (buf d) (buf_pos d))) s)) s.
Proof.
  intros Hd Hp. apply wp_bind, (wp_getopt _ d); [done|]. apply wp_bind.
  eapply wp_mono; [by apply write_chars_spec|]. intros [] s1 ->.
  apply wp_bind, (wp_getopt _ d); [done|]. eapply wp_putopt; [simpl; by rewrite Hd|]. done.
Qed.

Lemma wp_pp_lock s inode d (Q : unit → St → Prop) : ready s inode d →
  Q tt (set_pp_held ({[inode]} ∪ pp_held s) s) → wp (pp_lock inode) Q s.
Proof.
  intros [[i Hi] _ Hh] HQ. apply wp_bind, (wp_getopt _ i); [done|].
  apply wp_lock; [by apply bool_decide_eq_false|done].
Qed.

Lemma pp_held_back s inode : inode ∉ pp_held s → ({[inode]} ∪ pp_held s) ∖ {[inode]} = pp_held s.
Proof. apply lock_unlock. Qed.

(** A write that fits: the bytes go to the start of the buffer. *)
Lemma write_fits s inode d size from mode :
  ready s inode d → 0 ≤ size < 2 ^ 32 → 0 ≤ buf_pos d → buf_size d < 2 ^ 32 →
  buf_pos d + size / unichar_size ≤ buf_size d → Z.land mode MODE_POS = MODE_CURR →
  in_range (buf d) size → in_range from size → buf d ≤ from ∨ from + size ≤ buf d →
  wp (parport_seq_write indeterminate inode size from 0 mode) (λ r s', r = size ∧ ∃ m,
    copied (pp_mem s) (buf d) from size m ∧
    s' = set_pp_data (<[inode := ParportData (buf_size d) (buf_pos d + size / unichar_size) (port_addr d)
                                   (buf d)]> (pp_data s)) (set_pp_mem m s)) s.
Proof.
  intros Hr Hs Hp Hb Hfit Hm Hbuf Hfrom Hdis. pose proof Hr as [_ Hd Hh].
  assert (0 ≤ size / unichar_size) by (unfold unichar_size; lia).
  unfold parport_seq_write. rewrite Hm. simpl. apply wp_bind. eapply wp_pp_lock; [done|].
  apply wp_bind, (wp_getopt _ d); [done|]. rewrite u32_small by lia.
  rewrite (proj2 (Z.leb_le _ _) Hfit). apply wp_bind, wp_bind, wp_zoom.
  eapply wp_mono; [by apply memcpy_lo_hi_spec; [..|lia|]|]. intros [] m Hcp.
  eapply wp_putopt; [simpl; by rewrite Hd|]. apply wp_bind, wp_unlock, wp_ret. split; [done|].
  exists m. split; [done|]. unfold set_pp_data, set_pp_mem, set_pp_held; simpl. by rewrite pp_held_back.
Qed.
End writing.

(** ** What the port gets *)

Lemma copied_char m a b n m' c : copied m a b n m' → in_range a n → in_range b n →
  0 ≤ c → c + 2 ≤ n → char_at m' (a + c) = char_at m (b + c).
Proof.
  intros Hc [Ha Hae] [Hb Hbe] H0 Hn. unfold char_at.
  rewrite (u32_small (a + c)), (u32_small (a + c + 1)), (u32_small (b + c)), (u32_small (b + c + 1)) by lia.
  rewrite !Hc, !(proj2 (Z.leb_le a _)), !(proj2 (Z.ltb_lt _ (a + n))) by lia. simpl. f_equal; [f_equal; lia|].
  do 2 f_equal. lia.
Qed.

Lemma copied_char_other m a b n m' c : copied m a b n m' → 0 ≤ c → c + 2 ≤ 2 ^ 32 →
  c + 2 ≤ a ∨ a + n ≤ c → char_at m' c = char_at m c.
Proof.
  intros Hc H0 Hn Hd. unfold char_at. rewrite (u32_small c), (u32_small (c + 1)) by lia.
  rewrite !Hc. by replace ((a <=? c) && (c <? a + n)) with false by lia;
    replace ((a <=? c + 1) && (c + 1 <? a + n)) with false by lia.
Qed.

Lemma chars_ext m m' a b n : (∀ i, 0 ≤ i < n → char_at m' (a + unichar_size * i) = char_at m (b + unichar_size * i)) →
  chars m' a n = chars m b n.
Proof. intros H. apply list_fmap_ext. intros j i Hi%list_elem_of_lookup_2%elem_of_seqZ. apply H. lia. Qed.

Lemma chars_split m a k : 0 ≤ k → chars m a (k + k) = chars m a k ++ chars m (a + unichar_size * k) k.
Proof.
  intros Hk. unfold chars. rewrite seqZ_app, fmap_app by lia. f_equal.
  rewrite (Z.add_comm 0 k), <-fmap_add_seqZ, <-list_fmap_compose. apply list_fmap_ext. intros _ i _. simpl. f_equal. lia.
Qed.

(** Only the last write reaches the port.  Two writes of [k] characters
    that fit into the buffer both succeed, and both copy to its start; the
    flush then sends the second one, followed by [k] characters that nobody
    wrote.  The characters of the first write are never sent. *)
Theorem parport_second_write_overwrites {T} indeterminate (s : ppstate T) inode d k from1 from2 mode :
  ready s inode d → buf_pos d = 0 → 0 ≤ k → 2 * k ≤ buf_size d < 2 ^ 32 →
  Z.land mode MODE_POS = MODE_CURR → in_range (buf d) (4 * k) →
  in_range from1 (2 * k) → buf d + 4 * k ≤ from1 ∨ from1 + 2 * k ≤ buf d →
  in_range from2 (2 * k) → buf d + 4 * k ≤ from2 ∨ from2 + 2 * k ≤ buf d →
  ∃ s1 s2 s3, parport_seq_write indeterminate inode (2 * k) from1 0 mode s = Done (2 * k, s1) ∧
    parport_seq_write indeterminate inode (2 * k) from2 0 mode s1 = Done (2 * k, s2) ∧
    parport_flush inode s2 = Done (tt, s3) ∧
    pp_sent s3 = pp_sent s ++ sent_to (port_addr d)
      (chars (pp_mem s) from2 k ++ chars (pp_mem s) (buf d + 2 * k) k).
Proof.
  intros Hr Hp Hk Hb Hm [Hbuf Hbe] Hf1 Hd1 Hf2 Hd2. pose proof Hr as [Hi Hd Hh].
  assert (2 * k / unichar_size = k) as Hhalf by (unfold unichar_size; lia).
  destruct (proj1 (wp_Done _ _ _) (write_fits indeterminate s inode d (2 * k) from1 mode Hr ltac:(lia)
    ltac:(lia) ltac:(lia) ltac:(lia) Hm ltac:(split; lia) Hf1 ltac:(lia))) as (r1 & s1 & H1 & -> & m1 & Hc1 & Hs1).
  rewrite Hhalf, Hp in Hs1. set (d1 := ParportData _ _ _ _) in Hs1.
  assert (ready s1 inode d1) as Hr1 by (subst s1; split; [done|apply lookup_insert_eq|done]).
  destruct (proj1 (wp_Done _ _ _) (write_fits indeterminate s1 inode d1 (2 * k) from2 mode Hr1 ltac:(lia)
    ltac:(simpl; lia) ltac:(simpl; lia) ltac:(simpl; lia) Hm ltac:(split; simpl; lia) Hf2 ltac:(simpl; lia)))
    as (r2 & s2 & H2 & -> & m2 & Hc2 & Hs2).
  simpl in Hc2. rewrite Hhalf in Hs2. set (d2 := ParportData _ _ _ _) in Hs2.
  assert (pp_data s2 !! inode = Some d2) as Hd3 by (subst s2; apply lookup_insert_eq).
  destruct (proj1 (wp_Done _ _ _) (parport_flush_spec s2 inode d2 Hd3 ltac:(simpl; lia))) as ([] & s3 & H3 & Hs3).
  exists s1, s2, s3. split_and!; [done..|]. rewrite Hs3, Hs2, Hs1 in *. simpl in *. do 3 f_equal.
  rewrite chars_split by done. f_equal; apply chars_ext; intros i Hi'; unfold unichar_size.
  - rewrite (copied_char _ _ _ _ _ _ Hc2); [|split; lia|done|lia|lia].
    apply (copied_char_other _ _ _ _ _ _ Hc1); destruct Hf2; lia.
  - rewrite (copied_char_other _ _ _ _ _ _ Hc2) by lia. by rewrite (copied_char_other _ _ _ _ _ _ Hc1) by lia.
Qed.

(** A write that does not fit goes out in order: first what the buffer
    holds, then the characters of the write, and the buffer is empty. *)
Theorem parport_large_write_order {T} indeterminate (s : ppstate T) inode d size from mode :
  ready s inode d → 0 ≤ size < 2 ^ 32 → 0 ≤ buf_pos d → buf_pos d + size / unichar_size < 2 ^ 32 →
  buf_size d < buf_pos d + size / unichar_size → Z.land mode MODE_POS = MODE_CURR →
  ∃ s', parport_seq_write indeterminate inode size from 0 mode s = Done (size, s') ∧
    pp_sent s' = pp_sent s ++ sent_to (port_addr d) (chars (pp_mem s) (buf d) (buf_pos d) ++
                                                     chars (pp_mem s) from (size / unichar_size)) ∧
    pp_mem s' = pp_mem s ∧ ready s' inode (ParportData (buf_size d) 0 (port_addr d) (buf d)).
Proof.
  intros Hr Hs Hp Hlt Hfit Hm. pose proof Hr as [Hi Hd Hh].
  assert (0 ≤ size / unichar_size) by (unfold unichar_size; lia).
  enough (wp (parport_seq_write indeterminate inode size from 0 mode) (λ r s', r = size ∧
    pp_sent s' = pp_sent s ++ sent_to (port_addr d) (chars (pp_mem s) (buf d) (buf_pos d) ++
                                                     chars (pp_mem s) from (size / unichar_size)) ∧
    pp_mem s' = pp_mem s ∧ ready s' inode (ParportData (buf_size d) 0 (port_addr d) (buf d))) s)
    as (r & s' & Hd' & -> & H')%wp_Done by eauto.
  unfold parport_seq_write. rewrite Hm. simpl. apply wp_bind. eapply wp_pp_lock; [done|].
  apply wp_bind, (wp_getopt _ d); [done|]. rewrite u32_small by lia.
  rewrite (proj2 (Z.leb_gt _ _) Hfit). apply wp_bind, wp_bind.
  eapply wp_mono; [by apply (parport_flush_spec _ inode d)|]. intros [] s1 ->.
  eapply wp_mono; [by apply write_chars_spec|]. intros [] s2 ->.
  apply wp_bind, wp_unlock, wp_ret. split_and!; [done| |done|].
  - simpl. unfold sent_to. by rewrite fmap_app, app_assoc.
  - split; simpl; [done|apply lookup_insert_eq|]. by rewrite pp_held_back.
Qed.

(** A port with an empty buffer at 1000. *)
Definition one_port : ppstate unit :=
  PpState {[50 := Inode 7 0 0 0 600 NULL]} {[50 := ParportData 8192 0 0x378 1000]} ∅
    (λ a, a mod 256) [] tt.

Lemma one_port_ready : ready one_port 50 (ParportData 8192 0 0x378 1000).
Proof. split; [by eexists|done|set_solver]. Qed.

Lemma parport_second_write_overwrites_witness :
  ∃ s1 s2 s3, parport_seq_write 0 50 4 20000 0 0 one_port = Done (4, s1) ∧
    parport_seq_write 0 50 4 30000 0 0 s1 = Done (4, s2) ∧ parport_flush 50 s2 = Done (tt, s3) ∧
    length (pp_sent s3) = 4%nat.
Proof.
  destruct (parport_second_write_overwrites 0 one_port 50 (ParportData 8192 0 0x378 1000) 2 20000 30000 0)
    as (s1 & s2 & s3 & H1 & H2 & H3 & H4);
    [exact one_port_ready|reflexivity|lia|simpl; lia|reflexivity|split; simpl; lia|split; lia|simpl; lia
    |split; lia|simpl; lia|].
  exists s1, s2, s3. split; [exact H1|]. split; [exact H2|]. split; [exact H3|]. by rewrite H4.
Defined.

(** The same port with room for a single character. *)
Definition small_port : ppstate unit :=
  PpState {[50 := Inode 7 0 0 0 600 NULL]} {[50 := ParportData 2 0 0x378 1000]} ∅
    (λ a, a mod 256) [] tt.

Lemma small_port_ready : ready small_port 50 (ParportData 2 0 0x378 1000).
Proof. split; [by eexists|done|set_solver]. Qed.

Lemma parport_large_write_order_witness :
  ∃ s', parport_seq_write 0 50 6 60000 0 0 small_port = Done (6, s') ∧
    pp_sent s' = sent_to 0x378 (chars (λ a, a mod 256) 60000 3).
Proof.
  destruct (parport_large_write_order 0 small_port 50 (ParportData 2 0 0x378 1000) 6 60000 0)
    as (s' & H1 & H2 & _); [exact small_port_ready|lia|simpl; lia|done|done|reflexivity|].
  exists s'. split; [exact H1|exact H2].
Defined.
