(* ===== verification/InodeSpec.v ===== *)
(** * Correctness of the inode layer

    The hash tables of [Inode] represent maps; a hit in the cache takes the
    inode out of the list of unused ones; mounting makes a file system findable;
    and what the code does when it closes or creates an inode. *)

From stdpp Require Import functions countable.
From S2P Require Import Prelude HashTable CircularList Alloc Util Inode.
#[local] Open Scope Z_scope.

Section correctness.
Context {T : Type}.
Implicit Types s : istate T.

(** ** The tables *)

Lemma slot_eq t i p s : slot t (set_slot t i p s) i = p.
Proof. unfold slot. simpl. by rewrite lookup_insert_eq. Qed.
Lemma slot_ne t u i j p s : (t, i) ≠ (u, j) → slot u (set_slot t i p s) j = slot u s j.
Proof. intros H. unfold slot. simpl. by rewrite lookup_insert_ne. Qed.

Ltac solve_table :=
  split; simpl; try done;
  [by intros; apply slot_eq|by intros; apply slot_ne; congruence].

Global Instance inode_table_nodes : NodeTable (St:=istate T) inodes set_inodes (slot InodeTable)
  (set_slot InodeTable) i_hash_next
  (λ v i, Inode (stat_id i) (stat_filesys i) (hard_ref_count i) (ref_count i) (funcs i) v)
  (λ _ i, Some (stat_id i)) (λ _ k, Some k) 131071.
Proof. solve_table. Qed.

Global Instance cache_table_nodes : NodeTable (St:=istate T) cache set_cache (slot CacheTable)
  (set_slot CacheTable) en_hash_next upd_hash_next (λ _ e, Some (en_src e)) cache_hash 32767.
Proof. solve_table. Qed.

Global Instance rev_table_nodes t : NodeTable (St:=istate T) cache set_cache (slot t)
  (set_slot t) en_rev_next upd_rev_next (λ _ e, Some (en_inode e)) rev_hash 32767.
Proof. solve_table. Qed.

Global Instance mount_table_nodes : NodeTable (St:=istate T) filesystems set_filesystems
  (slot MountTable) (set_slot MountTable) fs_hash_next
  (λ v f, Filesys (fs_src f) (fs_code f) v) (λ _ f, Some (fs_src f)) rev_hash 511.
Proof. solve_table. Qed.

Global Instance fs_table_nodes : NodeTable (St:=istate T) fs_nodes set_fs_nodes
  (slot FsTable) (set_slot FsTable) fn_hash_next (λ v n, FsNode (fn_fs n) v)
  (λ s n, def_name <$> fs_defs s !! fn_fs n) (λ _ k, strhash k) 127.
Proof. solve_table. Qed.

Global Instance inode_table_ok : HashOk (@inode_table T).
Proof. apply node_table_ok, _. Qed.
Global Instance cache_table_ok : HashOk (@cache_table T).
Proof. apply node_table_ok, _. Qed.
Global Instance rev_table_ok t : HashOk (@rev_table T t).
Proof. apply node_table_ok, _. Qed.
Global Instance mount_table_ok : HashOk (@mount_table T).
Proof. apply node_table_ok, _. Qed.
Global Instance fs_table_ok strcmp : HashOk (@fs_table T strcmp).
Proof. apply node_table_ok, _. Qed.

Global Instance cache_table_eq : HashEq (@cache_table T).
Proof.
  intros [f n] [f' n']. simpl. unfold fs_ref_eqb; simpl.
  rewrite andb_true_iff, !Z.eqb_eq. naive_solver.
Qed.
Global Instance rev_table_eq t : HashEq (@rev_table T t).
Proof. intros a b. apply Z.eqb_eq. Qed.
Global Instance mount_table_eq : HashEq (@mount_table T).
Proof. intros a b. apply Z.eqb_eq. Qed.

(** What linking nodes leaves alone. *)
Definition entry_rest (e : cache_entry_t) := (en_list_next e, en_list_last e, en_src e, en_inode e).
Definition cache_rest s := (inodes s, filesystems s, fs_defs s, fs_nodes s, queue s, held s,
  i_rand s, i_alloc s).
Definition mount_rest s := (inodes s, fs_defs s, fs_nodes s, cache s, queue s, held s,
  i_rand s, i_alloc s).

Global Instance mount_frame_rest : HashFrame (@mount_table T) mount_rest.
Proof. by apply node_table_frame. Qed.
Global Instance mount_frame_data p :
  HashFrame (@mount_table T) (λ s, (λ f, (fs_src f, fs_code f)) <$> filesystems s !! p).
Proof. apply node_table_data; [apply _|done]. Qed.

Global Instance cache_lens : LensOk (@cache T) set_cache.
Proof. by split. Qed.
Global Instance inodes_lens : LensOk (@inodes T) set_inodes.
Proof. by split. Qed.
Global Instance filesystems_lens : LensOk (@filesystems T) set_filesystems.
Proof. by split. Qed.

Global Instance cache_clist_ok : ClistOk (@cache_clist T).
Proof. split; first [by apply node_field_ok|by apply node_field_indep]. Qed.
Global Instance ref_count_ok : FieldOk (@f_ref_count T).
Proof. by apply node_field_ok. Qed.
Global Instance fs_src_ok : FieldOk (@f_fs_src T).
Proof. by apply node_field_ok. Qed.

(** What relinking the list of unused entries leaves alone. *)
Definition entry_core (e : cache_entry_t) := (en_hash_next e, en_rev_next e, en_src e, en_inode e).
Definition all_but_cache s := (inodes s, filesystems s, fs_defs s, fs_nodes s, slots s,
  queue s, held s, i_rand s, i_alloc s).

Global Instance clist_frame_core p :
  ClistFrame (@cache_clist T) (λ s, entry_core <$> cache s !! p).
Proof.
  split; intros s q v s'; simpl; destruct (cache s !! q) eqn:Hq; try done; intros [= <-]; simpl;
    (destruct (decide (q = p)) as [->|]; [|by rewrite lookup_insert_ne]);
    by rewrite lookup_insert_eq, Hq.
Qed.
Global Instance clist_frame_rest : ClistFrame (@cache_clist T) all_but_cache.
Proof.
  split; intros s q v s'; simpl; destruct (cache s !! q) eqn:Hq; try done; by intros [= <-].
Qed.

(** A state in which only links of the list changed. *)
Definition same_cache s s' : Prop :=
  all_but_cache s' = all_but_cache s ∧
  ∀ p, entry_core <$> cache s' !! p = entry_core <$> cache s !! p.

Lemma clist_only_cache s s' l : clist_only cache_clist s s' l → same_cache s s'.
Proof. intros [H _]. split; [apply (H _ _ _)|intros p; apply (H _ _ (clist_frame_core p))]. Qed.

Lemma same_cache_trans s1 s2 s3 : same_cache s1 s2 → same_cache s2 s3 → same_cache s1 s3.
Proof. intros [H1 E1] [H2 E2]. split; [congruence|]. intros p. by rewrite E2. Qed.

Lemma same_cache_entry s s' p e : same_cache s s' → cache s !! p = Some e →
  ∃ e', cache s' !! p = Some e' ∧ entry_core e' = entry_core e.
Proof.
  intros [_ H] He. specialize (H p). rewrite He in H.
  destruct (cache s' !! p) as [e'|]; [|done]. simpl in H. exists e'. split; [done|congruence].
Qed.

Lemma same_cache_field {V} s s' p (f : cache_entry_t → V) :
  same_cache s s' → (∀ e e', entry_core e = entry_core e' → f e = f e') →
  f <$> cache s' !! p = f <$> cache s !! p.
Proof.
  intros [_ H] Hf. specialize (H p). destruct (cache s !! p), (cache s' !! p); simpl in *; try done.
  f_equal. apply Hf. congruence.
Qed.

(** Both tables of entries survive it. *)
Lemma same_cache_map s s' m : same_cache s s' → refines_map cache_table s m →
  refines_map cache_table s' m.
Proof.
  intros Hs Hm. pose proof Hs as [Hr _]. unfold all_but_cache in Hr. injection Hr as Hi Hfs _ _ Hsl _ _ _ _.
  eapply refines_frame; [done|..].
  - intros i. simpl. unfold slot. congruence.
  - intros k p _. split.
    + apply same_cache_field; [done|by intros ?? [=]].
    + apply (same_cache_field s s' p en_src); [done|by intros ?? [=]].
  - intros [f n]. unfold ht_hash. simpl. unfold cache_hash. simpl. rewrite Hfs.
    destruct (filesystems s !! f); simpl; [by rewrite Hi|done].
Qed.

Lemma same_cache_rev s s' m : same_cache s s' → refines_map (rev_table RevTable) s m →
  refines_map (rev_table RevTable) s' m.
Proof.
  intros Hs Hm. pose proof Hs as [Hr _]. unfold all_but_cache in Hr. injection Hr as Hi Hfs _ _ Hsl _ _ _ _.
  eapply refines_frame; [done|..].
  - intros i. simpl. unfold slot. congruence.
  - intros k p _. split.
    + apply same_cache_field; [done|by intros ?? [=]].
    + apply (same_cache_field s s' p en_inode); [done|by intros ?? [=]].
  - intros p. unfold ht_hash. simpl. unfold rev_hash. by rewrite Hi.
Qed.

(** ** The cache *)

(** [m] are the entries by place, [Q] the list of the unused ones.  An entry is
    in the list exactly if it has a successor there. *)
Record cache_inv s (m : gmap fs_ref ptr) (Q : list ptr) : Prop := {
  ci_map : refines_map cache_table s m;
  ci_queue : clist cache_clist s (queue s) Q;
  ci_listed p e : cache s !! p = Some e → en_list_next e ≠ NULL ↔ p ∈ Q;
}.

(** The list with an entry taken out. *)
Definition unlisted (p : ptr) (Q : list ptr) : list ptr := filter (λ q, q ≠ p) Q.

Lemma unlisted_notin p Q : p ∉ Q → unlisted p Q = Q.
Proof.
  unfold unlisted. induction Q as [|x Q IH]; intros Hp; [done|].
  rewrite filter_cons_True by set_solver. f_equal. apply IH. set_solver.
Qed.

Lemma unlisted_mid p l1 l2 : p ∉ l1 → p ∉ l2 → unlisted p (l1 ++ p :: l2) = l1 ++ l2.
Proof.
  intros H1 H2. unfold unlisted. rewrite filter_app, filter_cons_False by naive_solver.
  fold (unlisted p l1) (unlisted p l2). by rewrite !unlisted_notin.
Qed.

(** Where the queue variable points after its front was deleted. *)
Lemma same_cache_queue s s' p : same_cache s s' → same_cache (set_queue p s) (set_queue p s').
Proof. intros [H E]. split; [|exact E]. unfold all_but_cache in *. simpl. congruence. Qed.

Lemma queue_unlink_spec s p l1 x l2 :
  clist cache_clist s p (l1 ++ x :: l2) → l1 ≠ [] →
  wp (queue_unlink x) (λ _ s', clist cache_clist s' p (l1 ++ l2) ∧
    clist_only cache_clist s s' (l1 ++ x :: l2)) s.
Proof.
  intros Hc Hl. destruct l1 as [|h l1]; [done|]. pose proof (clist_head _ _ _ _ _ Hc). subst h.
  exact (clist_unlink_spec cache_clist s p x l1 l2 Hc).
Qed.

(** The fields of the entries after the entry was taken out of the list. *)
Record dequeued s s' (x : ptr) (Q : list ptr) : Prop := {
  dq_same : same_cache (set_queue (queue s') s) s';
  dq_queue : clist cache_clist s' (queue s') (unlisted x Q);
  dq_other p : p ∉ Q → f_list_next.(fget) s' p = f_list_next.(fget) s p;
}.

Lemma queue_take_spec s x Q :
  clist cache_clist s (queue s) Q → x ∈ Q →
  wp (if negb (queue s =? x) then queue_unlink x
      else q ← clist_delete cache_clist (queue s); modify (set_queue q))
     (λ _ s', dequeued s s' x Q ∧ is_Some (cache s' !! x)) s.
Proof.
  intros Hc Hx. pose proof Hc as (_ & Hnd & _ & _).
  apply list_elem_of_split in Hx as (l1 & l2 & ->).
  apply NoDup_app in Hnd as (Hn1 & H12 & Hn2). apply NoDup_cons in Hn2 as [Hx2 Hn2].
  assert (x ∉ l1) as Hx1 by (intros H; apply (H12 x H); by left).
  assert (is_Some (cache s !! x)) as Hsx.
  { destruct (clist_valid _ _ _ _ x Hc) as [[v Hv] _]; [set_solver|]. simpl in Hv.
    by destruct (cache s !! x). }
  assert (∀ s', same_cache s s' → is_Some (cache s' !! x)) as Hkeep.
  { intros s' [_ H]. specialize (H x). destruct Hsx as [e He]. rewrite He in H.
    destruct (cache s' !! x); [eauto|done]. }
  destruct (Z.eqb_spec (queue s) x) as [Hq|Hq]; simpl.
  - assert (l1 = []) as ->.
    { destruct l1 as [|h l1]; [done|]. apply clist_head in Hc. set_solver. }
    apply wp_bind. eapply wp_mono; [exact (clist_delete_spec cache_clist s (queue s) (x :: l2) Hc)|]. simpl.
    intros r s' (-> & Hc' & Ho). apply wp_modify. pose proof (clist_only_cache _ _ _ Ho) as Hs.
    split; [|exact (Hkeep s' Hs)]. split; simpl.
    + by apply same_cache_queue.
    + replace (unlisted x (x :: l2)) with l2; [by apply (clist_frame cache_clist s')|].
      symmetry. apply (unlisted_mid x [] l2); set_solver.
    + intros p Hp. by destruct (proj2 Ho p Hp).
  - assert (l1 ≠ []) as Hne.
    { intros ->. by apply clist_head in Hc. }
    eapply wp_mono; [by apply queue_unlink_spec|]. intros [] s' [Hc' Ho].
    pose proof (clist_only_cache _ _ _ Ho) as Hs. pose proof Hs as [Hr _].
    assert (queue s' = queue s) as Hq' by (unfold all_but_cache in Hr; congruence).
    split; [|by apply Hkeep]. split.
    + rewrite Hq'. by destruct s.
    + rewrite unlisted_mid, Hq' by done. exact Hc'.
    + intros p Hp. by destruct (proj2 Ho p Hp).
Qed.

Lemma elem_of_unlisted p x Q : p ∈ unlisted x Q ↔ p ≠ x ∧ p ∈ Q.
Proof. unfold unlisted. by rewrite list_elem_of_filter. Qed.

Lemma queue_frame_map q s m : refines_map cache_table s m → refines_map cache_table (set_queue q s) m.
Proof. intros Hm. by eapply refines_frame. Qed.
Lemma queue_frame_rev q s m :
  refines_map (rev_table RevTable) s m → refines_map (rev_table RevTable) (set_queue q s) m.
Proof. intros Hm. by eapply refines_frame. Qed.

Lemma store_next_same s p v s' : fset f_list_next s p v = Some s' → same_cache s s'.
Proof.
  intros Hs. apply (clist_only_cache _ _ [p]).
  eapply (clist_only_next cache_clist); [exact Hs|by left].
Qed.
Lemma store_last_same s p v s' : fset f_list_last s p v = Some s' → same_cache s s'.
Proof.
  intros Hs. apply (clist_only_cache _ _ [p]).
  eapply (clist_only_last cache_clist); [exact Hs|by left].
Qed.

Lemma listed_next s p e : cache s !! p = Some e → fget f_list_next s p = Some (en_list_next e).
Proof. simpl. by intros ->. Qed.

(** [list_next] and [list_last] of the entry are cleared. *)
Lemma clear_links_spec s x :
  is_Some (cache s !! x) →
  wp (store f_list_next x NULL;; store f_list_last x NULL)
     (λ _ s', same_cache s s' ∧ fget f_list_next s' x = Some NULL ∧
        ∀ p, p ≠ x → fget f_list_next s' p = fget f_list_next s p ∧
                     fget f_list_last s' p = fget f_list_last s p) s.
Proof.
  intros [e He].
  apply wp_bind, (wp_store (cl_next cache_clist)); [simpl; rewrite He; eauto|]. intros s1 Hs1.
  apply (wp_store (cl_last cache_clist)).
  { clist_fields. simpl. rewrite He. eauto. }
  intros s2 Hs2. split_and!.
  - eapply same_cache_trans; [by eapply store_next_same|by eapply store_last_same].
  - change f_list_next with (cl_next (@cache_clist T)). clist_fields; done.
  - intros p Hp. change f_list_next with (cl_next (@cache_clist T)).
    change f_list_last with (cl_last (@cache_clist T)). clist_fields; done.
Qed.

Lemma queue_remove_spec s m Q x :
  cache_inv s m Q → is_Some (cache s !! x) →
  wp (queue_remove x)
     (λ _ s', cache_inv s' m (unlisted x Q) ∧ same_cache (set_queue (queue s') s) s') s.
Proof.
  intros [Hm Hq Hl] [e He]. unfold queue_remove.
  apply wp_bind, (wp_load f_list_next) with (en_list_next e); [by apply listed_next|].
  destruct (Z.eqb_spec (en_list_next e) NULL) as [Hn|Hn]; simpl.
  { assert (x ∉ Q) as Hx by (intros Hx; by apply (Hl x e He) in Hx).
    apply wp_ret. rewrite unlisted_notin by done. split; [done|by destruct s]. }
  apply (Hl x e He) in Hn. rename Hn into Hx.
  apply wp_bind, wp_gets, wp_bind. eapply wp_mono; [by apply queue_take_spec|].
  intros [] s1 [[Hs Hq1 Ho] Hx1]. cbn beta.
  eapply wp_mono; [by apply clear_links_spec|]. cbn beta.
  intros [] s2 (Hs2 & Hxn & Hother). pose proof Hs2 as [Hr _].
  assert (queue s2 = queue s1) as Hqq by (unfold all_but_cache in Hr; congruence).
  assert (same_cache (set_queue (queue s2) s) s2) as Hss.
  { rewrite Hqq. by eapply same_cache_trans. }
  split; [|done]. split.
  - eapply same_cache_map; [done|]. by apply queue_frame_map.
  - rewrite Hqq. apply (clist_frame _ s1); [|done].
    intros p Hp. apply elem_of_unlisted in Hp as [Hp _]. by apply Hother.
  - intros p e2 He2. rewrite elem_of_unlisted. apply listed_next in He2.
    destruct (decide (p = x)) as [->|Hne].
    { rewrite Hxn in He2. injection He2 as <-. split; [by intros []|by intros [? _]]. }
    destruct (Hother p Hne) as [Hf _]. rewrite Hf in He2.
    destruct (decide (p ∈ Q)) as [Hp|Hp].
    + destruct (clist_next_in _ _ _ _ p Hq1) as (y & Hy & _ & Hyn); [by apply elem_of_unlisted|].
      simpl in Hy, He2. rewrite Hy in He2. injection He2 as <-. by split.
    + rewrite (Ho p Hp) in He2. simpl in He2. destruct (cache s !! p) as [e3|] eqn:He3; [|done].
      injection He2 as <-. rewrite (Hl p e3 He3). split; [done|by intros [_ ?]].
Qed.

(** ** Mutexes and reference counts *)

Lemma wp_acquire l (Q : unit → istate T → Prop) s :
  l ∉ held s → Q tt (set_held ({[l]} ∪ held s) s) → wp (acquire l) Q s.
Proof. intros Hl HQ. apply wp_lock; [by apply bool_decide_eq_false_2|done]. Qed.

Lemma acquire_held l s : l ∈ held s → acquire l s = Deadlock.
Proof. intros Hl. unfold acquire, lock. by rewrite bool_decide_eq_true_2. Qed.

Lemma cache_inv_held h s m Q : cache_inv s m Q → cache_inv (set_held h s) m Q.
Proof. intros [Hm Hq Hl]. split; [by eapply refines_frame|by apply (clist_frame _ s)|done]. Qed.

Lemma rev_map_held h t s m :
  refines_map (rev_table t) s m → refines_map (rev_table t) (set_held h s) m.
Proof. intros Hm. by eapply refines_frame. Qed.

Definition with_refs (n : Z) (i : inode_t) : inode_t :=
  Inode (stat_id i) (stat_filesys i) (hard_ref_count i) n (funcs i) (i_hash_next i).

(** The identifiers of inodes do not depend on their counts. *)
Lemma with_refs_id (n : Z) (p : ptr) (i : inode_t) (I : gmap ptr inode_t) (q : ptr) :
  I !! p = Some i → stat_id <$> (<[p := with_refs n i]> I) !! q = stat_id <$> I !! q.
Proof.
  intros Hp. destruct (decide (p = q)) as [<-|]; [|by rewrite lookup_insert_ne].
  by rewrite lookup_insert_eq, Hp.
Qed.

Lemma cache_inv_inodes I s m Q :
  (∀ q, stat_id <$> I !! q = stat_id <$> inodes s !! q) →
  cache_inv s m Q → cache_inv (set_inodes I s) m Q.
Proof.
  intros HI [Hm Hq Hl]. split; [|by apply (clist_frame _ s)|done].
  eapply refines_frame; [done..|]. intros [f n]. unfold ht_hash. simpl. unfold cache_hash. simpl.
  destruct (filesystems s !! f) as [fs|]; simpl; [|done].
  specialize (HI (fs_src fs)). destruct (I !! fs_src fs), (inodes s !! fs_src fs); simpl in *;
    congruence.
Qed.

Lemma rev_map_inodes I t s m :
  (∀ q, stat_id <$> I !! q = stat_id <$> inodes s !! q) →
  refines_map (rev_table t) s m → refines_map (rev_table t) (set_inodes I s) m.
Proof.
  intros HI Hm. eapply refines_frame; [done..|]. intros p. simpl. unfold rev_hash. simpl. by rewrite HI.
Qed.

Lemma take_reference_spec s p i :
  inodes s !! p = Some i → InodeMutex p ∉ held s →
  wp (take_reference p)
     (λ _ s', s' = set_inodes (<[p := with_refs (u32 (ref_count i + 1)) i]> (inodes s)) s) s.
Proof.
  intros Hi Hl. apply wp_bind, wp_acquire; [done|].
  apply wp_bind. unfold increment.
  apply wp_bind, (wp_load f_ref_count) with (ref_count i); [simpl; by rewrite Hi|].
  unfold store. eapply wp_putopt; [simpl; by rewrite Hi|].
  apply wp_unlock. simpl. unfold set_held, set_inodes. simpl. by rewrite lock_unlock.
Qed.

Lemma core_fields s s' p e :
  cache s !! p = Some e → entry_core <$> cache s' !! p = entry_core <$> cache s !! p →
  ∃ e', cache s' !! p = Some e' ∧ en_inode e' = en_inode e.
Proof.
  intros He H. rewrite He in H. destruct (cache s' !! p) as [e'|]; [|done].
  simpl in H. exists e'. split; [done|]. unfold entry_core in H. congruence.
Qed.

Lemma inode_cache_hit (A : allocator T) fs_funcs s m Q filesys n x e i :
  cache_inv s m Q → m !! FsRef filesys n = Some x → cache s !! x = Some e →
  en_inode e ≠ NULL → inodes s !! en_inode e = Some i →
  TableMutex CacheTable ∉ held s → InodeMutex (en_inode e) ∉ held s →
  wp (inode_cache_lookup A fs_funcs filesys n)
     (λ r s', r = en_inode e ∧ cache_inv s' m (unlisted x Q) ∧
        inodes s' = <[en_inode e := with_refs (u32 (ref_count i + 1)) i]> (inodes s) ∧
        held s' = held s ∧ ∀ p, entry_core <$> cache s' !! p = entry_core <$> cache s !! p) s.
Proof.
  intros Hc Hx He Hp Hi Hl1 Hl2. apply wp_bind, wp_acquire; [done|].
  set (s0 := set_held _ s). assert (cache_inv s0 m Q) as Hc0 by by apply cache_inv_held.
  pose proof (ci_map _ _ _ Hc0) as Hm.
  apply wp_bind. eapply wp_mono;
    [apply (lookup_refines _ _ m); [done|by eapply refines_hash]|]. cbn beta.
  rewrite Hx. intros r ? [-> ->]. simpl default.
  destruct (refines_node _ _ _ _ _ Hm Hx) as (Hxn & _ & _).
  rewrite (proj2 (Z.eqb_neq x NULL) Hxn). simpl.
  apply wp_bind, (wp_load f_en_inode) with (en_inode e); [simpl; by rewrite He|].
  rewrite (proj2 (Z.eqb_neq (en_inode e) NULL) Hp). simpl.
  apply wp_bind. eapply wp_mono; [apply queue_remove_spec; [done|simpl; eauto]|]. cbn beta.
  intros [] s1 [Hc1 [Hr1 Hcore]]. unfold all_but_cache in Hr1. simpl in Hr1.
  injection Hr1 as HI HF _ _ _ Hh _ _.
  apply wp_bind. eapply wp_mono; [apply (take_reference_spec _ _ i)|]; cbn beta.
  { by rewrite HI. }
  { rewrite Hh. set_solver. }
  intros [] s2 ->. apply wp_bind, wp_unlock, wp_ret. simpl. split_and!; [done| | | |].
  - apply cache_inv_held, cache_inv_inodes; [|done]. intros q. apply with_refs_id. by rewrite HI.
  - by rewrite HI.
  - rewrite Hh. by apply lock_unlock.
  - intros q. by rewrite Hcore.
Qed.

(** [inode_cache_free] puts the entry in front of the unused ones. *)
Lemma inode_cache_free_spec s m Q (mr : gmap ptr ptr) p x i :
  cache_inv s m Q → refines_map (rev_table RevTable) s mr → mr !! p = Some x → x ∉ Q →
  inodes s !! p = Some i → TableMutex CacheTable ∉ held s →
  wp (inode_cache_free p)
     (λ _ s', cache_inv s' m (x :: Q) ∧ inodes s' = inodes s ∧ held s' = held s ∧
        ∀ p, entry_core <$> cache s' !! p = entry_core <$> cache s !! p) s.
Proof.
  intros Hc Hr Hx HxQ Hi Hl. apply wp_bind, wp_acquire; [done|].
  apply (cache_inv_held ({[TableMutex CacheTable]} ∪ held s)) in Hc.
  apply (rev_map_held ({[TableMutex CacheTable]} ∪ held s)) in Hr.
  apply wp_bind. eapply wp_mono;
    [apply (lookup_refines _ _ mr); [done|by eapply refines_hash]|]. cbn beta.
  rewrite Hx. intros r ? [-> ->]. simpl default.
  destruct (refines_node _ _ _ _ _ Hr Hx) as (Hxn & [v Hv] & _). simpl in Hv.
  destruct (cache s !! x) as [e|] eqn:He; [|done].
  rewrite (proj2 (Z.eqb_neq x NULL) Hxn). simpl. destruct Hc as [Hm Hq Hlist].
  apply wp_bind, wp_bind, wp_gets, wp_bind. eapply wp_mono.
  { apply (clist_insert_spec cache_clist _ _ Q); try done; simpl; rewrite He; eauto. }
  cbn beta. intros r s1 (-> & Hq1 & Ho). pose proof (clist_only_cache _ _ _ Ho) as Hs.
  pose proof Hs as [Hr1 Hcore]. unfold all_but_cache in Hr1. simpl in Hr1.
  injection Hr1 as HI _ _ _ _ _ Hh _ _.
  apply wp_modify, wp_unlock. split_and!; [|done|simpl; rewrite Hh; by apply lock_unlock|exact Hcore].
  apply cache_inv_held. split.
  - by apply queue_frame_map, (same_cache_map _ _ _ Hs).
  - by apply (clist_frame _ s1).
  - intros q e1 He1. simpl in He1. apply listed_next in He1.
    destruct (decide (q ∈ x :: Q)) as [Hin|Hout].
    + destruct (clist_next_in _ _ _ _ q Hq1 Hin) as (y & Hy & _ & Hyn).
      simpl in Hy, He1. rewrite Hy in He1. injection He1 as <-. by split.
    + destruct (proj2 Ho q Hout) as [Hf _]. simpl in Hf, He1. rewrite Hf in He1.
      destruct (cache s !! q) as [e2|] eqn:He2; [|done]. injection He1 as <-.
      rewrite (Hlist q e2 He2). set_solver.
Qed.
End correctness.

(** ** The cache keeps inodes *)

(** C13: an inode that nobody uses stays in the cache.  After [inode_cache_free]
    its entry heads the list of unused ones; the next lookup of its place in
    the file system does not go to the file system but returns the same inode
    with one more reference, the entry leaves the list, which is then the one
    before, and all mutexes are free again. *)
Theorem inode_cache_reuse {T} (A : allocator T) fs_funcs (s : istate T) m mr Q p x e i :
  cache_inv s m Q → refines_map (rev_table RevTable) s mr →
  mr !! p = Some x → m !! en_src e = Some x → cache s !! x = Some e →
  x ∉ Q → p ≠ NULL → inodes s !! p = Some i →
  TableMutex CacheTable ∉ held s → InodeMutex p ∉ held s →
  ∃ s1 s2, inode_cache_free p s = Done (tt, s1) ∧ cache_inv s1 m (x :: Q) ∧
    inode_cache_lookup A fs_funcs (fr_filesys (en_src e)) (fr_filesys_id (en_src e)) s1
      = Done (p, s2) ∧
    cache_inv s2 m Q ∧ held s2 = held s ∧
    inodes s2 = <[p := with_refs (u32 (ref_count i + 1)) i]> (inodes s).
Proof.
  intros Hc Hr Hp Hm He HxQ Hpn Hi Hl1 Hl2.
  destruct (refines_node _ _ _ _ _ Hr Hp) as (_ & _ & Hid). simpl in Hid.
  rewrite He in Hid. injection Hid as <-.
  pose proof (inode_cache_free_spec s m Q mr _ x i Hc Hr Hp HxQ Hi Hl1)
    as ([] & s1 & Hs1 & Hc1 & HI1 & Hh1 & Hcore)%wp_Done.
  destruct (core_fields s s1 x e He (Hcore x)) as (e1 & He1 & Hin).
  pose proof (inode_cache_hit A fs_funcs s1 m (x :: Q) (fr_filesys (en_src e))
    (fr_filesys_id (en_src e)) x e1 i) as Hw. rewrite Hin in Hw.
  destruct (proj1 (wp_Done _ _ _) (Hw Hc1 ltac:(by destruct (en_src e)) He1 Hpn ltac:(by rewrite HI1)
    ltac:(by rewrite Hh1) ltac:(by rewrite Hh1))) as (r & s2 & Hs2 & -> & Hc2 & HI2 & Hh2 & _).
  exists s1, s2. split_and!; [done|done|done| |congruence|congruence].
  unfold unlisted in Hc2. rewrite filter_cons_False in Hc2 by naive_solver.
  fold (unlisted x Q) in Hc2. by rewrite unlisted_notin in Hc2.
Qed.

(** One inode, read from the file system at 300, which is mounted on the inode
    200. *)
Definition one_cached : istate unit := IState
  {[100 := Inode 5 3 1 0 0 NULL; 200 := Inode 3 0 1 1 0 NULL]} {[300 := Filesys 200 0 NULL]} ∅ ∅
  {[400 := CacheEntry NULL NULL NULL NULL (FsRef 300 7) 100]}
  {[(CacheTable, 21) := 400; (RevTable, 5) := 400]} NULL ∅ rand_init tt.

Definition no_allocator : allocator unit := Allocator (λ _, mret NULL) (λ _, mret tt).

Lemma two_slots (t t' u : table_id) (i i' j : Z) (p q : ptr) :
  t ≠ t' → u = t →
  default NULL (({[(t, i) := p; (t', i') := q]} : gmap (table_id * Z) ptr) !! (u, j))
    = if decide (j = i) then p else NULL.
Proof.
  intros Ht ->. case_decide as Hj; [subst; by rewrite lookup_insert_eq|].
  rewrite lookup_insert_ne by naive_solver.
  by rewrite lookup_singleton_ne by naive_solver.
Qed.

Lemma one_cached_inv : cache_inv one_cached {[FsRef 300 7 := 400]} [].
Proof.
  split.
  - apply (refines_singleton cache_table _ _ _ 21); try done.
    intros i. by apply two_slots.
  - apply clist_empty.
  - intros p e. simpl. intros Hp%lookup_singleton_Some. destruct Hp as [<- <-]. simpl.
    split; [done|set_solver].
Qed.

Lemma one_cached_rev : refines_map (rev_table RevTable) one_cached {[100 := 400]}.
Proof.
  apply (refines_singleton (rev_table RevTable) _ _ _ 5); try done. intros i. simpl. unfold slot, one_cached. simpl.
  case_decide as Hj; [by subst|].
  by rewrite lookup_insert_ne, lookup_singleton_ne by naive_solver.
Qed.

Lemma inode_cache_reuse_witness :
  ∃ s1 s2, inode_cache_free 100 one_cached = Done (tt, s1) ∧
    inode_cache_lookup no_allocator (λ _, FsFuncs _ (λ _ _, fault) (λ _ _ _, fault) (λ _, fault)
      (λ _ _, fault) (λ _, fault)) 300 7 s1 = Done (100, s2) ∧ queue s1 = 400 ∧ queue s2 = NULL.
Proof.
  destruct (inode_cache_reuse no_allocator (λ _, FsFuncs _ (λ _ _, fault) (λ _ _ _, fault)
    (λ _, fault) (λ _ _, fault) (λ _, fault)) one_cached {[FsRef 300 7 := 400]} {[100 := 400]} [] 100 400
    (CacheEntry NULL NULL NULL NULL (FsRef 300 7) 100) (Inode 5 3 1 0 0 NULL))
    as (s1 & s2 & H1 & Hc1 & H2 & Hc2 & _);
    [exact one_cached_inv|exact one_cached_rev|done|done|done|set_solver|done|done|done|done|].
  exists s1, s2. split_and!; [exact H1|exact H2| |].
  - exact (clist_head _ _ _ _ _ (ci_queue _ _ _ Hc1)).
  - destruct (ci_queue _ _ _ Hc2) as (_ & _ & _ & H). exact H.
Defined.

(** ** Mounted file systems *)

Section mounting.
Context {T : Type} (strcmp : list Z → list Z → Z) (mount : ptr → ptr → M (istate T) ptr).
Context (fs_funcs : ptr → fs_func_set_t (istate T)).
Context (Hstrcmp : ∀ a b, strcmp a b = 0 ↔ a = b).
Implicit Types s : istate T.

Lemma fs_table_eq : HashEq (@fs_table T strcmp).
Proof. intros a b. simpl. by rewrite Z.eqb_eq. Qed.

Lemma set_held_id s l : l ∉ held s → set_held (({[l]} ∪ held s) ∖ {[l]}) s = s.
Proof. intros Hl. rewrite lock_unlock by done. by destruct s. Qed.

Lemma set_held_held h h' s : set_held h (set_held h' s) = set_held h s.
Proof. done. Qed.

Lemma mount_map_held h s m : refines_map mount_table s m → refines_map mount_table (set_held h s) m.
Proof. intros Hm. by eapply refines_frame. Qed.
Lemma fs_map_held h s m :
  refines_map (fs_table strcmp) s m → refines_map (fs_table strcmp) (set_held h s) m.
Proof. intros Hm. by eapply refines_frame. Qed.

(** What the [mount] function of a file system promises: a new file system
    object, with the tables and mutexes left as they are. *)
Record mounted s (mm : gmap ptr ptr) (inode fs : ptr) (s1 : istate T) : Prop := {
  mo_fs : fs ≠ NULL;
  mo_obj : is_Some (filesystems s1 !! fs);
  mo_new k : mm !! k ≠ Some fs;
  mo_map : refines_map mount_table s1 mm;
  mo_inode : is_Some (inodes s1 !! inode);
  mo_held : held s1 = held s;
}.

Lemma filesys_lookup_spec s mm inode :
  refines_map mount_table s mm → is_Some (inodes s !! inode) → TableMutex MountTable ∉ held s →
  filesys_lookup inode s = Done (default NULL (mm !! inode), s).
Proof.
  intros Hm Hi Hl. apply run_wp. apply wp_bind, wp_acquire; [done|].
  apply wp_bind. eapply wp_mono.
  { apply (lookup_refines mount_table _ mm); [by apply mount_map_held|].
    destruct Hi as [i Hi]. has_bucket. unfold rev_hash. simpl. rewrite Hi. eauto. }
  intros r ? [-> ->]. apply wp_bind, wp_unlock, wp_ret. split; [done|]. exact (set_held_id _ _ Hl).
Qed.

(** The insertion of a new file system under its inode. *)
Lemma mount_insert_spec s s1 mm inode fs :
  mounted s mm inode fs s1 → mm !! inode = None → TableMutex MountTable ∉ held s →
  wp (store f_fs_src fs inode;;
      acquire (TableMutex MountTable);;
      _ ← hash_table_insert mount_table fs;
      release (TableMutex MountTable))
     (λ _ s2, refines_map mount_table s2 (<[inode := fs]> mm) ∧ held s2 = held s ∧
        inodes s2 = inodes s1 ∧ fs_code <$> filesystems s2 !! fs = fs_code <$> filesystems s1 !! fs) s1.
Proof.
  intros [Hfs [f Hf] Hnew Hm [i Hi] Hh] Hno Hl.
  apply wp_bind. unfold store. eapply wp_putopt; [simpl; by rewrite Hf|].
  set (s2 := set_filesystems _ s1). assert (refines_map mount_table s2 mm) as Hm2.
  { eapply refines_frame; [exact Hm|done| |done]. intros k p Hp. simpl.
    rewrite lookup_insert_ne by (intros ->; by eapply Hnew). done. }
  apply wp_bind, wp_acquire; [simpl; by rewrite Hh|].
  apply (mount_map_held ({[TableMutex MountTable]} ∪ held s2)) in Hm2.
  apply wp_bind. eapply wp_mono.
  { apply (insert_refines mount_table _ mm fs inode); [done|done| | | |done].
    - simpl. rewrite lookup_insert_eq. eauto.
    - simpl. by rewrite lookup_insert_eq.
    - has_bucket. unfold rev_hash. simpl. rewrite Hi. eauto. }
  intros r s3 (-> & Ho & _ & Hm3). apply wp_unlock.
  pose proof (Ho _ _ mount_frame_rest) as Hr. unfold mount_rest in Hr. simpl in Hr.
  injection Hr as HI _ _ _ _ Hheld _ _. pose proof (Ho _ _ (mount_frame_data fs)) as Hd.
  split_and!; [by apply mount_map_held| |done|].
  - simpl. rewrite Hheld, Hh. by apply lock_unlock.
  - simpl in Hd. rewrite lookup_insert_eq in Hd. simpl in *.
    destruct (filesystems s3 !! fs); [|done]. simpl in *. rewrite Hf. simpl. congruence.
Qed.

Lemma filesys_mount_spec s s1 fm mm name node n d inode fs f :
  refines_map (fs_table strcmp) s fm → fm !! name = Some node →
  fs_nodes s !! node = Some n → fn_fs n ≠ NULL → fs_defs s !! fn_fs n = Some d →
  mount (def_mount d) inode s = Done (fs, s1) → mounted s mm inode fs s1 →
  mm !! inode = None → filesystems s1 !! fs = Some f →
  TableMutex FsTable ∉ held s → TableMutex MountTable ∉ held s →
  wp (filesys_mount strcmp mount name inode) (λ r s2, r = fs ∧
    refines_map mount_table s2 (<[inode := fs]> mm) ∧ held s2 = held s ∧
    inodes s2 = inodes s1 ∧ fs_code <$> filesystems s2 !! fs = Some (fs_code f)) s.
Proof.
  intros Hm Hn Hnode Hdef Hd Hmount Hmo Hno Hf Hl1 Hl2. apply wp_bind, wp_acquire; [done|].
  apply (fs_map_held ({[TableMutex FsTable]} ∪ held s)) in Hm.
  pose proof fs_table_eq. apply wp_bind. eapply wp_mono.
  { apply (lookup_refines (fs_table strcmp) _ fm); [done|by eapply refines_hash]. }
  cbn beta. rewrite Hn. intros r ? [-> ->]. simpl default.
  apply wp_bind, (wp_getopt _ (fn_fs n)); [simpl; by rewrite Hnode|].
  rewrite (proj2 (Z.eqb_neq _ NULL) Hdef). simpl negb. cbv iota.
  apply wp_bind, wp_unlock. simpl held. rewrite set_held_held, set_held_id by done.
  apply wp_bind, (wp_getopt _ (def_mount d)); [by rewrite Hd|].
  apply wp_bind. unfold wp at 1. rewrite Hmount.
  rewrite (proj2 (Z.eqb_neq fs NULL)) by apply Hmo. simpl negb. cbv iota.
  apply wp_bind. eapply wp_mono; [by eapply mount_insert_spec|]. cbn beta.
  intros [] s2 (H1 & H2 & H3 & H4). apply wp_ret. rewrite Hf in H4. done.
Qed.

Lemma filesys_unmount_spec s mm inode fs f :
  refines_map mount_table s (<[inode := fs]> mm) → mm !! inode = None →
  is_Some (inodes s !! inode) → filesystems s !! fs = Some f →
  (∀ s, unmount (fs_funcs (fs_code f)) fs s = Done (0, s)) → TableMutex MountTable ∉ held s →
  wp (filesys_unmount fs_funcs fs) (λ r s1, r = 0 ∧ refines_map mount_table s1 mm ∧
    held s1 = held s ∧ inodes s1 = inodes s) s.
Proof.
  intros Hm Hno [i Hi] Hf Hun Hl.
  destruct (refines_node _ _ _ _ _ Hm (lookup_insert_eq _ _ _)) as (_ & _ & Hid).
  simpl in Hid. rewrite Hf in Hid. injection Hid as Hsrc.
  apply wp_bind, wp_acquire; [done|].
  apply (mount_map_held ({[TableMutex MountTable]} ∪ held s)) in Hm.
  apply wp_bind, (wp_getopt _ (fs_funcs (fs_code f))); [simpl; by rewrite Hf|].
  apply wp_bind. unfold wp at 1. rewrite Hun. simpl Z.eqb. cbv iota.
  apply wp_bind, wp_bind, (wp_load f_fs_src) with inode.
  { simpl. rewrite Hf. simpl. by rewrite Hsrc. }
  apply wp_bind. eapply wp_mono.
  { apply (delete_refines mount_table _ _ inode Hm). has_bucket. unfold rev_hash.
    simpl. rewrite Hi. eauto. }
  cbn beta. intros r s3 (_ & Ho & _ & Hm3). apply wp_ret, wp_bind, wp_unlock, wp_ret.
  rewrite delete_insert_id in Hm3 by done.
  pose proof (Ho _ _ mount_frame_rest) as Hrest. unfold mount_rest in Hrest. simpl in Hrest.
  injection Hrest as HI3 _ _ _ _ Hheld _ _.
  split_and!; [done|by apply mount_map_held| |done].
  simpl. rewrite Hheld. by apply lock_unlock.
Qed.

(** C25: a mounted file system is found by the inode it is mounted on, until it
    is unmounted.  [filesys_mount] looks the type up by its name, calls its
    [mount] function and lists the result; [filesys_lookup] then returns it,
    and after a successful [filesys_unmount] the mounted file systems are
    those from before.  All mutexes are given back. *)
Theorem filesys_mount_lookup s s1 fm mm name node n d inode fs f :
  refines_map (fs_table strcmp) s fm → fm !! name = Some node →
  fs_nodes s !! node = Some n → fn_fs n ≠ NULL → fs_defs s !! fn_fs n = Some d →
  mount (def_mount d) inode s = Done (fs, s1) → mounted s mm inode fs s1 →
  mm !! inode = None → filesystems s1 !! fs = Some f →
  (∀ s, unmount (fs_funcs (fs_code f)) fs s = Done (0, s)) →
  TableMutex FsTable ∉ held s → TableMutex MountTable ∉ held s →
  ∃ s2 s3, filesys_mount strcmp mount name inode s = Done (fs, s2) ∧ held s2 = held s ∧
    filesys_lookup inode s2 = Done (fs, s2) ∧
    filesys_unmount fs_funcs fs s2 = Done (0, s3) ∧ held s3 = held s ∧
    refines_map mount_table s3 mm ∧ filesys_lookup inode s3 = Done (NULL, s3).
Proof.
  intros Hm Hn Hnode Hdef Hd Hmount Hmo Hno Hf Hun Hl1 Hl2.
  destruct (proj1 (wp_Done _ _ _) (filesys_mount_spec s s1 fm mm name node n d inode fs f Hm Hn
    Hnode Hdef Hd Hmount Hmo Hno Hf Hl1 Hl2)) as (r & s2 & Hr & -> & Hm2 & Hh2 & HI2 & Hc2).
  assert (is_Some (inodes s2 !! inode)) as Hi2 by (rewrite HI2; apply Hmo).
  destruct (filesystems s2 !! fs) as [f2|] eqn:Hf2; [|done]. injection Hc2 as Hc2.
  destruct (proj1 (wp_Done _ _ _) (filesys_unmount_spec s2 mm inode fs f2 Hm2 Hno Hi2 Hf2
    ltac:(by rewrite Hc2) ltac:(by rewrite Hh2))) as (r & s3 & Hr3 & -> & Hm3 & Hh3 & HI3).
  exists s2, s3. split_and!; [done|done| |done|congruence|done|].
  - rewrite (filesys_lookup_spec s2 (<[inode := fs]> mm)) by (first [done|by rewrite Hh2]).
    by rewrite lookup_insert_eq.
  - rewrite (filesys_lookup_spec s3 mm) by (first [done|by rewrite Hh3, Hh2|by rewrite HI3]).
    by rewrite Hno.
Qed.

(** Mounting a type that was not registered dereferences the null node. *)
Theorem filesys_mount_unknown_faults s fm name inode :
  refines_map (fs_table strcmp) s fm → fm !! name = None → fs_nodes s !! NULL = None →
  is_Some (strhash name) → TableMutex FsTable ∉ held s →
  filesys_mount strcmp mount name inode s = Fault.
Proof.
  intros Hm Hn Hnull Hh Hl. apply bind_out. apply wp_acquire; [done|].
  apply (fs_map_held ({[TableMutex FsTable]} ∪ held s)) in Hm. pose proof fs_table_eq.
  apply bind_out. eapply wp_mono;
    [apply (lookup_refines (fs_table strcmp) _ fm); [done|by has_bucket]|].
  cbn beta. rewrite Hn. intros r ? [-> ->]. simpl default. apply fault_bind.
  unfold getopt. simpl. by rewrite Hnull.
Qed.
End mounting.

(** The file system type "c" is registered and can be mounted at 300. *)
Definition one_type : istate unit := IState
  {[200 := Inode 3 0 1 1 0 NULL]} ∅ {[500 := FsDef [99; 0] 1]} {[600 := FsNode 500 NULL]} ∅
  {[(FsTable, 99) := 600]} NULL ∅ rand_init tt.

Definition compare_strings (a b : list Z) : Z := if decide (a = b) then 0 else 1.
Definition mount_at_300 (code inode : ptr) : M (istate unit) ptr :=
  modify (λ s, set_filesystems (<[300 := Filesys NULL 7 NULL]> (filesystems s)) s);; mret 300.
Definition quiet_funcs (code : ptr) : fs_func_set_t (istate unit) :=
  FsFuncs _ (λ _ _, fault) (λ _ _ _, fault) (λ _, fault) (λ _ _, fault) (λ _, mret 0).

Lemma filesys_mount_lookup_witness :
  ∃ s2 s3, filesys_mount compare_strings mount_at_300 [99; 0] 200 one_type = Done (300, s2) ∧
    filesys_lookup 200 s2 = Done (300, s2) ∧ filesys_unmount quiet_funcs 300 s2 = Done (0, s3) ∧
    filesys_lookup 200 s3 = Done (NULL, s3).
Proof.
  assert (∀ a b, compare_strings a b = 0 ↔ a = b) as Hstr.
  { intros a b. unfold compare_strings. by case_decide. }
  pose proof (fs_table_eq (T:=unit) compare_strings Hstr) as Heq.
  destruct (filesys_mount_lookup compare_strings mount_at_300 quiet_funcs Hstr one_type
    (set_filesystems {[300 := Filesys NULL 7 NULL]} one_type) {[[99; 0] := 600]} ∅ [99; 0] 600
    (FsNode 500 NULL) (FsDef [99; 0] 1) 200 300 (Filesys NULL 7 NULL))
    as (s2 & s3 & H1 & _ & H2 & H3 & _ & _ & H4).
  - apply (refines_singleton (fs_table compare_strings) _ _ _ 99); try done.
    intros i. simpl. unfold slot, one_type. simpl.
    case_decide as Hj; [by subst|]. by rewrite lookup_singleton_ne by naive_solver.
  - done.
  - done.
  - done.
  - done.
  - done.
  - split; try done.
    apply (refines_empty mount_table). intros i. simpl. unfold slot. simpl.
    by rewrite lookup_singleton_ne by naive_solver.
  - done.
  - done.
  - done.
  - done.
  - done.
  - exists s2, s3. split_and!; [exact H1|exact H2|exact H3|exact H4].
Defined.

(** ** Creating and closing inodes *)

(** With the seed the kernel starts from, the identifier is 0, whether or not
    it is taken: the loop that looks for a free one ends on 0. *)
Theorem get_unique_id_zero {T} (s : istate T) L fuel :
  buckets inode_table s L → i_rand s = rand_init → (0 < fuel)%nat →
  get_unique_id fuel s = Done (0, s).
Proof.
  intros HL Hr Hf. destruct fuel as [|fuel]; [lia|]. apply run_wp.
  apply wp_bind. unfold wp at 1.
  rewrite zoom_rand_zero by (done || (destruct s; simpl in *; by subst)).
  cbn [loop]. apply wp_bind, wp_bind. eapply wp_mono; [by eapply (lookup_bucket inode_table)|].
  intros p ? [-> _]. rewrite andb_false_r. by apply wp_ret, wp_ret.
Qed.

Section creation.
Context {T : Type} (A : allocator T) (fs_funcs : ptr → fs_func_set_t (istate T)).
Implicit Types s : istate T.

(** The entry of an inode does not fit into the block that is allocated. *)
Lemma cache_add_fails src inode s r : cache_add A src inode s ≠ Done r.
Proof.
  intros (p & s1 & _ & H)%bind_done. apply bind_done in H as ([] & s2 & H & _).
  unfold cache_entry_init, putopt in H. by rewrite orb_true_r in H.
Qed.

Lemma inode_cache_create_none filesys s p s' :
  inode_cache_create A fs_funcs filesys s = Done (p, s') → p = NULL.
Proof.
  intros H. apply bind_done in H as ([] & s1 & _ & H). apply bind_done in H as (ops & s2 & _ & H).
  apply bind_done in H as ([inode id] & s3 & _ & H). destruct (negb (inode =? NULL)).
  - apply bind_done in H as ([] & s4 & H & _). by apply cache_add_fails in H.
  - apply bind_done in H as ([] & s4 & _ & H). by injection H.
Qed.

(** The kernel never creates an inode: whatever the file systems, the
    allocator and the tables do, [inode_create] either does not return or
    returns null, because the cache entry it writes is larger than the block
    it asks for. *)
Theorem inode_create_gives_none fuel filesys s p s' :
  inode_create A fs_funcs fuel filesys s = Done (p, s') → p = NULL.
Proof.
  intros H. apply bind_done in H as ([] & s1 & _ & H). apply bind_done in H as (id & s2 & _ & H).
  apply bind_done in H as (fi & s3 & _ & H). apply bind_done in H as (out & s4 & Ho & H).
  apply bind_done in H as ([] & s5 & _ & H). injection H as <- <-.
  destruct (negb (fi =? NULL)); [|by injection Ho].
  apply bind_done in Ho as (fs & s6 & _ & Ho). destruct (negb (fs =? NULL)); [|by injection Ho].
  apply bind_done in Ho as (p' & s7 & Hc & Ho). apply inode_cache_create_none in Hc as ->.
  apply bind_done in Ho as ([] & s8 & _ & Ho). apply bind_done in Ho as (k & s9 & _ & Ho).
  by injection Ho.
Qed.
End creation.

(** No file system is mounted on the inode that the caller names. *)
Lemma inode_create_gives_none_witness :
  inode_create no_allocator quiet_funcs 1 9 one_type = Done (NULL, one_type) ∧ NULL = NULL.
Proof.
  assert (inode_create no_allocator quiet_funcs 1 9 one_type = Done (NULL, one_type)) as H
    by (vm_compute; reflexivity).
  split; [exact H|].
  exact (inode_create_gives_none no_allocator quiet_funcs 1 9 one_type NULL one_type H).
Defined.

(** The file system 300 creates the inode 700. *)
Definition creating_funcs (code : ptr) : fs_func_set_t (istate unit) :=
  FsFuncs _ (λ _ _, fault) (λ _ _ _, fault)
    (λ _, modify (λ s, set_inodes (<[700 := Inode 0 0 0 0 0 NULL]> (inodes s)) s);; mret (700, 1))
    (λ _ _, fault) (λ _, mret 0).

Example inode_cache_create_faults :
  inode_cache_create (Allocator (λ _, mret 4096) (λ _, mret tt)) creating_funcs 300 one_cached = Fault.
Proof. by vm_compute. Qed.

(** Closing an inode that has other users leaves its mutex taken, so that
    the next close, and the next attempt to take a reference, never return. *)
Theorem inode_close_leaves_lock {T} (s : istate T) p i :
  inodes s !! p = Some i → InodeMutex p ∉ held s → u32 (ref_count i - 1) ≠ 0 →
  ∃ s', inode_close p s = Done (0, s') ∧
    inodes s' = <[p := with_refs (u32 (ref_count i - 1)) i]> (inodes s) ∧
    inode_close p s' = Deadlock ∧ take_reference p s' = Deadlock.
Proof.
  intros Hi Hl Hr. set (n := u32 (ref_count i - 1)).
  exists (set_inodes (<[p := with_refs n i]> (inodes s)) (set_held ({[InodeMutex p]} ∪ held s) s)).
  split_and!; [|done| |].
  - apply run_wp. apply wp_bind, (wp_getopt _ i); [done|]. apply wp_bind, wp_acquire; [done|].
    apply wp_bind, wp_bind, (wp_load f_ref_count) with (ref_count i); [simpl; by rewrite Hi|].
    unfold store. eapply wp_putopt; [simpl; by rewrite Hi|].
    apply wp_bind, (wp_load f_ref_count) with n; [simpl; by rewrite lookup_insert_eq|].
    rewrite (proj2 (Z.eqb_neq 0 n)) by done. apply wp_bind, wp_ret, wp_ret. done.
  - apply bind_out, (wp_getopt _ (with_refs n i)); [simpl; by rewrite lookup_insert_eq|].
    apply deadlock_bind, acquire_held. set_solver.
  - apply deadlock_bind, acquire_held. set_solver.
Qed.

Lemma inode_close_leaves_lock_witness :
  ∃ s', inode_close 200 (set_inodes {[200 := Inode 3 0 1 2 0 NULL]} one_type) = Done (0, s') ∧
    inode_close 200 s' = Deadlock.
Proof.
  destruct (inode_close_leaves_lock (set_inodes {[200 := Inode 3 0 1 2 0 NULL]} one_type) 200
    (Inode 3 0 1 2 0 NULL)) as (s' & H1 & _ & H2 & _); [done|done|done|].
  exists s'. split; [exact H1|exact H2].
Defined.
