(* ===== verification/PhysMem.v ===== *)
(** * Physical memory: the page cache and anonymous pages

    src/mem/phys_mem/page_cache.c and phys_mem.c.  Pages of inodes that are in
    memory are listed in a hash table over the inverse page table; anonymous
    pages have an entry with an identifier of their own.  Pages come from
    [PageAlloc]; reading an inode is an interface ([inode_io]) with the
    functions of [Inode] as an instance; [swap_in] and [swap_free], which the
    repository declares but does not define, are parameters. *)

From stdpp Require Import functions countable.
From S2P Require Import Prelude HashTable CircularList SiftHeap Alloc PageAlloc CowTable Util Inode.
#[local] Open Scope Z_scope.

(** ** Data *)

Definition NULL_PHYS_PAGE : Z := 0xffffffff.
Definition PAGE_UNUSED : Z := 1.
Definition PAGE_USED : Z := 2.
Definition PAGE_RESERVED : Z := 3.
Definition PAGE_KERNEL : Z := 4.

(** [struct inode_page] *)
Record inode_page := InodePage {
  ip_inode : Z;
  ip_offset : Z;
}.
Global Instance inode_page_eq : EqDecision inode_page.
Proof. solve_decision. Defined.
Global Instance inode_page_countable : Countable inode_page.
Proof.
  by refine (inj_countable' (λ r, (ip_inode r, ip_offset r)) (λ p, InodePage p.1 p.2) _); intros [].
Defined.

(** The fields of an [inv_page_t] that the page allocator does not use. *)
Record page_info := PageInfo {
  pg_mutex : bool;
  pg_type : Z;
  pg_num_mappers : Z;
  pg_src : inode_page;
  pg_next : ptr;
}.

Definition ANON_SWAPPED : Z := 0.
Definition ANON_PRESENT : Z := 1.

(** [anon_page_t]: the union holds an address or a place in a swap device. *)
Inductive anon_src := AnonAddr (addr : Z) | AnonSwap (inode : ptr) (page : Z).
Record anon_page_t := AnonPage {
  an_id : Z;
  an_next : ptr;
  an_status : Z;
  an_src : anon_src;
}.

(** An identifier, a link, a status and two words of union. *)
Definition anon_page_size : Z := 20.
Definition ANON_HASH_TABLE_SIZE : Z := 4 * 1042 * 1042 - 1.
Definition PAGE_HASH_TABLE_SIZE : Z := 65535.

(** What [stat.id] of an inode is, and [inode_page_read]. *)
Record inode_io (I : Type) := InodeIO {
  io_id : I → ptr → option Z;
  io_page_read : ptr → Z → Z → M I Z;
}.
Arguments InodeIO {I}.
Arguments io_id {I}.
Arguments io_page_read {I}.

(** The functions of inode.c. *)
Definition kernel_inode_io {T} (inode_funcs : ptr → inode_func_set_t (istate T)) :
    inode_io (istate T) := {|
  io_id s p := stat_id <$> inodes s !! p;
  io_page_read := inode_page_read inode_funcs;
|}.

(** [ph_calls] are the calls made so far to copy and clear pages, [color_tabs]
    the colour tables of address spaces and objects by address. *)
Record phstate (T I : Type) := PhState {
  ph_pages : pstate;
  color_tabs : gmap ptr color_table;
  infos : gmap ptr page_info;
  page_slots : gmap Z ptr;
  cache_mutex : bool;
  anons : gmap ptr anon_page_t;
  anon_slots : gmap Z ptr;
  anon_mutex : bool;
  ph_calls : list phys_call;
  ph_rand : rand_state;
  ph_alloc : T;
  ph_io : I;
}.
Arguments PhState {T I}.
Arguments ph_pages {T I}.
Arguments color_tabs {T I}.
Arguments infos {T I}.
Arguments page_slots {T I}.
Arguments cache_mutex {T I}.
Arguments anons {T I}.
Arguments anon_slots {T I}.
Arguments anon_mutex {T I}.
Arguments ph_calls {T I}.
Arguments ph_rand {T I}.
Arguments ph_alloc {T I}.
Arguments ph_io {T I}.

Section setters.
Context {T I : Type}.
Implicit Types s : phstate T I.

Definition set_pages p c s : phstate T I := PhState p c (infos s) (page_slots s)
  (cache_mutex s) (anons s) (anon_slots s) (anon_mutex s) (ph_calls s) (ph_rand s) (ph_alloc s) (ph_io s).
Definition set_infos m s : phstate T I := PhState (ph_pages s) (color_tabs s) m (page_slots s)
  (cache_mutex s) (anons s) (anon_slots s) (anon_mutex s) (ph_calls s) (ph_rand s) (ph_alloc s) (ph_io s).
Definition set_page_slots m s : phstate T I := PhState (ph_pages s) (color_tabs s) (infos s) m
  (cache_mutex s) (anons s) (anon_slots s) (anon_mutex s) (ph_calls s) (ph_rand s) (ph_alloc s) (ph_io s).
Definition set_cache_mutex b s : phstate T I := PhState (ph_pages s) (color_tabs s) (infos s)
  (page_slots s) b (anons s) (anon_slots s) (anon_mutex s) (ph_calls s) (ph_rand s) (ph_alloc s) (ph_io s).
Definition set_anons m s : phstate T I := PhState (ph_pages s) (color_tabs s) (infos s)
  (page_slots s) (cache_mutex s) m (anon_slots s) (anon_mutex s) (ph_calls s) (ph_rand s) (ph_alloc s) (ph_io s).
Definition set_anon_slots m s : phstate T I := PhState (ph_pages s) (color_tabs s) (infos s)
  (page_slots s) (cache_mutex s) (anons s) m (anon_mutex s) (ph_calls s) (ph_rand s) (ph_alloc s) (ph_io s).
Definition set_anon_mutex b s : phstate T I := PhState (ph_pages s) (color_tabs s) (infos s)
  (page_slots s) (cache_mutex s) (anons s) (anon_slots s) b (ph_calls s) (ph_rand s) (ph_alloc s) (ph_io s).
Definition set_ph_calls l s : phstate T I := PhState (ph_pages s) (color_tabs s) (infos s)
  (page_slots s) (cache_mutex s) (anons s) (anon_slots s) (anon_mutex s) l (ph_rand s) (ph_alloc s) (ph_io s).
Definition set_ph_rand r s : phstate T I := PhState (ph_pages s) (color_tabs s) (infos s)
  (page_slots s) (cache_mutex s) (anons s) (anon_slots s) (anon_mutex s) (ph_calls s) r (ph_alloc s) (ph_io s).
Definition set_ph_alloc t s : phstate T I := PhState (ph_pages s) (color_tabs s) (infos s)
  (page_slots s) (cache_mutex s) (anons s) (anon_slots s) (anon_mutex s) (ph_calls s) (ph_rand s) t (ph_io s).
Definition set_ph_io i s : phstate T I := PhState (ph_pages s) (color_tabs s) (infos s)
  (page_slots s) (cache_mutex s) (anons s) (anon_slots s) (anon_mutex s) (ph_calls s) (ph_rand s) (ph_alloc s) i.
End setters.

Section operations.
Context {T I : Type} (A : allocator T) (io : inode_io I).
(** The window pages of the processor that copies, and the swap device. *)
Context (window : ptr).
Context (swap_in : Z → ptr → Z → M (phstate T I) unit) (swap_free : ptr → Z → M (phstate T I) unit).
(** The value of a variable that was never assigned. *)
Context (indeterminate : Z).
Abbreviation St := (phstate T I).
Implicit Types s : St.

(** ** Pages and colours *)

(** A call of the page allocator with the colour table at [ct]. *)
Definition with_color_tab {B} (ct : ptr) (m : M pstate B) : M St B := λ s,
  match color_tabs s !! ct with
  | None => Fault
  | Some t =>
      match m (set_color_tab t (ph_pages s)) with
      | Done (b, p) => Done (b, set_pages p (<[ct := color_tab p]> (color_tabs s)) s)
      | Fault => Fault
      | Deadlock => Deadlock
      | NoFuel => NoFuel
      end
  end.

Definition add_color (ct : ptr) (addr : Z) : M St unit :=
  n ← gets (λ s, num_page_colors (ph_pages s));
  with_color_tab ct (on_color_tab (change_color_count n (page_color n addr) 1)).

Definition get_anon_page (spc_ct obj_ct : ptr) (shared : bool) : M St Z :=
  out ← (if shared then with_color_tab obj_ct phys_page_alloc
         else with_color_tab spc_ct phys_page_alloc);
  add_color obj_ct out;;
  mret out.

Definition get_page (spc_ct obj_ct : ptr) (shared : bool) : M St Z :=
  out ← (if shared then with_color_tab obj_ct phys_page_alloc
         else with_color_tab spc_ct phys_page_alloc);
  add_color spc_ct out;;
  add_color obj_ct out;;
  mret out.

(** ** page_cache.c *)

Definition page_hash (k : inode_page) : Z := u32 (ip_inode k * u32 (ip_offset k - 1)).
Definition inode_page_eqb (a b : inode_page) : bool :=
  (ip_inode a =? ip_inode b) && (ip_offset a =? ip_offset b).

Definition page_table : hash_ops St inode_page :=
  node_table infos set_infos (λ s i, default NULL (page_slots s !! i))
    (λ i p s, set_page_slots (<[i := p]> (page_slots s)) s) pg_next
    (λ v n, PageInfo (pg_mutex n) (pg_type n) (pg_num_mappers n) (pg_src n) v)
    (λ _ n, Some (pg_src n)) inode_page_eqb (λ _ k, Some (page_hash k)) PAGE_HASH_TABLE_SIZE.

Definition lock_cache : M St unit := lock cache_mutex set_cache_mutex.
Definition unlock_cache : M St unit := unlock set_cache_mutex.

(** [inv_page_lookup] and [inv_page_addr] with the table of the state. *)
Definition page_of (addr : Z) : M St ptr :=
  gets (λ s, inv_page_lookup (inv_page_table (ph_pages s)) addr).
Definition addr_of (page : ptr) : M St Z :=
  gets (λ s, inv_page_addr (inv_page_table (ph_pages s)) page).

(** Change the fields of a page under its mutex. *)
Definition update_page (page : ptr) (f : page_info → page_info) : M St unit :=
  i ← getopt (λ s, infos s !! page);
  lock (λ _, pg_mutex i) (λ _ s, s);;
  modify (λ s, set_infos (<[page := f i]> (infos s)) s).

Definition page_cache_lookup (inode offset : Z) : M St Z :=
  lock_cache;;
  page ← hash_table_lookup page_table (InodePage inode offset);
  if negb (page =? NULL) then
    unlock_cache;;
    addr_of page
  else
    unlock_cache;;
    mret NULL_PHYS_PAGE.

Definition page_cache_insert (addr inode offset : Z) : M St unit :=
  page ← page_of addr;
  update_page page (λ i, PageInfo (pg_mutex i) PAGE_USED (pg_num_mappers i)
                           (InodePage inode offset) (pg_next i));;
  lock_cache;;
  _ ← hash_table_insert page_table page;
  unlock_cache.

Definition set_page_type (page : ptr) (t : Z) : M St unit :=
  update_page page (λ i, PageInfo (pg_mutex i) t (pg_num_mappers i) (pg_src i) (pg_next i)).

Definition page_cache_delete (addr : Z) : M St unit :=
  page ← page_of addr;
  set_page_type page PAGE_UNUSED;;
  lock_cache;;
  src ← getopt (λ s, pg_src <$> infos s !! page);
  _ ← hash_table_delete page_table src;
  unlock_cache.

(** ** phys_mem.c *)

Definition anon_table : hash_ops St Z :=
  node_table anons set_anons (λ s i, default NULL (anon_slots s !! i))
    (λ i p s, set_anon_slots (<[i := p]> (anon_slots s)) s) an_next
    (λ v n, AnonPage (an_id n) v (an_status n) (an_src n))
    (λ _ n, Some (an_id n)) Z.eqb (λ _ k, Some k) ANON_HASH_TABLE_SIZE.

Definition lock_anon : M St unit := lock anon_mutex set_anon_mutex.
Definition unlock_anon : M St unit := unlock set_anon_mutex.

Definition draw : M St Z := zoom ph_rand set_ph_rand rand.

(** [while(NULL != lookup(id)) { unlock; id = rand(); lock; }] *)
Definition fresh_id_step (id : Z) : M St (Z + Z) :=
  p ← hash_table_lookup anon_table id;
  if negb (p =? NULL) then
    unlock_anon;;
    id ← draw;
    lock_anon;;
    mret (Continue id)
  else mret (Break id).

(** [new->src.addr = addr] *)
Definition set_anon_addr (new : ptr) (addr : Z) : M St unit :=
  putopt (λ s, n ← anons s !! new;
    Some (set_anons (<[new := AnonPage (an_id n) (an_next n) (an_status n) (AnonAddr addr)]> (anons s)) s)).

(** [new->id = id] *)
Definition set_anon_id (new : ptr) (id : Z) : M St unit :=
  putopt (λ s, n ← anons s !! new;
    Some (set_anons (<[new := AnonPage id (an_next n) (an_status n) (an_src n)]> (anons s)) s)).

(** Reading [src.addr] and [src.swap] of an entry. *)
Definition get_anon_addr (n : anon_page_t) : option Z :=
  match an_src n with AnonAddr a => Some a | AnonSwap _ _ => None end.
Definition get_anon_swap (n : anon_page_t) : option (ptr * Z) :=
  match an_src n with AnonAddr _ => None | AnonSwap i p => Some (i, p) end.

Definition phys_calls (l : list phys_call) : M St unit :=
  modify (λ s, set_ph_calls (ph_calls s ++ l) s).

Definition read_page (inode offset addr : Z) : M St unit :=
  _ ← zoom ph_io set_ph_io (io_page_read io inode offset addr); mret tt.

(** [inode->stat.id] *)
Definition get_inode_id (inode : ptr) : M St Z := getopt (λ s, io_id io (ph_io s) inode).

(** The cases of the switch in [anon_page_create]; only three of them insert
    the new entry in the table. *)
Definition anon_fill (new : ptr) (src : page_src_t) (spc_ct obj_ct : ptr) (shared : bool) : M St unit :=
  match src with
  | PSRC_NULL =>
      a ← get_anon_page spc_ct obj_ct shared;
      set_anon_addr new a;;
      phys_calls (phys_memset window a 0 PAGE_SIZE);;
      _ ← hash_table_insert anon_table new; mret tt
  | PSRC_INODE inode offset =>
      a ← get_anon_page spc_ct obj_ct shared;
      set_anon_addr new a;;
      id ← get_inode_id inode;
      addr ← page_cache_lookup id offset;
      (if negb (NULL_PHYS_PAGE =? addr) then phys_calls (phys_memcpy window a addr PAGE_SIZE)
       else read_page inode offset a);;
      _ ← hash_table_insert anon_table new; mret tt
  | PSRC_ANON n =>
      a ← get_anon_page spc_ct obj_ct shared;
      set_anon_addr new a;;
      anon ← hash_table_lookup anon_table n;
      if negb (anon =? NULL) then
        e ← getopt (λ s, anons s !! anon);
        if an_status e =? ANON_PRESENT then
          b ← getopt (λ _, get_anon_addr e);
          phys_calls (phys_memcpy window a b PAGE_SIZE)
        else if an_status e =? ANON_SWAPPED then
          '(i, p) ← getopt (λ _, get_anon_swap e);
          read_page i p a
        else mret tt
      else mret tt
  | PSRC_KERN =>
      a ← with_color_tab obj_ct kern_page_alloc;
      set_anon_addr new a;;
      _ ← hash_table_insert anon_table new; mret tt
  end.

(** [new = malloc(sizeof(anon_page_t)); new->status = ANON_PRESENT;] *)
Definition anon_new : M St ptr :=
  new ← zoom ph_alloc set_ph_alloc (al_malloc A anon_page_size);
  putopt (λ s, if new =? NULL then None
               else Some (set_anons (<[new := AnonPage 0 NULL ANON_PRESENT (AnonAddr 0)]> (anons s)) s));;
  mret new.

Definition anon_page_create (fuel : nat) (src : page_src_t) (spc_ct obj_ct : ptr) (shared : bool) :
    M St Z :=
  new ← anon_new;
  id ← draw;
  lock_anon;;
  id ← loop fuel fresh_id_step id;
  set_anon_id new id;;
  anon_fill new src spc_ct obj_ct shared;;
  unlock_anon;;
  mret id.

(** The mutex is released only when the page was found. *)
Definition anon_page_free (id : Z) : M St unit :=
  lock_anon;;
  page ← hash_table_delete anon_table id;
  if negb (page =? NULL) then
    unlock_anon;;
    e ← getopt (λ s, anons s !! page);
    if an_status e =? ANON_SWAPPED then
      '(i, p) ← getopt (λ _, get_anon_swap e);
      swap_free i p;;
      zoom ph_alloc set_ph_alloc (al_free A page)
    else if an_status e =? ANON_PRESENT then
      a ← getopt (λ _, get_anon_addr e);
      inv_page ← page_of a;
      set_page_type inv_page PAGE_UNUSED;;
      zoom ph_pages (λ p s, set_pages p (color_tabs s) s) (phys_page_insert [a]);;
      zoom ph_alloc set_ph_alloc (al_free A page)
    else mret tt
  else mret tt.

Definition phys_page_fetch (src : page_src_t) (spc_ct obj_ct : ptr) (shared : bool) : M St Z :=
  lock_anon;;
  out ← match src with
        | PSRC_INODE inode offset =>
            id ← get_inode_id inode;
            out ← page_cache_lookup id offset;
            if negb (NULL_PHYS_PAGE =? out) then
              add_color spc_ct out;;
              mret out
            else
              out ← get_page spc_ct obj_ct shared;
              read_page inode offset out;;
              id ← get_inode_id inode;
              page_cache_insert out id offset;;
              mret out
        | PSRC_ANON n =>
            anon ← hash_table_lookup anon_table n;
            if negb (anon =? NULL) then
              e ← getopt (λ s, anons s !! anon);
              if an_status e =? ANON_PRESENT then
                out ← getopt (λ _, get_anon_addr e);
                add_color spc_ct out;;
                mret out
              else if an_status e =? ANON_SWAPPED then
                out ← get_page spc_ct obj_ct shared;
                '(i, p) ← getopt (λ _, get_anon_swap e);
                swap_in out i p;;
                mret out
              else mret indeterminate
            else mret indeterminate
        | PSRC_NULL | PSRC_KERN => mret indeterminate
        end;
  unlock_anon;;
  mret out.
End operations.
