(* ===== verification/PhysMemSpec.v ===== *)
(** * Correctness of the page cache and of anonymous pages

    A page of an inode is read once and then found in the cache; pages in the
    cache are never handed out again; and, because the random numbers of the
    kernel are all zero, at most one anonymous page can be created. *)

From stdpp Require Import functions countable.
From S2P Require Import Prelude HashTable CircularList SiftHeap Alloc Malloc MallocSpec PageAlloc CowTable Util Inode PhysMem.
#[local] Open Scope Z_scope.

Section correctness.
Context {T I : Type} (io : inode_io I).
Implicit Types s : phstate T I.

(** ** The tables *)

Global Instance page_table_nodes : NodeTable (St:=phstate T I) infos set_infos
  (λ s i, default NULL (page_slots s !! i)) (λ i p s, set_page_slots (<[i := p]> (page_slots s)) s)
  pg_next (λ v n, PageInfo (pg_mutex n) (pg_type n) (pg_num_mappers n) (pg_src n) v)
  (λ _ n, Some (pg_src n)) (λ _ k, Some (page_hash k)) PAGE_HASH_TABLE_SIZE.
Proof.
  split; simpl; try done; [by intros; rewrite lookup_insert_eq|by intros; rewrite lookup_insert_ne].
Qed.

Global Instance anon_table_nodes : NodeTable (St:=phstate T I) anons set_anons
  (λ s i, default NULL (anon_slots s !! i)) (λ i p s, set_anon_slots (<[i := p]> (anon_slots s)) s)
  an_next (λ v n, AnonPage (an_id n) v (an_status n) (an_src n))
  (λ _ n, Some (an_id n)) (λ _ k, Some k) ANON_HASH_TABLE_SIZE.
Proof.
  split; simpl; try done; [by intros; rewrite lookup_insert_eq|by intros; rewrite lookup_insert_ne].
Qed.

Global Instance page_table_ok : HashOk (@page_table T I).
Proof. apply node_table_ok, _. Qed.
Global Instance anon_table_ok : HashOk (@anon_table T I).
Proof. apply node_table_ok, _. Qed.
Global Instance page_table_eq : HashEq (@page_table T I).
Proof.
  intros [i o] [i' o']. simpl. unfold inode_page_eqb; simpl.
  rewrite andb_true_iff, !Z.eqb_eq. naive_solver.
Qed.
Global Instance anon_table_eq : HashEq (@anon_table T I).
Proof. intros a b. apply Z.eqb_eq. Qed.

(** What linking pages in the cache leaves alone. *)
Definition page_rest s := (ph_pages s, color_tabs s, cache_mutex s, anons s, anon_slots s,
  anon_mutex s, ph_calls s, ph_rand s, ph_alloc s, ph_io s).
Global Instance page_frame_rest : HashFrame (@page_table T I) page_rest.
Proof. by apply node_table_frame. Qed.
Global Instance page_frame_mutex p : HashFrame (@page_table T I) (λ s, pg_mutex <$> infos s !! p).
Proof. apply node_table_data; [apply _|done]. Qed.

(** What the page allocator leaves alone. *)
Definition ph_rest s := (infos s, page_slots s, cache_mutex s, anons s, anon_slots s,
  anon_mutex s, ph_calls s, ph_rand s, ph_alloc s, ph_io s).

(** ** The invariant

    [F] are the free pages by colour, [m] the pages in the cache. *)
Record ph_inv s (F : nat → list Z) (m : gmap inode_page ptr) : Prop := {
  pi_pages : pages_wf (ph_pages s) F;
  pi_colors ct t : color_tabs s !! ct = Some t → ∃ v, color_wf (num_page_colors (ph_pages s)) t v;
  pi_lock : p_mutex (ph_pages s) = false;
  pi_cache : refines_map page_table s m;
  pi_cached k p : m !! k = Some p → ∃ a, page_ok (inv_page_table (ph_pages s)) a ∧
    p = inv_page_lookup (inv_page_table (ph_pages s)) a ∧
    ∀ c, (c < num_page_colors (ph_pages s))%nat → a ∉ F c;
  pi_info c a : (c < num_page_colors (ph_pages s))%nat → a ∈ F c →
    pg_mutex <$> infos s !! inv_page_lookup (inv_page_table (ph_pages s)) a = Some false;
  pi_cache_mutex : cache_mutex s = false;
}.

(** How many pages the table at [ct] counts for a colour. *)
Definition tab_count s (ct : ptr) (c : Z) : Z :=
  default 0 ((λ t, color_count t c) <$> color_tabs s !! ct).

Lemma wp_with_color_tab {B} ct t (m : M pstate B) (Q : B → phstate T I → Prop) s :
  color_tabs s !! ct = Some t →
  wp m (λ b p, Q b (set_pages p (<[ct := color_tab p]> (color_tabs s)) s))
     (set_color_tab t (ph_pages s)) →
  wp (with_color_tab ct m) Q s.
Proof.
  intros Ht. unfold wp, with_color_tab. rewrite Ht. by destruct (m _) as [[b p]| | |].
Qed.

(** A state whose page lists and colour tables changed. *)
Lemma ph_inv_pages s F F' m p tabs :
  ph_inv s F m → pages_wf p F' → num_page_colors p = num_page_colors (ph_pages s) →
  inv_page_table p = inv_page_table (ph_pages s) → p_mutex p = false →
  (∀ ct t, tabs !! ct = Some t → ∃ v, color_wf (num_page_colors p) t v) →
  (∀ c a, (c < num_page_colors p)%nat → a ∈ F' c → a ∈ F c) →
  ph_inv (set_pages p tabs s) F' m.
Proof.
  intros [Hw Hc Hl Hm Hca Hi Hcm] Hw' Hn Ht Hpm Htabs Hsub. split; simpl; [done|done|done| | | |done].
  - by eapply refines_frame.
  - intros k q Hq. destruct (Hca k q Hq) as (a & Ha & -> & Hout). rewrite Ht. exists a.
    split_and!; [done|done|]. intros c Hcn Hin. apply (Hout c); [by rewrite <-Hn|]. by apply Hsub.
  - intros c a Hcn Hin. rewrite Ht. apply (Hi c); [by rewrite <-Hn|]. by apply Hsub.
Qed.

Lemma add_color_spec s F m ct t a :
  ph_inv s F m → color_tabs s !! ct = Some t →
  tab_count s ct (page_color (num_page_colors (ph_pages s)) a) + 1 < 2 ^ 32 →
  wp (add_color ct a)
     (λ _ s', ph_inv s' F m ∧ ph_rest s' = ph_rest s ∧
        num_page_colors (ph_pages s') = num_page_colors (ph_pages s) ∧
        inv_page_table (ph_pages s') = inv_page_table (ph_pages s) ∧
        dom (color_tabs s') = dom (color_tabs s) ∧
        ∀ ct' c, tab_count s' ct' c = tab_count s ct' c +
          (if decide (ct' = ct ∧ c = page_color (num_page_colors (ph_pages s)) a) then 1 else 0)) s.
Proof.
  intros Hi Ht Hov. pose proof (pw_colors _ _ (pi_pages _ _ _ Hi)) as Hn0.
  destruct (pi_colors _ _ _ Hi ct t Ht) as [v Hv]. set (n := num_page_colors (ph_pages s)) in *.
  assert (∀ c, tab_count s ct c = color_count t c) as Htc.
  { intros c. unfold tab_count. by rewrite Ht. }
  apply wp_bind, wp_gets. apply (wp_with_color_tab _ t); [done|]. apply wp_zoom. simpl.
  rewrite Htc in Hov. eapply wp_mono.
  { apply (change_color_count_spec n t v); [done|by apply page_color_range|done]. }
  intros [] t' ((v' & Hv') & Hcnt). split_and!; [|done|done|done| |].
  - apply (ph_inv_pages s F F); try done; simpl.
    + by apply pages_wf_tab, pages_wf_tab, (pi_pages _ _ _ Hi).
    + apply (pi_lock _ _ _ Hi).
    + intros ct' t2. destruct (decide (ct = ct')) as [<-|Hne].
      * rewrite lookup_insert_eq. intros [= <-]. eauto.
      * rewrite lookup_insert_ne by done. apply (pi_colors _ _ _ Hi).
  - simpl. rewrite dom_insert_lookup_L; [done|eauto].
  - intros ct' c. unfold tab_count. simpl. destruct (decide (ct = ct')) as [<-|Hne].
    + rewrite lookup_insert_eq, Ht. simpl. rewrite Hcnt. pose proof (cw_word _ _ _ Hv c).
      subst n. repeat case_decide; try tauto; subst; [rewrite u32_small; lia|lia].
    + rewrite lookup_insert_ne by done. rewrite decide_False by naive_solver. lia.
Qed.

(** A page of the first colour in the order of the table is taken. *)
Definition first_page s (ct : ptr) (F : nat → list Z) (c : nat) (a : Z) (l : list Z) : Prop :=
  ∃ t i, color_tabs s !! ct = Some t ∧ colour_at (set_color_tab t (ph_pages s)) i c ∧
    F c = a :: l ∧ ∀ j d, (j < i)%nat → colour_at (set_color_tab t (ph_pages s)) j d → F d = [].

Lemma set_color_tab_wf s F t : pages_wf (ph_pages s) F → pages_wf (set_color_tab t (ph_pages s)) F.
Proof. apply pages_wf_tab. Qed.

Lemma alloc_spec s F m ct c0 :
  ph_inv s F m → is_Some (color_tabs s !! ct) →
  (c0 < num_page_colors (ph_pages s))%nat → F c0 ≠ [] →
  wp (with_color_tab ct phys_page_alloc)
     (λ a s', ∃ c l, first_page s ct F c a l ∧ (c < num_page_colors (ph_pages s))%nat ∧
        ph_inv s' (<[c := l]> F) m ∧ ph_rest s' = ph_rest s ∧
        num_page_colors (ph_pages s') = num_page_colors (ph_pages s) ∧
        inv_page_table (ph_pages s') = inv_page_table (ph_pages s) ∧
        color_tabs s' = color_tabs s) s.
Proof.
  intros Hi [t Ht] Hc0 Hne. destruct (pi_colors _ _ _ Hi ct t Ht) as [v Hv].
  apply (wp_with_color_tab _ t); [done|]. eapply wp_mono.
  { apply (phys_page_alloc_spec _ F v);
      [by apply set_color_tab_wf, (pi_pages _ _ _ Hi)|done|apply (pi_lock _ _ _ Hi)]. }
  intros a p [(i & c & l & Hat & HF & Hprev & Hw & (Hn & Htab & Hct & Hm & Hd))|(_ & _ & Hno)].
  2:{ exfalso. by apply Hne, Hno. }
  pose proof Hat as [_ Hcn]. simpl in *. exists c, l. split_and!; [by exists t, i|done| |done|done|done|].
  - apply (ph_inv_pages s F); try done; [by rewrite Hm, (pi_lock _ _ _ Hi)| |].
    + intros ct' t'. rewrite Hct, insert_id by done. rewrite Hn. apply (pi_colors _ _ _ Hi).
    + intros d b Hdn. destruct (decide (c = d)) as [<-|Hcd].
      * rewrite fn_lookup_insert, HF. by right.
      * by rewrite fn_lookup_insert_ne.
  - rewrite Hct. by apply insert_id.
Qed.

Lemma inv_page_not_null table a : page_ok table a → a ≠ NULL_PHYS_PAGE.
Proof.
  intros (_ & [k Hk] & _) Ha. unfold NULL_PHYS_PAGE, PAGE_SIZE in *. lia.
Qed.

(** *** The cache *)

Lemma page_cache_lookup_spec s F m i o :
  ph_inv s F m →
  wp (page_cache_lookup i o)
     (λ r s', s' = s ∧ r = match m !! InodePage i o with
                           | Some p => inv_page_addr (inv_page_table (ph_pages s)) p
                           | None => NULL_PHYS_PAGE
                           end) s.
Proof.
  intros Hi. pose proof (pi_cache_mutex _ _ _ Hi) as Hm.
  apply wp_bind, wp_lock; [done|]. apply wp_bind. eapply wp_mono.
  { apply (lookup_refines page_table _ m); [|by has_bucket; eexists].
    eapply refines_frame; [apply (pi_cache _ _ _ Hi)|done..]. }
  cbn beta. intros r ? [-> ->].
  assert (set_cache_mutex false (set_cache_mutex true s) = s) as Hs.
  { destruct s; simpl in *. by subst. }
  destruct (m !! InodePage i o) as [p|] eqn:Hp; simpl default.
  - destruct (refines_node _ _ _ _ _ (pi_cache _ _ _ Hi) Hp) as (Hpn & _ & _).
    rewrite (proj2 (Z.eqb_neq p NULL) Hpn). apply wp_bind, wp_unlock, wp_gets. by rewrite Hs.
  - apply wp_bind, wp_unlock, wp_ret. by rewrite Hs.
Qed.

(** What the cache returns is an address, never the null page. *)
Lemma cached_addr s F m k p :
  ph_inv s F m → m !! k = Some p →
  inv_page_addr (inv_page_table (ph_pages s)) p ≠ NULL_PHYS_PAGE.
Proof.
  intros Hi Hp. destruct (pi_cached _ _ _ Hi k p Hp) as (a & Ha & -> & _).
  rewrite inv_page_round_trip by done. by eapply inv_page_not_null.
Qed.

Lemma page_cache_insert_spec s F m a i o :
  ph_inv s F m → m !! InodePage i o = None → page_ok (inv_page_table (ph_pages s)) a →
  (∀ c, (c < num_page_colors (ph_pages s))%nat → a ∉ F c) →
  (∀ k, m !! k ≠ Some (inv_page_lookup (inv_page_table (ph_pages s)) a)) →
  pg_mutex <$> infos s !! inv_page_lookup (inv_page_table (ph_pages s)) a = Some false →
  wp (page_cache_insert a i o)
     (λ _ s', ph_inv s' F (<[InodePage i o := inv_page_lookup (inv_page_table (ph_pages s)) a]> m) ∧
        page_rest s' = page_rest s) s.
Proof.
  intros Hi Hno Ha Hout Hnew Hinfo. set (p := inv_page_lookup _ a) in *.
  destruct (infos s !! p) as [n|] eqn:Hn; [|done]. injection Hinfo as Hmx.
  apply wp_bind, wp_gets. fold p. apply wp_bind, wp_bind, (wp_getopt _ n); [done|].
  apply wp_bind, wp_lock; [done|]. apply wp_modify.
  set (n' := PageInfo _ _ _ _ _). set (s1 := set_infos (<[p := n']> (infos s)) s).
  apply wp_bind, wp_lock; [apply (pi_cache_mutex _ _ _ Hi)|].
  assert (refines_map page_table (set_cache_mutex true s1) m) as Hm1.
  { eapply refines_frame; [apply (pi_cache _ _ _ Hi)|done| |done]. intros k q Hq. simpl.
    rewrite lookup_insert_ne; [done|]. intros <-. by eapply Hnew. }
  apply wp_bind. eapply wp_mono.
  { apply (insert_refines page_table _ m p (InodePage i o) Hm1); [by apply inv_page_nonnull| | |by has_bucket; eexists|done].
    - simpl. rewrite lookup_insert_eq. by eexists.
    - simpl. by rewrite lookup_insert_eq. }
  intros r s2 (-> & Ho & _ & Hm2). apply wp_unlock.
  pose proof (Ho _ _ page_frame_rest) as Hr. unfold page_rest in Hr. simpl in Hr.
  injection Hr as Hpg Hct Hcm Han Has Ham Hca Hrd Hal Hio.
  pose proof (pi_cache_mutex _ _ _ Hi) as Hcm0.
  split; [|unfold page_rest; simpl; congruence].
  destruct Hi as [Hw Hcol Hl Hm Hcache Hinf _].
  split; simpl; rewrite ?Hpg, ?Hct; [done|done|done| | | |done].
  - eapply refines_frame; [exact Hm2|done..].
  - intros k q. destruct (decide (InodePage i o = k)) as [<-|Hne].
    + rewrite lookup_insert_eq. intros [= <-]. by exists a.
    + rewrite lookup_insert_ne by done. apply Hcache.
  - intros c b Hc Hb. rewrite (Ho _ _ (page_frame_mutex _)). simpl.
    destruct (decide (p = inv_page_lookup (inv_page_table (ph_pages s)) b)) as [<-|Hne].
    + rewrite lookup_insert_eq. simpl. by rewrite Hmx.
    + rewrite lookup_insert_ne by done. by apply (Hinf c).
Qed.

(** ** Fetching pages *)

Lemma ph_inv_anon_mutex b s F m : ph_inv s F m → ph_inv (set_anon_mutex b s) F m.
Proof. intros [Hw Hc Hl Hm Hca Hi Hcm]. split; try done. by eapply refines_frame. Qed.

Lemma ph_inv_io i s F m : ph_inv s F m → ph_inv (set_ph_io i s) F m.
Proof. intros [Hw Hc Hl Hm Hca Hi Hcm]. split; try done. by eapply refines_frame. Qed.

(** What a fetch changes in the counts: [n] more pages of the colour of [a]. *)
Definition counted s s' (cts : list ptr) (a : Z) : Prop :=
  ∀ ct c, tab_count s' ct c = tab_count s ct c +
    (if decide (c = page_color (num_page_colors (ph_pages s)) a)
     then Z.of_nat (length (filter (λ x, x = ct) cts)) else 0).

Section fetch.
Context (swap_in : Z → ptr → Z → M (phstate T I) unit) (indeterminate : Z).
Context (inode : ptr) (offset id : Z) (spc obj : ptr).
Abbreviation fetch := (phys_page_fetch io swap_in indeterminate (PSRC_INODE inode offset) spc obj).

Lemma fetch_hit s F m shared p a :
  ph_inv s F m → anon_mutex s = false → io_id io (ph_io s) inode = Some id →
  m !! InodePage id offset = Some p → a = inv_page_addr (inv_page_table (ph_pages s)) p →
  is_Some (color_tabs s !! spc) →
  tab_count s spc (page_color (num_page_colors (ph_pages s)) a) + 1 < 2 ^ 32 →
  wp (fetch shared)
     (λ r s', r = a ∧ ph_inv s' F m ∧ ph_io s' = ph_io s ∧ infos s' = infos s ∧
        anon_mutex s' = false ∧ counted s s' [spc] a) s.
Proof.
  intros Hi Hl Hid Hm Ha [t Ht] Hov. apply wp_bind, wp_lock; [done|]. apply wp_bind.
  apply (ph_inv_anon_mutex true) in Hi.
  apply wp_bind, (wp_getopt _ id); [done|].
  apply wp_bind. eapply wp_mono; [by apply (page_cache_lookup_spec _ F m)|]. cbn beta.
  rewrite Hm. intros r ? [-> ->]. simpl inv_page_table. rewrite <-Ha.
  assert (a ≠ NULL_PHYS_PAGE) as Hn by (rewrite Ha; by eapply (cached_addr (set_anon_mutex true s))).
  rewrite (proj2 (Z.eqb_neq NULL_PHYS_PAGE a)) by done. simpl negb. cbv iota.
  apply wp_bind. eapply wp_mono; [by apply (add_color_spec (set_anon_mutex true s) F m spc t)|].
  intros [] s1 (Hi1 & Hr & Hn1 & Ht1 & Hd & Hc). apply wp_ret, wp_bind, wp_unlock, wp_ret.
  unfold ph_rest in Hr. simpl in Hr. injection Hr as Hin _ _ _ _ _ _ _ _ Hio.
  split_and!; [done|by apply ph_inv_anon_mutex|done|done|done|].
  intros ct c. etrans; [apply Hc|]. f_equal. rewrite filter_cons. simpl.
  repeat case_decide; naive_solver.
Qed.

Lemma counted_trans s1 s2 s3 l1 l2 a :
  num_page_colors (ph_pages s2) = num_page_colors (ph_pages s1) →
  counted s1 s2 l1 a → counted s2 s3 l2 a → counted s1 s3 (l1 ++ l2) a.
Proof.
  intros Hn H1 H2 ct c. rewrite H2, H1, Hn, filter_app, length_app. case_decide; lia.
Qed.

(** The page a fetch takes, with what is left of the free pages. *)
Lemma get_page_spec s F m shared c0 :
  ph_inv s F m → is_Some (color_tabs s !! spc) → is_Some (color_tabs s !! obj) →
  (∀ ct c, tab_count s ct c + 2 < 2 ^ 32) →
  (c0 < num_page_colors (ph_pages s))%nat → F c0 ≠ [] →
  wp (get_page spc obj shared)
     (λ a s', ∃ c l, first_page s (if shared then obj else spc) F c a l ∧
        (c < num_page_colors (ph_pages s))%nat ∧ ph_inv s' (<[c := l]> F) m ∧
        ph_rest s' = ph_rest s ∧ num_page_colors (ph_pages s') = num_page_colors (ph_pages s) ∧
        inv_page_table (ph_pages s') = inv_page_table (ph_pages s) ∧
        dom (color_tabs s') = dom (color_tabs s) ∧ counted s s' [spc; obj] a) s.
Proof.
  intros Hi Hspc Hobj Hroom Hc0 Hne. set (ct := if shared then obj else spc).
  assert (is_Some (color_tabs s !! ct)) as Hct by by destruct shared.
  apply wp_bind. eapply wp_mono with (P := λ a s', ∃ c l, _).
  { destruct shared; by apply (alloc_spec s F m ct c0). }
  intros a s1 (c & l & Hfirst & Hcn & Hi1 & Hr1 & Hn1 & Ht1 & Hct1).
  assert (∀ ct c, tab_count s1 ct c = tab_count s ct c) as Htc.
  { intros ct' d. unfold tab_count. by rewrite Hct1. }
  destruct Hspc as [t Ht], Hobj as [u Hu].
  apply wp_bind. eapply wp_mono.
  { apply (add_color_spec s1 (<[c := l]> F) m spc t); [done|by rewrite Hct1|].
    rewrite Htc. specialize (Hroom spc (page_color (num_page_colors (ph_pages s1)) a)). lia. }
  intros [] s2 (Hi2 & Hr2 & Hn2 & Ht2 & Hd2 & Hc2).
  assert (is_Some (color_tabs s2 !! obj)) as [u2 Hu2].
  { apply elem_of_dom. rewrite Hd2, Hct1. apply elem_of_dom. eauto. }
  apply wp_bind. eapply wp_mono.
  { apply (add_color_spec s2 (<[c := l]> F) m obj u2); [done|done|]. rewrite Hc2, Htc.
    specialize (Hroom obj (page_color (num_page_colors (ph_pages s2)) a)). case_decide; lia. }
  intros [] s3 (Hi3 & Hr3 & Hn3 & Ht3 & Hd3 & Hc3). apply wp_ret. exists c, l.
  split_and!; [done|done|done|congruence|congruence|congruence|congruence|].
  intros ct' d. rewrite Hc3, Hc2, Htc, Hn2, Hn1, !filter_cons, filter_nil.
  repeat case_decide; simpl; try lia; naive_solver lia.
Qed.

(** The free pages are distinct. *)
Lemma taken_page p F c a l d :
  pages_wf p F → (c < num_page_colors p)%nat → F c = a :: l → (d < num_page_colors p)%nat →
  a ∉ (<[c := l]> F) d.
Proof.
  intros Hw Hc HF Hd. destruct (decide (c = d)) as [<-|Hne].
  - rewrite fn_lookup_insert. destruct (lookup_lt_is_Some_2 (free_pages p) c) as [hd Hhd].
    { rewrite (pw_free _ _ Hw). lia. }
    destruct (pw_list _ _ Hw c hd Hhd) as (_ & Hnd & _). rewrite HF, fmap_cons in Hnd.
    apply NoDup_cons in Hnd as [Hout _]. intros Hin. apply Hout, list_elem_of_fmap_2, Hin.
  - rewrite fn_lookup_insert_ne by done. intros Hin.
    destruct (pw_page _ _ Hw d a Hd Hin) as [_ H1].
    destruct (pw_page _ _ Hw c a Hc ltac:(rewrite HF; by left)) as [_ H2]. lia.
Qed.

Lemma fetch_miss s F m shared c0 :
  ph_inv s F m → anon_mutex s = false → io_id io (ph_io s) inode = Some id →
  m !! InodePage id offset = None →
  is_Some (color_tabs s !! spc) → is_Some (color_tabs s !! obj) →
  (∀ ct c, tab_count s ct c + 2 < 2 ^ 32) →
  (c0 < num_page_colors (ph_pages s))%nat → F c0 ≠ [] →
  (∀ a, ∃ r i, io_page_read io inode offset a (ph_io s) = Done (r, i) ∧ io_id io i inode = Some id) →
  wp (fetch shared)
     (λ a s', ∃ c l r, first_page s (if shared then obj else spc) F c a l ∧
        page_ok (inv_page_table (ph_pages s)) a ∧
        io_page_read io inode offset a (ph_io s) = Done (r, ph_io s') ∧
        ph_inv s' (<[c := l]> F)
          (<[InodePage id offset := inv_page_lookup (inv_page_table (ph_pages s)) a]> m) ∧
        num_page_colors (ph_pages s') = num_page_colors (ph_pages s) ∧
        inv_page_table (ph_pages s') = inv_page_table (ph_pages s) ∧
        dom (color_tabs s') = dom (color_tabs s) ∧ io_id io (ph_io s') inode = Some id ∧
        anon_mutex s' = false ∧ counted s s' [spc; obj] a) s.
Proof.
  intros Hi Hl Hid Hm Hspc Hobj Hroom Hc0 Hne Hread. apply wp_bind, wp_lock; [done|].
  apply (ph_inv_anon_mutex true) in Hi. set (s0 := set_anon_mutex true s) in *.
  apply wp_bind, wp_bind, (wp_getopt _ id); [done|].
  apply wp_bind. eapply wp_mono; [by apply (page_cache_lookup_spec _ F m)|]. cbn beta.
  rewrite Hm. intros r ? [-> ->]. rewrite Z.eqb_refl. simpl negb. cbv iota.
  apply wp_bind. eapply wp_mono; [by apply (get_page_spec s0 F m shared c0)|].
  intros a s1 (c & l & Hfirst & Hcn & Hi1 & Hr1 & Hn1 & Ht1 & Hd1 & Hc1).
  unfold ph_rest in Hr1. simpl in Hr1. injection Hr1 as Hin1 _ _ _ _ Ham1 _ _ _ Hio1.
  destruct (Hread a) as (r & i & Hrd & Hid').
  apply wp_bind, wp_bind, wp_zoom. unfold wp at 1. rewrite Hio1, Hrd. apply wp_ret.
  apply wp_bind, (wp_getopt _ id); [done|].
  assert (F c = a :: l) as HF by (by destruct Hfirst as (? & ? & _ & _ & ? & _)).
  assert (a ∈ F c) as Hac by (rewrite HF; by left).
  destruct (pw_page _ _ (pi_pages _ _ _ Hi) c a Hcn Hac) as [Hok _].
  apply wp_bind. eapply wp_mono.
  { apply (page_cache_insert_spec _ (<[c := l]> F) m a id offset); simpl; rewrite ?Ht1.
    - by apply ph_inv_io.
    - done.
    - done.
    - intros d Hd. rewrite Hn1 in Hd. by apply (taken_page (ph_pages s0)); [apply Hi|..].
    - intros k Hk. destruct (pi_cached _ _ _ Hi k _ Hk) as (b & Hb & Heq & Hout).
      apply inv_page_inj in Heq as <-; [|done..]. by apply (Hout c).
    - rewrite Hin1. by apply (pi_info _ _ _ Hi c). }
  cbn beta. intros [] s2 [Hi2 Hr2]. apply wp_ret, wp_bind, wp_unlock, wp_ret.
  unfold page_rest in Hr2. simpl in Hr2. injection Hr2 as Hp2 Hct2 _ _ _ _ _ _ _ Hio2.
  exists c, l, r. simpl in *. rewrite Ht1 in Hi2. split; [exact Hfirst|]. split_and!; try congruence.
  - by apply ph_inv_anon_mutex.
  - intros ct d. etrans; [|exact (Hc1 ct d)]. unfold tab_count. simpl. by rewrite Hct2.
Qed.
End fetch.
End correctness.

(** ** A second anonymous page *)

Section anon.
Context {T I : Type} (A : allocator T) (inv : T → gmap ptr Z → Prop) `{!AllocatorOk A inv}.
Context (io : inode_io I) (window : ptr).
Implicit Types s : phstate T I.

(** [am] are the anonymous pages by identifier; their entries are live
    blocks. *)
Record anon_inv s (am : gmap Z ptr) (live : gmap ptr Z) : Prop := {
  av_table : refines_map anon_table s am;
  av_alloc : inv (ph_alloc s) live;
  av_live : dom (anons s) ⊆ dom live;
  av_rand : ph_rand s = rand_init;
}.

Definition anon_rest s := (ph_alloc s, dom (anons s), ph_rand s).
Global Instance anon_frame_rest : HashFrame (@anon_table T I) anon_rest.
Proof.
  apply node_table_frame; [|done]. intros s p v n Hn. unfold anon_rest. simpl.
  by rewrite dom_insert_lookup_L by eauto.
Qed.

Lemma with_color_tab_rest {B} ct (m : M pstate B) s :
  wlp (with_color_tab ct m) (λ _ s', ph_rest s' = ph_rest s) s.
Proof.
  intros b s'. unfold with_color_tab. destruct (color_tabs s !! ct); [|done].
  destruct (m _) as [[b' p]| | |]; try done. by intros [= <- <-].
Qed.

Lemma get_anon_page_rest spc obj shared s :
  wlp (get_anon_page spc obj shared) (λ _ s', ph_rest s' = ph_rest s) s.
Proof.
  apply wlp_bind. eapply wlp_mono with (P := λ _ s', ph_rest s' = ph_rest s).
  { destruct shared; apply with_color_tab_rest. }
  intros a s1 H1. apply wlp_bind, wlp_bind, wp_wlp, wp_gets.
  eapply wlp_mono; [apply with_color_tab_rest|]. intros [] s2 H2. apply wlp_ret. congruence.
Qed.

(** The invariant does not depend on the pages. *)
Lemma anon_inv_rest s s' am live : ph_rest s' = ph_rest s → anon_inv s am live → anon_inv s' am live.
Proof.
  unfold ph_rest. intros [= _ _ _ Han Has _ _ Hr Hal _] [Hm Hi Hd Hrd].
  split; [|by rewrite Hal|by rewrite Han|by rewrite Hr].
  eapply refines_frame; [exact Hm|..]; simpl; try done; intros; by rewrite ?Han, ?Has.
Qed.

Lemma draw_zero s : ph_rand s = rand_init → draw s = Done (0, s).
Proof.
  intros Hr. apply zoom_rand_zero; [done|]. destruct s; simpl in *. by subst.
Qed.

(** A new entry is a fresh block. *)
Lemma anon_new_spec s am live :
  anon_inv s am live →
  wlp (anon_new A) (λ new s', ∃ c, new ≠ NULL ∧ anons s !! new = None ∧
    anon_inv s' am (<[new := c]> live) ∧ anons s' = <[new := AnonPage 0 NULL ANON_PRESENT (AnonAddr 0)]> (anons s)) s.
Proof.
  intros [Hm Hi Hd Hr]. apply wlp_bind, wp_wlp, wp_zoom.
  eapply wp_mono; [apply (al_malloc_ok (A:=A) _ live); [done|unfold anon_page_size; lia]|].
  intros p t' Hp. apply wlp_bind, wlp_putopt. intros s1 Hs1. apply wlp_ret.
  destruct (Z.eqb_spec p NULL) as [|Hnn]; [done|]. injection Hs1 as <-.
  destruct Hp as [[? _]|(_ & c & _ & Hfresh & Hi')]; [done|].
  assert (anons s !! p = None) as Hnew.
  { apply not_elem_of_dom. intros Hin%Hd. apply elem_of_dom in Hin as [? Hin]. congruence. }
  exists c. split_and!; [done|done| |done]. split; simpl; [|done|set_solver|done].
  eapply refines_frame; [exact Hm|done| |done]. intros k q Hq. simpl.
  destruct (refines_node _ _ _ _ _ Hm Hq) as (_ & [v Hv] & _). simpl in Hv.
  rewrite lookup_insert_ne; [done|]. intros <-. by rewrite Hnew in Hv.
Qed.

(** It exists if [malloc] has memory. *)
Lemma anon_new_run s am live :
  anon_inv s am live → (∀ t, al_malloc A anon_page_size (ph_alloc s) ≠ Done (NULL, t)) →
  ∃ new s', anon_new A s = Done (new, s') ∧ anon_mutex s' = anon_mutex s.
Proof.
  intros [_ Hi _ _] Hmem.
  assert (wp (anon_new A) (λ _ s', anon_mutex s' = anon_mutex s) s) as (new & s' & H & Hl)%wp_Done; [|by eauto].
  apply wp_bind, wp_zoom. pose proof (al_malloc_ok (A:=A) (ph_alloc s) live anon_page_size Hi ltac:(done)) as H.
  apply wp_Done in H as (p & t & Hrun & H). unfold wp at 1. rewrite Hrun.
  apply wp_bind. eapply wp_putopt.
  - destruct (Z.eqb_spec p NULL) as [->|]; [by destruct (Hmem t)|reflexivity].
  - by apply wp_ret.
Qed.

(** The loop that looks for a new identifier draws 0 for ever. *)
Lemma fresh_id_hangs fuel s am live :
  anon_inv s am live → anon_mutex s = true → is_Some (am !! 0) → loop fuel fresh_id_step 0 s = NoFuel.
Proof.
  intros Hi Hl [q Hq]. induction fuel as [|fuel IH]; [done|]. simpl.
  assert (fresh_id_step 0 s = Done (inl 0, s)) as Hstep.
  { apply run_wp. apply wp_bind. eapply wp_mono.
    { apply (lookup_refines anon_table _ am); [apply Hi|by has_bucket; eexists]. }
    cbn beta. rewrite Hq. intros p ? [-> ->]. simpl default.
    destruct (refines_node _ _ _ _ _ (av_table _ _ _ Hi) Hq) as (Hqn & _ & _).
    rewrite (proj2 (Z.eqb_neq q NULL) Hqn). simpl negb. cbv iota.
    apply wp_bind, wp_unlock, wp_bind. unfold wp at 1. rewrite draw_zero by apply Hi.
    apply wp_bind, wp_lock; [done|]. apply wp_ret. split; [done|].
    destruct s; simpl in *. by subst. }
  unfold mbind, M_bind. by rewrite Hstep.
Qed.

Lemma anon_inv_lock b s am live : anon_inv s am live → anon_inv (set_anon_mutex b s) am live.
Proof. intros [Hm Hi Hd Hr]. split; try done. by eapply refines_frame. Qed.

Lemma anon_create_hangs fuel src spc obj shared s am live :
  anon_inv s am live → anon_mutex s = false → is_Some (am !! 0) →
  (∀ t, al_malloc A anon_page_size (ph_alloc s) ≠ Done (NULL, t)) →
  anon_page_create A io window fuel src spc obj shared s = NoFuel.
Proof.
  intros Hi Hl Ham Hmem. destruct (anon_new_run s am live Hi Hmem) as (new & s1 & Hnew & Hl1).
  destruct (anon_new_spec s am live Hi new s1 Hnew) as (c & _ & _ & Hi1 & _).
  apply bind_out. unfold wp at 1. rewrite Hnew.
  apply bind_out. unfold wp at 1. rewrite draw_zero by apply Hi1.
  apply bind_out, wp_lock; [congruence|]. unfold mbind, M_bind at 1.
  by rewrite (fresh_id_hangs fuel _ am (<[new := c]> live)) by first [by apply anon_inv_lock|done].
Qed.

(** Writing to an entry that is not in the table yet. *)
Lemma anon_write_spec (f : anon_page_t → anon_page_t) new s am live (Q : unit → phstate T I → Prop) :
  anon_inv s am live → (∀ k, am !! k ≠ Some new) →
  (∀ n s', anons s !! new = Some n → anons s' = <[new := f n]> (anons s) → anon_inv s' am live →
    anon_mutex s' = anon_mutex s → Q tt s') →
  wlp (putopt (λ s, n ← anons s !! new; Some (set_anons (<[new := f n]> (anons s)) s))) Q s.
Proof.
  intros [Hm Hi Hd Hr] Hnew HQ. apply wlp_putopt. intros s' Hs'.
  destruct (anons s !! new) as [n|] eqn:Hn; [|done]. injection Hs' as <-.
  apply (HQ n); [done|done| |done]. split; simpl; [|done| |done].
  - eapply refines_frame; [exact Hm|done| |done]. intros k q Hq. simpl.
    rewrite lookup_insert_ne; [done|]. intros <-. by apply (Hnew k).
  - rewrite dom_insert_lookup_L; [done|eauto].
Qed.

Lemma fresh_id_first fuel s am live :
  anon_inv s am live → am !! 0 = None → wlp (loop fuel fresh_id_step 0) (λ id s', id = 0 ∧ s' = s) s.
Proof.
  intros Hi Hno. destruct fuel as [|fuel]; [done|]. apply wlp_bind, wlp_bind, wp_wlp. eapply wp_mono.
  { apply (lookup_refines anon_table _ am); [apply Hi|by has_bucket; eexists]. }
  cbn beta. rewrite Hno. intros p ? [-> ->]. by apply wlp_ret, wlp_ret.
Qed.

(** The table insertion of a new entry with the identifier 0. *)
Lemma anon_insert_spec new n s am live :
  anon_inv s am live → new ≠ NULL → anons s !! new = Some n → an_id n = 0 → am !! 0 = None →
  wlp (hash_table_insert anon_table new) (λ _ s', anon_inv s' (<[0 := new]> am) live) s.
Proof.
  intros [Hm Hi Hd Hr] Hnn Hn Hid Hno. apply wp_wlp. eapply wp_mono.
  { apply (insert_refines anon_table _ am new 0 Hm Hnn); simpl; rewrite ?Hn; simpl; rewrite ?Hid;
      eauto; by has_bucket; eexists. }
  intros k s' (_ & Ho & _ & Hm'). pose proof (Ho _ _ anon_frame_rest) as Hrest.
  unfold anon_rest in Hrest. injection Hrest as Hal Hdom Hrd.
  split; [done|by rewrite Hal|by rewrite Hdom|by rewrite Hrd].
Qed.

Lemma anon_create_first fuel spc obj shared s am live :
  anon_inv s am live → am !! 0 = None →
  wlp (anon_page_create A io window fuel PSRC_NULL spc obj shared)
      (λ id s', id = 0 ∧ ∃ am' live', anon_inv s' am' live' ∧ is_Some (am' !! 0)) s.
Proof.
  intros Hi Hno. apply wlp_bind. eapply wlp_mono; [by apply anon_new_spec|].
  intros new s1 (c & Hnn & Hfresh & Hi1 & Hs1). apply wlp_bind.
  intros id s2. rewrite draw_zero by apply Hi1. intros [= <- <-].
  apply wlp_bind, wlp_lock. intros _. apply (anon_inv_lock true) in Hi1.
  apply wlp_bind. eapply wlp_mono; [by apply (fresh_id_first _ _ am (<[new := c]> live))|]. intros id s2 [-> ->].
  assert (∀ k, am !! k ≠ Some new) as Hnew.
  { intros k Hk. destruct (refines_node _ _ _ _ _ (av_table _ _ _ Hi) Hk) as (_ & [v Hv] & _).
    simpl in Hv. by rewrite Hfresh in Hv. }
  apply wlp_bind. eapply anon_write_spec; [exact Hi1|done|]. intros n s2 Hn Hs2 Hi2 _.
  simpl in Hn. rewrite Hs1, lookup_insert_eq in Hn. injection Hn as <-.
  apply wlp_bind. cbn [anon_fill]. apply wlp_bind. eapply wlp_mono; [apply get_anon_page_rest|].
  intros a s3 Hr3. pose proof (anon_inv_rest _ _ _ _ Hr3 Hi2) as Hi3.
  assert (anons s3 = anons s2) as Han3 by (unfold ph_rest in Hr3; congruence).
  apply wlp_bind. eapply anon_write_spec; [exact Hi3|done|]. intros n s4 Hn Hs4 Hi4 _.
  rewrite Han3, Hs2, lookup_insert_eq in Hn. injection Hn as <-.
  apply wlp_bind, wp_wlp, wp_modify. apply wlp_bind. eapply wlp_mono.
  { eapply (anon_insert_spec new); [|done|simpl; by rewrite Hs4, lookup_insert_eq|done|exact Hno].
    destruct Hi4 as [Hm Hal Hd Hr]. split; [by eapply refines_frame|done..]. }
  intros k s5 Hi5. apply wlp_ret, wlp_bind, wp_wlp, wp_unlock, wlp_ret. split; [done|].
  eexists _, _. split; [apply anon_inv_lock; exact Hi5|]. rewrite lookup_insert_eq. eauto.
Qed.
End anon.

(** ** Properties *)

(** C8: a page of an inode is read once.  The first fetch takes a free page of
    the best colour of the table that decides (the object's if it is shared,
    the address space's otherwise), reads the inode into it, counts it for
    both tables and puts it into the cache; the next fetch, by anyone, returns
    the same page, counts it once more and reads nothing. *)
Theorem phys_page_fetch_caches {T I} (io : inode_io I) swap_in indeterminate inode offset id spc obj
    shared shared' (s : phstate T I) F m c0 :
  ph_inv s F m → anon_mutex s = false → io_id io (ph_io s) inode = Some id →
  m !! InodePage id offset = None →
  is_Some (color_tabs s !! spc) → is_Some (color_tabs s !! obj) →
  (∀ ct c, tab_count s ct c + 3 < 2 ^ 32) →
  (c0 < num_page_colors (ph_pages s))%nat → F c0 ≠ [] →
  (∀ a, ∃ r i, io_page_read io inode offset a (ph_io s) = Done (r, i) ∧ io_id io i inode = Some id) →
  let fetch := phys_page_fetch io swap_in indeterminate (PSRC_INODE inode offset) spc obj in
  ∃ a c l r s1 s2, fetch shared s = Done (a, s1) ∧
    first_page s (if shared then obj else spc) F c a l ∧
    io_page_read io inode offset a (ph_io s) = Done (r, ph_io s1) ∧
    counted s s1 [spc; obj] a ∧
    fetch shared' s1 = Done (a, s2) ∧ ph_io s2 = ph_io s1 ∧ counted s1 s2 [spc] a ∧
    ph_inv s2 (<[c := l]> F)
      (<[InodePage id offset := inv_page_lookup (inv_page_table (ph_pages s)) a]> m).
Proof.
  intros Hi Hl Hid Hm Hspc Hobj Hroom Hc0 Hne Hread fetch.
  assert (∀ ct c, tab_count s ct c + 2 < 2 ^ 32) as Hroom2 by (intros ct c; specialize (Hroom ct c); lia).
  destruct (proj1 (wp_Done _ _ _) (fetch_miss io swap_in indeterminate inode offset id spc obj s F m
    shared c0 Hi Hl Hid Hm Hspc Hobj Hroom2 Hc0 Hne Hread))
    as (a & s1 & Hs1 & c & l & r & Hfirst & Hok & Hrd & Hi1 & Hn1 & Ht1 & Hd1 & Hid1 & Hl1 & Hc1).
  assert (is_Some (color_tabs s1 !! spc)) as Hspc1 by (by apply elem_of_dom; rewrite Hd1; apply elem_of_dom).
  assert (a = inv_page_addr (inv_page_table (ph_pages s1)) (inv_page_lookup (inv_page_table (ph_pages s)) a))
    as Ha by (by rewrite Ht1, inv_page_round_trip).
  destruct (proj1 (wp_Done _ _ _) (fetch_hit io swap_in indeterminate inode offset id spc obj s1
    (<[c := l]> F) _ shared' _ a Hi1 Hl1 Hid1 (lookup_insert_eq _ _ _) Ha Hspc1
    ltac:(rewrite Hc1, Hn1; specialize (Hroom spc (page_color (num_page_colors (ph_pages s)) a));
      rewrite decide_True by done; rewrite !filter_cons, filter_nil;
      repeat case_decide; simpl; lia)))
    as (a' & s2 & Hs2 & -> & Hi2 & Hio2 & _ & _ & Hc2).
  exists a, c, l, r, s1, s2. by split_and!.
Qed.

(** C40: while the identifier 0 is in use no anonymous page can be created.
    Random numbers are all zero, so that the first anonymous page gets the
    identifier 0; until it is freed the search for an unused identifier never
    ends: whatever the source of the page and the bound on the search, a call
    that gets the mutex and memory for its entry does not come to an end. *)
Theorem anon_page_create_hangs {T I} (A : allocator T) inv `{!AllocatorOk A inv} (io : inode_io I) window
    (s : phstate T I) am live fuel src spc obj shared :
  anon_inv inv s am live → anon_mutex s = false → is_Some (am !! 0) →
  (∀ t, al_malloc A anon_page_size (ph_alloc s) ≠ Done (NULL, t)) →
  anon_page_create A io window fuel src spc obj shared s = NoFuel.
Proof. apply anon_create_hangs, _. Qed.

(** The first blank page gets the identifier 0. *)
Theorem anon_page_create_first {T I} (A : allocator T) inv `{!AllocatorOk A inv} (io : inode_io I) window
    (s : phstate T I) am live fuel spc obj shared id s1 :
  anon_inv inv s am live → am !! 0 = None →
  anon_page_create A io window fuel PSRC_NULL spc obj shared s = Done (id, s1) →
  id = 0 ∧ ∃ am' live', anon_inv inv s1 am' live' ∧ is_Some (am' !! 0).
Proof. intros Hi Hno. exact (anon_create_first A inv io window fuel spc obj shared s am live Hi Hno id s1). Qed.

(** Two free pages, two colour tables, an empty cache. *)
Definition blank_info : page_info := PageInfo false PAGE_UNUSED 0 (InodePage 0 0) NULL.
Definition two_tables {T} (t : T) : phstate T unit := PhState three_pages
  {[10 := color_tab three_pages; 20 := color_tab three_pages]}
  {[0x1000d4 := blank_info; 0x1001a8 := blank_info]} ∅ false ∅ ∅ false [] rand_init t tt.

Definition quiet_io : inode_io unit := InodeIO (λ _ _, Some 7) (λ _ _ _, mret 0).

Lemma two_tables_lookup {T} (t : T) ct u :
  color_tabs (two_tables t) !! ct = Some u → u = color_tab three_pages.
Proof.
  simpl. intros [[_ <-]|[_ [_ <-]%lookup_singleton_Some]]%lookup_insert_Some; done.
Qed.

Lemma two_tables_inv {T} (t : T) : ph_inv (two_tables t) three_free ∅.
Proof.
  split; [exact three_pages_wf| |done| |by intros k p| |done].
  - intros ct u ->%two_tables_lookup. exists [0; 1]. exact three_pages_colors.
  - by apply (refines_empty page_table).
  - intros [|[|c]] a Hc Ha; [..|simpl in Hc; lia]; apply list_elem_of_singleton in Ha as ->;
      by vm_compute.
Qed.

Lemma two_tables_count {T} (t : T) ct c : tab_count (two_tables t) ct c = 0.
Proof.
  unfold tab_count. destruct (color_tabs (two_tables t) !! ct) as [u|] eqn:Hu; [|done].
  apply two_tables_lookup in Hu as ->. simpl. unfold color_count, at_index. simpl.
  case_decide; [|done]. destruct (Z.to_nat c) as [|[|?]]; done.
Qed.

Lemma phys_page_fetch_caches_witness :
  ∃ a s1 s2, phys_page_fetch quiet_io (λ _ _ _, fault) 0 (PSRC_INODE 50 3) 10 20 true (two_tables tt)
      = Done (a, s1) ∧
    phys_page_fetch quiet_io (λ _ _ _, fault) 0 (PSRC_INODE 50 3) 10 20 false s1 = Done (a, s2).
Proof.
  destruct (phys_page_fetch_caches quiet_io (λ _ _ _, fault) 0 50 3 7 10 20 true false (two_tables tt)
    three_free ∅ 0) as (a & c & l & r & s1 & s2 & H1 & _ & _ & _ & H2 & _);
    [exact (two_tables_inv tt)|reflexivity|reflexivity|reflexivity|by eexists|by eexists|
     intros ct c; rewrite two_tables_count; lia|simpl; lia|done|intros a; by exists 0, tt|].
  exists a, s1, s2. split; [exact H1|exact H2].
Defined.

(** The state after the first page was created from the kernel's own heap. *)
Definition first_anon : phstate astate unit :=
  match anon_page_create malloc_allocator quiet_io 4096 1 PSRC_NULL 10 20 false
          (two_tables (AState one_block ∅)) with
  | Done (_, s) => s
  | _ => two_tables (AState one_block ∅)
  end.

Lemma first_anon_run :
  anon_page_create malloc_allocator quiet_io 4096 1 PSRC_NULL 10 20 false
    (two_tables (AState one_block ∅)) = Done (0, first_anon).
Proof. vm_compute. reflexivity. Qed.

Lemma first_anon_inv : ∃ am live, anon_inv alloc_inv first_anon am live ∧ is_Some (am !! 0).
Proof.
  eapply (anon_create_first malloc_allocator alloc_inv quiet_io 4096 1 10 20 false
    (two_tables (AState one_block ∅)) ∅ ∅); [|done|exact first_anon_run].
  split; [by apply (refines_empty anon_table)|exact fresh_allocator|done|done].
Qed.

(** The creation of a second page, after which nothing was freed. *)
Lemma anon_page_create_hangs_witness :
  anon_page_create malloc_allocator quiet_io 4096 1000 PSRC_NULL 10 20 true first_anon = NoFuel.
Proof.
  destruct first_anon_inv as (am & live & Hi & Ham).
  apply (anon_page_create_hangs malloc_allocator alloc_inv quiet_io 4096 first_anon am live 1000 PSRC_NULL
    10 20 true Hi); [reflexivity|exact Ham|]. intros t Ht. vm_compute in Ht. discriminate.
Defined.

Lemma anon_page_create_first_witness :
  ∃ am live, anon_inv alloc_inv first_anon am live ∧ is_Some (am !! 0).
Proof.
  eapply (anon_page_create_first malloc_allocator alloc_inv quiet_io 4096
    (two_tables (AState one_block ∅)) ∅ ∅ 1 10 20 false 0 first_anon); [|reflexivity|exact first_anon_run].
  split; [by apply (refines_empty anon_table)|exact fresh_allocator|done|done].
Defined.
