(* ===== verification/VirtMem.v ===== *)
(** * Virtual memory: address spaces, objects and mappings

    The data structures and the operations of src/mem/virt_mem/virt_mem.c.  An
    address space keeps the mappings of objects in a red-black tree; an object
    keeps the same mappings in a hash table by address space, and objects copied
    from each other are linked in a circular list.  The trees are those of
    [RedBlack], run on the links of the mappings.  Page tables are changed by
    assembly routines, which appear as the list of the calls made. *)

From stdpp Require Import functions countable.
From S2P Require Import Prelude HashTable CircularList RedBlack RedBlackInsert Alloc PageAlloc CowTable Util Inode PhysMem.
#[local] Open Scope Z_scope.

(** ** Data *)

(** include/virt_mem.h *)
Definition VMOBJ_PERM : Z := 0xf.
Definition VMOBJ_READ : Z := 0x1.
Definition VMOBJ_WRITE : Z := 0x2.
Definition VMOBJ_EXEC : Z := 0x4.
Definition VMOBJ_REF_COUNT : Z := 0x10.
Definition VMOBJ_COW : Z := 0x20.
Definition VMOBJ_COW_SRC : Z := 0x40.
Definition VMOBJ_RESERVED : Z := 0xffffff80.
Definition VMOBJ_INODE : Z := 1.
Definition VMOBJ_ANON : Z := 2.
Definition VMOBJ_COPY : Z := 3.
Definition VMAP_HASH_TABLE_SIZE : Z := 31.
Definition INV_MAP_HASH_TABLE_SIZE : Z := 29.

(** [vmap_t]: the tree links and colour are a [tnode]. *)
Record vmap_t := Vmap {
  vm_flags : Z;
  vm_addr : Z;
  vm_obj : ptr;
  vm_spc : ptr;
  vm_next : ptr;
  vm_links : tnode;
}.

Record addr_spc_t := AddrSpc {
  sp_id : Z;
  sp_hash_next : ptr;
  sp_num_mappers : Z;
  sp_mappers : ptr;
  sp_objs : ptr;
  sp_color_table : ptr;
}.

Record vm_obj_t := VmObj {
  vo_id : Z;
  vo_flags : Z;
  vo_size : Z;
  vo_num_mappers : Z;
  vo_src_type : Z;
  vo_cow_src : ptr;
  vo_cow_next : ptr;
  vo_cow_prev : ptr;
  vo_hash_next : ptr;
  vo_cow_count : Z;
  vo_color_table : ptr;
  vo_inode : ptr;
  vo_offset : Z;
  vo_anon_pages : list Z;
}.

(** [inv_map_t], the mapping of a page on the side of the page. *)
Record inv_map_t := InvMap {
  im_obj : ptr;
  im_offset : Z;
  im_next : ptr;
}.

(** [sizeof(vm_obj_t)] without [anon_pages], and the place of [mappers] in it:
    behind four words and a mutex of 64 bytes. *)
Definition vm_obj_mappers : Z := 80.
Definition vm_obj_size : Z := 240.
Definition vmap_size : Z := 36.
Definition inv_map_size : Z := 12.

(** The mutexes of address spaces and objects and the static ones. *)
Inductive vlock :=
| SpcMutex (spc : ptr) | ObjMutex (obj : ptr)
| AddrCountMutex | VmCountMutex | AddrTabMutex | VmTabMutex.
Global Instance vlock_eq : EqDecision vlock.
Proof. solve_decision. Defined.
Global Instance vlock_countable : Countable vlock.
Proof.
  refine (inj_countable
    (λ l, match l with SpcMutex p => inl p | ObjMutex p => inr (inl p)
                     | AddrCountMutex => inr (inr 0) | VmCountMutex => inr (inr 1)
                     | AddrTabMutex => inr (inr 2) | VmTabMutex => inr (inr 3) end)
    (λ c, match c with inl p => Some (SpcMutex p) | inr (inl p) => Some (ObjMutex p)
                     | inr (inr 0) => Some AddrCountMutex | inr (inr 1) => Some VmCountMutex
                     | inr (inr 2) => Some AddrTabMutex | inr (inr 3) => Some VmTabMutex
                     | inr (inr _) => None end) _).
  by intros [].
Defined.

(** Calls of the page table routines. *)
Inductive vm_call :=
| PageMap (spc : ptr) (addr perm phys : Z)
| PageUnmap (spc : ptr) (addr : Z)
| KernPageMapCall (addr perm phys : Z).

(** [obj_slots] are the arrays [mappers] of all objects, [inv_slots] those of
    all pages; [v_phys] holds the physical memory with the state of the
    allocator. *)
Record vmstate (T I : Type) := VmState {
  vmaps : gmap ptr vmap_t;
  spcs : gmap ptr addr_spc_t;
  vobjs : gmap ptr vm_obj_t;
  obj_slots : gmap (ptr * Z) ptr;
  addr_slots : gmap Z ptr;
  vm_slots : gmap Z ptr;
  addr_id_count : Z;
  vm_id_count : Z;
  vlocks : gset vlock;
  inv_maps : gmap ptr inv_map_t;
  inv_slots : gmap (ptr * Z) ptr;
  v_phys : phstate T I;
  v_cow : cstate T;
  v_calls : list vm_call;
}.
Arguments VmState {T I}.
Arguments vmaps {T I}.
Arguments spcs {T I}.
Arguments vobjs {T I}.
Arguments obj_slots {T I}.
Arguments addr_slots {T I}.
Arguments vm_slots {T I}.
Arguments addr_id_count {T I}.
Arguments vm_id_count {T I}.
Arguments vlocks {T I}.
Arguments inv_maps {T I}.
Arguments inv_slots {T I}.
Arguments v_phys {T I}.
Arguments v_cow {T I}.
Arguments v_calls {T I}.

Section setters.
Context {T I : Type}.
Implicit Types s : vmstate T I.

Definition set_vmaps v s : vmstate T I := VmState v (spcs s) (vobjs s) (obj_slots s) (addr_slots
  s) (vm_slots s) (addr_id_count s) (vm_id_count s) (vlocks s) (inv_maps s) (inv_slots s)
  (v_phys s) (v_cow s) (v_calls s).
Definition set_spcs v s : vmstate T I := VmState (vmaps s) v (vobjs s) (obj_slots s) (addr_slots
  s) (vm_slots s) (addr_id_count s) (vm_id_count s) (vlocks s) (inv_maps s) (inv_slots s)
  (v_phys s) (v_cow s) (v_calls s).
Definition set_vobjs v s : vmstate T I := VmState (vmaps s) (spcs s) v (obj_slots s) (addr_slots
  s) (vm_slots s) (addr_id_count s) (vm_id_count s) (vlocks s) (inv_maps s) (inv_slots s)
  (v_phys s) (v_cow s) (v_calls s).
Definition set_obj_slots v s : vmstate T I := VmState (vmaps s) (spcs s) (vobjs s) v (addr_slots
  s) (vm_slots s) (addr_id_count s) (vm_id_count s) (vlocks s) (inv_maps s) (inv_slots s)
  (v_phys s) (v_cow s) (v_calls s).
Definition set_addr_slots v s : vmstate T I := VmState (vmaps s) (spcs s) (vobjs s) (obj_slots
  s) v (vm_slots s) (addr_id_count s) (vm_id_count s) (vlocks s) (inv_maps s) (inv_slots s)
  (v_phys s) (v_cow s) (v_calls s).
Definition set_vm_slots v s : vmstate T I := VmState (vmaps s) (spcs s) (vobjs s) (obj_slots s)
  (addr_slots s) v (addr_id_count s) (vm_id_count s) (vlocks s) (inv_maps s) (inv_slots s)
  (v_phys s) (v_cow s) (v_calls s).
Definition set_addr_id_count v s : vmstate T I := VmState (vmaps s) (spcs s) (vobjs s)
  (obj_slots s) (addr_slots s) (vm_slots s) v (vm_id_count s) (vlocks s) (inv_maps s) (inv_slots
  s) (v_phys s) (v_cow s) (v_calls s).
Definition set_vm_id_count v s : vmstate T I := VmState (vmaps s) (spcs s) (vobjs s) (obj_slots
  s) (addr_slots s) (vm_slots s) (addr_id_count s) v (vlocks s) (inv_maps s) (inv_slots s)
  (v_phys s) (v_cow s) (v_calls s).
Definition set_vlocks v s : vmstate T I := VmState (vmaps s) (spcs s) (vobjs s) (obj_slots s)
  (addr_slots s) (vm_slots s) (addr_id_count s) (vm_id_count s) v (inv_maps s) (inv_slots s)
  (v_phys s) (v_cow s) (v_calls s).
Definition set_inv_maps v s : vmstate T I := VmState (vmaps s) (spcs s) (vobjs s) (obj_slots s)
  (addr_slots s) (vm_slots s) (addr_id_count s) (vm_id_count s) (vlocks s) v (inv_slots s)
  (v_phys s) (v_cow s) (v_calls s).
Definition set_inv_slots v s : vmstate T I := VmState (vmaps s) (spcs s) (vobjs s) (obj_slots s)
  (addr_slots s) (vm_slots s) (addr_id_count s) (vm_id_count s) (vlocks s) (inv_maps s) v
  (v_phys s) (v_cow s) (v_calls s).
Definition set_v_phys v s : vmstate T I := VmState (vmaps s) (spcs s) (vobjs s) (obj_slots s)
  (addr_slots s) (vm_slots s) (addr_id_count s) (vm_id_count s) (vlocks s) (inv_maps s)
  (inv_slots s) v (v_cow s) (v_calls s).
Definition set_v_cow v s : vmstate T I := VmState (vmaps s) (spcs s) (vobjs s) (obj_slots s)
  (addr_slots s) (vm_slots s) (addr_id_count s) (vm_id_count s) (vlocks s) (inv_maps s)
  (inv_slots s) (v_phys s) v (v_calls s).
Definition set_v_calls v s : vmstate T I := VmState (vmaps s) (spcs s) (vobjs s) (obj_slots s)
  (addr_slots s) (vm_slots s) (addr_id_count s) (vm_id_count s) (vlocks s) (inv_maps s)
  (inv_slots s) (v_phys s) (v_cow s) v.
End setters.


(** The allocator of the kernel heap with explicit sizes. *)
Record kern_heap (T : Type) := KernHeap {
  kh_malloc : Z → Z → M T (ptr * Z);
  kh_free : ptr → Z → M T unit;
}.
Arguments KernHeap {T}.
Arguments kh_malloc {T}.
Arguments kh_free {T}.

Section operations.
Context {T I : Type} (A : allocator T) (K : kern_heap T).
(** What memory holds that was just allocated, by word. *)
Context (fresh : ptr → Z → Z).
Abbreviation St := (vmstate T I).
Implicit Types s : St.

(** ** Mutexes, fields and memory *)

Definition acquire (l : vlock) : M St unit :=
  lock (λ s, bool_decide (l ∈ vlocks s)) (λ _ s, set_vlocks ({[l]} ∪ vlocks s) s).
Definition release (l : vlock) : M St unit := unlock (λ _ s, set_vlocks (vlocks s ∖ {[l]}) s).
Definition init_mutex (l : vlock) : M St unit := modify (λ s, set_vlocks (vlocks s ∖ {[l]}) s).

Definition get_spc (p : ptr) : M St addr_spc_t := getopt (λ s, spcs s !! p).
Definition get_obj (p : ptr) : M St vm_obj_t := getopt (λ s, vobjs s !! p).
Definition get_map (p : ptr) : M St vmap_t := getopt (λ s, vmaps s !! p).

(** The mutex is part of the structure. *)
Definition lock_spc (p : ptr) : M St unit := _ ← get_spc p; acquire (SpcMutex p).
Definition lock_obj (p : ptr) : M St unit := _ ← get_obj p; acquire (ObjMutex p).
Definition unlock_spc (p : ptr) : M St unit := release (SpcMutex p).
Definition unlock_obj (p : ptr) : M St unit := release (ObjMutex p).

Definition update_spc (p : ptr) (f : addr_spc_t → addr_spc_t) : M St unit :=
  putopt (λ s, n ← spcs s !! p; Some (set_spcs (<[p := f n]> (spcs s)) s)).
Definition update_obj (p : ptr) (f : vm_obj_t → vm_obj_t) : M St unit :=
  putopt (λ s, n ← vobjs s !! p; Some (set_vobjs (<[p := f n]> (vobjs s)) s)).
Definition update_map (p : ptr) (f : vmap_t → vmap_t) : M St unit :=
  putopt (λ s, n ← vmaps s !! p; Some (set_vmaps (<[p := f n]> (vmaps s)) s)).

Definition with_objs (v : ptr) (n : addr_spc_t) : addr_spc_t :=
  AddrSpc (sp_id n) (sp_hash_next n) (sp_num_mappers n) (sp_mappers n) v (sp_color_table n).
Definition with_num_mappers (v : Z) (n : vm_obj_t) : vm_obj_t :=
  VmObj (vo_id n) (vo_flags n) (vo_size n) v (vo_src_type n) (vo_cow_src n) (vo_cow_next n)
    (vo_cow_prev n) (vo_hash_next n) (vo_cow_count n) (vo_color_table n) (vo_inode n) (vo_offset n)
    (vo_anon_pages n).
Definition with_flags (v : Z) (n : vm_obj_t) : vm_obj_t :=
  VmObj (vo_id n) v (vo_size n) (vo_num_mappers n) (vo_src_type n) (vo_cow_src n) (vo_cow_next n)
    (vo_cow_prev n) (vo_hash_next n) (vo_cow_count n) (vo_color_table n) (vo_inode n) (vo_offset n)
    (vo_anon_pages n).
Definition with_cow_count (v : Z) (n : vm_obj_t) : vm_obj_t :=
  VmObj (vo_id n) (vo_flags n) (vo_size n) (vo_num_mappers n) (vo_src_type n) (vo_cow_src n)
    (vo_cow_next n) (vo_cow_prev n) (vo_hash_next n) v (vo_color_table n) (vo_inode n) (vo_offset n)
    (vo_anon_pages n).
Definition with_anon_pages (v : list Z) (n : vm_obj_t) : vm_obj_t :=
  VmObj (vo_id n) (vo_flags n) (vo_size n) (vo_num_mappers n) (vo_src_type n) (vo_cow_src n)
    (vo_cow_next n) (vo_cow_prev n) (vo_hash_next n) (vo_cow_count n) (vo_color_table n) (vo_inode n)
    (vo_offset n) v.

Definition f_cow_next : field St ptr := node_field vobjs set_vobjs vo_cow_next
  (λ v n, VmObj (vo_id n) (vo_flags n) (vo_size n) (vo_num_mappers n) (vo_src_type n) (vo_cow_src n)
    v (vo_cow_prev n) (vo_hash_next n) (vo_cow_count n) (vo_color_table n) (vo_inode n) (vo_offset n)
    (vo_anon_pages n)).
Definition f_cow_prev : field St ptr := node_field vobjs set_vobjs vo_cow_prev
  (λ v n, VmObj (vo_id n) (vo_flags n) (vo_size n) (vo_num_mappers n) (vo_src_type n) (vo_cow_src n)
    (vo_cow_next n) v (vo_hash_next n) (vo_cow_count n) (vo_color_table n) (vo_inode n) (vo_offset n)
    (vo_anon_pages n)).

(** The array of anonymous pages at the end of an object. *)
Definition get_anon (obj : ptr) (i : Z) : M St Z :=
  getopt (λ s, n ← vobjs s !! obj; at_index (vo_anon_pages n) i).
Definition set_anon (obj : ptr) (i v : Z) : M St unit :=
  putopt (λ s, n ← vobjs s !! obj; l ← put_index (vo_anon_pages n) i v;
               Some (set_vobjs (<[obj := with_anon_pages l n]> (vobjs s)) s)).

(** The state of the allocator lives in the physical memory. *)
Definition on_alloc {B} (m : M T B) : M St B :=
  zoom (λ s, ph_alloc (v_phys s)) (λ t s, set_v_phys (set_ph_alloc t (v_phys s)) s) m.
Definition vmalloc (size : Z) : M St ptr := on_alloc (al_malloc A size).
Definition vfree (p : ptr) : M St unit := on_alloc (al_free A p).

(** ** Tables and trees *)

Definition slot_of (m : gmap Z ptr) (i : Z) : ptr := default NULL (m !! i).

Definition addr_spc_table : hash_ops St Z :=
  node_table spcs set_spcs (λ s, slot_of (addr_slots s))
    (λ i p s, set_addr_slots (<[i := p]> (addr_slots s)) s) sp_hash_next
    (λ v n, AddrSpc (sp_id n) v (sp_num_mappers n) (sp_mappers n) (sp_objs n) (sp_color_table n))
    (λ _ n, Some (sp_id n)) Z.eqb (λ _ k, Some k) 4093.

Definition vm_obj_table : hash_ops St Z :=
  node_table vobjs set_vobjs (λ s, slot_of (vm_slots s))
    (λ i p s, set_vm_slots (<[i := p]> (vm_slots s)) s) vo_hash_next
    (λ v n, VmObj (vo_id n) (vo_flags n) (vo_size n) (vo_num_mappers n) (vo_src_type n) (vo_cow_src n)
      (vo_cow_next n) (vo_cow_prev n) v (vo_cow_count n) (vo_color_table n) (vo_inode n) (vo_offset n)
      (vo_anon_pages n))
    (λ _ n, Some (vo_id n)) Z.eqb (λ _ k, Some k) 16383.

(** The table [mappers] of the object [o], by the identifier of the space. *)
Definition obj_slot (o : ptr) s (i : Z) : ptr := default NULL (obj_slots s !! (o, i)).
Definition vmap_table (o : ptr) : hash_ops St Z :=
  node_table vmaps set_vmaps (obj_slot o)
    (λ i p s, set_obj_slots (<[(o, i) := p]> (obj_slots s)) s) vm_next
    (λ v n, Vmap (vm_flags n) (vm_addr n) (vm_obj n) (vm_spc n) v (vm_links n))
    (λ s n, sp_id <$> spcs s !! vm_spc n) Z.eqb (λ _ k, Some k) VMAP_HASH_TABLE_SIZE.

Definition vm_obj_clist : clist_ops St := ClistOps f_cow_next f_cow_prev.

(** The links of all mappings as the store of the tree template. *)
Definition links (m : gmap ptr vmap_t) : tstore := vm_links <$> m.
Definition relink (N : tstore) (m : gmap ptr vmap_t) : gmap ptr vmap_t :=
  map_imap (λ p v, Some (Vmap (vm_flags v) (vm_addr v) (vm_obj v) (vm_spc v) (vm_next v)
                              (default (vm_links v) (N !! p)))) m.
Definition on_tree {B} (m : M tstore B) : M St B :=
  zoom (λ s, links (vmaps s)) (λ N s, set_vmaps (relink N (vmaps s)) s) m.

(** [vmap_tree_insert(&(spc->objs), map)] and [vmap_tree_delete]. *)
Definition vmap_tree_insert (spc map : ptr) : M St unit :=
  n ← get_spc spc;
  tree ← on_tree (tree_insert vmap_comp (sp_objs n) map);
  update_spc spc (with_objs tree).
Definition vmap_tree_delete (spc map : ptr) : M St unit :=
  n ← get_spc spc;
  flags ← gets (λ s p, default 0 (vm_flags <$> vmaps s !! p));
  '(_, tree) ← on_tree (tree_delete vmap_comp flags (sp_objs n) map);
  update_spc spc (with_objs tree).

(** No walk down a tree visits a mapping twice. *)
Definition tree_depth : M St nat := gets (λ s, S (base.size (vmaps s))).

(** ** Looking up addresses *)

(** The loop of [get_closest_low]: the current node and [last_right]. *)
Definition closest_step (addr : Z) (c : ptr * ptr) : M St ((ptr * ptr) + ptr) :=
  let '(tree, last_right) := c in
  if tree =? NULL then mret (Break last_right) else
  n ← get_map tree;
  if addr <? vm_addr n then mret (Continue (t_left (vm_links n), last_right))
  else if vm_addr n <? addr then mret (Continue (t_right (vm_links n), tree))
  else mret (Break tree).

Definition get_closest_low (tree addr : Z) : M St ptr :=
  fuel ← tree_depth;
  loop fuel (closest_step addr) (tree, NULL).

Definition get_mapping_obj (spc addr : Z) : M St ptr :=
  n ← get_spc spc;
  out ← get_closest_low (sp_objs n) addr;
  if negb (out =? NULL) then
    m ← get_map out;
    o ← get_obj (vm_obj m);
    if addr <? u32 (vm_addr m + vo_size o) then mret out else mret NULL
  else mret NULL.

(** The loop of [collision_test]: the current node, [low] and [high]; [inr] of
    nothing is a hit on the very address. *)
Definition collision_step (addr : Z) (c : ptr * ptr * ptr) :
    M St ((ptr * ptr * ptr) + option (ptr * ptr)) :=
  let '(tree, low, high) := c in
  if tree =? NULL then mret (Break (Some (low, high))) else
  n ← get_map tree;
  if addr <? vm_addr n then mret (Continue (t_left (vm_links n), tree, high))
  else if vm_addr n <? addr then mret (Continue (t_right (vm_links n), low, tree))
  else mret (Break None).

Definition collision_test (spc addr size : Z) : M St bool :=
  n ← get_spc spc;
  fuel ← tree_depth;
  r ← loop fuel (collision_step addr) (sp_objs n, NULL, NULL);
  match r with
  | None => mret true
  | Some (low, high) =>
      l ← get_map low;
      o ← get_obj (vm_obj l);
      if u32 (vm_addr l + vo_size o) <? addr then
        h ← get_map high;
        mret (negb (u32 (addr + size) <? vm_addr h))
      else mret true
  end.

(** ** Address spaces and objects *)

(** The test accepts an object that is not in the table if it has mappings,
    and reads the count of the null object if it is not. *)
Definition vmobj_destroy (obj : ptr) : M St Z :=
  lock_obj obj;;
  acquire VmTabMutex;;
  o ← get_obj obj;
  target ← hash_table_delete vm_obj_table (vo_id o);
  release VmTabMutex;;
  destroy ← (if negb (target =? NULL) then mret true
             else t ← get_obj target; mret (negb (vo_num_mappers t =? 0)));
  if (destroy : bool) then
    _ ← clist_delete vm_obj_clist target;
    vfree target;;
    modify (λ s, set_vobjs (delete target (vobjs s)) s);;
    mret 0
  else mret (-1).

(** [if(0 == obj->mappers && obj->flags & VMOBJ_REF_COUNT) vmobj_destroy(obj)]:
    the table is a part of the object, so that its address is compared. *)
Definition collect_garbage (obj : ptr) : M St unit :=
  o ← get_obj obj;
  if (u32 (obj + vm_obj_mappers) =? 0) && negb (Z.land (vo_flags o) VMOBJ_REF_COUNT =? 0)
  then _ ← vmobj_destroy obj; mret tt
  else mret tt.

Definition delete_mapping (map : ptr) : M St unit :=
  m ← get_map map;
  let spc := vm_spc m in
  let obj := vm_obj m in
  update_obj obj (λ o, with_num_mappers (u32 (vo_num_mappers o - 1)) o);;
  n ← get_spc spc;
  _ ← hash_table_delete (vmap_table obj) (sp_id n);
  collect_garbage obj.

Definition free_map (p : ptr) : M St unit :=
  vfree p;;
  modify (λ s, set_vmaps (delete p (vmaps s)) s).

Definition with_left (v : ptr) (n : vmap_t) : vmap_t :=
  Vmap (vm_flags n) (vm_addr n) (vm_obj n) (vm_spc n) (vm_next n)
    (TNode v (t_right (vm_links n)) (t_up (vm_links n)) (t_color (vm_links n))).
Definition with_right (v : ptr) (n : vmap_t) : vmap_t :=
  Vmap (vm_flags n) (vm_addr n) (vm_obj n) (vm_spc n) (vm_next n)
    (TNode (t_left (vm_links n)) v (t_up (vm_links n)) (t_color (vm_links n))).

(** One round of the postorder traversal. *)
Definition unmap_step (spc curr : ptr) : M St (ptr + unit) :=
  m ← get_map curr;
  let l := t_left (vm_links m) in
  let r := t_right (vm_links m) in
  if negb (l =? NULL) then mret (Continue l)
  else if negb (r =? NULL) then mret (Continue r)
  else
    n ← get_spc spc;
    if negb (curr =? sp_objs n) then
      delete_mapping curr;;
      m ← get_map curr;
      let up := t_up (vm_links m) in
      u ← get_map up;
      (if curr =? t_left (vm_links u) then
         free_map (t_left (vm_links u));;
         update_map up (with_left NULL)
       else
         free_map (t_right (vm_links u));;
         update_map up (with_right NULL));;
      mret (Continue up)
    else
      delete_mapping curr;;
      free_map curr;;
      mret (Break tt).

Definition unmap_all_objs (spc : ptr) : M St unit :=
  n ← get_spc spc;
  size ← gets (λ s, base.size (vmaps s));
  loop (2 * S size) (unmap_step spc) (sp_objs n).

(** [size = 2 * PAGE_SIZE]; the colour table is not set. *)
Definition addr_spc_create : M St ptr :=
  '(new, _) ← on_alloc (kh_malloc K (2 * PAGE_SIZE) 0);
  if negb (new =? NULL) then
    init_mutex (SpcMutex new);;
    acquire AddrCountMutex;;
    id ← gets addr_id_count;
    modify (λ s, set_addr_id_count (u32 (id + 1)) s);;
    release AddrCountMutex;;
    modify (λ s, set_spcs (<[new := AddrSpc id NULL 0 NULL NULL (fresh new 0)]> (spcs s)) s);;
    acquire AddrTabMutex;;
    _ ← hash_table_insert addr_spc_table new;
    release AddrTabMutex;;
    mret new
  else mret NULL.

(** The space is destroyed only when it {e has} mappers. *)
Definition addr_spc_destroy (spc : ptr) : M St Z :=
  lock_spc spc;;
  acquire AddrTabMutex;;
  n ← get_spc spc;
  target ← hash_table_delete addr_spc_table (sp_id n);
  release AddrTabMutex;;
  n ← get_spc spc;
  if negb (target =? NULL) && negb (0 =? sp_num_mappers n) then
    vfree (sp_mappers n);;
    unmap_all_objs target;;
    on_alloc (kh_free K target (PAGE_SIZE * 2));;
    modify (λ s, set_spcs (delete target (spcs s)) s);;
    mret 0
  else
    unlock_spc spc;;
    mret (-1).

(** [new->id = vm_id_count++] under its mutex. *)
Definition next_vm_id : M St Z :=
  acquire VmCountMutex;;
  id ← gets vm_id_count;
  modify (λ s, set_vm_id_count (u32 (id + 1)) s);;
  release VmCountMutex;;
  mret id.

(** A new object in the block at [new] of [block] bytes, with room for [pages]
    anonymous pages: writing behind the end of the block is undefined.
    [memset] with the value 0 writes nothing, so that [mappers] and
    [anon_pages] keep what the memory held. *)
Definition put_obj (new block pages : Z) (o : vm_obj_t) : M St unit :=
  putopt (λ s,
    if block <? vm_obj_size + 4 * pages then None
    else Some (set_obj_slots
      (foldr (λ i, <[(new, Z.of_nat i) := fresh new (Z.of_nat i)]>) (obj_slots s)
             (seq 0 (Z.to_nat VMAP_HASH_TABLE_SIZE)))
      (set_vobjs (<[new := o]> (vobjs s)) s))).
Definition fresh_pages (new pages : Z) : list Z :=
  (λ i, fresh new (VMAP_HASH_TABLE_SIZE + Z.of_nat i)) <$> seq 0 (Z.to_nat pages).

Definition list_obj (new : ptr) : M St unit :=
  acquire VmTabMutex;;
  _ ← hash_table_insert vm_obj_table new;
  release VmTabMutex.

(** [sizeof(vm_obj_t* )], where the size of the object was meant. *)
Definition obj_block (pages : Z) : Z := u32 (4 + pages * 8).

Definition create_inode_obj (perm size inode offset : Z) : M St ptr :=
  new ← vmalloc 4;
  if negb (new =? NULL) then
    id ← next_vm_id;
    init_mutex (ObjMutex new);;
    put_obj new 4 0 (VmObj id perm size 0 VMOBJ_INODE (fresh new 40) NULL NULL (fresh new 41) 0
      (fresh new 42) inode offset []);;
    list_obj new;;
    mret new
  else mret NULL.

Definition create_anon_obj (perm size : Z) : M St ptr :=
  let pages := size / PAGE_SIZE in
  new ← vmalloc (obj_block pages);
  if negb (new =? NULL) then
    id ← next_vm_id;
    init_mutex (ObjMutex new);;
    put_obj new (obj_block pages) pages
      (VmObj id perm size 0 VMOBJ_ANON (fresh new 40) NULL NULL (fresh new 41) 0 (fresh new 42)
         (fresh new 43) (fresh new 44) (fresh_pages new pages));;
    list_obj new;;
    mret new
  else mret NULL.

(** A [page_src_t] from its tag and the words of its union; a tag outside the
    enumeration takes the default of every switch, as [PSRC_KERN] does. *)
Definition mk_page_src (tag w1 w2 : Z) : page_src_t :=
  if tag =? 0 then PSRC_NULL else if tag =? 1 then PSRC_INODE w1 w2
  else if tag =? 2 then PSRC_ANON w1 else PSRC_KERN.

Definition on_cow {B} (m : M (cstate T) B) : M St B :=
  zoom (λ s, set_cow_alloc (ph_alloc (v_phys s)) (v_cow s))
    (λ c s, set_v_phys (set_ph_alloc (cow_alloc c) (v_phys s)) (set_v_cow c s)) m.

(** The two loops over the pages of a copy; [tag] and [rest] are what the
    variable [page], of which only some members are set, happens to hold. *)
Definition copy_inode_pages (new src tag pages : Z) : M St unit :=
  for_upto (Z.to_nat pages) 0 (λ i,
    o ← get_obj src;
    set_anon new i 0;;
    on_cow (cow_inc A (mk_page_src tag (vo_inode o) (vo_offset o)))).
Definition copy_anon_pages (new src tag rest pages : Z) : M St unit :=
  for_upto (Z.to_nat pages) 0 (λ i,
    a ← get_anon src i;
    set_anon new i 0;;
    on_cow (cow_inc A (mk_page_src tag a rest))).

Definition create_copy_obj (perm size copy tag rest : Z) : M St ptr :=
  let pages := size / PAGE_SIZE in
  lock_obj copy;;
  new ← (if negb (copy =? NULL) && negb (Z.land perm VMOBJ_WRITE =? 0)
         then vmalloc (obj_block pages) else mret NULL);
  if negb (new =? NULL) then
    id ← next_vm_id;
    c ← get_obj copy;
    init_mutex (ObjMutex new);;
    put_obj new (obj_block pages) pages
      (VmObj id (Z.lor perm VMOBJ_COW) (vo_size c) 0 VMOBJ_ANON copy new new (fresh new 41)
         (vo_size c / PAGE_SIZE) (fresh new 42) (fresh new 43) (fresh new 44) (fresh_pages new pages));;
    update_obj copy (λ o, with_flags (Z.land (vo_flags o) VMOBJ_COW_SRC)
                            (with_cow_count (vo_size o / PAGE_SIZE) o));;
    unlock_obj copy;;
    c ← get_obj copy;
    (if vo_src_type c =? VMOBJ_INODE then copy_inode_pages new copy tag pages
     else copy_anon_pages new copy tag rest pages);;
    list_obj new;;
    mret new
  else mret NULL.

Definition vmobj_create (type perm size a b tag rest : Z) : M St ptr :=
  if type =? VMOBJ_INODE then create_inode_obj perm size a b
  else if type =? VMOBJ_ANON then create_anon_obj perm size
  else if type =? VMOBJ_COPY then create_copy_obj perm size a tag rest
  else mret NULL.

(** ** Mapping objects *)

(** [flags & ~VMOBJ_RESERVED] *)
Definition user_flags (flags : Z) : Z := Z.land flags (Z.lnot VMOBJ_RESERVED).

(** [map->spc = spc; ...] in fresh memory. *)
Definition map_init (map spc obj addr flags : Z) : M St unit :=
  putopt (λ s, if map =? NULL then None
    else Some (set_vmaps (<[map := Vmap (user_flags flags) addr obj spc (fresh map 5)
      (TNode (fresh map 7) (fresh map 8) (fresh map 6) (fresh map 4))]> (vmaps s)) s)).

(** Insertion in the table of the object and in the tree of the space. *)
Definition link_map (spc obj map : ptr) : M St unit :=
  acquire AddrTabMutex;;
  _ ← hash_table_insert (vmap_table obj) map;
  release AddrTabMutex;;
  acquire VmTabMutex;;
  vmap_tree_insert spc map;;
  release VmTabMutex.

Definition vmobj_map (spc obj addr flags : Z) : M St Z :=
  lock_spc spc;;
  lock_obj obj;;
  o ← get_obj obj;
  collision ← (if negb (spc =? NULL) && negb (obj =? NULL)
               then collision_test spc addr (vo_size o) else mret true);
  map ← (if negb collision then vmalloc vmap_size else mret NULL);
  if negb (map =? NULL) then
    map_init map spc obj addr flags;;
    update_obj obj (λ o, with_num_mappers (u32 (vo_num_mappers o + 1)) o);;
    link_map spc obj map;;
    unlock_spc spc;;
    unlock_obj obj;;
    mret 0
  else
    unlock_obj obj;;
    unlock_spc spc;;
    mret (-1).

Definition vmobj_unmap (spc obj : ptr) : M St Z :=
  lock_spc spc;;
  lock_obj obj;;
  n ← get_spc spc;
  map ← (if negb (spc =? NULL) && negb (obj =? NULL)
         then hash_table_delete (vmap_table obj) (sp_id n) else mret NULL);
  if negb (map =? NULL) then
    vmap_tree_delete spc map;;
    update_obj obj (λ o, with_num_mappers (u32 (vo_num_mappers o - 1)) o);;
    collect_garbage obj;;
    free_map map;;
    unlock_obj obj;;
    unlock_spc spc;;
    mret 0
  else
    unlock_obj obj;;
    unlock_spc spc;;
    mret (-1).

Definition set_map_flags (flags : Z) (n : vmap_t) : vmap_t :=
  Vmap (user_flags flags) (vm_addr n) (vm_obj n) (vm_spc n) (vm_next n) (vm_links n).
Definition set_map_addr (addr : Z) (n : vmap_t) : vmap_t :=
  Vmap (vm_flags n) addr (vm_obj n) (vm_spc n) (vm_next n) (vm_links n).

Definition vmobj_remap (spc0 obj0 addr flags : Z) : M St Z :=
  acquire AddrTabMutex;;
  n ← get_spc spc0;
  spc ← hash_table_lookup addr_spc_table (sp_id n);
  lock_spc spc;;
  release AddrTabMutex;;
  acquire VmTabMutex;;
  o ← get_obj obj0;
  obj ← hash_table_lookup vm_obj_table (vo_id o);
  lock_obj obj;;
  release VmTabMutex;;
  n ← get_spc spc;
  map ← (if negb (spc =? NULL) && negb (obj =? NULL)
         then hash_table_lookup (vmap_table obj) (sp_id n) else mret NULL);
  done ← (if negb (map =? NULL) then
            m ← get_map map;
            if (vm_spc m =? spc) || (spc =? NULL) then
              update_map map (set_map_flags flags);;
              mret true
            else
              vmap_tree_delete spc map;;
              o ← get_obj obj;
              collision ← collision_test spc addr (vo_size o);
              (if negb (collision : bool) then
                 update_map map (set_map_flags flags);;
                 update_map map (set_map_addr addr);;
                 link_map spc obj map;;
                 mret true
               else
                 link_map spc obj map;;
                 mret false)
          else mret false);
  unlock_obj obj;;
  unlock_spc spc;;
  mret (if (done : bool) then 0 else -1).

(** ** Invalidating pages *)

Definition vm_calls_add (c : vm_call) : M St unit := modify (λ s, set_v_calls (v_calls s ++ [c]) s).

(** [while(NULL != curr) { body(curr); curr = next(curr); }] *)
Definition walk_step (body : ptr → M St unit) (next : ptr → M St ptr) (curr : ptr) : M St (ptr + unit) :=
  if curr =? NULL then mret (Break tt) else
  body curr;;
  n ← next curr;
  mret (Continue n).

Definition map_next (p : ptr) : M St ptr := m ← get_map p; mret (vm_next m).

Definition page_unmap_one (offset curr : Z) : M St unit :=
  m ← get_map curr;
  lock_spc (vm_spc m);;
  vm_calls_add (PageUnmap (vm_spc m) (u32 (vm_addr m + offset)));;
  unlock_spc (vm_spc m).

Definition vm_obj_page_unmap (obj offset : Z) : M St unit :=
  lock_obj obj;;
  for_upto (Z.to_nat VMAP_HASH_TABLE_SIZE) 0 (λ i,
    curr ← gets (λ s, obj_slot obj s i);
    fuel ← tree_depth;
    loop fuel (walk_step (page_unmap_one offset) map_next) curr);;
  unlock_obj obj.

Definition on_phys {B} (m : M (phstate T I) B) : M St B := zoom v_phys set_v_phys m.

(** The page's own mutex and fields. *)
Definition page_at (addr : Z) : M St ptr := on_phys (page_of addr).
Definition update_info (p : ptr) (f : page_info → page_info) : M St unit :=
  on_phys (putopt (λ s : phstate T I, i ← infos s !! p; Some (set_infos (<[p := f i]> (infos s)) s))).
Definition with_lock (b : bool) (i : page_info) : page_info :=
  PageInfo b (pg_type i) (pg_num_mappers i) (pg_src i) (pg_next i).
Definition lock_page (p : ptr) : M St unit :=
  i ← on_phys (getopt (λ s : phstate T I, infos s !! p));
  lock (λ _, pg_mutex i) (λ _ s, s);;
  update_info p (with_lock true).
Definition unlock_page (p : ptr) : M St unit := update_info p (with_lock false).

Definition inv_slot (p : ptr) s (i : Z) : ptr := default NULL (inv_slots s !! (p, i)).
Definition inv_map_table (p : ptr) : hash_ops St Z :=
  node_table inv_maps set_inv_maps (inv_slot p)
    (λ i q s, set_inv_slots (<[(p, i) := q]> (inv_slots s)) s) im_next
    (λ v n, InvMap (im_obj n) (im_offset n) v) (λ s n, vo_id <$> vobjs s !! im_obj n) Z.eqb
    (λ _ k, Some k) INV_MAP_HASH_TABLE_SIZE.

Definition get_inv_map (p : ptr) : M St inv_map_t := getopt (λ s, inv_maps s !! p).

Definition vm_invalidate_page (phys_addr : Z) : M St unit :=
  inv_page ← page_at phys_addr;
  lock_page inv_page;;
  update_info inv_page (λ i, PageInfo (pg_mutex i) PAGE_UNUSED 0 (pg_src i) (pg_next i));;
  for_upto (Z.to_nat INV_MAP_HASH_TABLE_SIZE) 0 (λ i,
    curr ← gets (λ s, inv_slot inv_page s i);
    fuel ← gets (λ s, S (base.size (inv_maps s)));
    loop fuel (walk_step (λ p, m ← get_inv_map p; vm_obj_page_unmap (im_obj m) (im_offset m))
                         (λ p, m ← get_inv_map p; mret (im_next m))) curr);;
  unlock_page inv_page.
End operations.
