(* ===== verification/VirtMemSpec.v ===== *)
(** * Correctness of virtual memory

    Looking up the mapping of an address is right on a tree in the order of
    addresses; what becomes of mapping objects, of creating and destroying
    address spaces, and of creating objects. *)

From stdpp Require Import functions countable sorting.
From S2P Require Import Prelude HashTable CircularList Malloc MallocSpec Alloc PageAlloc CowTable Util Inode PhysMem PhysMemSpec RedBlack RedBlackSpec RedBlackInsert VirtMem.
#[local] Open Scope Z_scope.
Implicit Types t : tree.

(** ** Looking up addresses *)

Section lookup.
Context {St0 I : Type}.
Abbreviation St := (vmstate St0 I).
Implicit Types s : St.
Implicit Types a : Z.

(** The range of a mapping; it is empty for what is no mapping. *)
Definition map_addr s (x : ptr) : Z := default 0 (vm_addr <$> vmaps s !! x).
Definition map_size s (x : ptr) : Z :=
  default 0 (m ← vmaps s !! x; vo_size <$> vobjs s !! vm_obj m).
Definition covers_addr s (x : ptr) a : Prop := map_addr s x ≤ a < map_addr s x + map_size s x.

(** The mappings of [t] lie in the order of their addresses and do not
    overlap. *)
Record addr_tree s (t : tree) : Prop := {
  at_disjoint : StronglySorted (λ x y, map_addr s x + map_size s x ≤ map_addr s y) (nodes t);
  at_size x : x ∈ nodes t → 0 < map_size s x ∧ 0 ≤ map_addr s x ∧
    map_addr s x + map_size s x < 2 ^ 32;
}.

(** The reference: the last node at or below an address. *)
Fixpoint floor s a (t : tree) (acc : ptr) : ptr :=
  match t with
  | E => acc
  | T _ l x r =>
      if a <? map_addr s x then floor s a l acc
      else if map_addr s x <? a then floor s a r x else x
  end.

Lemma links_lookup s x n :
  links (vmaps s) !! x = Some n → ∃ m, vmaps s !! x = Some m ∧ vm_links m = n ∧ map_addr s x = vm_addr m.
Proof.
  unfold links. rewrite lookup_fmap. intros (m & Hm & ->)%fmap_Some. exists m.
  unfold map_addr. by rewrite Hm.
Qed.

Lemma closest_spec s a t up acc fuel :
  rep (links (vmaps s)) up t → NULL ∉ nodes t → (length (nodes t) < fuel)%nat →
  wp (loop fuel (closest_step a) (root t, acc)) (λ r s', s' = s ∧ r = floor s a t acc) s.
Proof.
  revert up acc fuel. induction t as [|c l IHl x r IHr]; intros up acc fuel Hr Hnull Hf;
    (destruct fuel as [|fuel]; [lia|]); apply wp_bind; simpl in *.
  - by apply wp_ret, wp_ret.
  - destruct Hr as (Hx & Hl & Hr). rewrite length_app in Hf. simpl in Hf.
    apply links_lookup in Hx as (m & Hm & Hlk & ->).
    rewrite (proj2 (Z.eqb_neq x NULL)) by set_solver.
    apply wp_bind, (wp_getopt _ m); [done|]. rewrite Hlk. simpl.
    destruct (a <? vm_addr m); [|destruct (vm_addr m <? a)].
    + apply wp_ret. apply (IHl x); [done|set_solver|lia].
    + apply wp_ret. apply (IHr x); [done|set_solver|lia].
    + by apply wp_ret, wp_ret.
Qed.

(** What the reference finds in a tree in the order of addresses. *)
Lemma floor_spec s a t acc :
  StronglySorted (λ x y, map_addr s x < map_addr s y) (nodes t) →
  (floor s a t acc = acc ∧ ∀ x, x ∈ nodes t → a < map_addr s x) ∨
  (floor s a t acc ∈ nodes t ∧ map_addr s (floor s a t acc) ≤ a ∧
   ∀ y, y ∈ nodes t → map_addr s y ≤ a → map_addr s y ≤ map_addr s (floor s a t acc)).
Proof.
  revert acc. induction t as [|c l IHl x r IHr]; intros acc Hs; simpl in *; [left; set_solver|].
  apply StronglySorted_app in Hs as (Hlx & Hsl & [Hxr Hsr]%StronglySorted_cons).
  rewrite Forall_forall in Hxr.
  destruct (Z.ltb_spec a (map_addr s x)) as [Hax|Hax]; [|destruct (Z.ltb_spec (map_addr s x) a) as [Hxa|Hxa]].
  - assert (∀ y, y ∈ nodes r → a < map_addr s y) as Hr by (intros y Hy; specialize (Hxr y Hy); lia).
    destruct (IHl acc Hsl) as [[-> Hl]|(Hin & Hle & Hmax)]; [left|right].
    + split; [done|]. intros y [Hy|[->|Hy]%elem_of_cons]%elem_of_app; auto.
    + split_and!; [set_solver|done|]. intros y [Hy|[->|Hy]%elem_of_cons]%elem_of_app Hya; [auto|lia|].
      specialize (Hr y Hy). lia.
  - assert (∀ y, y ∈ nodes l → map_addr s y < map_addr s x) as Hl by (intros y Hy; apply Hlx; [done|left]).
    right. destruct (IHr x Hsr) as [[-> Hr]|(Hin & Hle & Hmax)].
    + split_and!; [set_solver|lia|]. intros y [Hy|[->|Hy]%elem_of_cons]%elem_of_app Hya; [|lia|].
      * specialize (Hl y Hy). lia.
      * specialize (Hr y Hy). lia.
    + split_and!; [set_solver|done|]. specialize (Hxr _ Hin).
      intros y [Hy|[->|Hy]%elem_of_cons]%elem_of_app Hya; [|lia|auto]. specialize (Hl y Hy). lia.
  - right. split_and!; [set_solver|lia|]. intros y [Hy|[->|Hy]%elem_of_cons]%elem_of_app Hya; [|lia|lia].
    specialize (Hlx y x Hy). lia || (assert (map_addr s y < map_addr s x) by (apply Hlx; [done|left]); lia).
Qed.

Lemma sorted_either {A} (R : A → A → Prop) l x y :
  StronglySorted R l → x ∈ l → y ∈ l → x = y ∨ R x y ∨ R y x.
Proof.
  induction 1 as [|z l Hs IH Hz]; [set_solver|]. rewrite Forall_forall in Hz.
  intros [->|Hx]%elem_of_cons [->|Hy]%elem_of_cons; auto.
Qed.

Lemma addr_tree_sorted s t :
  addr_tree s t → StronglySorted (λ x y, map_addr s x < map_addr s y) (nodes t).
Proof.
  intros [Hd Hs]. induction Hd as [|x l Hl IH Hx]; constructor.
  - apply IH. intros y Hy. apply Hs. by right.
  - rewrite Forall_forall in Hx |- *. intros y Hy. specialize (Hx y Hy).
    destruct (Hs x) as [? _]; [by left|]. lia.
Qed.

(** C18: [get_mapping_obj] finds the mapping of an address.  On a tree whose
    mappings lie in the order of their addresses without overlapping, it
    terminates and returns the one mapping whose range contains the address,
    or null when there is none. *)
Theorem get_mapping_obj_finds s spc n t a :
  spcs s !! spc = Some n → tree_rep (links (vmaps s)) (sp_objs n) t → addr_tree s t →
  (∀ x m, x ∈ nodes t → vmaps s !! x = Some m → is_Some (vobjs s !! vm_obj m)) →
  ∃ r, get_mapping_obj spc a s = Done (r, s) ∧
    ((r ∈ nodes t ∧ covers_addr s r a ∧ ∀ x, x ∈ nodes t → covers_addr s x a → x = r) ∨
     (r = NULL ∧ ∀ x, x ∈ nodes t → ¬ covers_addr s x a)).
Proof.
  intros Hn Hrep Ht Hobj. pose proof Hrep as [Hroot Hr _ Hnull].
  pose proof (tree_size _ _ _ Hrep) as Hsz. unfold links in Hsz. rewrite map_size_fmap in Hsz.
  destruct Ht as [Hdis Hpos]. pose proof (addr_tree_sorted s t (Build_addr_tree s t Hdis Hpos)) as Hsort.
  set (f := floor s a t NULL).
  assert (get_closest_low (sp_objs n) a s = Done (f, s)) as Hlow.
  { apply run_wp, wp_bind, wp_gets. rewrite Hroot.
    eapply wp_mono; [apply (closest_spec s a t NULL NULL); [done|done|lia]|]. by intros r s' [-> ->]. }
  enough (wp (get_mapping_obj spc a) (λ r s', s' = s ∧
    ((r ∈ nodes t ∧ covers_addr s r a ∧ ∀ x, x ∈ nodes t → covers_addr s x a → x = r) ∨
     (r = NULL ∧ ∀ x, x ∈ nodes t → ¬ covers_addr s x a))) s) as (r & s' & Hr' & -> & H)%wp_Done
    by eauto.
  apply wp_bind, (wp_getopt _ n); [done|]. apply wp_bind. unfold wp at 1. rewrite Hlow.
  destruct (floor_spec s a t NULL Hsort) as [[Hf Hall]|(Hin & Hle & Hmax)];
    [change (f = NULL) in Hf; rewrite Hf; apply wp_ret; split; [done|right]; split; [done|]|].
  { intros x Hx [Hxa _]. specialize (Hall x Hx). lia. }
  fold f in Hin, Hle, Hmax.
  assert (f ≠ NULL) as Hfn by (intros Heq; apply Hnull; by rewrite <-Heq).
  rewrite (proj2 (Z.eqb_neq f NULL) Hfn).
  destruct (rep_dom _ _ _ _ Hr Hin) as [nd (m & Hm & _ & Hfa)%links_lookup].
  destruct (Hobj f m Hin Hm) as [o Ho].
  assert (map_size s f = vo_size o) as Hfs by (unfold map_size; rewrite Hm; simpl; by rewrite Ho).
  assert (∀ x, x ∈ nodes t → covers_addr s x a → x = f) as Huniq.
  { intros x Hx [Hxa Hxe]. specialize (Hmax x Hx Hxa). destruct (Hpos f Hin) as [? _].
    destruct (sorted_either _ _ x f Hdis Hx Hin) as [|[Hxf|Hfx]]; [done|lia|lia]. }
  destruct (Hpos f Hin) as (Hsz0 & Ha0 & Hend).
  apply wp_bind, (wp_getopt _ m); [done|]. apply wp_bind, (wp_getopt _ o); [done|].
  rewrite <-Hfa, <-Hfs, u32_small by lia.
  destruct (Z.ltb_spec a (map_addr s f + map_size s f)) as [Hlt|Hge]; apply wp_ret; (split; [done|]).
  - left. by split_and!.
  - right. split; [done|]. intros x Hx Hc. rewrite (Huniq x Hx Hc) in Hc. destruct Hc. lia.
Qed.
End lookup.

(** ** Mapping objects *)

Section mapping.
Context {St0 I : Type} (A : allocator St0) (fresh : ptr → Z → Z).
Abbreviation St := (vmstate St0 I).
Implicit Types s : St.

Lemma wlp_acquire l (Q : unit → St → Prop) s :
  (l ∉ vlocks s → Q tt (set_vlocks ({[l]} ∪ vlocks s) s)) → wlp (acquire l) Q s.
Proof. intros HQ. apply wlp_lock. intros Hl. apply HQ. by rewrite bool_decide_eq_false in Hl. Qed.

Lemma wlp_getopt {B} (f : St → option B) (Q : B → St → Prop) s :
  (∀ b, f s = Some b → Q b s) → wlp (getopt f) Q s.
Proof. unfold wlp, getopt. intros HQ b s'. destruct (f s) eqn:Hf; [|done]. intros [= <- <-]. by apply HQ. Qed.

(** The mapping that the search calls [low] lies above the address. *)
Lemma collision_loop fuel a s tree low high :
  (low = NULL ∨ ∃ m, vmaps s !! low = Some m ∧ a < vm_addr m) →
  wlp (loop fuel (collision_step a) (tree, low, high)) (λ r s', s' = s ∧
    ∀ l h, r = Some (l, h) → l = NULL ∨ ∃ m, vmaps s !! l = Some m ∧ a < vm_addr m) s.
Proof.
  revert tree low high. induction fuel as [|fuel IH]; intros tree low high Hlow; [done|].
  apply wlp_bind. unfold collision_step. destruct (Z.eqb_spec tree NULL) as [->|Ht].
  { apply wlp_ret, wlp_ret. split; [done|]. by intros l h [= -> ->]. }
  apply wlp_bind, wlp_getopt. intros m Hm.
  destruct (Z.ltb_spec a (vm_addr m)) as [Ha|Ha]; [|destruct (Z.ltb_spec (vm_addr m) a)].
  - apply wlp_ret, IH. right. eauto.
  - by apply wlp_ret, IH.
  - by apply wlp_ret, wlp_ret.
Qed.

(** No mapping reaches the end of the address space, and there is none at the
    null pointer. *)
Record maps_in_range s : Prop := {
  mr_end x m o : vmaps s !! x = Some m → vobjs s !! vm_obj m = Some o →
    0 ≤ vm_addr m ∧ 0 ≤ vo_size o ∧ vm_addr m + vo_size o < 2 ^ 32;
  mr_null : vmaps s !! NULL = None;
}.

Lemma collision_always s spc a size :
  maps_in_range s → wlp (collision_test spc a size) (λ r s', r = true ∧ s' = s) s.
Proof.
  intros [Hend Hnull]. apply wlp_bind, wlp_getopt. intros n Hn.
  apply wlp_bind, wp_wlp, wp_gets, wlp_bind.
  eapply wlp_mono; [apply collision_loop; by left|]. intros [[l h]|] s' [-> Hr]; [|by apply wlp_ret].
  apply wlp_bind, wlp_getopt. intros m Hm. apply wlp_bind, wlp_getopt. intros o Ho.
  destruct (Hr l h eq_refl) as [->|(m' & Hm' & Ha)]; [by rewrite Hnull in Hm|].
  rewrite Hm in Hm'. injection Hm' as <-. pose proof (Hend l m o Hm Ho).
  rewrite u32_small by lia. destruct (Z.ltb_spec (vm_addr m + vo_size o) a); [lia|]. by apply wlp_ret.
Qed.

(** C37: nothing can ever be mapped.  [collision_test] confuses the neighbours
    of an address, so that [vmobj_map], when it returns at all, returns -1 and
    leaves everything as it was. *)
Theorem vmobj_map_refuses s spc obj addr flags r s' :
  maps_in_range s → vmobj_map A fresh spc obj addr flags s = Done (r, s') → r = -1 ∧ s' = s.
Proof.
  intros Hr. revert r s'. change (wlp (vmobj_map A fresh spc obj addr flags) (λ r s', r = -1 ∧ s' = s) s).
  apply wlp_bind, wlp_bind, wlp_getopt. intros n Hn. apply wlp_acquire. intros Hl1.
  apply wlp_bind, wlp_bind, wlp_getopt. intros o Ho. apply wlp_acquire. intros Hl2.
  set (s1 := set_vlocks _ _). assert (maps_in_range s1) as Hr1 by (destruct Hr; by split).
  apply wlp_bind, wlp_getopt. intros o' Ho'. apply wlp_bind.
  eapply wlp_mono with (P := λ b s', b = true ∧ s' = s1).
  { destruct (negb (spc =? NULL) && negb (obj =? NULL)); [by apply collision_always|by apply wlp_ret]. }
  intros b s2 [-> ->]. apply wlp_bind, wlp_ret. simpl negb. cbv iota.
  apply wlp_bind, wp_wlp, wp_unlock, wlp_bind, wp_wlp, wp_unlock, wlp_ret. split; [done|].
  unfold set_vlocks; simpl. rewrite !lock_unlock by done. by destruct s.
Qed.
End mapping.

(** ** The life of an address space *)

Section spaces.
Context {St0 I : Type} (A : allocator St0) (K : kern_heap St0) (fresh : ptr → Z → Z).
Abbreviation St := (vmstate St0 I).
Implicit Types s : St.

Lemma lookup_slot_of m i p : slot_of (<[i := p]> m) i = p.
Proof. unfold slot_of. by rewrite lookup_insert_eq. Qed.
Lemma lookup_slot_of_ne m i j p : i ≠ j → slot_of (<[i := p]> m) j = slot_of m j.
Proof. intros Hij. unfold slot_of. by rewrite lookup_insert_ne. Qed.

Global Instance addr_spc_node : NodeTable (@spcs St0 I) set_spcs (λ s, slot_of (addr_slots s))
  (λ i p s, set_addr_slots (<[i := p]> (addr_slots s)) s) sp_hash_next
  (λ v n, AddrSpc (sp_id n) v (sp_num_mappers n) (sp_mappers n) (sp_objs n) (sp_color_table n))
  (λ _ n, Some (sp_id n)) (λ _ k, Some k) 4093.
Proof. split; try done; [intros; apply lookup_slot_of|intros; by apply lookup_slot_of_ne]. Qed.
Global Instance addr_spc_table_ok : HashOk (@addr_spc_table St0 I).
Proof. apply node_table_ok, _. Qed.
Global Instance addr_spc_table_eq : HashEq (@addr_spc_table St0 I).
Proof. intros a b. apply Z.eqb_eq. Qed.

(** What relinking the table of spaces leaves alone. *)
Definition spc_data (n : addr_spc_t) := (sp_id n, sp_num_mappers n, sp_objs n).
Definition same_but_spcs s s' : Prop :=
  (vlocks s', v_phys s', vmaps s') = (vlocks s, v_phys s, vmaps s) ∧
  ∀ p, spc_data <$> spcs s' !! p = spc_data <$> spcs s !! p.

Lemma spc_hash_only s s' : hash_only addr_spc_table s s' → same_but_spcs s s'.
Proof.
  intros H. split.
  - apply (H _ (λ s, (vlocks s, v_phys s, vmaps s))). by apply node_table_frame.
  - intros p. apply (H _ (λ s, spc_data <$> spcs s !! p)). by apply node_table_data; [apply _|].
Qed.

Lemma wp_vlock l (Q : unit → St → Prop) s :
  l ∉ vlocks s → Q tt (set_vlocks ({[l]} ∪ vlocks s) s) → wp (acquire l) Q s.
Proof. intros Hl HQ. apply wp_lock; [by apply bool_decide_eq_false|done]. Qed.

(** A client of the table changes no other part of the state. *)
Lemma spcs_frame s s' m : refines_map addr_spc_table s m → addr_slots s' = addr_slots s →
  spcs s' = spcs s → refines_map addr_spc_table s' m.
Proof.
  intros Hm Hsl Hsp. eapply refines_frame; [exact Hm|..]; simpl.
  - intros i. by rewrite Hsl.
  - intros k p _. by rewrite Hsp.
  - done.
Qed.

(** A new space: in the table under the next identifier, without mappings. *)
Lemma addr_spc_create_spec s m new c (w : St0) :
  refines_map addr_spc_table s m → m !! addr_id_count s = None →
  AddrCountMutex ∉ vlocks s → AddrTabMutex ∉ vlocks s →
  kh_malloc K (2 * PAGE_SIZE) 0 (ph_alloc (v_phys s)) = Done ((new, c), w) → new ≠ NULL →
  spcs s !! new = None →
  wp (addr_spc_create K fresh) (λ r s', r = new ∧
    refines_map addr_spc_table s' (<[addr_id_count s := new]> m) ∧
    (∃ n, spcs s' !! new = Some n ∧ spc_data n = (addr_id_count s, 0, NULL)) ∧
    vlocks s' = vlocks s ∖ {[SpcMutex new]} ∧ v_phys s' = set_ph_alloc w (v_phys s)) s.
Proof.
  intros Hm Hid Hl1 Hl2 Hmal Hn Hfresh. unfold addr_spc_create.
  apply wp_bind, wp_zoom. unfold wp at 1. rewrite Hmal. rewrite (proj2 (Z.eqb_neq new NULL) Hn).
  apply wp_bind, wp_modify, wp_bind, wp_vlock; [simpl; set_solver|].
  apply wp_bind, wp_gets, wp_bind, wp_modify, wp_bind, wp_unlock, wp_bind, wp_modify.
  apply wp_bind, wp_vlock; [simpl; set_solver|]. simpl.
  set (n0 := AddrSpc _ _ _ _ _ _). set (s1 := set_vlocks _ _).
  assert (refines_map addr_spc_table s1 m) as Hm1.
  { eapply refines_frame; [exact Hm|done| |done]. simpl. intros k p Hp.
    rewrite lookup_insert_ne; [done|]. intros <-.
    destruct (refines_node _ _ _ _ _ Hm Hp) as (_ & [? Hx] & _). simpl in Hx. by rewrite Hfresh in Hx. }
  apply wp_bind. eapply wp_mono.
  { apply (insert_refines addr_spc_table s1 m new (addr_id_count s)); [done|done| | |by has_bucket; eexists|done];
      simpl; rewrite lookup_insert_eq; [by eexists|done]. }
  intros _ s2 (_ & Ho & _ & Hm2). apply spc_hash_only in Ho as [Hall Hd]. simpl in Hall.
  injection Hall as Elk Eph _. apply wp_bind, wp_unlock, wp_ret. split_and!; [done| | | |done].
  - by eapply spcs_frame.
  - simpl. specialize (Hd new). simpl in Hd. rewrite lookup_insert_eq in Hd.
    destruct (spcs s2 !! new) as [n|]; [|done]. exists n. split; [done|].
    change (Some (spc_data n) = Some (addr_id_count s, 0, NULL)) in Hd. congruence.
  - simpl. rewrite Elk. set_solver.
Qed.

(** The space goes from the table, and -1 is returned. *)
Lemma addr_spc_destroy_spec s m spc n :
  refines_map addr_spc_table s m → m !! sp_id n = Some spc → spcs s !! spc = Some n →
  sp_num_mappers n = 0 → SpcMutex spc ∉ vlocks s → AddrTabMutex ∉ vlocks s →
  wp (addr_spc_destroy A K spc) (λ r s', r = -1 ∧
    refines_map addr_spc_table s' (delete (sp_id n) m) ∧
    (∃ n', spcs s' !! spc = Some n' ∧ spc_data n' = spc_data n) ∧
    vlocks s' = vlocks s ∧ v_phys s' = v_phys s ∧ vmaps s' = vmaps s) s.
Proof.
  intros Hm Hid Hspc Hnum Hl1 Hl2. unfold addr_spc_destroy.
  apply wp_bind, wp_bind, (wp_getopt _ n); [done|]. apply wp_vlock; [done|].
  apply wp_bind, wp_vlock; [simpl; set_solver|]. apply wp_bind, (wp_getopt _ n); [done|].
  set (s1 := set_vlocks _ _).
  assert (refines_map addr_spc_table s1 m) as Hm1 by (by eapply spcs_frame).
  apply wp_bind. eapply wp_mono; [apply (delete_refines addr_spc_table s1 m (sp_id n)); [done|by has_bucket; eexists]|].
  intros r s2 (-> & Ho & _ & Hm2). apply spc_hash_only in Ho as [Hall Hd].
  injection Hall as Elk Eph Evm. apply wp_bind, wp_unlock.
  specialize (Hd spc). simpl in Hd. rewrite Hspc in Hd. destruct (spcs s2 !! spc) as [n2|] eqn:Hn2; [|done].
  simpl in Hd. injection Hd as Hd1 Hd2 Hd3. apply wp_bind, (wp_getopt _ n2); [done|].
  rewrite Hd2, Hnum, andb_false_r. apply wp_bind, wp_unlock, wp_ret. split_and!; [done| | | |done|done].
  - by eapply spcs_frame.
  - exists n2. split; [done|]. unfold spc_data. congruence.
  - simpl. rewrite Elk. simpl. set_solver.
Qed.

(** C38: no address space is ever given back.  A space created by
    [addr_spc_create] is in the table under the next identifier and has no
    mappers; destroying it takes it out of the table, but returns -1 and gives
    no memory back, since the test asks for a space that {e has} mappers. *)
Theorem addr_spc_destroy_leaks s m new c (w : St0) :
  refines_map addr_spc_table s m → m !! addr_id_count s = None →
  AddrCountMutex ∉ vlocks s → AddrTabMutex ∉ vlocks s →
  kh_malloc K (2 * PAGE_SIZE) 0 (ph_alloc (v_phys s)) = Done ((new, c), w) → new ≠ NULL →
  spcs s !! new = None →
  ∃ s1 s2, addr_spc_create K fresh s = Done (new, s1) ∧
    refines_map addr_spc_table s1 (<[addr_id_count s := new]> m) ∧
    addr_spc_destroy A K new s1 = Done (-1, s2) ∧
    refines_map addr_spc_table s2 m ∧
    (∃ n, spcs s2 !! new = Some n ∧ spc_data n = (addr_id_count s, 0, NULL)) ∧
    v_phys s2 = v_phys s1.
Proof.
  intros Hm Hid Hl1 Hl2 Hmal Hn Hfresh.
  destruct (proj1 (wp_Done _ _ _) (addr_spc_create_spec s m new c w Hm Hid Hl1 Hl2 Hmal Hn Hfresh))
    as (r & s1 & Hr & -> & Hm1 & (n & Hn1 & Hd) & Hlk & _).
  unfold spc_data in Hd. injection Hd as Hd1 Hd2 Hd3.
  destruct (proj1 (wp_Done _ _ _) (addr_spc_destroy_spec s1 _ new n Hm1
    ltac:(rewrite Hd1; apply lookup_insert_eq) Hn1 Hd2 ltac:(rewrite Hlk; set_solver)
    ltac:(rewrite Hlk; set_solver))) as (r & s2 & Hr2 & -> & Hm2 & (n' & Hn' & Hd') & _ & Hph & _).
  exists s1, s2. split_and!; [done|done|done| | |done];
    [|exists n'; split; [done|rewrite Hd'; unfold spc_data; congruence]].
  rewrite Hd1, delete_insert_id in Hm2 by done. done.
Qed.
End spaces.

(** ** Creating objects *)

Section creating.
Context {I : Type} (fresh : ptr → Z → Z).
Implicit Types s : vmstate astate I.

Lemma vmalloc_tiny s live n : alloc_inv (ph_alloc (v_phys s)) live → 0 ≤ n ≤ 4 →
  vmalloc malloc_allocator n s = Done (NULL, s).
Proof.
  intros Hi Hn. unfold vmalloc, on_alloc, zoom. simpl. rewrite (malloc_tiny_fails _ live) by done.
  by destruct s as [???????????[]].
Qed.

(** Writing an object into a block that is too small for it. *)
Lemma put_obj_overflow new block pages o (Q : unit → vmstate astate I → Prop) s :
  block < vm_obj_size + 4 * pages → wlp (put_obj fresh new block pages o) Q s.
Proof. intros Hb. apply wlp_putopt. intros s'. by rewrite (proj2 (Z.ltb_lt _ _) Hb). Qed.

(** An object with room for so many pages is larger than the block that is
    requested for it. *)
Definition exceeds_block (pages : Z) : Prop := obj_block pages < vm_obj_size + 4 * pages.

(** Objects do not fit in the blocks they are given.  The size passed to
    [malloc] is that of a pointer to an object: for an inode it is four bytes,
    which [malloc] never serves, so that null is returned; and an anonymous
    object of fewer than 59 pages is written over the end of its block, unless
    there was no memory. *)
Theorem vmobj_create_too_small s live perm size a b tag rest :
  alloc_inv (ph_alloc (v_phys s)) live → 0 ≤ size < 59 * PAGE_SIZE →
  vmobj_create malloc_allocator fresh VMOBJ_INODE perm size a b tag rest s = Done (NULL, s) ∧
  exceeds_block (size / PAGE_SIZE) ∧
  ∀ r s', vmobj_create malloc_allocator fresh VMOBJ_ANON perm size a b tag rest s = Done (r, s') →
    r = NULL.
Proof.
  intros Hi Hsz.
  assert (0 ≤ size / PAGE_SIZE < 59) as Hp.
  { split; [apply Z.div_pos; [lia|done]|]. apply Z.div_lt_upper_bound; [done|lia]. }
  assert (exceeds_block (size / PAGE_SIZE)) as Hex.
  { unfold exceeds_block, obj_block, vm_obj_size. rewrite u32_small; lia. }
  split_and!; [|done|].
  - unfold vmobj_create. simpl. apply bind_out. unfold wp. by rewrite (vmalloc_tiny s live) by done.
  - intros r s'. revert r s'. change (wlp (create_anon_obj malloc_allocator fresh perm size)
      (λ r _, r = NULL) s).
    apply wlp_bind. intros new s1 _. destruct (Z.eqb_spec new NULL) as [->|]; [by apply wlp_ret|].
    apply wlp_bind. intros id s2 _. apply wlp_bind. intros [] s3 _.
    by apply wlp_bind, put_obj_overflow.
Qed.
End creating.

(** ** An address space with two mappings *)

Definition map_a : ptr := 524292.
Definition map_b : ptr := 524356.
Definition tree_ab : tree := T BLACK (T 0 E map_a E) map_b E.

(** A file of one page, mapped for reading. *)
Definition some_obj (id : Z) : vm_obj_t :=
  VmObj id VMOBJ_READ 4096 1 VMOBJ_INODE NULL NULL NULL NULL 0 20 50 3 [].
Definition some_spc : addr_spc_t := AddrSpc 5 NULL 0 NULL map_b 10.

Definition two_maps {T I} (ph : phstate T I) : vmstate T I := VmState
  {[map_a := Vmap VMOBJ_READ 4096 1000 500 NULL (TNode NULL NULL map_b 0);
    map_b := Vmap VMOBJ_READ 12288 2000 500 NULL (TNode map_a NULL NULL BLACK)]}
  {[500 := some_spc]} {[1000 := some_obj 1; 2000 := some_obj 2]}
  {[(1000, 5) := map_a; (2000, 5) := map_b]} {[5 := 500]} {[1 := 1000; 2 := 2000]} 6 3 ∅ ∅ ∅
  ph (CState ∅ ∅ ∅ false (ph_alloc ph)) [].

Lemma two_maps_tree {T I} (ph : phstate T I) :
  tree_rep (links (vmaps (two_maps ph))) map_b tree_ab.
Proof.
  split; [done|by split_and!| |]; simpl; [|set_solver].
  apply NoDup_cons; split; [|apply NoDup_singleton]. unfold map_a, map_b. set_solver.
Qed.

Lemma two_maps_ordered {T I} (ph : phstate T I) : addr_tree (two_maps ph) tree_ab.
Proof.
  split.
  - constructor; [by do 2 constructor|]. constructor; [by vm_compute|constructor].
  - intros x [->|[->|Hx]%elem_of_cons]%elem_of_cons; [..|set_solver]; by vm_compute.
Qed.

Lemma two_maps_range {T I} (ph : phstate T I) : maps_in_range (two_maps ph).
Proof.
  split; [|done]. intros x m o Hm. simpl in Hm.
  apply lookup_insert_Some in Hm as [[_ <-]|[_ [_ <-]%lookup_singleton_Some]];
    intros [= <-]; by vm_compute.
Qed.

Lemma get_mapping_obj_finds_witness :
  ∃ r, get_mapping_obj 500 5000 (two_maps (two_tables tt)) = Done (r, two_maps (two_tables tt)) ∧
    covers_addr (two_maps (two_tables tt)) r 5000.
Proof.
  destruct (get_mapping_obj_finds (two_maps (two_tables tt)) 500 some_spc tree_ab 5000)
    as (r & Hr & [(_ & Hc & _)|(_ & Hno)]);
    [done|exact (two_maps_tree _)|exact (two_maps_ordered _)| | |].
  - intros x m [->|[->|Hx]%elem_of_cons]%elem_of_cons; [..|set_solver]; intros [= <-]; by eexists.
  - exists r. by split.
  - exfalso. apply (Hno map_a); [left|]. by vm_compute.
Defined.

(** The page between the two mappings is free. *)
Lemma vmobj_map_refuses_witness :
  let s := two_maps (two_tables (AState one_block ∅)) in
  ∃ r s', vmobj_map malloc_allocator (λ _ _, 0) 500 1000 8192 1 s = Done (r, s') ∧ r = -1 ∧ s' = s.
Proof.
  intros s.
  assert (∃ rs, vmobj_map malloc_allocator (λ _ _, 0) 500 1000 8192 1 s = Done rs) as [[r s'] Hr]
    by (eexists; vm_compute; reflexivity).
  exists r, s'. split; [exact Hr|].
  eapply (vmobj_map_refuses malloc_allocator (λ _ _, 0) s 500 1000 8192 1); [|exact Hr].
  exact (two_maps_range (two_tables (AState one_block ∅))).
Defined.

(** The heap of the kernel behind [kern_malloc]. *)
Definition kernel_heap : kern_heap astate := KernHeap
  (λ size priority, zoom a_heap set_a_heap (kern_malloc size priority))
  (λ p size, zoom a_heap set_a_heap (kern_free p size)).

Lemma two_maps_spaces {T I} (ph : phstate T I) : refines_map addr_spc_table (two_maps ph) {[5 := 500]}.
Proof.
  apply (refines_singleton addr_spc_table (two_maps ph) 5 500 5); [done..|].
  intros i. simpl. case_decide as Hi; [by rewrite Hi|]. change (i ≠ 5) in Hi.
  unfold slot_of. by rewrite lookup_singleton_ne by congruence.
Qed.

Lemma addr_spc_destroy_leaks_witness :
  let s := two_maps (two_tables (AState one_block ∅)) in
  ∃ new s1 s2, addr_spc_create kernel_heap (λ _ _, 0) s = Done (new, s1) ∧
    addr_spc_destroy malloc_allocator kernel_heap new s1 = Done (-1, s2) ∧ is_Some (spcs s2 !! new).
Proof.
  intros s.
  assert (∃ w, kh_malloc kernel_heap (2 * PAGE_SIZE) 0 (AState one_block ∅) = Done ((524288, 8192), w))
    as [w Hw] by (eexists; vm_compute; reflexivity).
  destruct (addr_spc_destroy_leaks malloc_allocator kernel_heap (λ _ _, 0) s {[5 := 500]} 524288 8192 w)
    as (s1 & s2 & H1 & _ & H2 & _ & (n & H3 & _) & _);
    [exact (two_maps_spaces _)|done|by apply not_elem_of_empty|by apply not_elem_of_empty|exact Hw|done|done|].
  exists 524288, s1, s2. split_and!; [exact H1|exact H2|rewrite H3; by eexists].
Defined.

Lemma vmobj_create_too_small_witness :
  let s := two_maps (two_tables (AState one_block ∅)) in
  vmobj_create malloc_allocator (λ _ _, 0) VMOBJ_INODE VMOBJ_READ 4096 50 0 0 0 s = Done (NULL, s) ∧
  exceeds_block (4096 / PAGE_SIZE) ∧
  ∀ r s', vmobj_create malloc_allocator (λ _ _, 0) VMOBJ_ANON VMOBJ_READ 4096 50 0 0 0 s = Done (r, s') →
    r = NULL.
Proof.
  intros s. apply (vmobj_create_too_small (λ _ _, 0) s ∅); [exact fresh_allocator|by vm_compute].
Defined.
