(* ===== verification/VirtMemUnmap.v ===== *)
(** * Taking an address space down

    [unmap_all_objs] walks the tree of mappings of an address space in
    postorder, frees every mapping and takes it out of the table of its object.
    The walk is followed along the positions of [RedBlackSpec]. *)

From stdpp Require Import functions countable sorting.
From S2P Require Import Prelude HashTable CircularList Malloc MallocSpec Alloc PageAlloc CowTable Util Inode PhysMem PhysMemSpec RedBlack RedBlackSpec RedBlackInsert VirtMem VirtMemSpec.
#[local] Open Scope Z_scope.
Implicit Types t : tree.

(** ** The tables of mappings of all objects *)

Section tables.
Context {St0 I : Type}.
Abbreviation St := (vmstate St0 I).
Implicit Types s : St.
Implicit Types Tb : ptr → gmap Z ptr.

(** What a mapping says, without the links of the table and of the tree. *)
Definition vm_data (m : vmap_t) := (vm_flags m, vm_addr m, vm_obj m, vm_spc m).

Global Instance vmaps_lens : LensOk (@vmaps St0 I) set_vmaps.
Proof. by split. Qed.

Global Instance vmap_table_node o : NodeTable (@vmaps St0 I) set_vmaps (obj_slot o)
  (λ i p s, set_obj_slots (<[(o, i) := p]> (obj_slots s)) s) vm_next
  (λ v n, Vmap (vm_flags n) (vm_addr n) (vm_obj n) (vm_spc n) v (vm_links n))
  (λ s n, sp_id <$> spcs s !! vm_spc n) (λ _ k, Some k) VMAP_HASH_TABLE_SIZE.
Proof.
  split; try done; unfold obj_slot; simpl.
  - intros i p s. by rewrite lookup_insert_eq.
  - intros i j p s Hij. by rewrite lookup_insert_ne by congruence.
Qed.
Global Instance vmap_table_ok o : HashOk (@vmap_table St0 I o).
Proof. apply node_table_ok, _. Qed.
Global Instance vmap_table_eq o : HashEq (@vmap_table St0 I o).
Proof. intros a b. apply Z.eqb_eq. Qed.

(** [Tb] lists the mappings of every object by the identifier of the space. *)
Record tables s Tb : Prop := {
  tb_map o : refines_map (vmap_table o) s (Tb o);
  tb_obj o k p : Tb o !! k = Some p → vm_obj <$> vmaps s !! p = Some o;
}.

Lemma tables_same s s' Tb :
  tables s Tb → obj_slots s' = obj_slots s → spcs s' = spcs s →
  (∀ o k p, Tb o !! k = Some p →
     vm_next <$> vmaps s' !! p = vm_next <$> vmaps s !! p ∧
     vm_data <$> vmaps s' !! p = vm_data <$> vmaps s !! p) →
  tables s' Tb.
Proof.
  intros [Hm Ho] Hsl Hsp Hn.
  assert (∀ o k p, Tb o !! k = Some p →
    (vm_obj <$> vmaps s' !! p = vm_obj <$> vmaps s !! p) ∧
    (vm_spc <$> vmaps s' !! p = vm_spc <$> vmaps s !! p)) as Hd.
  { intros o k p Hp. destruct (Hn o k p Hp) as [_ Hd]. unfold vm_data in Hd.
    destruct (vmaps s !! p), (vmaps s' !! p); simpl in *; try done. split; congruence. }
  split; [|intros o k p Hp; destruct (Hd o k p Hp) as [-> _]; by eapply Ho].
  intros o. eapply refines_frame; [done|..]; simpl.
  - intros i. unfold obj_slot. by rewrite Hsl.
  - intros k p Hp. destruct (Hn o k p Hp) as [Hnx _], (Hd o k p Hp) as [_ Hds]. split; [done|].
    rewrite Hsp. destruct (vmaps s !! p), (vmaps s' !! p); simpl in *; try done. congruence.
  - done.
Qed.

(** Relinking mappings leaves everything but their links in the table alone. *)
Definition all_but_tables s :=
  (links (vmaps s), spcs s, vobjs s, addr_slots s, vm_slots s, vlocks s, v_phys s).

Lemma delete_entry s Tb o key :
  tables s Tb →
  wp (hash_table_delete (vmap_table o) key) (λ r s', r = default NULL (Tb o !! key) ∧
    all_but_tables s' = all_but_tables s ∧
    (∀ x, vm_data <$> vmaps s' !! x = vm_data <$> vmaps s !! x) ∧
    tables s' (<[o := delete key (Tb o)]> Tb)) s.
Proof.
  intros [Hm Ho]. eapply wp_mono; [apply (delete_refines (vmap_table o) s (Tb o) key); [apply Hm|by has_bucket; eexists]|].
  intros r s' (Hr & Honly & Hnext & Hm').
  assert (∀ x, vm_data <$> vmaps s' !! x = vm_data <$> vmaps s !! x) as Hd.
  { intros x. apply (Honly _ (λ s, vm_data <$> vmaps s !! x)). by apply node_table_data; [apply _|]. }
  assert (all_but_tables s' = all_but_tables s) as Hall.
  { apply (Honly _ all_but_tables). apply node_table_frame; [|done].
    intros s1 p v m Hp. unfold all_but_tables, links; simpl. rewrite fmap_insert; simpl.
    by rewrite insert_id by (by rewrite lookup_fmap, Hp). }
  split_and!; [done|done|done|]. pose proof Hall as Hall'. unfold all_but_tables in Hall'.
  injection Hall' as _ Hsp _ _ _ _ _.
  assert (∀ x, vm_obj <$> vmaps s' !! x = vm_obj <$> vmaps s !! x) as Hob.
  { intros x. specialize (Hd x). unfold vm_data in Hd.
    destruct (vmaps s !! x), (vmaps s' !! x); simpl in *; try done. congruence. }
  split.
  - intros o'. destruct (decide (o = o')) as [<-|Hne]; [by rewrite fn_lookup_insert|].
    rewrite fn_lookup_insert_ne by done. eapply refines_frame; [apply Hm|..]; simpl.
    + intros i. apply (Honly _ (λ s, obj_slot o' s i)). apply node_table_frame; [done|].
      intros j p s1. unfold obj_slot; simpl. rewrite lookup_insert_ne by congruence. done.
    + intros k p Hp. split.
      * apply Hnext. intros k' Hk'. apply Ho in Hp, Hk'. congruence.
      * specialize (Hd p). unfold vm_data in Hd. rewrite Hsp.
        destruct (vmaps s !! p), (vmaps s' !! p); simpl in *; try done. congruence.
    + done.
  - intros o' k p. rewrite Hob. destruct (decide (o = o')) as [<-|Hne].
    + rewrite fn_lookup_insert. intros [_ Hp]%lookup_delete_Some. by eapply Ho.
    + rewrite fn_lookup_insert_ne by done. apply Ho.
Qed.
End tables.

(** ** Positions *)

Lemma plug_root f k t t' : root (plug (f :: k) t) = root (plug (f :: k) t').
Proof.
  revert f t t'. induction k as [|f' k IH]; intros f t t'; simpl; [by rewrite !fill_root|].
  apply (IH f').
Qed.

Lemma plug_root_in f k t : root (plug (f :: k) t) ∈ knodes (f :: k).
Proof.
  revert f t. induction k as [|f' k IH]; intros f t.
  - simpl. rewrite fill_root. left.
  - change (plug (f :: f' :: k) t) with (plug (f' :: k) (fill f t)). specialize (IH f' (fill f t)).
    simpl in *. set_solver.
Qed.

Lemma root_null t : NULL ∉ nodes t → (root t =? NULL) = true → t = E.
Proof. destruct t as [|c l x r]; [done|]. simpl. intros Hn ->%Z.eqb_eq. set_solver. Qed.

Lemma links_some (m : gmap ptr vmap_t) x w :
  links m !! x = Some w ↔ ∃ v, m !! x = Some v ∧ vm_links v = w.
Proof. unfold links. rewrite lookup_fmap, fmap_Some. naive_solver. Qed.

(** Taking a leaf off the tree. *)
Lemma pos_cut N f k c x :
  at_pos N (f :: k) (T c E x E) →
  at_pos (<[f_node f := hang f NULL (parent k)]> (delete x N)) k (fill f E).
Proof.
  intros Hp. pose proof (pos_nodup _ _ _ _ _ _ Hp) as (_ & _ & Hx). destruct Hp as [_ Hk Hnd Hnull].
  simpl in Hnd, Hnull. apply NoDup_cons in Hnd as [_ Hnd].
  apply pos_fill. split; [done| |done|set_solver].
  eapply krep_rehang; [|done]. eapply krep_frame; [|exact Hk].
  intros z Hz. rewrite lookup_delete_ne; [done|]. by intros <-.
Qed.

(** ** The state of the walk *)

Section unmapping.
Context {St0 I : Type} (A : allocator St0) (inv : St0 → gmap ptr Z → Prop) `{!AllocatorOk A inv}.
Abbreviation St := (vmstate St0 I).
Implicit Types s : St.
Implicit Types R : list ptr.

(** The mappings of the space at [spc] are the nodes of [t]: each is in the
    table of its object under the identifier of the space, and nothing else is
    there; and they are blocks of the allocator. *)
Record mapped s (spc : ptr) (n : addr_spc_t) t (Tb : ptr → gmap Z ptr) (live : gmap ptr Z) : Prop := {
  md_spc : spcs s !! spc = Some n;
  md_tree : tree_rep (links (vmaps s)) (sp_objs n) t;
  md_tables : tables s Tb;
  md_node x : x ∈ nodes t → ∃ m, vmaps s !! x = Some m ∧ vm_spc m = spc ∧
    is_Some (vobjs s !! vm_obj m) ∧ Tb (vm_obj m) !! sp_id n = Some x ∧ is_Some (live !! x);
  md_entry o x : Tb o !! sp_id n = Some x → x ∈ nodes t;
  md_alloc : inv (ph_alloc (v_phys s)) live;
  md_end o : is_Some (vobjs s !! o) → u32 (o + vm_obj_mappers) ≠ 0;
}.

Context (s0 : St) (spc : ptr) (n : addr_spc_t) (t0 : tree) (Tb : ptr → gmap Z ptr) (live0 : gmap ptr Z).
Context (Hmapped : mapped s0 spc n t0 Tb live0).

(** [R] are the mappings of the space that are still there. *)
Definition kept R (x : ptr) : Prop := x ∈ nodes t0 → x ∈ R.
#[local] Instance kept_dec R x : Decision (kept R x).
Proof. apply _. Defined.

Definition entries R (o : ptr) : gmap Z ptr := filter (λ kp, kept R kp.2) (Tb o).
Definition lowered (v : vm_obj_t) : vm_obj_t := with_num_mappers (u32 (vo_num_mappers v - 1)) v.
Definition count R (o : ptr) (v : vm_obj_t) : vm_obj_t :=
  match Tb o !! sp_id n with
  | Some x => if decide (kept R x) then v else lowered v
  | None => v
  end.

(** The mappings and their blocks; the tables and counts of the objects. *)
Record linked R s : Prop := {
  lk_spcs : spcs s = spcs s0;
  lk_data x : vm_data <$> vmaps s !! x = if decide (kept R x) then vm_data <$> vmaps s0 !! x else None;
  lk_alloc : inv (ph_alloc (v_phys s)) (filter (λ xc, kept R xc.1) live0);
}.
Record counted R s : Prop := {
  ct_tables : tables s (entries R);
  ct_objs o : vobjs s !! o = count R o <$> vobjs s0 !! o;
}.

(** [R'] is [R] without the mapping [x]. *)
Record drops R (x : ptr) R' : Prop := {
  dr_in : x ∈ R;
  dr_node : x ∈ nodes t0;
  dr_rest y : y ∈ R' ↔ y ∈ R ∧ y ≠ x;
}.

Lemma drops_kept R x R' y : drops R x R' → kept R' y ↔ kept R y ∧ y ≠ x.
Proof.
  intros [Hx Hn Hr]. unfold kept. split.
  - intros Hk. split; [intros Hy; by apply Hr, Hk|]. intros ->. by destruct (proj1 (Hr x) (Hk Hn)).
  - intros [Hk Hne] Hy. apply Hr. auto.
Qed.

Lemma entry_inj o k o' k' y : Tb o !! k = Some y → Tb o' !! k' = Some y → o = o' ∧ k = k'.
Proof.
  intros H1 H2. destruct Hmapped as [_ _ [Hm Ho] _ _ _ _].
  pose proof (Ho _ _ _ H1) as E1. pose proof (Ho _ _ _ H2) as E2.
  destruct (refines_node _ _ _ _ _ (Hm o) H1) as (_ & _ & I1).
  destruct (refines_node _ _ _ _ _ (Hm o') H2) as (_ & _ & I2). simpl in *. split; congruence.
Qed.

(** The object of a mapping and its entry. *)
Lemma node_entry x : x ∈ nodes t0 → ∃ m v, vmaps s0 !! x = Some m ∧ vm_spc m = spc ∧
  vobjs s0 !! vm_obj m = Some v ∧ Tb (vm_obj m) !! sp_id n = Some x.
Proof.
  intros Hx. destruct (md_node _ _ _ _ _ _ Hmapped x Hx) as (m & Hm & Hs & [v Hv] & Ht & _). eauto 6.
Qed.

Lemma entries_drop R x R' o o' :
  drops R x R' → Tb o !! sp_id n = Some x →
  (<[o := delete (sp_id n) (entries R o)]> (entries R)) o' = entries R' o'.
Proof.
  intros Hd Ho. apply map_eq. intros k. apply option_eq. intros y.
  assert (entries R' o' !! k = Some y ↔ entries R o' !! k = Some y ∧ y ≠ x) as ->.
  { unfold entries. rewrite !map_lookup_filter_Some. simpl. rewrite (drops_kept _ _ _ _ Hd). tauto. }
  assert (entries R o' !! k = Some y → y = x → o = o' ∧ k = sp_id n) as Hinj.
  { intros [Hk _]%map_lookup_filter_Some ->. destruct (entry_inj _ _ _ _ _ Ho Hk). done. }
  destruct (decide (o = o')) as [<-|Hne].
  - rewrite fn_lookup_insert, lookup_delete_Some. split.
    + intros [Hk Hy]. split; [done|]. intros ->. by destruct (Hinj Hy eq_refl).
    + intros [Hy Hyx]. split; [|done]. intros <-. apply Hyx.
      apply map_lookup_filter_Some in Hy as [Hy _]. congruence.
  - rewrite fn_lookup_insert_ne by done. split; [|tauto]. intros Hy. split; [done|].
    intros ->. by destruct (Hinj Hy eq_refl).
Qed.

Lemma count_drop R x R' o o' v :
  drops R x R' → Tb o !! sp_id n = Some x →
  count R' o' v = if decide (o = o') then lowered (count R o v) else count R o' v.
Proof.
  intros Hd Ho. unfold count. case_decide as Hoo.
  - subst o'. rewrite Ho. rewrite decide_False by (rewrite (drops_kept _ _ _ _ Hd); tauto).
    by rewrite decide_True by (intros _; apply Hd).
  - destruct (Tb o' !! sp_id n) as [y|] eqn:Hy; [|done].
    apply decide_ext. rewrite (drops_kept _ _ _ _ Hd). split; [tauto|]. intros Hk. split; [done|].
    intros ->. by destruct (entry_inj _ _ _ _ _ Ho Hy).
Qed.

Lemma tables_ext s T1 T2 : (∀ o, T1 o = T2 o) → tables s T1 → tables s T2.
Proof.
  intros He [Hm Ho]. split; [intros o; by rewrite <-He|]. intros o k p. rewrite <-He. apply Ho.
Qed.

(** *** The operations on a mapping *)

Lemma data_of s p m0 :
  vm_data <$> vmaps s !! p = Some (vm_data m0) →
  ∃ m, vmaps s !! p = Some m ∧ vm_obj m = vm_obj m0 ∧ vm_spc m = vm_spc m0.
Proof. intros (m & -> & Hm)%fmap_Some. exists m. unfold vm_data in Hm. split_and!; congruence. Qed.

Lemma linked_frame R s s' :
  linked R s → spcs s' = spcs s → v_phys s' = v_phys s →
  (∀ p, vm_data <$> vmaps s' !! p = vm_data <$> vmaps s !! p) → linked R s'.
Proof. intros [Hs Hd Ha] Es Ep Ed. split; [congruence|intros p; by rewrite Ed|by rewrite Ep]. Qed.

Lemma delete_mapping_spec R x R' s :
  linked R s → counted R s → drops R x R' →
  wp (delete_mapping A x) (λ _ s', linked R s' ∧ counted R' s' ∧
    links (vmaps s') = links (vmaps s)) s.
Proof.
  intros Hl [Ht Ho] Hd. destruct (node_entry x) as (m0 & v & Hm0 & Hs0 & Hv & He); [by apply Hd|].
  pose proof Hl as [Hsp Hdata _].
  destruct (data_of s x m0) as (m & Hm & Hob & Hsm).
  { rewrite Hdata, Hm0. apply decide_True. intros _. by apply Hd. }
  apply wp_bind, (wp_getopt _ m); [done|]. rewrite Hob, Hsm, Hs0. set (o := vm_obj m0) in *.
  assert (vobjs s !! o = Some (count R o v)) as Hvo by (by rewrite Ho, Hv).
  apply wp_bind. eapply wp_putopt; [by rewrite Hvo|]. simpl. set (s1 := set_vobjs _ _).
  assert (tables s1 (entries R)) as Ht1 by (eapply tables_same; [exact Ht|done..]).
  apply wp_bind, (wp_getopt _ n); [simpl; rewrite Hsp; apply (md_spc _ _ _ _ _ _ Hmapped)|].
  apply wp_bind. eapply wp_mono; [exact (delete_entry _ _ o (sp_id n) Ht1)|].
  intros _ s2 (_ & Hall & Hd2 & Ht2). unfold all_but_tables in Hall. injection Hall as Elk Es Eo _ _ _ Ep.
  assert (linked R s2) as Hl2 by (eapply linked_frame; [exact Hl|done..]).
  assert (counted R' s2) as Hc2.
  { split.
    - eapply tables_ext; [|exact Ht2]. intros o'. by eapply entries_drop.
    - intros o'. rewrite Eo. simpl. destruct (vobjs s0 !! o') as [v'|] eqn:Hv'; simpl.
      + rewrite (count_drop R x R' o o' v' Hd He). case_decide as Hoo.
        * subst o'. rewrite lookup_insert_eq. rewrite Hv in Hv'. by injection Hv' as <-.
        * rewrite lookup_insert_ne by done. by rewrite Ho, Hv'.
      + rewrite lookup_insert_ne by congruence. by rewrite Ho, Hv'. }
  apply wp_bind. eapply wp_getopt; [rewrite Eo; simpl; by rewrite lookup_insert_eq|].
  rewrite (proj2 (Z.eqb_neq _ _) (md_end _ _ _ _ _ _ Hmapped o (mk_is_Some _ _ Hv))).
  by apply wp_ret.
Qed.

Lemma free_map_spec R x R' s :
  linked R s → counted R' s → drops R x R' →
  wp (free_map A x) (λ _ s', linked R' s' ∧ counted R' s' ∧
    links (vmaps s') = delete x (links (vmaps s))) s.
Proof.
  intros [Hsp Hdata Ha] [Ht Ho] Hd.
  destruct (md_node _ _ _ _ _ _ Hmapped x) as (_ & _ & _ & _ & _ & [c Hc]); [by apply Hd|].
  apply wp_bind, wp_zoom. eapply wp_mono.
  { eapply al_free_ok; [exact Ha|]. apply map_lookup_filter_Some. split; [exact Hc|].
    intros _. by apply Hd. }
  intros [] a' Ha'. apply wp_modify. split_and!.
  - split; simpl; [done| |].
    + intros p. destruct (decide (x = p)) as [<-|Hne].
      * rewrite lookup_delete_eq. rewrite decide_False; [done|]. rewrite (drops_kept _ _ _ _ Hd). tauto.
      * rewrite lookup_delete_ne, Hdata by done. apply decide_ext. rewrite (drops_kept _ _ _ _ Hd).
        split; [done|tauto].
    + eapply eq_ind; [exact Ha'|]. apply map_eq. intros p. apply option_eq. intros b.
      rewrite lookup_delete_Some, !map_lookup_filter_Some. simpl. rewrite (drops_kept _ _ _ _ Hd).
      split; [intros (? & ? & ?); auto|intros (? & ? & ?); auto].
  - split; [|done]. eapply tables_same; [exact Ht|done..|]. simpl. intros o k p Hp.
    rewrite lookup_delete_ne; [done|]. intros <-.
    apply map_lookup_filter_Some in Hp as [_ Hk]. simpl in Hk. rewrite (drops_kept _ _ _ _ Hd) in Hk. tauto.
  - apply fmap_delete.
Qed.

(** Cutting a link of the tree. *)
Lemma cut_spec R s up m f :
  linked R s → counted R s → vmaps s !! up = Some m →
  vm_data (f m) = vm_data m → vm_next (f m) = vm_next m →
  wp (update_map up f) (λ _ s', linked R s' ∧ counted R s' ∧
    links (vmaps s') = <[up := vm_links (f m)]> (links (vmaps s))) s.
Proof.
  intros Hl [Ht Ho] Hm Hf Hn. eapply wp_putopt; [by rewrite Hm|]. simpl.
  assert (∀ p, vm_data <$> <[up:=f m]> (vmaps s) !! p = vm_data <$> vmaps s !! p ∧
               vm_next <$> <[up:=f m]> (vmaps s) !! p = vm_next <$> vmaps s !! p) as Hsame.
  { intros p. destruct (decide (up = p)) as [<-|]; [|by rewrite lookup_insert_ne].
    rewrite lookup_insert_eq, Hm. simpl. by rewrite Hf, Hn. }
  split_and!.
  - eapply linked_frame; [exact Hl|done..|]. intros p. apply Hsame.
  - split; [|done]. eapply tables_same; [exact Ht|done..|]. intros o k p _. split; apply Hsame.
  - apply fmap_insert.
Qed.

(** *** The walk *)

Lemma drops_leaf f k c x :
  NoDup (nodes (plug (f :: k) (T c E x E))) → x ∈ nodes t0 →
  drops (nodes (plug (f :: k) (T c E x E))) x (nodes (plug k (fill f E))).
Proof.
  change (plug k (fill f E)) with (plug (f :: k) E). intros Hnd Ht.
  rewrite plug_nodes in Hnd. apply NoDup_cons in Hnd as [Hx _].
  split; [rewrite plug_nodes; left|done|]. intros y. rewrite !plug_nodes. simpl in *. set_solver.
Qed.

(** The step at a leaf that is not the root. *)
Lemma unmap_leaf f k c x s :
  at_pos (links (vmaps s)) (f :: k) (T c E x E) → x ∈ nodes t0 →
  root (plug (f :: k) (T c E x E)) = sp_objs n →
  linked (nodes (plug (f :: k) (T c E x E))) s → counted (nodes (plug (f :: k) (T c E x E))) s →
  wp (unmap_step A spc x) (λ r s', r = Continue (f_node f) ∧
    at_pos (links (vmaps s')) k (fill f E) ∧
    linked (nodes (plug k (fill f E))) s' ∧ counted (nodes (plug k (fill f E))) s') s.
Proof.
  intros Hpos Hx Hroot Hl Hc. pose proof (pos_node _ _ _ _ _ _ Hpos) as [Hxn Hxnull].
  pose proof (pos_nodup _ _ _ _ _ _ Hpos) as (_ & _ & Hxk).
  pose proof Hpos as [_ (Hu & _ & _)%krep_cons Hnd _]. simpl root in Hu.
  assert (drops (nodes (plug (f :: k) (T c E x E))) x (nodes (plug k (fill f E)))) as Hd.
  { apply drops_leaf; [by rewrite plug_nodes|done]. }
  assert (x ≠ f_node f) as Hxf by (intros ->; apply Hxk; left).
  pose proof Hxn as (m & Hm & Hlk)%links_some.
  apply wp_bind, (wp_getopt _ m); [done|]. rewrite Hlk. simpl.
  apply wp_bind, (wp_getopt _ n); [rewrite (lk_spcs _ _ Hl); apply (md_spc _ _ _ _ _ _ Hmapped)|].
  rewrite (proj2 (Z.eqb_neq x (sp_objs n))).
  2:{ intros ->. rewrite <-Hroot in Hxk. apply Hxk, plug_root_in. }
  apply wp_bind. eapply wp_mono; [exact (delete_mapping_spec _ _ _ _ Hl Hc Hd)|].
  intros _ s1 (Hl1 & Hc1 & E1). rewrite <-E1 in Hpos, Hxn, Hu.
  apply links_some in Hxn as (m1 & Hm1 & Hlk1), Hu as (u1 & Hu1 & Hulk1).
  apply wp_bind, (wp_getopt _ m1); [done|]. rewrite Hlk1. simpl t_up. cbv zeta.
  apply wp_bind, (wp_getopt _ u1); [done|]. rewrite Hulk1.
  rewrite hang_direction; [|done|intros Hs; apply Hxk; simpl; set_solver].
  assert (∀ s', linked (nodes (plug k (fill f E))) s' ∧ counted (nodes (plug k (fill f E))) s' ∧
    links (vmaps s') = delete x (links (vmaps s1)) → ∃ u, vmaps s' !! f_node f = Some u ∧ vm_links u = hang f x (parent k))
    as Hup.
  { intros s' (_ & _ & E2). apply links_some. rewrite E2, lookup_delete_ne by done.
    unfold links. by rewrite lookup_fmap, Hu1; simpl; rewrite Hulk1. }
  destruct f as [fc y r|l fc y]; simpl t_left; simpl t_right;
    (apply wp_bind, wp_bind; eapply wp_mono; [exact (free_map_spec _ _ _ _ Hl1 Hc1 Hd)|]);
    intros [] s2 H2; destruct (Hup s2 H2) as (u2 & Hu2 & Hulk2); destruct H2 as (Hl2 & Hc2 & E2);
    (eapply wp_mono; [eapply cut_spec; [exact Hl2|exact Hc2|exact Hu2|done|done]|]);
    intros [] s3 (Hl3 & Hc3 & E3); apply wp_ret; (split_and!; [done| |done|done]);
    rewrite E3, E2; simpl vm_links; rewrite Hulk2; by apply pos_cut with (c := c) in Hpos.
Qed.

(** The last step, at a root without children. *)
Lemma unmap_last c x s :
  links (vmaps s) !! x = Some (TNode NULL NULL NULL c) → x ∈ nodes t0 → x = sp_objs n →
  linked [x] s → counted [x] s →
  wp (unmap_step A spc x) (λ r s', r = Break tt ∧ linked [] s' ∧ counted [] s') s.
Proof.
  intros (m & Hm & Hlk)%links_some Hx Hroot Hl Hc.
  assert (drops [x] x []) as Hd by (split; [left|done|set_solver]).
  apply wp_bind, (wp_getopt _ m); [done|]. rewrite Hlk. simpl.
  apply wp_bind, (wp_getopt _ n); [rewrite (lk_spcs _ _ Hl); apply (md_spc _ _ _ _ _ _ Hmapped)|].
  rewrite (proj2 (Z.eqb_eq x (sp_objs n)) Hroot). simpl.
  apply wp_bind. eapply wp_mono; [exact (delete_mapping_spec _ _ _ _ Hl Hc Hd)|].
  intros _ s1 (Hl1 & Hc1 & _). apply wp_bind.
  eapply wp_mono; [exact (free_map_spec _ _ _ _ Hl1 Hc1 Hd)|].
  intros _ s2 (Hl2 & Hc2 & _). by apply wp_ret.
Qed.

Lemma unmap_walk fuel k t s :
  t ≠ E → at_pos (links (vmaps s)) k t → nodes (plug k t) ⊆ nodes t0 → root (plug k t) = sp_objs n →
  linked (nodes (plug k t)) s → counted (nodes (plug k t)) s →
  (2 * length (nodes (plug k t)) < fuel + length k)%nat →
  wp (loop fuel (unmap_step A spc) (root t)) (λ _ s', linked [] s' ∧ counted [] s') s.
Proof.
  revert k t s. induction fuel as [|fuel IH]; intros k t s Hne Hpos Hsub Hroot Hl Hc Hf.
  { pose proof (path_length k t). lia. }
  destruct t as [|c l x r]; [done|]. simpl root.
  pose proof (pos_node _ _ _ _ _ _ Hpos) as [Hxn Hxnull].
  assert (x ∈ nodes t0) as Hx0 by (apply Hsub; rewrite plug_nodes; simpl; set_solver).
  assert ((NULL ∉ nodes l) ∧ (NULL ∉ nodes r)) as [Hnl Hnr].
  { destruct Hpos as [_ _ _ Hn]. simpl in Hn. set_solver. }
  pose proof Hxn as (m & Hm & Hlk)%links_some. apply wp_bind.
  destruct (root l =? NULL) eqn:Hrl; [destruct (root r =? NULL) eqn:Hrr|].
  - apply root_null in Hrl as ->, Hrr as ->; [|done..]. destruct k as [|f k].
    + eapply wp_mono; [by apply (unmap_last c x)|]. intros q s' (-> & H1 & H2). by apply wp_ret.
    + eapply wp_mono; [by apply (unmap_leaf f k c x)|]. intros q s' (-> & Hp' & Hl' & Hc').
      rewrite <-(fill_root f E). apply (IH k); [apply fill_nonempty|done| | |done|done|].
      * etrans; [|exact Hsub]. change (plug k (fill f E)) with (plug (f :: k) E).
        intros y. rewrite !plug_nodes. simpl. set_solver.
      * rewrite <-Hroot. apply (plug_root f k).
      * change (plug k (fill f E)) with (plug (f :: k) E). rewrite !plug_nodes in *.
        simpl in *. lia.
  - apply (wp_bind _ _ _ _), (wp_getopt _ m); [done|]. rewrite Hlk. simpl. rewrite Hrl, Hrr. simpl.
    do 2 apply wp_ret. apply (IH (FR l c x :: k) r); [by intros ->|by apply pos_fill|done..|simpl in *; lia].
  - apply (wp_bind _ _ _ _), (wp_getopt _ m); [done|]. rewrite Hlk. simpl. rewrite Hrl. simpl.
    do 2 apply wp_ret. apply (IH (FL c x r :: k) l); [by intros ->|by apply pos_fill|done..|simpl in *; lia].
Qed.
End unmapping.

(** C11: taking an address space down ends, and takes down exactly its
    mappings.  [unmap_all_objs] on a space with at least one mapping returns;
    every mapping of the space is freed, in the allocator too, and has left the
    table of its object, whose count of mappings is one lower; the mappings of
    other spaces stay as they are. *)
Theorem unmap_all_objs_unmaps {St0 I} (A : allocator St0) inv `{!AllocatorOk A inv}
    (s : vmstate St0 I) spc n t Tb live :
  mapped inv s spc n t Tb live → t ≠ E →
  ∃ s', unmap_all_objs A spc s = Done (tt, s') ∧
    (∀ x, x ∈ nodes t → vmaps s' !! x = None) ∧
    (∀ x, x ∉ nodes t → vm_data <$> vmaps s' !! x = vm_data <$> vmaps s !! x) ∧
    tables s' (λ o, delete (sp_id n) (Tb o)) ∧
    (∀ o, vobjs s' !! o = (λ v, if decide (is_Some (Tb o !! sp_id n)) then lowered v else v) <$> vobjs s !! o) ∧
    inv (ph_alloc (v_phys s')) (filter (λ xc, xc.1 ∉ nodes t) live).
Proof.
  intros H Hne. pose proof H as [Hspc Htree Htab _ Hent Halloc _].
  pose proof (tree_size _ _ _ Htree) as Hsz. unfold links in Hsz. rewrite map_size_fmap in Hsz.
  assert (∀ x, kept t (nodes t) x) as Hall by (intros x Hx; exact Hx).
  assert (∀ x, kept t [] x ↔ x ∉ nodes t) as Hnone by (unfold kept; set_solver).
  apply wp_run with (a := tt) (P := λ s', _).
  apply wp_bind, (wp_getopt _ n); [done|]. apply wp_bind, wp_gets. rewrite (tr_root _ _ _ Htree).
  eapply wp_mono; [eapply (unmap_walk A inv s spc n t Tb live H _ [] t)|].
  - done.
  - by apply pos_tree; simpl; rewrite <-(tr_root _ _ _ Htree).
  - done.
  - by rewrite (tr_root _ _ _ Htree).
  - split; [done| |].
    + intros x. by rewrite decide_True.
    + rewrite map_filter_id; done.
  - split.
    + eapply tables_ext; [|exact Htab]. intros o. unfold entries. by rewrite map_filter_id.
    + intros o. destruct (vobjs s !! o) as [v|]; [|done]. simpl. unfold count.
      destruct (Tb o !! sp_id n); [|done]. by rewrite decide_True.
  - simpl. lia.
  - intros [] s' [[_ Hd Ha] [Ht Ho]]. split; [done|]. split_and!.
    + intros x Hx. specialize (Hd x). rewrite decide_False in Hd by (rewrite Hnone; tauto).
      by destruct (vmaps s' !! x).
    + intros x Hx. rewrite Hd. apply decide_True. by apply Hnone.
    + eapply tables_ext; [|exact Ht]. intros o. apply map_eq. intros k. apply option_eq. intros y.
      unfold entries. rewrite map_lookup_filter_Some, lookup_delete_Some. simpl. rewrite Hnone.
      split.
      * intros [Hy Hn]. split; [|done]. intros <-. by apply Hn, (Hent o).
      * intros [Hk Hy]. split; [done|]. intros Hin.
        destruct (md_node _ _ _ _ _ _ _ H y Hin) as (m & _ & _ & _ & Hy' & _).
        by destruct (entry_inj inv s spc n t Tb live H _ _ _ _ _ Hy Hy').
    + intros o. rewrite Ho. destruct (vobjs s !! o) as [v|]; [|done]. simpl. f_equal. unfold count.
      destruct (Tb o !! sp_id n) as [x|] eqn:Hx; [|by rewrite decide_False by (intros []; done)].
      rewrite (decide_True (P := is_Some _)) by eauto. apply decide_False. rewrite Hnone.
      intros Hn. by apply Hn, (Hent o).
    + eapply eq_ind; [exact Ha|]. apply map_filter_ext. intros x c _. apply Hnone.
Qed.

(** ** Two mappings *)

(** The heap after [malloc] has served two mappings. *)
Definition two_blocks : astate :=
  match malloc 36 (AState one_block ∅) with
  | Done (_, w) => match malloc 36 w with Done (_, w2) => w2 | _ => w end
  | _ => AState one_block ∅
  end.

Definition table_ab (o : ptr) : gmap Z ptr :=
  if o =? 1000 then {[5 := map_a]} else if o =? 2000 then {[5 := map_b]} else ∅.
Abbreviation mapped_ab := (two_maps (two_tables two_blocks)).

Lemma two_blocks_inv : ∃ c d, alloc_inv two_blocks {[map_b := d; map_a := c]}.
Proof.
  assert (∀ w live p w2, alloc_inv w live → malloc 36 w = Done (p, w2) → p ≠ NULL →
    ∃ c, alloc_inv w2 (<[p := c]> live)) as Hstep.
  { intros w live p w2 Hi Hm Hp. pose proof (malloc_ok w live 36 Hi ltac:(lia)) as H.
    unfold wp in H. rewrite Hm in H. destruct H as [[]|(_ & c & _ & _ & H)]; [done|eauto]. }
  assert (∃ w, malloc 36 (AState one_block ∅) = Done (map_a, w) ∧
    ∃ w2, malloc 36 w = Done (map_b, w2) ∧ two_blocks = w2) as (w & H1 & w2 & H2 & ->).
  { eexists. split; [vm_compute; reflexivity|]. eexists. split; vm_compute; reflexivity. }
  destruct (Hstep _ _ _ _ fresh_allocator H1) as [c Hc]; [done|].
  destruct (Hstep _ _ _ _ Hc H2) as [d Hd]; [done|]. by exists c, d.
Qed.

Lemma two_maps_tables : tables mapped_ab table_ab.
Proof.
  split.
  - intros o. unfold table_ab. destruct (Z.eqb_spec o 1000) as [->|H1]; [|destruct (Z.eqb_spec o 2000) as [->|H2]].
    + apply (refines_singleton (vmap_table 1000) mapped_ab 5 map_a 5); [done..|].
      intros i. simpl. unfold obj_slot. simpl. unfold bucket_index. simpl.
      case_decide as Hi; [by rewrite Hi|]. change (i ≠ 5) in Hi. by rewrite lookup_insert_ne, lookup_singleton_ne by congruence.
    + apply (refines_singleton (vmap_table 2000) mapped_ab 5 map_b 5); [done..|].
      intros i. simpl. unfold obj_slot. simpl. unfold bucket_index. simpl.
      case_decide as Hi; [by rewrite Hi|]. change (i ≠ 5) in Hi. by rewrite lookup_insert_ne, lookup_singleton_ne by congruence.
    + apply (refines_empty (vmap_table o)). intros i. simpl. unfold obj_slot; simpl. by rewrite lookup_insert_ne, lookup_singleton_ne by congruence.
  - intros o k p. unfold table_ab. destruct (Z.eqb_spec o 1000) as [->|H1]; [|destruct (Z.eqb_spec o 2000) as [->|H2]].
    + simpl. by intros [<- <-]%lookup_singleton_Some.
    + simpl. by intros [<- <-]%lookup_singleton_Some.
    + done.
Qed.

Lemma two_maps_mapped : ∃ live, mapped alloc_inv mapped_ab 500 some_spc tree_ab table_ab live.
Proof.
  destruct two_blocks_inv as (c & d & Hinv). exists {[map_b := d; map_a := c]}. split.
  - done.
  - split; [done|by split_and!| |]; simpl; [|set_solver].
    apply NoDup_cons; split; [|apply NoDup_singleton]. unfold map_a, map_b. set_solver.
  - exact two_maps_tables.
  - intros x [->|[->|Hx]%elem_of_cons]%elem_of_cons; [..|set_solver];
      eexists; (split; [reflexivity|split_and!; [done|by eexists|done|by eexists]]).
  - intros o x. unfold table_ab. repeat case_match; try done; intros [_ <-]%lookup_singleton_Some; set_solver.
  - exact Hinv.
  - intros o [v Hv]. simpl in Hv. destruct (decide (o = 1000)) as [->|]; [done|].
    destruct (decide (o = 2000)) as [->|]; [done|]. by rewrite lookup_insert_ne, lookup_singleton_ne in Hv by done.
Qed.

Lemma unmap_all_objs_unmaps_witness :
  ∃ s', unmap_all_objs malloc_allocator 500 mapped_ab = Done (tt, s') ∧
    vmaps s' !! map_a = None ∧ vmaps s' !! map_b = None ∧ tables s' (λ o, delete 5 (table_ab o)).
Proof.
  destruct two_maps_mapped as (live & Hm).
  destruct (unmap_all_objs_unmaps malloc_allocator alloc_inv mapped_ab 500 some_spc tree_ab table_ab
    live) as (s' & Hrun & Hd & _ & Ht & _); [exact Hm|done|].
  exists s'. split; [exact Hrun|]. split_and!; [apply Hd; left|apply Hd; right; left|exact Ht].
Defined.
