(* ===== verification/VmUnmapOne.v ===== *)
(** * Taking one mapping of an address space out

    [vmobj_unmap] finds the mapping in the table of its object and looks for it
    in the tree of the space, where it misses every mapping but the root. *)

From stdpp Require Import functions countable sorting.
From S2P Require Import Prelude HashTable CircularList Malloc MallocSpec Alloc PageAlloc CowTable Util Inode PhysMem PhysMemSpec RedBlack RedBlackSpec RedBlackInsert VirtMem VirtMemSpec VirtMemUnmap.
#[local] Open Scope Z_scope.
Implicit Types t : tree.

(** ** The tree keeps the mapping *)

Section single.
Context {St0 I : Type} (A : allocator St0) (inv : St0 → gmap ptr Z → Prop) `{!AllocatorOk A inv}.
Abbreviation St := (vmstate St0 I).
Implicit Types s : St.

Lemma relink_links m : relink (links m) m = m.
Proof.
  apply map_eq. intros p. unfold relink, links. rewrite map_lookup_imap, lookup_fmap.
  destruct (m !! p) as [[]|]; done.
Qed.

Lemma with_objs_same n : with_objs (sp_objs n) n = n.
Proof. by destruct n. Qed.

(** A mapping that is not the root stays in the tree. *)
Lemma vmap_tree_delete_misses s spc n t map :
  spcs s !! spc = Some n → search_tree vmap_comp (links (vmaps s)) (sp_objs n) t → t ≠ RedBlackSpec.E →
  map ≠ sp_objs n → vmap_tree_delete spc map s = Done (tt, s).
Proof.
  intros Hn Ht Hne Hm. apply run_wp. apply wp_bind, (wp_getopt _ n); [done|].
  apply wp_bind, wp_gets, wp_bind, wp_zoom. unfold wp at 1.
  rewrite (tree_delete_misses vmap_comp _ _ _ t) by (done || (unfold vmap_comp; repeat case_match; lia)).
  eapply wp_putopt; [simpl; by rewrite Hn|]. split; [done|].
  rewrite with_objs_same, insert_id, relink_links by done. by destruct s.
Qed.

(** The search for an address reaches the hole that was left where the mapping
    of this address was. *)
Lemma closest_hole s s' x t up acc fuel :
  rep (links (vmaps s)) up t → NULL ∉ nodes t →
  StronglySorted (λ y z, map_addr s y < map_addr s z) (nodes t) → x ∈ nodes t →
  vmaps s' !! x = None →
  (∀ y, y ≠ x → y ∈ nodes t → vm_links <$> vmaps s' !! y = vm_links <$> vmaps s !! y ∧
                vm_addr <$> vmaps s' !! y = vm_addr <$> vmaps s !! y) →
  (length (nodes t) ≤ fuel)%nat →
  loop fuel (closest_step (map_addr s x)) (root t, acc) s' = Fault.
Proof.
  intros Hr Hnull Hs Hx Hno Hsame. revert up acc fuel Hr Hnull Hs Hx Hsame.
  induction t as [|c l IHl y r IHr]; intros up acc fuel Hr Hnull Hs Hx Hsame Hf; [set_solver|].
  simpl in *. rewrite length_app in Hf. simpl in Hf. destruct fuel as [|fuel]; [lia|].
  apply StronglySorted_app in Hs as (Hly & Hsl & [Hyr Hsr]%StronglySorted_cons).
  rewrite Forall_forall in Hyr. cbn [loop].
  assert (y ≠ NULL) as Hyn by set_solver. destruct (decide (x = y)) as [->|Hne].
  { apply fault_bind. unfold closest_step. rewrite (proj2 (Z.eqb_neq y NULL)) by done.
    apply fault_bind. unfold get_map, getopt. by rewrite Hno. }
  destruct Hr as (Hy & Hl & Hr). apply links_lookup in Hy as (m & Hm & Hlk & Ha).
  destruct (Hsame y) as [Hlk' Ha']; [done|set_solver|]. rewrite Hm in Hlk', Ha'.
  apply fmap_Some in Hlk' as (m' & Hm' & Hlk'). rewrite Hm' in Ha'. simpl in Ha'. injection Ha' as Ha'.
  apply bind_out. unfold closest_step. rewrite (proj2 (Z.eqb_neq y NULL)) by done.
  apply wp_bind, (wp_getopt _ m'); [done|]. rewrite <-Hlk', Hlk, Ha', <-Ha. simpl.
  apply elem_of_app in Hx as [Hx|[?|Hx]%elem_of_cons]; [|done|].
  - rewrite (proj2 (Z.ltb_lt _ _)) by (apply Hly; [done|left]). apply wp_ret.
    apply (IHl y); [done|set_solver|done|done|set_solver|lia].
  - specialize (Hyr x Hx). rewrite (proj2 (Z.ltb_ge _ _)), (proj2 (Z.ltb_lt _ _)) by lia. apply wp_ret.
    apply (IHr y); [done|set_solver|done|done|set_solver|lia].
Qed.

(** What is left of the mappings once [x] is freed: all others, linked as
    before. *)
Record freed s s' (x : ptr) : Prop := {
  fr_gone : vmaps s' !! x = None;
  fr_rest y : y ≠ x → vm_links <$> vmaps s' !! y = vm_links <$> vmaps s !! y ∧
                      vm_addr <$> vmaps s' !! y = vm_addr <$> vmaps s !! y;
  fr_spcs : spcs s' = spcs s;
  fr_size : (base.size (vmaps s) ≤ S (base.size (vmaps s')))%nat;
}.

Lemma get_mapping_hole s s' spc n t x :
  spcs s !! spc = Some n → tree_rep (links (vmaps s)) (sp_objs n) t → addr_tree s t → x ∈ nodes t →
  freed s s' x → get_mapping_obj spc (map_addr s x) s' = Fault.
Proof.
  intros Hn Hrep Ht Hx [Hno Hrest Hsp Hsz]. pose proof Hrep as [Hroot Hr _ Hnull].
  pose proof (tree_size _ _ _ Hrep) as Hsize. unfold links in Hsize. rewrite map_size_fmap in Hsize.
  apply bind_out. apply (wp_getopt _ n); [by rewrite Hsp|]. apply fault_bind. apply bind_out, wp_gets.
  rewrite Hroot. eapply (closest_hole s s' x t NULL); [done|done|by apply addr_tree_sorted|done|done|by auto|lia].
Qed.

(** The part of [vmobj_unmap] between the two mutexes. *)
Lemma unmap_found {B} (f : M St B) Q s spc obj n o x live c :
  spcs s !! spc = Some n → vobjs s !! obj = Some o → u32 (obj + vm_obj_mappers) ≠ 0 →
  inv (ph_alloc (v_phys s)) live → live !! x = Some c →
  (∀ s', vmaps s' = delete x (vmaps s) → spcs s' = spcs s →
     inv (ph_alloc (v_phys s')) (delete x live) → wp f Q s') →
  wp (update_obj obj (λ o, with_num_mappers (u32 (vo_num_mappers o - 1)) o);;
      collect_garbage A obj;; free_map A x;; f) Q s.
Proof.
  intros Hn Ho Hend Hi Hc HQ. apply wp_bind. eapply wp_putopt; [by rewrite Ho|].
  apply wp_bind, wp_bind. eapply wp_getopt; [simpl; by rewrite lookup_insert_eq|].
  rewrite (proj2 (Z.eqb_neq _ _) Hend). simpl. apply wp_ret.
  apply wp_bind, wp_bind, wp_zoom. eapply wp_mono; [by eapply (al_free_ok (A:=A))|].
  intros [] a Ha. apply wp_modify. by apply HQ.
Qed.
End single.

(** ** Properties *)

(** C12: [vmobj_unmap] of any mapping but the root of the tree leaves a dangling
    node.  The call succeeds: the mapping leaves the table of its object and
    its block goes back to the heap.  But the search for it in the tree goes the
    wrong way, so that it stays linked there, and the next lookup of an
    address at its place follows the freed node. *)
Theorem vmobj_unmap_dangles {St0 I} (A : allocator St0) inv `{!AllocatorOk A inv}
    (s : vmstate St0 I) spc n obj t Tb live map :
  mapped inv s spc n t Tb live → search_tree vmap_comp (links (vmaps s)) (sp_objs n) t → addr_tree s t →
  spc ≠ NULL → obj ≠ NULL → SpcMutex spc ∉ vlocks s → ObjMutex obj ∉ vlocks s →
  Tb obj !! sp_id n = Some map → map ≠ sp_objs n →
  ∃ s', vmobj_unmap A spc obj s = Done (0, s') ∧ inv (ph_alloc (v_phys s')) (delete map live) ∧
    map ∈ nodes t ∧ freed s s' map ∧ get_mapping_obj spc (map_addr s map) s' = Fault.
Proof.
  intros Hmd Hst Hat Hspc Hobj Hl1 Hl2 Hmap Hroot. pose proof Hmd as [Hn Hrep Htb Hnode Hent Hal Hend].
  pose proof (Hent _ _ Hmap) as Hin. destruct (Hnode map Hin) as (m & Hm & Hms & [o Ho] & _ & [c Hc]).
  pose proof (tb_obj _ _ Htb _ _ _ Hmap) as Hmo. rewrite Hm in Hmo. injection Hmo as Hmo. rewrite Hmo in Ho.
  assert (map ≠ NULL) as Hmn by (intros ->; by destruct Hrep).
  enough (wp (vmobj_unmap A spc obj) (λ r s', r = 0 ∧ inv (ph_alloc (v_phys s')) (delete map live) ∧
    freed s s' map) s) as (r & s' & Hd & -> & Ha & Hf)%wp_Done.
  { exists s'. split_and!; [done..|by eapply get_mapping_hole]. }
  apply wp_bind, wp_bind, (wp_getopt _ n), wp_vlock; [done..|].
  apply wp_bind, wp_bind, (wp_getopt _ o), wp_vlock; [done|set_solver|].
  apply wp_bind, (wp_getopt _ n); [done|]. set (s1 := set_vlocks _ _).
  rewrite (proj2 (Z.eqb_neq spc NULL) Hspc), (proj2 (Z.eqb_neq obj NULL) Hobj). simpl negb. simpl andb. cbv iota.
  apply wp_bind. eapply wp_mono.
  { apply (delete_entry s1 Tb obj (sp_id n)). by eapply tables_same. }
  intros r s2 (-> & Hall & Hd2 & _). rewrite Hmap. simpl default. rewrite (proj2 (Z.eqb_neq map NULL) Hmn).
  simpl negb. cbv iota. unfold all_but_tables in Hall. simpl in Hall. injection Hall as Hlk Hsp2 Ho2 _ _ _ Hp2.
  apply wp_bind. unfold wp at 1. rewrite (vmap_tree_delete_misses s2 spc n t map);
    [|by rewrite Hsp2|by rewrite Hlk|intros ->; set_solver|done].
  assert (base.size (vmaps s2) = base.size (vmaps s)) as Hsz.
  { rewrite <-(map_size_fmap vm_links), <-(map_size_fmap vm_links (vmaps s)). f_equal. exact Hlk. }
  assert (∀ y, vm_links <$> vmaps s2 !! y = vm_links <$> vmaps s !! y) as Hly.
  { intros y. rewrite <-!lookup_fmap. unfold links in Hlk. by rewrite Hlk. }
  assert (∀ y, vm_addr <$> vmaps s2 !! y = vm_addr <$> vmaps s !! y) as Hay.
  { intros y. specialize (Hd2 y). simpl in Hd2. unfold vm_data in Hd2.
    destruct (vmaps s2 !! y), (vmaps s !! y); simpl in *; congruence. }
  eapply (unmap_found A inv _ _ s2 spc obj n o map live c);
    [by rewrite Hsp2|by rewrite Ho2|by apply Hend; exists o|by rewrite Hp2|done|].
  intros s3 Hv3 Hs3 Ha3. apply wp_bind, wp_unlock, wp_bind, wp_unlock, wp_ret.
  split; [done|]. split; [exact Ha3|]. split; simpl.
  - rewrite Hv3. apply lookup_delete_eq.
  - intros y Hy. by rewrite Hv3, lookup_delete_ne by done.
  - by rewrite Hs3.
  - rewrite Hv3, map_size_delete_Some; [lia|]. specialize (Hly map). rewrite Hm in Hly.
    destruct (vmaps s2 !! map); [eauto|done].
Qed.

(** The first of two mappings is a leaf. *)
Lemma two_maps_search : search_tree vmap_comp (links (vmaps mapped_ab)) map_b tree_ab.
Proof.
  split; [exact (two_maps_tree _)| | |done].
  - by repeat constructor.
  - exists 1%nat. by repeat constructor.
Qed.

Lemma vmobj_unmap_dangles_witness :
  ∃ s', vmobj_unmap malloc_allocator 500 1000 mapped_ab = Done (0, s') ∧
    vmaps s' !! map_a = None ∧ get_mapping_obj 500 (map_addr mapped_ab map_a) s' = Fault.
Proof.
  destruct two_maps_mapped as (live & Hm).
  destruct (vmobj_unmap_dangles malloc_allocator alloc_inv mapped_ab 500 some_spc 1000 tree_ab table_ab
    live map_a) as (s' & H1 & _ & _ & H2 & H3);
    [exact Hm|exact two_maps_search|exact (two_maps_ordered _)|done|done|set_solver|set_solver|done|done|].
  exists s'. split; [exact H1|]. split; [apply H2|exact H3].
Defined.
