(* ===== verification/VmFault.v ===== *)
(** * Page faults

    The second half of src/mem/virt_mem/virt_mem.c: where a page of an object
    comes from, the copies of copy-on-write pages, and the fault handlers.  The
    reports of illegal accesses and the choice of a page to evict end in a
    kernel panic; they and the address space of the processor are
    parameters. *)

From stdpp Require Import functions countable.
From S2P Require Import Prelude HashTable CircularList Malloc MallocSpec Alloc PageAlloc CowTable Util Inode PhysMem PhysMemSpec RedBlack VirtMem VirtMemSpec.
#[local] Open Scope Z_scope.

(** [PAGE_ADDR(x)] *)
Definition PAGE_ADDR (x : Z) : Z := Z.land x (Z.lnot 0xfff).

(** The page of an object an address lies in: [(PAGE_ADDR(addr) - map->addr) >>
    PAGE_POW], a shift of a signed difference. *)
Definition page_offset (addr base : Z) : Z := u32 (Z.shiftr (s32 (PAGE_ADDR addr - base)) 12).

Definition check_access (perm access : Z) : bool := perm =? Z.lor perm access.

Section faults.
Context {T I : Type} (A : allocator T) (io : inode_io I) (window : ptr).
Context (swap_in : Z → ptr → Z → M (phstate T I) unit).
Abbreviation St := (vmstate T I).
Implicit Types s : St.
Context (current_addr_spc : M St ptr) (lru_page : M St Z).
Context (unmapped_access : Z → M St unit) (illegal_access : Z → Z → Z → M St unit).
(** What variables hold that were never assigned, and the bound of the search
    for identifiers of anonymous pages. *)
Context (indeterminate : Z) (stale : page_src_t) (id_fuel : nat).
(** The bounds of the kernel's address space and heap, its address space and
    its object. *)
Context (kern_addr_start kern_heap_start kern_heap_end kern_addr_spc kern_vm_obj : ptr).

Definition vm_evict_page : M St Z :=
  victim_page ← lru_page;
  vm_invalidate_page victim_page;;
  mret victim_page.

(** [obj->num_mappers != 1] *)
Definition is_shared (o : vm_obj_t) : bool := negb (vo_num_mappers o =? 1).

(** [anon_page_create] and [phys_page_fetch] with the colour tables of a space
    and an object. *)
Definition create_anon (src : page_src_t) (spc obj : ptr) : M St Z :=
  n ← get_spc spc;
  o ← get_obj obj;
  on_phys (anon_page_create A io window id_fuel src (sp_color_table n) (vo_color_table o) (is_shared o)).
Definition fetch (src : page_src_t) (spc obj : ptr) : M St Z :=
  n ← get_spc spc;
  o ← get_obj obj;
  on_phys (phys_page_fetch io swap_in indeterminate src (sp_color_table n) (vo_color_table o) (is_shared o)).

(** The recursion follows the objects that were copied from. *)
Fixpoint get_page_src (fuel : nat) (spc obj offset : Z) : M St page_src_t :=
  match fuel with
  | O => λ _, NoFuel
  | S fuel =>
      o ← get_obj obj;
      if vo_src_type o =? VMOBJ_INODE then
        mret (PSRC_INODE (vo_inode o) (u32 (offset + vo_offset o)))
      else if vo_src_type o =? VMOBJ_ANON then
        anon ← get_anon obj offset;
        if Z.land (vo_flags o) VMOBJ_COW =? 0 then
          if negb (0 =? anon) then mret (PSRC_ANON anon)
          else
            id ← create_anon PSRC_NULL spc obj;
            set_anon obj offset id;;
            mret (PSRC_ANON id)
        else if negb (anon =? 0) then mret (PSRC_ANON anon)
        else get_page_src fuel spc (vo_cow_src o) offset
      else mret stale
  end.

Definition page_src (spc obj offset : Z) : M St page_src_t :=
  fuel ← gets (λ s, S (base.size (vobjs s)));
  get_page_src fuel spc obj offset.

(** [inv_map = malloc(sizeof(inv_map_t)); inv_map->obj = obj;
    inv_map->offset = offset;] *)
Definition new_inv_map (obj offset : Z) : M St ptr :=
  p ← vmalloc A inv_map_size;
  putopt (λ s, if p =? NULL then None
               else Some (set_inv_maps (<[p := InvMap obj offset NULL]> (inv_maps s)) s));;
  mret p.

(** [inv_page->num_mappers++] and the insertion in the table of the page. *)
Definition count_mapper (i : page_info) : page_info :=
  PageInfo (pg_mutex i) (pg_type i) (u32 (pg_num_mappers i + 1)) (pg_src i) (pg_next i).
Definition with_type (t : Z) (i : page_info) : page_info :=
  PageInfo (pg_mutex i) t (pg_num_mappers i) (pg_src i) (pg_next i).

Definition update_page_tables (obj offset phys_addr addr : Z) : M St unit :=
  inv_page ← page_at phys_addr;
  lock_page inv_page;;
  update_info inv_page (with_type PAGE_USED);;
  for_upto (Z.to_nat VMAP_HASH_TABLE_SIZE) 0 (λ i,
    curr ← gets (λ s, obj_slot obj s i);
    fuel ← tree_depth;
    loop fuel (walk_step (λ curr,
      m ← get_map curr;
      o ← get_obj obj;
      vm_calls_add (PageMap (vm_spc m) (PAGE_ADDR addr) (Z.land (vo_flags o) VMOBJ_PERM) phys_addr);;
      inv_map ← new_inv_map obj offset;
      update_info inv_page count_mapper;;
      _ ← hash_table_insert (inv_map_table inv_page) inv_map;
      mret tt) map_next) curr);;
  unlock_page inv_page.

Definition is_inode_src (src : page_src_t) : bool :=
  match src with PSRC_INODE _ _ => true | _ => false end.

(** A page of one's own: a copy of [orig] unless [keep] allows to keep it.
    The result is [anon] (assigned only for a copy; [anon0] is its value
    before), the source of the copy and the page. *)
Definition clone_page (keep : Z → bool) (curr obj : ptr) (orig : page_src_t) (anon0 : Z) :
    M St (Z * page_src_t * Z) :=
  refs ← on_cow (cow_lookup orig);
  if negb (keep refs) then
    anon ← create_anon orig curr obj;
    phys_addr ← fetch (PSRC_ANON anon) curr obj;
    mret (anon, PSRC_ANON anon, phys_addr)
  else
    phys_addr ← fetch orig curr obj;
    mret (anon0, stale, phys_addr).

(** [obj->cow_count--] *)
Definition drop_cow_count (obj : ptr) : M St unit :=
  update_obj obj (λ o, with_cow_count (u32 (vo_cow_count o - 1)) o).

(** [if(0 == obj->cow_count) { flags &= ~(VMOBJ_COW | VMOBJ_COW_SRC); unlink }] *)
Definition retire (obj : ptr) : M St unit :=
  o ← get_obj obj;
  if 0 =? vo_cow_count o then
    update_obj obj (λ o, with_flags (Z.land (vo_flags o) (Z.lnot (Z.lor VMOBJ_COW VMOBJ_COW_SRC))) o);;
    _ ← clist_delete vm_obj_clist obj;
    mret tt
  else mret tt.

(** One round over the objects of the list; a [continue] does not advance. *)
Definition share_step (obj offset anon phys_addr addr list : Z) : M St (ptr + unit) :=
  if obj =? list then mret (Break tt) else
  l ← get_obj list;
  skip ← (if negb (vo_src_type l =? VMOBJ_ANON) || negb (obj =? vo_cow_src l) then mret true
          else a ← get_anon list offset; mret (negb (0 =? a)));
  if (skip : bool) then mret (Continue list)
  else
    set_anon list offset anon;;
    update_page_tables list offset phys_addr addr;;
    l ← get_obj list;
    mret (Continue (vo_cow_next l)).

(** The page that the writer gets when nobody copied from the object. *)
Definition own_page (curr addr obj offset : Z) (orig : page_src_t) : M St unit :=
  '(anon, _, phys_addr) ←
    clone_page (λ refs, (refs =? 1) && negb (is_inode_src orig)) curr obj orig indeterminate;
  set_anon obj offset anon;;
  update_page_tables obj offset phys_addr addr;;
  on_cow (cow_dec A orig);;
  drop_cow_count obj;;
  retire obj.

(** The case of an object that others were copied from. *)
Definition share_page (fuel : nat) (curr addr obj offset : Z) (orig : page_src_t) : M St unit :=
  o ← get_obj obj;
  middle ← (if negb (Z.land (vo_flags o) VMOBJ_COW =? 0) then
              a ← get_anon obj offset; mret (0 =? a)
            else mret false);
  '(orig, anon) ← (if (middle : bool) then
      '(anon, anon_src, phys_addr) ←
        clone_page (λ refs, (refs =? 1) && negb (is_inode_src orig)) curr obj orig indeterminate;
      set_anon obj offset anon;;
      update_page_tables obj offset phys_addr addr;;
      on_cow (cow_dec A orig);;
      drop_cow_count obj;;
      mret (anon_src, anon)
    else mret (orig, indeterminate));
  '(anon, _, phys_addr) ← clone_page (λ refs, refs =? 1) curr obj orig anon;
  update_page_tables obj offset phys_addr addr;;
  o ← get_obj obj;
  loop fuel (share_step obj offset anon phys_addr addr) (vo_cow_next o);;
  drop_cow_count obj;;
  retire obj.

Definition do_protect_fault (fuel : nat) (addr obj access offset : Z) (orig : page_src_t) : M St unit :=
  curr ← current_addr_spc;
  o ← get_obj obj;
  if negb (Z.land (vo_flags o) (Z.lor (Z.lor VMOBJ_COW VMOBJ_WRITE) VMOBJ_COW_SRC) =? 0) &&
     negb (Z.land access VMOBJ_WRITE =? 0) then
    if (Z.land (vo_flags o) VMOBJ_COW_SRC =? 0) ||
       ((vo_src_type o =? VMOBJ_ANON) && (vo_cow_src o =? NULL)) then
      own_page curr addr obj offset orig
    else share_page fuel curr addr obj offset orig
  else illegal_access addr (Z.land (vo_flags o) VMOBJ_PERM) access.

(** The rights a page is mapped with. *)
Definition page_perm (o : vm_obj_t) (src : page_src_t) : M St Z :=
  let perm := Z.land (vo_flags o) VMOBJ_PERM in
  if Z.land (vo_flags o) (Z.lor VMOBJ_COW VMOBJ_COW_SRC) =? 0 then mret perm
  else
    refs ← on_cow (cow_lookup src);
    mret (if refs =? 0 then perm else Z.land perm (Z.lnot VMOBJ_WRITE)).

(** The part of the handler that brings the page in and maps it; the result are
    the rights of the mapping. *)
Definition map_page (curr addr obj offset : Z) (src : page_src_t) : M St Z :=
  phys_addr ← fetch src curr obj;
  o ← get_obj obj;
  perm ← page_perm o src;
  vm_calls_add (PageMap curr (PAGE_ADDR addr) perm phys_addr);;
  inv_map ← new_inv_map obj offset;
  inv_page ← page_at phys_addr;
  lock_page inv_page;;
  update_info inv_page count_mapper;;
  update_info inv_page (with_type PAGE_USED);;
  _ ← hash_table_insert (inv_map_table inv_page) inv_map;
  unlock_page inv_page;;
  mret perm.

Definition vm_page_fault (fuel : nat) (addr access : Z) : M St unit :=
  curr ← current_addr_spc;
  map ← get_mapping_obj curr addr;
  if negb (map =? NULL) then
    m ← get_map map;
    let obj := vm_obj m in
    let offset := page_offset addr (vm_addr m) in
    src ← page_src curr obj offset;
    perm ← map_page curr addr obj offset src;
    if check_access perm access then do_protect_fault fuel addr obj access offset src
    else mret tt
  else unmapped_access addr.

Definition vm_protect_fault (fuel : nat) (addr access : Z) : M St unit :=
  curr ← current_addr_spc;
  map ← get_mapping_obj curr addr;
  m ← get_map map;
  let obj := vm_obj m in
  let offset := page_offset addr (vm_addr m) in
  src ← page_src curr obj offset;
  do_protect_fault fuel addr obj access offset src.

Definition kern_page_fault (fuel : nat) (addr access : Z) : M St unit :=
  if (addr <? kern_heap_start) && (kern_heap_end <? addr) then
    n ← get_spc kern_addr_spc;
    o ← get_obj kern_vm_obj;
    _ ← on_phys (anon_page_create A io window id_fuel PSRC_KERN (sp_color_table n) (vo_color_table o) false);
    phys_addr ← on_phys (phys_page_fetch io swap_in indeterminate PSRC_KERN (sp_color_table n)
                           (vo_color_table o) false);
    vm_calls_add (KernPageMapCall (PAGE_ADDR addr)
      (Z.lor (Z.lor VMOBJ_READ VMOBJ_WRITE) VMOBJ_EXEC) phys_addr);;
    inv_page ← page_at phys_addr;
    lock_page inv_page;;
    update_info inv_page (with_type PAGE_KERNEL);;
    unlock_page inv_page
  else if addr <? kern_addr_start then vm_page_fault fuel addr access
  else mret tt.

Definition kern_protect_fault (fuel : nat) (addr access : Z) : M St unit :=
  if addr <? kern_addr_start then vm_protect_fault fuel addr access else mret tt.

(** ** What a page fault does *)

Lemma wp_update_info p f i (Q : unit → St → Prop) s :
  infos (v_phys s) !! p = Some i →
  Q tt (set_v_phys (set_infos (<[p := f i]> (infos (v_phys s))) (v_phys s)) s) →
  wp (update_info p f) Q s.
Proof. intros Hi HQ. apply wp_zoom. eapply wp_putopt; [by rewrite Hi|done]. Qed.

Lemma wp_lock_page p i (Q : unit → St → Prop) s :
  infos (v_phys s) !! p = Some i → pg_mutex i = false →
  Q tt (set_v_phys (set_infos (<[p := with_lock true i]> (infos (v_phys s))) (v_phys s)) s) →
  wp (lock_page p) Q s.
Proof.
  intros Hi Hf HQ. apply wp_bind, wp_zoom, (wp_getopt _ i); [done|].
  replace (set_v_phys (v_phys s) s) with s by (by destruct s).
  apply wp_bind, wp_lock; [done|]. by apply (wp_update_info _ _ i).
Qed.

Global Instance inv_map_node p : NodeTable (@inv_maps T I) set_inv_maps (inv_slot p)
  (λ i q s, set_inv_slots (<[(p, i) := q]> (inv_slots s)) s) im_next
  (λ v n, InvMap (im_obj n) (im_offset n) v) (λ s n, vo_id <$> vobjs s !! im_obj n)
  (λ _ k, Some k) INV_MAP_HASH_TABLE_SIZE.
Proof.
  split; try done; unfold inv_slot; simpl.
  - intros i q s. by rewrite lookup_insert_eq.
  - intros i j q s Hij. by rewrite lookup_insert_ne by congruence.
Qed.
Global Instance inv_map_table_ok p : HashOk (@inv_map_table T I p).
Proof. apply node_table_ok, _. Qed.
Global Instance inv_map_table_eq p : HashEq (@inv_map_table T I p).
Proof. intros a b. apply Z.eqb_eq. Qed.

(** The page at [a] counts one mapper more and is in use. *)
Definition mapped_info (i : page_info) : page_info :=
  PageInfo false PAGE_USED (u32 (pg_num_mappers i + 1)) (pg_src i) (pg_next i).

(** What [map_page] does for an object that is not copied from or to. *)
Lemma map_page_spec s curr addr obj offset src o n a ph q w i Mp :
  vobjs s !! obj = Some o → spcs s !! curr = Some n →
  Z.land (vo_flags o) (Z.lor VMOBJ_COW VMOBJ_COW_SRC) = 0 →
  phys_page_fetch io swap_in indeterminate src (sp_color_table n) (vo_color_table o) (is_shared o)
    (v_phys s) = Done (a, ph) →
  al_malloc A inv_map_size (ph_alloc ph) = Done (q, w) → q ≠ NULL → inv_maps s !! q = None →
  let page := inv_page_lookup (inv_page_table (ph_pages ph)) a in
  infos ph !! page = Some i → pg_mutex i = false →
  refines_map (inv_map_table page) s Mp → Mp !! vo_id o = None →
  wp (map_page curr addr obj offset src) (λ perm s', perm = Z.land (vo_flags o) VMOBJ_PERM ∧
    v_calls s' = v_calls s ++ [PageMap curr (PAGE_ADDR addr) perm a] ∧
    infos (v_phys s') = <[page := mapped_info i]> (infos ph) ∧
    refines_map (inv_map_table page) s' (<[vo_id o := q]> Mp) ∧
    (∃ im, inv_maps s' !! q = Some im ∧ im_obj im = obj ∧ im_offset im = offset) ∧
    vobjs s' = vobjs s ∧ vmaps s' = vmaps s) s.
Proof.
  intros Ho Hn Hcow Hfetch Hmal Hq Hfresh page Hi Hfree Hmp Hnew.
  apply wp_bind, wp_bind, (wp_getopt _ n); [done|]. apply wp_bind, (wp_getopt _ o); [done|].
  apply wp_zoom. unfold wp at 1. rewrite Hfetch.
  apply wp_bind, (wp_getopt _ o); [done|]. apply wp_bind. unfold page_perm. rewrite Hcow. apply wp_ret.
  apply wp_bind, wp_modify. apply wp_bind, wp_bind, wp_zoom. simpl. unfold wp at 1. rewrite Hmal.
  apply wp_bind. eapply wp_putopt; [by rewrite (proj2 (Z.eqb_neq q NULL) Hq)|]. apply wp_ret.
  apply wp_bind, wp_zoom, wp_gets. simpl. fold page.
  apply wp_bind, (wp_lock_page _ i); [done|done|]. simpl.
  apply wp_bind. eapply wp_update_info; [apply lookup_insert_eq|]. simpl.
  apply wp_bind. eapply wp_update_info; [apply lookup_insert_eq|]. simpl. set (s1 := set_v_phys _ _).
  assert (refines_map (inv_map_table page) s1 Mp) as Hmp1.
  { eapply refines_frame; [exact Hmp|done| |done]. simpl. intros k p Hp.
    rewrite lookup_insert_ne; [done|]. intros <-.
    destruct (refines_node _ _ _ _ _ Hmp Hp) as (_ & [? Hx] & _). simpl in Hx. by rewrite Hfresh in Hx. }
  apply wp_bind. eapply wp_mono.
  { apply (insert_refines (inv_map_table page) s1 Mp q (vo_id o)); [done|done| | |by has_bucket; eexists|done];
      simpl; rewrite lookup_insert_eq; [by eexists|]. simpl. by rewrite Ho. }
  intros _ s2 (_ & Hho & _ & Hmp2).
  assert ((v_calls s2, v_phys s2, vobjs s2, vmaps s2) = (v_calls s1, v_phys s1, vobjs s1, vmaps s1)) as Hall.
  { apply (Hho _ (λ s, (v_calls s, v_phys s, vobjs s, vmaps s))). by apply node_table_frame. }
  injection Hall as Ec Eph Eo Em.
  assert ((λ n, (im_obj n, im_offset n)) <$> inv_maps s2 !! q = Some (obj, offset)) as Hd.
  { rewrite (Hho _ (λ s, (λ n, (im_obj n, im_offset n)) <$> inv_maps s !! q)).
    - simpl. by rewrite lookup_insert_eq.
    - by apply node_table_data; [apply _|]. }
  apply wp_bind. eapply wp_update_info; [rewrite Eph; apply lookup_insert_eq|]. apply wp_ret.
  split_and!; simpl; [done|done| | | |done|done].
  - rewrite Eph. simpl. by rewrite !insert_insert_eq.
  - eapply refines_frame; [exact Hmp2|done..].
  - apply fmap_Some in Hd as (im & Him & [= -> ->]). by exists im.
Qed.

End faults.

Definition some_info : page_info := PageInfo false PAGE_USED 0 (InodePage 7 3) NULL.

