(* ===== verification/VmSafety.v ===== *)
(** * What virtual memory asks of the page tables

    Properties that every function of [VirtMem] and every fault handler of
    [VmFault] keeps: which pages the page tables are told to map, and the flags
    of the mappings. *)

From stdpp Require Import functions countable.
From S2P Require Import Prelude HashTable CircularList Malloc MallocSpec Alloc PageAlloc CowTable Util Inode PhysMem PhysMemSpec RedBlack RedBlackSpec RedBlackInsert VirtMem VirtMemSpec VirtMemUnmap VmFault.
#[local] Open Scope Z_scope.

(** ** Safety *)

(** A page that is mapped is a page of user space, below [lim], and its rights
    are permissions and no other flags of the object; no page is mapped in the
    kernel's part. *)
Definition call_safe (lim : Z) (c : vm_call) : Prop :=
  match c with
  | PageMap _ addr perm _ =>
      0 ≤ addr < lim ∧ (PAGE_SIZE | addr) ∧ Z.land perm VMOBJ_PERM = perm
  | PageUnmap _ _ => True
  | KernPageMapCall _ _ _ => False
  end.

(** The flags of a mapping hold no reserved bit. *)
Definition map_safe (m : vmap_t) : Prop := Z.land (vm_flags m) VMOBJ_RESERVED = 0.

Record vm_safe {T I} (lim : Z) (s : vmstate T I) : Prop := {
  vs_maps : map_Forall (λ _, map_safe) (vmaps s);
  vs_calls : Forall (call_safe lim) (v_calls s);
}.

(** ** Bits *)

Lemma user_flags_safe f : Z.land (user_flags f) VMOBJ_RESERVED = 0.
Proof. unfold user_flags. by rewrite <-Z.land_assoc, (Z.land_comm (Z.lnot _)), Z.land_lnot_diag, Z.land_0_r. Qed.

Lemma land_perm f : Z.land (Z.land f VMOBJ_PERM) VMOBJ_PERM = Z.land f VMOBJ_PERM.
Proof. by rewrite <-Z.land_assoc, Z.land_diag. Qed.

Lemma land_perm_lnot f w :
  Z.land (Z.land (Z.land f VMOBJ_PERM) w) VMOBJ_PERM = Z.land (Z.land f VMOBJ_PERM) w.
Proof. by rewrite <-!Z.land_assoc, (Z.land_comm w), (Z.land_assoc VMOBJ_PERM), Z.land_diag. Qed.

(** [PAGE_ADDR] rounds down to a page. *)
Lemma PAGE_ADDR_div a : PAGE_ADDR a = a / PAGE_SIZE * PAGE_SIZE.
Proof.
  unfold PAGE_ADDR, PAGE_SIZE. change 0xfff with (Z.ones 12). rewrite <-Z.ldiff_land.
  rewrite Z.ldiff_ones_r, Z.shiftr_div_pow2, Z.shiftl_mul_pow2 by lia. done.
Qed.

Lemma PAGE_ADDR_user lim a : 0 ≤ a < lim → 0 ≤ PAGE_ADDR a < lim ∧ (PAGE_SIZE | PAGE_ADDR a).
Proof.
  intros Ha. rewrite PAGE_ADDR_div. split; [|by eexists].
  unfold PAGE_SIZE. pose proof (Z.div_mod a 0x1000). pose proof (Z.mod_pos_bound a 0x1000).
  split; [|lia]. apply Z.mul_nonneg_nonneg; [apply Z.div_pos; lia|lia].
Qed.

(** ** Stores *)

(** All nodes of a store satisfy [good] in a state with [P]. *)
Class GoodStore {St N} (P : St → Prop) (get : St → gmap ptr N)
    (put : gmap ptr N → St → St) (good : N → Prop) : Prop := {
  ts_get s p n : P s → get s !! p = Some n → good n;
  ts_put s m : P s → map_Forall (λ _, good) m → P (put m s);
  ts_all s : P s → map_Forall (λ _, good) (get s);
}.

Section stores.
Context {St N : Type} (P : St → Prop) (get : St → gmap ptr N) (put : gmap ptr N → St → St).
Context (good : N → Prop) `{!GoodStore P get put good}.

Lemma ts_insert s p n : P s → good n → P (put (<[p := n]> (get s)) s).
Proof. intros Hs Hn. apply ts_put; [done|]. apply map_Forall_insert_2; [done|by apply ts_all]. Qed.

Lemma ts_delete s p : P s → P (put (delete p (get s)) s).
Proof. intros Hs. apply ts_put; [done|]. by apply map_Forall_delete, ts_all. Qed.

Lemma ts_update f p : (∀ n, good n → good (f n)) →
  keeps P (putopt (λ s, n ← get s !! p; Some (put (<[p := f n]> (get s)) s))).
Proof.
  intros Hf. apply keeps_putopt. intros s s' Hs. destruct (get s !! p) as [n|] eqn:Hn; [|done].
  intros [= <-]. apply ts_insert; [done|]. by eapply Hf, ts_get.
Qed.

Lemma ts_store {V} (proj : N → V) upd p v : (∀ v n, good n → good (upd v n)) →
  keeps P (store (node_field get put proj upd) p v).
Proof.
  intros Hu. apply keeps_store. intros s s' Hs; simpl. destruct (get s !! p) as [n|] eqn:Hn; [|done].
  intros [= <-]. apply ts_insert; [done|]. by eapply Hu, ts_get.
Qed.

(** What is read is good. *)
Lemma ts_read {B} p (k : N → M St B) : (∀ n, good n → keeps P (k n)) →
  keeps P (n ← getopt (λ s, get s !! p); k n).
Proof.
  intros Hk s Hs b s'. unfold getopt, mbind, M_bind. destruct (get s !! p) as [n|] eqn:Hn; [|done].
  apply Hk; [by eapply ts_get|done].
Qed.
End stores.

(** ** The primitive operations *)

Section typing.
Context {T I : Type} (A : allocator T) (K : kern_heap T) (fresh : ptr → Z → Z).
Context (lim : Z).
Abbreviation St := (vmstate T I).
Implicit Types s : St.

#[local] Instance safe_maps : GoodStore (vm_safe lim) (@vmaps T I) set_vmaps map_safe.
Proof. split; [intros s p n Hs; by apply (vs_maps lim s Hs p)|intros s m [] ?; by split|by intros s []]. Qed.
#[local] Instance safe_spcs : GoodStore (vm_safe lim) (@spcs T I) set_spcs (λ _, True).
Proof. split; [done|intros s m [] _; by split|by intros s _ p n _]. Qed.
#[local] Instance safe_objs : GoodStore (vm_safe lim) (@vobjs T I) set_vobjs (λ _, True).
Proof. split; [done|intros s m [] _; by split|by intros s _ p n _]. Qed.

(** The other parts of the state. *)
Lemma acquire_keeps l : keeps (@vm_safe T I lim) (@acquire T I l).
Proof. apply keeps_lock. intros s []. by split. Qed.
Lemma release_keeps l : keeps (@vm_safe T I lim) (@release T I l).
Proof. apply keeps_unlock. intros s []. by split. Qed.
Lemma init_mutex_keeps l : keeps (@vm_safe T I lim) (@init_mutex T I l).
Proof. apply keeps_modify. intros s []. by split. Qed.
Lemma on_alloc_keeps {B} (m : M T B) : keeps (@vm_safe T I lim) (@on_alloc T I B m).
Proof. apply keeps_zoom. intros s t []. by split. Qed.
Lemma on_cow_keeps {B} (m : M (cstate T) B) : keeps (@vm_safe T I lim) (@on_cow T I B m).
Proof. apply keeps_zoom. intros s t []. by split. Qed.
Lemma on_phys_keeps {B} (m : M (phstate T I) B) : keeps (@vm_safe T I lim) (@on_phys T I B m).
Proof. apply keeps_zoom. intros s t []. by split. Qed.
Lemma vm_calls_keeps c : call_safe lim c → keeps (@vm_safe T I lim) (@vm_calls_add T I c).
Proof. intros Hc. apply keeps_modify. intros s []. split; [done|]. apply Forall_app_2; [done|by repeat constructor]. Qed.
Lemma page_unmap_call_keeps spc addr : keeps (@vm_safe T I lim) (@vm_calls_add T I (PageUnmap spc addr)).
Proof. by apply vm_calls_keeps. Qed.
#[local] Hint Resolve acquire_keeps release_keeps init_mutex_keeps on_alloc_keeps on_cow_keeps
  on_phys_keeps page_unmap_call_keeps : keeps.

(** Tables, lists and trees change links. *)
Ltac links_keep := first
  [ intros; simpl; eapply ts_store; [apply _|by intros ? []]
  | intros ? ? ? []; by split ].
Lemma vmap_insert_keeps o p : keeps (@vm_safe T I lim) (hash_table_insert (@vmap_table T I o) p).
Proof. apply hash_insert_keeps; links_keep. Qed.
Lemma vmap_delete_keeps o k : keeps (@vm_safe T I lim) (hash_table_delete (@vmap_table T I o) k).
Proof. apply hash_delete_keeps; links_keep. Qed.
Lemma spc_insert_keeps p : keeps (@vm_safe T I lim) (hash_table_insert (@addr_spc_table T I) p).
Proof. apply hash_insert_keeps; links_keep. Qed.
Lemma spc_delete_keeps k : keeps (@vm_safe T I lim) (hash_table_delete (@addr_spc_table T I) k).
Proof. apply hash_delete_keeps; links_keep. Qed.
Lemma obj_insert_keeps p : keeps (@vm_safe T I lim) (hash_table_insert (@vm_obj_table T I) p).
Proof. apply hash_insert_keeps; links_keep. Qed.
Lemma obj_delete_keeps k : keeps (@vm_safe T I lim) (hash_table_delete (@vm_obj_table T I) k).
Proof. apply hash_delete_keeps; links_keep. Qed.
Lemma spc_lookup_keeps k : keeps (@vm_safe T I lim) (hash_table_lookup (@addr_spc_table T I) k).
Proof. apply hash_lookup_keeps; links_keep. Qed.
Lemma obj_lookup_keeps k : keeps (@vm_safe T I lim) (hash_table_lookup (@vm_obj_table T I) k).
Proof. apply hash_lookup_keeps; links_keep. Qed.
Lemma vmap_lookup_keeps o k : keeps (@vm_safe T I lim) (hash_table_lookup (@vmap_table T I o) k).
Proof. apply hash_lookup_keeps; links_keep. Qed.
Lemma cow_next_keeps p v : keeps (@vm_safe T I lim) (store (@f_cow_next T I) p v).
Proof. links_keep. Qed.
Lemma cow_prev_keeps p v : keeps (@vm_safe T I lim) (store (@f_cow_prev T I) p v).
Proof. links_keep. Qed.
#[local] Hint Resolve vmap_insert_keeps vmap_delete_keeps vmap_lookup_keeps spc_insert_keeps spc_delete_keeps
  spc_lookup_keeps obj_insert_keeps obj_delete_keeps obj_lookup_keeps cow_next_keeps cow_prev_keeps : keeps.

Lemma clist_delete_keeps p : keeps (@vm_safe T I lim) (clist_delete (@vm_obj_clist T I) p).
Proof. unfold clist_delete. simpl. keeps_steps. Qed.

Lemma on_tree_keeps {B} (m : M tstore B) : keeps (@vm_safe T I lim) (@on_tree T I B m).
Proof.
  apply keeps_zoom. intros s N Hs. apply ts_put; [done|]. intros p m'. unfold relink.
  rewrite map_lookup_imap. destruct (vmaps s !! p) as [m0|] eqn:Hm; [|done]. intros [= <-].
  exact (ts_get s p m0 Hs Hm).
Qed.
#[local] Hint Resolve clist_delete_keeps on_tree_keeps : keeps.

(** ** The operations *)

Lemma get_spc_keeps p : keeps (@vm_safe T I lim) (@get_spc T I p).
Proof. apply keeps_getopt. Qed.
Lemma get_obj_keeps p : keeps (@vm_safe T I lim) (@get_obj T I p).
Proof. apply keeps_getopt. Qed.
Lemma get_map_keeps p : keeps (@vm_safe T I lim) (@get_map T I p).
Proof. apply keeps_getopt. Qed.
Lemma update_spc_keeps p f : keeps (@vm_safe T I lim) (@update_spc T I p f).
Proof. by eapply ts_update; [apply _|]. Qed.
Lemma update_obj_keeps p f : keeps (@vm_safe T I lim) (@update_obj T I p f).
Proof. by eapply ts_update; [apply _|]. Qed.
Lemma update_map_keeps p f : (∀ n, map_safe n → map_safe (f n)) → keeps (@vm_safe T I lim) (@update_map T I p f).
Proof. intros Hf. by eapply ts_update; [apply _|]. Qed.
#[local] Hint Resolve get_spc_keeps get_obj_keeps get_map_keeps : keeps.

Lemma with_left_safe v n : map_safe n → map_safe (with_left v n).
Proof. done. Qed.
Lemma with_right_safe v n : map_safe n → map_safe (with_right v n).
Proof. done. Qed.
Lemma set_map_flags_safe f n : map_safe n → map_safe (set_map_flags f n).
Proof. intros _. apply user_flags_safe. Qed.
Lemma set_map_addr_safe a n : map_safe n → map_safe (set_map_addr a n).
Proof. done. Qed.
#[local] Hint Resolve with_left_safe with_right_safe set_map_flags_safe set_map_addr_safe
  update_spc_keeps update_obj_keeps update_map_keeps : keeps.

Lemma lock_spc_keeps p : keeps (@vm_safe T I lim) (@lock_spc T I p).
Proof. unfold lock_spc. keeps_steps. Qed.
Lemma lock_obj_keeps p : keeps (@vm_safe T I lim) (@lock_obj T I p).
Proof. unfold lock_obj. keeps_steps. Qed.
Lemma unlock_spc_keeps p : keeps (@vm_safe T I lim) (@unlock_spc T I p).
Proof. apply release_keeps. Qed.
Lemma unlock_obj_keeps p : keeps (@vm_safe T I lim) (@unlock_obj T I p).
Proof. apply release_keeps. Qed.
#[local] Hint Resolve lock_spc_keeps lock_obj_keeps unlock_spc_keeps unlock_obj_keeps : keeps.

Lemma tree_insert_keeps p q : keeps (@vm_safe T I lim) (@vmap_tree_insert T I p q).
Proof. unfold vmap_tree_insert. keeps_steps. Qed.
Lemma tree_delete_keeps p q : keeps (@vm_safe T I lim) (@vmap_tree_delete T I p q).
Proof. unfold vmap_tree_delete. keeps_steps. Qed.
Lemma collision_keeps p a n : keeps (@vm_safe T I lim) (@collision_test T I p a n).
Proof. unfold collision_test, tree_depth, collision_step. keeps_steps. Qed.
#[local] Hint Resolve tree_insert_keeps tree_delete_keeps collision_keeps : keeps.

Lemma destroy_keeps p : keeps (@vm_safe T I lim) (@vmobj_destroy T I A p).
Proof.
  unfold vmobj_destroy, vfree. keeps_steps. apply keeps_modify. intros s. by eapply ts_delete, _.
Qed.
#[local] Hint Resolve destroy_keeps : keeps.
Lemma garbage_keeps p : keeps (@vm_safe T I lim) (@collect_garbage T I A p).
Proof. unfold collect_garbage. keeps_steps. Qed.
Lemma free_map_keeps p : keeps (@vm_safe T I lim) (@free_map T I A p).
Proof. unfold free_map, vfree. keeps_steps. apply keeps_modify. intros s. by eapply ts_delete, _. Qed.
#[local] Hint Resolve garbage_keeps free_map_keeps : keeps.
Lemma delete_mapping_keeps p : keeps (@vm_safe T I lim) (@delete_mapping T I A p).
Proof. unfold delete_mapping. keeps_steps. Qed.
#[local] Hint Resolve delete_mapping_keeps : keeps.
Lemma unmap_all_keeps p : keeps (@vm_safe T I lim) (@unmap_all_objs T I A p).
Proof. unfold unmap_all_objs, unmap_step. keeps_steps. Qed.
#[local] Hint Resolve unmap_all_keeps : keeps.

(** Creation. *)
Lemma next_vm_id_keeps : keeps (@vm_safe T I lim) (@next_vm_id T I).
Proof. unfold next_vm_id. keeps_steps. apply keeps_modify. intros s []. by split. Qed.

Lemma put_obj_keeps new block pages o : keeps (@vm_safe T I lim) (@put_obj T I fresh new block pages o).
Proof.
  apply keeps_putopt. intros s s' []. destruct (block <? _); [done|].
  intros Heq%(inj Some). subst s'. by split.
Qed.
#[local] Hint Resolve next_vm_id_keeps put_obj_keeps : keeps.
Lemma list_obj_keeps p : keeps (@vm_safe T I lim) (@list_obj T I p).
Proof. unfold list_obj. keeps_steps. Qed.
Lemma set_anon_keeps p i v : keeps (@vm_safe T I lim) (@set_anon T I p i v).
Proof.
  apply keeps_putopt. intros s s' Hs. destruct (vobjs s !! p) as [o|] eqn:Ho; [|done]. simpl.
  destruct (put_index _ _ _); [|done]. intros [= <-]. eapply ts_insert; [apply _|done|].
  destruct (ts_get s p o Hs Ho). by split.
Qed.
Lemma get_anon_keeps p i : keeps (@vm_safe T I lim) (@get_anon T I p i).
Proof. apply keeps_getopt. Qed.
#[local] Hint Resolve list_obj_keeps set_anon_keeps get_anon_keeps : keeps.

Lemma spc_create_keeps : keeps (@vm_safe T I lim) (addr_spc_create K fresh).
Proof.
  unfold addr_spc_create. keeps_steps; apply keeps_modify; intros s []; by split.
Qed.

Lemma spc_destroy_keeps p : keeps (@vm_safe T I lim) (addr_spc_destroy A K p).
Proof.
  unfold addr_spc_destroy, vfree. keeps_steps. apply keeps_modify. intros s. by eapply ts_delete, _.
Qed.

Lemma inode_obj_keeps perm size inode offset :
  keeps (@vm_safe T I lim) (create_inode_obj A fresh perm size inode offset).
Proof. unfold create_inode_obj, vmalloc. keeps_steps. Qed.

Lemma anon_obj_keeps perm size : keeps (@vm_safe T I lim) (create_anon_obj A fresh perm size).
Proof. unfold create_anon_obj, vmalloc. keeps_steps. Qed.

Lemma copy_obj_keeps perm size copy tag rest :
  keeps (@vm_safe T I lim) (create_copy_obj A fresh perm size copy tag rest).
Proof. unfold create_copy_obj, vmalloc, copy_inode_pages, copy_anon_pages. keeps_steps. Qed.
#[local] Hint Resolve inode_obj_keeps anon_obj_keeps copy_obj_keeps : keeps.

Lemma create_keeps type perm size a b tag rest :
  keeps (@vm_safe T I lim) (vmobj_create A fresh type perm size a b tag rest).
Proof. unfold vmobj_create. keeps_steps. Qed.

(** Mapping. *)
Lemma map_init_keeps map spc obj addr flags :
  keeps (@vm_safe T I lim) (map_init fresh map spc obj addr flags).
Proof.
  apply keeps_putopt. intros s s' Hs. destruct (map =? NULL); [done|].
  intros Heq%(inj Some). subst s'. eapply ts_insert; [apply _|done|]. apply user_flags_safe.
Qed.
Lemma link_map_keeps spc obj map : keeps (@vm_safe T I lim) (link_map spc obj map).
Proof. unfold link_map. keeps_steps. Qed.
#[local] Hint Resolve map_init_keeps link_map_keeps : keeps.

Lemma map_keeps spc obj addr flags :
  keeps (@vm_safe T I lim) (vmobj_map A fresh spc obj addr flags).
Proof. unfold vmobj_map, vmalloc. keeps_steps. Qed.

Lemma unmap_keeps spc obj : keeps (@vm_safe T I lim) (vmobj_unmap A spc obj).
Proof. unfold vmobj_unmap. keeps_steps. Qed.

Lemma remap_keeps spc obj addr flags :
  keeps (@vm_safe T I lim) (vmobj_remap spc obj addr flags).
Proof. unfold vmobj_remap. keeps_steps. Qed.

(** Invalidating pages. *)
Lemma page_unmap_keeps obj offset : keeps (@vm_safe T I lim) (vm_obj_page_unmap obj offset).
Proof. unfold vm_obj_page_unmap, walk_step, page_unmap_one, map_next, tree_depth. keeps_steps. Qed.
#[local] Hint Resolve page_unmap_keeps : keeps.

Lemma update_info_keeps p f : keeps (@vm_safe T I lim) (update_info p f).
Proof. apply on_phys_keeps. Qed.
Lemma lock_page_keeps p : keeps (@vm_safe T I lim) (lock_page p).
Proof.
  unfold lock_page. apply keeps_bind; [apply on_phys_keeps|]. intros i.
  apply keeps_bind; [by apply keeps_lock|]. intros []. apply update_info_keeps.
Qed.
Lemma get_inv_map_keeps p : keeps (@vm_safe T I lim) (get_inv_map p).
Proof. apply keeps_getopt. Qed.
#[local] Hint Resolve update_info_keeps lock_page_keeps get_inv_map_keeps : keeps.

Lemma invalidate_keeps addr : keeps (@vm_safe T I lim) (vm_invalidate_page addr).
Proof. unfold vm_invalidate_page, page_at, walk_step, unlock_page. keeps_steps. Qed.
#[local] Hint Resolve spc_create_keeps spc_destroy_keeps create_keeps map_keeps unmap_keeps remap_keeps
  invalidate_keeps : keeps.

(** ** Page faults *)

(** What the fault handlers take from the machine and the rest of the kernel:
    the arguments of the functions of [VmFault]. *)
Record machine := Machine {
  mc_io : inode_io I;
  mc_window : ptr;
  mc_swap_in : Z → ptr → Z → M (phstate T I) unit;
  mc_addr_spc : M St ptr;
  mc_lru_page : M St Z;
  mc_unmapped : Z → M St unit;
  mc_illegal : Z → Z → Z → M St unit;
  mc_indeterminate : Z;
  mc_stale : page_src_t;
  mc_id_fuel : nat;
  mc_kern_start : ptr;
  mc_heap_start : ptr;
  mc_heap_end : ptr;
  mc_kern_spc : ptr;
  mc_kern_obj : ptr;
}.

(** The rest of the kernel keeps the types as well. *)
Record machine_safe (X : machine) : Prop := {
  xt_addr_spc : keeps (@vm_safe T I lim) (mc_addr_spc X);
  xt_lru : keeps (@vm_safe T I lim) (mc_lru_page X);
  xt_unmapped addr : keeps (@vm_safe T I lim) (mc_unmapped X addr);
  xt_illegal addr perm access : keeps (@vm_safe T I lim) (mc_illegal X addr perm access);
}.

Definition evict_page (X : machine) : M St Z := vm_evict_page (mc_lru_page X).
Definition page_fault (X : machine) : nat → Z → Z → M St unit :=
  kern_page_fault A (mc_io X) (mc_window X) (mc_swap_in X) (mc_addr_spc X) (mc_unmapped X)
    (mc_illegal X) (mc_indeterminate X) (mc_stale X) (mc_id_fuel X) (mc_kern_start X)
    (mc_heap_start X) (mc_heap_end X) (mc_kern_spc X) (mc_kern_obj X).
Definition protect_fault (X : machine) : nat → Z → Z → M St unit :=
  kern_protect_fault A (mc_io X) (mc_window X) (mc_swap_in X) (mc_addr_spc X)
    (mc_illegal X) (mc_indeterminate X) (mc_stale X) (mc_id_fuel X) (mc_kern_start X).

(** The table of the mappings of a page. *)
Lemma inv_insert_keeps page p : keeps (@vm_safe T I lim) (hash_table_insert (@inv_map_table T I page) p).
Proof.
  apply hash_insert_keeps; [intros; apply keeps_store; simpl|intros ? ? ? []; by split].
  intros s s' []. destruct (inv_maps s !! _); [|done]. intros [= <-]. by split.
Qed.
Lemma new_inv_map_keeps obj offset : keeps (@vm_safe T I lim) (@new_inv_map T I A obj offset).
Proof.
  unfold new_inv_map, vmalloc. keeps_steps. apply keeps_putopt. intros s s' [].
  destruct (_ =? NULL); [done|]. intros [= <-]. by split.
Qed.
#[local] Hint Resolve inv_insert_keeps new_inv_map_keeps : keeps.

Lemma drop_cow_count_keeps p : keeps (@vm_safe T I lim) (@drop_cow_count T I p).
Proof. unfold drop_cow_count. keeps_steps. Qed.
#[local] Hint Resolve drop_cow_count_keeps : keeps.
Lemma retire_keeps p : keeps (@vm_safe T I lim) (@retire T I p).
Proof. unfold retire. keeps_steps. Qed.
(** Mapping a page of user space. *)
Lemma page_map_keeps spc addr f phys :
  0 ≤ addr < lim → keeps (@vm_safe T I lim) (@vm_calls_add T I (PageMap spc (PAGE_ADDR addr) (Z.land f VMOBJ_PERM) phys)).
Proof. intros Ha. apply vm_calls_keeps. destruct (PAGE_ADDR_user lim addr Ha). split_and!; try done; [lia..|apply land_perm]. Qed.
#[local] Hint Resolve page_map_keeps : keeps.

Lemma tables_keeps obj offset a addr : 0 ≤ addr < lim → keeps (@vm_safe T I lim) (@update_page_tables T I A obj offset a addr).
Proof. intros Haddr. unfold update_page_tables, page_at, walk_step, map_next, tree_depth, unlock_page. keeps_steps. Qed.
#[local] Hint Resolve retire_keeps tables_keeps : keeps.

Section machine.
Context (X : machine) (HX : machine_safe X) (Hlim : mc_kern_start X = lim).
Context (Hheap : mc_heap_start X ≤ mc_heap_end X).
Lemma current_keeps : keeps (@vm_safe T I lim) (mc_addr_spc X).
Proof. by destruct HX. Qed.
Lemma lru_keeps : keeps (@vm_safe T I lim) (mc_lru_page X).
Proof. by destruct HX. Qed.
Lemma unmapped_keeps addr : keeps (@vm_safe T I lim) (mc_unmapped X addr).
Proof. by destruct HX. Qed.
Lemma illegal_keeps addr perm access : keeps (@vm_safe T I lim) (mc_illegal X addr perm access).
Proof. by destruct HX. Qed.
#[local] Hint Resolve current_keeps lru_keeps unmapped_keeps illegal_keeps : keeps.

Lemma page_src_keeps spc obj offset :
  keeps (@vm_safe T I lim) (page_src A (mc_io X) (mc_window X) (mc_stale X) (mc_id_fuel X) spc obj offset).
Proof.
  apply keeps_bind; [apply keeps_gets|]. intros fuel. revert obj.
  induction fuel as [|fuel IH]; intros obj; [by intros s _|].
  simpl. unfold create_anon. keeps_steps.
Qed.
Lemma clone_keeps keep curr obj orig anon : keeps (@vm_safe T I lim) (clone_page A (mc_io X) (mc_window X)
  (mc_swap_in X) (mc_indeterminate X) (mc_stale X) (mc_id_fuel X) keep curr obj orig anon).
Proof. unfold clone_page, create_anon, fetch. keeps_steps. Qed.
#[local] Hint Resolve page_src_keeps clone_keeps : keeps.

Lemma protect_keeps fuel addr obj access offset orig : 0 ≤ addr < lim → keeps (@vm_safe T I lim) (do_protect_fault A (mc_io X)
  (mc_window X) (mc_swap_in X) (mc_addr_spc X) (mc_illegal X) (mc_indeterminate X) (mc_stale X)
  (mc_id_fuel X) fuel addr obj access offset orig).
Proof. intros Haddr. unfold do_protect_fault, own_page, share_page, share_step. keeps_steps. Qed.
Lemma map_page_keeps curr addr obj offset src : 0 ≤ addr < lim → keeps (@vm_safe T I lim)
  (map_page A (mc_io X) (mc_swap_in X) (mc_indeterminate X) curr addr obj offset src).
Proof.
  intros Haddr. assert (∀ perm phys, Z.land perm VMOBJ_PERM = perm →
    keeps (@vm_safe T I lim) (@vm_calls_add T I (PageMap curr (PAGE_ADDR addr) perm phys))) as Hcall.
  { intros perm phys Hp. rewrite <-Hp. by apply page_map_keeps. }
  apply keeps_bind; [unfold fetch; keeps_steps|]. intros phys. apply keeps_bind; [keeps_steps|]. intros o.
  intros s Hs. apply wlp_bind. eapply wlp_mono with (P := λ perm s', vm_safe lim s' ∧ Z.land perm VMOBJ_PERM = perm).
  - unfold page_perm. destruct (_ =? 0); [apply wlp_ret; split; [done|apply land_perm]|].
    apply wlp_bind. eapply wlp_mono; [by apply on_cow_keeps|]. intros refs s1 Hs1. apply wlp_ret.
    split; [done|]. destruct (_ =? 0); [apply land_perm|apply land_perm_lnot].
  - intros perm s1 [Hs1 Hp]. revert s1 Hs1. fold (keeps (@vm_safe T I lim)
      (vm_calls_add (PageMap curr (PAGE_ADDR addr) perm phys);;
       inv_map ← new_inv_map A obj offset; inv_page ← page_at phys; lock_page inv_page;;
       update_info inv_page count_mapper;; update_info inv_page (with_type PAGE_USED);;
       _ ← hash_table_insert (inv_map_table inv_page) inv_map; unlock_page inv_page;; mret perm)).
    apply keeps_bind; [by apply Hcall|]. intros []. unfold page_at, unlock_page. keeps_steps.
Qed.
Lemma mapping_obj_keeps spc addr : keeps (@vm_safe T I lim) (@get_mapping_obj T I spc addr).
Proof. unfold get_mapping_obj, get_closest_low, closest_step, tree_depth. keeps_steps. Qed.
#[local] Hint Resolve protect_keeps map_page_keeps mapping_obj_keeps : keeps.

Lemma page_fault_keeps fuel addr access : 0 ≤ addr → keeps (@vm_safe T I lim) (page_fault X fuel addr access).
Proof.
  intros Ha. unfold page_fault, kern_page_fault.
  destruct (Z.ltb_spec addr (mc_heap_start X)), (Z.ltb_spec (mc_heap_end X) addr); simpl; [lia|..];
    (destruct (Z.ltb_spec addr (mc_kern_start X)); [|apply keeps_ret]);
    (assert (0 ≤ addr < lim) by lia); unfold vm_page_fault; keeps_steps.
Qed.
Lemma protect_fault_keeps fuel addr access : 0 ≤ addr → keeps (@vm_safe T I lim) (protect_fault X fuel addr access).
Proof.
  intros Ha. unfold protect_fault, kern_protect_fault. destruct (Z.ltb_spec addr (mc_kern_start X)); [|apply keeps_ret].
  assert (0 ≤ addr < lim) by lia. unfold vm_protect_fault. keeps_steps.
Qed.
Lemma evict_keeps : keeps (@vm_safe T I lim) (evict_page X).
Proof. unfold evict_page, vm_evict_page. keeps_steps. Qed.
End machine.

(** ** Commands *)

(** The functions of virt_mem.c that its clients call. *)
Inductive vm_cmd :=
| SpcCreate | SpcDestroy (spc : ptr)
| ObjCreate (type perm size a b tag rest : Z) | ObjDestroy (obj : ptr)
| ObjMap (spc obj addr flags : Z) | ObjUnmap (spc obj : ptr) | ObjRemap (spc obj addr flags : Z)
| UnmapAll (spc : ptr) | InvalidatePage (phys_addr : Z) | EvictPage
| PageFault (fuel : nat) (addr access : Z) | ProtectFault (fuel : nat) (addr access : Z).

Definition vm_exec (X : machine) (c : vm_cmd) : M St Z :=
  match c with
  | SpcCreate => addr_spc_create K fresh
  | SpcDestroy spc => addr_spc_destroy A K spc
  | ObjCreate type perm size a b tag rest => vmobj_create A fresh type perm size a b tag rest
  | ObjDestroy obj => vmobj_destroy A obj
  | ObjMap spc obj addr flags => vmobj_map A fresh spc obj addr flags
  | ObjUnmap spc obj => vmobj_unmap A spc obj
  | ObjRemap spc obj addr flags => vmobj_remap spc obj addr flags
  | UnmapAll spc => unmap_all_objs A spc;; mret 0
  | InvalidatePage phys_addr => vm_invalidate_page phys_addr;; mret 0
  | EvictPage => evict_page X
  | PageFault fuel addr access => page_fault X fuel addr access;; mret 0
  | ProtectFault fuel addr access => protect_fault X fuel addr access;; mret 0
  end.

(** The addresses of page faults are addresses. *)
Definition cmd_safe (c : vm_cmd) : Prop :=
  match c with
  | PageFault _ addr _ | ProtectFault _ addr _ => 0 ≤ addr
  | _ => True
  end.

Fixpoint vm_exec_all (X : machine) (cs : list vm_cmd) : M St unit :=
  match cs with [] => mret tt | c :: cs => _ ← vm_exec X c; vm_exec_all X cs end.

Lemma vm_exec_keeps X c : machine_safe X → mc_kern_start X = lim → mc_heap_start X ≤ mc_heap_end X →
  cmd_safe c → keeps (@vm_safe T I lim) (vm_exec X c).
Proof.
  intros HX Hlim Hh. pose proof page_fault_keeps. pose proof protect_fault_keeps. pose proof evict_keeps.
  destruct c; simpl; intros Hc; keeps_steps.
Qed.

Lemma vm_exec_all_keeps X cs : machine_safe X → mc_kern_start X = lim →
  mc_heap_start X ≤ mc_heap_end X → Forall cmd_safe cs → keeps (@vm_safe T I lim) (vm_exec_all X cs).
Proof.
  intros HX Hlim Hh. induction 1 as [|c cs Hc _ IH]; simpl; [apply keeps_ret|].
  apply keeps_bind; [by apply vm_exec_keeps|done].
Qed.
End typing.


(** Space 500 is the current one; what is not allowed panics. *)
Definition small_machine : machine (T := astate) (I := unit) :=
  Machine quiet_io 4096 (λ _ _ _, fault) (mret 500) fault (λ _, fault) (λ _ _ _, fault)
    0 PSRC_NULL 10 0xc0000000 0xc0100000 0xd0000000 500 1000.

Definition some_calls : list vm_cmd :=
  [PageFault 10 5000 VMOBJ_EXEC; ObjRemap 500 2000 12288 0xffffffff; ObjUnmap 500 1000; SpcCreate;
   ObjCreate 0 0 0 0 0 0 0].

Lemma two_maps_safe lim : vm_safe lim mapped_ab.
Proof.
  split; [|by apply Forall_nil]. apply map_Forall_lookup_2; intros p x; simpl.
  by intros [[_ <-]|[_ [_ <-]%lookup_singleton_Some]]%lookup_insert_Some.
Qed.

Lemma small_machine_safe lim : machine_safe lim small_machine.
Proof. split; intros; simpl; keeps_steps. Qed.

