(* ===== verification/RwLock.v ===== *)
(** * Readers-writer locks (src/sync/rw_lock.c)

    The six functions are lists of instructions: the calls of sync.c, the tests
    and assignments of the counter, and the loop around [cond_wait].  They are
    given two meanings.  Here they are run by any number of threads, one
    instruction of one thread at a time; [mutex_lock] and [mutex_unlock] take
    and release the mutex, and [cond_wait] releases it, sleeps and takes it
    again.  Nothing is assumed of wake-ups: a thread that sleeps may wake at
    any time or never, so that every behaviour of [cond_broadcast] is covered.
    In RwSync they are run over the functions of sync.c themselves. *)

From S2P Require Import Prelude.
From Stdlib Require Import Relations.Relation_Operators.
#[local] Open Scope Z_scope.

(** ** The functions *)

(** [WaitWhile b] is [while(b) cond_wait(&(rw->cond), &(rw->mutex))], and
    [BroadcastIf b] is [if(b) cond_broadcast(&(rw->cond))]. *)
Inductive instr :=
| MutexLock
| MutexUnlock
| CondBroadcast
| BroadcastIf (b : Z → bool)
| WaitWhile (b : Z → bool)
| SetCount (f : Z → Z).

Definition rw_read_lock : list instr :=
  [MutexLock; WaitWhile (λ count, u32 (-1) =? count); SetCount (λ count, u32 (count + 1));
   MutexUnlock].
Definition rw_read_unlock : list instr :=
  [MutexLock; SetCount (λ count, u32 (count - 1)); BroadcastIf (λ count, 0 =? count); MutexUnlock].
Definition rw_write_lock : list instr :=
  [MutexLock; WaitWhile (λ count, negb (0 =? count)); SetCount (λ _, u32 (-1)); MutexUnlock].
Definition rw_write_unlock : list instr :=
  [MutexLock; SetCount (λ _, 0); CondBroadcast; MutexUnlock].
Definition rw_upgrade_lock : list instr :=
  [MutexLock; SetCount (λ count, u32 (count - 1)); WaitWhile (λ count, negb (0 =? count));
   SetCount (λ _, u32 (-1)); MutexUnlock].
Definition rw_downgrade_lock : list instr :=
  [MutexLock; SetCount (λ _, 1); CondBroadcast; MutexUnlock].

(** ** Threads *)

Inductive call := ReadLock | ReadUnlock | WriteLock | WriteUnlock | UpgradeLock | DowngradeLock.

(** Outside the functions, holding nothing or the lock in one mode; before an
    instruction of a call; asleep in [cond_wait] at one. *)
Inductive pc := Idle | Reading | Writing | At (c : call) (i : nat) | Asleep (c : call) (i : nat).

Global Instance call_eq : EqDecision call.
Proof. solve_decision. Defined.
Global Instance pc_eq : EqDecision pc.
Proof. solve_decision. Defined.

Definition code (c : call) : list instr :=
  match c with
  | ReadLock => rw_read_lock
  | ReadUnlock => rw_read_unlock
  | WriteLock => rw_write_lock
  | WriteUnlock => rw_write_unlock
  | UpgradeLock => rw_upgrade_lock
  | DowngradeLock => rw_downgrade_lock
  end.

(** Where a call may be made, and what its caller holds when it returns. *)
Definition may_call (p : pc) (c : call) : bool :=
  match p, c with
  | Idle, (ReadLock | WriteLock) => true
  | Reading, (ReadUnlock | UpgradeLock) => true
  | Writing, (WriteUnlock | DowngradeLock) => true
  | _, _ => false
  end.
Definition holds (c : call) : pc :=
  match c with
  | ReadLock | DowngradeLock => Reading
  | WriteLock | UpgradeLock => Writing
  | ReadUnlock | WriteUnlock => Idle
  end.

(** The counter, the thread that has the mutex, and the threads. *)
Record rw_state := RwState {
  rw_count : Z;
  rw_mutex : option nat;
  pcs : gmap nat pc;
}.

Definition go (t : nat) (p : pc) (s : rw_state) : rw_state :=
  RwState (rw_count s) (rw_mutex s) (<[t := p]> (pcs s)).

(** One instruction of thread [t], which is at [c], [i]; [None] if it has to
    wait for the mutex. *)
Definition exec (t : nat) (c : call) (i : nat) (x : instr) (s : rw_state) : option rw_state :=
  match x with
  | MutexLock =>
      match rw_mutex s with
      | None => Some (RwState (rw_count s) (Some t) (<[t := At c (S i)]> (pcs s)))
      | Some _ => None
      end
  | MutexUnlock => Some (RwState (rw_count s) None (<[t := At c (S i)]> (pcs s)))
  | CondBroadcast | BroadcastIf _ => Some (go t (At c (S i)) s)
  | WaitWhile b =>
      if b (rw_count s) then Some (RwState (rw_count s) None (<[t := Asleep c i]> (pcs s)))
      else Some (go t (At c (S i)) s)
  | SetCount f => Some (RwState (f (rw_count s)) (rw_mutex s) (<[t := At c (S i)]> (pcs s)))
  end.

Inductive rw_step : rw_state → rw_state → Prop :=
| step_call s t p c :
    pcs s !! t = Some p → may_call p c = true → rw_step s (go t (At c 0) s)
| step_exec s s' t c i x :
    pcs s !! t = Some (At c i) → code c !! i = Some x → exec t c i x s = Some s' → rw_step s s'
| step_return s t c i :
    pcs s !! t = Some (At c i) → code c !! i = None → rw_step s (go t (holds c) s)
| step_wake s t c i :
    pcs s !! t = Some (Asleep c i) → rw_mutex s = None →
    rw_step s (RwState (rw_count s) (Some t) (<[t := At c i]> (pcs s))).

(** The zero-filled lock and [n] idle threads. *)
Definition rw_init (n : nat) : rw_state := RwState 0 None (all_at n Idle).
Definition rw_reachable (n : nat) (s : rw_state) : Prop :=
  clos_refl_trans_1n _ rw_step (rw_init n) s.

(** ** The invariant *)

Definition WRITER : Z := u32 (-1).

(** What a thread holds according to the counter: a call changes it with its
    assignments. *)
Inductive hold := HNone | HRead | HWrite.
Global Instance hold_eq : EqDecision hold.
Proof. solve_decision. Defined.

Fixpoint assignments (l : list instr) : nat :=
  match l with [] => O | SetCount _ :: l' => S (assignments l') | _ :: l' => assignments l' end.
Definition is_unlock (x : instr) : bool := match x with MutexUnlock => true | _ => false end.

Definition held_at (c : call) (i : nat) : hold :=
  match c, assignments (drop i (code c)) with
  | (ReadLock | DowngradeLock), O => HRead
  | (WriteLock | UpgradeLock), O => HWrite
  | (ReadUnlock | WriteUnlock), O => HNone
  | (ReadLock | WriteLock), _ => HNone
  | UpgradeLock, 1%nat => HNone
  | (ReadUnlock | UpgradeLock), _ => HRead
  | (WriteUnlock | DowngradeLock), _ => HWrite
  end.
Definition held (p : pc) : hold :=
  match p with
  | Idle => HNone
  | Reading => HRead
  | Writing => HWrite
  | At c i | Asleep c i => held_at c i
  end.

(** The thread has the mutex. *)
Definition inside (p : pc) : bool :=
  match p with
  | At c (S i) => existsb is_unlock (drop (S i) (code c))
  | _ => false
  end.

(** What a thread knows of the counter [n] behind a waiting loop, and where
    threads sleep. *)
Definition sound (n : Z) (p : pc) : Prop :=
  match p with
  | At c i => (i ≤ length (code c))%nat ∧
      ∀ j b, i = S j → code c !! j = Some (WaitWhile b) → b n = false
  | Asleep c i => ∃ b, code c !! i = Some (WaitWhile b)
  | _ => True
  end.

(** The counter [n] describes the holders. *)
Definition tally (n : Z) (h : gmap nat hold) : Prop :=
  (in_pc HWrite h = 0%nat ∧ n = Z.of_nat (in_pc HRead h)) ∨
  (in_pc HWrite h = 1%nat ∧ in_pc HRead h = 0%nat ∧ n = WRITER).

Record rw_inv (n : nat) (s : rw_state) : Prop := {
  rw_threads : base.size (pcs s) = n;
  rw_owner t p : pcs s !! t = Some p → inside p = true ↔ rw_mutex s = Some t;
  rw_holders : tally (rw_count s) (held <$> pcs s);
  rw_sound t p : pcs s !! t = Some p → sound (rw_count s) p;
}.

(** Every instruction of every call. *)
Ltac each_instr c i Hx :=
  destruct c; destruct i as [|[|[|[|[|i]]]]]; try done; injection Hx as <-.

(** A thread behind a waiting loop has the mutex. *)
Lemma waited_inside c j b : code c !! j = Some (WaitWhile b) → inside (At c (S j)) = true.
Proof. intros H. by each_instr c j H. Qed.

Lemma move_inv n s t p q c' m' :
  rw_inv n s → pcs s !! t = Some p →
  (m' = rw_mutex s ∧ inside q = inside p ∨
   rw_mutex s = None ∧ m' = Some t ∧ inside q = true ∨
   rw_mutex s = Some t ∧ m' = None ∧ inside q = false) →
  c' = rw_count s ∨ inside p = true → sound c' q →
  tally c' (<[t := held q]> (held <$> pcs s)) →
  rw_inv n (RwState c' m' (<[t := q]> (pcs s))).
Proof.
  intros [Hsz Ho Hh Hs] Ht Hm Hc Hq Hh'. split; simpl.
  - rewrite map_size_insert_Some by eauto. done.
  - intros u r. destruct (decide (t = u)) as [->|Hne].
    + rewrite lookup_insert_eq. intros [= <-]. pose proof (Ho _ _ Ht).
      destruct Hm as [[-> ->]|[(_ & -> & ->)|(_ & -> & ->)]]; naive_solver.
    + rewrite lookup_insert_ne by done. intros Hu. pose proof (Ho _ _ Hu).
      destruct Hm as [[-> _]|[(H1 & -> & _)|(H1 & -> & _)]]; [done|..]; rewrite H1 in *; naive_solver.
  - by rewrite fmap_insert.
  - intros u r. destruct (decide (t = u)) as [->|Hne].
    + rewrite lookup_insert_eq. by intros [= <-].
    + rewrite lookup_insert_ne by done. intros Hu. specialize (Hs _ _ Hu).
      destruct Hc as [->|Hin]; [done|]. destruct r as [| | |c i|c i]; try done.
      split; [by apply Hs|]. intros j b -> Hb. apply waited_inside in Hb.
      apply (Ho _ _ Hu) in Hb. apply (Ho _ _ Ht) in Hin. congruence.
Qed.

(** A move that leaves the counter and what the thread holds. *)
Lemma still_inv n s t p q m' :
  rw_inv n s → pcs s !! t = Some p → held q = held p → sound (rw_count s) q →
  (m' = rw_mutex s ∧ inside q = inside p ∨
   rw_mutex s = None ∧ m' = Some t ∧ inside q = true ∨
   rw_mutex s = Some t ∧ m' = None ∧ inside q = false) →
  rw_inv n (RwState (rw_count s) m' (<[t := q]> (pcs s))).
Proof.
  intros Hi Ht Hh Hq Hm. eapply move_inv; [done..|by left|done|].
  rewrite Hh, insert_id; [apply Hi|]. by rewrite lookup_fmap, Ht.
Qed.

(** An assignment of the counter moves the thread from what it held to what it
    then holds. *)
Lemma set_tally n s t p q f c i :
  Z.of_nat n < WRITER → rw_inv n s → pcs s !! t = Some p → p = At c i → q = At c (S i) →
  code c !! i = Some (SetCount f) → tally (f (rw_count s)) (<[t := held q]> (held <$> pcs s)).
Proof.
  intros Hn [Hsz _ Hh Hs] Ht -> -> Hx. specialize (Hs _ _ Ht) as [_ Hs].
  assert (WRITER = 2 ^ 32 - 1) as HW by done.
  assert ((held <$> pcs s) !! t = Some (held (At c i))) as Hht by by rewrite lookup_fmap, Ht.
  pose proof (in_pc_insert (held (At c (S i))) _ HRead t _ Hht) as Hr.
  pose proof (in_pc_insert (held (At c (S i))) _ HWrite t _ Hht) as Hw.
  pose proof (in_pc_pos _ _ _ Hht) as Hpos. pose proof (in_pc_le HRead (held <$> pcs s)) as Hle.
  rewrite map_size_fmap, Hsz in Hle. unfold tally in *.
  each_instr c i Hx; simpl in Hr, Hw, Hpos |- *;
    repeat (case_decide; try done);
    try (pose proof (Hs _ _ eq_refl eq_refl) as Hb; fold WRITER in Hb; cbn beta in Hb);
    fold WRITER; rewrite ?u32_small by lia; lia.
Qed.

Lemma sound_next n c i x :
  code c !! i = Some x → (∀ b, x = WaitWhile b → b n = false) → sound n (At c (S i)).
Proof.
  intros Hx Hb. split; [by apply lookup_lt_Some in Hx|]. intros j b [= <-] Hj. apply Hb. congruence.
Qed.

Lemma exec_inv n s s' t c i x :
  Z.of_nat n < WRITER → rw_inv n s → pcs s !! t = Some (At c i) → code c !! i = Some x →
  exec t c i x s = Some s' → rw_inv n s'.
Proof.
  intros Hn Hi Ht Hx He. pose proof (rw_owner _ _ Hi _ _ Ht) as Ho.
  pose proof (sound_next (rw_count s) c i x Hx) as Hnext.
  destruct x as [| | |b|b|f]; simpl in He.
  - destruct (rw_mutex s) eqn:Hm; [done|]. injection He as <-.
    eapply still_inv; [done..| |by apply Hnext|]; [by each_instr c i Hx|]. rewrite Hm.
    right; left. by each_instr c i Hx.
  - injection He as <-. assert (rw_mutex s = Some t) as Hm by (apply Ho; by each_instr c i Hx).
    eapply still_inv; [done..| |by apply Hnext|]; [by each_instr c i Hx|]. rewrite Hm.
    right; right. by each_instr c i Hx.
  - injection He as <-. eapply still_inv; [done..| |by apply Hnext|]; [by each_instr c i Hx|].
    left. by each_instr c i Hx.
  - injection He as <-. eapply still_inv; [done..| |by apply Hnext|]; [by each_instr c i Hx|].
    left. by each_instr c i Hx.
  - assert (rw_mutex s = Some t) as Hm by (apply Ho; by each_instr c i Hx).
    destruct (b _) eqn:Hb; injection He as <-.
    + eapply still_inv; [done..| |]; [by exists b|]. rewrite Hm. right; right. by each_instr c i Hx.
    + eapply still_inv; [done|done|by each_instr c i Hx| |].
      * apply Hnext. by intros b' [= <-].
      * left. split; [done|]. by each_instr c i Hx.
  - injection He as <-. eapply move_inv; [done..| | | |].
    + left. split; [done|]. by each_instr c i Hx.
    + right. by each_instr c i Hx.
    + by eapply sound_next.
    + by eapply set_tally.
Qed.

Lemma rw_step_inv n s s' : Z.of_nat n < WRITER → rw_inv n s → rw_step s s' → rw_inv n s'.
Proof.
  intros Hn Hi Hs. destruct Hs as [s t p c Ht Hc|s s' t c i x Ht Hx He|s t c i Ht Hx|s t c i Ht Hm].
  - eapply still_inv; [done..| | |]; [by destruct p, c|split; [lia|done]|left; by destruct p, c].
  - by eapply exec_inv.
  - pose proof (rw_sound _ _ Hi _ _ Ht) as [Hle _]. apply lookup_ge_None in Hx.
    assert (i = length (code c)) as -> by lia.
    eapply still_inv; [done..| | |]; [by destruct c|by destruct c|left; by destruct c].
  - pose proof (rw_sound _ _ Hi _ _ Ht) as [b Hx].
    eapply still_inv; [done..| | |]; [done| |].
    + split; [by each_instr c i Hx; simpl; lia|]. intros j b' -> Hb. by each_instr c j Hb.
    + right; left. by each_instr c i Hx.
Qed.

Lemma rw_init_inv n : rw_inv n (rw_init n).
Proof.
  assert (∀ h, h ≠ HNone → in_pc h (held <$> pcs (rw_init n)) = 0%nat) as Hz.
  { intros h Hh. apply in_pc_zero. intros t (p & Hp & ->%all_at_lookup)%lookup_fmap_Some. by subst. }
  split.
  - apply all_at_size.
  - by intros t p ->%all_at_lookup.
  - left. by rewrite !Hz.
  - by intros t p ->%all_at_lookup.
Qed.

Lemma rw_reachable_inv n s : Z.of_nat n < WRITER → rw_reachable n s → rw_inv n s.
Proof.
  intros Hn Hr. pose proof (rw_init_inv n) as Hi. unfold rw_reachable in Hr.
  induction Hr as [|s1 s2 s3 H12 _ IH]; [done|]. by apply IH, (rw_step_inv n s1).
Qed.

(** ** Properties *)

(** C10: while a thread holds the write lock, no other thread holds the lock in
    either mode, however the instructions of the six functions and the
    wake-ups interleave (for fewer than 2^32 - 1 threads, the number of readers
    that the counter can tell from a writer). *)
Theorem rw_lock_exclusion n s t u :
  Z.of_nat n < WRITER → rw_reachable n s → pcs s !! t = Some Writing → t ≠ u →
  pcs s !! u ≠ Some Reading ∧ pcs s !! u ≠ Some Writing.
Proof.
  intros Hn [_ _ Hh _]%rw_reachable_inv Ht Hne; [|done]. unfold tally in Hh.
  assert ((held <$> pcs s) !! t = Some HWrite) as Hht by by rewrite lookup_fmap, Ht.
  pose proof (in_pc_pos _ _ _ Hht).
  assert (∀ p, pcs s !! u = Some p → (held <$> pcs s) !! u = Some (held p)) as Hhu.
  { intros p Hp. by rewrite lookup_fmap, Hp. }
  split; intros Hu%Hhu; simpl in Hu.
  - pose proof (in_pc_pos _ _ _ Hu). lia.
  - pose proof (in_pc_two _ _ _ _ Hht Hu Hne). lia.
Qed.

Lemma rw_lock_exclusion_witness :
  let s := RwState WRITER None (<[0 := Writing]> (all_at 2 Idle))%nat in
  pcs s !! 0%nat = Some Writing ∧ pcs s !! 1%nat ≠ Some Reading ∧ pcs s !! 1%nat ≠ Some Writing.
Proof.
  intros s. split; [reflexivity|].
  apply (rw_lock_exclusion 2 s 0 1); [reflexivity| |reflexivity|discriminate].
  eapply rt1n_trans; [apply (step_call (rw_init 2) 0 Idle WriteLock); reflexivity|].
  do 4 (eapply rt1n_trans; [eapply (step_exec _ _ 0 WriteLock); reflexivity|]).
  eapply rt1n_trans; [apply (step_return _ 0 WriteLock 4); reflexivity|].
  exact (rt1n_refl _ _ s).
Defined.
