(* ===== verification/Rendezvous.v ===== *)
(** * Rendezvous points and exclusion (src/sched/rendezvous.c, exclusion.c)

    The CPUs that run a scheduler in exclusive mode meet at two barriers used in
    turn.  A call of [rendezvous_join] is a critical section followed by either
    the write that releases the others or a spin on the condition.  It is used
    twice: the system of all CPUs is a step relation whose program counters
    record how many joins a CPU has completed, and one CPU's calls of
    [clear_exclusion] and [set_exclusion] are functions on the static variables
    of exclusion.c, in which a spin that nobody ends is a deadlock. *)

From S2P Require Import Prelude.
From Stdlib Require Import Relations.Relation_Operators.

(** [rendezvous_t]; [cond] is the flag in the cache line. *)
Record rendezvous_t := Rend {
  cond : bool;
  rcount : Z;
  rmax : Z;
  reset : bool;
}.

(** The [memset] that should clear the structure writes nothing (util.c), so
    that only the last field is set. *)
Definition rendezvous_init (r : rendezvous_t) (max : Z) : rendezvous_t :=
  Rend (cond r) (rcount r) max (reset r).

(** A structure in static storage. *)
Definition rend_zero : rendezvous_t := Rend false 0 0 false.

(** How the critical section of a join goes on. *)
Inductive join_end := SetCond | Spin.

Definition rendezvous_join (r : rendezvous_t) : rendezvous_t * join_end :=
  if negb (reset r) then
    let c := u32 (rcount r + 1) in
    if (rmax r =? c)%Z then (Rend (cond r) c (rmax r) true, SetCond)
    else (Rend (cond r) c (rmax r) (reset r), Spin)
  else (Rend false 1 (rmax r) false, Spin).

(** [SET_COND], after the spinlock is released. *)
Definition set_cond (r : rendezvous_t) : rendezvous_t :=
  Rend true (rcount r) (rmax r) (reset r).

(** ** CPUs joining the two points in succession *)

(** [Out k]: outside, [k] joins completed; [Setting k] and [Spinning k]: in
    the join after those. *)
Inductive rpc := Out (k : nat) | Setting (k : nat) | Spinning (k : nat).
Global Instance rpc_eq : EqDecision rpc.
Proof. solve_decision. Defined.

Record rsys := RSys {
  first : rendezvous_t;
  second : rendezvous_t;
  rpcs : gmap nat rpc;
}.

Definition point (k : nat) (s : rsys) : rendezvous_t :=
  if Nat.even k then first s else second s.
Definition set_point (k : nat) (r : rendezvous_t) (s : rsys) : rsys :=
  if Nat.even k then RSys r (second s) (rpcs s) else RSys (first s) r (rpcs s).
Definition goto (t : nat) (p : rpc) (s : rsys) : rsys :=
  RSys (first s) (second s) (<[t := p]> (rpcs s)).

Inductive rstep : rsys → rsys → Prop :=
| step_join s t k r e :
    rpcs s !! t = Some (Out k) → rendezvous_join (point k s) = (r, e) →
    rstep s (goto t (match e with SetCond => Setting k | Spin => Spinning k end)
               (set_point k r s))
| step_set s t k :
    rpcs s !! t = Some (Setting k) →
    rstep s (goto t (Out (S k)) (set_point k (set_cond (point k s)) s))
| step_pass s t k :
    rpcs s !! t = Some (Spinning k) → cond (point k s) = true →
    rstep s (goto t (Out (S k)) s).

(** [n] CPUs, with both points initialised for them, and without. *)
Definition rsys_init (n : nat) : rsys :=
  RSys (rendezvous_init rend_zero (Z.of_nat n)) (rendezvous_init rend_zero (Z.of_nat n))
    (all_at n (Out 0)).
Definition rsys_boot (n : nat) : rsys := RSys rend_zero rend_zero (all_at n (Out 0)).
Definition rsys_reachable (n : nat) (s : rsys) : Prop :=
  clos_refl_trans_1n _ rstep (rsys_init n) s.

(** Joins that a CPU has left, and joins that it has entered. *)
Definition left_joins (p : rpc) : nat :=
  match p with Out k | Setting k | Spinning k => k end.
Definition entered_joins (p : rpc) : nat :=
  match p with Out k => k | Setting k | Spinning k => S k end.

(** ** Exclusion (exclusion.c) *)

(** The static variables of exclusion.c: the two points and the variable. *)
Record excl_t := Excl {
  ex_first : rendezvous_t;
  ex_second : rendezvous_t;
  ex_var : Z;
}.
Inductive which := First | Second.

Definition ex_point (w : which) (x : excl_t) : rendezvous_t :=
  match w with First => ex_first x | Second => ex_second x end.
Definition set_ex_point (w : which) (r : rendezvous_t) (x : excl_t) : excl_t :=
  match w with
  | First => Excl r (ex_second x) (ex_var x)
  | Second => Excl (ex_first x) r (ex_var x)
  end.
Definition set_ex_var (f : Z → Z) (x : excl_t) : excl_t :=
  Excl (ex_first x) (ex_second x) (f (ex_var x)).

(** The writes of [clear_exclusion] and [set_exclusion] to the variable, before
    the join. *)
Definition clear_write (exclusion : Z) : Z :=
  if negb (-1 =? exclusion)%Z then -1 else exclusion.
Definition set_write (cpu exclusion : Z) : Z :=
  if negb (-1 =? cpu)%Z then (if (-1 =? exclusion)%Z then cpu else exclusion)
  else exclusion.

(** The other CPUs run at the same time.  [meanwhile] is what they do to the
    variables before this CPU enters the critical section of its join;
    [released] is what they do while it spins, up to the moment that it reads
    the condition for the last time, and [None] if that moment never comes. *)
Section one_cpu.
Context (meanwhile : which → excl_t → excl_t) (released : which → excl_t → option excl_t).

Definition join_point (w : which) : M excl_t unit :=
  modify (meanwhile w);;
  r ← gets (ex_point w);
  modify (set_ex_point w (rendezvous_join r).1);;
  match (rendezvous_join r).2 with
  | SetCond => modify (λ x, set_ex_point w (set_cond (ex_point w x)) x)
  | Spin => λ x, match released w x with
                 | Some x' => if cond (ex_point w x') then Done (tt, x') else Deadlock
                 | None => Deadlock
                 end
  end.

Definition clear_exclusion : M excl_t unit :=
  modify (set_ex_var clear_write);;
  join_point First.
Definition set_exclusion (cpu : Z) : M excl_t unit :=
  modify (set_ex_var (set_write cpu));;
  join_point Second.

(** The spin at a point comes to an end. *)
Definition spin_ends (w : which) (x : excl_t) : Prop :=
  ∃ x', released w x = Some x' ∧ cond (ex_point w x') = true.
End one_cpu.

Definition check_exclusion (cpu : Z) (x : excl_t) : bool :=
  (cpu =? ex_var x)%Z || (-1 =? ex_var x)%Z.
Definition check_exclusion_specific (cpu : Z) (x : excl_t) : bool := (ex_var x =? cpu)%Z.

(** The variable when all CPUs have called [set_exclusion]. *)
Definition exclusion_round (reqs : list Z) (x : excl_t) : excl_t :=
  foldl (λ x c, set_ex_var (set_write c) x) x reqs.

(** ** The invariant *)

Section barrier.
Context (n : nat) (Hn : 2 ≤ n) (Hw : (Z.of_nat n < 2 ^ 32)%Z).

(** A point nobody has joined since it was released. *)
Definition ready (r : rendezvous_t) : Prop :=
  rmax r = Z.of_nat n ∧
  ((reset r = true ∧ cond r = true) ∨ (reset r = false ∧ cond r = false ∧ rcount r = 0%Z)).

(** A point that [j] CPUs have joined. *)
Definition gathering (j : nat) (r : rendezvous_t) : Prop :=
  if decide (j = 0) then ready r
  else rmax r = Z.of_nat n ∧ reset r = false ∧ cond r = false ∧ rcount r = Z.of_nat j.

(** Where the CPUs can be while join [k] gathers: some may not have left the
    join before. *)
Definition around (k : nat) (s : rsys) (p : rpc) : Prop :=
  p = Out k ∨ p = Spinning k ∨
  ∃ k', k = S k' ∧ p = Spinning k' ∧ cond (point k' s) = true.

Inductive rinv (s : rsys) : Prop :=
| inv_gather k :
    base.size (rpcs s) = n →
    (∀ t p, rpcs s !! t = Some p → around k s p) →
    ready (point (S k) s) →
    gathering (in_pc (Spinning k) (rpcs s)) (point k s) →
    in_pc (Spinning k) (rpcs s) < n →
    rinv s
| inv_release k t :
    base.size (rpcs s) = n →
    rpcs s !! t = Some (Setting k) →
    (∀ u p, u ≠ t → rpcs s !! u = Some p → p = Spinning k) →
    ready (point (S k) s) →
    rmax (point k s) = Z.of_nat n → reset (point k s) = true → cond (point k s) = false →
    rinv s.

Lemma point_SS k s : point (S (S k)) s = point k s.
Proof. done. Qed.

Lemma point_set_eq k r s : point k (set_point k r s) = r.
Proof. unfold point, set_point. by destruct (Nat.even k). Qed.

Lemma point_set_S k r s : point (S k) (set_point k r s) = point (S k) s.
Proof.
  unfold point, set_point. rewrite Nat.even_succ, <-Nat.negb_even. by destruct (Nat.even k).
Qed.

Lemma point_set_pred k r s : point k (set_point (S k) r s) = point k s.
Proof.
  unfold point, set_point. rewrite Nat.even_succ, <-Nat.negb_even. by destruct (Nat.even k).
Qed.

Lemma rpcs_set_point k r s : rpcs (set_point k r s) = rpcs s.
Proof. unfold set_point. by destruct (Nat.even k). Qed.

Lemma point_goto t p k s : point k (goto t p s) = point k s.
Proof. done. Qed.

Lemma around_ext k s s' p :
  (∀ k', k = S k' → cond (point k' s) = true → cond (point k' s') = true) →
  around k s p → around k s' p.
Proof. intros Hc [->|[->|(k' & -> & -> & H)]]; [by left|by right; left|]. right; right. eauto. Qed.

Lemma size_goto s t p q : rpcs s !! t = Some q → base.size (<[t := p]> (rpcs s)) = base.size (rpcs s).
Proof. intros Ht. by rewrite map_size_insert_Some by eauto. Qed.

Lemma join_gathering j r :
  gathering j r → j < n →
  ∃ r', rendezvous_join r = (r', if decide (S j = n) then SetCond else Spin) ∧
    rmax r' = Z.of_nat n ∧ cond r' = false ∧
    (if decide (S j = n) then reset r' = true else gathering (S j) r').
Proof.
  intros Hg Hj. unfold rendezvous_join. unfold gathering in *. case_decide as Hz.
  - subst. destruct (decide (1 = n)); [lia|]. destruct Hg as [Hm [[Hr Hc]|(Hr & Hc & H0)]]; rewrite Hr; simpl.
    + eexists. split; [done|]. simpl. by split_and!.
    + rewrite H0, Hm. change (u32 (0 + 1)) with 1%Z.
      rewrite (proj2 (Z.eqb_neq _ _)) by lia. eexists. split; [done|].
      simpl. by split_and!.
  - destruct Hg as (Hm & Hr & Hc & H0). rewrite Hr, Hm, H0. simpl.
    rewrite u32_small by lia. case_decide as Hjn.
    + rewrite (proj2 (Z.eqb_eq _ _)) by lia. eexists. by split.
    + rewrite (proj2 (Z.eqb_neq _ _)) by lia. eexists. split; [done|]. simpl.
      split_and!; [done..|lia].
Qed.

Lemma join_inv s t k r e :
  rinv s → rpcs s !! t = Some (Out k) → rendezvous_join (point k s) = (r, e) →
  rinv (goto t (match e with SetCond => Setting k | Spin => Spinning k end)
          (set_point k r s)).
Proof.
  intros [k0 Hsz Hp Hrd Hg Hlt|k0 u Hsz Hu Ho _ _ _ _] Ht Hj.
  2:{ destruct (decide (t = u)) as [->|Hne]; [congruence|]. by pose proof (Ho _ _ Hne Ht). }
  assert (k0 = k) as ->.
  { destruct (Hp _ _ Ht) as [[= ->]|[[=]|(? & _ & [=] & _)]]. done. }
  destruct (join_gathering _ _ Hg Hlt) as (r' & Hj' & Hm & Hc & Hend).
  rewrite Hj in Hj'. injection Hj' as -> ->.
  case_decide as Hjn.
  - apply (inv_release _ k t); simpl; rewrite ?rpcs_set_point.
    + by erewrite size_goto.
    + apply lookup_insert_eq.
    + intros u p Hu. rewrite lookup_insert_ne by done.
      eapply (in_pc_others (Spinning k) (Out k) t); [congruence|done|done|done].
    + rewrite (point_goto t _ (S k)), point_set_S. done.
    + by rewrite point_goto, point_set_eq.
    + by rewrite point_goto, point_set_eq.
    + by rewrite point_goto, point_set_eq.
  - pose proof (in_pc_insert (Spinning k) (Out k) (Spinning k) t _ Ht) as Hcnt.
    rewrite decide_False, decide_True in Hcnt by done.
    apply (inv_gather _ k); simpl; rewrite ?rpcs_set_point.
    + by erewrite size_goto.
    + intros u p. destruct (decide (t = u)) as [->|Hne].
      * rewrite lookup_insert_eq. intros [= <-]. right; by left.
      * rewrite lookup_insert_ne by done. intros Hu.
        eapply around_ext; [|by eapply Hp].
        intros k' ->. by rewrite point_goto, point_set_pred.
    + rewrite (point_goto t _ (S k)), point_set_S. done.
    + rewrite point_goto, point_set_eq.
      by replace (in_pc _ _) with (S (in_pc (Spinning k) (rpcs s))) by lia.
    + lia.
Qed.

Lemma release_inv s t k :
  rinv s → rpcs s !! t = Some (Setting k) →
  rinv (goto t (Out (S k)) (set_point k (set_cond (point k s)) s)).
Proof.
  intros [k0 Hsz Hp _ _ _|k0 u Hsz Hu Ho Hrd Hm Hr Hc] Ht.
  { destruct (Hp _ _ Ht) as [[=]|[[=]|(? & _ & [=] & _)]]. }
  assert (t = u) as ->.
  { destruct (decide (t = u)) as [|Hne]; [done|]. by pose proof (Ho _ _ Hne Ht). }
  assert (k0 = k) as -> by congruence.
  assert (in_pc (Spinning (S k)) (<[u := Out (S k)]> (rpcs s)) = 0) as Hz.
  { apply in_pc_zero. intros v. destruct (decide (u = v)) as [->|Hne].
    - by rewrite lookup_insert_eq.
    - rewrite lookup_insert_ne by done. intros Hv.
      pose proof (Ho _ _ (not_eq_sym Hne) Hv) as [= Hk]. lia. }
  apply (inv_gather _ (S k)); simpl; rewrite ?rpcs_set_point, ?Hz.
  - by erewrite size_goto.
  - intros v p. destruct (decide (u = v)) as [->|Hne].
    + rewrite lookup_insert_eq. intros [= <-]. by left.
    + rewrite lookup_insert_ne by done. intros Hv.
      rewrite (Ho _ _ (not_eq_sym Hne) Hv). right; right. exists k. split_and!; [done..|].
      by rewrite point_goto, point_set_eq.
  - rewrite (point_goto u _ (S (S k))), point_SS, point_set_eq. split; [done|]. by left.
  - unfold gathering. rewrite decide_True by done.
    by rewrite (point_goto u _ (S k)), point_set_S.
  - lia.
Qed.

Lemma pass_inv s t k :
  rinv s → rpcs s !! t = Some (Spinning k) → cond (point k s) = true →
  rinv (goto t (Out (S k)) s).
Proof.
  intros [k0 Hsz Hp Hrd Hg Hlt|k0 u Hsz Hu Ho _ _ _ Hf] Ht Hc.
  2:{ destruct (decide (t = u)) as [->|Hne]; [congruence|].
      pose proof (Ho _ _ Hne Ht) as [= ->]. congruence. }
  destruct (Hp _ _ Ht) as [[=]|[[= ->]|(k' & -> & [= ->] & _)]].
  { pose proof (in_pc_pos _ _ _ Ht). unfold gathering in Hg.
    rewrite decide_False in Hg by lia. destruct Hg as (_ & _ & Hcf & _). congruence. }
  pose proof (in_pc_insert (Out (S k')) (Spinning k') (Spinning (S k')) t _ Ht) as Hcnt.
  rewrite !decide_False in Hcnt by (first [done|intros [= H]; lia]).
  apply (inv_gather _ (S k')); simpl.
  - by erewrite size_goto.
  - intros u p. destruct (decide (t = u)) as [->|Hne].
    + rewrite lookup_insert_eq. intros [= <-]. by left.
    + rewrite lookup_insert_ne by done. intros Hu. eapply around_ext; [|by eapply Hp]. done.
  - done.
  - by replace (in_pc _ _) with (in_pc (Spinning (S k')) (rpcs s)) by lia.
  - lia.
Qed.

Lemma rinv_init : rinv (rsys_init n).
Proof.
  apply (inv_gather _ 0); simpl.
  - apply all_at_size.
  - intros t p ->%all_at_lookup. by left.
  - split; [done|]. by right.
  - rewrite in_pc_zero by (intros t Ht%all_at_lookup; done).
    split; [done|]. by right.
  - rewrite in_pc_zero by (intros t Ht%all_at_lookup; done). lia.
Qed.

Lemma rsys_reachable_inv s : rsys_reachable n s → rinv s.
Proof.
  intros Hr. pose proof rinv_init as Hi. unfold rsys_reachable in Hr.
  induction Hr as [|s1 s2 s3 H12 _ IH]; [done|]. apply IH.
  destruct H12; [by eapply join_inv|by apply release_inv|by apply pass_inv].
Qed.
End barrier.

Lemma around_joins k s p q : around k s p → around k s q → left_joins p ≤ entered_joins q.
Proof.
  intros [->|[->|(k' & Hk & -> & _)]] [->|[->|(k'' & Hk' & -> & _)]]; simpl; lia.
Qed.
Lemma in_pc_not_all {A} `{!EqDecision A} (p : A) m :
  in_pc p m < base.size m → ∃ t q, m !! t = Some q ∧ q ≠ p.
Proof.
  intros Hlt. destruct (decide (map_Forall (λ _ q, q = p) m)) as [Hf|Hf].
  - unfold in_pc in Hlt. rewrite map_filter_id in Hlt; [lia|]. intros t q Hq. simpl. by apply (Hf t).
  - apply map_not_Forall in Hf as (t & q & Hq & Hne); [eauto|apply _].
Qed.

(** ** A join of one CPU *)

(** [m] does what [m'] does, or stops at a deadlock that [P] explains. *)
Definition stuck_or {S A} (P : Prop) (m m' : M S A) : Prop :=
  ∀ s, (m s = Deadlock ∧ P) ∨ m s = m' s.

Lemma stuck_refl {S A} P (m : M S A) : stuck_or P m m.
Proof. by right. Qed.

Lemma stuck_bind {S A B} P (m m' : M S A) (f f' : A → M S B) :
  stuck_or P m m' → (∀ a, stuck_or P (f a) (f' a)) → stuck_or P (m ≫= f) (m' ≫= f').
Proof.
  intros Hm Hf s. unfold mbind, M_bind. destruct (Hm s) as [[-> HP]| ->]; [by left|].
  destruct (m' s) as [[a s']| | |]; [apply Hf|by right..].
Qed.

Lemma stuck_zoom {S S' A} P (get : S → S') put (m m' : M S' A) :
  stuck_or P m m' → stuck_or P (zoom get put m) (zoom get put m').
Proof. intros Hm s. unfold zoom. destruct (Hm (get s)) as [[-> HP]| ->]; [by left|by right]. Qed.

Lemma stuck_if {S A} P (b : bool) (m m' n n' : M S A) :
  stuck_or P m m' → stuck_or P n n' → stuck_or P (if b then m else n) (if b then m' else n').
Proof. by destruct b. Qed.

Lemma ex_point_set w r x : ex_point w (set_ex_point w r x) = r.
Proof. by destruct w. Qed.

(** The other CPUs do the same, but the spin always ends. *)
Definition in_the_end released (w : which) (x : excl_t) : option excl_t :=
  match released w x with
  | Some x' => if cond (ex_point w x') then Some x' else Some (set_ex_point w (set_cond rend_zero) x)
  | None => Some (set_ex_point w (set_cond rend_zero) x)
  end.

Lemma in_the_end_ends released w x : spin_ends (in_the_end released) w x.
Proof.
  unfold spin_ends, in_the_end. destruct (released w x) as [x'|].
  - destruct (cond _) eqn:Hc; [by exists x'|]. eexists. split; [done|]. by rewrite ex_point_set.
  - eexists. split; [done|]. by rewrite ex_point_set.
Qed.

Lemma join_stuck meanwhile released w :
  stuck_or (∃ w x, ¬ spin_ends released w x)
    (join_point meanwhile released w) (join_point meanwhile (in_the_end released) w).
Proof.
  unfold join_point. do 3 (apply stuck_bind; [apply stuck_refl|intros ?]).
  destruct (rendezvous_join _).2; [apply stuck_refl|]. intros x. unfold in_the_end.
  destruct (released w x) as [x'|] eqn:Hr; [destruct (cond (ex_point w x')) eqn:Hc|].
  - right. by rewrite Hc.
  - left. split; [done|]. exists w, x. intros (x2 & H1 & H2). congruence.
  - left. split; [done|]. exists w, x. intros (x2 & H1 & H2). congruence.
Qed.

(** Both sides have the same shape. *)
Ltac stuck_tac :=
  repeat first
    [ apply stuck_refl
    | apply join_stuck
    | apply stuck_bind; [|intros ?]
    | apply stuck_if
    | apply stuck_zoom ].

Lemma wp_join_point meanwhile released w (Q : unit → excl_t → Prop) x :
  (∀ w x, spin_ends released w x) → (∀ x', Q tt x') → wp (join_point meanwhile released w) Q x.
Proof.
  intros He HQ. apply wp_bind, wp_modify, wp_bind, wp_gets, wp_bind, wp_modify.
  destruct (rendezvous_join _).2; [by apply wp_modify|]. unfold wp.
  destruct (He w (set_ex_point w (rendezvous_join (ex_point w (meanwhile w x))).1 (meanwhile w x)))
    as (x' & -> & ->). apply HQ.
Qed.

(** ** Properties *)

(** C26: the two rendezvous points used in turn are a barrier: no CPU leaves its
    k-th join before every CPU has entered its k-th join, for any number of
    rounds and any interleaving. *)
Theorem rendezvous_barrier n s t u p q :
  2 ≤ n → (Z.of_nat n < 2 ^ 32)%Z → rsys_reachable n s →
  rpcs s !! t = Some p → rpcs s !! u = Some q → left_joins p ≤ entered_joins q.
Proof.
  intros Hn Hw Hr Ht Hu.
  destruct (rsys_reachable_inv n Hn Hw s Hr) as [k _ Hp _ _ _|k v _ Hv Ho _ _ _ _].
  - by eapply around_joins; eapply Hp.
  - assert (∀ w r, rpcs s !! w = Some r → left_joins r = k ∧ entered_joins r = S k) as Hk.
    { intros w r Hw'. destruct (decide (w = v)) as [->|Hne].
      - rewrite Hv in Hw'. by injection Hw' as <-.
      - by rewrite (Ho _ _ Hne Hw'). }
    destruct (Hk _ _ Ht), (Hk _ _ Hu). lia.
Qed.

Lemma rendezvous_barrier_witness :
  let s := goto 0 (Spinning 0) (set_point 0 (Rend false 1 2 false) (rsys_init 2)) in
  rpcs s !! 0 = Some (Spinning 0) ∧ rpcs s !! 1 = Some (Out 0) ∧
  left_joins (Spinning 0) ≤ entered_joins (Out 0).
Proof.
  intros s. split; [reflexivity|]. split; [reflexivity|].
  apply (rendezvous_barrier 2 s 0 1); [lia|lia| |reflexivity|reflexivity].
  eapply rt1n_trans, rt1n_refl.
  apply (step_join (rsys_init 2) 0 0 (Rend false 1 2 false) Spin); reflexivity.
Defined.

(** CPUs that keep joining are never stuck: in every reachable state of two
    or more CPUs some CPU can move. *)
Theorem rendezvous_progress n s :
  2 ≤ n → (Z.of_nat n < 2 ^ 32)%Z → rsys_reachable n s → ∃ s', rstep s s'.
Proof.
  intros Hn Hw Hr.
  destruct (rsys_reachable_inv n Hn Hw s Hr) as [k Hsz Hp _ _ Hlt|k v _ Hv _ _ _ _ _].
  - rewrite <-Hsz in Hlt. destruct (in_pc_not_all _ _ Hlt) as (t & q & Ht & Hq).
    destruct (Hp _ _ Ht) as [->|[->|(k' & -> & -> & Hc)]]; [|done|].
    + destruct (rendezvous_join (point k s)) as [r e] eqn:Hj. eexists. by eapply step_join.
    + eexists. by eapply step_pass.
  - eexists. by eapply step_set.
Qed.

Lemma rendezvous_progress_witness : ∃ s', rstep (rsys_init 2) s'.
Proof. apply (rendezvous_progress 2); [lia|lia|apply rt1n_refl]. Defined.

(** The run of a single CPU through both points and into the first again. *)
Definition single_stuck : rsys :=
  RSys (Rend false 1 1 false) (Rend true 1 1 true) {[ 0 := Spinning 2 ]}.

(** With a single CPU the third join never returns: the branch that resets
    a point always spins, although the one CPU is all there is to wait for. *)
Theorem rendezvous_single_cpu_stuck :
  rsys_reachable 1 single_stuck ∧ ∀ s', ¬ rstep single_stuck s'.
Proof.
  split.
  - do 4 (eapply rt1n_trans; [first
      [ by eapply (step_join _ 0); [vm_compute; reflexivity|vm_compute; reflexivity]
      | by eapply (step_set _ 0); vm_compute; reflexivity]|]).
    eapply rt1n_trans; [by eapply (step_join _ 0); [vm_compute; reflexivity|vm_compute; reflexivity]|].
    exact (rt1n_refl _ _ single_stuck).
  - assert (∀ t p, rpcs single_stuck !! t = Some p → p = Spinning 2) as Hp.
    { intros t p. simpl. by intros [_ <-]%lookup_singleton_Some. }
    intros s' Hs. remember single_stuck as s eqn:E.
    destruct Hs as [s t k r e Ht _|s t k Ht|s t k Ht Hc]; subst;
      apply Hp in Ht as [=]. by subst.
Qed.

(** While no point has been initialised the CPUs that have joined spin at the
    first one. *)
Record boot_inv (n : nat) (s : rsys) : Prop := {
  bi_size : base.size (rpcs s) = n;
  bi_pcs t p : rpcs s !! t = Some p → p = Out 0 ∨ p = Spinning 0;
  bi_first : first s = Rend false (Z.of_nat (in_pc (Spinning 0) (rpcs s))) 0 false;
}.

Lemma boot_inv_step n s s' : (Z.of_nat n < 2 ^ 32)%Z → boot_inv n s → rstep s s' → boot_inv n s'.
Proof.
  intros Hw [Hsz Hpc Hf] Hst. destruct Hst as [s t k r e Ht Hj|s t k Ht|s t k Ht Hc].
  - destruct (Hpc _ _ Ht) as [[= ->]|[=]]. unfold point in Hj. simpl in Hj.
    rewrite Hf in Hj. unfold rendezvous_join in Hj. cbn [reset rcount rmax cond negb] in Hj.
    pose proof (in_pc_insert (Spinning 0) (Out 0) (Spinning 0) t _ Ht) as Hcnt.
    rewrite decide_False, decide_True in Hcnt by done.
    assert (in_pc (Spinning 0) (<[t := Spinning 0]> (rpcs s)) ≤ n) as Hle.
    { rewrite <-Hsz, <-(size_goto s t (Spinning 0) (Out 0) Ht). unfold in_pc.
      apply map_subseteq_size, map_filter_subseteq. }
    rewrite u32_small in Hj by lia. rewrite (proj2 (Z.eqb_neq 0 _)) in Hj by lia.
    injection Hj as <- <-. split; simpl.
    + by erewrite size_goto.
    + intros u p. destruct (decide (t = u)) as [->|Hne].
      * rewrite lookup_insert_eq. intros [= <-]. by right.
      * rewrite lookup_insert_ne by done. apply Hpc.
    + f_equal. lia.
  - by destruct (Hpc _ _ Ht).
  - destruct (Hpc _ _ Ht) as [|[= ->]]; [done|]. unfold point in Hc. simpl in Hc.
    by rewrite Hf in Hc.
Qed.

(** C30: nothing calls [rendezvous_init], and a point whose [max] is still zero never
    opens: however the CPUs are interleaved, none of them ever leaves its
    first join. *)
Theorem rendezvous_uninitialised_never_opens n s t p :
  (Z.of_nat n < 2 ^ 32)%Z → clos_refl_trans_1n _ rstep (rsys_boot n) s → rpcs s !! t = Some p →
  left_joins p = 0 ∧ (p = Out 0 ∨ p = Spinning 0 ∧ cond (first s) = false).
Proof.
  intros Hw Hr Ht. assert (boot_inv n s) as [_ Hpc Hf].
  { assert (boot_inv n (rsys_boot n)) as Hi.
    { split; simpl.
      - apply all_at_size.
      - intros u q ->%all_at_lookup. by left.
      - rewrite in_pc_zero; [done|]. by intros u Hu%all_at_lookup. }
    induction Hr as [|s1 s2 s3 H12 _ IH]; [done|]. apply IH; [done|]. by eapply boot_inv_step. }
  rewrite Hf. destruct (Hpc _ _ Ht) as [-> | ->]; auto.
Qed.

Lemma rendezvous_uninitialised_never_opens_witness :
  let s := goto 0 (Spinning 0) (set_point 0 (Rend false 1 0 false) (rsys_boot 2)) in
  rpcs s !! 0 = Some (Spinning 0) ∧ left_joins (Spinning 0) = 0.
Proof.
  intros s. split; [reflexivity|].
  apply (rendezvous_uninitialised_never_opens 2 s 0 (Spinning 0)); [lia| |reflexivity].
  eapply rt1n_trans, rt1n_refl.
  apply (step_join (rsys_boot 2) 0 0 (Rend false 1 0 false) Spin); reflexivity.
Defined.

(** Exclusion goes to one CPU.  When the CPUs have made their requests
    (-1 for none), either nobody asked and every CPU passes the check, or the
    first CPU that asked passes it and no other does. *)
Theorem exclusion_unique reqs x :
  ex_var x = (-1)%Z →
  match list_find (λ c, c ≠ (-1)%Z) reqs with
  | Some (_, c) => ∀ cpu, cpu ≠ (-1)%Z → check_exclusion cpu (exclusion_round reqs x) = true ↔ cpu = c
  | None => ∀ cpu, check_exclusion cpu (exclusion_round reqs x) = true
  end.
Proof.
  assert (∀ c l x, ex_var x = c → c ≠ (-1)%Z → ex_var (exclusion_round l x) = c) as Hkeep.
  { intros c l. induction l as [|d l IH]; [done|]. intros y Hy Hc. apply IH; [|done].
    simpl. rewrite Hy. unfold set_write.
    rewrite (proj2 (Z.eqb_neq (-1) c)) by done. by destruct (negb _). }
  unfold exclusion_round in *. revert x. induction reqs as [|d reqs IH]; intros x Hx; simpl.
  { intros cpu. unfold check_exclusion. rewrite Hx. apply orb_true_r. }
  destruct (decide (d ≠ (-1)%Z)) as [Hd|Hd].
  - intros cpu Hcpu. unfold check_exclusion. rewrite (Hkeep d).
    + lia.
    + simpl. rewrite Hx. unfold set_write. by rewrite (proj2 (Z.eqb_neq (-1) d)) by done.
    + done.
  - assert (d = -1)%Z as -> by lia. specialize (IH (set_ex_var (set_write (-1)) x) Hx).
    destruct (list_find _ reqs) as [[i c]|]; exact IH.
Qed.

Lemma exclusion_unique_witness :
  check_exclusion 3 (exclusion_round [(-1); 3; 4]%Z (Excl rend_zero rend_zero (-1))) = true.
Proof. apply (exclusion_unique [(-1); 3; 4]%Z (Excl rend_zero rend_zero (-1)) eq_refl); [lia|reflexivity]. Defined.
