(* ===== verification/Scheduler.v ===== *)
(** * The per-processor scheduler (src/sched/scheduler.c)

    Every processor has two priority heaps of runnable threads, those that
    still have time in the current epoch and those that used theirs up, and
    one affinity heap of all its threads.  The state holds the schedulers of
    all processors, since removing a thread lets a processor steal a thread
    from the one with the highest load ([rebalance_load] and its helpers of
    src/sched/thread_sched.c).

    The configuration is that of the makefiles: MULTITHREAD and
    SCHED_SPECIAL_MODES. *)

From S2P Require Import Prelude Thread SiftHeap ThreadHeaps Rendezvous.
#[local] Open Scope Z_scope.

Definition PRIORITY_BOOST : Z := 5.
Definition HOLDING_EXCLUSION : Z := 1.
Definition EXCLUDED : Z := 2.
Definition LOAD_DIFF_TOLERANCE : Z := 0.

(** [scheduler_t].  The two priority queues are pointers in the program; they
    are only ever exchanged. *)
Record scheduler_t := Scheduler {
  running_queue : heap_t;
  finished_queue : heap_t;
  running_count : Z;
  total_count : Z;
  affinity_queue : heap_t;
  affinity_count : Z;
  sc_cpu_id : Z;
  sc_mutex : bool;
  sc_flags : Z;
  current_remaining : Z;
  current_thread : ptr;
  sc_epoch : Z;
}.

Definition set_running_queue v c := Scheduler v (finished_queue c) (running_count c) (total_count c)
  (affinity_queue c) (affinity_count c) (sc_cpu_id c) (sc_mutex c) (sc_flags c) (current_remaining c)
  (current_thread c) (sc_epoch c).
Definition set_finished_queue v c := Scheduler (running_queue c) v (running_count c) (total_count c)
  (affinity_queue c) (affinity_count c) (sc_cpu_id c) (sc_mutex c) (sc_flags c) (current_remaining c)
  (current_thread c) (sc_epoch c).
Definition set_running_count v c := Scheduler (running_queue c) (finished_queue c) v (total_count c)
  (affinity_queue c) (affinity_count c) (sc_cpu_id c) (sc_mutex c) (sc_flags c) (current_remaining c)
  (current_thread c) (sc_epoch c).
Definition set_total_count v c := Scheduler (running_queue c) (finished_queue c) (running_count c) v
  (affinity_queue c) (affinity_count c) (sc_cpu_id c) (sc_mutex c) (sc_flags c) (current_remaining c)
  (current_thread c) (sc_epoch c).
Definition set_affinity_queue v c := Scheduler (running_queue c) (finished_queue c) (running_count c)
  (total_count c) v (affinity_count c) (sc_cpu_id c) (sc_mutex c) (sc_flags c) (current_remaining c)
  (current_thread c) (sc_epoch c).
Definition set_affinity_count v c := Scheduler (running_queue c) (finished_queue c) (running_count c)
  (total_count c) (affinity_queue c) v (sc_cpu_id c) (sc_mutex c) (sc_flags c) (current_remaining c)
  (current_thread c) (sc_epoch c).
Definition set_sc_mutex v c := Scheduler (running_queue c) (finished_queue c) (running_count c)
  (total_count c) (affinity_queue c) (affinity_count c) (sc_cpu_id c) v (sc_flags c)
  (current_remaining c) (current_thread c) (sc_epoch c).
Definition set_sc_flags v c := Scheduler (running_queue c) (finished_queue c) (running_count c)
  (total_count c) (affinity_queue c) (affinity_count c) (sc_cpu_id c) (sc_mutex c) v
  (current_remaining c) (current_thread c) (sc_epoch c).
Definition set_current_remaining v c := Scheduler (running_queue c) (finished_queue c)
  (running_count c) (total_count c) (affinity_queue c) (affinity_count c) (sc_cpu_id c) (sc_mutex c)
  (sc_flags c) v (current_thread c) (sc_epoch c).
Definition set_current_thread v c := Scheduler (running_queue c) (finished_queue c)
  (running_count c) (total_count c) (affinity_queue c) (affinity_count c) (sc_cpu_id c) (sc_mutex c)
  (sc_flags c) (current_remaining c) v (sc_epoch c).
Definition set_sc_epoch v c := Scheduler (running_queue c) (finished_queue c)
  (running_count c) (total_count c) (affinity_queue c) (affinity_count c) (sc_cpu_id c) (sc_mutex c)
  (sc_flags c) (current_remaining c) (current_thread c) v.

(** The threads, the schedulers, the page fault counters of the processors, the
    processor that runs, the global epoch, the variables of exclusion.c, and the
    kernel heap [T] behind the arrays of the queues. *)
Record sstate (T : Type) := SState {
  s_threads : gmap ptr thread_t;
  schedulers : list scheduler_t;
  page_faults : list Z;
  this_cpu : nat;
  global_epoch : Z;
  global_epoch_mutex : bool;
  exclusion : excl_t;
  s_heap : T;
}.
Arguments SState {T}.
Arguments s_threads {T}.
Arguments schedulers {T}.
Arguments page_faults {T}.
Arguments this_cpu {T}.
Arguments global_epoch {T}.
Arguments global_epoch_mutex {T}.
Arguments exclusion {T}.
Arguments s_heap {T}.

(** The three queues of a scheduler. *)
Inductive qid := Run | Fin | Aff.
Global Instance qid_eq : EqDecision qid.
Proof. solve_decision. Defined.

Definition kind_of (q : qid) : heap_kind :=
  match q with Run | Fin => priority_kind | Aff => affinity_kind end.
Definition queue (q : qid) (c : scheduler_t) : heap_t :=
  match q with Run => running_queue c | Fin => finished_queue c | Aff => affinity_queue c end.
Definition set_queue (q : qid) (h : heap_t) (c : scheduler_t) : scheduler_t :=
  match q with
  | Run => set_running_queue h c
  | Fin => set_finished_queue h c
  | Aff => set_affinity_queue h c
  end.

Section operations.
Context {T : Type} (krealloc : ptr → Z → Z → Z → M T (ptr * Z)).

(** What the other processors do to the exclusion variables around a join of a
    rendezvous point. *)
Context (meanwhile : which → excl_t → excl_t) (released : which → excl_t → option excl_t).

Implicit Types s : sstate T.

Definition set_s_threads m s := SState m (schedulers s) (page_faults s) (this_cpu s)
  (global_epoch s) (global_epoch_mutex s) (exclusion s) (s_heap s).
Definition set_schedulers l s := SState (s_threads s) l (page_faults s) (this_cpu s)
  (global_epoch s) (global_epoch_mutex s) (exclusion s) (s_heap s).
Definition set_page_faults l s := SState (s_threads s) (schedulers s) l (this_cpu s)
  (global_epoch s) (global_epoch_mutex s) (exclusion s) (s_heap s).
Definition set_global_epoch n s := SState (s_threads s) (schedulers s) (page_faults s)
  (this_cpu s) n (global_epoch_mutex s) (exclusion s) (s_heap s).
Definition set_global_epoch_mutex b s := SState (s_threads s) (schedulers s) (page_faults s)
  (this_cpu s) (global_epoch s) b (exclusion s) (s_heap s).
Definition set_exclusion_vars e s := SState (s_threads s) (schedulers s) (page_faults s)
  (this_cpu s) (global_epoch s) (global_epoch_mutex s) e (s_heap s).
Definition set_s_heap (t : T) s := SState (s_threads s) (schedulers s) (page_faults s) (this_cpu s)
  (global_epoch s) (global_epoch_mutex s) (exclusion s) t.

(** *** Access to schedulers and threads *)

Definition get_sched {A} (i : nat) (f : scheduler_t → A) : M (sstate T) A :=
  getopt (λ s, f <$> schedulers s !! i).
Definition upd_sched (i : nat) (f : scheduler_t → scheduler_t) : M (sstate T) unit :=
  putopt (λ s, match schedulers s !! i with
               | Some c => Some (set_schedulers (<[i := f c]> (schedulers s)) s)
               | None => None
               end).
Definition get_thread {A} (p : ptr) (f : thread_t → A) : M (sstate T) A :=
  getopt (λ s, f <$> s_threads s !! p).
Definition upd_thread (p : ptr) (f : thread_t → thread_t) : M (sstate T) unit :=
  putopt (λ s, match s_threads s !! p with
               | Some t => Some (set_s_threads (<[p := f t]> (s_threads s)) s)
               | None => None
               end).

(** A heap operation on a queue of scheduler [i]. *)
Definition on_queue {A} (i : nat) (q : qid) (m : M hstate A) : M (sstate T) A :=
  c ← getopt (λ s, schedulers s !! i);
  zoom (λ s, HState (s_threads s) (queue q c))
       (λ h s, set_schedulers (<[i := set_queue q (heap h) c]> (schedulers s))
                 (set_s_threads (threads h) s)) m.

Definition grow_queue (i : nat) (q : qid) (n : Z) : M (sstate T) unit :=
  c ← getopt (λ s, schedulers s !! i);
  zoom (λ s, (queue q c, s_heap s))
       (λ ht s, set_schedulers (<[i := set_queue q ht.1 c]> (schedulers s)) (set_s_heap ht.2 s))
       (heap_grow krealloc n).

(** [sched->queue->data_name[j]], as in the tests of [delete_from_queue]. *)
Definition queue_elt (i : nat) (q : qid) (j : nat) : M (sstate T) ptr :=
  getopt (λ s, c ← schedulers s !! i; data_name (queue q c) !! j).

Definition cpu_page_faults : M (sstate T) Z := getopt (λ s, page_faults s !! this_cpu s).
Definition cpu_clear_page_faults : M (sstate T) unit :=
  putopt (λ s, match page_faults s !! this_cpu s with
               | Some _ => Some (set_page_faults (<[this_cpu s := 0]> (page_faults s)) s)
               | None => None
               end).

(** [spin_lock(schedulers[i].mutex)]: waiting for a lock that is never given
    back is a deadlock. *)
Definition sched_lock (i : nat) : M (sstate T) unit :=
  held ← get_sched i sc_mutex;
  lock (λ _, held) (λ _ s, s);;
  upd_sched i (set_sc_mutex true).
Definition sched_unlock (i : nat) : M (sstate T) unit := upd_sched i (set_sc_mutex false).

Definition RUNNABLE_STATE (x : Z) : bool := Z.land x (u32 (Z.lnot 7)) =? 0.

(** *** thread_sched.c: the global epoch and the loads *)

Definition update_epoch (n : Z) : M (sstate T) Z :=
  lock global_epoch_mutex set_global_epoch_mutex;;
  g ← gets global_epoch;
  (if g <? n then modify (set_global_epoch n) else mret tt);;
  unlock set_global_epoch_mutex;;
  gets global_epoch.

(** One round of the search for the extremal load; [better] compares the best
    count so far with the new one. *)
Definition load_step (better : Z → Z → bool) (best : Z * Z) (i : Z) : M (sstate T) (Z * Z) :=
  sched_lock (Z.to_nat i);;
  n ← get_sched (Z.to_nat i) total_count;
  sched_unlock (Z.to_nat i);;
  let '(arg, count) := best in
  mret (if better count n then (i, n) else (arg, count)).

Fixpoint load_loop (better : Z → Z → bool) (fuel : nat) (i : Z) (best : Z * Z) :
    M (sstate T) (Z * Z) :=
  match fuel with
  | O => mret best
  | S f => best ← load_step better best i; load_loop better f (i + 1) best
  end.

Definition extremal_load (better : Z → Z → bool) : M (sstate T) Z :=
  cpu_num ← gets (λ s, length (schedulers s));
  sched_lock 0;;
  n ← get_sched 0 total_count;
  sched_unlock 0;;
  best ← load_loop better (cpu_num - 1) 1 (0, n);
  mret best.1.

Definition lowest_load : M (sstate T) Z := extremal_load (λ best n, n <? best).
Definition highest_load : M (sstate T) Z := extremal_load (λ best n, best <? n).

(** *** Taking threads out of the queues *)

(** [sched->running_queue->size >= thread->priority_heap_pos &&
    sched->running_queue->data_name[thread->priority_heap_pos - 1] == thread] *)
Definition in_running_queue (i : nat) (thread : ptr) : M (sstate T) bool :=
  n ← get_sched i (λ c, size (running_queue c));
  pos ← get_thread thread priority_heap_pos;
  if (pos <=? n)%nat then
    if (pos =? 0)%nat then fault
    else e ← queue_elt i Run (pos - 1); mret (e =? thread)
  else mret false.

Definition delete_from_queue (i : nat) (thread : ptr) : M (sstate T) unit :=
  here ← in_running_queue i thread;
  pos ← get_thread thread priority_heap_pos;
  on_queue i (if (here : bool) then Run else Fin) (priority_heap_delete pos);;
  apos ← get_thread thread affinity_heap_pos;
  on_queue i Aff (affinity_heap_delete apos);;
  mret tt.

(** The second and third element of the affinity queue: the one with the lower
    affinity. *)
Definition second_lowest (i : nat) : M (sstate T) ptr :=
  a ← queue_elt i Aff 1;
  b ← queue_elt i Aff 2;
  ka ← get_thread a affinity;
  kb ← get_thread b affinity;
  if ka <? kb then queue_elt i Aff 1 else queue_elt i Aff 2.

Definition get_lowest_affinity (i : nat) : M (sstate T) ptr :=
  out ← on_queue i Aff affinity_heap_head;
  if negb (out =? NULL) then
    cur ← get_sched i current_thread;
    if cur =? out then
      n ← get_sched i (λ c, size (affinity_queue c));
      if (n =? 1)%nat then mret NULL
      else if (n =? 2)%nat then
        out ← queue_elt i Aff 1;
        delete_from_queue i out;;
        mret out
      else
        out ← second_lowest i;
        delete_from_queue i out;;
        mret out
    else
      delete_from_queue i out;;
      mret out
  else mret out.

Definition sched_eschew_thread (i : nat) : M (sstate T) ptr :=
  out ← get_lowest_affinity i;
  (if negb (out =? NULL) then
     r ← get_thread out (λ t, remaining (stat t));
     upd_sched i (λ c, set_total_count (s32 (total_count c - r)) c);;
     e ← get_sched i sc_epoch;
     upd_thread out (set_epoch e)
   else mret tt);;
  mret out.

(** *** Putting threads into the queues *)

Definition sched_reassign_thread (i : nat) (thread : ptr) : M (sstate T) unit :=
  id ← get_sched i sc_cpu_id;
  tid ← get_thread thread cpu_id;
  (if negb (tid =? id) then
     upd_thread thread (set_cpu_id id);;
     upd_thread thread (set_affinity 0)
   else mret tt);;
  on_queue i Aff (affinity_heap_insert thread);;
  r ← get_thread thread (λ t, remaining (stat t));
  upd_sched i (λ c, set_total_count (s32 (total_count c + r)) c);;
  on_queue i Run (priority_heap_insert thread);;
  e ← get_sched i sc_epoch;
  upd_thread thread (set_epoch e).

(** [rebalance_load] of thread_sched.c: entered and left with the lock on
    [schedulers[sched]]. *)
Definition rebalance_load (sched : nat) : M (sstate T) unit :=
  load_diff ← get_sched sched total_count;
  sched_unlock sched;;
  max ← highest_load;
  if negb (max =? Z.of_nat sched) then
    n ← get_sched (Z.to_nat max) total_count;
    let load_diff := s32 (n - load_diff) in
    if LOAD_DIFF_TOLERANCE <? load_diff then
      sched_lock (Z.to_nat max);;
      thread ← sched_eschew_thread (Z.to_nat max);
      sched_unlock (Z.to_nat max);;
      if negb (thread =? NULL) then
        sched_lock sched;;
        sched_reassign_thread sched thread
      else sched_lock sched
    else sched_lock sched
  else sched_lock sched.


(** ** scheduler.c *)

Definition sched_static_init (id : Z) (c : scheduler_t) : scheduler_t :=
  set_total_count 0 (set_running_count 0 (set_current_thread NULL (set_sc_epoch 0
    (set_affinity_count 0 (Scheduler (running_queue c) (finished_queue c) (running_count c)
      (total_count c) (affinity_queue c) (affinity_count c) id (sc_mutex c) (sc_flags c)
      (current_remaining c) (current_thread c) (sc_epoch c)))))).

(** The three queues of 20 threads, allocated in this order. *)
Definition sched_dynamic_init (kmal : Z → M T ptr) (kern_mal : Z → Z → M T (ptr * Z)) (i : nat) :
    M (sstate T) unit :=
  let init := zoom s_heap set_s_heap (heap_init kmal kern_mal 20) in
  h ← init; upd_sched i (set_running_queue h);;
  h ← init; upd_sched i (set_finished_queue h);;
  h ← init; upd_sched i (set_affinity_queue h).

Definition check_for_epoch (i : nat) : M (sstate T) bool :=
  n ← get_sched i (λ c, size (running_queue c));
  mret (n =? 0)%nat.

(** The current thread of a scheduler, dereferenced. *)
Definition current (i : nat) : M (sstate T) ptr := get_sched i current_thread.

Definition head_remaining (i : nat) : M (sstate T) Z :=
  h ← on_queue i Run priority_heap_head;
  get_thread h (λ t, remaining (stat t)).

Definition keep_current_thread (i : nat) : M (sstate T) unit :=
  r ← get_sched i current_remaining;
  hr ← head_remaining i;
  h ← on_queue i Run priority_heap_head;
  cur ← current i;
  if (s32 (r + PRIORITY_BOOST) <? hr) && negb (h =? cur) then
    apos ← get_thread cur affinity_heap_pos;
    pf ← cpu_page_faults;
    on_queue i Aff (affinity_heap_set_key apos pf);;
    pos ← get_thread cur priority_heap_pos;
    on_queue i Run (priority_heap_set_key pos (u32 r));;
    h ← on_queue i Run priority_heap_head;
    upd_sched i (set_current_thread h);;
    hr ← get_thread h (λ t, remaining (stat t));
    upd_sched i (set_current_remaining hr)
  else mret tt.

Definition retire_current_thread (i : nat) : M (sstate T) unit :=
  cur ← current i;
  e ← get_sched i sc_epoch;
  upd_thread cur (set_epoch (u32 (e + 1)));;
  upd_thread cur (λ t, on_stat
    (set_remaining (s32 (u32 (remaining (stat t) + soft_priority (stat t)) / 2))) t);;
  r ← get_thread cur (λ t, remaining (stat t));
  upd_sched i (λ c, set_running_count (s32 (running_count c + r)) c);;
  apos ← get_thread cur affinity_heap_pos;
  n ← get_sched i affinity_count;
  on_queue i Aff (affinity_heap_set_key apos n);;
  pos ← get_thread cur priority_heap_pos;
  on_queue i Run (priority_heap_delete pos);;
  on_queue i Fin (priority_heap_insert cur).

Definition do_epoch (i : nat) : M (sstate T) unit :=
  upd_sched i (λ c, set_running_queue (finished_queue c) (set_finished_queue (running_queue c) c));;
  e ← get_sched i sc_epoch;
  e' ← update_epoch (u32 (e + 1));
  upd_sched i (set_sc_epoch e');;
  upd_sched i (λ c, set_total_count (running_count c) c);;
  upd_sched i (set_running_count 0).

(** The page faults of the running processor are charged to the scheduler. *)
Definition charge_page_faults (i : nat) : M (sstate T) unit :=
  pf ← cpu_page_faults;
  upd_sched i (λ c, set_affinity_count (u32 (affinity_count c + pf)) c);;
  cpu_clear_page_faults.

Definition remove_current (i : nat) : M (sstate T) unit :=
  cur ← current i;
  r ← get_thread cur (λ t, remaining (stat t));
  upd_sched i (λ c, set_total_count (s32 (total_count c - r)) c);;
  e ← get_sched i sc_epoch;
  upd_thread cur (set_epoch e);;
  r ← get_sched i current_remaining;
  upd_thread cur (on_stat (set_remaining r));;
  charge_page_faults i;;
  apos ← get_thread cur affinity_heap_pos;
  on_queue i Aff (affinity_heap_delete apos);;
  pos ← get_thread cur priority_heap_pos;
  on_queue i Run (priority_heap_delete pos);;
  id ← get_sched i sc_cpu_id;
  rebalance_load (Z.to_nat id);;
  h ← on_queue i Run priority_heap_head;
  upd_sched i (set_current_thread h).

(** [current_thread->stat.status] *)
Definition current_status (i : nat) : M (sstate T) Z :=
  cur ← current i;
  get_thread cur (λ t, status (stat t)).

Definition reload_current (i : nat) : M (sstate T) unit :=
  cur ← current i;
  r ← get_thread cur (λ t, remaining (stat t));
  upd_sched i (set_current_remaining r).

Definition check_current_thread (i : nat) : M (sstate T) unit :=
  cur ← current i;
  fixed ← (if negb (cur =? NULL) then
             st ← current_status i;
             mret ((st =? SCHED_ATOMIC) || (st =? SCHED_NO_RESCHED))
           else mret false);
  if (fixed : bool) then mret tt else
  r ← get_sched i current_remaining;
  if (cur =? NULL) || (r <=? 0) then
    (if negb (cur =? NULL) then retire_current_thread i else mret tt);;
    epoch_over ← check_for_epoch i;
    (if (epoch_over : bool) then do_epoch i else mret tt);;
    h ← on_queue i Run priority_heap_head;
    upd_sched i (set_current_thread h);;
    reload_current i
  else keep_current_thread i.

Definition test_runnable (i : nat) : M (sstate T) unit :=
  cur ← current i;
  if negb (cur =? NULL) then
    st ← current_status i;
    if negb (RUNNABLE_STATE st) then
      remove_current i;;
      upd_sched i (set_current_thread NULL)
    else mret tt
  else mret tt.

(** A call of exclusion.c. *)
Definition on_excl {A} (m : M excl_t A) : M (sstate T) A := zoom exclusion set_exclusion_vars m.

Definition holding (i : nat) : M (sstate T) bool :=
  f ← get_sched i sc_flags;
  mret (negb (Z.land f HOLDING_EXCLUSION =? 0)).

Definition do_exclusion (i : nat) : M (sstate T) bool :=
  st ← current_status i;
  held ← holding i;
  if negb (st =? SCHED_ATOMIC) || held then
    (if negb (st =? SCHED_ATOMIC) && held then on_excl (clear_exclusion meanwhile released) else mret tt);;
    id ← get_sched i sc_cpu_id;
    (if negb held then
       if negb (st =? SCHED_EXCLUSIVE) && negb (st =? SCHED_ATOMIC)
       then on_excl (set_exclusion meanwhile released (-1))
       else on_excl (set_exclusion meanwhile released (s32 id))
     else mret tt);;
    e ← gets exclusion;
    if check_exclusion (s32 id) e then
      (if (st =? SCHED_EXCLUSIVE) || (st =? SCHED_ATOMIC) then
         upd_sched i (λ c, set_sc_flags (Z.lor (sc_flags c) HOLDING_EXCLUSION) c)
       else mret tt);;
      mret true
    else
      upd_sched i (λ c, set_sc_flags (Z.lor (sc_flags c) EXCLUDED) c);;
      mret false
  else mret true.

(** Going idle: the current thread keeps its time and the processor stops
    running it. *)
Definition go_idle (i : nat) : M (sstate T) ptr :=
  cur ← current i;
  r ← get_sched i current_remaining;
  upd_thread cur (on_stat (set_remaining r));;
  upd_sched i (set_current_thread NULL);;
  mret NULL.

Definition reset_counts (i : nat) : M (sstate T) unit :=
  upd_sched i (set_total_count 0);;
  upd_sched i (set_running_count 0).

Definition sched_resched (i : nat) : M (sstate T) ptr :=
  charge_page_faults i;;
  test_runnable i;;
  hr ← on_queue i Run priority_heap_head;
  hf ← on_queue i Fin priority_heap_head;
  if (hr =? NULL) && (hf =? NULL) then current i else
  cur ← current i;
  (if negb (cur =? NULL) then
     upd_sched i (λ c, set_current_remaining (s32 (current_remaining c - 1)) c)
   else mret tt);;
  check_current_thread i;;
  cur ← current i;
  (if cur =? NULL then reset_counts i else mret tt);;
  granted ← do_exclusion i;
  if (granted : bool) then current i else go_idle i.

Definition sched_remove_resched (i : nat) : M (sstate T) ptr :=
  remove_current i;;
  cur ← current i;
  (if cur =? NULL then
     hf ← on_queue i Fin priority_heap_head;
     if hf =? NULL then upd_sched i (set_current_thread NULL)
     else
       do_epoch i;;
       h ← on_queue i Run priority_heap_head;
       upd_sched i (set_current_thread h)
   else mret tt);;
  cur ← current i;
  (if negb (cur =? NULL) then reload_current i else reset_counts i);;
  id ← get_sched i sc_cpu_id;
  e ← gets exclusion;
  if check_exclusion_specific (s32 id) e then current i else go_idle i.

(** The time a thread gets back for the epochs it was away. *)
Definition restart_increase (e : Z) (t : thread_t) : Z :=
  let pow := Z.min 30 (u32 (e - epoch t)) in
  let diff := Z.max 0 (s32 (soft_priority (stat t) - remaining (stat t))) in
  u32 (diff - Z.quot diff (s32 (Z.shiftl 2 pow))).

(** The thread joins the affinity queue, which then is one longer; the priority
    queues are made as large. *)
Definition join_affinity (i : nat) (thread : ptr) (queue_size : Z) : M (sstate T) unit :=
  grow_queue i Aff queue_size;;
  on_queue i Aff (affinity_heap_insert thread).

Definition next_size (i : nat) : M (sstate T) Z :=
  get_sched i (λ c, u32 (Z.of_nat (size (affinity_queue c)) + 1)).

Definition sched_restart_thread (i : nat) (thread : ptr) : M (sstate T) unit :=
  e ← get_sched i sc_epoch;
  te ← get_thread thread epoch;
  (if te <? e then
     upd_thread thread (λ t, on_stat
       (set_remaining (s32 (remaining (stat t) + restart_increase e t))) t)
   else mret tt);;
  queue_size ← next_size i;
  id ← get_sched i sc_cpu_id;
  upd_thread thread (set_cpu_id id);;
  upd_thread thread (set_affinity 0);;
  join_affinity i thread queue_size;;
  p ← get_thread thread (λ t, soft_priority (stat t));
  upd_sched i (λ c, set_total_count (s32 (total_count c + p)) c);;
  grow_queue i Run queue_size;;
  grow_queue i Fin queue_size;;
  on_queue i Run (priority_heap_insert thread);;
  upd_thread thread (set_epoch e).

Definition sched_insert_thread (i : nat) (thread : ptr) : M (sstate T) unit :=
  p ← get_thread thread (λ t, soft_priority (stat t));
  upd_sched i (λ c, set_total_count (s32 (total_count c + p)) c);;
  upd_thread thread (on_stat (set_remaining (s32 (p / 2))));;
  queue_size ← next_size i;
  id ← get_sched i sc_cpu_id;
  upd_thread thread (set_cpu_id id);;
  upd_thread thread (set_affinity 0);;
  e ← get_sched i sc_epoch;
  upd_thread thread (set_epoch e);;
  join_affinity i thread queue_size;;
  upd_thread thread (set_epoch e);;
  grow_queue i Run queue_size;;
  grow_queue i Fin queue_size;;
  on_queue i Run (priority_heap_insert thread).

Definition sched_remove_thread (i : nat) (thread : ptr) : M (sstate T) unit :=
  r ← get_thread thread (λ t, remaining (stat t));
  upd_sched i (λ c, set_total_count (s32 (total_count c - r)) c);;
  e ← get_sched i sc_epoch;
  upd_thread thread (set_epoch e);;
  id ← get_sched i sc_cpu_id;
  tid ← get_thread thread cpu_id;
  if negb (id =? tid) then mret tt else
  cur ← current i;
  if cur =? thread then sched_remove_resched i;; mret tt
  else
    delete_from_queue i thread;;
    rebalance_load (Z.to_nat id).

Definition sched_change_remaining (i : nat) (thread : ptr) (rem : Z) : M (sstate T) unit :=
  cur ← current i;
  r ← get_thread thread (λ t, remaining (stat t));
  if negb (cur =? thread) then
    upd_sched i (λ c, set_total_count (s32 (total_count c + (rem - r))) c);;
    here ← in_running_queue i thread;
    pos ← get_thread thread priority_heap_pos;
    on_queue i (if (here : bool) then Run else Fin) (priority_heap_set_key pos rem)
  else
    upd_sched i (λ c, set_total_count (s32 (total_count c + (current_remaining c - r))) c);;
    upd_sched i (set_current_remaining (s32 rem)).

(** The end shared by the two cases of [sched_exchange_thread]. *)
Definition exchange_with (i : nat) (out thread : ptr) : M (sstate T) ptr :=
  ka ← get_thread out affinity;
  kb ← get_thread thread affinity;
  if ka <? kb then
    delete_from_queue i out;;
    sched_restart_thread i thread;;
    mret out
  else mret thread.

Definition sched_exchange_thread (i : nat) (thread : ptr) : M (sstate T) ptr :=
  out ← on_queue i Aff affinity_heap_head;
  id ← get_sched i sc_cpu_id;
  tid ← get_thread thread cpu_id;
  if (tid =? id) || (out =? NULL) then mret thread else
  cur ← current i;
  if negb (out =? cur) then exchange_with i out thread
  else
    out ← second_lowest i;
    exchange_with i out thread.
End operations.
