(* ===== verification/SchedRep.v ===== *)
(** * What the scheduler's state means

    The scheduler is proved against a view of its state: the sets of threads in
    the three queues of every processor, the current thread, and the thread
    control blocks without their queue indices.  [rep s a] says that the state
    [s] has the view [a], that every queued thread records its index, and that
    no thread is in two queues of one kind.  The order of the heaps is left
    out: [do_exclusion] and [sched_remove_resched] change the key of a queued
    thread, after which a queue is no heap any more but still a queue.

    The rules of this file give the effect of the primitive operations of
    [Scheduler] on views. *)

From stdpp Require Import functions.
From S2P Require Import Prelude Thread SiftHeap ThreadHeaps Rendezvous Scheduler.

(** ** Queues *)

Definition elems (h : heap_t) : list ptr := take (size h) (data_name h).

Definition indexed (K : heap_kind) (ths : gmap ptr thread_t) (h : heap_t) : Prop :=
  size h ≤ length (data_name h) ∧ NoDup (elems h) ∧
  ∀ j e, elems h !! j = Some e → hk_pos K <$> ths !! e = Some (S j).

Lemma elems_length h : size h ≤ length (data_name h) → length (elems h) = size h.
Proof. intros. unfold elems. rewrite length_take. lia. Qed.

Section queues.
Context (K : heap_kind) `{!KindOk K}.

Lemma shape_elems s v : queue_shape K s v → elems (heap s) = v.
Proof.
  intros [Hsz Hcap Harr _ _ _]. simpl in *. unfold elems. rewrite Hsz.
  apply list_eq. intros j. destruct (decide (j < length v)).
  - rewrite lookup_take_lt by done. by apply Harr.
  - rewrite lookup_take_ge by lia. symmetry. apply lookup_ge_None. lia.
Qed.

Lemma indexed_shape s : indexed K (threads s) (heap s) ↔ queue_shape K s (elems (heap s)).
Proof.
  split.
  - intros (Hsz & Hnd & Hpos). split; simpl.
    + symmetry. by apply elems_length.
    + rewrite elems_length; done.
    + intros j Hj. rewrite elems_length in Hj by done. unfold elems. by rewrite lookup_take_lt.
    + done.
    + intros e [j He]%list_elem_of_lookup. specialize (Hpos j e He). unfold keys.
      by destruct (threads s !! e).
    + done.
  - intros [Hsz Hcap Harr Hpos _ Hnd]. simpl in *.
    split; [by rewrite Hsz|]. split; [done|]. intros j e He. eauto.
Qed.

(** The effect of a heap operation that leaves the threads [v] in the queue
    and touches the indices of [w] only. *)
Definition requeued (v w : list ptr) (s s' : hstate) : Prop :=
  indexed K (threads s') (heap s') ∧ elems (heap s') ≡ₚ v ∧ moved K w s s'.

Lemma shape_requeued s s' v w :
  (∃ v', v' ≡ₚ v ∧ queue_shape K s' v') → moved K w s s' → requeued v w s s'.
Proof.
  intros (v' & Hp & Hs) Hm. apply shape_elems in Hs as He.
  split; [|split; [by rewrite He|done]]. apply indexed_shape. by rewrite He.
Qed.

Lemma requeue_insert s e :
  indexed K (threads s) (heap s) → e ∉ elems (heap s) → is_Some (threads s !! e) →
  size (heap s) < length (data_name (heap s)) →
  wp (heap_insert K e)
     (λ _ s', requeued (e :: elems (heap s)) (e :: elems (heap s)) s s') s.
Proof.
  intros Hix He Ht Hroom. apply indexed_shape in Hix as Hs.
  eapply wp_mono; [apply heap_insert_shape; [done..|]|].
  - rewrite elems_length; [done|]. by destruct Hix.
  - intros [] s' [Hsh Hm]. by apply shape_requeued.
Qed.

Lemma requeue_delete s n e :
  indexed K (threads s) (heap s) → 1 ≤ n → elems (heap s) !! (n - 1) = Some e →
  wp (heap_delete K n)
     (λ _ s', ∃ v, e :: v ≡ₚ elems (heap s) ∧ requeued v (elems (heap s)) s s') s.
Proof.
  intros Hix Hn He. apply indexed_shape in Hix as Hs.
  eapply wp_mono; [by apply (heap_delete_shape K _ _ _ _ _ Hs Hn He)|].
  intros r s' (_ & (v & Hp & Hsh) & Hm). exists v. split; [done|].
  apply shape_requeued; [by exists v|done].
Qed.

Lemma requeue_set_key s n e t val :
  indexed K (threads s) (heap s) → 1 ≤ n → elems (heap s) !! (n - 1) = Some e →
  threads s !! e = Some t →
  wp (heap_set_key K n val)
     (λ _ s', ∃ t1, (t1 = t ∨ t1 = hk_set_key K val t) ∧
        requeued (elems (heap s)) (elems (heap s))
          (set_threads (<[e := t1]> (threads s)) s) s') s.
Proof.
  intros Hix Hn He Ht. apply indexed_shape in Hix as Hs.
  eapply wp_mono; [by apply (heap_set_key_shape K _ _ _ _ _ val Hs Hn He Ht)|].
  intros [] s' (Hsh & t1 & Ht1 & Hm). exists t1. split; [naive_solver|].
  by apply shape_requeued.
Qed.

Lemma requeue_head s :
  indexed K (threads s) (heap s) →
  wp (heap_head K) (λ r s', s' = s ∧ r = default NULL (head (elems (heap s)))) s.
Proof.
  intros (Hsz & _ & _). apply wp_bind, wp_gets. unfold elems in *.
  destruct (Nat.eqb_spec (size (heap s)) 0) as [->|Hne]; [by apply wp_ret|].
  destruct (data_name (heap s)) as [|h d] eqn:Hd; [simpl in *; lia|].
  apply (wp_getopt _ h); [simpl; by rewrite Hd|].
  destruct (size (heap s)); [done|]. done.
Qed.
End queues.

#[export] Instance kind_of_ok q : KindOk (kind_of q).
Proof. destruct q; apply _. Qed.

(** ** Views *)

(** A thread without its queue indices. *)
Definition core (t : thread_t) : thread_t := set_priority_heap_pos 0 (set_affinity_heap_pos 0 t).

Record view := View {
  v_run : gset ptr;
  v_fin : gset ptr;
  v_aff : gset ptr;
  cap_run : nat;
  cap_fin : nat;
  cap_aff : nat;
  v_current : ptr;
  v_cpu : Z;
  v_lock : bool;
}.

Definition contents (h : heap_t) : gset ptr := list_to_set (elems h).
Definition capacity (h : heap_t) : nat := length (data_name h).

Definition view_of (c : scheduler_t) : view :=
  View (contents (running_queue c)) (contents (finished_queue c)) (contents (affinity_queue c))
    (capacity (running_queue c)) (capacity (finished_queue c)) (capacity (affinity_queue c))
    (current_thread c) (sc_cpu_id c) (sc_mutex c).

Definition v_queue (q : qid) (v : view) : gset ptr :=
  match q with Run => v_run v | Fin => v_fin v | Aff => v_aff v end.
Definition v_cap (q : qid) (v : view) : nat :=
  match q with Run => cap_run v | Fin => cap_fin v | Aff => cap_aff v end.
Definition with_queue (q : qid) (X : gset ptr) (v : view) : view :=
  let 'View r f a cr cf ca p id l := v in
  match q with
  | Run => View X f a cr cf ca p id l
  | Fin => View r X a cr cf ca p id l
  | Aff => View r f X cr cf ca p id l
  end.
Definition with_cap (q : qid) (n : nat) (v : view) : view :=
  let 'View r f a cr cf ca p id l := v in
  match q with
  | Run => View r f a n cf ca p id l
  | Fin => View r f a cr n ca p id l
  | Aff => View r f a cr cf n p id l
  end.
Definition with_current (p : ptr) (v : view) : view :=
  View (v_run v) (v_fin v) (v_aff v) (cap_run v) (cap_fin v) (cap_aff v) p (v_cpu v) (v_lock v).
Definition with_lock (b : bool) (v : view) : view :=
  View (v_run v) (v_fin v) (v_aff v) (cap_run v) (cap_fin v) (cap_aff v) (v_current v) (v_cpu v) b.
(** The queues exchanged at the end of an epoch. *)
Definition swapped (v : view) : view :=
  View (v_fin v) (v_run v) (v_aff v) (cap_fin v) (cap_run v) (cap_aff v) (v_current v) (v_cpu v)
    (v_lock v).

Definition is_aff (q : qid) : bool := match q with Aff => true | _ => false end.

Definition disjoint_views (l : list view) : Prop :=
  ∀ i j q q' v v', l !! i = Some v → l !! j = Some v' → is_aff q = is_aff q' →
    (i, q) ≠ (j, q') → v_queue q v ## v_queue q' v'.

Record abst := Abst {
  a_views : list view;
  a_threads : gmap ptr thread_t;
  a_exclusion : Z;
}.
Definition upd_view (i : nat) (v : view) (a : abst) : abst :=
  Abst (<[i := v]> (a_views a)) (a_threads a) (a_exclusion a).
Definition upd_core (p : ptr) (t : thread_t) (a : abst) : abst :=
  Abst (a_views a) (<[p := t]> (a_threads a)) (a_exclusion a).

Section rep.
Context {T : Type}.
Implicit Types s : sstate T.

Record rep s (a : abst) : Prop := {
  rp_views : view_of <$> schedulers s = a_views a;
  rp_threads : core <$> s_threads s = a_threads a;
  rp_exclusion : ex_var (exclusion s) = a_exclusion a;
  rp_indexed i c q : schedulers s !! i = Some c →
    indexed (kind_of q) (s_threads s) (queue q c);
  rp_size i c q : schedulers s !! i = Some c →
    Z.of_nat (length (data_name (queue q c))) = (max (queue q c) / 4)%Z;
  rp_disjoint : disjoint_views (a_views a);
  rp_null : a_threads a !! NULL = None;
  rp_epoch : global_epoch_mutex s = false;
  rp_cpu : this_cpu s < length (page_faults s);
}.

Lemma rep_sched s a i v :
  rep s a → a_views a !! i = Some v → ∃ c, schedulers s !! i = Some c ∧ view_of c = v.
Proof.
  intros Hr. rewrite <-(rp_views _ _ Hr), list_lookup_fmap.
  destruct (schedulers s !! i); simpl; naive_solver.
Qed.

Lemma rep_view s a i c :
  rep s a → schedulers s !! i = Some c → a_views a !! i = Some (view_of c).
Proof. intros Hr Hc. by rewrite <-(rp_views _ _ Hr), list_lookup_fmap, Hc. Qed.

Lemma rep_thread s a p t :
  rep s a → a_threads a !! p = Some t → ∃ t', s_threads s !! p = Some t' ∧ core t' = t.
Proof.
  intros Hr. rewrite <-(rp_threads _ _ Hr), lookup_fmap.
  destruct (s_threads s !! p); simpl; naive_solver.
Qed.

Lemma v_queue_of q c : v_queue q (view_of c) = contents (queue q c).
Proof. by destruct q. Qed.
Lemma v_cap_of q c : v_cap q (view_of c) = capacity (queue q c).
Proof. by destruct q. Qed.
Lemma view_set_queue q h c :
  view_of (set_queue q h c) = with_cap q (capacity h) (with_queue q (contents h) (view_of c)).
Proof. by destruct q. Qed.
Lemma queue_set_queue q q' h c :
  queue q' (set_queue q h c) = if decide (q = q') then h else queue q' c.
Proof. by destruct q, q'. Qed.
Lemma with_cap_id q v : with_cap q (v_cap q v) v = v.
Proof. by destruct v, q. Qed.

Lemma elem_of_contents p h : p ∈ contents h ↔ p ∈ elems h.
Proof. apply elem_of_list_to_set. Qed.

Lemma contents_size h : NoDup (elems h) → base.size (contents h) = length (elems h).
Proof. apply size_list_to_set. Qed.

(** *** Updates of a state that keep the representation *)

Lemma rep_upd_sched s a i c c' :
  rep s a → schedulers s !! i = Some c → (∀ q, queue q c' = queue q c) →
  rep (set_schedulers (<[i := c']> (schedulers s)) s) (upd_view i (view_of c') a).
Proof.
  intros Hr Hc Hq.
  assert (∀ q, v_queue q (view_of c') = v_queue q (view_of c)) as Hvq.
  { intros q. by rewrite !v_queue_of, Hq. }
  pose proof (rep_view _ _ _ _ Hr Hc) as Hv. destruct Hr; split; simpl; try done.
  - rewrite list_fmap_insert. by rewrite rp_views0.
  - intros j cj q [(-> & <- & _)|[_ Hj]]%list_lookup_insert_Some; [rewrite Hq|]; eauto.
  - intros j cj q [(-> & <- & _)|[_ Hj]]%list_lookup_insert_Some; [rewrite Hq|]; eauto.
  - intros j k q q' v v' Hj Hk Hqq Hne.
    assert (∀ j v, <[i:=view_of c']> (a_views a) !! j = Some v →
      ∃ v0, a_views a !! j = Some v0 ∧ ∀ q, v_queue q v = v_queue q v0) as Hold.
    { clear -Hv Hvq. intros j v [(-> & <- & _)|[_ Hj]]%list_lookup_insert_Some; eauto. }
    apply Hold in Hj as (v0 & Hj & ->), Hk as (v1 & Hk & ->). eauto.
Qed.

Lemma rep_upd_thread s a p t (f : thread_t → thread_t) :
  rep s a → s_threads s !! p = Some t →
  core (f t) = f (core t) → priority_heap_pos (f t) = priority_heap_pos t →
  affinity_heap_pos (f t) = affinity_heap_pos t →
  rep (set_s_threads (<[p := f t]> (s_threads s)) s) (upd_core p (f (core t)) a).
Proof.
  intros Hr Ht Hf Hp Ha.
  assert (a_threads a !! p = Some (core t)) as Hat.
  { by rewrite <-(rp_threads _ _ Hr), lookup_fmap, Ht. }
  destruct Hr; split; simpl; try done.
  - by rewrite fmap_insert, rp_threads0, Hf.
  - intros i c q Hc. destruct (rp_indexed0 i c q Hc) as (H1 & H2 & H3).
    split; [done|]. split; [done|]. intros j e He. rewrite <-(H3 j e He).
    destruct (decide (p = e)) as [<-|]; [|by rewrite lookup_insert_ne].
    rewrite lookup_insert_eq, Ht. destruct q; simpl; by f_equal.
  - rewrite lookup_insert_ne; [done|]. intros ->. congruence.
Qed.

(** A thread that changes its place in queues of one kind keeps its place in
    those of the other. *)
Lemma moved_pos q K' (g1 g2 : hstate) w e :
  moved (kind_of q) w g1 g2 →
  (K' = kind_of q → e ∉ w) → K' = priority_kind ∨ K' = affinity_kind →
  hk_pos K' <$> threads g2 !! e = hk_pos K' <$> threads g1 !! e.
Proof.
  intros (He & Hw & _) Hne HK. specialize (He e). specialize (Hw e).
  assert (hk_pos K' <$> (erase (kind_of q) <$> threads g2 !! e) =
          hk_pos K' <$> (erase (kind_of q) <$> threads g1 !! e)) as Heq by by rewrite He.
  rewrite <-!option_fmap_compose in Heq.
  destruct q, HK; subst K'; simpl in *; try exact Heq; rewrite Hw; auto.
Qed.

Lemma moved_core q w g1 g2 :
  moved (kind_of q) w g1 g2 → core <$> threads g2 = core <$> threads g1.
Proof.
  intros (He & _ & _). apply map_eq. intros p. rewrite !lookup_fmap.
  assert (∀ t, core t = core (erase (kind_of q) t)) as Hc by by intros t; destruct q.
  specialize (He p). destruct (threads g2 !! p), (threads g1 !! p); try done.
  simpl in *. f_equal. rewrite Hc, (Hc t0). congruence.
Qed.

Lemma rep_requeue s a i c q h v w :
  rep s a → schedulers s !! i = Some c →
  requeued (kind_of q) v w (HState (s_threads s) (queue q c)) h →
  (∀ p, p ∈ v → p ∈ w) →
  (∀ p, p ∈ w → p ∈ elems (queue q c) ∨
     ∀ j q' v', a_views a !! j = Some v' → is_aff q' = is_aff q → p ∉ v_queue q' v') →
  rep (set_schedulers (<[i := set_queue q (heap h) c]> (schedulers s))
         (set_s_threads (threads h) s))
      (upd_view i (with_queue q (list_to_set v) (view_of c)) a).
Proof.
  intros Hr Hc (Hix & Hel & Hm) Hvw Hw.
  pose proof (rep_view _ _ _ _ Hr Hc) as Hv.
  assert (∀ j c' q' e, schedulers s !! j = Some c' → (i, q) ≠ (j, q') →
    is_aff q' = is_aff q → e ∈ elems (queue q' c') → e ∉ w) as Hout.
  { intros j c' q' e Hj Hne Hqq He Hew. pose proof (rep_view _ _ _ _ Hr Hj) as Hvj.
    rewrite <-elem_of_contents, <-v_queue_of in He. destruct (Hw e Hew) as [He'|Hno].
    - rewrite <-elem_of_contents, <-v_queue_of in He'.
      by apply (rp_disjoint _ _ Hr i j q q' _ _ Hv Hvj (eq_sym Hqq) Hne e).
    - by eapply Hno. }
  pose proof (moved_core _ _ _ _ Hm) as Hcore.
  assert (length (data_name (heap h)) = length (data_name (queue q c)) ∧
          max (heap h) = max (queue q c)) as [Hcap Hmax].
  { destruct Hm as (_ & _ & Hm). simpl in Hm. by simplify_eq. }
  assert (contents (heap h) = list_to_set v) as Hcon.
  { apply set_eq. intros p. by rewrite elem_of_contents, elem_of_list_to_set, Hel. }
  assert (view_of (set_queue q (heap h) c) = with_queue q (list_to_set v) (view_of c)) as Hvo.
  { rewrite view_set_queue, Hcon. unfold capacity. rewrite Hcap.
    destruct q; reflexivity. }
  destruct Hr; split; simpl; try done.
  - by rewrite list_fmap_insert, rp_views0, Hvo.
  - by rewrite Hcore.
  - intros j c' q' [(<- & <- & _)|[Hij Hj]]%list_lookup_insert_Some.
    + rewrite queue_set_queue. destruct (decide (q = q')) as [<-|Hne]; [done|].
      destruct (rp_indexed0 i c q' Hc) as (H1 & H2 & H3).
      split; [done|]. split; [done|]. intros j e He. rewrite <-(H3 j e He).
      apply (moved_pos q (kind_of q') (HState (s_threads s) (queue q c)) h w);
        [done| |by destruct q'; auto].
      intros HK. eapply (Hout i c q'); [done|congruence| |by eapply list_elem_of_lookup_2].
      by destruct q, q'; try (discriminate (f_equal (λ K, hk_pos K (set_priority_heap_pos 1 thread_zero)) HK)).
    + destruct (rp_indexed0 j c' q' Hj) as (H1 & H2 & H3).
      split; [done|]. split; [done|]. intros k e He. rewrite <-(H3 k e He).
      apply (moved_pos q (kind_of q') (HState (s_threads s) (queue q c)) h w);
        [done| |by destruct q'; auto].
      intros HK. eapply (Hout j c' q'); [done|congruence| |by eapply list_elem_of_lookup_2].
      by destruct q, q'; try (discriminate (f_equal (λ K, hk_pos K (set_priority_heap_pos 1 thread_zero)) HK)).
  - intros j c' q' [(<- & <- & _)|[Hij Hj]]%list_lookup_insert_Some; [|eauto].
    rewrite queue_set_queue. destruct (decide (q = q')) as [<-|Hne]; [|eauto].
    rewrite Hcap, Hmax. eauto.
  - assert (∀ j v' q' p, <[i:=with_queue q (list_to_set v) (view_of c)]> (a_views a) !! j = Some v' →
      p ∈ v_queue q' v' → (j = i ∧ q' = q ∧ p ∈ w) ∨
        ((j, q') ≠ (i, q) ∧ ∃ v0, a_views a !! j = Some v0 ∧ p ∈ v_queue q' v0)) as Hcase.
    { intros j v' q' p [(<- & <- & _)|[Hij Hj]]%list_lookup_insert_Some Hp.
      - destruct (decide (q' = q)) as [->|Hne].
        + left. split_and!; [done..|]. destruct q; simpl in Hp; set_solver.
        + right. split; [congruence|]. exists (view_of c). split; [done|].
          by destruct q, q'.
      - right. split; [congruence|]. eauto. }
    assert (∀ j q1 v1 p, a_views a !! j = Some v1 → p ∈ v_queue q1 v1 → p ∈ w →
      is_aff q1 = is_aff q → (j, q1) ≠ (i, q) → False) as Hno.
    { intros j q1 v1 p Hj Hp Hpw Hq Hne.
      rewrite <-rp_views0, list_lookup_fmap in Hj.
      destruct (schedulers s !! j) as [cj|] eqn:Hcj; [|done]. simplify_eq/=.
      rewrite v_queue_of, elem_of_contents in Hp. eapply (Hout j cj q1 p); eauto. }
    intros j k q1 q2 v1 v2 Hj Hk Hqq Hne p Hp1 Hp2.
    destruct (Hcase _ _ _ _ Hj Hp1) as [(-> & -> & Hpw)|(Hn1 & u1 & Hu1 & Hpu1)],
      (Hcase _ _ _ _ Hk Hp2) as [(-> & -> & Hpw')|(Hn2 & u2 & Hu2 & Hpu2)].
    + done.
    + by eapply (Hno k q2 u2 p).
    + by eapply (Hno j q1 u1 p).
    + by eapply (rp_disjoint0 j k q1 q2 u1 u2).
Qed.
End rep.

(** ** Rules for the primitive operations *)

(** A write to a thread that leaves its queue indices alone. *)
Class CoreUpd (f : thread_t → thread_t) : Prop := {
  cu_core t : core (f t) = f (core t);
  cu_priority t : priority_heap_pos (f t) = priority_heap_pos t;
  cu_affinity t : affinity_heap_pos (f t) = affinity_heap_pos t;
}.
#[export] Hint Extern 0 (CoreUpd _) => (split; done) : typeclass_instances.

(** Thread [p] is at the 1-based index [n] of a queue. *)
Definition at_pos {T} (s : sstate T) (i : nat) (q : qid) (n : nat) (p : ptr) : Prop :=
  1 ≤ n ∧ ∃ c, schedulers s !! i = Some c ∧ elems (queue q c) !! (n - 1) = Some p.

Section rules.
Context {T : Type}.
Implicit Types s : sstate T.

Lemma wp_get_sched {A} i (f : scheduler_t → A) s a v (Q : A → sstate T → Prop) :
  rep s a → a_views a !! i = Some v →
  (∀ c, schedulers s !! i = Some c → view_of c = v → Q (f c) s) →
  wp (get_sched i f) Q s.
Proof.
  intros Hr Hv HQ. destruct (rep_sched _ _ _ _ Hr Hv) as (c & Hc & Hvc).
  apply (wp_getopt _ (f c)); [by rewrite Hc|auto].
Qed.

Lemma wp_upd_sched i (f : scheduler_t → scheduler_t) s a v v' (Q : unit → sstate T → Prop) :
  rep s a → a_views a !! i = Some v →
  (∀ c, (∀ q, queue q (f c) = queue q c) ∧ (view_of c = v → view_of (f c) = v')) →
  (∀ s', rep s' (upd_view i v' a) → Q tt s') →
  wp (upd_sched i f) Q s.
Proof.
  intros Hr Hv Hf HQ. destruct (rep_sched _ _ _ _ Hr Hv) as (c & Hc & Hvc).
  eapply wp_putopt; [by rewrite Hc|]. apply HQ.
  destruct (Hf c) as [Hq Hv']. rewrite <-(Hv' Hvc). by apply rep_upd_sched with c.
Qed.

Lemma upd_view_id i v a : a_views a !! i = Some v → upd_view i v a = a.
Proof. intros Hv. destruct a. unfold upd_view. simpl in *. by rewrite list_insert_id. Qed.

(** Writes to the counters. *)
Lemma wp_upd_sched_same i (f : scheduler_t → scheduler_t) s a v (Q : unit → sstate T → Prop) :
  rep s a → a_views a !! i = Some v →
  (∀ c, (∀ q, queue q (f c) = queue q c) ∧ view_of (f c) = view_of c) →
  (∀ s', rep s' a → Q tt s') →
  wp (upd_sched i f) Q s.
Proof.
  intros Hr Hv Hf HQ. eapply (wp_upd_sched i f s a v v); [done..| |].
  - intros c. destruct (Hf c) as [Hq ->]. done.
  - intros s'. rewrite upd_view_id by done. apply HQ.
Qed.

Lemma wp_get_thread {A} p (f : thread_t → A) s a t (Q : A → sstate T → Prop) :
  rep s a → a_threads a !! p = Some t →
  (∀ t', s_threads s !! p = Some t' → core t' = t → Q (f t') s) →
  wp (get_thread p f) Q s.
Proof.
  intros Hr Ht HQ. destruct (rep_thread _ _ _ _ Hr Ht) as (t' & Ht' & Hc).
  apply (wp_getopt _ (f t')); [by rewrite Ht'|auto].
Qed.

Lemma wp_upd_thread p (f : thread_t → thread_t) `{!CoreUpd f} s a t (Q : unit → sstate T → Prop) :
  rep s a → a_threads a !! p = Some t →
  (∀ s', rep s' (upd_core p (f t) a) → Q tt s') →
  wp (upd_thread p f) Q s.
Proof.
  intros Hr Ht HQ. destruct (rep_thread _ _ _ _ Hr Ht) as (t' & Ht' & <-).
  eapply wp_putopt; [by rewrite Ht'|]. apply HQ, rep_upd_thread; [done|done| | |];
    [apply cu_core|apply cu_priority|apply cu_affinity].
Qed.

(** *** Queues *)

Lemma wp_queue_head i q s a v (Q : ptr → sstate T → Prop) :
  rep s a → a_views a !! i = Some v →
  (∀ r, r = NULL ∧ v_queue q v = ∅ ∨ r ≠ NULL ∧ r ∈ v_queue q v → Q r s) →
  wp (on_queue i q (heap_head (kind_of q))) Q s.
Proof.
  intros Hr Hv HQ. destruct (rep_sched _ _ _ _ Hr Hv) as (c & Hc & <-).
  apply wp_bind, (wp_getopt _ c); [done|]. apply wp_zoom.
  pose proof (rp_indexed _ _ Hr i c q Hc) as Hix.
  eapply wp_mono; [by apply requeue_head|]. intros r s' [-> ->]. simpl.
  assert (set_schedulers (<[i:=set_queue q (queue q c) c]> (schedulers s))
            (set_s_threads (s_threads s) s) = s) as ->.
  { assert (set_queue q (queue q c) c = c) as -> by by destruct q, c.
    rewrite list_insert_id by done. by destruct s. }
  apply HQ. rewrite v_queue_of. unfold contents. destruct Hix as (_ & _ & Hpos).
  destruct (elems (queue q c)) as [|h l] eqn:He; simpl; [by left|right].
  split; [|set_solver]. intros ->. specialize (Hpos 0 NULL eq_refl).
  pose proof (rp_null _ _ Hr) as Hn. rewrite <-(rp_threads _ _ Hr), lookup_fmap in Hn.
  by destruct (s_threads s !! NULL).
Qed.

Lemma v_queue_size q s a i c :
  rep s a → schedulers s !! i = Some c → base.size (v_queue q (view_of c)) = size (queue q c).
Proof.
  intros Hr Hc. destruct (rp_indexed _ _ Hr i c q Hc) as (Hsz & Hnd & _).
  by rewrite v_queue_of, contents_size, elems_length.
Qed.

Lemma wp_queue_insert i q p s a v t (Q : unit → sstate T → Prop) :
  rep s a → a_views a !! i = Some v → a_threads a !! p = Some t →
  (∀ j q' v', a_views a !! j = Some v' → is_aff q' = is_aff q → p ∉ v_queue q' v') →
  base.size (v_queue q v) < v_cap q v →
  (∀ s', rep s' (upd_view i (with_queue q ({[p]} ∪ v_queue q v) v) a) → Q tt s') →
  wp (on_queue i q (heap_insert (kind_of q) p)) Q s.
Proof.
  intros Hr Hv Ht Hout Hroom HQ. destruct (rep_sched _ _ _ _ Hr Hv) as (c & Hc & <-).
  apply wp_bind, (wp_getopt _ c); [done|]. apply wp_zoom.
  pose proof (rp_indexed _ _ Hr i c q Hc) as Hix.
  eapply wp_mono.
  { apply (requeue_insert (kind_of q)); simpl; [exact Hix| | |].
    - rewrite <-elem_of_contents, <-v_queue_of. by eapply Hout.
    - destruct (rep_thread _ _ _ _ Hr Ht) as (t' & -> & _). eauto.
    - rewrite v_cap_of, (v_queue_size q s a i c Hr Hc) in Hroom. done. }
  intros [] h Hq. apply HQ.
  pose proof (rep_requeue s a i c q h _ _ Hr Hc Hq (λ p H, H)) as Hrep. simpl in Hrep.
  rewrite v_queue_of. apply Hrep. intros p' [->|Hp']%elem_of_cons; [right|by left].
  done.
Qed.

Lemma wp_queue_delete i q n p s a v (Q : ptr → sstate T → Prop) :
  rep s a → a_views a !! i = Some v → at_pos s i q n p →
  (∀ r s', rep s' (upd_view i (with_queue q (v_queue q v ∖ {[p]}) v) a) → Q r s') →
  wp (on_queue i q (heap_delete (kind_of q) n)) Q s.
Proof.
  intros Hr Hv (Hn & c' & Hc' & Hp) HQ.
  destruct (rep_sched _ _ _ _ Hr Hv) as (c & Hc & <-).
  assert (c' = c) as -> by congruence.
  apply wp_bind, (wp_getopt _ c); [done|]. apply wp_zoom.
  pose proof (rp_indexed _ _ Hr i c q Hc) as Hix.
  eapply wp_mono; [by apply (requeue_delete (kind_of q)) with (e := p)|].
  intros r h (l & Hl & Hq). simpl in *. apply HQ.
  pose proof (rep_requeue s a i c q h _ _ Hr Hc Hq) as Hrep.
  assert (v_queue q (view_of c) ∖ {[p]} = list_to_set l) as ->.
  { destruct Hix as (_ & Hnd & _). simpl in Hnd. rewrite <-Hl in Hnd. inversion Hnd; subst.
    apply set_eq. intros x. rewrite elem_of_difference, v_queue_of, elem_of_contents, <-Hl,
      elem_of_cons, elem_of_list_to_set, elem_of_singleton. naive_solver. }
  apply Hrep; [|by left]. intros x Hx. rewrite <-Hl. by right.
Qed.

Lemma with_queue_id q v : with_queue q (v_queue q v) v = v.
Proof. by destruct v, q. Qed.

(** Changing the key of a queued thread. *)
Definition rekeyed (q : qid) (val : Z) (t t' : thread_t) : Prop :=
  t' = t ∨ t' = hk_set_key (kind_of q) val t.

Lemma wp_queue_set_key i q n p val s a v t (Q : unit → sstate T → Prop) :
  rep s a → a_views a !! i = Some v → at_pos s i q n p → a_threads a !! p = Some t →
  (∀ t' s', rekeyed q val t t' → rep s' (upd_core p t' a) → Q tt s') →
  wp (on_queue i q (heap_set_key (kind_of q) n val)) Q s.
Proof.
  intros Hr Hv (Hn & c' & Hc' & Hp) Ht HQ.
  destruct (rep_sched _ _ _ _ Hr Hv) as (c & Hc & <-).
  assert (c' = c) as -> by congruence.
  apply wp_bind, (wp_getopt _ c); [done|]. apply wp_zoom.
  pose proof (rp_indexed _ _ Hr i c q Hc) as Hix.
  destruct (rep_thread _ _ _ _ Hr Ht) as (t0 & Ht0 & <-).
  eapply wp_mono; [by apply (requeue_set_key (kind_of q)) with (e := p)|].
  intros [] h (t1 & Ht1 & Hq). simpl in *.
  assert (∃ f, t1 = f t0 ∧ CoreUpd f ∧ rekeyed q val (core t0) (f (core t0)))
    as (f & -> & Hf & Hre).
  { destruct Ht1 as [->| ->].
    - exists id. split_and!; [done|by split|by left].
    - exists (hk_set_key (kind_of q) val). split_and!; [done|by destruct q; split|by right]. }
  assert (rep (set_s_threads (<[p:=f t0]> (s_threads s)) s) (upd_core p (f (core t0)) a)) as Hr'.
  { apply rep_upd_thread; [done|done| | |]; destruct Hf; auto. }
  pose proof (rep_requeue _ _ i c q h _ _ Hr' Hc Hq (λ p H, H) (λ p H, or_introl H)) as Hrep.
  apply (HQ (f (core t0))); [done|].
  assert (list_to_set (elems (queue q c)) = v_queue q (view_of c)) as Heq by by rewrite v_queue_of.
  rewrite Heq, with_queue_id, upd_view_id in Hrep by done. done.
Qed.

(** The recorded index of a queued thread is its position. *)
Lemma wp_get_pos i q p s a v (Q : nat → sstate T → Prop) :
  rep s a → a_views a !! i = Some v → p ∈ v_queue q v →
  (∀ n, at_pos s i q n p → Q n s) →
  wp (get_thread p (hk_pos (kind_of q))) Q s.
Proof.
  intros Hr Hv Hp HQ. destruct (rep_sched _ _ _ _ Hr Hv) as (c & Hc & <-).
  rewrite v_queue_of, elem_of_contents in Hp. apply list_elem_of_lookup in Hp as [j Hj].
  destruct (rp_indexed _ _ Hr i c q Hc) as (_ & _ & Hpos). pose proof (Hpos j p Hj) as Hpj.
  apply (wp_getopt _ (S j)); [done|]. apply HQ. split; [lia|]. exists c. split; [done|].
  by replace (S j - 1) with j by lia.
Qed.
End rules.
