(* ===== verification/SchedProofs.v ===== *)
(** * Correctness of the scheduler

    The operations of src/sched/scheduler.c and of the load balancing in
    src/sched/thread_sched.c keep the invariant [sys_wf] on views: the affinity
    queue of a processor holds exactly the threads of its two priority queues,
    the current thread is in the running queue, every queue has a cell to
    spare, and queued threads record their processor.  None of the operations
    faults or waits for a lock it holds, and the theorems say which threads are
    queued afterwards. *)

From stdpp Require Import functions.
From S2P Require Import Prelude Thread SiftHeap ThreadHeaps Rendezvous Scheduler SchedRep.

(** ** Lookups in updated views *)

Lemma look_view_eq i v v0 a : a_views a !! i = Some v0 → a_views (upd_view i v a) !! i = Some v.
Proof. intros Hv. apply list_lookup_insert_eq. by apply lookup_lt_Some in Hv. Qed.

Lemma look_view_ne i j v v0 a :
  i ≠ j → a_views a !! j = Some v0 → a_views (upd_view i v a) !! j = Some v0.
Proof. intros Hne Hv. simpl. by rewrite list_lookup_insert_ne. Qed.

Lemma look_core_eq p t a : a_threads (upd_core p t a) !! p = Some t.
Proof. apply lookup_insert_eq. Qed.

Lemma look_core_ne p q t t0 a :
  p ≠ q → a_threads a !! q = Some t0 → a_threads (upd_core p t a) !! q = Some t0.
Proof. intros Hne Ht. simpl. by rewrite lookup_insert_ne. Qed.

Lemma upd_view_twice i v v' a : upd_view i v' (upd_view i v a) = upd_view i v' a.
Proof. unfold upd_view. simpl. by rewrite list_insert_insert_eq. Qed.

Lemma upd_view_comm i j v w a :
  i ≠ j → upd_view i v (upd_view j w a) = upd_view j w (upd_view i v a).
Proof. intros Hne. unfold upd_view. simpl. by rewrite list_insert_insert_ne. Qed.

Lemma upd_core_twice p t t' a : upd_core p t' (upd_core p t a) = upd_core p t' a.
Proof. unfold upd_core. simpl. by rewrite insert_insert_eq. Qed.

Ltac look :=
  lazymatch goal with
  | |- a_views (upd_core _ _ ?a) !! ?i = ?r => change (a_views a !! i = r); look
  | |- a_threads (upd_view _ _ ?a) !! ?p = ?r => change (a_threads a !! p = r); look
  | |- a_views (upd_view ?i _ _) !! ?i = Some _ => eapply look_view_eq; look
  | |- a_threads (upd_core ?p _ _) !! ?p = Some _ => apply look_core_eq
  | _ => first [eassumption | done
    | match goal with
      | |- a_views (upd_view _ _ _) !! _ = Some _ => eapply look_view_ne; [done|look]
      | |- a_threads (upd_core _ _ _) !! _ = Some _ => eapply look_core_ne; [done|look]
      end]
  end.

(** Symbolic execution on views.  [sget], [tget] read a scheduler or a thread;
    [sset v'] and [ssame] write a scheduler; [tset] writes a thread. *)
Ltac cur_rep := eassumption.
Tactic Notation "sget" ident(c) ident(Hc) ident(Hvc) :=
  try apply wp_bind; eapply wp_get_sched; [cur_rep|look|]; intros c Hc Hvc.
Tactic Notation "tread" ident(t) ident(Ht) ident(Htc) :=
  try apply wp_bind; eapply wp_get_thread; [cur_rep|look|]; intros t Ht Htc.
Ltac upd_done :=
  let c := fresh in let H := fresh in
  intros c; split; [by intros []|first [done | by intros H; rewrite <-H]].
(** Go on with the state after an operation; what was known of the old one is
    dropped. *)
Ltac renew s :=
  clear dependent s;
  let s' := fresh "s" in let Hr := fresh "Hr" in
  intros s' Hr; try rewrite upd_view_twice in Hr; try rewrite upd_core_twice in Hr.
Tactic Notation "ssame" :=
  try apply wp_bind;
  match goal with Hr : rep ?s _ |- wp _ _ ?s =>
    eapply wp_upd_sched_same; [exact Hr|look|upd_done|]; renew s
  end.
Tactic Notation "sset" uconstr(v) :=
  try apply wp_bind;
  match goal with Hr : rep ?s _ |- wp _ _ ?s =>
    eapply wp_upd_sched with (v' := v); [exact Hr|look|upd_done|]; renew s
  end.
Tactic Notation "tset" :=
  try apply wp_bind;
  match goal with Hr : rep ?s _ |- wp _ _ ?s =>
    eapply wp_upd_thread; [apply _|exact Hr|look|]; renew s
  end.

(** ** Taking threads out *)

(** A processor without thread [p]. *)
Definition without (p : ptr) (v : view) : view :=
  with_queue Aff (v_aff v ∖ {[p]}) (with_queue Fin (v_fin v ∖ {[p]})
    (with_queue Run (v_run v ∖ {[p]}) v)).

Section operations.
Context {T : Type}.
Implicit Types s : sstate T.

Lemma rep_run_fin s a i v p :
  rep s a → a_views a !! i = Some v → p ∈ v_run v → p ∈ v_fin v → False.
Proof.
  intros Hr Hv Hp Hp'. by apply (rp_disjoint _ _ Hr i i Run Fin v v Hv Hv eq_refl ltac:(done) p).
Qed.

Lemma wp_in_running_queue i p s a v (Q : bool → sstate T → Prop) :
  rep s a → a_views a !! i = Some v → p ∈ v_run v ∪ v_fin v →
  Q (bool_decide (p ∈ v_run v)) s →
  wp (in_running_queue i p) Q s.
Proof.
  intros Hr Hv Hp HQ. unfold in_running_queue. sget c Hc Hvc. subst v.
  assert (∃ q, (q = Run ∨ q = Fin) ∧ p ∈ v_queue q (view_of c)) as (q & Hq & Hpq).
  { apply elem_of_union in Hp as [?|?]; [exists Run|exists Fin]; auto. }
  apply wp_bind. assert (priority_heap_pos = hk_pos (kind_of q)) as -> by by destruct Hq as [->| ->].
  eapply wp_get_pos; [done..|]. intros n (Hn & c' & Hc' & Hat).
  assert (c' = c) as -> by congruence.
  rewrite (proj2 (Nat.eqb_neq n 0)) by lia.
  destruct (rp_indexed _ _ Hr i c Run Hc) as (Hsz & _ & _). simpl in Hsz.
  destruct (Nat.leb_spec n (size (running_queue c))) as [Hle|Hgt].
  - destruct (lookup_lt_is_Some_2 (elems (running_queue c)) (n - 1)) as [e He].
    { rewrite elems_length by done. lia. }
    apply wp_bind, (wp_getopt _ e).
    { rewrite Hc. simpl. unfold elems in He. by apply lookup_take_Some in He as [He _]. }
    apply wp_ret. destruct Hq as [->| ->]; simpl in Hat.
    + simplify_eq. rewrite Z.eqb_refl. rewrite bool_decide_true in HQ; done.
    + destruct (Z.eqb_spec e p) as [->|Hne].
      * exfalso. eapply (rep_run_fin s a i (view_of c) p); [done..| |done].
        simpl. rewrite elem_of_contents. by eapply list_elem_of_lookup_2.
      * rewrite bool_decide_false in HQ; [done|]. intros Hpr. by eapply rep_run_fin.
  - apply wp_ret. rewrite bool_decide_false in HQ; [done|]. intros Hpr.
    destruct Hq as [->| ->]; [|by eapply rep_run_fin].
    apply lookup_lt_Some in Hat. simpl in Hat. rewrite elems_length in Hat by done. lia.
Qed.

Lemma wp_delete_from_queue i p s a v (Q : unit → sstate T → Prop) :
  rep s a → a_views a !! i = Some v → p ∈ v_aff v → p ∈ v_run v ∪ v_fin v →
  (∀ s', rep s' (upd_view i (without p v) a) → Q tt s') →
  wp (delete_from_queue i p) Q s.
Proof.
  intros Hr Hv Hpa Hp HQ. unfold delete_from_queue.
  apply wp_bind. eapply wp_in_running_queue; [done..|].
  set (q := if bool_decide (p ∈ v_run v) then Run else Fin).
  assert (p ∈ v_queue q v ∧ (q = Run ∨ q = Fin) ∧
    with_queue q (v_queue q v ∖ {[p]}) v =
      with_queue Fin (v_fin v ∖ {[p]}) (with_queue Run (v_run v ∖ {[p]}) v)) as (Hpq & Hq & Heq).
  { subst q. case_bool_decide as Hpr.
    - split_and!; [done|by left|].
      assert (p ∉ v_fin v) as Hpf by (intros ?; by eapply (rep_run_fin s a i)).
      assert (v_fin v ∖ {[p]} = v_fin v) as -> by set_solver. by destruct v.
    - split_and!; [set_solver|by right|].
      assert (v_run v ∖ {[p]} = v_run v) as -> by set_solver. by destruct v. }
  apply wp_bind. assert (priority_heap_pos = hk_pos (kind_of q)) as -> by by destruct Hq as [->| ->].
  eapply wp_get_pos; [done..|]. intros n Hat.
  apply wp_bind.
  assert (priority_heap_delete n = heap_delete (kind_of q) n) as -> by by destruct Hq as [->| ->].
  eapply wp_queue_delete; [done..|]. rewrite Heq. clear Hr Hat. intros _ s1 Hr.
  apply wp_bind. eapply (wp_get_pos i Aff p); [done|look|by destruct v|]. intros m Hat.
  apply wp_bind. eapply (wp_queue_delete i Aff); [done|look|done|]. clear Hr Hat. intros _ s2 Hr.
  apply wp_ret, HQ. rewrite upd_view_twice in Hr. by destruct v.
Qed.

(** ** Giving a thread away *)

Lemma rep_queued s a i v q p :
  rep s a → a_views a !! i = Some v → p ∈ v_queue q v →
  p ≠ NULL ∧ is_Some (a_threads a !! p).
Proof.
  intros Hr Hv Hp. destruct (rep_sched _ _ _ _ Hr Hv) as (c & Hc & <-).
  rewrite v_queue_of, elem_of_contents in Hp. apply list_elem_of_lookup in Hp as [j Hj].
  destruct (rp_indexed _ _ Hr i c q Hc) as (_ & _ & Hpos). specialize (Hpos j p Hj).
  assert (is_Some (a_threads a !! p)) as Hs.
  { rewrite <-(rp_threads _ _ Hr), lookup_fmap.
    destruct (s_threads s !! p); [by eexists|done]. }
  split; [|done]. intros ->. rewrite (rp_null _ _ Hr) in Hs. by destruct Hs.
Qed.

Lemma wp_queue_elt i q j e s c (Q : ptr → sstate T → Prop) :
  schedulers s !! i = Some c → elems (queue q c) !! j = Some e → Q e s →
  wp (queue_elt i q j) Q s.
Proof.
  intros Hc He HQ. apply (wp_getopt _ e); [|done]. rewrite Hc. simpl.
  unfold elems in He. by apply lookup_take_Some in He as [He _].
Qed.

Lemma wp_second_lowest i s a c (Q : ptr → sstate T → Prop) :
  rep s a → schedulers s !! i = Some c → 3 ≤ size (affinity_queue c) →
  (∀ j e, 1 ≤ j → elems (affinity_queue c) !! j = Some e → Q e s) →
  wp (second_lowest i) Q s.
Proof.
  intros Hr Hc Hsz HQ. pose proof (rep_view _ _ _ _ Hr Hc) as Hv.
  destruct (rp_indexed _ _ Hr i c Aff Hc) as (Hlen & _ & _). simpl in Hlen.
  assert (∀ j, j < 3 → ∃ e t, elems (affinity_queue c) !! j = Some e ∧ a_threads a !! e = Some t)
    as Hel.
  { intros j Hj. destruct (lookup_lt_is_Some_2 (elems (affinity_queue c)) j) as [e He].
    { rewrite elems_length by done. lia. }
    destruct (rep_queued s a i _ Aff e Hr Hv) as (_ & t & Ht); [|eauto].
    rewrite v_queue_of, elem_of_contents. by eapply list_elem_of_lookup_2. }
  destruct (Hel 1 ltac:(lia)) as (e1 & t1 & He1 & Ht1).
  destruct (Hel 2 ltac:(lia)) as (e2 & t2 & He2 & Ht2). unfold second_lowest.
  apply wp_bind. eapply (wp_queue_elt i Aff); [done..|].
  apply wp_bind. eapply (wp_queue_elt i Aff); [done..|].
  tread u1 Hu1 Hc1. tread u2 Hu2 Hc2. destruct (affinity u1 <? affinity u2)%Z.
  - eapply (wp_queue_elt i Aff); [done..|]. eapply (HQ 1); [lia|done].
  - eapply (wp_queue_elt i Aff); [done..|]. eapply (HQ 2); [lia|done].
Qed.

(** The affinity queue's thread of least affinity, or one of the next two when
    that thread is running; nothing only when no other thread is queued. *)
Lemma wp_get_lowest_affinity i s a v (Q : ptr → sstate T → Prop) :
  rep s a → a_views a !! i = Some v → v_aff v = v_run v ∪ v_fin v →
  (v_aff v ⊆ {[v_current v]} → Q NULL s) →
  (∀ p s', p ∈ v_aff v → p ≠ v_current v → p ≠ NULL →
     rep s' (upd_view i (without p v) a) → Q p s') →
  wp (get_lowest_affinity i) Q s.
Proof.
  intros Hr Hv Haff Hnone Hsome. unfold get_lowest_affinity.
  assert (∀ p, p ∈ v_aff v → p ≠ v_current v →
    wp (delete_from_queue i p;; mret p) Q s) as Hdel.
  { intros p Hp Hne. apply wp_bind. eapply wp_delete_from_queue; [done..|set_solver|].
    intros s' Hr'. apply wp_ret. apply Hsome; [done..| |done]. by eapply (rep_queued s a i v Aff). }
  destruct (rep_sched _ _ _ _ Hr Hv) as (c & Hc & Hvc).
  assert (∀ p, p ∈ v_aff v ↔ p ∈ elems (affinity_queue c)) as Hel.
  { intros p. subst v. apply elem_of_contents. }
  destruct (rp_indexed _ _ Hr i c Aff Hc) as (Hlen & Hnd & _). simpl in Hlen, Hnd.
  assert (∀ j e, 1 ≤ j → elems (affinity_queue c) !! j = Some e →
    head (elems (affinity_queue c)) = Some (v_current v) → e ∈ v_aff v ∧ e ≠ v_current v) as Htail.
  { intros j e Hj He Hh. split; [apply Hel; by eapply list_elem_of_lookup_2|].
    intros ->. rewrite head_lookup in Hh. pose proof (NoDup_lookup _ _ _ _ Hnd He Hh). lia. }
  apply wp_bind.
  apply wp_bind, (wp_getopt _ c); [done|]. apply wp_zoom.
  eapply wp_mono; [apply (requeue_head affinity_kind); by apply (rp_indexed _ _ Hr i c Aff Hc)|].
  intros r h [-> ->]. cbn [heap threads].
  assert (set_schedulers (<[i:=set_queue Aff (affinity_queue c) c]> (schedulers s))
            (set_s_threads (s_threads s) s) = s) as Hid.
  { assert (set_queue Aff (affinity_queue c) c = c) as -> by by destruct c.
    rewrite list_insert_id by done. by destruct s. }
  cbn [queue] in *. rewrite Hid. clear Hid.
  destruct (elems (affinity_queue c)) as [|e0 l] eqn:Hes.
  { simpl. apply wp_ret, Hnone. intros p Hp. apply Hel in Hp. set_solver. }
  cbn [head from_option id]. assert (e0 ∈ v_aff v) as He0 by (apply Hel; by left).
  destruct (rep_queued s a i v Aff e0 Hr Hv He0) as [Hnn _].
  rewrite (proj2 (Z.eqb_neq e0 NULL)) by done. cbn [negb].
  sget c1 Hc1 Hvc1. assert (c1 = c) as -> by congruence. clear Hc1 Hvc1.
  destruct (Z.eqb_spec (current_thread c) e0) as [Hcur|Hcur].
  2:{ apply Hdel; [done|]. subst v. simpl. congruence. }
  assert (v_current v = e0) as Hcv by by subst v.
  assert (length (e0 :: l) = size (affinity_queue c)) as Hl.
  { rewrite <-Hes. by apply elems_length. }
  sget c1 Hc1 Hvc1. assert (c1 = c) as -> by congruence. clear Hc1 Hvc1.
  destruct (Nat.eqb_spec (size (affinity_queue c)) 1) as [H1|H1].
  { apply wp_ret, Hnone. intros p Hp. apply Hel in Hp. destruct l; simpl in *; [set_solver|lia]. }
  destruct (Nat.eqb_spec (size (affinity_queue c)) 2) as [H2|H2].
  { destruct l as [|e1 l]; [simpl in *; lia|]. apply wp_bind.
    eapply (wp_queue_elt i Aff 1 e1); [done|by simpl; rewrite Hes|].
    destruct (Htail 1 e1) as [Hin Hne]; [lia|done|simpl; congruence|]. by apply Hdel. }
  apply wp_bind. eapply wp_second_lowest; [done..| |].
  { destruct l as [|? [|? l]]; simpl in *; lia. }
  intros j e Hj He. rewrite Hes in He.
  destruct (Htail j e) as [Hin Hne]; [done..|simpl; congruence|]. by apply Hdel.
Qed.

Lemma wp_sched_eschew_thread i s a v (Q : ptr → sstate T → Prop) :
  rep s a → a_views a !! i = Some v → v_aff v = v_run v ∪ v_fin v →
  (v_aff v ⊆ {[v_current v]} → Q NULL s) →
  (∀ p t e s', p ∈ v_aff v → p ≠ v_current v → p ≠ NULL → a_threads a !! p = Some t →
     rep s' (upd_core p (set_epoch e t) (upd_view i (without p v) a)) → Q p s') →
  wp (sched_eschew_thread i) Q s.
Proof.
  intros Hr Hv Haff Hnone Hsome. apply wp_bind. eapply wp_get_lowest_affinity; [done..| |].
  { intros Hsub. simpl. by apply wp_bind, wp_ret, wp_ret, Hnone. }
  clear Hnone. intros p s1 Hp Hne Hnn Hr1.
  destruct (rep_queued s a i v Aff p Hr Hv Hp) as (_ & t & Ht).
  rewrite (proj2 (Z.eqb_neq p NULL)) by done. cbn [negb]. apply wp_bind.
  tread u Hu Huc. ssame. sget c Hc Hvc. tset. apply wp_ret. eapply Hsome; eauto.
Qed.

(** ** Taking a thread in *)

Definition unqueued (p : ptr) (a : abst) : Prop :=
  ∀ j q v, a_views a !! j = Some v → p ∉ v_queue q v.

(** A processor with the further thread [p]. *)
Definition joined (p : ptr) (v : view) : view :=
  with_queue Run ({[p]} ∪ v_run v) (with_queue Aff ({[p]} ∪ v_aff v) v).

Lemma wp_insert_aff i p s a v t (Q : unit → sstate T → Prop) :
  rep s a → a_views a !! i = Some v → a_threads a !! p = Some t → unqueued p a →
  base.size (v_aff v) < cap_aff v →
  (∀ s', rep s' (upd_view i (with_queue Aff ({[p]} ∪ v_aff v) v) a) → Q tt s') →
  wp (on_queue i Aff (affinity_heap_insert p)) Q s.
Proof.
  intros Hr Hv Ht Hun Hroom HQ. eapply (wp_queue_insert i Aff); [done..| |done|done].
  intros j q' v' Hj _. by eapply Hun.
Qed.

(** The thread is in the affinity queue already. *)
Lemma wp_insert_run i p s a v t (Q : unit → sstate T → Prop) :
  rep s a → a_views a !! i = Some v → a_threads a !! p = Some t →
  (∀ j q w, a_views a !! j = Some w → q ≠ Aff → p ∉ v_queue q w) →
  base.size (v_run v) < cap_run v →
  (∀ s', rep s' (upd_view i (with_queue Run ({[p]} ∪ v_run v) v) a) → Q tt s') →
  wp (on_queue i Run (priority_heap_insert p)) Q s.
Proof.
  intros Hr Hv Ht Hun Hroom HQ. eapply (wp_queue_insert i Run); [done..| |done|done].
  intros j q' v' Hj Hq. eapply Hun; [done|]. by destruct q'.
Qed.

Lemma unqueued_aff i p v X a :
  unqueued p a → a_views a !! i = Some v →
  ∀ j q w, a_views (upd_view i (with_queue Aff X v) a) !! j = Some w → q ≠ Aff →
    p ∉ v_queue q w.
Proof.
  intros Hun Hv j q w [(<- & <- & _)|[_ Hj]]%list_lookup_insert_Some Hq; [|by eapply Hun].
  pose proof (Hun i q v Hv) as Hp. by destruct q, v.
Qed.

Lemma wp_sched_reassign_thread i p s a v t (Q : unit → sstate T → Prop) :
  rep s a → a_views a !! i = Some v → a_threads a !! p = Some t → unqueued p a →
  base.size (v_aff v) < cap_aff v → base.size (v_run v) < cap_run v →
  (∀ t' s', stat t' = stat t → cpu_id t' = v_cpu v →
     rep s' (upd_core p t' (upd_view i (joined p v) a)) → Q tt s') →
  wp (sched_reassign_thread i p) Q s.
Proof.
  intros Hr Hv Ht Hun Hra Hrr HQ. unfold sched_reassign_thread.
  sget c Hc Hvc. tread u Hu Huc. apply wp_bind.
  assert (sc_cpu_id c = v_cpu v ∧ cpu_id u = cpu_id t) as [-> ->] by by subst.
  assert (∀ t' s', stat t' = stat t → cpu_id t' = v_cpu v → rep s' (upd_core p t' a) →
    wp (on_queue i Aff (affinity_heap_insert p);;
        r ← get_thread p (λ t, remaining (stat t));
        upd_sched i (λ c, set_total_count (s32 (total_count c + r)) c);;
        on_queue i Run (priority_heap_insert p);;
        e ← get_sched i sc_epoch;
        upd_thread p (set_epoch e)) Q s') as Hrest.
  { clear s c u Hr Hc Hvc Hu Huc. intros t' s Ht' Hid Hr. apply wp_bind.
    eapply wp_insert_aff; [done|look|look|done|done|]. clear s Hr. intros s Hr.
    tread u Hu Huc. ssame. apply wp_bind.
    eapply wp_insert_run; [done|look|look| |by destruct v|].
    { by apply (unqueued_aff i p v). }
    clear s Hr. intros s Hr. rewrite upd_view_twice in Hr.
    sget c Hc Hvc. eapply (wp_upd_thread p); [apply _|done|look|]. intros s2 Hr2.
    apply (HQ (set_epoch (sc_epoch c) t')); [done..|].
    rewrite <-(upd_core_twice p t'). unfold joined. destruct v. exact Hr2. }
  destruct (Z.eqb_spec (cpu_id t) (v_cpu v)) as [Heq|Hne]; cbn [negb].
  - apply wp_ret. apply (Hrest t); [done..|]. unfold upd_core. rewrite insert_id by done.
    by destruct a.
  - tset. eapply (wp_upd_thread p); [apply _|done|look|]. intros s1 Hr1.
    rewrite upd_core_twice in Hr1. by eapply Hrest; [| |exact Hr1].
Qed.

(** ** Loads *)

(** The scan for the extremal load over a list of loads. *)
Fixpoint scan (better : Z → Z → bool) (i : Z) (best : Z * Z) (l : list Z) : Z * Z :=
  match l with
  | [] => best
  | n :: l' => scan better (i + 1) (if better best.2 n then (i, n) else best) l'
  end.

Definition loads s : list Z := total_count <$> schedulers s.
Definition all_free s : Prop := ∀ i c, schedulers s !! i = Some c → sc_mutex c = false.

(** Reading a load under the lock of its scheduler. *)
Lemma wp_peek {A} i (k : Z → M (sstate T) A) s c (Q : A → sstate T → Prop) :
  schedulers s !! i = Some c → sc_mutex c = false →
  wp (k (total_count c)) Q s →
  wp (sched_lock i;; n ← get_sched i total_count; sched_unlock i;; k n) Q s.
Proof.
  intros Hc Hfree Hk. pose proof (lookup_lt_Some _ _ _ Hc) as Hlt.
  apply wp_bind, wp_bind, (wp_getopt _ false); [by rewrite Hc; simpl; rewrite Hfree|].
  apply wp_bind, wp_lock; [done|]. eapply wp_putopt; [by rewrite Hc|].
  apply wp_bind, (wp_getopt _ (total_count c)); [simpl; by rewrite list_lookup_insert_eq|].
  apply wp_bind. eapply wp_putopt; [simpl; by rewrite list_lookup_insert_eq|].
  simpl. rewrite list_insert_insert_eq.
  assert (set_sc_mutex false (set_sc_mutex true c) = c) as ->.
  { destruct c. simpl in *. by subst. }
  rewrite list_insert_id by done. by destruct s.
Qed.

Lemma wp_load_step better best i s c :
  schedulers s !! Z.to_nat i = Some c → sc_mutex c = false →
  wp (load_step better best i)
     (λ r s', s' = s ∧ r = if better best.2 (total_count c) then (i, total_count c) else best) s.
Proof.
  intros Hc Hfree. apply (wp_peek _ _ s c); [done..|]. destruct best as [arg count].
  by apply wp_ret.
Qed.

Lemma wp_load_loop better n : ∀ i best s,
  all_free s → (0 ≤ i)%Z → Z.to_nat i + n = length (schedulers s) →
  wp (load_loop better n i best)
     (λ r s', s' = s ∧ r = scan better i best (drop (Z.to_nat i) (loads s))) s.
Proof.
  induction n as [|n IH]; intros i best s Hfree Hi Hn; cbn [load_loop].
  - apply wp_ret. split; [done|]. rewrite drop_ge; [done|]. unfold loads. rewrite length_fmap. lia.
  - destruct (lookup_lt_is_Some_2 (schedulers s) (Z.to_nat i)) as [c Hc]; [lia|].
    apply wp_bind. eapply wp_mono; [by eapply wp_load_step; eauto|].
    intros r s' [-> ->]. eapply wp_mono; [apply IH; [done|lia|lia]|].
    intros r s' [-> ->]. split; [done|].
    assert (loads s !! Z.to_nat i = Some (total_count c)) as Hl.
    { unfold loads. by rewrite list_lookup_fmap, Hc. }
    rewrite (drop_S _ _ _ Hl). cbn [scan]. by replace (Z.to_nat (i + 1)) with (S (Z.to_nat i)) by lia.
Qed.

Lemma wp_extremal_load better s n l :
  all_free s → loads s = n :: l →
  wp (extremal_load better) (λ r s', s' = s ∧ r = (scan better 1 (0, n) l).1)%Z s.
Proof.
  intros Hfree Hl. unfold extremal_load. apply wp_bind, wp_gets.
  assert (∃ c, schedulers s !! 0 = Some c ∧ total_count c = n) as (c & Hc & Hcn).
  { unfold loads in Hl. destruct (schedulers s) as [|c cs]; [done|]. simplify_eq/=. eauto. }
  assert (length (schedulers s) = S (length l)) as Hlen.
  { rewrite <-(length_fmap total_count (schedulers s)). fold (loads s). by rewrite Hl. }
  apply (wp_peek _ _ s c); [done|by eapply Hfree|].
  apply wp_bind. eapply wp_mono; [apply wp_load_loop; [done|lia|simpl; lia]|].
  intros r s' [-> ->]. apply wp_ret. split; [done|]. rewrite Hl. by subst n.
Qed.

(** The scan keeps the first extremal load: [k] loads were seen, the best one,
    at index [b], is beaten by none of them and beats all before it. *)
Definition first_best (better : Z → Z → bool) (l : list Z) (best : Z * Z) : Prop :=
  ∃ b, best.1 = Z.of_nat b ∧ l !! b = Some best.2 ∧
    (∀ k n, l !! k = Some n → better best.2 n = false) ∧
    ∀ k n, k < b → l !! k = Some n → better n best.2 = true.

Lemma scan_first_best better pre l best :
  (∀ x y, better x y = true → better y x = false) →
  (∀ x y z, better x y = true → better y z = true → better x z = true) →
  (∀ x y z, better x y = false → better y z = false → better x z = false) →
  first_best better pre best →
  first_best better (pre ++ l) (scan better (Z.of_nat (length pre)) best l).
Proof.
  intros Hasym Htr Hntr. revert pre best.
  induction l as [|n l IH]; intros pre best Hb; cbn [scan]; [by rewrite app_nil_r|].
  rewrite cons_middle, app_assoc.
  replace (Z.of_nat (length pre) + 1)%Z with (Z.of_nat (length (pre ++ [n])))
    by (rewrite length_app; simpl; lia).
  apply IH. clear IH. destruct Hb as (b & Hb1 & Hb2 & Hmax & Hfirst).
  pose proof (lookup_lt_Some _ _ _ Hb2) as Hlt.
  destruct (better best.2 n) eqn:Hn.
  - exists (length pre). simpl. split_and!; [done| | |].
    + by rewrite lookup_app_r, Nat.sub_diag by done.
    + intros k m [Hk|[_ Hk]]%lookup_app_Some.
      * specialize (Hmax k m Hk). destruct (better n m) eqn:He; [|done].
        rewrite <-Hmax. symmetry. by eapply Htr.
      * apply list_lookup_singleton_Some in Hk as [_ <-].
        destruct (better n n) eqn:He; [|done]. by rewrite (Hasym _ _ He) in He.
    + intros k m Hk Hm. rewrite lookup_app_l in Hm by done. specialize (Hmax k m Hm).
      destruct (better m n) eqn:Hmn; [done|]. rewrite <-Hn. symmetry. eauto.
  - exists b. split_and!; [done| | |].
    + by rewrite lookup_app_l.
    + intros k m [Hk|[_ Hk]]%lookup_app_Some; [by eapply Hmax|].
      by apply list_lookup_singleton_Some in Hk as [_ <-].
    + intros k m Hk Hm. rewrite lookup_app_l in Hm by lia. by eapply Hfirst.
Qed.

Lemma wp_extremal_first better s :
  (∀ x y, better x y = true → better y x = false) →
  (∀ x y z, better x y = true → better y z = true → better x z = true) →
  (∀ x y z, better x y = false → better y z = false → better x z = false) →
  all_free s → schedulers s ≠ [] →
  wp (extremal_load better)
     (λ r s', s' = s ∧ ∃ m, first_best better (loads s) (r, m)) s.
Proof.
  intros Hasym Htr Hntr Hfree Hne.
  assert (∃ n l, loads s = n :: l) as (n & l & Hl).
  { unfold loads. destruct (schedulers s); [done|]. simpl. eauto. }
  eapply wp_mono; [by eapply wp_extremal_load|]. intros r s' [-> ->]. split; [done|].
  exists (scan better 1 (0%Z, n) l).2. rewrite <-surjective_pairing, Hl.
  apply (scan_first_best better [n] l (0%Z, n)); [done..|].
  exists 0. split_and!; [done|done| |intros; lia].
  intros k m Hk. apply list_lookup_singleton_Some in Hk as [_ <-].
  destruct (better n n) eqn:He; [|done]. by rewrite (Hasym _ _ He) in He.
Qed.

(** ** Locks of schedulers *)

Lemma wp_sched_lock i s a v (Q : unit → sstate T → Prop) :
  rep s a → a_views a !! i = Some v → v_lock v = false →
  (∀ s', rep s' (upd_view i (with_lock true v) a) → Q tt s') →
  wp (sched_lock i) Q s.
Proof.
  intros Hr Hv Hl HQ. unfold sched_lock. sget c Hc Hvc.
  apply wp_bind, wp_lock; [subst v; done|].
  eapply (wp_upd_sched _ _ _ _ _ (with_lock true v)); [done..| |done]. upd_done.
Qed.

Lemma wp_sched_unlock i s a v (Q : unit → sstate T → Prop) :
  rep s a → a_views a !! i = Some v →
  (∀ s', rep s' (upd_view i (with_lock false v) a) → Q tt s') →
  wp (sched_unlock i) Q s.
Proof.
  intros Hr Hv HQ. eapply (wp_upd_sched _ _ _ _ _ (with_lock false v)); [done..| |done]. upd_done.
Qed.

Lemma gtb_asym x y : (x <? y)%Z = true → (y <? x)%Z = false.
Proof. lia. Qed.

Lemma wp_highest_load s a (Q : Z → sstate T → Prop) :
  rep s a → a_views a ≠ [] → (∀ j v, a_views a !! j = Some v → v_lock v = false) →
  (∀ j w, a_views a !! j = Some w → Q (Z.of_nat j) s) →
  wp highest_load Q s.
Proof.
  intros Hr Hne Hfree HQ. eapply wp_mono.
  { apply wp_extremal_first; [intros; lia..| |].
    - intros j c Hc. pose proof (rep_view _ _ _ _ Hr Hc) as Hv. by apply Hfree in Hv.
    - intros Hs. apply Hne. by rewrite <-(rp_views _ _ Hr), Hs. }
  intros r s' [-> (m & b & Hrb & Hb & _)]. simpl in Hrb. subst r. unfold loads in Hb.
  rewrite list_lookup_fmap in Hb. destruct (schedulers s !! b) as [c|] eqn:Hc; [|done].
  eapply HQ, rep_view; [done|exact Hc].
Qed.
End operations.

(** ** The invariant *)

Record sched_wf (a : abst) (i k : nat) (v : view) : Prop := {
  sw_aff : v_aff v = v_run v ∪ v_fin v;
  sw_cpu : v_cpu v = Z.of_nat i;
  sw_room q : base.size (v_aff v) + k < v_cap q v;
  sw_home p : p ∈ v_aff v → ∃ t, a_threads a !! p = Some t ∧ cpu_id t = Z.of_nat i;
}.

(** [room j] cells more than needed are free in the queues of processor [j]. *)
Definition sys_wf (room : nat → nat) (a : abst) : Prop :=
  ∀ j v, a_views a !! j = Some v → sched_wf a j (room j) v.
(** Every processor runs a thread of its running queue, or none; processor [i]
    may be left out. *)
Definition cur_ok (v : view) : Prop := v_current v = NULL ∨ v_current v ∈ v_run v.
Definition cur_but (i : nat) (a : abst) : Prop :=
  ∀ j v, a_views a !! j = Some v → j ≠ i → cur_ok v.
Definition cur_wf (a : abst) : Prop := ∀ j v, a_views a !! j = Some v → cur_ok v.

Definition no_room (_ : nat) : nat := 0.
Definition room_at (i j : nat) : nat := if decide (j = i) then 1 else 0.

Definition free_but (i : nat) (a : abst) : Prop :=
  ∀ j v, a_views a !! j = Some v → j ≠ i → v_lock v = false.

(** Thread [p] is in the queues of some processor. *)
Definition queued (p : ptr) (a : abst) : Prop :=
  ∃ j v, a_views a !! j = Some v ∧ p ∈ v_aff v.

(** What rebalancing does for processor [i]: nothing but taking its lock, or
    moving one thread that does not run to it from another processor. *)
Inductive rebalanced (i : nat) (a : abst) : abst → Prop :=
| rebalanced_none v :
    a_views a !! i = Some v → rebalanced i a (upd_view i (with_lock true v) a)
| rebalanced_move v j w p t t' :
    a_views a !! i = Some v → a_views a !! j = Some w → i ≠ j →
    p ∈ v_aff w → p ≠ v_current w → a_threads a !! p = Some t →
    stat t' = stat t → cpu_id t' = Z.of_nat i →
    rebalanced i a
      (upd_core p t' (upd_view i (joined p (with_lock true v)) (upd_view j (without p w) a))).

Section invariant.
Context {T : Type}.
Implicit Types s : sstate T.

Lemma sys_unqueued a j w p room :
  disjoint_views (a_views a) → sys_wf room a → a_views a !! j = Some w → p ∈ v_aff w →
  unqueued p (upd_view j (without p w) a).
Proof.
  intros Hr Hwf Hw Hp k q v [(<- & <- & _)|[Hjk Hk]]%list_lookup_insert_Some Hpq.
  - destruct q, w; simpl in Hpq; set_solver.
  - pose proof (sw_aff _ _ _ _ (Hwf k v Hk)) as Haff.
    assert (p ∈ v_aff v) as Hpa by (destruct q; simpl in Hpq; set_solver).
    by apply (Hr j k Aff Aff w v Hw Hk eq_refl ltac:(congruence) p).
Qed.

Lemma unqueued_same i v v0 p a :
  (∀ q, v_queue q v = v_queue q v0) → a_views a !! i = Some v0 →
  unqueued p a → unqueued p (upd_view i v a).
Proof.
  intros Hq Hv Hun k q w [(<- & <- & _)|[_ Hk]]%list_lookup_insert_Some; [|by eapply Hun].
  rewrite Hq. by eapply Hun.
Qed.

Lemma size_run_aff a i k v : sched_wf a i k v → base.size (v_run v) ≤ base.size (v_aff v).
Proof. intros Hwf. apply subseteq_size. rewrite (sw_aff _ _ _ _ Hwf). set_solver. Qed.

Lemma wp_rebalance_load i s a v (Q : unit → sstate T → Prop) :
  rep s a → a_views a !! i = Some v → sys_wf (room_at i) a → free_but i a →
  (∀ a' s', rebalanced i a a' → rep s' a' → Q tt s') →
  wp (rebalance_load i) Q s.
Proof.
  intros Hr Hv Hwf Hfree HQ. pose proof (rp_disjoint _ _ Hr) as Hdisj.
  unfold rebalance_load. sget c Hc Hvc. clear Hc Hvc.
  apply wp_bind. eapply wp_sched_unlock; [done..|]. clear s Hr. intros s Hr.
  apply wp_bind. eapply (wp_highest_load s); [done|apply not_eq_sym| |].
  { intros Heq. pose proof (look_view_eq i (with_lock false v) v a Hv) as Hl. by rewrite <-Heq in Hl. }
  { intros j w [(<- & <- & _)|[Hij Hj]]%list_lookup_insert_Some; [done|]. by eapply Hfree. }
  intros j w Hj.
  assert (wp (sched_lock i) Q s) as Hdone.
  { eapply wp_sched_lock; [done|look|done|]. clear s Hr. intros s Hr.
    rewrite upd_view_twice in Hr. eapply HQ; [|done].
    replace (with_lock true (with_lock false v)) with (with_lock true v) by done.
    by constructor. }
  destruct (Z.eqb_spec (Z.of_nat j) (Z.of_nat i)) as [Heq|Hne]; cbn [negb]; [done|].
  assert (i ≠ j) as Hij by (intros ->; done). rewrite Nat2Z.id.
  assert (a_views a !! j = Some w) as Hw.
  { simpl in Hj. by rewrite list_lookup_insert_ne in Hj. }
  sget c' Hc' Hvc'. cbv zeta. destruct (LOAD_DIFF_TOLERANCE <? _)%Z; [|done].
  apply wp_bind. eapply wp_sched_lock; [done|exact Hj|by eapply Hfree|].
  clear Hc' Hvc' Hdone s Hr. intros s Hr.
  pose proof (Hwf j w Hw) as Hwfj. pose proof (Hwf i v Hv) as Hwfi.
  assert (a_views (upd_view j (with_lock true w) (upd_view i (with_lock false v) a)) !! i
    = Some (with_lock false v)) as Hvi by (eapply look_view_ne; [done|look]).
  assert (with_lock false (with_lock true w) = w) as Hww.
  { specialize (Hfree j w Hw ltac:(done)). destruct w; simpl in *; by subst. }
  apply wp_bind. eapply (wp_sched_eschew_thread j); [done|look|by destruct w; apply Hwfj| |].
  - intros _. apply wp_bind. eapply wp_sched_unlock; [done|look|]. clear s Hr. intros s Hr.
    rewrite upd_view_twice, Hww, upd_view_comm, (upd_view_id j w a) in Hr by done.
    rewrite Z.eqb_refl. cbn [negb].
    eapply wp_sched_lock; [done|look|done|]. clear s Hr. intros s Hr.
    rewrite upd_view_twice in Hr. eapply HQ; [by constructor|]. exact Hr.
  - intros p t e s' Hp Hcur Hnn Ht Hr'. clear s Hr. rename s' into s, Hr' into Hr.
    apply wp_bind. eapply wp_sched_unlock; [done|look|]. clear s Hr. intros s Hr.
    rewrite (proj2 (Z.eqb_neq p NULL)) by done. cbn [negb]. apply wp_bind.
    eapply (wp_sched_lock i); [done|eapply look_view_ne; [by apply not_eq_sym|look]|done|].
    clear s Hr. intros s Hr.
    change (rep s (upd_core p (set_epoch e t) (upd_view i (with_lock true v)
      (upd_view j (with_lock false (without p (with_lock true w)))
      (upd_view j (without p (with_lock true w)) (upd_view j (with_lock true w)
      (upd_view i (with_lock false v) a))))))) in Hr.
    assert (with_lock false (without p (with_lock true w)) = without p w) as Hlw
      by (destruct w; by rewrite <-Hww at 2).
    rewrite !upd_view_twice, Hlw, (upd_view_comm j i), upd_view_twice in Hr by done.
    eapply wp_sched_reassign_thread; [done|look|look| | | |].
    + apply (unqueued_same i (with_lock true v) v); [by intros []|by eapply look_view_ne|].
      by eapply sys_unqueued.
    + pose proof (sw_room _ _ _ _ Hwfi Aff) as Hro. destruct v; simpl in *. lia.
    + pose proof (sw_room _ _ _ _ Hwfi Run) as Hro. pose proof (size_run_aff _ _ _ _ Hwfi).
      destruct v; simpl in *. lia.
    + intros t' s' Ht' Hid Hr'. clear s Hr.
      change (rep s' (upd_core p t' (upd_core p (set_epoch e t)
        (upd_view i (joined p (with_lock true v)) (upd_view i (with_lock true v)
        (upd_view j (without p w) a)))))) in Hr'.
      rewrite upd_core_twice, upd_view_twice in Hr'. eapply HQ; [|exact Hr'].
      eapply rebalanced_move; try done. rewrite Hid. apply Hwfi.
Qed.
End invariant.

Lemma queued_upd_view j v v0 p b :
  a_views b !! j = Some v0 →
  queued p (upd_view j v b) ↔ p ∈ v_aff v ∨ ∃ k w, k ≠ j ∧ a_views b !! k = Some w ∧ p ∈ v_aff w.
Proof.
  intros Hj. split.
  - intros (k & w & [(<- & <- & _)|[Hjk Hk]]%list_lookup_insert_Some & Hp); [by left|right].
    exists k, w. split_and!; [congruence|done|done].
  - intros [Hp|(k & w & Hkj & Hk & Hp)].
    + exists j, v. split; [by eapply look_view_eq|done].
    + exists k, w. split; [by eapply look_view_ne; [apply not_eq_sym|]|done].
Qed.

(** What rebalancing does to the view of the system. *)
Section rebalanced.
Context (i : nat) (a a' : abst) (Hreb : rebalanced i a a').

Lemma rebalanced_exclusion : a_exclusion a' = a_exclusion a.
Proof. by destruct Hreb. Qed.

Lemma rebalanced_stat p : stat <$> a_threads a' !! p = stat <$> a_threads a !! p.
Proof.
  destruct Hreb as [|v j w p' t t']; [done|]. simpl.
  destruct (decide (p' = p)) as [<-|]; [|by rewrite lookup_insert_ne].
  rewrite lookup_insert_eq. simplify_option_eq. by f_equal.
Qed.

Lemma rebalanced_cpu p :
  ¬ queued p a → cpu_id <$> a_threads a' !! p = cpu_id <$> a_threads a !! p.
Proof.
  intros Hno. destruct Hreb as [|v j w p' t t' _ Hw _ Hp']; [done|]. simpl.
  rewrite lookup_insert_ne; [done|]. intros ->. apply Hno. by exists j, w.
Qed.

Lemma rebalanced_view v :
  a_views a !! i = Some v → ∃ v', a_views a' !! i = Some v' ∧ v_current v' = v_current v ∧
    v_cpu v' = v_cpu v ∧ v_fin v' = v_fin v ∧ v_run v ⊆ v_run v'.
Proof.
  intros Hv. destruct Hreb as [u Hu|u j w p t t' Hu]; simplify_eq.
  - exists (with_lock true v). split; [look|done].
  - exists (joined p (with_lock true v)). split.
    + look.
    + destruct v; simpl. split_and!; [done..|set_solver].
Qed.

Lemma rebalanced_aff v v' :
  a_views a !! i = Some v → a_views a' !! i = Some v' → v_lock v' = true ∧
  (v_aff v' = v_aff v ∨ ∃ p j w, j ≠ i ∧ a_views a !! j = Some w ∧ p ∈ v_aff w ∧
     p ≠ v_current w ∧ v_aff v' = {[p]} ∪ v_aff v).
Proof.
  intros Hv Hv'. pose proof (lookup_lt_Some _ _ _ Hv) as Hlt.
  destruct Hreb as [u Hu|u j w p t t' Hu Hw Hij Hp Hpc]; simpl in Hv';
    rewrite list_lookup_insert_eq in Hv' by (by rewrite ?length_insert); simplify_eq.
  - split; [done|by left].
  - split; [by destruct v|right]. exists p, j, w. split_and!; [by apply not_eq_sym|done..|].
    by destruct v.
Qed.

Lemma rebalanced_lookup j v' :
  a_views a' !! j = Some v' → j = i ∨ j ≠ i ∧ ∃ v, a_views a !! j = Some v ∧
    (v' = v ∨ ∃ p, p ≠ v_current v ∧ v' = without p v).
Proof.
  intros H. destruct (decide (j = i)) as [->|Hji]; [by left|right; split; [done|]].
  destruct Hreb as [u Hu|u k w p t t' Hu Hw Hik]; simpl in H.
  - rewrite list_lookup_insert_ne in H by done. eauto.
  - rewrite list_lookup_insert_ne in H by done.
    apply list_lookup_insert_Some in H as [(<- & <- & _)|[_ H]]; eauto 6.
Qed.

Lemma rebalanced_free : free_but i a → free_but i a'.
Proof.
  intros Hf j v' Hj Hji. destruct (rebalanced_lookup _ _ Hj) as [|(_ & v & Hv & Hvv)]; [done|].
  specialize (Hf j v Hv Hji). destruct Hvv as [->|(p & _ & ->)]; [done|by destruct v].
Qed.

Lemma rebalanced_cur : cur_but i a → cur_but i a'.
Proof.
  intros Hf j v' Hj Hji. destruct (rebalanced_lookup _ _ Hj) as [|(_ & v & Hv & Hvv)]; [done|].
  specialize (Hf j v Hv Hji). destruct Hvv as [->|(p & Hp & ->)]; [done|].
  destruct v; unfold cur_ok in *; simpl in *. set_solver.
Qed.


Lemma rebalanced_queued p : queued p a' ↔ queued p a.
Proof.
  assert (∀ j v b, a_views b !! j = Some v → queued p (upd_view j v b) ↔ queued p b) as Hid.
  { intros j v b Hj. by rewrite upd_view_id. }
  destruct Hreb as [v Hv|v j w q t t' Hv Hw Hij Hq].
  - rewrite <-(Hid i v a Hv), !queued_upd_view by done. by destruct v.
  - change (queued p (upd_view i (joined q (with_lock true v)) (upd_view j (without q w) a)) ↔
      queued p a).
    rewrite (queued_upd_view i _ v) by (by eapply look_view_ne; [apply not_eq_sym|]).
    split.
    + intros [Hp|(k & u & Hki & [(<- & <- & _)|[_ Hk]]%list_lookup_insert_Some & Hp)].
      * assert (p = q ∨ p ∈ v_aff v) as [->|Hp'] by (destruct v; simpl in *; set_solver).
        -- by exists j, w.
        -- by exists i, v.
      * exists j, w. split; [done|]. destruct w; simpl in *. set_solver.
      * by exists k, u.
    + intros (k & u & Hk & Hp). destruct (decide (k = i)) as [->|Hki].
      { left. assert (u = v) as -> by congruence. destruct v; simpl in *. set_solver. }
      destruct (decide (k = j)) as [->|Hkj].
      { assert (u = w) as -> by congruence. destruct (decide (p = q)) as [->|Hpq].
        - left. destruct v; simpl. set_solver.
        - right. exists j, (without q w). split_and!; [done|look|].
          destruct w; simpl in *. set_solver. }
      right. exists k, u. split_and!; [done| |done]. by eapply look_view_ne; [apply not_eq_sym|].
Qed.

Lemma rebalanced_wf :
  disjoint_views (a_views a) → sys_wf (room_at i) a → sys_wf no_room a'.
Proof.
  intros Hd Hwf. unfold no_room, room_at in *.
  destruct Hreb as [v Hv|v j w q t t' Hv Hw Hij Hq Hqc Ht Hst Hid].
  - intros k u [(<- & <- & _)|[_ Hk]]%list_lookup_insert_Some.
    + destruct (Hwf i v Hv) as [H1 H2 H3 H4]. rewrite decide_True in H3 by done.
      destruct v; split; simpl in *; [done|done| |done].
      intros qq. specialize (H3 qq). destruct qq; simpl in *; lia.
    + specialize (Hwf k u Hk) as [H1 H2 H3 H4]. split; try done.
      intros qq. specialize (H3 qq). lia.
  - assert (∀ k u p, a_views a !! k = Some u → p ∈ v_aff u → p ≠ q → ∃ t0,
      a_threads (upd_core q t' a) !! p = Some t0 ∧ cpu_id t0 = Z.of_nat k) as Hhome.
    { intros k u p Hk Hp Hpq. destruct (sw_home _ _ _ _ (Hwf k u Hk) p Hp) as (t0 & Ht0 & Hc).
      exists t0. split; [|done]. by eapply look_core_ne. }
    intros k u [(<- & <- & _)|[Hki [(<- & <- & _)|[Hkj Hk]]%list_lookup_insert_Some]]
      %list_lookup_insert_Some.
    + pose proof (Hhome i v) as Hh. destruct (Hwf i v Hv) as [H1 H2 H3 H4].
      rewrite decide_True in H3 by done.
      assert (base.size ({[q]} ∪ v_aff v) ≤ S (base.size (v_aff v))) as Hsz.
      { rewrite size_union_alt, size_singleton. pose proof (subseteq_size (v_aff v ∖ {[q]}) (v_aff v)).
        assert (v_aff v ∖ {[q]} ⊆ v_aff v) by set_solver. simpl. lia. }
      destruct v; split; simpl in *; [set_solver|done| |].
      * intros qq. specialize (H3 qq). destruct qq; simpl in *; lia.
      * intros p Hp. destruct (decide (p = q)) as [->|Hpq]; [by exists t'; split; [apply lookup_insert_eq|]|].
        apply Hh; [done|set_solver|done].
    + pose proof (Hhome j w) as Hh. destruct (Hwf j w Hw) as [H1 H2 H3 H4].
      assert (base.size (v_aff w ∖ {[q]}) ≤ base.size (v_aff w)) as Hsz
        by (apply subseteq_size; set_solver).
      destruct w; split; simpl in *; [set_solver|done| |].
      * intros qq. specialize (H3 qq). destruct qq; simpl in *; lia.
      * intros p Hp. apply Hh; [done|set_solver|set_solver].
    + pose proof (Hhome k u) as Hh. destruct (Hwf k u Hk) as [H1 H2 H3 H4]. split; [done|done| |].
      * intros qq. specialize (H3 qq). lia.
      * intros p Hp. apply Hh; [done..|]. intros ->.
        by apply (Hd j k Aff Aff w u Hw Hk eq_refl ltac:(congruence) q).
Qed.
End rebalanced.
