(* ===== verification/SchedRun.v ===== *)
(** * Choosing the next thread

    The proofs of the operations of src/sched/scheduler.c that change which
    thread runs ([sched_resched], [sched_remove_resched] and the functions they
    are made of), and of those that add and remove threads. *)

From stdpp Require Import functions.
From S2P Require Import Prelude Thread SiftHeap ThreadHeaps Rendezvous Scheduler SchedRep SchedProofs.

Section run.
Context {T : Type}.
Implicit Types s : sstate T.

(** The state has a view that satisfies the invariant, and the locks of the
    processors other than [i] are free. *)
Record good (i : nat) s (a : abst) : Prop := {
  gd_rep : rep s a;
  gd_wf : sys_wf no_room a;
  gd_cur : cur_wf a;
  gd_free : free_but i a;
}.

Lemma wp_current i s a v (Q : ptr → sstate T → Prop) :
  rep s a → a_views a !! i = Some v → Q (v_current v) s → wp (current i) Q s.
Proof. intros Hr Hv HQ. eapply wp_get_sched; [done..|]. intros c _ <-. exact HQ. Qed.

Lemma rep_misc s s' a :
  rep s a → s_threads s' = s_threads s → schedulers s' = schedulers s →
  exclusion s' = exclusion s → global_epoch_mutex s' = false →
  this_cpu s' < length (page_faults s') → rep s' a.
Proof.
  intros [] Ht Hs He Hm Hc. split; try done; try congruence.
  - rewrite Hs, Ht. eauto.
  - rewrite Hs. eauto.
Qed.

Lemma wp_cpu_page_faults s a (Q : Z → sstate T → Prop) :
  rep s a → (∀ n, Q n s) → wp cpu_page_faults Q s.
Proof.
  intros Hr HQ. destruct (lookup_lt_is_Some_2 _ _ (rp_cpu _ _ Hr)) as [n Hn].
  by apply (wp_getopt _ n).
Qed.

Lemma wp_charge_page_faults i s a v (Q : unit → sstate T → Prop) :
  rep s a → a_views a !! i = Some v → (∀ s', rep s' a → Q tt s') →
  wp (charge_page_faults i) Q s.
Proof.
  intros Hr Hv HQ. apply wp_bind. eapply wp_cpu_page_faults; [done|]. intros n.
  ssame. destruct (lookup_lt_is_Some_2 _ _ (rp_cpu _ _ Hr)) as [m Hm].
  eapply wp_putopt; [by rewrite Hm|]. apply HQ. pose proof Hr as []. apply (rep_misc s); try done.
  simpl. by rewrite length_insert.
Qed.

Lemma wp_update_epoch n s a (Q : Z → sstate T → Prop) :
  rep s a → (∀ r s', rep s' a → Q r s') → wp (update_epoch n) Q s.
Proof.
  intros Hr HQ. unfold update_epoch. pose proof Hr as [].
  apply wp_bind, wp_lock; [done|]. apply wp_bind, wp_gets, wp_bind.
  destruct (_ <? n)%Z; apply wp_bind, wp_unlock, wp_gets || apply wp_ret, wp_bind, wp_unlock, wp_gets;
    apply HQ; by apply (rep_misc s).
Qed.

(** The two priority queues change places. *)
Definition swap_queues (c : scheduler_t) : scheduler_t :=
  set_running_queue (finished_queue c) (set_finished_queue (running_queue c) c).

Lemma rep_swap s a i c :
  rep s a → schedulers s !! i = Some c →
  rep (set_schedulers (<[i := swap_queues c]> (schedulers s)) s)
    (upd_view i (swapped (view_of c)) a).
Proof.
  intros Hr Hc. pose proof (rep_view _ _ _ _ Hr Hc) as Hv.
  set (σ q := match q with Run => Fin | Fin => Run | Aff => Aff end).
  assert (∀ q, queue q (swap_queues c) = queue (σ q) c ∧ kind_of q = kind_of (σ q) ∧
    is_aff q = is_aff (σ q)) as Hσ by by intros [].
  assert (∀ j v, <[i:=swapped (view_of c)]> (a_views a) !! j = Some v → ∃ v0,
    a_views a !! j = Some v0 ∧
    ∀ q, v_queue q v = v_queue (if decide (j = i) then σ q else q) v0) as Hold.
  { intros j v [(<- & <- & _)|[Hij Hj]]%list_lookup_insert_Some.
    - exists (view_of c). split; [done|]. intros q. destruct (decide (i = i)); [|done]. by destruct q.
    - exists v. split; [done|]. intros q. by destruct (decide (j = i)) as [->|]. }
  destruct Hr; split; simpl; try done.
  - by rewrite list_fmap_insert, rp_views.
  - intros j cj q [(<- & <- & _)|[_ Hj]]%list_lookup_insert_Some; [|eauto].
    destruct (Hσ q) as (-> & -> & _). eauto.
  - intros j cj q [(<- & <- & _)|[_ Hj]]%list_lookup_insert_Some; [|eauto].
    destruct (Hσ q) as (-> & _). eauto.
  - intros j k q q' v v' Hj Hk Hqq Hne.
    apply Hold in Hj as (v0 & Hj & ->), Hk as (v1 & Hk & ->).
    apply (rp_disjoint j k _ _ _ _ Hj Hk).
    + repeat case_decide; by destruct q, q'.
    + intros [= -> Heq]. apply Hne. f_equal. case_decide; [|done]. by destruct q, q'.
Qed.

Lemma wp_do_epoch i s a v (Q : unit → sstate T → Prop) :
  rep s a → a_views a !! i = Some v → (∀ s', rep s' (upd_view i (swapped v) a) → Q tt s') →
  wp (do_epoch i) Q s.
Proof.
  intros Hr Hv HQ. destruct (rep_sched _ _ _ _ Hr Hv) as (c & Hc & <-).
  apply wp_bind. eapply wp_putopt; [by rewrite Hc|].
  pose proof (rep_swap _ _ _ _ Hr Hc) as Hr'. fold (swap_queues c). clear Hr.
  revert Hr'. generalize (set_schedulers (<[i:=swap_queues c]> (schedulers s)) s).
  intros s1 Hr. sget c' Hc' Hvc'. apply wp_bind. eapply wp_update_epoch; [done|].
  clear Hc' s1 Hr. intros e s1 Hr. ssame. ssame.
  eapply wp_upd_sched_same; [done|look|upd_done|]. done.
Qed.

(** ** Keeping the invariant *)

(** Nobody enters or leaves a processor and no thread changes its state. *)
Record steady (a a' : abst) : Prop := {
  st_aff j : v_aff <$> a_views a' !! j = v_aff <$> a_views a !! j;
  st_status p : status ∘ stat <$> a_threads a' !! p = status ∘ stat <$> a_threads a !! p;
}.

Lemma steady_refl a : steady a a.
Proof. done. Qed.

Lemma steady_trans a b c : steady a b → steady b c → steady a c.
Proof. intros [] []. split; congruence. Qed.

Lemma steady_queued a a' p : steady a a' → queued p a' ↔ queued p a.
Proof.
  intros [Ha _]. split; intros (j & v & Hj & Hp); specialize (Ha j); rewrite Hj in Ha;
    [symmetry in Ha|]; apply fmap_Some in Ha as (w & Hw & Heq); exists j, w; set_solver.
Qed.

Lemma steady_view i v v' a :
  a_views a !! i = Some v → v_aff v' = v_aff v → steady a (upd_view i v' a).
Proof.
  intros Hv Heq. split; [|done]. intros j. destruct (decide (i = j)) as [<-|Hne].
  - rewrite Hv, (look_view_eq _ _ v) by done. simpl. by rewrite Heq.
  - simpl. by rewrite list_lookup_insert_ne.
Qed.

Lemma steady_core p t t' a :
  a_threads a !! p = Some t → status (stat t') = status (stat t) → steady a (upd_core p t' a).
Proof.
  intros Ht Heq. split; [done|]. intros q. simpl. destruct (decide (p = q)) as [<-|Hne].
  - rewrite lookup_insert_eq, Ht. simpl. by rewrite Heq.
  - by rewrite lookup_insert_ne.
Qed.

Lemma sys_wf_view room a i v v' :
  sys_wf room a → a_views a !! i = Some v →
  v_aff v' = v_run v' ∪ v_fin v' → v_cpu v' = v_cpu v → v_aff v' ⊆ v_aff v →
  (∀ q, base.size (v_aff v') + room i < v_cap q v') →
  sys_wf room (upd_view i v' a).
Proof.
  intros Hwf Hv Haff Hcpu Hsub Hroom j w [(<- & <- & _)|[_ Hj]]%list_lookup_insert_Some;
    [|by destruct (Hwf j w Hj); split].
  destruct (Hwf i v Hv) as [_ H2 _ H4]. split; [done|congruence|done|]. intros p Hp. apply H4. auto.
Qed.

Lemma sys_wf_core room a p t t' :
  sys_wf room a → a_threads a !! p = Some t → cpu_id t' = cpu_id t →
  sys_wf room (upd_core p t' a).
Proof.
  intros Hwf Ht Hc j w Hj. destruct (Hwf j w Hj) as [H1 H2 H3 H4]. split; [done..|].
  intros q Hq. destruct (H4 q Hq) as (u & Hu & Hcu). destruct (decide (p = q)) as [->|Hne].
  - exists t'. split; [look|congruence].
  - exists u. split; [by apply look_core_ne|done].
Qed.

Lemma cur_wf_view a i v : cur_but i a → cur_ok v → cur_wf (upd_view i v a).
Proof.
  intros Hc Hv j w [(<- & <- & _)|[Hij Hj]]%list_lookup_insert_Some; [done|]. by eapply Hc.
Qed.

Lemma free_but_view a i v : free_but i a → free_but i (upd_view i v a).
Proof.
  intros Hf j w [(<- & _)|[_ Hj]]%list_lookup_insert_Some; [done|]. by apply Hf.
Qed.

Lemma cur_wf_but a i : cur_wf a → cur_but i a.
Proof. intros Hc j v Hj _. by eapply Hc. Qed.

(** An update of processor [i] that keeps its threads. *)
Lemma good_view i s s' a v v' :
  good i s a → a_views a !! i = Some v → rep s' (upd_view i v' a) →
  v_aff v' = v_aff v → v_run v' ∪ v_fin v' = v_run v ∪ v_fin v → v_cpu v' = v_cpu v →
  (∀ q, ∃ q', v_cap q v' = v_cap q' v) → cur_ok v' →
  good i s' (upd_view i v' a).
Proof.
  intros [Hr Hwf Hc Hf] Hv Hr' Ha Hrf Hcpu Hcap Hok. split; [done| | |by apply free_but_view].
  - pose proof (Hwf i v Hv) as [H1 _ H3 _]. eapply sys_wf_view; [done..| |done| |].
    + by rewrite Ha, Hrf.
    + by rewrite Ha.
    + intros q. destruct (Hcap q) as [q' ->]. rewrite Ha. apply H3.
  - apply cur_wf_view; [by apply cur_wf_but|done].
Qed.

(** An update of a thread on top of it. *)
Lemma good_both i s s' a v v' p t t' :
  good i s a → a_views a !! i = Some v → a_threads a !! p = Some t →
  rep s' (upd_core p t' (upd_view i v' a)) →
  v_aff v' = v_aff v → v_run v' ∪ v_fin v' = v_run v ∪ v_fin v → v_cpu v' = v_cpu v →
  (∀ q, ∃ q', v_cap q v' = v_cap q' v) → cur_ok v' → cpu_id t' = cpu_id t →
  good i s' (upd_core p t' (upd_view i v' a)).
Proof.
  intros [Hr Hwf Hc Hf] Hv Ht Hr' Ha Hrf Hcpu Hcap Hok Hid.
  split; [done| | |by apply (free_but_view a i v')].
  - eapply sys_wf_core; [|by look|done]. pose proof (Hwf i v Hv) as [H1 _ H3 _].
    eapply sys_wf_view; [done..| |done| |].
    + by rewrite Ha, Hrf.
    + by rewrite Ha.
    + intros q. destruct (Hcap q) as [q' ->]. rewrite Ha. apply H3.
  - apply (cur_wf_view a i v'); [by apply cur_wf_but|done].
Qed.

Lemma good_rep i s s' a : good i s a → rep s' a → good i s' a.
Proof. by intros []. Qed.

Lemma rekeyed_same q n t t' :
  rekeyed q n t t' → cpu_id t' = cpu_id t ∧ status (stat t') = status (stat t).
Proof. intros [->| ->]; by destruct q. Qed.

(** ** The parts of [sched_resched] *)

Definition retired (p : ptr) (v : view) : view :=
  with_queue Fin ({[p]} ∪ v_fin v) (with_queue Run (v_run v ∖ {[p]}) v).

Lemma wp_retire_current_thread i s a v t (Q : unit → sstate T → Prop) :
  rep s a → a_views a !! i = Some v → sched_wf a i 0 v → v_current v ∈ v_run v →
  a_threads a !! v_current v = Some t →
  (∀ s' t', cpu_id t' = cpu_id t → status (stat t') = status (stat t) →
     rep s' (upd_core (v_current v) t' (upd_view i (retired (v_current v) v) a)) → Q tt s') →
  wp (retire_current_thread i) Q s.
Proof.
  intros Hr Hv Hwf Hcur Ht HQ. set (cur := v_current v) in *.
  pose proof (rp_disjoint _ _ Hr) as Hd.
  assert (cur ∈ v_aff v ∧ cur ∉ v_fin v) as [Ha Hf].
  { split; [rewrite (sw_aff _ _ _ _ Hwf); set_solver|]. intros Hf. by eapply (rep_run_fin s a i v). }
  unfold retire_current_thread. apply wp_bind. eapply wp_current; [done..|]. fold cur.
  sget c Hc Hvc. tset. tset. tread u Hu Huc. ssame. apply wp_bind.
  eapply (wp_get_pos i Aff); [done|look|done|]. intros n Hat. sget c' Hc' Hvc'.
  apply wp_bind. eapply (wp_queue_set_key i Aff); [done|look|done|look|].
  clear dependent s. intros t2 s Hre Hr. apply rekeyed_same in Hre as [Hid Hst].
  apply wp_bind. eapply (wp_get_pos i Run); [done|look|done|]. clear n. intros n Hat.
  apply wp_bind. eapply (wp_queue_delete i Run); [done|look|done|].
  clear dependent s. intros _ s Hr.
  eapply (wp_queue_insert i Fin); [done|look|look| | |].
  - intros j q w Hj Hq Hp.
    assert (∀ v0 q', a_views a !! j = Some v0 → q' ≠ Aff → cur ∈ v_queue q' v0 → j = i ∧ q' = Run) as Huniq.
    { intros v0 q' Hj0 Hq' Hp'. destruct (decide ((i, Run) = (j, q'))) as [[= -> ->]|Hne]; [done|].
      exfalso. eapply (Hd i j Run q' v v0 Hv Hj0); [by destruct q'|done|exact Hcur|exact Hp']. }
    apply list_lookup_insert_Some in Hj as [(<- & <- & _)|[Hij Hj]].
    + destruct q, v; simpl in *; done || set_solver.
    + destruct (Huniq w q Hj) as [-> _]; [by destruct q|done|done].
  - pose proof (sw_room _ _ _ _ Hwf Fin) as Hro. pose proof (sw_aff _ _ _ _ Hwf).
    assert (base.size (v_fin v) ≤ base.size (v_aff v)) by (apply subseteq_size; set_solver).
    destruct v; simpl in *. lia.
  - clear dependent s. intros s Hr. rewrite upd_view_twice, upd_core_twice in Hr.
    apply (HQ s t2); [done|done|]. unfold retired. destruct v. exact Hr.
Qed.

Lemma wp_keep_current_thread i s a v t (Q : unit → sstate T → Prop) :
  rep s a → a_views a !! i = Some v → sched_wf a i 0 v → v_current v ∈ v_run v →
  a_threads a !! v_current v = Some t →
  (∀ s' h t', h ∈ v_run v → cpu_id t' = cpu_id t → status (stat t') = status (stat t) →
     rep s' (upd_core (v_current v) t' (upd_view i (with_current h v) a)) → Q tt s') →
  wp (keep_current_thread i) Q s.
Proof.
  intros Hr Hv Hwf Hcur Ht HQ. set (cur := v_current v) in *.
  assert (cur ∈ v_aff v) as Ha by (rewrite (sw_aff _ _ _ _ Hwf); set_solver).
  unfold keep_current_thread, head_remaining.
  sget c Hc Hvc. apply wp_bind, wp_bind. eapply (wp_queue_head i Run); [done..|].
  intros h [[-> Hh]|[Hnn Hh]]; [simpl in Hh; set_solver|]. simpl in Hh.
  destruct (rep_queued s a i v Run h Hr Hv Hh) as [_ [th Hth]].
  eapply wp_get_thread; [done|exact Hth|]. intros u _ _.
  apply wp_bind. eapply (wp_queue_head i Run); [done..|].
  intros h' [[-> Hh']|[_ Hh']]; [simpl in Hh'; set_solver|]. clear Hh'.
  apply wp_bind. eapply wp_current; [done..|]. fold cur.
  destruct (_ && _).
  - apply wp_bind. eapply (wp_get_pos i Aff); [done|look|done|]. intros n Hat.
    apply wp_bind. eapply wp_cpu_page_faults; [done|]. intros pf.
    apply wp_bind. eapply (wp_queue_set_key i Aff); [done|look|done|look|].
    clear dependent s. clear n. intros t1 s Hre Hr. apply rekeyed_same in Hre as [Hid1 Hst1].
    apply wp_bind. eapply (wp_get_pos i Run); [done|look|done|]. intros n Hat.
    apply wp_bind. eapply (wp_queue_set_key i Run); [done|look|done|look|].
    clear dependent s. intros t2 s Hre Hr. apply rekeyed_same in Hre as [Hid2 Hst2].
    rewrite upd_core_twice in Hr.
    apply wp_bind. eapply (wp_queue_head i Run); [done|look|].
    intros k [[-> Hk]|[Hkn Hk]]; [simpl in Hk; set_solver|]. simpl in Hk.
    sset (with_current k v).
    destruct (rep_queued _ _ i (with_current k v) Run k Hr ltac:(look) Hk) as [_ [tk Htk]].
    apply wp_bind. eapply wp_get_thread; [done|exact Htk|]. intros u' _ _.
    eapply wp_upd_sched_same; [done|look|upd_done|]. clear dependent s. intros s Hr.
    eapply (HQ s k t2); [done|congruence|congruence|exact Hr].
  - apply wp_ret. apply (HQ s cur t); [done..|].
    replace (with_current cur v) with v by (by destruct v).
    rewrite upd_view_id by done. unfold upd_core. rewrite insert_id by done. by destruct a.
Qed.

(** The next thread: the head of the running queue, after exchanging the
    queues when the epoch is over. *)
Lemma wp_pick_next i s a v (Q : unit → sstate T → Prop) :
  rep s a → a_views a !! i = Some v → v_run v ∪ v_fin v ≠ ∅ →
  (∀ s' v' h, v' = v ∨ v' = swapped v → h ∈ v_run v' →
     rep s' (upd_view i (with_current h v') a) → Q tt s') →
  wp (epoch_over ← check_for_epoch i;
      (if (epoch_over : bool) then do_epoch i else mret tt);;
      h ← on_queue i Run priority_heap_head;
      upd_sched i (set_current_thread h);;
      reload_current i) Q s.
Proof.
  intros Hr Hv Hne HQ.
  assert (∀ s' v', rep s' (upd_view i v' a) → v' = v ∨ v' = swapped v → v_run v' ≠ ∅ →
    wp (h ← on_queue i Run priority_heap_head;
        upd_sched i (set_current_thread h);; reload_current i) Q s') as Hrest.
  { intros s' v' Hr' Hv' Hrun. apply wp_bind. eapply (wp_queue_head i Run); [done|look|].
    intros h [[_ Hh]|[_ Hh]]; [done|]. simpl in Hh. clear dependent s.
    rename s' into s, Hr' into Hr. sset (with_current h v').
    apply wp_bind. eapply wp_current; [done|look|].
    destruct (rep_queued _ _ i (with_current h v') Run h Hr ltac:(look) Hh) as [_ [th Hth]].
    apply wp_bind. eapply wp_get_thread; [done|exact Hth|]. intros u _ _.
    eapply wp_upd_sched_same; [done|look|upd_done|]. intros s' Hr'. by eapply HQ. }
  apply wp_bind, wp_bind. eapply wp_get_sched; [done..|]. intros c Hc Hvc. apply wp_ret.
  pose proof (v_queue_size Run s a i c Hr Hc) as Hsz. rewrite Hvc in Hsz. simpl in Hsz.
  destruct (Nat.eqb_spec (size (running_queue c)) 0) as [H0|H0]; apply wp_bind.
  - eapply wp_do_epoch; [done..|]. intros s' Hr'. eapply Hrest; [done|by right|].
    rewrite H0 in Hsz. apply size_empty_inv in Hsz. destruct v; simpl in *. set_solver.
  - apply wp_ret, (Hrest s v); [by rewrite upd_view_id|by left|].
    intros Hemp. rewrite Hemp, size_empty in Hsz. done.
Qed.

Lemma wp_check_current_thread i s a v (Q : unit → sstate T → Prop) :
  good i s a → a_views a !! i = Some v → v_run v ∪ v_fin v ≠ ∅ →
  (∀ s' a' v', good i s' a' → steady a a' → a_exclusion a' = a_exclusion a →
     a_views a' !! i = Some v' → v_current v' ∈ v_run v' → Q tt s') →
  wp (check_current_thread i) Q s.
Proof.
  intros Hg Hv Hne HQ. pose proof Hg as [Hr Hwf Hc Hf].
  pose proof (Hwf i v Hv) as Hwfi. pose proof (Hc i v Hv) as Hok.
  unfold check_current_thread. apply wp_bind. eapply wp_current; [done..|].
  destruct (Z.eqb_spec (v_current v) NULL) as [Hnull|Hnn]; cbn [negb].
  - apply wp_bind, wp_ret. cbn iota. sget c Hc' Hvc. cbn [orb].
    apply wp_bind, wp_ret. eapply wp_pick_next; [done..|]. clear Hc'.
    intros s' v' h Hv' Hh Hr'.
    eapply (HQ s' (upd_view i (with_current h v') a) (with_current h v')); [|by eapply steady_view; [|destruct Hv' as [->| ->]]|done|look|done].
    eapply good_view; [done..| | | | |by right].
    + by destruct Hv' as [->| ->].
    + destruct Hv' as [->| ->]; simpl; set_solver.
    + by destruct Hv' as [->| ->].
    + intros q. destruct Hv' as [->| ->]; [by exists q; destruct q|].
      exists (match q with Run => Fin | Fin => Run | Aff => Aff end). by destruct q.
  - destruct Hok as [|Hcur]; [done|].
    destruct (rep_queued s a i v Run _ Hr Hv Hcur) as [_ [t Ht]].
    apply wp_bind, wp_bind, wp_bind. eapply wp_current; [done..|].
    eapply wp_get_thread; [done..|]. intros u _ _. apply wp_ret.
    destruct (_ || _).
    { apply wp_ret. eapply HQ; [done|apply steady_refl|done..]. }
    sget c Hc' Hvc. cbn [orb]. clear Hc'. destruct (_ <=? 0)%Z.
    + apply wp_bind. eapply wp_retire_current_thread; [done..|]. clear u.
      intros s1 t' Hid Hst Hr1.
      eapply wp_pick_next; [done|look|destruct v; simpl in *; set_solver|].
      intros s' v' h Hv' Hh Hr'. set (cur := v_current v) in *.
      change (rep s' (upd_core cur t' (upd_view i (with_current h v')
        (upd_view i (retired cur v) a)))) in Hr'. rewrite upd_view_twice in Hr'.
      assert (v_aff (with_current h v') = v_aff v) as Haff by (destruct Hv' as [->| ->], v; done).
      eapply (HQ s' _ (with_current h v')); [|eapply steady_trans;
        [by eapply (steady_view i v (with_current h v'))|by eapply steady_core; [look|]]
        |done|look|done].
      eapply good_both; [done..| | | |by right|done].
      * clearbody cur. clear -Hv' Hcur. assert ({[cur]} ∪ v_fin v ∪ v_run v ∖ {[cur]} =
          v_run v ∪ v_fin v ∧ v_run v ∖ {[cur]} ∪ ({[cur]} ∪ v_fin v) = v_run v ∪ v_fin v)
          as [H1 H2].
        { split; apply set_eq; intros x; destruct (decide (x = cur)); set_solver. }
        by destruct Hv' as [->| ->], v.
      * by destruct Hv' as [->| ->], v.
      * intros q. destruct Hv' as [->| ->]; [by exists q; destruct q, v|].
        exists (match q with Run => Fin | Fin => Run | Aff => Aff end). by destruct q, v.
    + eapply wp_keep_current_thread; [done..|]. intros s' h t' Hh Hid Hst Hr'.
      eapply (HQ s' _ (with_current h v)); [|eapply steady_trans;
        [by eapply (steady_view i v (with_current h v))|by eapply steady_core; [look|]]
        |done|look|done].
      eapply good_both; [done..| |by right|done]. intros q. exists q. by destruct q.
Qed.

(** *** Removing the current thread *)

(** Processor [i] lost thread [p]. *)
Record lost (i : nat) (p : ptr) (a a' : abst) : Prop := {
  lo_queued x : queued x a' ↔ queued x a ∧ x ≠ p;
  lo_status x : status ∘ stat <$> a_threads a' !! x = status ∘ stat <$> a_threads a !! x;
  lo_exclusion : a_exclusion a' = a_exclusion a;
  lo_cpu : cpu_id <$> a_threads a' !! p = cpu_id <$> a_threads a !! p;
}.

Lemma queued_without i v p a :
  disjoint_views (a_views a) → a_views a !! i = Some v → p ∈ v_aff v →
  ∀ x, queued x (upd_view i (without p v) a) ↔ queued x a ∧ x ≠ p.
Proof.
  intros Hd Hv Hp x. rewrite (queued_upd_view i _ v) by done. split.
  - intros [Hx|(k & w & Hki & Hk & Hx)].
    + split; [exists i, v|]; destruct v; simpl in *; set_solver.
    + split; [by exists k, w|]. intros ->.
      by apply (Hd i k Aff Aff v w Hv Hk eq_refl ltac:(congruence) p).
  - intros [(k & w & Hk & Hx) Hne]. destruct (decide (k = i)) as [->|Hki]; [left|right; eauto].
    assert (w = v) as -> by congruence. destruct v; simpl in *. set_solver.
Qed.

Lemma size_remove (X : gset ptr) p : p ∈ X → base.size (X ∖ {[p]}) + 1 = base.size X.
Proof.
  intros Hp. rewrite size_difference by set_solver. rewrite size_singleton.
  assert (base.size X ≠ 0); [|lia]. intros H0. apply size_empty_inv in H0. set_solver.
Qed.

Lemma without_wf i v p t a :
  disjoint_views (a_views a) → sys_wf no_room a → a_views a !! i = Some v → p ∈ v_aff v →
  sys_wf (room_at i) (upd_core p t (upd_view i (without p v) a)).
Proof.
  intros Hd Hwf Hv Hp. unfold room_at, no_room in *.
  assert (∀ k w x, a_views a !! k = Some w → x ∈ v_aff w → x ≠ p → ∃ t0,
    a_threads (upd_core p t a) !! x = Some t0 ∧ cpu_id t0 = Z.of_nat k) as Hhome.
  { intros k w x Hk Hx Hne. destruct (sw_home _ _ _ _ (Hwf k w Hk) x Hx) as (t0 & Ht0 & Hc).
    exists t0. split; [|done]. by eapply look_core_ne. }
  intros k w [(<- & <- & _)|[Hki Hk]]%list_lookup_insert_Some.
  - pose proof (Hhome i v) as Hh. destruct (Hwf i v Hv) as [H1 H2 H3 H4].
    pose proof (size_remove _ _ Hp). rewrite decide_True by done.
    destruct v; split; simpl in *; [set_solver|done| |].
    + intros q. specialize (H3 q). destruct q; simpl in *; lia.
    + intros x Hx. apply Hh; [done|set_solver|set_solver].
  - pose proof (Hhome k w) as Hh. destruct (Hwf k w Hk) as [H1 H2 H3 H4]. split; [done|done| |].
    + intros q. specialize (H3 q). by rewrite decide_False by done.
    + intros x Hx. apply Hh; [done..|]. intros ->.
      by apply (Hd i k Aff Aff v w Hv Hk eq_refl ltac:(congruence) p).
Qed.

Lemma wp_remove_current i s a v (Q : unit → sstate T → Prop) :
  good i s a → a_views a !! i = Some v → v_current v ∈ v_run v →
  (∀ s' a' v', good i s' a' → lost i (v_current v) a a' → a_views a' !! i = Some v' →
     (v_current v' = NULL ∧ v_run v' = ∅ ∨ v_current v' ≠ NULL ∧ v_current v' ∈ v_run v') →
     v_fin v' = v_fin v → v_run v ∖ {[v_current v]} ⊆ v_run v' → Q tt s') →
  wp (remove_current i) Q s.
Proof.
  intros [Hr Hwf Hc Hf] Hv Hcur HQ. pose proof (rp_disjoint _ _ Hr) as Hd.
  pose proof (Hwf i v Hv) as Hwfi. set (cur := v_current v) in *.
  assert (cur ∈ v_aff v ∧ cur ∉ v_fin v) as [Ha Hnf].
  { split; [rewrite (sw_aff _ _ _ _ Hwfi); set_solver|]. intros Hnf. by eapply (rep_run_fin s a i v). }
  destruct (rep_queued s a i v Run _ Hr Hv Hcur) as [_ [t Ht]].
  unfold remove_current. apply wp_bind. eapply wp_current; [done..|]. fold cur.
  tread u Hu Huc. ssame. sget c1 Hc1 Hvc1. tset. sget c2 Hc2 Hvc2. tset.
  apply wp_bind. eapply wp_charge_page_faults; [done|look|]. clear dependent s. intros s Hr.
  apply wp_bind. eapply (wp_get_pos i Aff); [done|look|done|]. intros n Hat.
  apply wp_bind. eapply (wp_queue_delete i Aff); [done|look|done|].
  clear dependent s. clear n. intros _ s Hr.
  apply wp_bind. eapply (wp_get_pos i Run cur); [done|look|clearbody cur; by destruct v|].
  intros n Hat. apply wp_bind. eapply (wp_queue_delete i Run); [done|look|done|].
  clear dependent s. clear n. intros _ s Hr. rewrite upd_view_twice in Hr.
  set (t1 := on_stat _ _) in Hr.
  assert (rep s (upd_core cur t1 (upd_view i (without cur v) a))) as Hr1.
  { assert (without cur v = with_queue Run (v_queue Run (with_queue Aff (v_queue Aff v ∖ {[cur]}) v)
      ∖ {[cur]}) (with_queue Aff (v_queue Aff v ∖ {[cur]}) v)) as ->; [|exact Hr].
    unfold without. assert (v_fin v ∖ {[cur]} = v_fin v) as -> by (clearbody cur; set_solver).
    by destruct v. }
  clear Hr. set (a1 := upd_core cur t1 _) in Hr1.
  assert (a_views a1 !! i = Some (without cur v)) as Hv1 by (subst a1; look).
  assert (sys_wf (room_at i) a1) as Hwf1 by by apply without_wf.
  apply wp_bind. eapply wp_get_sched; [done..|]. intros c3 _ Hvc3. assert (sc_cpu_id c3 = Z.of_nat i) as ->.
  { rewrite <-(sw_cpu _ _ _ _ (Hwf1 i _ Hv1)). by rewrite <-Hvc3. }
  rewrite Nat2Z.id. apply wp_bind. eapply wp_rebalance_load; [done..|by apply free_but_view|].
  pose proof (rp_disjoint _ _ Hr1) as Hd1. clear dependent s. intros a2 s Hreb Hr.
  destruct (rebalanced_view _ _ _ Hreb _ Hv1) as (v2 & Hv2 & _ & _ & Hfin2 & Hrun2).
  apply wp_bind. eapply (wp_queue_head i Run); [done..|]. intros h Hh. simpl in Hh.
  eapply (wp_upd_sched _ _ _ _ _ (with_current h v2)); [done..|upd_done|].
  clear dependent s. intros s Hr.
  assert (∀ x, queued x (upd_view i (with_current h v2) a2) ↔ queued x a2) as Hqc.
  { intros x. apply steady_queued. by eapply steady_view. }
  eapply (HQ s _ (with_current h v2)); [|split| | | |].
  - split; [done| | |].
    + pose proof (rebalanced_wf _ _ _ Hreb Hd1 Hwf1) as Hwf2.
      destruct (Hwf2 i v2 Hv2) as [H1 _ H3 _].
      eapply (sys_wf_view _ a2 i v2); [done..|]. intros q. specialize (H3 q). by destruct q.
    + apply cur_wf_view; [|destruct Hh as [[-> _]|[_ Hh]]; [by left|by right]].
      eapply rebalanced_cur; [done|]. intros j w Hj Hji.
      change (a_views (upd_view i (without cur v) a) !! j = Some w) in Hj.
      simpl in Hj. rewrite list_lookup_insert_ne in Hj by done. by eapply Hc.
    + apply free_but_view. eapply rebalanced_free; [done|]. by apply (free_but_view a i).
  - intros x. rewrite Hqc, (rebalanced_queued i a1 a2 Hreb). by apply (queued_without i v cur a).
  - intros x. change (a_threads (upd_view i (with_current h v2) a2)) with (a_threads a2).
    rewrite !option_fmap_compose, (rebalanced_stat i a1 a2 Hreb), <-!option_fmap_compose.
    by apply (steady_core cur t t1 a).
  - simpl. by rewrite (rebalanced_exclusion i a1 a2 Hreb).
  - change (a_threads (upd_view i (with_current h v2) a2)) with (a_threads a2).
    rewrite (rebalanced_cpu i a1 a2 Hreb).
    + subst a1. simpl. by rewrite lookup_insert_eq, Ht.
    + intros Hq. by apply (queued_without i v cur a) in Hq as [_ ?].
  - look.
  - simpl. destruct Hh as [[-> Hh]|[Hn Hh]]; [by left|by right].
  - simpl. rewrite Hfin2. destruct v; simpl. clearbody cur. set_solver.
  - simpl. etrans; [|exact Hrun2]. by destruct v.
Qed.

Definition stopped (a : abst) (p : ptr) : Prop :=
  ∃ t, a_threads a !! p = Some t ∧ RUNNABLE_STATE (status (stat t)) = false.

Lemma wp_current_status i s a v t (Q : Z → sstate T → Prop) :
  rep s a → a_views a !! i = Some v → a_threads a !! v_current v = Some t →
  Q (status (stat t)) s → wp (current_status i) Q s.
Proof.
  intros Hr Hv Ht HQ. apply wp_bind. eapply wp_current; [done..|].
  eapply wp_get_thread; [done..|]. by intros u _ <-.
Qed.

Lemma good_thread i s a v :
  good i s a → a_views a !! i = Some v → v_current v ≠ NULL →
  v_current v ∈ v_run v ∧ ∃ t, a_threads a !! v_current v = Some t.
Proof.
  intros [Hr _ Hc _] Hv Hnn. destruct (Hc i v Hv) as [|Hcur]; [done|]. split; [done|].
  by destruct (rep_queued s a i v Run _ Hr Hv Hcur) as [_ [t Ht]]; exists t.
Qed.

Lemma wp_test_runnable i s a v (Q : unit → sstate T → Prop) :
  good i s a → a_views a !! i = Some v →
  (¬ (v_current v ≠ NULL ∧ stopped a (v_current v)) → Q tt s) →
  (v_current v ≠ NULL → stopped a (v_current v) → ∀ s' a' v', good i s' a' →
     lost i (v_current v) a a' → a_views a' !! i = Some v' → v_current v' = NULL → Q tt s') →
  wp (test_runnable i) Q s.
Proof.
  intros Hg Hv Hsame Hlost. pose proof Hg as [Hr _ _ _].
  unfold test_runnable. apply wp_bind. eapply wp_current; [done..|].
  destruct (Z.eqb_spec (v_current v) NULL) as [Hnull|Hnn]; cbn [negb].
  { apply wp_ret, Hsame. naive_solver. }
  destruct (good_thread i s a v Hg Hv Hnn) as (Hcur & t & Ht).
  apply wp_bind. eapply wp_current_status; [done..|].
  destruct (RUNNABLE_STATE (status (stat t))) eqn:Hst; cbn [negb].
  { apply wp_ret, Hsame. intros (_ & t' & Ht' & Hs). simplify_eq. congruence. }
  apply wp_bind. eapply wp_remove_current; [done..|].
  intros s' a' v' Hg' Hlo Hv' _ _ _. pose proof Hg' as [Hr' _ _ _].
  eapply (wp_upd_sched _ _ _ _ _ (with_current NULL v')); [done..|upd_done|].
  clear dependent s. intros s Hr. eapply (Hlost Hnn) with (a' := upd_view i (with_current NULL v') a')
    (v' := with_current NULL v'); [by exists t|..|look|done].
  - eapply good_view; [done..| |by left]. intros q. exists q. by destruct q.
  - destruct Hlo as [H1 H2 H3 H4]. split; [|done..]. intros x. rewrite <-H1.
    apply steady_queued. by eapply steady_view.
Qed.

(** *** Exclusion *)

Definition upd_exclusion (e : Z) (a : abst) : abst := Abst (a_views a) (a_threads a) e.

Lemma rep_exclusion s a x : rep s a → rep (set_exclusion_vars x s) (upd_exclusion (ex_var x) a).
Proof. by intros []; split. Qed.

Lemma good_exclusion i s s' a e :
  good i s a → rep s' (upd_exclusion e a) → good i s' (upd_exclusion e a).
Proof.
  intros [Hr Hwf Hc Hf] Hr'. split; [done| |done|done].
  intros j v Hj. by destruct (Hwf j v Hj); split.
Qed.

Context (meanwhile : which → excl_t → excl_t) (released : which → excl_t → option excl_t).

(** One of the two rendezvous of [do_exclusion]. *)
Lemma wp_exclusion_write (f : Z → Z) w s a (Q : unit → sstate T → Prop) :
  (∀ w x, spin_ends released w x) → rep s a → (∀ s' e, rep s' (upd_exclusion e a) → Q tt s') →
  wp (on_excl (modify (set_ex_var f);; join_point meanwhile released w)) Q s.
Proof.
  intros He Hr HQ. apply wp_zoom, wp_bind, wp_modify, wp_join_point; [done|].
  intros x. eapply HQ. by apply rep_exclusion.
Qed.

Lemma wp_do_exclusion i s a v (Q : bool → sstate T → Prop) :
  (∀ w x, spin_ends released w x) → rep s a → a_views a !! i = Some v → v_current v ∈ v_run v →
  (∀ b s' e, rep s' (upd_exclusion e a) → Q b s') →
  wp (do_exclusion meanwhile released i) Q s.
Proof.
  intros He Hr Hv Hcur HQ.
  destruct (rep_queued s a i v Run _ Hr Hv Hcur) as [_ [t Ht]].
  assert (rep s (upd_exclusion (a_exclusion a) a)) as Hr0 by by destruct a.
  unfold do_exclusion. apply wp_bind. eapply wp_current_status; [done..|].
  unfold holding. apply wp_bind. sget c Hc Hvc. apply wp_ret. clear Hc Hvc.
  destruct (_ || _); [|by eapply HQ].
  assert (∀ (m : M (sstate T) bool) (c1 : bool) (f : Z → Z) w,
    (∀ s' e, rep s' (upd_exclusion e a) → wp m Q s') → ∀ s' e, rep s' (upd_exclusion e a) →
    wp ((if c1 then on_excl (modify (set_ex_var f);; join_point meanwhile released w)
         else mret tt);; m) Q s') as Hstep.
  { intros m c1 f w Hm s' e Hr'. apply wp_bind. destruct c1; [|by apply wp_ret; eapply Hm].
    eapply wp_exclusion_write; [done..|]. intros s2 e2 Hr2. by eapply Hm. }
  unfold clear_exclusion, set_exclusion.
  eapply Hstep; [|done]. clear dependent s. intros s e Hr.
  apply wp_bind. eapply wp_get_sched; [done|exact Hv|]. intros c' _ _.
  assert (∀ s' e', rep s' (upd_exclusion e' a) →
    wp (e ← gets exclusion;
        if check_exclusion (s32 (sc_cpu_id c')) e then
          (if (status (stat t) =? SCHED_EXCLUSIVE)%Z || (status (stat t) =? SCHED_ATOMIC)%Z then
             upd_sched i (λ c, set_sc_flags (Z.lor (sc_flags c) HOLDING_EXCLUSION) c)
           else mret tt);; mret true
        else upd_sched i (λ c, set_sc_flags (Z.lor (sc_flags c) EXCLUDED) c);; mret false)
       Q s') as Hcheck.
  { clear s Hr. intros s e' Hr. apply wp_bind, wp_gets.
    assert (∀ (f : scheduler_t → scheduler_t) (b : bool),
      (∀ c, (∀ q, queue q (f c) = queue q c) ∧ view_of (f c) = view_of c) →
      wp (upd_sched i f;; mret b) Q s) as Hflag.
    { intros f b Hf. apply wp_bind.
      eapply wp_upd_sched_same; [exact Hr|exact Hv|exact Hf|]. intros s2 Hr2.
      apply wp_ret. by eapply HQ. }
    destruct (check_exclusion _ _); [|by apply Hflag].
    destruct (_ || _); [by apply Hflag|]. apply wp_bind, wp_ret, wp_ret. by eapply HQ. }
  apply wp_bind. destruct (negb _); [|by apply wp_ret; eapply Hcheck].
  destruct (_ && _); (eapply wp_exclusion_write; [done..|]; intros s2 e2 Hr2; by eapply Hcheck).
Qed.

Lemma wp_go_idle i s a v t (Q : ptr → sstate T → Prop) :
  rep s a → a_views a !! i = Some v → a_threads a !! v_current v = Some t →
  (∀ s' n, rep s' (upd_core (v_current v) (on_stat (set_remaining n) t)
     (upd_view i (with_current NULL v) a)) → Q NULL s') →
  wp (go_idle i) Q s.
Proof.
  intros Hr Hv Ht HQ. unfold go_idle. apply wp_bind. eapply wp_current; [done..|].
  sget c Hc Hvc. tset. sset (with_current NULL v). apply wp_ret. apply (HQ s (current_remaining c)). exact Hr.
Qed.
End run.
