(* ===== verification/SchedSpec.v ===== *)
(** * The contract of the scheduler

    The public operations of src/sched/scheduler.c on states that satisfy the
    invariant: they terminate without a fault, keep the invariant and change
    the set of queued threads as they should.  Growing the queues relies on
    [kern_realloc], which is a parameter here and assumed to succeed. *)

From stdpp Require Import functions.
From S2P Require Import Prelude Thread SiftHeap ThreadHeaps Rendezvous Scheduler SchedRep SchedProofs SchedRun.

(** ** Rescheduling *)

Section resched.
Context {T : Type} (meanwhile : which → excl_t → excl_t) (released : which → excl_t → option excl_t).
Implicit Types s : sstate T.

Lemma wp_sched_resched i s a v (Q : ptr → sstate T → Prop) :
  (∀ w x, spin_ends released w x) → good i s a → a_views a !! i = Some v →
  (∀ s' a' v', good i s' a' → a_views a' !! i = Some v' →
     (∀ x, queued x a' ↔ queued x a ∧ ¬ (x = v_current v ∧ x ≠ NULL ∧ stopped a x)) →
     Q (v_current v') s') →
  wp (sched_resched meanwhile released i) Q s.
Proof.
  intros He Hg Hv HQ. unfold sched_resched.
  apply wp_bind. eapply wp_charge_page_faults; [by destruct Hg|done|].
  intros s0 Hr0. apply (good_rep _ _ _ _ Hg) in Hr0 as Hg0. clear dependent s.
  set (drop x := x = v_current v ∧ x ≠ NULL ∧ stopped a x).
  (* what follows the test for a stopped thread *)
  assert (∀ s a1 v1, good i s a1 → a_views a1 !! i = Some v1 →
    (∀ x, queued x a1 ↔ queued x a ∧ ¬ drop x) →
    wp (hr ← on_queue i Run priority_heap_head;
        hf ← on_queue i Fin priority_heap_head;
        if (hr =? NULL)%Z && (hf =? NULL)%Z then current i else
        cur ← current i;
        (if negb (cur =? NULL)%Z then
           upd_sched i (λ c, set_current_remaining (s32 (current_remaining c - 1)) c)
         else mret tt);;
        check_current_thread i;;
        cur ← current i;
        (if (cur =? NULL)%Z then reset_counts i else mret tt);;
        granted ← do_exclusion meanwhile released i;
        if (granted : bool) then current i else go_idle i) Q s) as Hrest.
  { clear s0 Hr0 Hg0. intros s a1 v1 Hg Hv1 Hqu. pose proof Hg as [Hr _ _ _].
    apply wp_bind. eapply (wp_queue_head i Run); [done..|]. intros hr Hhr.
    apply wp_bind. eapply (wp_queue_head i Fin); [done..|]. intros hf Hhf.
    destruct ((hr =? NULL)%Z && (hf =? NULL)%Z) eqn:Hempty.
    { eapply wp_current; [done..|]. by eapply HQ. }
    assert (v_run v1 ∪ v_fin v1 ≠ ∅) as Hne.
    { apply andb_false_iff in Hempty as [Hh|Hh]; apply Z.eqb_neq in Hh; simpl in *; set_solver. }
    apply wp_bind. eapply wp_current; [done..|].
    assert (∀ s, good i s a1 → wp (check_current_thread i;;
        cur ← current i;
        (if (cur =? NULL)%Z then reset_counts i else mret tt);;
        granted ← do_exclusion meanwhile released i;
        if (granted : bool) then current i else go_idle i) Q s) as Hcheck.
    { clear dependent s hr hf. intros s Hg. apply wp_bind.
      eapply wp_check_current_thread; [done..|]. clear dependent s.
      intros s a2 v2 Hg Hst Hex Hv2 Hcur. pose proof Hg as [Hr _ _ _].
      destruct (rep_queued s a2 i v2 Run _ Hr Hv2 Hcur) as [Hnn [t Ht]].
      apply wp_bind. eapply wp_current; [done..|].
      rewrite (proj2 (Z.eqb_neq _ _)) by done. apply wp_bind, wp_ret.
      apply wp_bind. eapply wp_do_exclusion; [done..|]. intros b s' e Hr'.
      pose proof (good_exclusion _ _ _ _ _ Hg Hr') as Hg'.
      assert (∀ x, queued x (upd_exclusion e a2) ↔ queued x a ∧ ¬ drop x) as Hq'.
      { intros x. rewrite <-Hqu. apply (steady_queued a1 a2); done. }
      destruct b.
      - eapply wp_current; [done..|]. by eapply HQ.
      - eapply wp_go_idle; [done..|]. intros s2 n Hr2.
        apply (HQ s2 (upd_core (v_current v2) (on_stat (set_remaining n) t)
          (upd_view i (with_current NULL v2) (upd_exclusion e a2))) (with_current NULL v2)).
        { eapply good_both; [done..| |by left|done]. intros q. exists q. by destruct q. }
        { by apply (look_view_eq i _ v2 (upd_exclusion e a2)). }
        intros x. etrans; [|apply Hq'].
        change (queued x (upd_view i (with_current NULL v2) (upd_exclusion e a2)) ↔
          queued x (upd_exclusion e a2)).
        apply steady_queued. by eapply steady_view. }
    pose proof (λ s', good_rep i s s' a1 Hg) as Hgr. destruct (negb _).
    - ssame. by apply Hcheck, Hgr.
    - apply wp_bind, wp_ret. by apply Hcheck. }
  apply wp_bind. eapply wp_test_runnable; [done..| |].
  - intros Hno. eapply Hrest; [done..|]. intros x. split; [|naive_solver].
    intros Hx. split; [done|]. intros (-> & Hd). by apply Hno.
  - intros Hnn Hst s' a' v' Hg' Hlo Hv' _. eapply Hrest; [done..|].
    intros x. rewrite (lo_queued _ _ _ _ Hlo). unfold drop. naive_solver.
Qed.
End resched.

(** ** Growing the queues *)

(** What the scheduler needs of [kern_realloc]: a block at least as large as it
    asked for. *)
Class ReallocOk {T} (krealloc : ptr → Z → Z → Z → M T (ptr * Z)) : Prop :=
  realloc_ok p new old pri t : ∃ q n t',
    krealloc p new old pri t = Done ((q, n), t') ∧ q ≠ NULL ∧ (new ≤ n)%Z.

Lemma resized_take (d : list ptr) old new k :
  Z.of_nat (length d) = (old / 4)%Z → (old ≤ new)%Z → k ≤ length d →
  take k (resized d old new) = take k d ∧ Z.of_nat (length (resized d old new)) = (new / 4)%Z.
Proof.
  intros Hd Hle Hk. unfold resized.
  assert (old / 4 ≤ new / 4)%Z as Hdiv by (apply Z.div_le_mono; lia).
  rewrite (take_ge d) by lia. split.
  - rewrite take_take, Nat.min_l by lia. by rewrite take_app_le by lia.
  - rewrite length_take, length_app, length_replicate. lia.
Qed.

Section grow.
Context {T : Type} (krealloc : ptr → Z → Z → Z → M T (ptr * Z)) `{!ReallocOk krealloc}.
Implicit Types s : sstate T.

Lemma rep_resize s a i c q h (t : T) :
  rep s a → schedulers s !! i = Some c →
  size h = size (queue q c) → elems h = elems (queue q c) →
  length (data_name (queue q c)) ≤ length (data_name h) →
  Z.of_nat (length (data_name h)) = (max h / 4)%Z →
  rep (set_schedulers (<[i := set_queue q h c]> (schedulers s)) (set_s_heap t s))
    (upd_view i (with_cap q (length (data_name h)) (view_of c)) a).
Proof.
  intros Hr Hc Hsz Hel Hlen Hmax. pose proof (rep_view _ _ _ _ Hr Hc) as Hv.
  assert (view_of (set_queue q h c) = with_cap q (length (data_name h)) (view_of c)) as Hvo.
  { rewrite view_set_queue. unfold contents. rewrite Hel. by destruct q. }
  assert (∀ q', v_queue q' (view_of (set_queue q h c)) = v_queue q' (view_of c)) as Hvq.
  { intros q'. rewrite Hvo. by destruct q, q'. }
  rewrite <-Hvo. destruct Hr; split; simpl; try done.
  - by rewrite list_fmap_insert, rp_views.
  - intros j c' q' [(<- & <- & _)|[_ Hj]]%list_lookup_insert_Some; [|eauto].
    rewrite queue_set_queue. destruct (decide (q = q')) as [<-|]; [|eauto].
    destruct (rp_indexed i c q Hc) as (H1 & H2 & H3). unfold indexed. rewrite Hel.
    split; [lia|done].
  - intros j c' q' [(<- & <- & _)|[_ Hj]]%list_lookup_insert_Some; [|eauto].
    rewrite queue_set_queue. destruct (decide (q = q')) as [<-|]; eauto.
  - intros j k q1 q2 v1 v2 Hj Hk Hqq Hne.
    assert (∀ j v q', <[i:=view_of (set_queue q h c)]> (a_views a) !! j = Some v →
      ∃ v0, a_views a !! j = Some v0 ∧ v_queue q' v = v_queue q' v0) as Hold.
    { intros j' v q' [(<- & <- & _)|[_ Hj']]%list_lookup_insert_Some; eauto. }
    apply (Hold _ _ q1) in Hj as (u1 & Hj & ->). apply (Hold _ _ q2) in Hk as (u2 & Hk & ->).
    by eapply rp_disjoint.
Qed.

Lemma wp_grow_queue i q n s a v (Q : unit → sstate T → Prop) :
  rep s a → a_views a !! i = Some v → (1 ≤ n < 2 ^ 29)%Z → (n ≤ Z.of_nat (v_cap q v))%Z →
  (∀ s' m, v_cap q v ≤ m → (n < Z.of_nat m)%Z → rep s' (upd_view i (with_cap q m v) a) → Q tt s') →
  wp (grow_queue krealloc i q n) Q s.
Proof.
  intros Hr Hv Hn Hcap HQ. destruct (rep_sched _ _ _ _ Hr Hv) as (c & Hc & <-).
  pose proof (rp_size _ _ Hr i c q Hc) as Hmax. destruct (rp_indexed _ _ Hr i c q Hc) as (Hsz & _).
  apply wp_bind, (wp_getopt _ c); [done|]. apply wp_zoom.
  rewrite v_cap_of in Hcap, HQ. unfold capacity in *.
  assert (∀ h t, size h = size (queue q c) → elems h = elems (queue q c) →
    length (data_name (queue q c)) ≤ length (data_name h) →
    Z.of_nat (length (data_name h)) = (max h / 4)%Z → (n < Z.of_nat (length (data_name h)))%Z →
    Q tt (set_schedulers (<[i := set_queue q h c]> (schedulers s)) (set_s_heap t s))) as Hend.
  { intros h t H1 H2 H3 H4 H5. eapply HQ; [exact H3|exact H5|]. by apply rep_resize. }
  apply wp_bind, wp_gets. cbn [fst].
  destruct (Z.leb_spec (max (queue q c) / 4) n) as [Hle|Hgt].
  2:{ apply wp_ret. apply (Hend (queue q c) (s_heap s)); [done..|lia]. }
  apply wp_bind, wp_zoom. cbn [snd].
  assert (u32 (max (queue q c) * 2) = (max (queue q c) * 2)%Z) as ->.
  { unfold u32. apply Z.mod_small.
    pose proof (Z.div_mod (max (queue q c)) 4). pose proof (Z.mod_pos_bound (max (queue q c)) 4). lia. }
  destruct (realloc_ok (data_addr (queue q c)) (max (queue q c) * 2) (max (queue q c)) 0 (s_heap s))
    as (p & m & t' & Hk & Hp & Hm).
  unfold wp. rewrite Hk. rewrite (proj2 (Z.eqb_neq p NULL)) by done.
  pose proof (Z.div_mod (max (queue q c)) 4). pose proof (Z.mod_pos_bound (max (queue q c)) 4).
  destruct (resized_take (data_name (queue q c)) (max (queue q c)) m (size (queue q c))) as [Ht Hl];
    [done|lia|done|].
  assert (2 * (max (queue q c) / 4) ≤ m / 4)%Z as Hdbl.
  { transitivity (max (queue q c) * 2 / 4)%Z; [|apply Z.div_le_mono; lia].
    apply Z.div_le_lower_bound; lia. }
  apply Hend; simpl; [done|exact Ht|lia|exact Hl|lia].
Qed.
End grow.

(** ** Adding a thread *)

(** Processor [i] got thread [p]. *)
Record grown (p : ptr) (v v' : view) : Prop := {
  gr_aff : v_aff v' = {[p]} ∪ v_aff v;
  gr_run : v_run v' = {[p]} ∪ v_run v;
  gr_fin : v_fin v' = v_fin v;
  gr_current : v_current v' = v_current v;
  gr_cpu : v_cpu v' = v_cpu v;
  gr_room q : base.size (v_aff v) + 1 < v_cap q v';
}.

(** Two writes to one thread, before and after an update of a processor. *)
Ltac merge_cores Hr :=
  match type of Hr with rep ?s (upd_core ?p ?x (upd_view ?i ?w (upd_core ?p ?y ?a))) =>
    change (rep s (upd_view i w (upd_core p x (upd_core p y a)))) in Hr;
    rewrite upd_core_twice in Hr
  end.

Section adding.
Context {T : Type} (krealloc : ptr → Z → Z → Z → M T (ptr * Z)) `{!ReallocOk krealloc}.
Implicit Types s : sstate T.

Lemma good_grown i s' a p v v' t :
  sys_wf no_room a → cur_wf a → free_but i a → a_views a !! i = Some v → unqueued p a → grown p v v' → cpu_id t = Z.of_nat i →
  rep s' (upd_core p t (upd_view i v' a)) →
  good i s' (upd_core p t (upd_view i v' a)) ∧
  ∀ x, queued x (upd_core p t (upd_view i v' a)) ↔ x = p ∨ queued x a.
Proof.
  intros Hwf Hc Hf Hv Hun [] Ht Hr'.
  assert (∀ k w x, a_views a !! k = Some w → x ∈ v_aff w → ∃ t0,
    a_threads (upd_core p t a) !! x = Some t0 ∧ cpu_id t0 = Z.of_nat k) as Hhome.
  { intros k w x Hk Hx. destruct (sw_home _ _ _ _ (Hwf k w Hk) x Hx) as (t0 & Ht0 & Hct).
    exists t0. split; [|done]. apply look_core_ne; [|done]. intros <-. by apply (Hun k Aff w Hk). }
  split; [split; [done| | |by apply (free_but_view a i v')]|].
  - intros k w [(<- & <- & _)|[_ Hk]]%list_lookup_insert_Some.
    + pose proof (Hhome i v) as Hh. destruct (Hwf i v Hv) as [H1 H2 H3 H4].
      split; [rewrite gr_aff0, gr_run0, gr_fin0; set_solver|congruence| |].
      * intros q. specialize (gr_room0 q). rewrite gr_aff0, size_union_alt, size_singleton.
        assert (base.size (v_aff v ∖ {[p]}) ≤ base.size (v_aff v)) by (apply subseteq_size; set_solver).
        unfold no_room. lia.
      * rewrite gr_aff0. intros x [->%elem_of_singleton|Hx]%elem_of_union; [|by apply Hh].
        exists t. split; [apply lookup_insert_eq|done].
    + pose proof (Hhome k w) as Hh. destruct (Hwf k w Hk) as [H1 H2 H3 H4]. split; auto.
  - apply (cur_wf_view a i v'); [by apply cur_wf_but|]. unfold cur_ok. rewrite gr_current0, gr_run0.
    destruct (Hc i v Hv) as [->|Hcur]; [by left|right; set_solver].
  - intros x. change (queued x (upd_view i v' a) ↔ x = p ∨ queued x a).
    rewrite (queued_upd_view i _ v) by done. rewrite gr_aff0. split.
    + intros [[->%elem_of_singleton|Hx]%elem_of_union|(k & w & _ & Hk & Hx)];
        [by left|right; by exists i, v|right; by exists k, w].
    + intros [->|(k & w & Hk & Hx)]; [left; set_solver|]. destruct (decide (k = i)) as [->|Hki].
      * left. assert (w = v) as -> by congruence. set_solver.
      * right. by exists k, w.
Qed.

Lemma wp_next_size i s a v (Q : Z → sstate T → Prop) :
  rep s a → a_views a !! i = Some v → (Z.of_nat (base.size (v_aff v)) + 1 < 2 ^ 29)%Z →
  Q (Z.of_nat (base.size (v_aff v)) + 1)%Z s → wp (next_size i) Q s.
Proof.
  intros Hr Hv Hsz HQ. eapply wp_get_sched; [done..|]. intros c Hc <-.
  pose proof (v_queue_size Aff s a i c Hr Hc : base.size (v_aff (view_of c)) = _) as Hsize.
  simpl in Hsize, Hsz, HQ. rewrite Hsize in Hsz, HQ. unfold u32. by rewrite Z.mod_small by lia.
Qed.

(** The thread enters the affinity queue; the other queues become as large. *)
Lemma wp_join_affinity i p s a v t (Q : unit → sstate T → Prop) :
  rep s a → a_views a !! i = Some v → a_threads a !! p = Some t → unqueued p a →
  (∀ q, base.size (v_aff v) < v_cap q v) → (Z.of_nat (base.size (v_aff v)) + 1 < 2 ^ 29)%Z →
  (∀ s' m, base.size (v_aff v) + 1 < m →
     rep s' (upd_view i (with_queue Aff ({[p]} ∪ v_aff v) (with_cap Aff m v)) a) → Q tt s') →
  wp (join_affinity krealloc i p (Z.of_nat (base.size (v_aff v)) + 1)) Q s.
Proof.
  intros Hr Hv Ht Hun Hroom Hsz HQ. pose proof (Hroom Aff) as Ha. simpl in Ha.
  apply wp_bind. eapply wp_grow_queue; [done|done|done|lia|simpl; lia|].
  clear dependent s. intros s m _ Hm Hr.
  eapply wp_insert_aff; [done|look|look| |destruct v; simpl in *; lia|].
  - eapply unqueued_same; [|done|done]. intros q. by destruct q, v.
  - clear dependent s. intros s Hr. rewrite upd_view_twice in Hr. apply (HQ s m); [lia|].
    by destruct v.
Qed.

Lemma wp_join_run i p n s a v v0 t (Q : unit → sstate T → Prop) :
  rep s (upd_view i v a) → a_views a !! i = Some v0 → a_threads a !! p = Some t →
  unqueued p a → v_run v = v_run v0 → v_fin v = v_fin v0 → cap_run v = cap_run v0 →
  cap_fin v = cap_fin v0 → (∀ q, base.size (v_aff v0) < v_cap q v0) → v_run v0 ⊆ v_aff v0 → n = (Z.of_nat (base.size (v_aff v0)) + 1)%Z →
  (n < 2 ^ 29)%Z →
  (∀ s' m m', base.size (v_aff v0) + 1 < m → base.size (v_aff v0) + 1 < m' →
     rep s' (upd_view i (with_queue Run ({[p]} ∪ v_run v0)
       (with_cap Fin m' (with_cap Run m v))) a) → Q tt s') →
  wp (grow_queue krealloc i Run n;; grow_queue krealloc i Fin n;;
      on_queue i Run (priority_heap_insert p)) Q s.
Proof.
  intros Hr Hv Ht Hun Hrun Hfin Hcr Hcf Hroom Hsub -> Hsz HQ.
  pose proof (Hroom Run) as Hr1. pose proof (Hroom Fin) as Hr2.
  pose proof (subseteq_size _ _ Hsub). simpl in Hr1, Hr2.
  apply wp_bind. eapply wp_grow_queue; [done|done|look|lia|simpl; lia|].
  clear dependent s. intros s m _ Hm Hr. rewrite upd_view_twice in Hr.
  apply wp_bind. eapply wp_grow_queue; [done|done|look|lia|destruct v; simpl in *; lia|].
  clear dependent s. intros s m' _ Hm' Hr. rewrite upd_view_twice in Hr.
  eapply wp_insert_run; [done|look|look| |destruct v; simpl in *; subst; lia|].
  - intros j q w [(<- & <- & _)|[_ Hj]]%list_lookup_insert_Some Hq; [|by eapply Hun].
    pose proof (Hun i q v0 Hv) as Hp. destruct q, v; simpl in *; congruence.
  - clear dependent s. intros s Hr. rewrite upd_view_twice in Hr. apply (HQ s m m'); [lia..|].
    rewrite <-Hrun. by destruct v.
Qed.

Lemma wp_sched_insert_thread i p s a v t (Q : unit → sstate T → Prop) :
  good i s a → a_views a !! i = Some v → a_threads a !! p = Some t → unqueued p a →
  (Z.of_nat (base.size (v_aff v)) + 1 < 2 ^ 29)%Z →
  (∀ s' a' v', good i s' a' → a_views a' !! i = Some v' → grown p v v' →
     (∀ x, queued x a' ↔ x = p ∨ queued x a) →
     (∃ t', a_threads a' !! p = Some t' ∧
        remaining (stat t') = s32 (soft_priority (stat t) / 2) ∧ cpu_id t' = Z.of_nat i ∧
        status (stat t') = status (stat t) ∧ run_status (stat t') = run_status (stat t)) →
     Q tt s') →
  wp (sched_insert_thread krealloc i p) Q s.
Proof.
  intros Hg Hv Ht Hun Hsz HQ. pose proof Hg as [Hr Hwf Hc Hf].
  clear Hg.
  pose proof (Hwf i v Hv) as Hwfi. pose proof (sw_cpu _ _ _ _ Hwfi) as Hid.
  assert (∀ q, base.size (v_aff v) < v_cap q v) as Hroom.
  { intros q. pose proof (sw_room _ _ _ _ Hwfi q). unfold no_room in *. lia. }
  assert (v_run v ⊆ v_aff v) as Hsub by (rewrite (sw_aff _ _ _ _ Hwfi); set_solver).
  unfold sched_insert_thread. tread u Hu Huc.
  assert (soft_priority (stat u) = soft_priority (stat t)) as Hsp by by subst t.
  ssame. tset. apply wp_bind.
  eapply wp_next_size; [done|look|done|]. sget c Hc1 Hvc. tset. tset. sget c2 Hc2 Hvc2. tset.
  apply wp_bind. eapply wp_join_affinity; [done|look|look|done|done|done|].
  clear dependent s. intros s m Hm Hr. tset. merge_cores Hr.
  apply (wp_join_run i p _ s _ _ v _ _ Hr Hv (look_core_eq _ _ _) Hun);
    [by destruct v|by destruct v|by destruct v|by destruct v|done|done|done|done|].
  clear dependent s. intros s m1 m2 Hm1 Hm2 Hr.
  match type of Hr with rep _ (upd_view i ?w (upd_core p ?x a)) =>
    set (v' := w) in Hr; set (t' := x) in Hr end.
  assert (grown p v v') as Hgr.
  { subst v'. destruct v; split; simpl in *; try done. intros q. destruct q; simpl; lia. }
  assert (cpu_id t' = Z.of_nat i) as Ht'.
  { rewrite <-Hid, <-Hvc. done. }
  destruct (good_grown i s a p v v' t' Hwf Hc Hf Hv Hun Hgr Ht' Hr) as [Hg' Hqu].
  eapply (HQ s); [exact Hg'|by eapply look_view_eq|done|exact Hqu|].
  exists t'. split; [apply lookup_insert_eq|]. split; [by rewrite <-Hsp|].
  split; [done|]. by subst t' t.
Qed.

(** The time a thread has when it is restarted in epoch [e]. *)
Definition restarted (e : Z) (t : thread_t) : Z :=
  if (epoch t <? e)%Z then s32 (remaining (stat t) + restart_increase e t) else remaining (stat t).

Lemma wp_sched_restart_thread i p s a v t c (Q : unit → sstate T → Prop) :
  good i s a → a_views a !! i = Some v → a_threads a !! p = Some t → unqueued p a →
  schedulers s !! i = Some c → (Z.of_nat (base.size (v_aff v)) + 1 < 2 ^ 29)%Z →
  (∀ s' a' v', good i s' a' → a_views a' !! i = Some v' → grown p v v' →
     (∀ x, queued x a' ↔ x = p ∨ queued x a) →
     (∃ t', a_threads a' !! p = Some t' ∧
        remaining (stat t') = restarted (sc_epoch c) t ∧ cpu_id t' = Z.of_nat i) →
     Q tt s') →
  wp (sched_restart_thread krealloc i p) Q s.
Proof.
  intros Hg Hv Ht Hun Hc0 Hsz HQ. pose proof Hg as [Hr Hwf Hc Hf]. clear Hg.
  pose proof (Hwf i v Hv) as Hwfi. pose proof (sw_cpu _ _ _ _ Hwfi) as Hid.
  assert (∀ q, base.size (v_aff v) < v_cap q v) as Hroom.
  { intros q. pose proof (sw_room _ _ _ _ Hwfi q). unfold no_room in *. lia. }
  assert (v_run v ⊆ v_aff v) as Hsub by (rewrite (sw_aff _ _ _ _ Hwfi); set_solver).
  unfold sched_restart_thread. sget c1 Hc1 Hvc1. assert (c1 = c) as -> by congruence.
  tread u Hu Huc. assert (epoch u = epoch t) as -> by by subst t. apply wp_bind.
  assert (∀ s t1, remaining (stat t1) = restarted (sc_epoch c) t → rep s (upd_core p t1 a) →
    wp (queue_size ← next_size i;
        id ← get_sched i sc_cpu_id;
        upd_thread p (set_cpu_id id);;
        upd_thread p (set_affinity 0);;
        join_affinity krealloc i p queue_size;;
        p' ← get_thread p (λ t, soft_priority (stat t));
        upd_sched i (λ c, set_total_count (s32 (total_count c + p')) c);;
        grow_queue krealloc i Run queue_size;;
        grow_queue krealloc i Fin queue_size;;
        on_queue i Run (priority_heap_insert p);;
        upd_thread p (set_epoch (sc_epoch c))) Q s) as Hrest.
  { clear dependent s. intros s t1 Hrem Hr. apply wp_bind.
    eapply wp_next_size; [done|look|done|]. sget c2 Hc2 Hvc2. tset. tset.
    apply wp_bind. eapply wp_join_affinity; [done|look|look|done|done|done|].
    clear dependent s. intros s m Hm Hr. tread u2 Hu2 Huc2. ssame.
    enough (wp (grow_queue krealloc i Run (Z.of_nat (base.size (v_aff v)) + 1);;
        grow_queue krealloc i Fin (Z.of_nat (base.size (v_aff v)) + 1);;
        on_queue i Run (priority_heap_insert p))
      (λ _, wp (upd_thread p (set_epoch (sc_epoch c))) Q) s) as Hw.
    { revert Hw. unfold wp, mbind, M_bind.
      destruct (grow_queue krealloc i Run _ s) as [[[] x1]| | |]; [|done..].
      destruct (grow_queue krealloc i Fin _ x1) as [[[] x2]| | |]; [|done..].
      by destruct (on_queue i Run _ x2) as [[[] x3]| | |]. }
    apply (wp_join_run i p _ s _ _ v _ _ Hr Hv (look_core_eq _ _ _) Hun);
      [by destruct v|by destruct v|by destruct v|by destruct v|done|done|done|done|].
    clear dependent s. intros s m1 m2 Hm1 Hm2 Hr.
    eapply wp_upd_thread; [apply _|exact Hr|look|]. clear dependent s. intros s Hr.
    merge_cores Hr.
    match type of Hr with rep _ (upd_view i ?w (upd_core p ?x a)) =>
      set (v' := w) in Hr; set (t' := x) in Hr end.
    assert (grown p v v') as Hgr.
    { subst v'. destruct v; split; simpl in *; try done. intros q. destruct q; simpl; lia. }
    assert (cpu_id t' = Z.of_nat i) as Ht' by by rewrite <-Hid, <-Hvc2.
    destruct (good_grown i s a p v v' t' Hwf Hc Hf Hv Hun Hgr Ht' Hr) as [Hg' Hqu].
    eapply (HQ s); [exact Hg'|by eapply look_view_eq|done|exact Hqu|].
    exists t'. split; [apply lookup_insert_eq|]. split; [|done]. by rewrite <-Hrem. }
  unfold restarted in Hrest. destruct (epoch t <? sc_epoch c)%Z.
  - tset. eapply Hrest; [|exact Hr]. done.
  - apply wp_ret, (Hrest s t); [done|]. unfold upd_core. rewrite insert_id by done. by destruct a.
Qed.
End adding.

(** ** Removing a thread *)

Section removing.
Context {T : Type}.
Implicit Types s : sstate T.

(** Another thread takes over, or the processor holds the exclusion. *)
Definition successor (a : abst) (v : view) : Prop :=
  a_exclusion a = s32 (v_cpu v) ∨ v_aff v ≠ {[v_current v]}.

(** The end of [sched_remove_resched] with a thread to run, or none. *)
Lemma wp_remove_resched_end i p s a a' v (Q : ptr → sstate T → Prop) :
  good i s a' → lost i p a a' → a_views a' !! i = Some v →
  v_current v ≠ NULL ∨ a_exclusion a' = s32 (v_cpu v) →
  (∀ s2 a2 v2, good i s2 a2 → lost i p a a2 → a_views a2 !! i = Some v2 → Q (v_current v2) s2) →
  wp (cur ← current i;
      (if negb (cur =? NULL)%Z then reload_current i else reset_counts i);;
      id ← get_sched i sc_cpu_id;
      e ← gets exclusion;
      if check_exclusion_specific (s32 id) e then current i else go_idle i) Q s.
Proof.
  intros Hg Hlo Hv Hex HQ. pose proof (λ s', good_rep i s s' a' Hg) as Hgr.
  assert (∀ s, rep s a' → wp (id ← get_sched i sc_cpu_id;
      e ← gets exclusion;
      if check_exclusion_specific (s32 id) e then current i else go_idle i) Q s) as Hend.
  { clear dependent s. intros s Hr. sget c Hc Hvc. apply wp_bind, wp_gets.
    unfold check_exclusion_specific. rewrite (rp_exclusion _ _ Hr).
    assert (sc_cpu_id c = v_cpu v) as -> by by subst v.
    destruct (Z.eqb_spec (a_exclusion a') (s32 (v_cpu v))) as [|Hne].
    { eapply wp_current; [done..|]. eapply HQ; [by apply Hgr|done..]. }
    destruct Hex as [Hnn|]; [|done].
    destruct (good_thread i s a' v (Hgr s Hr) Hv Hnn) as (Hcur & t & Ht).
    eapply wp_go_idle; [done..|]. intros s' n Hr'.
    eapply (HQ s' _ (with_current NULL v)).
    - eapply good_both; [by apply Hgr|done..| |by left|done]. intros q. exists q. by destruct q.
    - destruct Hlo as [H1 H2 H3 H4]. split; [| |done|].
      + intros x. rewrite <-H1. apply (steady_queued a' (upd_view i (with_current NULL v) a')).
        by eapply steady_view.
      + intros x. rewrite <-H2. 
        exact (st_status _ _ (steady_core (v_current v) t (on_stat (set_remaining n) t) a' Ht eq_refl) x).
      + rewrite <-H4. simpl. destruct (decide (v_current v = p)) as [<-|Hcp];
          [by rewrite lookup_insert_eq, Ht|by rewrite lookup_insert_ne].
    - by apply (look_view_eq i _ v). }
  pose proof Hg as [Hr _ _ _]. apply wp_bind. eapply wp_current; [done..|].
  destruct (Z.eqb_spec (v_current v) NULL) as [Hnull|Hnn]; cbn [negb]; apply wp_bind.
  - unfold reset_counts. ssame. eapply wp_upd_sched_same; [done|look|upd_done|].
    intros s' Hr'. by apply Hend.
  - destruct (good_thread i s a' v Hg Hv Hnn) as (Hcur & t & Ht).
    apply wp_bind. eapply wp_current; [done..|]. tread u Hu Huc.
    eapply wp_upd_sched_same; [done|look|upd_done|]. intros s' Hr'. by apply Hend.
Qed.

Lemma wp_sched_remove_resched i s a v (Q : ptr → sstate T → Prop) :
  good i s a → a_views a !! i = Some v → v_current v ∈ v_run v → successor a v →
  (∀ s' a' v', good i s' a' → lost i (v_current v) a a' → a_views a' !! i = Some v' →
     Q (v_current v') s') →
  wp (sched_remove_resched i) Q s.
Proof.
  intros Hg Hv Hcur Hsucc HQ. pose proof (gd_wf _ _ _ Hg i v Hv) as Hwfi.
  unfold sched_remove_resched. apply wp_bind. eapply wp_remove_current; [done..|].
  clear dependent s. intros s a1 v1 Hg Hlo Hv1 Hcur1 Hfin Hrun.
  pose proof Hg as [Hr Hwf1 _ _]. pose proof (Hwf1 i v1 Hv1) as Hwfi1.
  apply wp_bind. eapply wp_current; [done..|]. apply wp_bind.
  assert (∀ s2 a2 v2, good i s2 a2 → lost i (v_current v) a a2 → a_views a2 !! i = Some v2 →
    v_current v2 ≠ NULL ∨ a_exclusion a2 = s32 (v_cpu v2) →
    wp (cur ← current i;
      (if negb (cur =? NULL)%Z then reload_current i else reset_counts i);;
      id ← get_sched i sc_cpu_id;
      e ← gets exclusion;
      if check_exclusion_specific (s32 id) e then current i else go_idle i) Q s2) as Hend.
  { intros s2 a2 v2 Hg2 Hlo2 Hv2 Hex. by eapply wp_remove_resched_end. }
  destruct (Z.eqb_spec (v_current v1) NULL) as [Hnull|Hnn].
  2:{ apply wp_ret. eapply Hend; [done..|by left]. }
  destruct Hcur1 as [[_ Hempty]|[Hc _]]; [|done].
  apply wp_bind. eapply (wp_queue_head i Fin); [done..|]. intros hf Hhf. simpl in Hhf.
  destruct (Z.eqb_spec hf NULL) as [->|Hfn].
  - destruct Hhf as [[_ Hf]|[? _]]; [|done].
    eapply (wp_upd_sched _ _ _ _ _ (with_current NULL v1)); [done..|upd_done|].
    intros s2 Hr2. eapply (Hend s2 _ (with_current NULL v1)); [| |by eapply look_view_eq|right].
    + eapply good_view; [done..| |by left]. intros q. exists q. by destruct q.
    + destruct Hlo as [H1 H2 H3 H4]. split; [|done..]. intros x. rewrite <-H1.
      apply steady_queued. by eapply steady_view.
    + simpl. rewrite (lo_exclusion _ _ _ _ Hlo). destruct Hsucc as [->|Hne].
      * by rewrite (sw_cpu _ _ _ _ Hwfi), (sw_cpu _ _ _ _ Hwfi1).
      * exfalso. apply Hne. rewrite (sw_aff _ _ _ _ Hwfi). rewrite Hfin in Hf.
        apply set_eq. intros x. destruct (decide (x = v_current v)); set_solver.
  - destruct Hhf as [[? _]|[_ Hh]]; [done|].
    apply wp_bind. eapply wp_do_epoch; [done..|]. intros s2 Hr2.
    apply wp_bind. eapply (wp_queue_head i Run); [done|look|].
    intros h [[_ Hh']|[Hhn Hh']]; [destruct v1; simpl in *; set_solver|]. simpl in Hh'.
    eapply (wp_upd_sched _ _ _ _ (swapped v1) (with_current h (swapped v1))); [done|look|upd_done|].
    intros s3 Hr3. rewrite upd_view_twice in Hr3.
    eapply (Hend s3 _ (with_current h (swapped v1))); [| |by eapply look_view_eq|by left].
    + eapply good_view; [done..|simpl; set_solver|done| |by right].
      * intros q. exists (match q with Run => Fin | Fin => Run | Aff => Aff end). by destruct q.
    + destruct Hlo as [H1 H2 H3 H4]. split; [|done..]. intros x. rewrite <-H1.
      apply steady_queued. by eapply steady_view.
Qed.

Lemma lost_core i p q t t' a a' :
  a_threads a !! q = Some t → status (stat t') = status (stat t) → cpu_id t' = cpu_id t →
  lost i p (upd_core q t' a) a' → lost i p a a'.
Proof.
  intros Ht Hst Hid [H1 H2 H3 H4]. split; [exact H1| |exact H3|].
  - intros x. rewrite H2. by apply (steady_core q t t' a).
  - rewrite H4. simpl. destruct (decide (q = p)) as [->|Hne]; [|by rewrite lookup_insert_ne].
    rewrite lookup_insert_eq, Ht. simpl. by rewrite Hid.
Qed.

Lemma wp_sched_remove_thread i p s a v (Q : unit → sstate T → Prop) :
  good i s a → a_views a !! i = Some v → p ∈ v_aff v → (p = v_current v → successor a v) →
  (∀ s' a', good i s' a' → lost i p a a' → is_Some (a_views a' !! i) → Q tt s') →
  wp (sched_remove_thread i p) Q s.
Proof.
  intros Hg Hv Hp Hsucc HQ. pose proof Hg as [Hr Hwf Hc Hf].
  destruct (sw_home _ _ _ _ (Hwf i v Hv) p Hp) as (t & Ht & Hid).
  pose proof (sw_cpu _ _ _ _ (Hwf i v Hv)) as Hcpu.
  unfold sched_remove_thread. tread u Hu Huc. ssame. sget c Hc1 Hvc1. tset. sget c2 Hc2 Hvc2.
  tread u2 Hu2 Huc2. clear Hc2.
  assert (sc_cpu_id c2 = Z.of_nat i) as -> by by rewrite <-Hcpu, <-Hvc2.
  assert (cpu_id u2 = Z.of_nat i) as -> by by change (cpu_id u2) with (cpu_id (core u2)); rewrite Huc2.
  rewrite Z.eqb_refl. cbn [negb]. apply wp_bind. eapply wp_current; [done|exact Hv|].
  set (a1 := upd_core p (set_epoch (sc_epoch c) t) a) in *.
  assert (good i s a1) as Hg1.
  { split; [done| |done|done]. by eapply sys_wf_core. }
  assert (∀ a', lost i p a1 a' → lost i p a a') as Hlo by (intros a'; by eapply lost_core).
  destruct (Z.eqb_spec (v_current v) p) as [<-|Hne].
  - apply wp_bind. eapply wp_sched_remove_resched; [done|exact Hv| | |].
    + destruct (good_thread i s a1 v Hg1 Hv) as [Hcur _]; [|done].
      by eapply (rep_queued s a1 i v Aff).
    + by apply Hsucc.
    + intros s' a' v' Hg' Hl Hv'. apply wp_ret. eapply HQ; eauto.
  - pose proof Hg1 as [_ Hwf1 Hc1 Hf1]. pose proof (rp_disjoint _ _ Hr) as Hd.
    assert (sys_wf (room_at i) (upd_view i (without p v) a1)) as Hwf2.
    { assert (a_threads a1 !! p = Some (set_epoch (sc_epoch c) t)) as Ht1 by (subst a1; look).
      replace (upd_view i (without p v) a1) with
        (upd_core p (set_epoch (sc_epoch c) t) (upd_view i (without p v) a1));
        [by apply without_wf|].
      unfold upd_core. cbn [a_threads upd_view]. by rewrite insert_id. }
    apply wp_bind. eapply wp_delete_from_queue; [done|exact Hv|done| |].
    { pose proof (sw_aff _ _ _ _ (Hwf i v Hv)) as <-. done. }
    clear dependent s. intros s Hr. rewrite Nat2Z.id.
    pose proof (rp_disjoint _ _ Hr) as Hd2.
    eapply wp_rebalance_load; [done|by eapply (look_view_eq i (without p v) v)|done|by apply free_but_view|].
    clear s Hr. intros a2 s Hreb Hr.
    eapply (HQ s a2); [split; [done| | |]|apply Hlo; split|].
    + by eapply rebalanced_wf.
    + intros j w Hj. destruct (decide (j = i)) as [->|Hji].
      * destruct (rebalanced_view _ _ _ Hreb _ (look_view_eq i (without p v) v a1 Hv))
          as (w' & Hw' & Hcw & _ & _ & Hrw). assert (w' = w) as -> by congruence.
        unfold cur_ok. rewrite Hcw. destruct (Hc i v Hv) as [Hn|Hrun];
          [left; by destruct v|right; apply Hrw; destruct v; simpl in *; set_solver].
      * eapply rebalanced_cur; [done| |done|done]. intros k x Hk Hki.
        simpl in Hk. rewrite list_lookup_insert_ne in Hk by done. by eapply Hc.
    + eapply rebalanced_free; [done|]. by apply free_but_view.
    + intros x. rewrite (rebalanced_queued i _ a2 Hreb). by apply queued_without.
    + intros x. by rewrite !option_fmap_compose, (rebalanced_stat i _ a2 Hreb).
    + by rewrite (rebalanced_exclusion i _ a2 Hreb).
    + apply (rebalanced_cpu i _ a2 Hreb). intros Hq. by apply queued_without in Hq as [_ ?].
    + destruct (rebalanced_view _ _ _ Hreb _ (look_view_eq i (without p v) v a1 Hv)) as (w & Hw & _).
      by exists w.
Qed.
End removing.

(** ** Joins that do not return *)

(** Rescheduling goes as if every spin ended, or stops at one. *)
Lemma sched_resched_stuck {T} meanwhile released i :
  stuck_or (S := sstate T) (∃ w x, ¬ spin_ends released w x)
    (sched_resched meanwhile released i) (sched_resched meanwhile (in_the_end released) i).
Proof. unfold sched_resched. stuck_tac. Qed.

(** ** The theorems *)

(** The view of a state. *)
Definition abs_of {T} (s : sstate T) : abst :=
  Abst (view_of <$> schedulers s) (core <$> s_threads s) (ex_var (exclusion s)).

(** The invariant, for an operation on processor [i]. *)
Definition sched_inv {T} (i : nat) (s : sstate T) : Prop := good i s (abs_of s).
Definition in_queues {T} (p : ptr) (s : sstate T) : Prop := queued p (abs_of s).
Definition thread_stopped {T} (p : ptr) (s : sstate T) : Prop := stopped (abs_of s) p.

Lemma rep_abs {T} (s : sstate T) a : rep s a → a = abs_of s.
Proof. intros []. destruct a; unfold abs_of; simpl in *. congruence. Qed.

Lemma abs_view {T} (s : sstate T) i c :
  schedulers s !! i = Some c → a_views (abs_of s) !! i = Some (view_of c).
Proof. intros Hc. simpl. by rewrite list_lookup_fmap, Hc. Qed.

Lemma abs_sched {T} (s : sstate T) i v :
  a_views (abs_of s) !! i = Some v → ∃ c, schedulers s !! i = Some c ∧ v = view_of c.
Proof. simpl. rewrite list_lookup_fmap. destruct (schedulers s !! i); naive_solver. Qed.

Lemma abs_thread {T} (s : sstate T) p t :
  s_threads s !! p = Some t → a_threads (abs_of s) !! p = Some (core t).
Proof. intros Ht. simpl. by rewrite lookup_fmap, Ht. Qed.

Lemma in_affinity {T} (s : sstate T) p i c :
  schedulers s !! i = Some c → p ∈ elems (affinity_queue c) → p ∈ v_aff (view_of c).
Proof. intros _ Hp. simpl. by rewrite elem_of_contents. Qed.

(** A thread that is in no queue. *)
Lemma not_in_queues {T} (s : sstate T) i p :
  sched_inv i s → ¬ in_queues p s → unqueued p (abs_of s).
Proof.
  intros [_ Hwf _ _] Hno j q v Hj Hp. apply Hno. exists j, v. split; [done|].
  pose proof (sw_aff _ _ _ _ (Hwf j v Hj)). destruct q; simpl in Hp; set_solver.
Qed.

Section theorems.
Context {T : Type}.
Implicit Types s : sstate T.

(** C7: rescheduling a processor either stops in the loop of [rendezvous_join], which
    it does only if the other processors do not open the point, or returns: it
    keeps the invariant, returns the thread it then runs, which is in its running
    queue, or null, and takes no thread out of the queues but a current thread
    that is no longer runnable. *)
Theorem sched_resched_sound meanwhile released i c s :
  sched_inv i s → schedulers s !! i = Some c →
  (sched_resched meanwhile released i s = Deadlock ∧ ∃ w x, ¬ spin_ends released w x) ∨
  ∃ r s' c', sched_resched meanwhile released i s = Done (r, s') ∧ sched_inv i s' ∧
    schedulers s' !! i = Some c' ∧ r = current_thread c' ∧
    (r = NULL ∨ r ∈ elems (running_queue c')) ∧
    ∀ x, in_queues x s' ↔
      in_queues x s ∧ ¬ (x = current_thread c ∧ x ≠ NULL ∧ thread_stopped x s).
Proof.
  intros Hg Hc. destruct (sched_resched_stuck meanwhile released i s) as [|Heq]; [by left|right].
  rewrite Heq.
  assert (wp (sched_resched meanwhile (in_the_end released) i) (λ r s', ∃ a' v', good i s' a' ∧
    a_views a' !! i = Some v' ∧ r = v_current v' ∧ (∀ x, queued x a' ↔ queued x (abs_of s) ∧
      ¬ (x = current_thread c ∧ x ≠ NULL ∧ stopped (abs_of s) x))) s)
    as (r & s' & Hrun & a' & v' & Hg' & Hv' & -> & Hq)%wp_Done.
  { eapply wp_sched_resched; [apply in_the_end_ends|done|by apply abs_view|]. intros. eauto 8. }
  pose proof (rep_abs _ _ (gd_rep _ _ _ Hg')) as ->. destruct (abs_sched _ _ _ Hv') as (c' & Hc' & ->).
  exists (current_thread c'), s', c'. split_and!; [done..| |done].
  destruct (gd_cur _ _ _ Hg' i _ Hv') as [Hn|Hr]; [by left|right]. by apply elem_of_contents.
Qed.

(** A thread that is in no queue is added to the affinity and the running
    queue of the processor, which grow when they have to, and starts with half of
    its priority as time; no other thread enters or leaves a queue. *)
Theorem sched_insert_thread_sound krealloc `{!ReallocOk krealloc} i c p t s :
  sched_inv i s → schedulers s !! i = Some c → s_threads s !! p = Some t → ¬ in_queues p s →
  (Z.of_nat (size (affinity_queue c)) + 1 < 2 ^ 29)%Z →
  ∃ s' c' t', sched_insert_thread krealloc i p s = Done (tt, s') ∧ sched_inv i s' ∧
    schedulers s' !! i = Some c' ∧ p ∈ elems (running_queue c') ∧
    s_threads s' !! p = Some t' ∧ remaining (stat t') = s32 (soft_priority (stat t) / 2) ∧
    cpu_id t' = Z.of_nat i ∧
    ∀ x, in_queues x s' ↔ x = p ∨ in_queues x s.
Proof.
  intros Hg Hc Ht Hno Hsz.
  pose proof (v_queue_size Aff s _ i c (gd_rep _ _ _ Hg) Hc : base.size (v_aff (view_of c)) = _) as Hs.
  assert (wp (sched_insert_thread krealloc i p) (λ _ s', ∃ a' v' t', good i s' a' ∧
    a_views a' !! i = Some v' ∧ p ∈ v_run v' ∧ (∀ x, queued x a' ↔ x = p ∨ queued x (abs_of s)) ∧
    a_threads a' !! p = Some t' ∧ remaining (stat t') = s32 (soft_priority (stat t) / 2) ∧
    cpu_id t' = Z.of_nat i) s)
    as ([] & s' & Hrun & a' & v' & t' & Hg' & Hv' & Hp & Hq & Ht' & Hrem & Hid)%wp_Done.
  { eapply (wp_sched_insert_thread krealloc i p s _ (view_of c) (core t));
      [done|by apply abs_view|by apply abs_thread|by eapply not_in_queues| |].
    - rewrite Hs. done.
    - intros s' a' v' Hg' Hv' Hgr Hq (t' & Ht' & Hrem & Hid & _).
      exists a', v', t'. split_and!; try done. rewrite (gr_run _ _ _ Hgr). set_solver. }
  destruct (rep_thread _ _ _ _ (gd_rep _ _ _ Hg') Ht') as (t0 & Ht0 & <-).
  pose proof (rep_abs _ _ (gd_rep _ _ _ Hg')) as ->. destruct (abs_sched _ _ _ Hv') as (c' & Hc' & ->).
  exists s', c', t0. split_and!; try done. by apply elem_of_contents.
Qed.

(** A sleeping thread that is restarted is added likewise; for the epochs it
    was away it gets back most of the time it had used up. *)
Theorem sched_restart_thread_sound krealloc `{!ReallocOk krealloc} i c p t s :
  sched_inv i s → schedulers s !! i = Some c → s_threads s !! p = Some t → ¬ in_queues p s →
  (Z.of_nat (size (affinity_queue c)) + 1 < 2 ^ 29)%Z →
  ∃ s' c' t', sched_restart_thread krealloc i p s = Done (tt, s') ∧ sched_inv i s' ∧
    schedulers s' !! i = Some c' ∧ p ∈ elems (running_queue c') ∧
    s_threads s' !! p = Some t' ∧ remaining (stat t') = restarted (sc_epoch c) t ∧
    cpu_id t' = Z.of_nat i ∧
    ∀ x, in_queues x s' ↔ x = p ∨ in_queues x s.
Proof.
  intros Hg Hc Ht Hno Hsz.
  pose proof (v_queue_size Aff s _ i c (gd_rep _ _ _ Hg) Hc : base.size (v_aff (view_of c)) = _) as Hs.
  assert (wp (sched_restart_thread krealloc i p) (λ _ s', ∃ a' v' t', good i s' a' ∧
    a_views a' !! i = Some v' ∧ p ∈ v_run v' ∧ (∀ x, queued x a' ↔ x = p ∨ queued x (abs_of s)) ∧
    a_threads a' !! p = Some t' ∧ remaining (stat t') = restarted (sc_epoch c) t ∧
    cpu_id t' = Z.of_nat i) s)
    as ([] & s' & Hrun & a' & v' & t' & Hg' & Hv' & Hp & Hq & Ht' & Hrem & Hid)%wp_Done.
  { eapply (wp_sched_restart_thread krealloc i p s _ (view_of c) (core t) c);
      [done|by apply abs_view|by apply abs_thread|by eapply not_in_queues|done| |].
    - rewrite Hs. done.
    - intros s' a' v' Hg' Hv' Hgr Hq (t' & Ht' & Hrem & Hid).
      exists a', v', t'. split_and!; try done. rewrite (gr_run _ _ _ Hgr). set_solver. }
  destruct (rep_thread _ _ _ _ (gd_rep _ _ _ Hg') Ht') as (t0 & Ht0 & <-).
  pose proof (rep_abs _ _ (gd_rep _ _ _ Hg')) as ->. destruct (abs_sched _ _ _ Hv') as (c' & Hc' & ->).
  exists s', c', t0. split_and!; try done. by apply elem_of_contents.
Qed.

End theorems.

(** Balancing the load. *)
Section balance.
Context {T : Type}.
Implicit Types s : sstate T.

(** C28: balancing the load for a processor whose queues have a cell to spare
    brings it no thread, or exactly one that was not running on the processor it
    is taken from; the processor then holds its own lock, and no thread is lost. *)
Theorem rebalance_load_sound i c s :
  sched_inv i s → sys_wf (room_at i) (abs_of s) → schedulers s !! i = Some c →
  ∃ s' c', rebalance_load i s = Done (tt, s') ∧ sched_inv i s' ∧
    schedulers s' !! i = Some c' ∧ sc_mutex c' = true ∧ current_thread c' = current_thread c ∧
    (∀ x, in_queues x s' ↔ in_queues x s) ∧
    ((∀ x, x ∈ elems (affinity_queue c') ↔ x ∈ elems (affinity_queue c)) ∨
     ∃ p j d, j ≠ i ∧ schedulers s !! j = Some d ∧ p ∈ elems (affinity_queue d) ∧
       p ≠ current_thread d ∧
       ∀ x, x ∈ elems (affinity_queue c') ↔ x = p ∨ x ∈ elems (affinity_queue c)).
Proof.
  intros [Hr Hwf Hcur Hf] Hroom Hc. pose proof (rp_disjoint _ _ Hr) as Hd.
  assert (wp (rebalance_load i) (λ _ s', ∃ a', rebalanced i (abs_of s) a' ∧ rep s' a') s)
    as ([] & s' & Hrun & a' & Hreb & Hr')%wp_Done.
  { eapply wp_rebalance_load; [done|by apply abs_view|done|done|eauto]. }
  destruct (rebalanced_view i _ a' Hreb _ (abs_view s i c Hc)) as (v' & Hv' & Hcv & _ & _ & Hrun').
  pose proof (rep_abs _ _ Hr') as ->. destruct (abs_sched _ _ _ Hv') as (c' & Hc' & ->).
  assert (good i s' (abs_of s')) as Hg'.
  { split; [done|by eapply rebalanced_wf| |by eapply rebalanced_free].
    intros j v Hj. destruct (decide (j = i)) as [->|Hji].
    - assert (v = view_of c') as -> by congruence. unfold cur_ok. rewrite Hcv.
      destruct (Hcur i _ (abs_view s i c Hc)) as [|Hin]; [by left|right; by apply Hrun'].
    - by eapply (rebalanced_cur i _ _ Hreb); [by apply cur_wf_but| |]. }
  destruct (rebalanced_aff i _ _ Hreb _ _ (abs_view s i c Hc) Hv') as [Hlock Haff].
  exists s', c'. split_and!; [done..|apply (rebalanced_queued i _ _ Hreb)|].
  assert (∀ x h, x ∈ contents h ↔ x ∈ elems h) as Hel by (intros; apply elem_of_contents).
  simpl in Haff. setoid_rewrite <-Hel.
  destruct Haff as [Haff|(p & j & w & Hj & Hw & Hp & Hpc & Haff)]; [left; by rewrite Haff|right].
  destruct (abs_sched _ _ _ Hw) as (d & Hd' & ->). exists p, j, d. split_and!; [done..|].
  rewrite Haff. set_solver.
Qed.
End balance.

(** ** A concrete system

    Two processors; the current thread of the first was stopped, and the second
    has the higher load. *)

Definition demo_thread (cpu : Z) (rem : Z) (st : Z) (ppos apos : nat) : thread_t :=
  Thread (ThreadStat 0 0 0 rem st SCHED_RUNNABLE 20 20 0 0 0 0 0) false 0 cpu 5 apos ppos 0 0 0 0 0 0
    (0, 0)%Z.
Definition demo_queue (l : list ptr) : heap_t :=
  Heap (length l) 80 4096 (l ++ replicate (20 - length l) NULL).
Definition demo_sched (cpu : Z) (run fin aff : list ptr) (cur : ptr) (load : Z) : scheduler_t :=
  Scheduler (demo_queue run) (demo_queue fin) 0 load (demo_queue aff) 0 cpu false 0 7 cur 3.
Definition demo : sstate unit :=
  SState (list_to_map [(100, demo_thread 0 10 SCHED_STOPPED 1 1); (200, demo_thread 0 5 0 1 2);
      (300, demo_thread 1 30 0 1 1); (400, demo_thread 1 20 0 2 2);
      (500, demo_thread 0 4 SCHED_STOPPED 0 0)])%Z
    [demo_sched 0 [100] [200] [100; 200] 100 15; demo_sched 1 [300; 400] [] [300; 400] 300 50]%Z
    [3; 4]%Z 0 3 false
    (Excl (rendezvous_init rend_zero 2) (rendezvous_init rend_zero 2) (-1))%Z tt.

Definition indexed_check (K : heap_kind) (ths : gmap ptr thread_t) (h : heap_t) : bool :=
  (size h <=? length (data_name h)) && bool_decide (NoDup (elems h)) &&
  forallb id (imap (λ j e, bool_decide (hk_pos K <$> ths !! e = Some (S j))) (elems h)).

Lemma indexed_check_ok K ths h : indexed_check K ths h = true → indexed K ths h.
Proof.
  unfold indexed_check. rewrite !andb_true_iff, Nat.leb_le, bool_decide_eq_true.
  intros [[Hsz Hnd] Hall]. split; [done|]. split; [done|]. intros j e He.
  rewrite forallb_forall in Hall. apply (bool_decide_unpack _), Is_true_true. apply Hall.
  apply list_elem_of_In, elem_of_lookup_imap. by exists j, e.
Qed.

Ltac demo_elems Hp :=
  repeat (apply elem_of_cons in Hp as [->|Hp]; [eexists; split; reflexivity|]);
  by apply elem_of_nil in Hp.

Lemma demo_rep : rep demo (abs_of demo).
Proof.
  split; try done.
  - intros [|[|i]] c q; intros [= <-]; destruct q; apply indexed_check_ok; by vm_compute.
  - intros [|[|i]] c q; intros [= <-]; destruct q; reflexivity.
  - intros [|[|i]] [|[|j]] q q' v v'; try done; intros [= <-] [= <-]; destruct q, q';
      try done; intros _ _; apply (bool_decide_unpack _); by vm_compute.
  - simpl. lia.
Qed.

Lemma demo_wf room : (∀ j, room j ≤ 1) → sys_wf room (abs_of demo).
Proof.
  intros Hroom. pose proof (Hroom 0) as H0. pose proof (Hroom 1) as H1.
  intros [|[|j]] v; try done; intros [= <-]; split; try done.
  1,3: intros q; change (base.size _) with 2; destruct q; cbn; lia.
  all: intros p Hp; apply elem_of_contents in Hp; cbn in Hp; demo_elems Hp.
Qed.

Lemma demo_inv i : sched_inv i demo.
Proof.
  split; [apply demo_rep|apply demo_wf; by intros; unfold no_room; lia| |].
  - intros [|[|j]] v; try done; intros [= <-]; right; apply (bool_decide_unpack _); by vm_compute.
  - by intros [|[|j]] v; try done; intros [= <-].
Qed.

Definition big_realloc (p : ptr) (new old pri : Z) : M unit (ptr * Z) := λ t, Done ((8192%Z, new), t).
#[export] Instance big_realloc_ok : ReallocOk big_realloc.
Proof. intros p new old pri t. exists 8192%Z, new, t. split; [done|]. split; [done|lia]. Qed.

Lemma demo_not_in p : bool_decide (p ∈ [100; 200; 300; 400]%Z) = false → ¬ in_queues p demo.
Proof.
  intros Hp%bool_decide_eq_false ([|[|j]] & v & Hv & Hin); try done; simpl in Hv;
    injection Hv as <-; apply elem_of_contents in Hin; cbn in Hin; apply Hp; set_solver.
Qed.

Lemma demo_in_0 p : p ∈ [100; 200]%Z → in_queues p demo.
Proof. intros Hp. exists 0, (view_of (demo_sched 0 [100] [200] [100; 200] 100 15)%Z). split; [done|]. by apply elem_of_contents. Qed.

(** The other processor is the last to join. *)
Definition open_point (w : which) (x : excl_t) : option excl_t :=
  Some (set_ex_point w (set_cond (rendezvous_join (ex_point w x)).1) x).

Lemma sched_resched_sound_witness :
  ∃ r s', sched_resched (λ _ x, x) open_point 0 demo = Done (r, s') ∧ ¬ in_queues 100%Z s' ∧ in_queues 200%Z s'.
Proof.
  destruct (sched_resched_sound (λ _ x, x) open_point 0 _ demo (demo_inv 0) eq_refl)
    as [[_ (w & x & Hno)]|(r & s' & c' & Hrun & _ & _ & _ & _ & Hq)].
  { destruct Hno. eexists. split; [reflexivity|]. unfold open_point. by rewrite ex_point_set. }
  exists r, s'. split; [exact Hrun|]. split.
  - intros Hin. apply (Hq 100%Z) in Hin as [_ Hno]. apply Hno. split; [done|]. split; [done|].
    eexists. split; reflexivity.
  - apply Hq. split; [apply demo_in_0; right; left|]. by intros [? _].
Defined.

Lemma sched_insert_thread_sound_witness :
  ∃ s', sched_insert_thread big_realloc 0 500%Z demo = Done (tt, s') ∧ in_queues 500%Z s'.
Proof.
  destruct (sched_insert_thread_sound big_realloc 0 _ 500%Z _ demo (demo_inv 0) eq_refl eq_refl
    (demo_not_in 500%Z eq_refl) eq_refl) as (s' & c' & t' & Hrun & _ & _ & _ & _ & _ & _ & Hq).
  exists s'. split; [exact Hrun|]. apply Hq. by left.
Defined.

Lemma sched_restart_thread_sound_witness :
  ∃ s' t', sched_restart_thread big_realloc 1 500%Z demo = Done (tt, s') ∧
    s_threads s' !! 500%Z = Some t' ∧ remaining (stat t') = 19%Z.
Proof.
  destruct (sched_restart_thread_sound big_realloc 1 _ 500%Z _ demo (demo_inv 1) eq_refl eq_refl
    (demo_not_in 500%Z eq_refl) eq_refl) as (s' & c' & t' & Hrun & _ & _ & _ & Ht & Hrem & _).
  exists s', t'. split; [exact Hrun|]. split; [exact Ht|]. rewrite Hrem. reflexivity.
Defined.


Lemma rebalance_load_sound_witness :
  ∃ s', rebalance_load 0 demo = Done (tt, s') ∧ (in_queues 400%Z s' ↔ in_queues 400%Z demo).
Proof.
  destruct (rebalance_load_sound 0 _ demo (demo_inv 0)
    (demo_wf (room_at 0) ltac:(intros j; unfold room_at; case_decide; lia)) eq_refl)
    as (s' & c' & Hrun & _ & _ & _ & _ & Hq & _).
  exists s'. split; [exact Hrun|apply Hq].
Defined.

(** ** Loads, priorities and further behaviour *)

(** [highest_load] returns the first processor whose load is not exceeded,
    [lowest_load] the first whose load is not undercut; neither changes the
    state. *)
Theorem extremal_loads {T} (s : sstate T) :
  all_free s → schedulers s ≠ [] →
  (∃ b n, highest_load s = Done (Z.of_nat b, s) ∧ loads s !! b = Some n ∧
     ∀ k m, loads s !! k = Some m → (m ≤ n)%Z ∧ (k < b → (m < n)%Z)) ∧
  (∃ b n, lowest_load s = Done (Z.of_nat b, s) ∧ loads s !! b = Some n ∧
     ∀ k m, loads s !! k = Some m → (n ≤ m)%Z ∧ (k < b → (n < m)%Z)).
Proof.
  intros Hfree Hne.
  assert (∀ better, (∀ x y, better x y = true → better y x = false) →
    (∀ x y z, better x y = true → better y z = true → better x z = true) →
    (∀ x y z, better x y = false → better y z = false → better x z = false) →
    ∃ b n, extremal_load better s = Done (Z.of_nat b, s) ∧ loads s !! b = Some n ∧
      ∀ k m, loads s !! k = Some m → better n m = false ∧ (k < b → better m n = true)) as H.
  { intros better H1 H2 H3.
    destruct (proj1 (wp_Done _ _ _) (wp_extremal_first better s H1 H2 H3 Hfree Hne))
      as (r & s' & Hrun & -> & n & b & Hb & Hn & Hall & Hfirst).
    simpl in *. subst r. exists b, n. split; [done|]. split; [done|]. eauto. }
  split.
  - destruct (H (λ x y, x <? y)%Z) as (b & n & Hrun & Hn & Hall); [lia..|].
    exists b, n. split; [exact Hrun|]. split; [done|]. intros k m Hk.
    destruct (Hall k m Hk) as [H1 H2]. split; [lia|]. intros Hkb. specialize (H2 Hkb). lia.
  - destruct (H (λ x y, y <? x)%Z) as (b & n & Hrun & Hn & Hall); [lia..|].
    exists b, n. split; [exact Hrun|]. split; [done|]. intros k m Hk.
    destruct (Hall k m Hk) as [H1 H2]. split; [lia|]. intros Hkb. specialize (H2 Hkb). lia.
Qed.

Lemma extremal_loads_witness :
  ∃ b n, highest_load demo = Done (Z.of_nat b, demo) ∧ loads demo !! b = Some n ∧
    ∀ k m, loads demo !! k = Some m → (m ≤ n)%Z ∧ (k < b → (m < n)%Z).
Proof.
  apply (extremal_loads demo); [|done]. by intros [|[|i]] c; try done; intros [= <-].
Defined.

(** Restarting never lowers the time of a thread that is within its
    priority, never raises it above the priority, and gives back at least three
    quarters of what is missing. *)
Theorem restarted_bounds e t :
  (0 ≤ remaining (stat t) ≤ soft_priority (stat t))%Z → (soft_priority (stat t) < 2 ^ 31)%Z →
  (0 ≤ epoch t < e)%Z → (e < 2 ^ 32)%Z →
  let d := (soft_priority (stat t) - remaining (stat t))%Z in
  (remaining (stat t) + d - d / 4 ≤ restarted e t ≤ soft_priority (stat t))%Z.
Proof.
  intros Hrem Hsoft He He32. cbv zeta.
  set (r := remaining (stat t)) in *. set (p := soft_priority (stat t)) in *.
  unfold restarted, restart_increase. fold r p.
  rewrite (proj2 (Z.ltb_lt _ _)) by lia.
  assert (s32 (p - r) = p - r)%Z as ->.
  { unfold s32, u32. rewrite Z.mod_small by lia. rewrite (proj2 (Z.ltb_lt _ _)) by lia. lia. }
  rewrite Z.max_r by lia.
  set (k := Z.min 30 (u32 (e - epoch t))). assert (1 ≤ k ≤ 30)%Z as Hk.
  { subst k. unfold u32. rewrite Z.mod_small by lia. lia. }
  set (q := Z.quot (p - r) (s32 (Z.shiftl 2 k))).
  assert (0 ≤ q ≤ (p - r) / 4)%Z as Hq.
  { subst q. assert (4 ≤ 2 * 2 ^ k ≤ 2 ^ 31)%Z as H2k.
    { assert (2 ^ 1 ≤ 2 ^ k ≤ 2 ^ 30)%Z by (split; apply Z.pow_le_mono_r; lia). lia. }
    rewrite Z.shiftl_mul_pow2 by lia. unfold s32, u32. rewrite (Z.mod_small (2 * 2 ^ k)) by lia.
    destruct (Z.ltb_spec (2 * 2 ^ k) (2 ^ 31)) as [Hlt|Hge].
    - rewrite Z.quot_div_nonneg by lia. split; [apply Z.div_pos; lia|].
      apply Z.div_le_compat_l; lia.
    - assert (2 * 2 ^ k = 2 ^ 31)%Z as -> by lia.
      assert (Z.quot (p - r) (2 ^ 31 - 2 ^ 32) = 0)%Z as ->; [|split; [lia|apply Z.div_pos; lia]].
      change (2 ^ 31 - 2 ^ 32)%Z with (- 2 ^ 31)%Z. rewrite Z.quot_opp_r by lia.
      rewrite Z.quot_small by lia. done. }
  assert (u32 (p - r - q) = p - r - q)%Z as ->.
  { unfold u32. rewrite Z.mod_small; [lia|]. pose proof (Z.div_le_upper_bound (p - r) 4 (p - r)). lia. }
  assert (s32 (r + (p - r - q)) = p - q)%Z as ->.
  { unfold s32, u32. rewrite Z.mod_small by lia. rewrite (proj2 (Z.ltb_lt _ _)) by lia. lia. }
  lia.
Qed.

Lemma restarted_bounds_witness :
  let t := demo_thread 0 4 SCHED_STOPPED 0 0 in (16 ≤ restarted 3 t ≤ 20)%Z.
Proof.
  cbv zeta. apply (restarted_bounds 3 (demo_thread 0 4 SCHED_STOPPED 0 0)); simpl; lia.
Defined.

(** [sched_exchange_thread] on the scheduler of the thread's own processor,
    the only one [thread_restart] calls it on, never exchanges anything. *)
Theorem sched_exchange_at_home {T} krealloc i c p t (s : sstate T) :
  sched_inv i s → schedulers s !! i = Some c → s_threads s !! p = Some t →
  cpu_id t = Z.of_nat i → sched_exchange_thread krealloc i p s = Done (p, s).
Proof.
  intros Hg Hc Ht Hid. pose proof (gd_rep _ _ _ Hg) as Hr.
  pose proof (sw_cpu _ _ _ _ (gd_wf _ _ _ Hg i _ (abs_view s i c Hc))) as Hcpu. simpl in Hcpu.
  enough (wp (sched_exchange_thread krealloc i p) (λ r s', r = p ∧ s' = s) s)
    as (r & s' & Hrun & -> & ->)%wp_Done by done.
  apply wp_bind. eapply (wp_queue_head i Aff); [done|by apply abs_view|]. intros h _.
  apply wp_bind, (wp_getopt _ (sc_cpu_id c)); [by rewrite Hc|].
  apply wp_bind, (wp_getopt _ (cpu_id t)); [by rewrite Ht|].
  rewrite Hid, Hcpu, Z.eqb_refl. by apply wp_ret.
Qed.

Lemma sched_exchange_at_home_witness :
  sched_exchange_thread big_realloc 0 200%Z demo = Done (200%Z, demo).
Proof. by apply (sched_exchange_at_home big_realloc 0 _ 200%Z _ demo (demo_inv 0) eq_refl eq_refl). Defined.

(** The timer interrupt calls [sched_resched] without the lock of the
    scheduler; when the current thread is no longer runnable, the lock is left
    taken, although nobody holds it. *)
Theorem sched_resched_leaves_lock :
  all_free demo ∧
  ∃ r s' c', sched_resched (λ _ x, x) open_point 0 demo = Done (r, s') ∧ schedulers s' !! 0 = Some c' ∧
    sc_mutex c' = true.
Proof.
  split; [by intros [|[|i]] c; try done; intros [= <-]|].
  destruct (sched_resched (λ _ x, x) open_point 0 demo) as [[r s']| | |] eqn:Hrun; vm_compute in Hrun; try done.
  injection Hrun as <- <-. eexists _, _, _. split; [reflexivity|]. split; reflexivity.
Qed.

(** One processor with one thread, which runs; [e] is the exclusion variable. *)
Definition lone (e : Z) : sstate unit :=
  SState (list_to_map [(100, demo_thread 0 10 SCHED_STOPPED 1 1)])%Z
    [demo_sched 0 [100] [] [100] 100 10]%Z [3]%Z 0 3 false
    (Excl rend_zero rend_zero e) tt.

(** Removing the last thread of the system, without exclusion for its
    processor, dereferences the null pointer. *)
Theorem sched_remove_last_faults e :
  e ≠ 0%Z → sched_remove_thread 0 100%Z (lone e) = Fault.
Proof.
  intros He. destruct (Z.eqb_spec e 0) as [|_]; [done|].
  destruct e; [done|by vm_compute|by vm_compute].
Qed.

Lemma sched_remove_last_faults_witness : sched_remove_thread 0 100%Z (lone (-1)) = Fault.
Proof. by apply (sched_remove_last_faults (-1)). Defined.
