(* ===== verification/ThreadSched.v ===== *)
(** * Scheduling threads over all processors (src/sched/thread_sched.c)

    The entry points of the scheduler: adding, restarting and removing threads,
    their states and priorities.  They lock one scheduler at a time and call
    the operations of [Scheduler].  Priorities are inherited through mutexes
    (include/sync.h): raising a waiting thread raises the holder of the mutex
    it waits for, which recurs along the chain of holders; [fuel] bounds the
    length of that chain. *)

From S2P Require Import Prelude Thread SiftHeap ThreadHeaps Rendezvous Scheduler.
#[local] Open Scope Z_scope.

Definition WAIT_NONE : Z := 0.
Definition WAIT_MUTEX : Z := 1.
Definition WAIT_COND : Z := 2.

(** [mutex_t]: three spin locks, the number of spinning threads, the priorities
    of the sleeping ones, their queue and the holder. *)
Record mutex_t := Mutex {
  m_mutex : bool;
  m_num_mutex : bool;
  m_data_mutex : bool;
  m_num_spin : Z;
  pri_count : Z;
  m_queue : ptr;
  holder : ptr;
}.
Definition set_m_mutex v m := Mutex v (m_num_mutex m) (m_data_mutex m) (m_num_spin m) (pri_count m)
  (m_queue m) (holder m).
Definition set_m_num_mutex v m := Mutex (m_mutex m) v (m_data_mutex m) (m_num_spin m) (pri_count m)
  (m_queue m) (holder m).
Definition set_m_data_mutex v m := Mutex (m_mutex m) (m_num_mutex m) v (m_num_spin m) (pri_count m)
  (m_queue m) (holder m).
Definition set_m_num_spin v m := Mutex (m_mutex m) (m_num_mutex m) (m_data_mutex m) v (pri_count m)
  (m_queue m) (holder m).
Definition set_pri_count v m := Mutex (m_mutex m) (m_num_mutex m) (m_data_mutex m) (m_num_spin m) v
  (m_queue m) (holder m).
Definition set_m_queue v m := Mutex (m_mutex m) (m_num_mutex m) (m_data_mutex m) (m_num_spin m)
  (pri_count m) v (holder m).
Definition set_holder v m := Mutex (m_mutex m) (m_num_mutex m) (m_data_mutex m) (m_num_spin m)
  (pri_count m) (m_queue m) v.
Definition mutex_init : mutex_t := Mutex false false false 0 0 NULL NULL.

(** [cond_t]. *)
Record cond_t := Cond {
  c_mutex : bool;
  c_num_mutex : bool;
  c_queue_mutex : bool;
  c_type_mutex : bool;
  c_num_spin : Z;
  broadcast : Z;
  c_queue : ptr;
}.
Definition set_c_mutex v c := Cond v (c_num_mutex c) (c_queue_mutex c) (c_type_mutex c)
  (c_num_spin c) (broadcast c) (c_queue c).
Definition set_c_num_mutex v c := Cond (c_mutex c) v (c_queue_mutex c) (c_type_mutex c)
  (c_num_spin c) (broadcast c) (c_queue c).
Definition set_c_queue_mutex v c := Cond (c_mutex c) (c_num_mutex c) v (c_type_mutex c)
  (c_num_spin c) (broadcast c) (c_queue c).
Definition set_c_type_mutex v c := Cond (c_mutex c) (c_num_mutex c) (c_queue_mutex c) v
  (c_num_spin c) (broadcast c) (c_queue c).
Definition set_c_num_spin v c := Cond (c_mutex c) (c_num_mutex c) (c_queue_mutex c) (c_type_mutex c)
  v (broadcast c) (c_queue c).
Definition set_broadcast v c := Cond (c_mutex c) (c_num_mutex c) (c_queue_mutex c) (c_type_mutex c)
  (c_num_spin c) v (c_queue c).
Definition set_c_queue v c := Cond (c_mutex c) (c_num_mutex c) (c_queue_mutex c) (c_type_mutex c)
  (c_num_spin c) (broadcast c) v.
Definition cond_init : cond_t := Cond false false false false 0 0 NULL.

(** The schedulers, the synchronization objects, the thread that runs and the
    number of times the timer is disabled (a 16-bit counter). *)
Record kstate (T : Type) := KState {
  k_sched : sstate T;
  mutexes : gmap ptr mutex_t;
  conds : gmap ptr cond_t;
  k_current : ptr;
  timer_count : Z;
}.
Arguments KState {T}.
Arguments k_sched {T}.
Arguments mutexes {T}.
Arguments conds {T}.
Arguments k_current {T}.
Arguments timer_count {T}.

Section operations.
Context {T : Type} (krealloc : ptr → Z → Z → Z → M T (ptr * Z)).
Context (meanwhile : which → excl_t → excl_t) (released : which → excl_t → option excl_t).
Implicit Types s : kstate T.

Definition set_k_sched (x : sstate T) s := KState x (mutexes s) (conds s) (k_current s) (timer_count s).
Definition set_mutexes x s := KState (k_sched s) x (conds s) (k_current s) (timer_count s).
Definition set_conds x s := KState (k_sched s) (mutexes s) x (k_current s) (timer_count s).
Definition set_timer_count x s := KState (k_sched s) (mutexes s) (conds s) (k_current s) x.

(** A scheduler operation. *)
Definition on_sched {A} (m : M (sstate T) A) : M (kstate T) A := zoom k_sched set_k_sched m.
Definition tget {A} (p : ptr) (f : thread_t → A) : M (kstate T) A := on_sched (get_thread p f).
Definition tupd (p : ptr) (f : thread_t → thread_t) : M (kstate T) unit :=
  on_sched (upd_thread p f).

Definition mget {A} (p : ptr) (f : mutex_t → A) : M (kstate T) A :=
  getopt (λ s, f <$> mutexes s !! p).
Definition mupd (p : ptr) (f : mutex_t → mutex_t) : M (kstate T) unit :=
  putopt (λ s, match mutexes s !! p with
               | Some m => Some (set_mutexes (<[p := f m]> (mutexes s)) s)
               | None => None
               end).

Definition timer_disable : M (kstate T) unit :=
  modify (λ s, set_timer_count ((timer_count s + 1) mod 2 ^ 16) s).
Definition timer_restore : M (kstate T) unit :=
  modify (λ s, set_timer_count ((timer_count s - 1) mod 2 ^ 16) s).

(** [spin_lock] on a field of a thread or of a mutex. *)
Definition spin_lock_on (get : M (kstate T) bool) (set : bool → M (kstate T) unit) :
    M (kstate T) unit :=
  held ← get;
  lock (λ _, held) (λ _ s, s);;
  set true.

Definition thread_lock (p : ptr) : M (kstate T) unit :=
  spin_lock_on (tget p sync_mutex) (λ b, tupd p (set_sync_mutex b)).
Definition thread_unlock (p : ptr) : M (kstate T) unit := tupd p (set_sync_mutex false).
Definition data_lock (p : ptr) : M (kstate T) unit :=
  spin_lock_on (mget p m_data_mutex) (λ b, mupd p (set_m_data_mutex b)).
Definition data_unlock (p : ptr) : M (kstate T) unit := mupd p (set_m_data_mutex false).

(** ** Initialisation *)

(** The schedulers are laid out by [static_alloc]; [raw] is what the memory
    held before. *)
Fixpoint static_init_from (i : Z) (raw : list scheduler_t) : list scheduler_t :=
  match raw with
  | [] => []
  | c :: raw' => sched_static_init i c :: static_init_from (i + 1) raw'
  end.

Definition thread_sched_static_init (raw : list scheduler_t) (s : sstate T) : sstate T :=
  set_schedulers (static_init_from 0 raw) s.

Definition thread_sched_dynamic_init (kmal : Z → M T ptr) (kern_mal : Z → Z → M T (ptr * Z)) :
    M (sstate T) unit :=
  cpu_num ← gets (λ s : sstate T, length (schedulers s));
  for_upto cpu_num 0 (λ i, sched_dynamic_init kmal kern_mal (Z.to_nat i)).

(** ** Adding and removing threads *)

Definition thread_insert (thread : ptr) : M (kstate T) unit :=
  min ← on_sched lowest_load;
  tupd thread (on_stat (set_status SCHED_RUNNABLE));;
  tupd thread (on_stat (set_run_status SCHED_RUNNABLE));;
  on_sched (sched_lock (Z.to_nat min));;
  on_sched (sched_insert_thread krealloc (Z.to_nat min) thread);;
  on_sched (sched_unlock (Z.to_nat min)).

Definition thread_restart (thread : ptr) : M (kstate T) unit :=
  min ← on_sched lowest_load;
  tupd thread (λ t, on_stat (set_status (run_status (stat t))) t);;
  id ← tget thread cpu_id;
  if min =? id then
    on_sched (sched_lock (Z.to_nat min));;
    on_sched (sched_restart_thread krealloc (Z.to_nat min) thread);;
    on_sched (sched_unlock (Z.to_nat min))
  else
    on_sched (sched_lock (Z.to_nat id));;
    swap ← on_sched (sched_exchange_thread krealloc (Z.to_nat id) thread);
    id' ← tget thread cpu_id;
    on_sched (sched_unlock (Z.to_nat id'));;
    on_sched (sched_lock (Z.to_nat min));;
    on_sched (sched_restart_thread krealloc (Z.to_nat min) swap);;
    on_sched (sched_unlock (Z.to_nat min)).

Definition thread_remove (thread : ptr) : M (kstate T) unit :=
  timer_disable;;
  id ← tget thread cpu_id;
  on_sched (sched_lock (Z.to_nat id));;
  on_sched (sched_remove_thread (Z.to_nat id) thread);;
  id' ← tget thread cpu_id;
  on_sched (sched_unlock (Z.to_nat id'));;
  timer_restore.

(** ** States and priorities *)

Definition thread_set_status (thread : ptr) (st : Z) : M (kstate T) unit :=
  if (st =? SCHED_RUNNABLE) || (st =? SCHED_NO_RESCHED) || (st =? SCHED_EXCLUSIVE)
     || (st =? SCHED_ATOMIC) then
    tupd thread (on_stat (set_run_status st));;
    tupd thread (on_stat (set_status st))
  else if (st =? SCHED_INT_SLEEP) || (st =? SCHED_UNINT_SLEEP) || (st =? SCHED_STOPPED) then
    tupd thread (on_stat (set_status st))
  else mret tt.

(** The thread's queue position follows its new time, if it is runnable. *)
Definition apply_boost (thread : ptr) (diff : Z) : M (kstate T) unit :=
  r ← tget thread (λ t, remaining (stat t));
  (if r <? 0 then tupd thread (on_stat (set_remaining 0)) else mret tt);;
  st ← tget thread (λ t, status (stat t));
  if RUNNABLE_STATE st then
    id ← tget thread cpu_id;
    on_sched (sched_lock (Z.to_nat id));;
    r ← tget thread (λ t, remaining (stat t));
    on_sched (sched_change_remaining (Z.to_nat id) thread (u32 (r + diff)));;
    id' ← tget thread cpu_id;
    on_sched (sched_unlock (Z.to_nat id'))
  else mret tt.

(** A thread that waits for a mutex passes the change on to its holder. *)
Definition boost_holder (adjust : ptr → Z → M (kstate T) unit) (thread : ptr) (diff : Z) :
    M (kstate T) unit :=
  wt ← tget thread wait_type;
  st ← tget thread (λ t, status (stat t));
  if (wt =? WAIT_MUTEX) && negb (RUNNABLE_STATE st) then
    mutex ← tget thread wait_obj;
    data_lock mutex;;
    mupd mutex (λ m, set_pri_count (u32 (pri_count m + diff)) m);;
    h ← mget mutex holder;
    adjust h diff;;
    data_unlock mutex
  else mret tt.

Fixpoint thread_adjust_priority (fuel : nat) (thread : ptr) (priority : Z) : M (kstate T) unit :=
  match fuel with
  | O => λ _, NoFuel
  | S f =>
      timer_disable;;
      thread_lock thread;;
      tupd thread (λ t, on_stat
        (set_soft_priority (u32 (soft_priority (stat t) + priority))) t);;
      boost_holder (thread_adjust_priority f) thread priority;;
      apply_boost thread priority;;
      thread_unlock thread;;
      timer_restore
  end.

Definition thread_set_priority (fuel : nat) (thread : ptr) (priority : Z) : M (kstate T) unit :=
  timer_disable;;
  thread_lock thread;;
  p ← tget thread (λ t, soft_priority (stat t));
  let diff := s32 (p - priority) in
  tupd thread (on_stat (set_soft_priority priority));;
  boost_holder (thread_adjust_priority fuel) thread diff;;
  apply_boost thread diff;;
  thread_unlock thread;;
  timer_restore.

Definition thread_set_hard_priority (fuel : nat) (thread : ptr) (priority : Z) :
    M (kstate T) unit :=
  timer_disable;;
  thread_lock thread;;
  p ← tget thread (λ t, hard_priority (stat t));
  let diff := s32 (p - priority) in
  tupd thread (on_stat (set_hard_priority priority));;
  tupd thread (λ t, on_stat (set_soft_priority (u32 (soft_priority (stat t) + diff))) t);;
  boost_holder (thread_adjust_priority fuel) thread diff;;
  apply_boost thread diff;;
  thread_unlock thread;;
  timer_restore.
End operations.
