(* ===== verification/ThreadSpec.v ===== *)
(** * The contract of the thread scheduler

    The entry points of src/sched/thread_sched.c on a system whose scheduler
    locks are all free: they choose a processor, take its lock, call the
    scheduler and give the lock back. *)

From stdpp Require Import functions.
From S2P Require Import Prelude Thread SiftHeap ThreadHeaps Rendezvous Scheduler SchedRep SchedProofs SchedRun SchedSpec ThreadSched.

(** The scheduler's invariant between operations. *)
Record quiet {T} (s : sstate T) : Prop := {
  qt_rep : rep s (abs_of s);
  qt_wf : sys_wf no_room (abs_of s);
  qt_cur : cur_wf (abs_of s);
  qt_free : all_free s;
}.

Lemma quiet_inv {T} (s : sstate T) i : quiet s → sched_inv i s.
Proof.
  intros []. split; try done. intros j v (c & Hc & ->)%abs_sched _. by eapply qt_free0.
Qed.

(** Processor [i] gives its lock back. *)
Lemma quiet_unlock {T} i (s s' : sstate T) a v :
  good i s a → a_views a !! i = Some v → rep s' (upd_view i (with_lock false v) a) → quiet s'.
Proof.
  intros Hg Hv Hr. pose proof (rep_abs _ _ Hr) as Ha.
  assert (good i s' (upd_view i (with_lock false v) a)) as [_ Hwf Hcur Hfree].
  { eapply good_view; [done..| |by destruct (gd_cur _ _ _ Hg i v Hv); [left|right]].
    intros q. exists q. by destruct q. }
  split; try (by rewrite <-Ha).
  intros j c Hc. pose proof (abs_view _ _ _ Hc) as Hvc. rewrite <-Ha in Hvc.
  destruct (decide (j = i)) as [->|Hji]; [|by apply (Hfree j _ Hvc)].
  rewrite (look_view_eq i _ v) in Hvc by done. apply (inj Some), (f_equal v_lock) in Hvc. by symmetry.
Qed.

Lemma quiet_lock {T} i (s : sstate T) a v :
  sys_wf no_room a → cur_wf a → (∀ j w, a_views a !! j = Some w → v_lock w = false) →
  a_views a !! i = Some v → rep s (upd_view i (with_lock true v) a) →
  good i s (upd_view i (with_lock true v) a).
Proof.
  intros Hwf Hcur Hfree Hv Hr. destruct (Hwf i v Hv) as [H1 H2 H3 H4]. split; [done| | |].
  - eapply sys_wf_view; [done..|]. intros q. specialize (H3 q). by destruct q.
  - apply cur_wf_view; [by apply cur_wf_but|]. by destruct (Hcur i v Hv); [left|right].
  - apply free_but_view. intros j w Hj _. by eapply Hfree.
Qed.

Lemma wp_on_sched {T A} (m : M (sstate T) A) (Q : A → kstate T → Prop) s :
  wp m (λ r x, Q r (set_k_sched x s)) (k_sched s) → wp (on_sched m) Q s.
Proof. apply wp_zoom. Qed.

Section theorems.
Context {T : Type}.
Implicit Types s : kstate T.

(** Inserting on processor [b], which [lowest_load] has chosen. *)
Lemma wp_thread_insert krealloc `{!ReallocOk krealloc} p t s b c :
  quiet (k_sched s) → lowest_load (k_sched s) = Done (Z.of_nat b, k_sched s) →
  schedulers (k_sched s) !! b = Some c → s_threads (k_sched s) !! p = Some t →
  ¬ in_queues p (k_sched s) → (Z.of_nat (size (affinity_queue c)) + 1 < 2 ^ 29)%Z →
  wp (thread_insert krealloc p) (λ _ s', quiet (k_sched s') ∧
    (∃ t', s_threads (k_sched s') !! p = Some t' ∧ cpu_id t' = Z.of_nat b ∧
       status (stat t') = SCHED_RUNNABLE ∧ run_status (stat t') = SCHED_RUNNABLE) ∧
    ∀ x, in_queues x (k_sched s') ↔ x = p ∨ in_queues x (k_sched s)) s.
Proof.
  intros Hq Hlow Hc Ht Hno Hsz.
  pose proof (not_in_queues _ 0 p (quiet_inv _ 0 Hq) Hno) as Hun.
  pose proof (v_queue_size Aff _ _ b c (qt_rep _ Hq) Hc : base.size (v_aff (view_of c)) = _) as Hs.
  simpl in Hs. rewrite <-Hs in Hsz. clear Hs.
  pose proof (abs_view _ b c Hc) as Hv. pose proof (abs_thread _ _ _ Ht) as Hat.
  assert (∀ j w, a_views (abs_of (k_sched s)) !! j = Some w → v_lock w = false) as Hfree.
  { intros j w (d & Hd & ->)%abs_sched. by apply (qt_free _ Hq j). }
  destruct Hq as [Hr Hwf Hcur _]. set (a := abs_of (k_sched s)) in *.
  assert (∀ x, in_queues x (k_sched s) ↔ queued x a) as Hqa by done. clearbody a.
  apply wp_bind, wp_on_sched. eapply wp_mono with (P := λ r x, r = Z.of_nat b ∧ x = k_sched s).
  { unfold wp. by rewrite Hlow. }
  intros r x [-> ->]. rewrite Nat2Z.id.
  apply wp_bind, wp_on_sched. eapply wp_upd_thread; [apply _|done|done|]. intros x1 Hr1.
  apply wp_bind, wp_on_sched. eapply wp_upd_thread; [apply _|exact Hr1|look|]. intros x2 Hr2.
  rewrite upd_core_twice in Hr2.
  apply wp_bind, wp_on_sched. eapply wp_sched_lock; [exact Hr2|exact Hv|by eapply Hfree|].
  intros x3 Hr3. clear Hr1 Hr2. set (a1 := upd_core p _ a) in *.
  assert (good b x3 (upd_view b (with_lock true (view_of c)) a1)) as Hg3.
  { apply quiet_lock; [by eapply sys_wf_core|done..]. }
  apply wp_bind, wp_on_sched.
  eapply wp_sched_insert_thread; [apply _|exact Hg3|by eapply look_view_eq|by apply lookup_insert_eq| | |].
  { eapply unqueued_same; [|exact Hv|exact Hun]. by intros []. }
  { exact Hsz. }
  intros x4 a4 v4 Hg4 Hv4 Hgr Hq4 (t4 & Ht4 & _ & Hid4 & Hst4 & Hrs4).
  apply wp_on_sched. eapply wp_sched_unlock; [by apply Hg4|exact Hv4|]. intros x5 Hr5.
  cbn [k_sched set_k_sched]. pose proof (quiet_unlock b x4 x5 a4 v4 Hg4 Hv4 Hr5) as Hq5.
  split; [done|]. pose proof (rep_abs _ _ Hr5) as Ha5. split.
  - destruct (rep_thread _ _ p t4 Hr5) as (t' & Ht' & Hct); [done|].
    exists t'. split; [done|]. apply (f_equal (λ t, (cpu_id t, stat t))) in Hct as Hct'.
    injection Hct' as Hid' Hstat. simpl in Hid', Hstat. rewrite Hid', Hstat, Hid4, Hst4, Hrs4. done.
  - intros x. rewrite Hqa. unfold in_queues. rewrite <-Ha5.
    rewrite (steady_queued a4 _ x (steady_view b v4 (with_lock false v4) a4 Hv4 eq_refl)), Hq4.
    rewrite (steady_queued a1 _ x (steady_view b (view_of c) (with_lock true (view_of c)) a1 Hv eq_refl)). done.
Qed.

(** C29: [thread_insert] makes a new thread runnable and adds it to the first
    processor of least load; all scheduler locks are free again afterwards. *)
Theorem thread_insert_sound krealloc `{!ReallocOk krealloc} p t s :
  quiet (k_sched s) → schedulers (k_sched s) ≠ [] →
  s_threads (k_sched s) !! p = Some t → ¬ in_queues p (k_sched s) →
  (∀ i c, schedulers (k_sched s) !! i = Some c →
     (Z.of_nat (size (affinity_queue c)) + 1 < 2 ^ 29)%Z) →
  ∃ s' b n t', thread_insert krealloc p s = Done (tt, s') ∧ quiet (k_sched s') ∧
    loads (k_sched s) !! b = Some n ∧
    (∀ k m, loads (k_sched s) !! k = Some m → (n ≤ m)%Z ∧ (k < b → (n < m)%Z)) ∧
    s_threads (k_sched s') !! p = Some t' ∧ cpu_id t' = Z.of_nat b ∧
    status (stat t') = SCHED_RUNNABLE ∧ run_status (stat t') = SCHED_RUNNABLE ∧
    ∀ x, in_queues x (k_sched s') ↔ x = p ∨ in_queues x (k_sched s).
Proof.
  intros Hq Hne Ht Hno Hsz.
  destruct (extremal_loads (k_sched s) (qt_free _ Hq) Hne) as (_ & b & n & Hlow & Hb & Hmin).
  assert (∃ c, schedulers (k_sched s) !! b = Some c) as [c Hc].
  { unfold loads in Hb. rewrite list_lookup_fmap in Hb.
    destruct (schedulers (k_sched s) !! b) as [c|]; [by exists c|done]. }
  destruct (proj1 (wp_Done _ _ _) (wp_thread_insert krealloc p t s b c Hq Hlow Hc Ht Hno (Hsz b c Hc)))
    as ([] & s' & Hrun & Hq' & (t' & Ht' & Hid & Hst & Hrs) & Hin).
  exists s', b, n, t'. by split_and!.
Qed.
End theorems.

(** [thread_remove] takes exactly the given thread out of the queues of its
    processor; the processor's lock is given back and the timer restored. *)
Theorem thread_remove_sound {T} p t i c (s : kstate T) :
  quiet (k_sched s) → (0 ≤ timer_count s < 2 ^ 16)%Z →
  s_threads (k_sched s) !! p = Some t → cpu_id t = Z.of_nat i →
  schedulers (k_sched s) !! i = Some c → p ∈ elems (affinity_queue c) →
  (p = current_thread c →
     ex_var (exclusion (k_sched s)) = s32 (sc_cpu_id c) ∨ ∃ q, q ≠ p ∧ q ∈ elems (affinity_queue c)) →
  ∃ s', thread_remove p s = Done (tt, s') ∧ quiet (k_sched s') ∧ timer_count s' = timer_count s ∧
    ∀ x, in_queues x (k_sched s') ↔ in_queues x (k_sched s) ∧ x ≠ p.
Proof.
  intros Hq Htc Ht Hid Hc Hp Hsucc.
  enough (wp (thread_remove p) (λ _ s', quiet (k_sched s') ∧ timer_count s' = timer_count s ∧
    ∀ x, in_queues x (k_sched s') ↔ in_queues x (k_sched s) ∧ x ≠ p) s)
    as ([] & s' & Hrun & H)%wp_Done by by exists s'.
  pose proof (abs_view _ i c Hc) as Hv. pose proof (abs_thread _ _ _ Ht) as Hat.
  assert (∀ j w, a_views (abs_of (k_sched s)) !! j = Some w → v_lock w = false) as Hfree.
  { intros j w (d & Hd & ->)%abs_sched. by apply (qt_free _ Hq j). }
  destruct Hq as [Hr Hwf Hcur _]. set (a := abs_of (k_sched s)) in *.
  assert (∀ x, in_queues x (k_sched s) ↔ queued x a) as Hqa by done.
  assert (a_exclusion a = ex_var (exclusion (k_sched s))) as Hex by done. clearbody a.
  assert (p ∈ v_aff (view_of c)) as Hpv by by eapply in_affinity.
  apply wp_bind, wp_modify.
  apply wp_bind, wp_on_sched. eapply wp_get_thread; [done|exact Hat|]. intros t1 _ Hc1.
  assert (cpu_id t1 = Z.of_nat i) as -> by by rewrite <-Hid; apply (f_equal cpu_id) in Hc1.
  rewrite Nat2Z.id.
  apply wp_bind, wp_on_sched. eapply wp_sched_lock; [exact Hr|exact Hv|by eapply Hfree|].
  intros x1 Hr1. apply wp_bind, wp_on_sched.
  eapply wp_sched_remove_thread; [by apply quiet_lock|by eapply look_view_eq|done| |].
  { intros Hpc. destruct (Hsucc Hpc) as [He|(q & Hqp & Hq)]; [left; exact (eq_trans Hex He)|right].
    intros Heq. apply Hqp. apply (in_affinity (k_sched s) q i c Hc) in Hq.
    change (v_aff (with_lock true (view_of c))) with (v_aff (view_of c)) in Heq.
    rewrite Heq in Hq. apply elem_of_singleton in Hq. subst q p. done. }
  intros x2 a2 Hg2 Hlo [v2 Hv2].
  pose proof (lo_cpu _ _ _ _ Hlo) as Hcpu. simpl in Hcpu. rewrite Hat in Hcpu.
  apply fmap_Some in Hcpu as (t2 & Ht2 & Hid2). simpl in Hid2.
  apply wp_bind, wp_on_sched. eapply wp_get_thread; [by apply Hg2|exact Ht2|]. intros t3 _ Hc3.
  assert (cpu_id t3 = Z.of_nat i) as -> by (apply (f_equal cpu_id) in Hc3; simpl in Hc3; congruence).
  rewrite Nat2Z.id.
  apply wp_bind, wp_on_sched. eapply wp_sched_unlock; [by apply Hg2|exact Hv2|]. intros x3 Hr3.
  apply wp_modify. cbn [k_sched set_k_sched set_timer_count timer_count].
  split; [by eapply quiet_unlock|]. split.
  { rewrite Zminus_mod_idemp_l. replace (_ + 1 - 1)%Z with (timer_count s) by lia.
    by apply Z.mod_small. }
  intros x. pose proof (rep_abs _ _ Hr3) as Ha3. unfold in_queues at 1. rewrite <-Ha3, Hqa.
  rewrite (steady_queued a2 _ x (steady_view i v2 (with_lock false v2) a2 Hv2 eq_refl)).
  rewrite (lo_queued _ _ _ _ Hlo).
  by rewrite (steady_queued a _ x (steady_view i (view_of c) (with_lock true (view_of c)) a Hv eq_refl)).
Qed.

(** ** A concrete system: two processors, no synchronization objects *)

Definition kdemo : kstate unit := KState demo ∅ ∅ 300%Z 0%Z.

Lemma demo_quiet : quiet demo.
Proof.
  split; [apply demo_rep|apply demo_wf; by intros; unfold no_room; lia| |].
  - intros [|[|j]] v; try done; intros [= <-]; right; apply (bool_decide_unpack _); by vm_compute.
  - by intros [|[|j]] v; try done; intros [= <-].
Qed.

Lemma thread_insert_sound_witness :
  ∃ s', thread_insert big_realloc 500%Z kdemo = Done (tt, s') ∧ quiet (k_sched s') ∧
    in_queues 500%Z (k_sched s').
Proof.
  destruct (thread_insert_sound big_realloc 500%Z _ kdemo demo_quiet ltac:(done) eq_refl
    (demo_not_in 500%Z eq_refl)) as (s' & b & n & t' & Hrun & Hq & _ & _ & _ & _ & _ & _ & Hin).
  - by intros [|[|i]] c; try done; intros [= <-].
  - exists s'. split; [exact Hrun|]. split; [exact Hq|]. apply Hin. by left.
Defined.

Lemma thread_remove_sound_witness :
  ∃ s', thread_remove 300%Z kdemo = Done (tt, s') ∧ timer_count s' = 0%Z ∧
    ¬ in_queues 300%Z (k_sched s').
Proof.
  destruct (thread_remove_sound 300%Z _ 1 _ kdemo demo_quiet ltac:(simpl; lia) eq_refl eq_refl eq_refl)
    as (s' & Hrun & _ & Htc & Hq).
  - apply (bool_decide_unpack _). by vm_compute.
  - intros _. right. exists 400%Z. split; [done|]. apply (bool_decide_unpack _). by vm_compute.
  - exists s'. split; [exact Hrun|]. split; [exact Htc|]. intros [_ Hne]%Hq. exact (Hne eq_refl).
Defined.
