(* ===== verification/Sync.v ===== *)
(** * Mutexes and condition variables (src/sync/sync.c)

    A mutex or a condition variable is at its core a spin lock.  A thread that
    finds a mutex taken registers as spinning; if the timer interrupt finds it
    still spinning, [sync_check] puts it to sleep on the queue of the object
    unless that would close a cycle of waiting threads.

    A function that can spin is modelled in two parts, the part up to the spin
    lock it waits for and the part that runs once it has it.  Locks that only
    protect a few assignments are taken and released within one part; taking
    one that is not free is a deadlock.  [garbage] is the value of a local
    variable that the code reads before it assigns it. *)

From S2P Require Import Prelude CircularList Thread SiftHeap ThreadHeaps Rendezvous Scheduler ThreadSched.
#[local] Open Scope Z_scope.

(** How far a call comes that may have to spin. *)
Inductive lock_end := Acquired | Spinning.

Section operations.
Context {T : Type} (krealloc : ptr → Z → Z → Z → M T (ptr * Z)).
Context (meanwhile : which → excl_t → excl_t) (released : which → excl_t → option excl_t).
Context (lock_reentry wait_reentry : Z) (garbage : ptr) (fuel : nat).
Implicit Types s : kstate T.

(** *** The queues of threads *)

Definition put_threads (m : gmap ptr thread_t) s : kstate T :=
  set_k_sched (set_s_threads m (k_sched s)) s.
Definition thread_next : field (kstate T) ptr :=
  node_field (λ s, s_threads (k_sched s)) put_threads queue_next set_queue_next.
Definition thread_last : field (kstate T) ptr :=
  node_field (λ s, s_threads (k_sched s)) put_threads queue_last set_queue_last.
Definition thread_clist : clist_ops (kstate T) := ClistOps thread_next thread_last.

Definition thread_queue_insert (queue inn : ptr) : M (kstate T) ptr :=
  clist_insert thread_clist queue inn.
(** [thread_clist_delete(x->queue_last)]. *)
Definition thread_queue_remove (queue : ptr) : M (kstate T) ptr :=
  l ← load thread_last queue;
  clist_delete thread_clist l.

(** *** Locks *)

Definition cget {A} (p : ptr) (f : cond_t → A) : M (kstate T) A :=
  getopt (λ s, f <$> conds s !! p).
Definition cupd (p : ptr) (f : cond_t → cond_t) : M (kstate T) unit :=
  putopt (λ s, match conds s !! p with
               | Some c => Some (set_conds (<[p := f c]> (conds s)) s)
               | None => None
               end).

Definition num_lock (p : ptr) : M (kstate T) unit :=
  spin_lock_on (mget p m_num_mutex) (λ b, mupd p (set_m_num_mutex b)).
Definition num_unlock (p : ptr) : M (kstate T) unit := mupd p (set_m_num_mutex false).
Definition cnum_lock (p : ptr) : M (kstate T) unit :=
  spin_lock_on (cget p c_num_mutex) (λ b, cupd p (set_c_num_mutex b)).
Definition cnum_unlock (p : ptr) : M (kstate T) unit := cupd p (set_c_num_mutex false).
Definition cqueue_lock (p : ptr) : M (kstate T) unit :=
  spin_lock_on (cget p c_queue_mutex) (λ b, cupd p (set_c_queue_mutex b)).
Definition cqueue_unlock (p : ptr) : M (kstate T) unit := cupd p (set_c_queue_mutex false).
Definition ctype_lock (p : ptr) : M (kstate T) unit :=
  spin_lock_on (cget p c_type_mutex) (λ b, cupd p (set_c_type_mutex b)).

(** [spin_trylock(mutex->mutex)]. *)
Definition mutex_spin_trylock (mutex : ptr) : M (kstate T) bool :=
  held ← mget mutex m_mutex;
  if (held : bool) then mret false
  else mupd mutex (set_m_mutex true);; mret true.

(** *** Mutexes *)

Definition awaken_thread (thread : ptr) : M (kstate T) unit :=
  tupd thread (set_wait_type WAIT_NONE);;
  thread_restart krealloc thread.

Definition get_priority_boost (mutex current : ptr) : M (kstate T) unit :=
  data_lock mutex;;
  p ← mget mutex pri_count;
  mupd mutex (set_holder current);;
  data_unlock mutex;;
  tupd current (set_wait_obj WAIT_NONE);;
  thread_adjust_priority fuel current (s32 p).

(** [mutex_lock] from where the spin lock was obtained after registering. *)
Definition mutex_lock_finish (mutex current : ptr) : M (kstate T) unit :=
  get_priority_boost mutex current;;
  mupd mutex (λ m, set_m_num_spin (u32 (m_num_spin m - 1)) m);;
  timer_restore.

Definition mutex_lock (mutex : ptr) : M (kstate T) lock_end :=
  got ← mutex_spin_trylock mutex;
  if negb got then
    current ← gets k_current;
    tupd current (set_wait_obj mutex);;
    timer_disable;;
    tupd current (set_wait_type WAIT_MUTEX);;
    num_lock mutex;;
    mupd mutex (λ m, set_m_num_spin (u32 (m_num_spin m + 1)) m);;
    num_unlock mutex;;
    got ← mutex_spin_trylock mutex;
    if negb got then timer_restore;; mret Spinning
    else mutex_lock_finish mutex current;; mret Acquired
  else get_priority_boost mutex garbage;; mret Acquired.

(** A spinning thread gets the lock, if it is free by then. *)
Definition mutex_lock_resume (mutex current : ptr) : M (kstate T) lock_end :=
  got ← mutex_spin_trylock mutex;
  if negb got then mret Spinning
  else mutex_lock_finish mutex current;; mret Acquired.

Definition async_mutex_lock (mutex : ptr) : M (kstate T) unit :=
  got ← mutex_spin_trylock mutex;
  if negb got then
    let thread := garbage in
    data_lock mutex;;
    q ← mget mutex m_queue;
    q' ← thread_queue_insert q thread;
    mupd mutex (set_m_queue q');;
    p ← tget thread (λ t, soft_priority (stat t));
    mupd mutex (λ m, set_pri_count (u32 (pri_count m + p)) m);;
    data_unlock mutex;;
    tupd thread (on_stat (set_reentry lock_reentry));;
    tupd thread (λ t, on_stat (set_st_flags (Z.lor (st_flags (stat t)) THREAD_USE_REENTRY)) t);;
    thread_lock thread;;
    h ← mget mutex holder;
    p ← tget thread (λ t, soft_priority (stat t));
    thread_adjust_priority fuel h (s32 p);;
    thread_unlock thread
  else mupd mutex (set_holder NULL).

Definition mutex_trylock (mutex : ptr) : M (kstate T) bool :=
  timer_disable;;
  got ← mutex_spin_trylock mutex;
  (if (got : bool) then
     current ← gets k_current;
     data_lock mutex;;
     p ← mget mutex pri_count;
     mupd mutex (set_holder current);;
     data_unlock mutex;;
     thread_adjust_priority fuel current (s32 p)
   else mret tt);;
  timer_restore;;
  mret got.

Definition async_mutex_trylock (mutex : ptr) : M (kstate T) bool :=
  got ← mutex_spin_trylock mutex;
  if (got : bool) then
    data_lock mutex;;
    mupd mutex (set_holder NULL);;
    data_unlock mutex;;
    mret true
  else mret false.

(** Handing the mutex to a sleeping thread, with the data lock held. *)
Definition wake_waiter (mutex wakeup : ptr) : M (kstate T) unit :=
  q ← mget mutex m_queue;
  q' ← thread_queue_remove q;
  mupd mutex (set_m_queue q');;
  thread_lock wakeup;;
  p ← tget wakeup (λ t, soft_priority (stat t));
  mupd mutex (λ m, set_pri_count (u32 (pri_count m - p)) m);;
  tupd wakeup (set_wait_obj WAIT_NONE);;
  mupd mutex (set_holder wakeup);;
  thread_unlock wakeup;;
  n ← mget mutex pri_count;
  thread_adjust_priority fuel wakeup (s32 n);;
  data_unlock mutex;;
  thread_restart krealloc wakeup.

Definition mutex_unlock (mutex : ptr) : M (kstate T) unit :=
  current ← gets k_current;
  timer_disable;;
  num_lock mutex;;
  n ← mget mutex pri_count;
  thread_adjust_priority fuel current (s32 (- n));;
  spin ← mget mutex m_num_spin;
  if negb (spin =? 0) then
    num_unlock mutex;;
    mupd mutex (set_m_mutex false)
  else
    num_unlock mutex;;
    data_lock mutex;;
    q ← mget mutex m_queue;
    (if negb (q =? NULL) then wake_waiter mutex q
     else
       data_unlock mutex;;
       mupd mutex (set_holder NULL);;
       mupd mutex (set_m_mutex false));;
    timer_restore.

Definition async_mutex_unlock (mutex : ptr) : M (kstate T) unit :=
  num_lock mutex;;
  spin ← mget mutex m_num_spin;
  if negb (spin =? 0) then
    timer_disable;;
    num_unlock mutex;;
    mupd mutex (set_m_mutex false)
  else
    num_unlock mutex;;
    data_lock mutex;;
    q ← mget mutex m_queue;
    if negb (q =? NULL) then wake_waiter mutex q
    else
      data_unlock mutex;;
      mupd mutex (set_m_mutex false).

(** *** Condition variables *)

(** [do_wait] up to the spin lock of the condition variable. *)
Definition do_wait (cond mutex : ptr) : M (kstate T) unit :=
  current ← gets k_current;
  tupd current (set_wait_obj cond);;
  tupd current (set_wait_type WAIT_COND);;
  timer_disable;;
  cnum_lock cond;;
  cupd cond (λ c, set_c_num_spin (u32 (c_num_spin c + 1)) c);;
  cnum_unlock cond;;
  timer_restore;;
  mutex_unlock mutex.

(** The rest of [do_wait], when the spin lock is free. *)
Definition do_wait_resume (cond current : ptr) : M (kstate T) lock_end :=
  held ← cget cond c_mutex;
  if (held : bool) then mret Spinning
  else
    cupd cond (set_c_mutex true);;
    tupd current (set_wait_obj WAIT_NONE);;
    b ← cget cond broadcast;
    (if b =? 0 then timer_restore else mret tt);;
    cupd cond (set_c_type_mutex false);;
    mret Acquired.

(** [cond_wait] by a thread that need not spin. *)
Definition cond_wait (cond mutex : ptr) : M (kstate T) lock_end :=
  do_wait cond mutex;;
  current ← gets k_current;
  r ← do_wait_resume cond current;
  match r with
  | Acquired => mutex_lock mutex
  | Spinning => mret Spinning
  end.

Definition do_async_wait (cond mutex : ptr) : M (kstate T) unit :=
  let thread := garbage in
  tupd thread (on_stat (set_reentry wait_reentry));;
  tupd thread (λ t, on_stat (set_st_flags (Z.lor (st_flags (stat t)) THREAD_USE_REENTRY)) t);;
  tupd thread (on_stat (set_status SCHED_INT_SLEEP));;
  cqueue_lock cond;;
  q ← cget cond c_queue;
  q' ← thread_queue_insert q thread;
  cupd cond (set_c_queue q');;
  cqueue_unlock cond;;
  async_mutex_unlock mutex.

Definition async_cond_wait (cond mutex : ptr) : M (kstate T) lock_end :=
  do_async_wait cond mutex;;
  mutex_lock mutex.

(** The sleeper that a signal takes from the queue; [garbage] when there is
    none. *)
Definition pop_sleeper (cond : ptr) : M (kstate T) ptr :=
  q ← cget cond c_queue;
  if negb (q =? NULL) then
    q' ← thread_queue_remove q;
    cupd cond (set_c_queue q');;
    mret q
  else mret garbage.

(** The body shared by [cond_signal] and [async_cond_signal]: whether a
    spinning thread was released. *)
Definition signal_one (cond : ptr) : M (kstate T) bool :=
  cnum_lock cond;;
  spin ← cget cond c_num_spin;
  if negb (spin =? 0) then
    cupd cond (λ c, set_c_num_spin (u32 (c_num_spin c - 1)) c);;
    cnum_unlock cond;;
    ctype_lock cond;;
    cupd cond (set_broadcast 0);;
    cupd cond (set_c_mutex false);;
    mret true
  else
    cnum_unlock cond;;
    cqueue_lock cond;;
    wakeup ← pop_sleeper cond;
    cqueue_unlock cond;;
    awaken_thread wakeup;;
    mret false.

Definition cond_signal (cond : ptr) : M (kstate T) unit :=
  timer_disable;;
  released ← signal_one cond;
  if (released : bool) then mret tt else timer_restore.

Definition async_cond_signal (cond : ptr) : M (kstate T) unit :=
  signal_one cond;; mret tt.

(** Releasing the spinning threads one by one.  [spinners] lists them in the
    order in which they get the spin lock; each runs the rest of its [do_wait]
    before the next is released. *)
Fixpoint release_spinners (n : nat) (cond : ptr) (spinners : list ptr) : M (kstate T) unit :=
  match n with
  | O => mret tt
  | S n' =>
      ctype_lock cond;;
      cupd cond (set_broadcast 1);;
      cupd cond (set_c_mutex false);;
      match spinners with
      | t :: rest => do_wait_resume cond t;; release_spinners n' cond rest
      | [] => release_spinners n' cond []
      end
  end.

(** One sleeping thread is woken. *)
Definition wake_step (cond : ptr) (_ : unit) : M (kstate T) (unit + unit) :=
  q ← cget cond c_queue;
  if q =? NULL then mret (Break tt)
  else
    q' ← thread_queue_remove q;
    cupd cond (set_c_queue q');;
    awaken_thread q;;
    mret (Continue tt).

(** The body shared by [cond_broadcast] and [async_cond_broadcast]. *)
Definition broadcast_all (cond : ptr) (spinners : list ptr) : M (kstate T) unit :=
  cnum_lock cond;;
  n ← cget cond c_num_spin;
  release_spinners (Z.to_nat n) cond spinners;;
  cupd cond (set_c_num_spin 0);;
  cnum_unlock cond;;
  cqueue_lock cond;;
  q ← cget cond c_queue;
  if negb (q =? NULL) then
    loop fuel (wake_step cond) tt;;
    cqueue_unlock cond
  else mret tt.

Definition cond_broadcast (cond : ptr) (spinners : list ptr) : M (kstate T) unit :=
  timer_disable;;
  broadcast_all cond spinners;;
  timer_restore.

Definition async_cond_broadcast (cond : ptr) (spinners : list ptr) : M (kstate T) unit :=
  broadcast_all cond spinners.

(** *** Going to sleep *)

(** One round of the walk round the queue of a mutex. *)
Definition queue_step (mutex thread curr : ptr) : M (kstate T) (ptr + bool) :=
  if curr =? thread then
    data_unlock mutex;; mret (Break true)
  else
    next ← load thread_next curr;
    q ← mget mutex m_queue;
    mret (if next =? q then Break false else Continue next).

Fixpoint detect_deadlock (n : nat) (thread mutex : ptr) : M (kstate T) bool :=
  match n with
  | O => λ _, NoFuel
  | S n' =>
      data_lock mutex;;
      curr ← mget mutex m_queue;
      queued ← (if negb (curr =? NULL) then loop fuel (queue_step mutex thread) curr
                else mret false);
      if (queued : bool) then mret true else
      h ← mget mutex holder;
      if negb (h =? thread) then
        wt ← tget h wait_type;
        if negb (wt =? WAIT_MUTEX) then
          data_unlock mutex;; mret false
        else
          new_mutex ← tget h wait_obj;
          data_unlock mutex;;
          detect_deadlock n' thread new_mutex
      else
        data_unlock mutex;; mret true
  end.

Definition lock_sleep (current : ptr) : M (kstate T) unit :=
  mutex ← tget current wait_obj;
  mupd mutex (λ m, set_m_num_spin (u32 (m_num_spin m - 1)) m);;
  data_lock mutex;;
  q ← mget mutex m_queue;
  q' ← thread_queue_insert q current;
  mupd mutex (set_m_queue q');;
  p ← tget current (λ t, soft_priority (stat t));
  mupd mutex (λ m, set_pri_count (u32 (pri_count m + p)) m);;
  data_unlock mutex;;
  thread_lock current;;
  tupd current (on_stat (set_reentry lock_reentry));;
  tupd current (λ t, on_stat (set_st_flags (Z.lor (st_flags (stat t)) THREAD_USE_REENTRY)) t);;
  tupd current (on_stat (set_status SCHED_INT_SLEEP));;
  thread_unlock current;;
  h ← mget mutex holder;
  if negb (h =? NULL) then
    p ← tget current (λ t, soft_priority (stat t));
    thread_adjust_priority fuel h (s32 p)
  else mret tt.

Definition wait_sleep (current : ptr) : M (kstate T) unit :=
  cond ← tget current wait_obj;
  thread_lock current;;
  tupd current (on_stat (set_reentry wait_reentry));;
  tupd current (λ t, on_stat (set_st_flags (Z.lor (st_flags (stat t)) THREAD_USE_REENTRY)) t);;
  tupd current (on_stat (set_status SCHED_INT_SLEEP));;
  thread_unlock current;;
  cupd cond (λ c, set_c_num_spin (u32 (c_num_spin c - 1)) c);;
  cqueue_lock cond;;
  q ← cget cond c_queue;
  q' ← thread_queue_insert q current;
  cupd cond (set_c_queue q');;
  cqueue_unlock cond.

Definition sync_check : M (kstate T) unit :=
  current ← gets k_current;
  wt ← tget current wait_type;
  if wt =? WAIT_NONE then mret tt
  else if wt =? WAIT_MUTEX then
    mutex ← tget current wait_obj;
    dead ← detect_deadlock fuel current mutex;
    if (dead : bool) then mret tt else lock_sleep current
  else if wt =? WAIT_COND then wait_sleep current
  else mret tt.

(** ** The timer interrupt (src/sched/thread_sched.c) *)

(** How [timer_interrupt] ends: with the thread that was running, idle, or by
    loading another context, after the address space if it is given. *)
Inductive switch :=
| Same
| Idle
| LoadContext (addr_spc : option ptr) (context : Z * Z).

(** The address spaces loaded on the processors and the identifiers of address
    spaces are those of the virtual memory system. *)
Definition timer_interrupt (loaded : list ptr) (spc_id : ptr → option Z) (cpu : nat) :
    M (kstate T) (switch * list ptr) :=
  curr_thread ← gets k_current;
  sync_check;;
  new_thread ← on_sched (sched_resched meanwhile released cpu);
  if curr_thread =? new_thread then mret (Same, loaded)
  else if negb (new_thread =? NULL) then
    spc ← tget new_thread (λ t, addr_spc (stat t));
    old ← getopt (λ _, loaded !! cpu);
    switch_spc ← (if old =? spc then mret false
                  else id ← getopt (λ _, spc_id spc); mret (negb (id =? 0)));
    ctx ← tget new_thread context;
    mret (if (switch_spc : bool)
          then (LoadContext (Some spc) ctx, <[cpu := spc]> loaded)
          else (LoadContext None ctx, loaded))
  else mret (Idle, loaded).
End operations.
