(* ===== verification/SyncSpec.v ===== *)
(** * Deadlock detection (src/sync/sync.c)

    [detect_deadlock] walks from a mutex to its holder and on to the mutex the
    holder waits for.  The walk is the relation [blocks]; the function decides
    whether the walk meets a mutex that the given thread holds or is queued on,
    and it ends if and only if the walk does. *)

From S2P Require Import Prelude CircularList Thread SiftHeap ThreadHeaps Rendezvous Scheduler SchedRep SchedProofs SchedRun SchedSpec ThreadSched Sync.
From stdpp Require Import relations.

Section detection.
Context {T : Type}.
Implicit Types s : kstate T.

#[export] Instance put_threads_ok : LensOk (λ s : kstate T, s_threads (k_sched s)) put_threads.
Proof. by split. Qed.
#[export] Instance thread_clist_ok : ClistOk (thread_clist (T := T)).
Proof.
  split; simpl.
  - by apply node_field_ok; [apply _|].
  - by apply node_field_ok; [apply _|].
  - by apply node_field_indep; [apply _|].
  - by apply node_field_indep; [apply _|].
Qed.

(** The threads asleep on a mutex, the newest first. *)
Definition sleepers s (m : mutex_t) (q : list ptr) : Prop := clist thread_clist s (m_queue m) q.

(** [thread] holds the mutex or is queued on it. *)
Definition involves s (thread mutex : ptr) : Prop :=
  ∃ m, mutexes s !! mutex = Some m ∧
    (holder m = thread ∨ ∃ q, sleepers s m q ∧ thread ∈ q).

(** The holder of the mutex waits for another mutex. *)
Definition blocks s (thread mutex mutex' : ptr) : Prop :=
  ¬ involves s thread mutex ∧
  ∃ m t, mutexes s !! mutex = Some m ∧ s_threads (k_sched s) !! holder m = Some t ∧
    wait_type t = WAIT_MUTEX ∧ wait_obj t = mutex'.

(** What the walk needs of a mutex: its lock is free, its queue is a circular
    list within the bound, and its holder is a thread. *)
Definition walkable (fuel : nat) s (thread mutex : ptr) : Prop :=
  ∃ m q, mutexes s !! mutex = Some m ∧ m_data_mutex m = false ∧ sleepers s m q ∧
    length q ≤ fuel ∧
    (holder m = thread ∨ is_Some (s_threads (k_sched s) !! holder m)).

(** *** The queue of one mutex *)

Definition with_data (b : bool) (mutex : ptr) (m : mutex_t) s : kstate T :=
  set_mutexes (<[mutex := set_m_data_mutex b m]> (mutexes s)) s.

Lemma with_data_twice b b' mutex m s :
  with_data b mutex m (with_data b' mutex m s) = with_data b mutex m s.
Proof. unfold with_data. simpl. by rewrite insert_insert_eq. Qed.

Lemma with_data_same mutex m s :
  mutexes s !! mutex = Some m → with_data (m_data_mutex m) mutex m s = s.
Proof.
  intros Hm. unfold with_data. destruct s; simpl in *. rewrite insert_id; [done|]. by destruct m.
Qed.

Lemma wp_mget {A} p (f : mutex_t → A) s m (Q : A → kstate T → Prop) :
  mutexes s !! p = Some m → Q (f m) s → wp (mget p f) Q s.
Proof. intros Hm HQ. apply (wp_getopt _ (f m)); [by rewrite Hm|done]. Qed.

Lemma wp_mupd p f s m (Q : unit → kstate T → Prop) :
  mutexes s !! p = Some m → Q tt (set_mutexes (<[p := f m]> (mutexes s)) s) → wp (mupd p f) Q s.
Proof. intros Hm HQ. eapply wp_putopt; [by rewrite Hm|done]. Qed.

Lemma wp_tget {A} p (f : thread_t → A) s t (Q : A → kstate T → Prop) :
  s_threads (k_sched s) !! p = Some t → Q (f t) s → wp (tget p f) Q s.
Proof.
  intros Ht HQ. apply wp_zoom, (wp_getopt _ (f t)); [by rewrite Ht|]. by destruct s.
Qed.

Lemma wp_data_lock p s m (Q : unit → kstate T → Prop) :
  mutexes s !! p = Some m → m_data_mutex m = false → Q tt (with_data true p m s) →
  wp (data_lock p) Q s.
Proof.
  intros Hm Hfree HQ. apply wp_bind. eapply wp_mget; [done|].
  apply wp_bind, wp_lock; [done|]. eapply wp_mupd; done.
Qed.

Lemma wp_data_unlock p s m (Q : unit → kstate T → Prop) :
  mutexes s !! p = Some m → m_data_mutex m = false → Q tt s →
  wp (data_unlock p) Q (with_data true p m s).
Proof.
  intros Hm Hfree HQ. eapply wp_mupd; [apply lookup_insert_eq|].
  change (wp (mret tt) Q (with_data false p m (with_data true p m s))).
  apply wp_ret. rewrite with_data_twice, <-Hfree, with_data_same; done.
Qed.

Lemma queue_next_mid s p l1 x y l2 :
  clist thread_clist s p (l1 ++ x :: y :: l2) → fget thread_next s x = Some y.
Proof.
  intros (Hl & _). apply links_app in Hl as (_ & Hl & _). by destruct Hl as [[? _] _].
Qed.

Lemma queue_next_end s p l1 x :
  clist thread_clist s p (l1 ++ [x]) → fget thread_next s x = Some p.
Proof.
  intros (_ & _ & _ & Hends). rewrite last_snoc in Hends.
  destruct l1; simpl in *; destruct Hends as (-> & Hn & _); done.
Qed.

Lemma wp_queue_loop fuel mutex thread m s q l1 x l2 (Q : bool → kstate T → Prop) :
  mutexes s !! mutex = Some m → m_data_mutex m = false → sleepers s m q →
  q = l1 ++ x :: l2 → length l2 < fuel → thread ∉ l1 →
  (thread ∈ q → Q true s) → (thread ∉ q → Q false (with_data true mutex m s)) →
  wp (loop fuel (queue_step mutex thread) x) Q (with_data true mutex m s).
Proof.
  intros Hm Hfree Hq Heq Hlen Hno Hyes Hnot. revert l1 x l2 Heq Hlen Hno.
  induction fuel as [|n IH]; [lia|]. intros l1 x l2 -> Hlen Hno. cbn [loop]. apply wp_bind.
  unfold queue_step. destruct (Z.eqb_spec x thread) as [->|Hne].
  - apply wp_bind. eapply wp_data_unlock; [done..|]. apply wp_ret, wp_ret, Hyes. set_solver.
  - assert (∀ y, fget thread_next s x = Some y →
      wp (load thread_next x) (λ r s', r = y ∧ s' = with_data true mutex m s)
        (with_data true mutex m s)) as Hnext.
    { intros y Hy. by eapply wp_load. }
    apply wp_bind. destruct l2 as [|y l2].
    + eapply wp_mono; [apply Hnext; by eapply queue_next_end|]. intros r s' [-> ->].
      apply wp_bind. eapply wp_mget; [apply lookup_insert_eq|]. simpl. rewrite Z.eqb_refl.
      apply wp_ret, wp_ret, Hnot. set_solver.
    + eapply wp_mono; [apply Hnext; by eapply queue_next_mid|]. intros r s' [-> ->].
      apply wp_bind. eapply wp_mget; [apply lookup_insert_eq|]. simpl.
      destruct (Z.eqb_spec y (m_queue m)) as [Hy|Hy].
      { exfalso. unfold sleepers in Hq. destruct l1 as [|h l1]; simpl in Hq.
        - apply clist_head in Hq as Hx. destruct Hq as (_ & Hnd & _). simpl in *.
          apply NoDup_cons_1_1 in Hnd. set_solver.
        - apply clist_head in Hq as Hx. destruct Hq as (_ & Hnd & _).
          apply NoDup_cons_1_1 in Hnd. set_solver. }
      apply wp_ret. apply (IH (l1 ++ [x]) y l2); [by rewrite <-app_assoc|simpl in *; lia|set_solver].
Qed.

(** *** One step of the walk *)

Lemma involves_queue s thread mutex m q :
  mutexes s !! mutex = Some m → sleepers s m q →
  involves s thread mutex ↔ holder m = thread ∨ thread ∈ q.
Proof.
  intros Hm Hq. split.
  - intros (m' & Hm' & [|(q' & Hq' & Hin)]); simplify_eq; [by left|right].
    unfold sleepers in *. by rewrite (clist_det _ _ _ _ _ Hq Hq').
  - intros Hi. exists m. split; [done|]. destruct Hi; [by left|right; eauto].
Qed.

Lemma detect_deadlock_step fuel n thread mutex s :
  walkable fuel s thread mutex →
  (involves s thread mutex ∧ detect_deadlock fuel (S n) thread mutex s = Done (true, s)) ∨
  (¬ involves s thread mutex ∧ (∀ mutex', ¬ blocks s thread mutex mutex') ∧
     detect_deadlock fuel (S n) thread mutex s = Done (false, s)) ∨
  (∃ mutex', blocks s thread mutex mutex' ∧
     detect_deadlock fuel (S n) thread mutex s = detect_deadlock fuel n thread mutex' s).
Proof.
  intros (m & q & Hm & Hfree & Hq & Hlen & Hh).
  rewrite (involves_queue s thread mutex m q Hm Hq).
  assert (∀ (r : bool), wp (data_unlock mutex;; mret r) (λ r' s', r' = r ∧ s' = s)
    (with_data true mutex m s)) as Hunlock.
  { intros r. apply wp_bind. eapply wp_data_unlock; [done..|]. by apply wp_ret. }
  cbn [detect_deadlock].
  erewrite bind_wp; [|by eapply wp_data_lock].
  erewrite bind_wp; [|by eapply wp_mget; [apply lookup_insert_eq|]]. simpl m_queue.
  assert (wp (if negb (m_queue m =? NULL)%Z then loop fuel (queue_step mutex thread) (m_queue m)
              else mret false)
    (λ r s', r = bool_decide (thread ∈ q) ∧ s' = if r then s else with_data true mutex m s)
    (with_data true mutex m s)) as Hscan.
  { destruct q as [|x q].
    - destruct Hq as (_ & _ & _ & ->). simpl. by apply wp_ret.
    - pose proof (clist_head _ _ _ _ _ Hq) as Hx. rewrite Hx in *.
      destruct (Z.eqb_spec x NULL) as [->|_].
      { exfalso. destruct Hq as (_ & _ & Hnn & _). by apply (Hnn NULL); [left|]. }
      eapply (wp_queue_loop _ _ _ _ _ (x :: q) []); [done..|simpl in *; lia|set_solver| |].
      + intros Hin. split; [|done]. symmetry. by apply bool_decide_eq_true.
      + intros Hin. split; [|done]. symmetry. by apply bool_decide_eq_false. }
  destruct (decide (thread ∈ q)) as [Hin|Hnin].
  { left. split; [by right|]. rewrite (bind_wp _ _ _ true s); [done|].
    eapply wp_mono; [exact Hscan|]. simpl. rewrite bool_decide_true by done. by intros ? ? [-> ->]. }
  rewrite (bind_wp _ _ _ false (with_data true mutex m s)); [|eapply wp_mono; [exact Hscan|];
    simpl; rewrite bool_decide_false by done; by intros ? ? [-> ->]].
  erewrite bind_wp; [|by eapply wp_mget; [apply lookup_insert_eq|]].
  change (holder (set_m_data_mutex true m)) with (holder m).
  destruct (Z.eqb_spec (holder m) thread) as [Heq|Hne]; cbn [negb].
  { left. split; [by left|]. apply run_wp, Hunlock. }
  right. destruct Hh as [|[t Ht]]; [done|].
  erewrite bind_wp; [|by eapply wp_tget; [exact Ht|]].
  destruct (Z.eqb_spec (wait_type t) WAIT_MUTEX) as [Hw|Hw]; cbn [negb].
  - right. exists (wait_obj t). split.
    { split; [|by exists m, t]. rewrite (involves_queue s thread mutex m q) by done. tauto. }
    erewrite bind_wp; [|by eapply wp_tget; [exact Ht|]].
    by erewrite bind_wp; [|by eapply wp_data_unlock].
  - left. split; [tauto|]. split; [|by apply run_wp, Hunlock].
    intros mutex' (_ & m' & t' & Hm' & Ht' & Hw' & _). by simplify_eq.
Qed.

Lemma blocks_det s thread m m1 m2 : blocks s thread m m1 → blocks s thread m m2 → m1 = m2.
Proof. intros (_ & ? & ? & H1 & H2 & _ & <-) (_ & ? & ? & H3 & H4 & _ & <-). by simplify_eq. Qed.

(** The walk has met the mutexes [X] and cannot meet one again. *)
Lemma wp_detect fuel n thread start mutex s (X : gset ptr) :
  (∀ m, rtc (blocks s thread) start m → walkable fuel s thread m) →
  (∀ m, rtc (blocks s thread) start m → ¬ tc (blocks s thread) m m) →
  rtc (blocks s thread) start mutex →
  (∀ m, m ∈ X → tc (blocks s thread) m mutex) → X ⊆ dom (mutexes s) →
  base.size (mutexes s) < n + base.size X →
  wp (detect_deadlock fuel n thread mutex)
     (λ r s', s' = s ∧ (r = true ↔ ∃ m, rtc (blocks s thread) mutex m ∧ involves s thread m)) s.
Proof.
  intros Hok Hacyc. revert mutex X. induction n as [|n IH]; intros mutex X Hreach HX Hdom Hsz.
  all: assert (mutex ∉ X) as HnX by (intros Hin; by apply (Hacyc mutex Hreach), HX).
  all: destruct (Hok mutex Hreach) as (m & q & Hm & _).
  all: assert ({[mutex]} ∪ X ⊆ dom (mutexes s)) as Hdom'
    by (apply union_subseteq; split; [|done]; by apply singleton_subseteq_l, (elem_of_dom_2 _ _ m)).
  all: pose proof (subseteq_size _ _ Hdom') as Hle;
    rewrite size_union, size_singleton, size_dom in Hle by set_solver.
  { lia. }
  unfold wp. destruct (detect_deadlock_step fuel n thread mutex s (Hok _ Hreach))
    as [[Hi ->]|[(Hni & Hend & ->)|(mutex' & Hstep & ->)]].
  - split; [done|]. split; [|done]. intros _. by exists mutex.
  - split; [done|]. split; [done|]. intros (m' & Hm' & Hi).
    apply rtc_inv in Hm' as [<-|(m'' & Hstep & _)]; [done|]. by apply Hend in Hstep.
  - change (wp (detect_deadlock fuel n thread mutex') (λ r s', s' = s ∧
      (r = true ↔ ∃ m, rtc (blocks s thread) mutex m ∧ involves s thread m)) s).
    eapply wp_mono.
    + apply (IH mutex' ({[mutex]} ∪ X)); [by eapply rtc_r| |done|].
      * intros x [->%elem_of_singleton|Hx]%elem_of_union; [by apply tc_once|].
        eapply tc_r; [by apply HX|done].
      * rewrite size_union, size_singleton by set_solver. lia.
    + simpl. intros r s' [-> Hr]. split; [done|]. rewrite Hr. split.
      * intros (m' & Hm' & Hi). exists m'. split; [by eapply rtc_l|done].
      * intros (m' & Hm' & Hi). exists m'. split; [|done].
        apply rtc_inv in Hm' as [<-|(m'' & Hstep' & Hrest)]; [|].
        { by destruct Hstep as [? _]. }
        by rewrite (blocks_det _ _ _ _ _ Hstep Hstep').
Qed.

(** C15: when no mutex waits for itself along the chain of holders,
    [detect_deadlock] terminates within one step per mutex, changes nothing,
    and answers whether the thread holds, or is queued on, a mutex of the chain. *)
Theorem detect_deadlock_correct fuel n thread mutex s :
  (∀ m, rtc (blocks s thread) mutex m → walkable fuel s thread m) →
  (∀ m, rtc (blocks s thread) mutex m → ¬ tc (blocks s thread) m m) →
  base.size (mutexes s) < n →
  ∃ b, detect_deadlock fuel n thread mutex s = Done (b, s) ∧
    (b = true ↔ ∃ m, rtc (blocks s thread) mutex m ∧ involves s thread m).
Proof.
  intros Hok Hacyc Hn.
  destruct (proj1 (wp_Done _ _ _) (wp_detect fuel n thread mutex mutex s ∅ Hok Hacyc
    (rtc_refl _ _) ltac:(set_solver) ltac:(set_solver) ltac:(rewrite size_empty; lia)))
    as (b & s' & Hrun & -> & Hb).
  by exists b.
Qed.

(** C36: when every holder on the chain waits for a further mutex, as when two
    other threads wait for each other, [detect_deadlock] never returns, whatever
    the bound: the timer interrupt of the thread that waits hangs. *)
Theorem detect_deadlock_diverges fuel thread mutex s :
  (∀ m, rtc (blocks s thread) mutex m →
     walkable fuel s thread m ∧ ∃ m', blocks s thread m m') →
  ∀ n, detect_deadlock fuel n thread mutex s = NoFuel.
Proof.
  intros Hok n. revert mutex Hok. induction n as [|n IH]; intros mutex Hok; [done|].
  destruct (Hok mutex (rtc_refl _ _)) as [Hw [m' Hm']].
  destruct (detect_deadlock_step fuel n thread mutex s Hw)
    as [[Hi _]|[(_ & Hend & _)|(mutex' & Hstep & ->)]].
  - by destruct Hm' as [? _].
  - by apply Hend in Hm'.
  - apply IH. intros m Hm. apply Hok. by eapply rtc_l.
Qed.
End detection.

(** ** Concrete chains of waiting threads

    Thread 300 runs and waits for the mutex 9000, which thread 100 holds; 100
    waits for the mutex 9004, which thread 200 holds.  In [chain_demo] thread 200
    runs on; in [knot_demo] it waits for 9000 in turn. *)

#[local] Open Scope Z_scope.

Definition waiting_for (m : ptr) (t : thread_t) : thread_t :=
  set_wait_obj m (set_wait_type WAIT_MUTEX t).
Definition held_by (p : ptr) (spinning : Z) : mutex_t := Mutex true false false spinning 0 NULL p.

Definition chain_threads : gmap ptr thread_t :=
  alter (waiting_for 9000) 300 (alter (waiting_for 9004) 100 (s_threads demo)).
Definition chain_demo : kstate unit :=
  KState (set_s_threads chain_threads demo)
    (list_to_map [(9000, held_by 100 1); (9004, held_by 200 1)]) ∅ 300 0.
Definition knot_demo : kstate unit :=
  KState (set_s_threads (alter (waiting_for 9000) 200 chain_threads) demo)
    (list_to_map [(9000, held_by 100 2); (9004, held_by 200 1)]) ∅ 300 0.

Lemma no_queue_involves {T} (s : kstate T) thread mutex m :
  mutexes s !! mutex = Some m → m_queue m = NULL → involves s thread mutex ↔ holder m = thread.
Proof.
  intros Hm Hq. rewrite (involves_queue s thread mutex m []); [set_solver|done|].
  unfold sleepers. rewrite Hq. apply clist_empty.
Qed.

Lemma no_queue_walkable {T} fuel (s : kstate T) thread mutex m t :
  mutexes s !! mutex = Some m → m_queue m = NULL → m_data_mutex m = false →
  s_threads (k_sched s) !! holder m = Some t → walkable fuel s thread mutex.
Proof.
  intros Hm Hq Hf Ht. exists m, []. split_and!; try done; [|simpl; lia|by right; exists t].
  unfold sleepers. rewrite Hq. apply clist_empty.
Qed.

Lemma chain_reach m : rtc (blocks chain_demo 300) 9000 m → m = 9000 ∨ m = 9004.
Proof.
  revert m. apply rtc_ind_r; [by left|]. intros m m' _ Hs IH.
  destruct Hs as (_ & mu & t & H1 & H2 & H3 & <-), IH as [-> | ->];
    vm_compute in H1; injection H1 as <-; vm_compute in H2; injection H2 as <-; [by right|done].
Qed.

Lemma detect_deadlock_correct_witness :
  ∃ b, detect_deadlock 0 3%nat 300 9000 chain_demo = Done (b, chain_demo) ∧
    (b = true ↔ ∃ m, rtc (blocks chain_demo 300) 9000 m ∧ involves chain_demo 300 m).
Proof.
  apply (detect_deadlock_correct 0 3 300 9000 chain_demo).
  - intros m [-> | ->]%chain_reach; by eapply no_queue_walkable.
  - intros m Hm Hcyc.
    assert (∀ m', tc (blocks chain_demo 300) 9004 m' → False) as Hend.
    { intros m' Ht.
      assert (∃ x, blocks chain_demo 300 9004 x) as (x & _ & mu & t & H1 & H2 & H3 & _).
      { inversion Ht; eauto. }
      vm_compute in H1; injection H1 as <-; vm_compute in H2; injection H2 as <-. done. }
    apply chain_reach in Hm as [-> | ->]; [|by eapply Hend].
    assert (∃ x, blocks chain_demo 300 9000 x ∧ rtc (blocks chain_demo 300) x 9000)
      as (x & Hx & Hr).
    { inversion Hcyc; subst; eexists; (split; [done|]); [apply rtc_refl|by apply tc_rtc]. }
    destruct Hx as (_ & mu & t & H1 & H2 & H3 & <-).
    vm_compute in H1; injection H1 as <-; vm_compute in H2; injection H2 as <-.
    apply rtc_inv in Hr as [Hr|(y & Hy & Hr)]; [done|]. by apply (Hend y), tc_once.
  - vm_compute. lia.
Defined.

Lemma knot_step m : m = 9000 ∨ m = 9004 →
  ∃ m', blocks knot_demo 300 m m' ∧ (m' = 9000 ∨ m' = 9004).
Proof.
  intros [-> | ->].
  - exists 9004. split; [|by right]. split.
    + rewrite (no_queue_involves knot_demo 300 9000 (held_by 100 2)) by done. done.
    + eexists _, _. split; [reflexivity|]. split; [vm_compute; reflexivity|]. by split.
  - exists 9000. split; [|by left]. split.
    + rewrite (no_queue_involves knot_demo 300 9004 (held_by 200 1)) by done. done.
    + eexists _, _. split; [reflexivity|]. split; [vm_compute; reflexivity|]. by split.
Qed.

Lemma knot_reach m : rtc (blocks knot_demo 300) 9000 m → m = 9000 ∨ m = 9004.
Proof.
  revert m. apply rtc_ind_r; [by left|]. intros m m' _ Hs IH.
  destruct (knot_step m IH) as (m'' & Hb & Hm''). by rewrite (blocks_det _ _ _ _ _ Hs Hb).
Qed.

Lemma detect_deadlock_diverges_witness : detect_deadlock 0 1000%nat 300 9000 knot_demo = NoFuel.
Proof.
  apply (detect_deadlock_diverges 0 300 9000 knot_demo). intros m Hm%knot_reach. split.
  - destruct Hm as [-> | ->]; by eapply no_queue_walkable.
  - destruct (knot_step m Hm) as (m' & Hb & _). by exists m'.
Defined.
