(* ===== verification/Inherit.v ===== *)
(** * Priority inheritance (src/sched/thread_sched.c)

    A change of a thread's priority is passed on along the chain of mutex
    holders: the thread, the holder of the mutex it sleeps on, the holder of
    the mutex that one sleeps on, and so on.  The theorem follows the recursion
    of [thread_adjust_priority] down such a chain. *)

From stdpp Require Import functions.
From S2P Require Import Prelude CircularList Thread SiftHeap ThreadHeaps Rendezvous Scheduler SchedRep SchedProofs SchedRun SchedSpec ThreadSched ThreadSpec Sync SyncSpec.

(** A thread without its links in the queue of a mutex. *)
Definition unlinked (t : thread_t) : thread_t := set_queue_next NULL (set_queue_last NULL t).

(** [t'] is [t] with another remaining time. *)
Definition retimed (t t' : thread_t) : Prop := ∃ r, t' = on_stat (set_remaining r) t.

Lemma retimed_refl t : retimed t t.
Proof. exists (remaining (stat t)). by destruct t as [[]]. Qed.

(** A runnable thread is in a priority queue of its processor, which is not
    locked. *)
Definition homed (a : abst) (p : ptr) (t : thread_t) : Prop :=
  RUNNABLE_STATE (status (stat t)) = true →
  ∃ i v, cpu_id t = Z.of_nat i ∧ a_views a !! i = Some v ∧ p ∈ v_run v ∪ v_fin v ∧
    v_lock v = false.

Section boosts.
Context {T : Type}.

Lemma wp_sched_change_remaining i p rem (s : sstate T) a v t (Q : unit → sstate T → Prop) :
  rep s a → a_views a !! i = Some v → p ∈ v_run v ∪ v_fin v → a_threads a !! p = Some t →
  (∀ s' t', retimed t t' → rep s' (upd_core p t' a) → Q tt s') →
  wp (sched_change_remaining i p rem) Q s.
Proof.
  intros Hr Hv Hp Ht HQ. unfold sched_change_remaining.
  apply wp_bind. eapply wp_current; [done..|]. tread u Hu Huc. clear Hu.
  assert (upd_core p t a = a) as Hid.
  { unfold upd_core. rewrite insert_id by done. by destruct a. }
  destruct (Z.eqb_spec (v_current v) p) as [Heq|Hne]; cbn [negb].
  - ssame. ssame. apply (HQ _ t); [apply retimed_refl|by rewrite Hid].
  - ssame. apply wp_bind. eapply wp_in_running_queue; [done..|].
    set (q := if bool_decide (p ∈ v_run v) then Run else Fin).
    assert (p ∈ v_queue q v ∧ (q = Run ∨ q = Fin)) as [Hpq Hq].
    { subst q. case_bool_decide; [by split; [|left]|]. split; [set_solver|by right]. }
    assert (kind_of q = priority_kind) as Hk by by destruct Hq as [->| ->].
    apply wp_bind. change priority_heap_pos with (hk_pos priority_kind). rewrite <-Hk.
    eapply wp_get_pos; [done..|]. intros n Hat.
    unfold priority_heap_set_key. rewrite <-Hk.
    eapply wp_queue_set_key; [done..|]. intros t' s' Hre Hr'. apply (HQ s' t'); [|done].
    destruct Hre as [->| ->]; [apply retimed_refl|]. rewrite Hk. by eexists.
Qed.

Implicit Types s : kstate T.

Lemma wp_ktget {A} p (f : thread_t → A) s a t (Q : A → kstate T → Prop) :
  rep (k_sched s) a → a_threads a !! p = Some t → (∀ u, f (core u) = f u) → Q (f t) s →
  wp (tget p f) Q s.
Proof.
  intros Hr Ht Hf HQ. destruct (rep_thread _ _ _ _ Hr Ht) as (u & Hu & <-).
  eapply wp_tget; [done|]. by rewrite <-Hf.
Qed.

Lemma wp_ktupd p (f : thread_t → thread_t) `{!CoreUpd f} s a t (Q : unit → kstate T → Prop) :
  rep (k_sched s) a → a_threads a !! p = Some t →
  (∀ x, rep x (upd_core p (f t) a) → Q tt (set_k_sched x s)) → wp (tupd p f) Q s.
Proof. intros Hr Ht HQ. apply wp_on_sched. by eapply wp_upd_thread. Qed.

Lemma wp_thread_lock p s a t (Q : unit → kstate T → Prop) :
  rep (k_sched s) a → a_threads a !! p = Some t → sync_mutex t = false →
  (∀ x, rep x (upd_core p (set_sync_mutex true t) a) → Q tt (set_k_sched x s)) →
  wp (thread_lock p) Q s.
Proof.
  intros Hr Ht Hl HQ. apply wp_bind. eapply wp_ktget; [done..|]. rewrite Hl.
  apply wp_bind, wp_lock; [done|]. eapply wp_ktupd; [apply _|done..].
Qed.

Lemma wp_apply_boost p diff s a t (Q : unit → kstate T → Prop) :
  rep (k_sched s) a → a_threads a !! p = Some t → homed a p t →
  (∀ x t', retimed t t' → rep x (upd_core p t' a) → Q tt (set_k_sched x s)) →
  wp (apply_boost p diff) Q s.
Proof.
  intros Hr Ht Hhome HQ. unfold apply_boost.
  apply wp_bind. eapply wp_ktget; [done..|]. apply wp_bind.
  eapply wp_mono with (P := λ _ s', ∃ x t', retimed t t' ∧ rep x (upd_core p t' a) ∧
    s' = set_k_sched x s).
  { destruct (_ <? 0)%Z.
    - eapply wp_ktupd; [apply _|done..|]. intros x Hx. eexists _, _. by split; [eexists|].
    - apply wp_ret. exists (k_sched s), t. split; [apply retimed_refl|]. split; [|by destruct s].
      unfold upd_core. rewrite insert_id by done. by destruct a. }
  intros [] s' (x & t' & [r ->] & Hx & ->).
  set (t1 := on_stat (set_remaining r) t) in *.
  apply wp_bind. eapply wp_ktget; [exact Hx|look|done|].
  change (status (stat t1)) with (status (stat t)).
  destruct (RUNNABLE_STATE (status (stat t))) eqn:Hst.
  2: { apply wp_ret. apply (HQ x t1); [by exists r|done]. }
  destruct (Hhome Hst) as (i & v & Hid & Hv & Hp & Hl).
  apply wp_bind. eapply wp_ktget; [exact Hx|look|done|].
  change (cpu_id t1) with (cpu_id t). rewrite Hid, Nat2Z.id.
  apply wp_bind, wp_on_sched. eapply wp_sched_lock; [exact Hx|exact Hv|done|]. intros x1 Hx1.
  apply wp_bind. eapply wp_ktget; [exact Hx1|look|done|].
  apply wp_bind, wp_on_sched.
  eapply wp_sched_change_remaining; [exact Hx1|look|by destruct v|look|]. intros x2 t2 [r2 ->] Hx2.
  apply wp_bind. eapply wp_ktget; [exact Hx2|look|done|].
  change (cpu_id _) with (cpu_id t). rewrite Hid, Nat2Z.id.
  apply wp_on_sched. eapply wp_sched_unlock; [exact Hx2|look|]. intros x3 Hx3.
  apply (HQ x3 (on_stat (set_remaining r2) t1)); [by exists r2|].
  assert (with_lock false (with_lock true v) = v) as Hwl by (destruct v; simpl in *; by subst).
  rewrite Hwl in Hx3. unfold upd_view, upd_core in *. simpl in *.
  by rewrite list_insert_insert_eq, insert_insert_eq, list_insert_id in Hx3.
Qed.

(** *** Chains of holders *)

(** [l] lists, for the thread [p], the mutex it sleeps on with its holder, the
    mutex that one sleeps on with its holder, and so on to a thread that does not
    sleep on a mutex; all locks on the way are free. *)
Fixpoint holders (a : abst) (ms : gmap ptr mutex_t) (p : ptr) (l : list (ptr * ptr)) : Prop :=
  ∃ t, a_threads a !! p = Some t ∧ sync_mutex t = false ∧ homed a p t ∧
    match l with
    | [] => wait_type t ≠ WAIT_MUTEX ∨ RUNNABLE_STATE (status (stat t)) = true
    | (m, h) :: l' =>
        wait_type t = WAIT_MUTEX ∧ RUNNABLE_STATE (status (stat t)) = false ∧ wait_obj t = m ∧
        ∃ mu, ms !! m = Some mu ∧ m_data_mutex mu = false ∧ holder mu = h ∧ holders a ms h l'
    end.

(** [t'] is [t] with its priority changed by [d], and some remaining time. *)
Definition boosted (d : Z) (t t' : thread_t) : Prop :=
  retimed (on_stat (set_soft_priority (u32 (soft_priority (stat t) + d))) t) t'.
Definition bumped (d : Z) (m : mutex_t) : mutex_t := set_pri_count (u32 (pri_count m + d)) m.

(** The state [s'], [a'] is [s], [a] with the priorities of the threads [ps] and
    the counts of the mutexes [ms] changed by [d]. *)
Record passed_on (d : Z) (ps ms : list ptr) s a s' a' : Prop := {
  po_rep : rep (k_sched s') a';
  po_views : a_views a' = a_views a;
  po_exclusion : a_exclusion a' = a_exclusion a;
  po_out q : q ∉ ps → a_threads a' !! q = a_threads a !! q;
  po_in q t : q ∈ ps → a_threads a !! q = Some t →
    ∃ t', a_threads a' !! q = Some t' ∧ boosted d t t';
  po_mutex m : mutexes s' !! m =
    if decide (m ∈ ms) then bumped d <$> mutexes s !! m else mutexes s !! m;
  po_conds : conds s' = conds s;
  po_current : k_current s' = k_current s;
  po_timer : timer_count s' = timer_count s;
}.

Lemma holders_frame a a' ms ms' p l :
  (∀ q, q ∈ p :: l.*2 → unlinked <$> a_threads a' !! q = unlinked <$> a_threads a !! q) →
  (∀ m, m ∈ l.*1 → ms' !! m = ms !! m) → a_views a' = a_views a →
  holders a ms p l → holders a' ms' p l.
Proof.
  revert p. induction l as [|[m h] l IH]; intros p Hth Hms Hv (t & Ht & Hl & Hh & Hrest);
    specialize (Hth p ltac:(by left)) as Hp; rewrite Ht in Hp;
    apply fmap_Some in Hp as (t' & Ht' & Hu);
    assert (sync_mutex t' = sync_mutex t ∧ stat t' = stat t ∧ wait_type t' = wait_type t ∧
      wait_obj t' = wait_obj t ∧ cpu_id t' = cpu_id t) as (H1 & H2 & H3 & H4 & H5)
      by (destruct t, t'; injection Hu; intros; by subst);
    exists t'; (split; [done|]); (split; [congruence|]);
    (split; [unfold homed; by rewrite H2, H5, Hv|]); rewrite H2, H3; [done|].
  destruct Hrest as (Hw & Hst & Hm & mu & Hmu & Hd & Hho & Hnext). rewrite H4.
  split_and!; [done..|]. exists mu. rewrite Hms by set_solver. split_and!; try done.
  apply IH; [|set_solver|done|done]. intros q Hq. apply Hth. simpl. set_solver.
Qed.

Lemma timer_round n : (0 ≤ n < 2 ^ 16)%Z → (((n + 1) mod 2 ^ 16 - 1) mod 2 ^ 16 = n)%Z.
Proof.
  intros Hn. rewrite Zminus_mod_idemp_l. replace (n + 1 - 1)%Z with n by lia.
  by apply Z.mod_small.
Qed.

Lemma wp_boost_end p d s a t (Q : unit → kstate T → Prop) :
  rep (k_sched s) a → a_threads a !! p = Some t → homed a p t →
  (∀ x t', retimed (set_sync_mutex false t) t' → rep x (upd_core p t' a) →
     Q tt (set_timer_count ((timer_count s - 1) mod 2 ^ 16) (set_k_sched x s))) →
  wp (apply_boost p d;; thread_unlock p;; timer_restore) Q s.
Proof.
  intros Hr Ht Hh HQ. apply wp_bind. eapply wp_apply_boost; [done..|]. intros x t' [r ->] Hx.
  apply wp_bind. eapply wp_ktupd; [apply _|exact Hx|look|]. intros x2 Hx2.
  rewrite upd_core_twice in Hx2. apply wp_modify.
  by apply (HQ x2 (set_sync_mutex false (on_stat (set_remaining r) t))); [exists r|].
Qed.

(** A thread that does not sleep on a mutex passes nothing on. *)
Lemma wp_boost_nobody adjust p d s a t (Q : unit → kstate T → Prop) :
  rep (k_sched s) a → a_threads a !! p = Some t →
  wait_type t ≠ WAIT_MUTEX ∨ RUNNABLE_STATE (status (stat t)) = true →
  Q tt s → wp (boost_holder adjust p d) Q s.
Proof.
  intros Hr Ht Hno HQ. unfold boost_holder.
  apply wp_bind. eapply wp_ktget; [exact Hr|exact Ht|done|].
  apply wp_bind. eapply wp_ktget; [exact Hr|exact Ht|done|].
  destruct Hno as [Hw|Hs].
  - apply Z.eqb_neq in Hw. rewrite Hw. by apply wp_ret.
  - rewrite Hs, andb_false_r. by apply wp_ret.
Qed.

(** One that does hands the change to the holder. *)
Lemma wp_boost_holder adjust p d s a t m mu (Q : unit → kstate T → Prop) :
  rep (k_sched s) a → a_threads a !! p = Some t → wait_type t = WAIT_MUTEX →
  RUNNABLE_STATE (status (stat t)) = false → wait_obj t = m →
  mutexes s !! m = Some mu → m_data_mutex mu = false →
  wp (adjust (holder mu) d) (λ _ s', ∃ mu', mutexes s' !! m = Some mu' ∧
      Q tt (set_mutexes (<[m := set_m_data_mutex false mu']> (mutexes s')) s'))
    (set_mutexes (<[m := bumped d (set_m_data_mutex true mu)]> (mutexes s)) s) →
  wp (boost_holder adjust p d) Q s.
Proof.
  intros Hr Ht Hw Hst Hm Hmu Hd HQ. unfold boost_holder.
  apply wp_bind. eapply wp_ktget; [exact Hr|exact Ht|done|].
  apply wp_bind. eapply wp_ktget; [exact Hr|exact Ht|done|].
  rewrite Hw, Hst. cbn [andb negb Z.eqb WAIT_MUTEX Pos.eqb].
  apply wp_bind. eapply wp_ktget; [exact Hr|exact Ht|done|]. rewrite Hm.
  apply wp_bind. eapply wp_data_lock; [done..|].
  apply wp_bind. eapply wp_mupd; [apply lookup_insert_eq|].
  apply wp_bind. eapply wp_mget; [apply lookup_insert_eq|]. apply wp_bind.
  assert (∀ m1 m2, <[m:=m1]> (<[m:=m2]> (mutexes s)) = <[m:=m1]> (mutexes s)) as Hii
    by (intros; apply insert_insert_eq).
  unfold with_data. cbn [mutexes set_mutexes]. rewrite Hii.
  eapply wp_mono; [exact HQ|]. intros [] s' (mu' & Hmu' & HQ'). by eapply wp_mupd.
Qed.

Lemma wp_thread_adjust_priority l : ∀ n p d s a,
  rep (k_sched s) a → holders a (mutexes s) p l → NoDup (p :: l.*2) → NoDup l.*1 →
  length l < n → (0 ≤ timer_count s < 2 ^ 16)%Z →
  wp (thread_adjust_priority n p d)
     (λ _ s', ∃ a', passed_on d (p :: l.*2) l.*1 s a s' a') s.
Proof.
  induction l as [|[m h] l IH]; intros n p d s a Hr Hh Hnd Hndm Hn Htc;
    (destruct n as [|n]; [simpl in Hn; lia|]); cbn [thread_adjust_priority];
    destruct Hh as (t & Ht & Hl & Hhome & Hrest);
    apply wp_bind, wp_modify; apply wp_bind; (eapply wp_thread_lock; [exact Hr|exact Ht|done|]);
    intros x1 Hx1; apply wp_bind; (eapply wp_ktupd; [apply _|exact Hx1|look|]); intros x2 Hx2;
    rewrite upd_core_twice in Hx2; set (t2 := on_stat _ _) in Hx2; apply wp_bind.
  - eapply wp_boost_nobody; [exact Hx2|look|done|].
    eapply wp_boost_end; [exact Hx2|look|done|]. intros x3 t' [r ->] Hx3.
    rewrite upd_core_twice in Hx3. eexists. split; [exact Hx3|done|done| | | |done|done|].
    + intros q Hq. simpl. rewrite lookup_insert_ne; set_solver.
    + intros q t0 ->%list_elem_of_singleton Ht0. assert (t0 = t) as -> by congruence.
      eexists. split; [apply lookup_insert_eq|]. exists r. by destruct t; simpl in *; subst.
    + done.
    + by apply timer_round.
  - destruct Hrest as (Hw & Hst & Hm & mu & Hmu & Hd & Hho & Hnext).
    apply NoDup_cons in Hnd as [Hp Hnd]. apply NoDup_cons in Hndm as [Hmn Hndm].
    eapply wp_boost_holder; [exact Hx2|look|done..|]. rewrite Hho.
    eapply wp_mono.
    { apply (IH n h d _ (upd_core p t2 a)); [exact Hx2| |done|done|simpl in Hn; lia|].
      - eapply holders_frame; [..|exact Hnext]; [| |done].
        + intros q Hq. f_equal. simpl. rewrite lookup_insert_ne; [done|]. intros ->. by apply Hp.
        + intros q Hq. simpl. rewrite lookup_insert_ne; [done|]. intros ->. by apply Hmn.
      - simpl. by apply Z.mod_pos_bound. }
    intros [] s3 (a3 & [Hr3 Hv3 He3 Hout3 Hin3 Hm3 Hc3 Hk3 Ht3]).
    assert (a_threads a3 !! p = Some t2) as Hp3.
    { rewrite Hout3 by done. apply lookup_insert_eq. }
    exists (bumped d (set_m_data_mutex true mu)). split.
    { rewrite Hm3, decide_False by done. simpl. apply lookup_insert_eq. }
    eapply wp_boost_end; [exact Hr3|exact Hp3| |].
    { unfold homed. by rewrite Hv3. }
    intros x4 t' [r ->] Hx4. eexists. split; [exact Hx4|simpl; by rewrite Hv3|simpl; by rewrite He3| | | |done|done|].
    + intros q Hq. simpl in *. rewrite lookup_insert_ne by set_solver.
      rewrite Hout3 by set_solver. simpl. by rewrite lookup_insert_ne by set_solver.
    + intros q t0 Hq Ht0. simpl. destruct (decide (q = p)) as [->|Hne].
      * assert (t0 = t) as -> by congruence. rewrite lookup_insert_eq.
        eexists. split; [done|]. exists r. by destruct t; simpl in *; subst.
      * rewrite lookup_insert_ne by done. apply Hin3; [set_solver|].
        simpl. by rewrite lookup_insert_ne.
    + intros q. simpl. destruct (decide (q = m)) as [->|Hne].
      * rewrite lookup_insert_eq, decide_True by set_solver. rewrite Hmu. simpl. f_equal.
        destruct mu; simpl in *. by subst.
      * rewrite lookup_insert_ne by done. rewrite Hm3. simpl. rewrite lookup_insert_ne by done.
        destruct (decide (q ∈ l.*1)) as [Hq|Hq]; [rewrite decide_True by set_solver|
          rewrite decide_False by set_solver]; done.
    + simpl. rewrite Ht3. by apply timer_round.
Qed.

(** *** What follows for the scheduler *)

Lemma passed_on_thread d ps ms s a s' a' q t :
  passed_on d ps ms s a s' a' → a_threads a !! q = Some t →
  ∃ t', a_threads a' !! q = Some t' ∧ if decide (q ∈ ps) then boosted d t t' else t' = t.
Proof.
  intros Hp Ht. case_decide; [by eapply po_in|].
  exists t. split; [|done]. by rewrite (po_out _ _ _ _ _ _ _ Hp).
Qed.

Lemma quiet_same (s s' : sstate T) a' :
  quiet s → rep s' a' → a_views a' = a_views (abs_of s) →
  (∀ q t, a_threads (abs_of s) !! q = Some t →
     ∃ t', a_threads a' !! q = Some t' ∧ cpu_id t' = cpu_id t) → quiet s'.
Proof.
  intros [Hr Hwf Hcur Hf] Hr' Hv Hth. pose proof (rep_abs _ _ Hr') as ->. split; [done| | |].
  - intros j v Hj. rewrite Hv in Hj. destruct (Hwf j v Hj) as [H1 H2 H3 H4]. split; try done.
    intros p Hp. destruct (H4 p Hp) as (t & Ht & Hid). destruct (Hth p t Ht) as (t' & Ht' & Hid').
    exists t'. split; [done|]. congruence.
  - intros j v Hj. rewrite Hv in Hj. by eapply Hcur.
  - intros j c Hc. pose proof (abs_view _ _ _ Hc) as Hvc. rewrite Hv in Hvc.
    apply abs_sched in Hvc as (c0 & Hc0 & Heq). apply Hf in Hc0.
    by apply (f_equal v_lock) in Heq; simpl in Heq; rewrite Heq.
Qed.

Lemma passed_on_quiet d ps ms s s' a' :
  quiet (k_sched s) → passed_on d ps ms s (abs_of (k_sched s)) s' a' → quiet (k_sched s').
Proof.
  intros Hq Hp. eapply quiet_same; [done|by eapply po_rep|by eapply po_views|].
  intros q t Ht. destruct (passed_on_thread _ _ _ _ _ _ _ q t Hp Ht) as (t' & Ht' & Hb).
  exists t'. split; [done|]. destruct (decide _); [|by subst]. by destruct Hb as [r ->].
Qed.

(** C14: changing a thread's priority by [d] changes, by the same amount, the
    priorities of exactly the threads on its chain of mutex holders and the counts
    of exactly the mutexes on it; it terminates with one level of recursion per
    holder, frees every lock it took, and moves no thread between queues. *)
Theorem thread_adjust_priority_inherits n p d s l :
  quiet (k_sched s) → holders (abs_of (k_sched s)) (mutexes s) p l →
  NoDup (p :: l.*2) → NoDup l.*1 → length l < n → (0 ≤ timer_count s < 2 ^ 16)%Z →
  ∃ s', thread_adjust_priority n p d s = Done (tt, s') ∧ quiet (k_sched s') ∧
    timer_count s' = timer_count s ∧ (∀ x, in_queues x (k_sched s') ↔ in_queues x (k_sched s)) ∧
    (∀ q t, s_threads (k_sched s) !! q = Some t → ∃ t', s_threads (k_sched s') !! q = Some t' ∧
       soft_priority (stat t') = (if decide (q ∈ p :: l.*2)
         then u32 (soft_priority (stat t) + d) else soft_priority (stat t)) ∧
       status (stat t') = status (stat t) ∧ sync_mutex t' = sync_mutex t) ∧
    (∀ m, mutexes s' !! m = if decide (m ∈ l.*1) then bumped d <$> mutexes s !! m
                            else mutexes s !! m).
Proof.
  intros Hq Hh Hnd Hndm Hn Htc.
  destruct (proj1 (wp_Done _ _ _) (wp_thread_adjust_priority l n p d s _ (qt_rep _ Hq) Hh Hnd Hndm
    Hn Htc)) as ([] & s' & Hrun & a' & Hp).
  exists s'. split; [done|]. split; [by eapply passed_on_quiet|]. split; [by eapply po_timer|].
  pose proof (po_rep _ _ _ _ _ _ _ Hp) as Hr'. pose proof (rep_abs _ _ Hr') as Ha'.
  split; [|split; [|by eapply po_mutex]].
  - intros x. unfold in_queues, queued. rewrite <-Ha'. by rewrite (po_views _ _ _ _ _ _ _ Hp).
  - intros q t Ht. destruct (passed_on_thread _ _ _ _ _ _ _ q (core t) Hp) as (t' & Ht' & Hb).
    { by apply abs_thread. }
    destruct (rep_thread _ _ q t' Hr' Ht') as (u & Hu & <-). exists u. split; [done|].
    change (stat u) with (stat (core u)). change (sync_mutex u) with (sync_mutex (core u)).
    destruct (decide (q ∈ p :: l.*2)); [destruct Hb as [r ->]|rewrite Hb]; done.
Qed.
End boosts.

(** ** A concrete chain

    Thread 600 sleeps on the mutex 9000, which thread 200 of the first processor
    holds. *)

Definition asleep (m : ptr) (t : thread_t) : thread_t :=
  on_stat (set_status SCHED_INT_SLEEP) (waiting_for m t).
Definition sleepy : sstate unit :=
  set_s_threads (<[600%Z := set_queue_next 600 (set_queue_last 600
    (asleep 9000 (demo_thread 0 7 0 0 0)))]> (s_threads demo)) demo.
Definition mutex_demo : kstate unit :=
  KState sleepy {[9000%Z := Mutex true false false 0 20 600 200]} ∅ 200 0.

Lemma rep_new_thread {T} (s : sstate T) a p t :
  rep s a → s_threads s !! p = None → p ≠ NULL →
  rep (set_s_threads (<[p := t]> (s_threads s)) s) (upd_core p (core t) a).
Proof.
  intros [] Hp Hnn. split; simpl; try done.
  - by rewrite fmap_insert, rp_threads.
  - intros i c q Hc. destruct (rp_indexed i c q Hc) as (H1 & H2 & H3).
    split; [done|]. split; [done|]. intros j e He. rewrite <-(H3 j e He).
    rewrite lookup_insert_ne; [done|]. intros ->. specialize (H3 j e He). by rewrite Hp in H3.
  - by rewrite lookup_insert_ne.
Qed.

Lemma quiet_new_thread {T} (s : sstate T) p t :
  quiet s → s_threads s !! p = None → p ≠ NULL →
  quiet (set_s_threads (<[p := t]> (s_threads s)) s).
Proof.
  intros Hq Hp Hnn. eapply quiet_same; [done|apply rep_new_thread; [apply Hq|done..]|done|].
  intros q u Hu. simpl in *. exists u. split; [|done]. rewrite lookup_insert_ne; [done|].
  intros ->. rewrite lookup_fmap, Hp in Hu. done.
Qed.

Lemma sleepy_quiet : quiet sleepy.
Proof. by apply quiet_new_thread; [apply demo_quiet|..]. Qed.

Lemma mutex_demo_holders : holders (abs_of sleepy) (mutexes mutex_demo) 600%Z [(9000, 200)]%Z.
Proof.
  eexists. split; [reflexivity|]. split; [done|]. split; [done|]. split_and!; [done..|].
  eexists. split_and!; [reflexivity|done|done|].
  eexists. split; [reflexivity|]. split; [done|]. split; [|by left].
  intros _. exists 0, (view_of (demo_sched 0 [100] [200] [100; 200] 100 15)%Z).
  split_and!; [done|done| |done]. apply elem_of_union. right. by apply elem_of_contents; left.
Qed.

Lemma thread_adjust_priority_inherits_witness :
  ∃ s', thread_adjust_priority 2 600%Z 5%Z mutex_demo = Done (tt, s') ∧
    (soft_priority ∘ stat <$> s_threads (k_sched s') !! 200%Z) = Some 25%Z.
Proof.
  destruct (thread_adjust_priority_inherits 2 600%Z 5%Z mutex_demo [(9000, 200)]%Z sleepy_quiet
    mutex_demo_holders) as (s' & Hrun & _ & _ & _ & Hth & _).
  - apply (bool_decide_unpack _). by vm_compute.
  - apply (bool_decide_unpack _). by vm_compute.
  - simpl. lia.
  - simpl. lia.
  - exists s'. split; [exact Hrun|].
    destruct (Hth 200%Z (demo_thread 0 5 0 1 2) eq_refl) as (t' & -> & Hp & _).
    simpl. by rewrite Hp.
Defined.
