(* ===== verification/MutexSpec.v ===== *)
(** * Mutexes: taking, releasing, sleeping (src/sync/sync.c)

    What the mutex operations do when they can run to the end, and where they
    cannot.  A thread is [awake] when it can be boosted without a boost being
    passed on: none of its locks is held and it does not sleep on a mutex. *)

From stdpp Require Import functions.
From S2P Require Import Prelude CircularList Thread SiftHeap ThreadHeaps Rendezvous Scheduler SchedRep SchedProofs SchedRun SchedSpec ThreadSched ThreadSpec Sync SyncSpec Inherit.

(** What the scheduler's invariant needs of the threads. *)
Definition place (t : thread_t) : Z * nat * nat :=
  (cpu_id t, affinity_heap_pos t, priority_heap_pos t).

Lemma quiet_threads {T} (s : sstate T) m :
  quiet s → (∀ p, place <$> m !! p = place <$> s_threads s !! p) → quiet (set_s_threads m s).
Proof.
  intros Hq Hm. pose proof Hq as [[] Hwf Hcur Hf].
  assert (∀ p t, s_threads s !! p = Some t → ∃ t', m !! p = Some t' ∧ place t' = place t) as Hin.
  { intros p t Ht. specialize (Hm p). rewrite Ht in Hm. by apply fmap_Some in Hm as (t' & ? & [=]);
      exists t'; split; [|unfold place; congruence]. }
  apply (quiet_same s _ (Abst (view_of <$> schedulers s) (core <$> m) (ex_var (exclusion s))));
    [done|split|done|]; simpl in *; try done.
  - intros i c q Hc. destruct (rp_indexed i c q Hc) as (H1 & H2 & H3).
    split; [done|]. split; [done|]. intros j e He. rewrite <-(H3 j e He).
    specialize (Hm e). destruct (m !! e), (s_threads s !! e); try done. simpl in *.
    injection Hm as ???. by destruct q; simpl; f_equal.
  - specialize (Hm NULL). rewrite lookup_fmap in *.
    destruct (s_threads s !! NULL); [done|]. by destruct (m !! NULL).
  - intros p t Ht. rewrite lookup_fmap in Ht. apply fmap_Some in Ht as (t0 & Ht0 & ->).
    destruct (Hin p t0 Ht0) as (t' & Ht' & Heq). exists (core t').
    rewrite lookup_fmap, Ht'. split; [done|]. by injection Heq.
Qed.

Section mutexes.
Context {T : Type}.
Implicit Types s : kstate T.

Definition awake s (p : ptr) : Prop := holders (abs_of (k_sched s)) (mutexes s) p [].

(** *** Rules *)

Lemma wp_num_lock p s m (Q : unit → kstate T → Prop) :
  mutexes s !! p = Some m → m_num_mutex m = false →
  Q tt (set_mutexes (<[p := set_m_num_mutex true m]> (mutexes s)) s) → wp (num_lock p) Q s.
Proof.
  intros Hm Hfree HQ. apply wp_bind. eapply wp_mget; [done|].
  apply wp_bind, wp_lock; [done|]. eapply wp_mupd; done.
Qed.

Lemma wp_mutex_spin_trylock p s m (Q : bool → kstate T → Prop) :
  mutexes s !! p = Some m →
  (m_mutex m = true → Q false s) →
  (m_mutex m = false → Q true (set_mutexes (<[p := set_m_mutex true m]> (mutexes s)) s)) →
  wp (mutex_spin_trylock p) Q s.
Proof.
  intros Hm Ht Hf. apply wp_bind. eapply wp_mget; [done|]. destruct (m_mutex m).
  - by apply wp_ret, Ht.
  - apply wp_bind. eapply wp_mupd; [done|]. by apply wp_ret, Hf.
Qed.

(** Boosting a thread that is awake. *)
Lemma wp_boost_awake n p d s (Q : unit → kstate T → Prop) :
  quiet (k_sched s) → awake s p → 0 < n → (0 ≤ timer_count s < 2 ^ 16)%Z →
  (∀ s', passed_on d [p] [] s (abs_of (k_sched s)) s' (abs_of (k_sched s')) → Q tt s') →
  wp (thread_adjust_priority n p d) Q s.
Proof.
  intros Hq Ha Hn Htc HQ. eapply wp_mono.
  { apply (wp_thread_adjust_priority [] n p d s _ (qt_rep _ Hq)); [exact Ha| | |simpl; lia|done].
    - apply NoDup_singleton.
    - constructor. }
  intros [] s' (a' & Hp). apply HQ. by rewrite <-(rep_abs _ _ (po_rep _ _ _ _ _ _ _ Hp)).
Qed.

Lemma passed_on_mutexes d p s a s' a' : passed_on d [p] [] s a s' a' → mutexes s' = mutexes s.
Proof. 
  intros H. apply map_eq. intros m. rewrite (po_mutex _ _ _ _ _ _ _ H).
  case_decide as Hm; [by apply not_elem_of_nil in Hm|done].
Qed.

Lemma passed_on_awake d p s s' a' :
  passed_on d [p] [] s (abs_of (k_sched s)) s' a' → awake s p → awake s' p.
Proof.
  intros Hp (t & Ht & Hl & Hh & Hw). pose proof (rep_abs _ _ (po_rep _ _ _ _ _ _ _ Hp)) as Ha'.
  destruct (po_in _ _ _ _ _ _ _ Hp p t ltac:(by left) Ht) as (t' & Ht' & r & ->).
  unfold awake. rewrite <-Ha'. eexists. split; [exact Ht'|]. split; [exact Hl|]. split; [|exact Hw].
  unfold homed in *. by rewrite (po_views _ _ _ _ _ _ _ Hp).
Qed.

(** The priority of every thread in terms of an earlier state. *)
Definition priorities (f : ptr → Z → Z) s s' : Prop :=
  ∀ q t, s_threads (k_sched s) !! q = Some t → ∃ t', s_threads (k_sched s') !! q = Some t' ∧
    soft_priority (stat t') = f q (soft_priority (stat t)) ∧ status (stat t') = status (stat t).

Lemma passed_on_priorities d p s s' a' :
  passed_on d [p] [] s (abs_of (k_sched s)) s' a' →
  priorities (λ q x, if decide (q = p) then u32 (x + d) else x) s s'.
Proof.
  intros Hp q t Ht. destruct (passed_on_thread _ _ _ _ _ _ _ q (core t) Hp) as (t' & Ht' & Hb).
  { by apply abs_thread. }
  destruct (rep_thread _ _ q t' (po_rep _ _ _ _ _ _ _ Hp) Ht') as (u & Hu & <-).
  exists u. split; [done|].
  change (stat u) with (stat (core u)). destruct (decide (q = p)) as [->|Hne].
  - rewrite decide_True in Hb by by left. by destruct Hb as [r ->].
  - rewrite decide_False in Hb by set_solver. by rewrite Hb.
Qed.

Lemma set_timer_same s : set_timer_count (timer_count s) s = s.
Proof. by destruct s. Qed.

(** *** Trying to take a mutex *)

Lemma wp_mutex_trylock n m mu s (Q : bool → kstate T → Prop) :
  quiet (k_sched s) → mutexes s !! m = Some mu → (0 ≤ timer_count s < 2 ^ 16)%Z →
  m_data_mutex mu = false → awake s (k_current s) → 0 < n →
  (m_mutex mu = true → Q false s) →
  (∀ s', m_mutex mu = false → quiet (k_sched s') → timer_count s' = timer_count s →
     k_current s' = k_current s → awake s' (k_current s) →
     mutexes s' = <[m := set_holder (k_current s) (set_m_mutex true mu)]> (mutexes s) →
     priorities (λ q x, if decide (q = k_current s) then u32 (x + s32 (pri_count mu)) else x) s s' →
     Q true s') →
  wp (mutex_trylock n m) Q s.
Proof.
  intros Hq Hm Htc Hd Ha Hn HQf HQt. unfold mutex_trylock.
  apply wp_bind, wp_modify. apply wp_bind. eapply wp_mutex_spin_trylock; [exact Hm|..].
  - intros Ht. apply wp_bind, wp_ret. apply wp_bind, wp_modify, wp_ret.
    cbn. rewrite timer_round by done. unfold set_timer_count. cbn. destruct s; by apply HQf.
  - intros Hf. apply wp_bind, wp_bind, wp_gets. cbn [k_current set_mutexes set_timer_count].
    apply wp_bind. eapply wp_data_lock; [apply lookup_insert_eq|done|].
    apply wp_bind. eapply wp_mget; [apply lookup_insert_eq|].
    apply wp_bind. eapply wp_mupd; [apply lookup_insert_eq|].
    apply wp_bind. eapply wp_mupd; [apply lookup_insert_eq|].
    match goal with |- wp _ _ ?x => set (s1 := x) end.
    assert (mutexes s1 = <[m := set_holder (k_current s) (set_m_mutex true mu)]> (mutexes s)) as Hms.
    { subst s1. cbn [mutexes set_mutexes set_timer_count with_data]. unfold with_data.
      cbn [mutexes set_mutexes set_timer_count]. rewrite !insert_insert_eq. f_equal.
      destruct mu; simpl in *; by subst. }
    eapply wp_boost_awake; [exact Hq|exact Ha|done|cbn; by apply Z.mod_pos_bound|].
    intros s' Hp. apply wp_bind, wp_modify, wp_ret. apply HQt; [done| | | | | |].
    + change (quiet (k_sched s')). by eapply (passed_on_quiet _ _ _ s1).
    + cbn [timer_count set_timer_count]. rewrite (po_timer _ _ _ _ _ _ _ Hp). by apply timer_round.
    + by apply (po_current _ _ _ _ _ _ _ Hp).
    + by apply (passed_on_awake _ _ _ _ _ Hp).
    + cbn [mutexes set_timer_count]. by rewrite (passed_on_mutexes _ _ _ _ _ _ Hp).
    + apply (passed_on_priorities _ _ _ _ _ Hp).
Qed.

(** *** Releasing one that nobody waits for *)

Lemma wp_mutex_unlock krealloc n m mu s (Q : unit → kstate T → Prop) :
  quiet (k_sched s) → mutexes s !! m = Some mu → (0 ≤ timer_count s < 2 ^ 16)%Z →
  m_data_mutex mu = false → m_num_mutex mu = false → awake s (k_current s) → 0 < n →
  m_num_spin mu = 0%Z → m_queue mu = NULL →
  (∀ s', quiet (k_sched s') → timer_count s' = timer_count s → k_current s' = k_current s →
     mutexes s' = <[m := set_m_mutex false (set_holder NULL mu)]> (mutexes s) →
     priorities (λ q x, if decide (q = k_current s) then u32 (x + s32 (- pri_count mu)) else x) s s' →
     Q tt s') →
  wp (mutex_unlock krealloc n m) Q s.
Proof.
  intros Hq Hm Htc Hd Hnm Ha Hn Hspin Hqueue HQ. unfold mutex_unlock.
  apply wp_bind, wp_gets. apply wp_bind, wp_modify.
  apply wp_bind. eapply wp_num_lock; [exact Hm|done|].
  apply wp_bind. eapply wp_mget; [apply lookup_insert_eq|]. apply wp_bind.
  match goal with |- wp _ _ ?x => set (s1 := x) end.
  eapply wp_boost_awake; [exact Hq|exact Ha|done|cbn; by apply Z.mod_pos_bound|].
  intros s2 Hp. pose proof (passed_on_mutexes _ _ _ _ _ _ Hp) as Hms.
  assert (mutexes s2 !! m = Some (set_m_num_mutex true mu)) as Hm2.
  { rewrite Hms. apply lookup_insert_eq. }
  apply wp_bind. eapply wp_mget; [exact Hm2|]. cbn [m_num_spin set_m_num_mutex]. rewrite Hspin.
  cbn [Z.eqb negb]. apply wp_bind. eapply wp_mupd; [exact Hm2|].
  apply wp_bind. eapply wp_data_lock; [apply lookup_insert_eq|done|].
  apply wp_bind. eapply wp_mget; [apply lookup_insert_eq|].
  cbn [m_queue set_m_data_mutex set_m_num_mutex]. rewrite Hqueue. cbn [Z.eqb negb NULL].
  apply wp_bind, wp_bind. eapply wp_mupd; [apply lookup_insert_eq|].
  apply wp_bind. eapply wp_mupd; [apply lookup_insert_eq|].
  eapply wp_mupd; [apply lookup_insert_eq|]. apply wp_modify. apply HQ.
  - change (quiet (k_sched s2)). by eapply (passed_on_quiet _ _ _ s1).
  - cbn [timer_count set_timer_count set_mutexes with_data]. unfold with_data.
    cbn [timer_count set_mutexes]. rewrite (po_timer _ _ _ _ _ _ _ Hp). by apply timer_round.
  - by apply (po_current _ _ _ _ _ _ _ Hp).
  - unfold with_data. cbn [mutexes set_mutexes set_timer_count]. rewrite Hms, !insert_insert_eq.
    subst s1. cbn [mutexes set_mutexes set_timer_count]. rewrite insert_insert_eq. f_equal.
    destruct mu; simpl in *; by subst.
  - apply (passed_on_priorities _ _ _ _ _ Hp).
Qed.

Lemma u32_s32 x y : u32 (x + s32 y) = u32 (x + y).
Proof.
  unfold s32, u32. destruct (_ <? _)%Z.
  - by rewrite Zplus_mod_idemp_r.
  - rewrite Z.add_sub_assoc, <-Zminus_mod_idemp_r, Z_mod_same_full, Z.sub_0_r.
    by rewrite Zplus_mod_idemp_r.
Qed.

(** [mutex_trylock] fails, without any effect, on a mutex that is taken.  On
    a free one it succeeds: the current thread becomes the holder and inherits
    the priorities of the sleeping threads, and no other thread changes its
    priority. *)
Theorem mutex_trylock_sound n m mu s :
  quiet (k_sched s) → mutexes s !! m = Some mu → (0 ≤ timer_count s < 2 ^ 16)%Z →
  m_data_mutex mu = false → awake s (k_current s) → 0 < n →
  if m_mutex mu then mutex_trylock n m s = Done (false, s)
  else ∃ s', mutex_trylock n m s = Done (true, s') ∧ quiet (k_sched s') ∧
    timer_count s' = timer_count s ∧
    mutexes s' = <[m := set_holder (k_current s) (set_m_mutex true mu)]> (mutexes s) ∧
    priorities (λ q x, if decide (q = k_current s) then u32 (x + pri_count mu) else x) s s'.
Proof.
  intros Hq Hm Htc Hd Ha Hn. destruct (m_mutex mu) eqn:Hf.
  - apply run_wp. eapply wp_mutex_trylock; [done..|intros; congruence].
  - apply wp_run. eapply wp_mutex_trylock; [done..|congruence|]. intros s' _ Hq' Ht' _ _ Hms Hpr.
    split; [done|]. split_and!; [done..|]. intros q t Ht. destruct (Hpr q t Ht) as (t' & ? & Hp & ?).
    exists t'. split_and!; [done| |done]. by rewrite <-(u32_s32 _ (pri_count mu)).
Qed.

(** Taking a free mutex and releasing it, while nobody waits for it, gives
    back the mutex and all priorities; all locks are free and the timer runs as
    before. *)
Theorem mutex_round_trip krealloc n m mu s :
  quiet (k_sched s) → mutexes s !! m = Some mu → (0 ≤ timer_count s < 2 ^ 16)%Z →
  m_data_mutex mu = false → m_num_mutex mu = false → awake s (k_current s) → 0 < n →
  m_mutex mu = false → m_num_spin mu = 0%Z → m_queue mu = NULL →
  (∀ t, s_threads (k_sched s) !! k_current s = Some t → (0 ≤ soft_priority (stat t) < 2 ^ 32)%Z) →
  ∃ s', (mutex_trylock n m ≫= λ _, mutex_unlock krealloc n m) s = Done (tt, s') ∧
    quiet (k_sched s') ∧ timer_count s' = timer_count s ∧
    mutexes s' = <[m := set_holder NULL mu]> (mutexes s) ∧ priorities (λ _ x, x) s s'.
Proof.
  intros Hq Hm Htc Hd Hnm Ha Hn Hf Hspin Hqueue Hrange. apply wp_run, wp_bind.
  eapply wp_mutex_trylock; [done..|congruence|]. intros s1 _ Hq1 Ht1 Hk1 Ha1 Hms1 Hpr1.
  set (mu1 := set_holder (k_current s) (set_m_mutex true mu)) in *.
  assert (mutexes s1 !! m = Some mu1) as Hm1 by (rewrite Hms1; apply lookup_insert_eq).
  rewrite <-Hk1 in Ha1.
  eapply wp_mutex_unlock; [done|exact Hm1|by rewrite Ht1|done..|].
  intros s2 Hq2 Ht2 _ Hms2 Hpr2. split; [done|]. split; [done|]. split; [congruence|]. split.
  - rewrite Hms2, Hms1, insert_insert_eq. f_equal. destruct mu; simpl in *; by subst.
  - intros q t Ht. destruct (Hpr1 q t Ht) as (t1 & Hu1 & Hp1 & Hs1).
    destruct (Hpr2 q t1 Hu1) as (t2 & Hu2 & Hp2 & Hs2). exists t2. split_and!; [done| |congruence].
    rewrite Hp2, Hp1. rewrite Hk1. destruct (decide (q = k_current s)) as [->|]; [|done].
    rewrite u32_s32, u32_s32. change (pri_count mu1) with (pri_count mu).
    unfold u32. rewrite Zplus_mod_idemp_l. replace (_ + _ + _)%Z with (soft_priority (stat t)) by lia.
    apply Z.mod_small. by apply Hrange.
Qed.

(** *** The queue of sleeping threads *)

(** Two stores of threads that differ in the queue links only. *)
Definition relinked (m m' : gmap ptr thread_t) : Prop :=
  ∀ p, unlinked <$> m' !! p = unlinked <$> m !! p.

Lemma relinked_lookup m m' p t :
  relinked m m' → m !! p = Some t → ∃ t', m' !! p = Some t' ∧ unlinked t' = unlinked t.
Proof.
  intros Hr Ht. specialize (Hr p). rewrite Ht in Hr. apply fmap_Some in Hr as (t' & ? & ?); eauto.
Qed.

Lemma relinked_quiet (s : sstate T) m : quiet s → relinked (s_threads s) m → quiet (set_s_threads m s).
Proof.
  intros Hq Hr. apply quiet_threads; [done|]. intros p. specialize (Hr p).
  destruct (m !! p) as [t|], (s_threads s !! p) as [t'|]; try done. simpl in *. f_equal.
  apply (inj Some) in Hr as Hu. change (place (unlinked t) = place (unlinked t')). by rewrite Hu.
Qed.

Lemma queue_only s s' l :
  clist_only thread_clist s s' l →
  s' = put_threads (s_threads (k_sched s')) s ∧
  relinked (s_threads (k_sched s)) (s_threads (k_sched s')).
Proof.
  intros [Hobs _]. split.
  - assert (put_threads ∅ s' = put_threads ∅ s) as Heq.
    { apply (Hobs _ (put_threads ∅)). split; by apply node_field_stable. }
    destruct s as [[] ? ? ? ?], s' as [[] ? ? ? ?]. unfold put_threads in *. simpl in *.
    by simplify_eq.
  - intros p. apply (Hobs _ (λ s, unlinked <$> s_threads (k_sched s) !! p)).
    split; intros x r v x'; simpl; (destruct (s_threads (k_sched x) !! r) as [u|] eqn:Hu; [|done]);
      intros [= <-]; simpl; (destruct (decide (r = p)) as [->|Hne];
        [by rewrite lookup_insert_eq, Hu|by rewrite lookup_insert_ne]).
Qed.

Lemma wp_thread_queue_insert q l p t s (Q : ptr → kstate T → Prop) :
  clist thread_clist s q l → s_threads (k_sched s) !! p = Some t → p ≠ NULL → p ∉ l →
  (∀ m, relinked (s_threads (k_sched s)) m → clist thread_clist (put_threads m s) p (p :: l) →
     Q p (put_threads m s)) →
  wp (thread_queue_insert q p) Q s.
Proof.
  intros Hl Ht Hnn Hp HQ. eapply wp_mono.
  { apply (clist_insert_spec thread_clist s q l p); try done; simpl; by rewrite Ht. }
  intros r s' (-> & Hl' & [Heq Hre]%queue_only). rewrite Heq in Hl' |- *. by apply HQ.
Qed.

(** [thread_queue_remove] takes the last thread of the queue out of it. *)
Lemma wp_thread_queue_remove q l p s (Q : ptr → kstate T → Prop) :
  clist thread_clist s q (l ++ [p]) →
  (∀ m, relinked (s_threads (k_sched s)) m →
     clist thread_clist (put_threads m s) (default NULL (head l)) l →
     Q (default NULL (head l)) (put_threads m s)) →
  wp (thread_queue_remove q) Q s.
Proof.
  intros Hl HQ. assert (fget thread_last s q = Some p) as Hlast.
  { destruct Hl as (_ & _ & _ & Hends). rewrite last_snoc in Hends.
    destruct l; simpl in *; destruct Hends as (-> & _ & ?); done. }
  apply wp_bind. eapply wp_load; [exact Hlast|]. eapply wp_mono.
  { by apply (clist_delete_mid thread_clist s q l p []). }
  simpl. intros r s' (-> & Hl' & [Heq Hre]%queue_only). rewrite Heq in Hl' |- *. by apply HQ.
Qed.

Lemma wp_tupd p (f : thread_t → thread_t) s t (Q : unit → kstate T → Prop) :
  s_threads (k_sched s) !! p = Some t →
  Q tt (put_threads (<[p := f t]> (s_threads (k_sched s))) s) → wp (tupd p f) Q s.
Proof. intros Ht HQ. apply wp_zoom. eapply wp_putopt; [by rewrite Ht|done]. Qed.

Lemma clist_threads s s' q l :
  s_threads (k_sched s') = s_threads (k_sched s) →
  clist thread_clist s q l → clist thread_clist s' q l.
Proof. intros Heq Hl. eapply clist_frame; [|exact Hl]. intros x _. simpl. by rewrite Heq. Qed.

(** Boosts leave the queues of the mutexes alone. *)
Lemma passed_on_clist d ps ms s s' a' q l :
  passed_on d ps ms s (abs_of (k_sched s)) s' a' →
  clist thread_clist s q l → clist thread_clist s' q l.
Proof.
  intros Hp Hl. eapply clist_frame; [|exact Hl]. intros x Hx.
  destruct (clist_valid _ _ _ _ x Hl Hx) as [[y Hy] _]. simpl in Hy.
  destruct (s_threads (k_sched s) !! x) as [t|] eqn:Ht; [|done].
  destruct (passed_on_thread _ _ _ _ _ _ _ x (core t) Hp) as (t' & Ht' & Hb).
  { by apply abs_thread. }
  destruct (rep_thread _ _ x t' (po_rep _ _ _ _ _ _ _ Hp) Ht') as (u & Hu & <-).
  simpl. rewrite Hu, Ht. simpl.
  change (queue_next u) with (queue_next (core u)). change (queue_last u) with (queue_last (core u)).
  destruct (decide _); [by destruct Hb as [r ->]|by rewrite Hb].
Qed.

Lemma passed_on_other d p q t s s' a' :
  passed_on d [p] [] s (abs_of (k_sched s)) s' a' → q ≠ p →
  s_threads (k_sched s) !! q = Some t →
  ∃ t', s_threads (k_sched s') !! q = Some t' ∧ core t' = core t.
Proof.
  intros Hp Hne Ht. destruct (passed_on_thread _ _ _ _ _ _ _ q (core t) Hp) as (t' & Ht' & Hb).
  { by apply abs_thread. }
  rewrite decide_False in Hb by set_solver. subst t'.
  apply (rep_thread _ _ q _ (po_rep _ _ _ _ _ _ _ Hp) Ht').
Qed.

(** *** Waking a sleeping thread *)

(** A thread asleep on a mutex whose [wait_obj] was reset cannot be boosted. *)
Lemma adjust_null_faults n p d s t :
  0 < n → s_threads (k_sched s) !! p = Some t → sync_mutex t = false →
  wait_type t = WAIT_MUTEX → RUNNABLE_STATE (status (stat t)) = false → wait_obj t = NULL →
  mutexes s !! NULL = None → thread_adjust_priority n p d s = Fault.
Proof.
  intros Hn Ht Hl Hw Hst Hobj Hnull. destruct n as [|n]; [lia|]. cbn [thread_adjust_priority].
  apply bind_out, wp_modify. apply bind_out.
  apply wp_bind. eapply wp_tget; [exact Ht|]. rewrite Hl. apply wp_bind, wp_lock; [done|].
  eapply wp_tupd; [exact Ht|]. apply bind_out. eapply wp_tupd; [apply lookup_insert_eq|].
  apply fault_bind. unfold boost_holder.
  apply bind_out. eapply wp_tget; [apply lookup_insert_eq|]. apply bind_out.
  eapply wp_tget; [apply lookup_insert_eq|].
  cbn [wait_type stat status on_stat set_stat set_sync_mutex set_soft_priority]. rewrite Hw, Hst.
  cbn [andb negb Z.eqb WAIT_MUTEX Pos.eqb]. apply bind_out.
  eapply wp_tget; [apply lookup_insert_eq|].
  cbn [wait_obj on_stat set_stat set_sync_mutex]. rewrite Hobj.
  apply fault_bind, fault_bind. unfold mget, getopt. change (mutexes (put_threads _ _)) with (mutexes s).
  by rewrite Hnull.
Qed.

Lemma wake_waiter_faults krealloc n m mu w l s tw :
  0 < n → mutexes s !! m = Some mu → m_queue mu = w → clist thread_clist s w (w :: l) →
  s_threads (k_sched s) !! w = Some tw → sync_mutex tw = false → wait_type tw = WAIT_MUTEX →
  RUNNABLE_STATE (status (stat tw)) = false → mutexes s !! NULL = None →
  wake_waiter krealloc n m w s = Fault.
Proof.
  intros Hn Hm Hq Hcl Ht Hl Hw Hst Hnull.
  assert (∃ l0 p, w :: l = l0 ++ [p]) as (l0 & p & Hsplit).
  { destruct (exists_last (l := w :: l)) as (l0 & p & Hs); [done|eauto]. }
  unfold wake_waiter. apply bind_out. eapply wp_mget; [exact Hm|]. rewrite Hq.
  apply bind_out. eapply wp_thread_queue_remove; [by rewrite <-Hsplit|].
  intros ths Hre _. destruct (relinked_lookup _ _ _ _ Hre Ht) as (tw' & Ht' & Hu).
  assert (sync_mutex tw' = false ∧ wait_type tw' = WAIT_MUTEX ∧
    RUNNABLE_STATE (status (stat tw')) = false) as (Hl' & Hw' & Hst').
  { change (sync_mutex (unlinked tw') = false ∧ wait_type (unlinked tw') = WAIT_MUTEX ∧
      RUNNABLE_STATE (status (stat (unlinked tw'))) = false). by rewrite Hu. }
  apply bind_out. eapply wp_mupd; [exact Hm|].
  apply bind_out. apply wp_bind. eapply wp_tget; [exact Ht'|]. rewrite Hl'.
  apply wp_bind, wp_lock; [done|]. eapply wp_tupd; [exact Ht'|].
  apply bind_out. eapply wp_tget; [apply lookup_insert_eq|].
  apply bind_out. eapply wp_mupd; [apply lookup_insert_eq|].
  apply bind_out. eapply wp_tupd; [apply lookup_insert_eq|].
  apply bind_out. eapply wp_mupd; [apply lookup_insert_eq|].
  apply bind_out. eapply wp_tupd; [apply lookup_insert_eq|].
  apply bind_out. eapply wp_mget; [apply lookup_insert_eq|].
  apply fault_bind. eapply adjust_null_faults; [done|apply lookup_insert_eq|done..|].
  cbn [mutexes set_mutexes put_threads set_k_sched].
  destruct (decide (m = NULL)) as [->|Hne]; [congruence|]. by rewrite !lookup_insert_ne.
Qed.

(** C35: [mutex_unlock] on a mutex that threads sleep on dereferences the null
    pointer: the thread it wakes still has the wait type of a mutex, but its
    wait object was reset just before its priority is adjusted. *)
Theorem mutex_unlock_sleeper_faults krealloc n m mu w l s tw :
  quiet (k_sched s) → mutexes s !! m = Some mu → (0 ≤ timer_count s < 2 ^ 16)%Z → 0 < n →
  m_data_mutex mu = false → m_num_mutex mu = false → awake s (k_current s) →
  m_num_spin mu = 0%Z → sleepers s mu (w :: l) → w ≠ k_current s →
  s_threads (k_sched s) !! w = Some tw → sync_mutex tw = false → wait_type tw = WAIT_MUTEX →
  RUNNABLE_STATE (status (stat tw)) = false → mutexes s !! NULL = None →
  mutex_unlock krealloc n m s = Fault.
Proof.
  intros Hq Hm Htc Hn Hd Hnm Ha Hspin Hsl Hwc Ht Hl Hw Hst Hnull.
  pose proof (clist_head _ _ _ _ _ Hsl) as Hhead.
  unfold mutex_unlock. apply bind_out, wp_gets. apply bind_out, wp_modify.
  apply bind_out. eapply wp_num_lock; [exact Hm|done|].
  apply bind_out. eapply wp_mget; [apply lookup_insert_eq|]. apply bind_out.
  match goal with |- wp _ _ ?x => set (s1 := x) end.
  eapply wp_boost_awake; [exact Hq|exact Ha|done|cbn; by apply Z.mod_pos_bound|].
  intros s2 Hp. pose proof (passed_on_mutexes _ _ _ _ _ _ Hp) as Hms.
  assert (mutexes s2 !! m = Some (set_m_num_mutex true mu)) as Hm2.
  { rewrite Hms. apply lookup_insert_eq. }
  apply bind_out. eapply wp_mget; [exact Hm2|]. cbn [m_num_spin set_m_num_mutex]. rewrite Hspin.
  cbn [Z.eqb negb]. apply bind_out. eapply wp_mupd; [exact Hm2|].
  apply bind_out. eapply wp_data_lock; [apply lookup_insert_eq|done|].
  apply bind_out. eapply wp_mget; [apply lookup_insert_eq|].
  cbn [m_queue set_m_data_mutex set_m_num_mutex]. rewrite Hhead.
  destruct (Z.eqb_spec w NULL) as [->|_]; cbn [negb].
  { destruct Hsl as (_ & _ & Hnn & _). exfalso. by apply (Hnn NULL); [left|]. }
  destruct (passed_on_other _ _ w tw s1 s2 _ Hp Hwc Ht) as (tw' & Ht' & Hc).
  assert (sync_mutex tw' = false ∧ wait_type tw' = WAIT_MUTEX ∧
    RUNNABLE_STATE (status (stat tw')) = false) as (Hl' & Hw' & Hst').
  { change (sync_mutex (core tw') = false ∧ wait_type (core tw') = WAIT_MUTEX ∧
      RUNNABLE_STATE (status (stat (core tw'))) = false). by rewrite Hc. }
  apply fault_bind. eapply (wake_waiter_faults _ _ _ _ w l); [done|apply lookup_insert_eq|done| |
    exact Ht'|done..|].
  - apply (clist_threads s2); [done|]. apply (passed_on_clist _ _ _ s1 _ _ _ _ Hp).
    apply (clist_threads s); [done|]. unfold sleepers in Hsl. by rewrite Hhead in Hsl.
  - unfold with_data. cbn [mutexes set_mutexes]. rewrite Hms. subst s1.
    cbn [mutexes set_mutexes set_timer_count].
    destruct (decide (m = NULL)) as [->|Hne]; [congruence|]. by rewrite !lookup_insert_ne.
Qed.

(** *** Going to sleep *)

(** The threads that are boosted when a thread goes to sleep on a mutex held by
    [h], whose chain of holders is [lc]; a mutex taken by an interrupt handler
    has no holder. *)
Definition boosted_by_sleep (h : ptr) (lc : list (ptr * ptr)) : list ptr :=
  if decide (h = NULL) then [] else h :: lc.*2.

Lemma boosted_by_sleep_null lc : boosted_by_sleep NULL lc = [].
Proof. unfold boosted_by_sleep. by rewrite decide_True. Qed.
Lemma boosted_by_sleep_holder h lc : h ≠ NULL → boosted_by_sleep h lc = h :: lc.*2.
Proof. intros Hh. unfold boosted_by_sleep. by rewrite decide_False. Qed.

(** The state of the thread that went to sleep. *)
Definition put_to_sleep (re : Z) (t t' : thread_t) : Prop :=
  t' = on_stat (set_status SCHED_INT_SLEEP)
    (on_stat (set_st_flags (Z.lor (st_flags (stat t)) THREAD_USE_REENTRY)) (on_stat (set_reentry re) t)).

Lemma wp_lock_sleep re n c m mu l s t (Q : unit → kstate T → Prop) :
  quiet (k_sched s) → s_threads (k_sched s) !! c = Some t → sync_mutex t = false →
  wait_obj t = m → mutexes s !! m = Some mu → m_data_mutex mu = false → sleepers s mu l →
  c ∉ l → c ≠ NULL →
  (∀ s1, quiet (k_sched s1) → timer_count s1 = timer_count s →
     mutexes s1 = <[m := set_pri_count (u32 (pri_count mu + soft_priority (stat t)))
       (set_m_queue c (set_m_num_spin (u32 (m_num_spin mu - 1)) mu))]> (mutexes s) →
     schedulers (k_sched s1) = schedulers (k_sched s) → clist thread_clist s1 c (c :: l) →
     (∃ u t', s_threads (k_sched s1) !! c = Some t' ∧ unlinked u = unlinked t ∧
        put_to_sleep re u t') →
     (∀ q, q ≠ c → unlinked <$> s_threads (k_sched s1) !! q = unlinked <$> s_threads (k_sched s) !! q) →
     wp (if negb (holder mu =? NULL)%Z
         then thread_adjust_priority n (holder mu) (s32 (soft_priority (stat t)))
         else mret tt) Q s1) →
  wp (lock_sleep re n c) Q s.
Proof.
  intros Hq Ht Hl Hm Hmu Hd Hsl Hc Hnn HQ. unfold lock_sleep.
  apply wp_bind. eapply wp_tget; [exact Ht|]. rewrite Hm.
  apply wp_bind. eapply wp_mupd; [exact Hmu|].
  apply wp_bind. eapply wp_data_lock; [apply lookup_insert_eq|done|].
  apply wp_bind. eapply wp_mget; [apply lookup_insert_eq|].
  apply wp_bind. eapply wp_thread_queue_insert; [|exact Ht|done|exact Hc|].
  { eapply clist_threads; [|exact Hsl]. done. }
  intros ths Hre Hl1. destruct (relinked_lookup _ _ _ _ Hre Ht) as (u & Hu & Heq).
  assert (sync_mutex u = false ∧ soft_priority (stat u) = soft_priority (stat t)) as [Hul Hus].
  { change (sync_mutex (unlinked u) = false ∧
      soft_priority (stat (unlinked u)) = soft_priority (stat t)). by rewrite Heq. }
  apply wp_bind. eapply wp_mupd; [apply lookup_insert_eq|].
  apply wp_bind. eapply wp_tget; [exact Hu|].
  apply wp_bind. eapply wp_mupd; [apply lookup_insert_eq|].
  apply wp_bind. eapply wp_mupd; [apply lookup_insert_eq|].
  apply wp_bind. apply wp_bind. eapply wp_tget; [exact Hu|]. rewrite Hul.
  apply wp_bind, wp_lock; [done|]. eapply wp_tupd; [exact Hu|].
  apply wp_bind. eapply wp_tupd; [apply lookup_insert_eq|].
  apply wp_bind. eapply wp_tupd; [apply lookup_insert_eq|].
  apply wp_bind. eapply wp_tupd; [apply lookup_insert_eq|].
  apply wp_bind. eapply wp_tupd; [apply lookup_insert_eq|].
  apply wp_bind. eapply wp_mget; [apply lookup_insert_eq|].
  match goal with |- wp _ _ ?x => set (s1 := x) end.
  set (t' := on_stat (set_status SCHED_INT_SLEEP)
    (on_stat (set_st_flags (Z.lor (st_flags (stat u)) THREAD_USE_REENTRY)) (on_stat (set_reentry re) u))).
  assert (s_threads (k_sched s1) = <[c := t']> ths) as Hths.
  { subst s1. cbn [s_threads k_sched put_threads set_mutexes set_k_sched set_s_threads with_data].
    unfold put_threads. cbn [s_threads k_sched set_mutexes set_k_sched set_s_threads].
    rewrite !insert_insert_eq. f_equal. subst t'. destruct u as [[] ? ? ? ? ? ? ? ? ? ? ? ? ?].
    simpl in *. by subst. }
  assert (k_sched s1 = set_s_threads (<[c := t']> ths) (k_sched s)) as Hk.
  { rewrite <-Hths. reflexivity. }
  assert (∀ q, q ≠ c →
    unlinked <$> s_threads (k_sched s1) !! q = unlinked <$> s_threads (k_sched s) !! q) as Hothers.
  { intros q Hne. rewrite Hths, lookup_insert_ne by done. apply Hre. }
  change (holder _) with (holder mu).
  enough (wp (if negb (holder mu =? NULL)%Z
    then thread_adjust_priority n (holder mu) (s32 (soft_priority (stat t))) else mret tt) Q s1) as Hend.
  { destruct (holder mu =? NULL)%Z; [exact Hend|]. apply wp_bind.
    eapply wp_tget; [rewrite Hths; apply lookup_insert_eq|].
    change (soft_priority (stat t')) with (soft_priority (stat u)). by rewrite Hus. }
  apply HQ.
  - rewrite Hk. apply quiet_threads; [done|]. intros q. rewrite <-Hths.
    destruct (decide (q = c)) as [->|Hne].
    + rewrite Hths, lookup_insert_eq, Ht. simpl. f_equal.
      change (place (unlinked u) = place (unlinked t)). by rewrite Heq.
    + specialize (Hothers q Hne).
      destruct (s_threads (k_sched s1) !! q) as [x|], (s_threads (k_sched s) !! q) as [y|]; try done.
      simpl in *. apply (inj Some) in Hothers. f_equal.
      change (place (unlinked x) = place (unlinked y)). by rewrite Hothers.
  - done.
  - subst s1. unfold with_data, put_threads. cbn [mutexes set_mutexes set_k_sched].
    rewrite !insert_insert_eq. f_equal. rewrite Hus. destruct mu; simpl in *. by subst.
  - done.
  - eapply clist_frame; [|exact Hl1]. intros x _.
    cbn [cl_next cl_last thread_clist thread_next thread_last node_field fget]. rewrite Hths.
    change (s_threads (k_sched (put_threads ths _))) with ths.
    destruct (decide (x = c)) as [->|Hne]; [by rewrite lookup_insert_eq, Hu|
      by rewrite lookup_insert_ne].
  - exists u, t'. by rewrite Hths, lookup_insert_eq.
  - done.
Qed.

Lemma unlinked_stat (m m' : gmap ptr thread_t) q x :
  unlinked <$> m' !! q = unlinked <$> m !! q → m !! q = Some x →
  ∃ y, m' !! q = Some y ∧ stat y = stat x.
Proof.
  intros Hq Hx. rewrite Hx in Hq. apply fmap_Some in Hq as (y & Hy & Heq). exists y.
  split; [done|]. change (stat (unlinked y) = stat (unlinked x)). by rewrite Heq.
Qed.

(** A chain of holders that neither the sleeping thread nor its mutex is part of
    is still there when it sleeps. *)
Lemma holders_asleep s s1 c m mu p l :
  holders (abs_of (k_sched s)) (mutexes s) p l → (c ∉ p :: l.*2) → m ∉ l.*1 →
  mutexes s1 = <[m := mu]> (mutexes s) → schedulers (k_sched s1) = schedulers (k_sched s) →
  (∀ q, q ≠ c → unlinked <$> s_threads (k_sched s1) !! q = unlinked <$> s_threads (k_sched s) !! q) →
  holders (abs_of (k_sched s1)) (mutexes s1) p l.
Proof.
  intros Hh Hc Hm Hms Hsc Hoth. eapply holders_frame; [| | |exact Hh].
  - intros q Hq. simpl. rewrite !lookup_fmap, <-!option_fmap_compose.
    specialize (Hoth q ltac:(by intros ->)).
    destruct (s_threads (k_sched s1) !! q) as [y|], (s_threads (k_sched s) !! q) as [x|];
      try done. simpl in *. apply (inj Some) in Hoth. f_equal.
    change (core (unlinked y) = core (unlinked x)). by rewrite Hoth.
  - intros q Hq. rewrite Hms, lookup_insert_ne; [done|]. by intros ->.
  - simpl. by rewrite Hsc.
Qed.

(** What a boost along a chain does to the state of any thread. *)
Lemma passed_on_stat d ps ms s s' a' q y :
  passed_on (s32 d) ps ms s (abs_of (k_sched s)) s' a' → s_threads (k_sched s) !! q = Some y →
  ∃ z, s_threads (k_sched s') !! q = Some z ∧
    status (stat z) = status (stat y) ∧ reentry (stat z) = reentry (stat y) ∧
    soft_priority (stat z) = (if decide (q ∈ ps)
      then u32 (soft_priority (stat y) + d) else soft_priority (stat y)).
Proof.
  intros Hp Hy. destruct (passed_on_thread _ _ _ _ _ _ _ q (core y) Hp) as (z' & Hz' & Hb).
  { by apply abs_thread. }
  destruct (rep_thread _ _ q z' (po_rep _ _ _ _ _ _ _ Hp) Hz') as (z & Hz & <-).
  exists z. split; [done|]. change (stat z) with (stat (core z)).
  destruct (decide (q ∈ ps)); [|by rewrite Hb].
  destruct Hb as [r ->]. split; [done|]. split; [done|]. simpl. by rewrite u32_s32.
Qed.

(** C22: putting a thread that spins on a mutex to sleep makes it the first of the
    mutex's queue, counts its priority in the mutex, unregisters it as spinning,
    and adds its priority to the holder and to the whole chain of holders behind
    it, and to no other thread; all locks are free again. *)
Theorem lock_sleep_sound re n c m mu l lc s t :
  quiet (k_sched s) → s_threads (k_sched s) !! c = Some t → sync_mutex t = false →
  wait_obj t = m → mutexes s !! m = Some mu → m_data_mutex mu = false → sleepers s mu l →
  c ∉ l → c ≠ NULL → (0 ≤ timer_count s < 2 ^ 16)%Z →
  (holder mu ≠ NULL → holders (abs_of (k_sched s)) (mutexes s) (holder mu) lc ∧
     NoDup (holder mu :: lc.*2) ∧ NoDup lc.*1 ∧ length lc < n ∧
     (c ∉ holder mu :: lc.*2) ∧ m ∉ lc.*1) →
  ∃ s', lock_sleep re n c s = Done (tt, s') ∧ quiet (k_sched s') ∧ timer_count s' = timer_count s ∧
    mutexes s' !! m = Some (set_pri_count (u32 (pri_count mu + soft_priority (stat t)))
       (set_m_queue c (set_m_num_spin (u32 (m_num_spin mu - 1)) mu))) ∧
    clist thread_clist s' c (c :: l) ∧
    (∃ t', s_threads (k_sched s') !! c = Some t' ∧ status (stat t') = SCHED_INT_SLEEP ∧
       reentry (stat t') = re ∧ soft_priority (stat t') = soft_priority (stat t)) ∧
    ∀ q u, q ≠ c → s_threads (k_sched s) !! q = Some u →
      ∃ u', s_threads (k_sched s') !! q = Some u' ∧ status (stat u') = status (stat u) ∧
        soft_priority (stat u') = (if decide (q ∈ boosted_by_sleep (holder mu) lc)
          then u32 (soft_priority (stat u) + soft_priority (stat t)) else soft_priority (stat u)).
Proof.
  intros Hq Ht Hl Hm Hmu Hd Hsl Hc Hnn Htc Hch. apply wp_run.
  eapply wp_lock_sleep; [done..|]. intros s1 Hq1 Ht1 Hms1 Hsc1 Hcl1 (u & t' & Ht' & Hu & Hput) Hoth.
  assert (status (stat t') = SCHED_INT_SLEEP ∧ reentry (stat t') = re ∧
    soft_priority (stat t') = soft_priority (stat t)) as Htf.
  { rewrite Hput. change (soft_priority (stat t)) with (soft_priority (stat (unlinked t))).
    by rewrite <-Hu. }
  destruct (Z.eqb_spec (holder mu) NULL) as [Hh|Hh]; cbn [negb].
  - apply wp_ret. rewrite Hh, boosted_by_sleep_null. split_and!; try done; [|by exists t'|].
    { rewrite Hms1. apply lookup_insert_eq. }
    intros q x Hne Hx. destruct (unlinked_stat _ _ q x (Hoth q Hne) Hx) as (y & Hy & Heq).
    exists y. split; [done|]. by rewrite Heq.
  - destruct (Hch Hh) as (Hho & Hnd & Hndm & Hn & Hcout & Hmout).
    eapply wp_mono.
    { apply (wp_thread_adjust_priority lc n _ _ s1 _ (qt_rep _ Hq1)); [|done..|by rewrite Ht1].
      by eapply holders_asleep. }
    intros [] s' (a' & Hp). 
    rewrite boosted_by_sleep_holder by done.
    split; [done|]. split; [by eapply passed_on_quiet|].
    split; [by rewrite (po_timer _ _ _ _ _ _ _ Hp)|].
    split; [rewrite (po_mutex _ _ _ _ _ _ _ Hp), decide_False, Hms1 by done;
      apply lookup_insert_eq|].
    split; [by eapply passed_on_clist|]. split.
    + destruct (passed_on_stat _ _ _ _ _ _ _ _ Hp Ht') as (z & Hz & Hs & Hre & Hso). exists z.
      rewrite decide_False in Hso by done. split; [done|]. destruct Htf as (<- & <- & <-). done.
    + intros q x Hne Hx. destruct (unlinked_stat _ _ q x (Hoth q Hne) Hx) as (y & Hy & <-).
      destruct (passed_on_stat _ _ _ _ _ _ _ _ Hp Hy) as (z & Hz & Hs & _ & Hso). by exists z.
Qed.

(** *** Taking a mutex that was contended *)

(** Resetting the wait object keeps a thread awake. *)
Lemma awake_wait_obj s s1 p t v :
  awake s p → s_threads (k_sched s) !! p = Some t →
  k_sched s1 = set_s_threads (<[p := set_wait_obj v t]> (s_threads (k_sched s))) (k_sched s) →
  awake s1 p.
Proof.
  intros (t0 & Ht0 & Hl & Hh & Hno) Ht Hk. apply abs_thread in Ht as Hct.
  assert (t0 = core t) as -> by congruence.
  exists (core (set_wait_obj v t)). rewrite Hk.
  split; [by apply abs_thread, lookup_insert_eq|]. by split; [|split].
Qed.

(** A spinning thread takes a mutex that has become free. *)
Lemma wp_mutex_lock_resume n m mu s t (Q : lock_end → kstate T → Prop) :
  quiet (k_sched s) → mutexes s !! m = Some mu → (0 ≤ timer_count s < 2 ^ 16)%Z → 0 < n →
  m_mutex mu = false → m_data_mutex mu = false → awake s (k_current s) →
  s_threads (k_sched s) !! k_current s = Some t →
  (∀ s' u, quiet (k_sched s') → k_current s' = k_current s →
     mutexes s' = <[m := set_m_num_spin (u32 (m_num_spin mu - 1))
       (set_holder (k_current s) (set_m_mutex true mu))]> (mutexes s) →
     s_threads (k_sched s') !! k_current s = Some u →
     wait_type u = wait_type t → wait_obj u = WAIT_NONE → Q Acquired s') →
  wp (mutex_lock_resume n m (k_current s)) Q s.
Proof.
  intros Hq Hm Htc Hn Hfree Hd Ha Ht HQ. unfold mutex_lock_resume.
  apply wp_bind. eapply wp_mutex_spin_trylock; [exact Hm|congruence|]. intros _. cbn [negb].
  apply wp_bind. unfold mutex_lock_finish, get_priority_boost.
  apply wp_bind. apply wp_bind. eapply wp_data_lock; [apply lookup_insert_eq|done|].
  apply wp_bind. eapply wp_mget; [apply lookup_insert_eq|].
  apply wp_bind. eapply wp_mupd; [apply lookup_insert_eq|].
  apply wp_bind. eapply wp_mupd; [apply lookup_insert_eq|].
  apply wp_bind. eapply wp_tupd; [exact Ht|].
  match goal with |- wp _ _ ?x => set (s1 := x) end.
  assert (mutexes s1 = <[m := set_holder (k_current s) (set_m_mutex true mu)]> (mutexes s)) as Hms1.
  { subst s1. unfold with_data, put_threads. cbn [mutexes set_mutexes set_k_sched].
    rewrite !insert_insert_eq. f_equal. destruct mu; simpl in *; by subst. }
  assert (k_sched s1 = set_s_threads
    (<[k_current s := set_wait_obj WAIT_NONE t]> (s_threads (k_sched s))) (k_sched s)) as Hk
    by reflexivity.
  assert (timer_count s1 = timer_count s ∧ k_current s1 = k_current s) as [Htc1 Hcur1] by done.
  clearbody s1.
  assert (s_threads (k_sched s1) !! k_current s = Some (set_wait_obj WAIT_NONE t)) as Ht1.
  { rewrite Hk. apply lookup_insert_eq. }
  assert (quiet (k_sched s1)) as Hq1.
  { rewrite Hk. apply quiet_threads; [done|]. intros q. destruct (decide (q = k_current s)) as [->|].
    - by rewrite lookup_insert_eq, Ht.
    - by rewrite lookup_insert_ne. }
  eapply wp_boost_awake; [done|by eapply awake_wait_obj|done|by rewrite Htc1|]. intros s2 Hp.
  destruct (passed_on_thread _ _ _ _ _ _ _ _ _ Hp (abs_thread _ _ _ Ht1)) as (t2 & Ht2 & Hb).
  rewrite decide_True in Hb by by left.
  destruct (rep_thread _ _ _ _ (po_rep _ _ _ _ _ _ _ Hp) Ht2) as (u & Hu & <-).
  assert (wait_type u = wait_type t ∧ wait_obj u = WAIT_NONE) as [Huw Huo].
  { change (wait_type (core u) = wait_type t ∧ wait_obj (core u) = WAIT_NONE).
    by destruct Hb as [r ->]. }
  pose proof (passed_on_mutexes _ _ _ _ _ _ Hp) as Hms2. rewrite Hms1 in Hms2.
  apply wp_bind. eapply wp_mupd; [rewrite Hms2; apply lookup_insert_eq|].
  apply wp_modify, wp_ret. apply (HQ _ u); [|by rewrite <-Hcur1; apply (po_current _ _ _ _ _ _ _ Hp)| |done..].
  - apply (passed_on_quiet _ _ _ _ _ _ Hq1 Hp).
  - cbn [mutexes set_timer_count set_mutexes]. by rewrite Hms2, insert_insert_eq.
Qed.

(** A thread that gets a mutex after spinning keeps the wait type of a mutex,
    with no wait object: at the next timer interrupt [sync_check] dereferences the
    null pointer. *)
Theorem mutex_lock_then_tick_faults re we n f m mu s t :
  quiet (k_sched s) → mutexes s !! m = Some mu → (0 ≤ timer_count s < 2 ^ 16)%Z → 0 < n → 0 < f →
  m_mutex mu = false → m_data_mutex mu = false → awake s (k_current s) →
  s_threads (k_sched s) !! k_current s = Some t → wait_type t = WAIT_MUTEX →
  mutexes s !! NULL = None →
  ∃ s', mutex_lock_resume n m (k_current s) s = Done (Acquired, s') ∧
    sync_check re we f s' = Fault.
Proof.
  intros Hq Hm Htc Hn Hf Hfree Hd Ha Ht Hw Hnull. apply wp_run.
  eapply wp_mutex_lock_resume; [done..|]. intros s' u _ Hcur Hms Hu Huw Huo. split; [done|].
  assert (m ≠ NULL) as Hmn by congruence.
  unfold sync_check. apply bind_out, wp_gets. rewrite Hcur.
  apply bind_out. eapply wp_tget; [exact Hu|]. rewrite Huw, Hw.
  cbn [Z.eqb WAIT_MUTEX WAIT_NONE Pos.eqb].
  apply bind_out. eapply wp_tget; [exact Hu|]. rewrite Huo.
  destruct f as [|f]; [lia|]. cbn [detect_deadlock]. apply fault_bind, fault_bind, fault_bind.
  unfold mget, getopt. change WAIT_NONE with NULL. by rewrite Hms, lookup_insert_ne, Hnull.
Qed.

(** [mutex_lock] on a free mutex makes whatever its uninitialised variable
    points to the holder, and boosts it. *)
Theorem mutex_lock_free_faults garbage n m mu s :
  mutexes s !! m = Some mu → m_mutex mu = false → m_data_mutex mu = false →
  s_threads (k_sched s) !! garbage = None → mutex_lock garbage n m s = Fault.
Proof.
  intros Hm Hf Hd Hg. unfold mutex_lock. apply bind_out.
  eapply wp_mutex_spin_trylock; [exact Hm|congruence|]. intros _. cbn [negb].
  apply fault_bind. unfold get_priority_boost.
  apply bind_out. eapply wp_data_lock; [apply lookup_insert_eq|done|].
  apply bind_out. eapply wp_mget; [apply lookup_insert_eq|].
  apply bind_out. eapply wp_mupd; [apply lookup_insert_eq|].
  apply bind_out. eapply wp_mupd; [apply lookup_insert_eq|].
  apply fault_bind. unfold tupd, on_sched, zoom, upd_thread, putopt.
  change (s_threads (k_sched _)) with (s_threads (k_sched s)). by rewrite Hg.
Qed.
End mutexes.

(** ** Condition variables *)

Section conditions.
Context {T : Type}.
Implicit Types s : kstate T.

Lemma wp_cget {A} p (f : cond_t → A) s c (Q : A → kstate T → Prop) :
  conds s !! p = Some c → Q (f c) s → wp (cget p f) Q s.
Proof. intros Hc HQ. apply (wp_getopt _ (f c)); [by rewrite Hc|done]. Qed.

Lemma wp_cupd p f s c (Q : unit → kstate T → Prop) :
  conds s !! p = Some c → Q tt (set_conds (<[p := f c]> (conds s)) s) → wp (cupd p f) Q s.
Proof. intros Hc HQ. eapply wp_putopt; [by rewrite Hc|done]. Qed.

Lemma wp_cnum_lock p s c (Q : unit → kstate T → Prop) :
  conds s !! p = Some c → c_num_mutex c = false →
  Q tt (set_conds (<[p := set_c_num_mutex true c]> (conds s)) s) → wp (cnum_lock p) Q s.
Proof.
  intros Hc Hfree HQ. apply wp_bind. eapply wp_cget; [done|].
  apply wp_bind, wp_lock; [done|]. eapply wp_cupd; done.
Qed.

Lemma wp_cqueue_lock p s c (Q : unit → kstate T → Prop) :
  conds s !! p = Some c → c_queue_mutex c = false →
  Q tt (set_conds (<[p := set_c_queue_mutex true c]> (conds s)) s) → wp (cqueue_lock p) Q s.
Proof.
  intros Hc Hfree HQ. apply wp_bind. eapply wp_cget; [done|].
  apply wp_bind, wp_lock; [done|]. eapply wp_cupd; done.
Qed.

(** A condition variable that is not in use and that no thread waits for. *)
Definition nobody_waits (c : cond_t) : Prop :=
  c_num_mutex c = false ∧ c_queue_mutex c = false ∧ c_num_spin c = 0%Z ∧ c_queue c = NULL.

Lemma cqueue_lock_stuck p s c :
  conds s !! p = Some c → c_queue_mutex c = true → cqueue_lock (T := T) p s = Deadlock.
Proof.
  intros Hc Hq. unfold cqueue_lock, spin_lock_on. apply bind_out.
  eapply wp_cget; [exact Hc|]. apply deadlock_bind. unfold lock. by rewrite Hq.
Qed.

(** A broadcast when no thread waits: the lock of the queue stays taken. *)
Lemma wp_broadcast_nobody krealloc f p c sp s (Q : unit → kstate T → Prop) :
  conds s !! p = Some c → (0 ≤ timer_count s < 2 ^ 16)%Z → nobody_waits c →
  Q tt (set_conds (<[p := set_c_queue_mutex true c]> (conds s)) s) →
  wp (cond_broadcast krealloc f p sp) Q s.
Proof.
  intros Hc Htc (Hn & Hq & Hspin & Hqueue) HQ.
  unfold cond_broadcast, broadcast_all. apply wp_bind, wp_modify.
  apply wp_bind. apply wp_bind. eapply wp_cnum_lock; [exact Hc|done|].
  apply wp_bind. eapply wp_cget; [apply lookup_insert_eq|].
  cbn [c_num_spin set_c_num_mutex]. rewrite Hspin. cbn [Z.to_nat release_spinners].
  apply wp_bind, wp_ret. apply wp_bind. eapply wp_cupd; [apply lookup_insert_eq|].
  apply wp_bind. eapply wp_cupd; [apply lookup_insert_eq|].
  apply wp_bind. eapply wp_cqueue_lock; [apply lookup_insert_eq|done|].
  apply wp_bind. eapply wp_cget; [apply lookup_insert_eq|].
  cbn [c_queue set_c_queue_mutex set_c_num_mutex set_c_num_spin]. rewrite Hqueue.
  cbn [Z.eqb negb NULL]. apply wp_ret, wp_modify. eapply eq_ind; [exact HQ|].
  cbn [conds set_conds set_timer_count timer_count]. rewrite timer_round by done.
  unfold set_conds, set_timer_count. cbn. rewrite !insert_insert_eq. destruct s. cbn. f_equal.
  f_equal. destruct c; simpl in *; by subst.
Qed.

(** A broadcast that needs the lock of the queue and cannot have it. *)
Lemma broadcast_stuck krealloc f p c sp s :
  conds s !! p = Some c → c_num_mutex c = false → c_num_spin c = 0%Z → c_queue_mutex c = true →
  cond_broadcast krealloc f p sp s = Deadlock.
Proof.
  intros Hc Hn Hspin Hq. unfold cond_broadcast, broadcast_all.
  apply bind_out, wp_modify. apply deadlock_bind.
  apply bind_out. eapply wp_cnum_lock; [exact Hc|done|].
  apply bind_out. eapply wp_cget; [apply lookup_insert_eq|].
  cbn [c_num_spin set_c_num_mutex]. rewrite Hspin.
  cbn [Z.to_nat release_spinners]. apply bind_out, wp_ret.
  apply bind_out. eapply wp_cupd; [apply lookup_insert_eq|].
  apply bind_out. eapply wp_cupd; [apply lookup_insert_eq|].
  apply deadlock_bind. by eapply cqueue_lock_stuck; [apply lookup_insert_eq|].
Qed.

(** A broadcast that finds no thread asleep leaves the lock of the queue
    taken; the next broadcast, or signal that finds no thread spinning, waits for
    it forever. *)
Theorem cond_broadcast_leaves_lock krealloc garbage f p c sp s :
  conds s !! p = Some c → (0 ≤ timer_count s < 2 ^ 16)%Z → nobody_waits c →
  ∃ s', cond_broadcast krealloc f p sp s = Done (tt, s') ∧
    s' = set_conds (<[p := set_c_queue_mutex true c]> (conds s)) s ∧
    cond_signal krealloc garbage p s' = Deadlock ∧
    ∀ sp', cond_broadcast krealloc f p sp' s' = Deadlock.
Proof.
  intros Hc Htc Hno. pose proof Hno as (Hn & Hq & Hspin & Hqueue).
  set (s' := set_conds (<[p := set_c_queue_mutex true c]> (conds s)) s).
  assert (conds s' !! p = Some (set_c_queue_mutex true c)) as Hc' by apply lookup_insert_eq.
  exists s'. split; [|split; [done|split]].
  - apply run_wp. by eapply wp_broadcast_nobody.
  - unfold cond_signal, signal_one. apply bind_out, wp_modify. apply deadlock_bind.
    apply bind_out. eapply wp_cnum_lock; [exact Hc'|done|].
    apply bind_out. eapply wp_cget; [apply lookup_insert_eq|].
    cbn [c_num_spin set_c_num_mutex set_c_queue_mutex]. rewrite Hspin. cbn [Z.eqb negb].
    apply bind_out. eapply wp_cupd; [apply lookup_insert_eq|].
    apply deadlock_bind. by eapply cqueue_lock_stuck; [apply lookup_insert_eq|].
  - intros sp'. by eapply broadcast_stuck.
Qed.

(** A signal that finds no thread waiting awakens whatever its uninitialised
    variable points to. *)
Theorem cond_signal_nobody_faults krealloc garbage p c s :
  conds s !! p = Some c → nobody_waits c → s_threads (k_sched s) !! garbage = None →
  cond_signal krealloc garbage p s = Fault.
Proof.
  intros Hc (Hn & Hq & Hspin & Hqueue) Hg. unfold cond_signal, signal_one.
  apply bind_out, wp_modify. apply fault_bind.
  apply bind_out. eapply wp_cnum_lock; [exact Hc|done|].
  apply bind_out. eapply wp_cget; [apply lookup_insert_eq|].
  cbn [c_num_spin set_c_num_mutex]. rewrite Hspin. cbn [Z.eqb negb].
  apply bind_out. eapply wp_cupd; [apply lookup_insert_eq|].
  apply bind_out. eapply wp_cqueue_lock; [apply lookup_insert_eq|done|].
  apply bind_out. apply wp_bind. eapply wp_cget; [apply lookup_insert_eq|].
  cbn [c_queue set_c_queue_mutex set_c_num_mutex]. rewrite Hqueue. cbn [Z.eqb negb NULL].
  apply wp_ret. apply bind_out. eapply wp_cupd; [apply lookup_insert_eq|].
  apply fault_bind, fault_bind. unfold tupd, on_sched, zoom, upd_thread, putopt.
  cbn [k_sched set_conds set_timer_count]. by rewrite Hg.
Qed.
End conditions.

(** ** Concrete systems

    [calm_demo]: thread 300 runs, mutex 9000 is free and condition variable 9100
    unused.  [spin_demo]: thread 300 spins on the mutex 9000, which is [mu]. *)

#[local] Open Scope Z_scope.

Definition calm_demo : kstate unit :=
  KState demo {[9000 := mutex_init]} {[9100 := cond_init]} 300 0.
Definition spin_threads : gmap ptr thread_t :=
  <[300 := waiting_for 9000 (demo_thread 1 30 0 1 1)]> (s_threads demo).
Definition spin_demo (mu : mutex_t) : kstate unit :=
  KState (set_s_threads spin_threads demo) {[9000 := mu]} ∅ 300 0.

Lemma spin_quiet : quiet (set_s_threads spin_threads demo).
Proof.
  apply quiet_threads; [apply demo_quiet|]. intros p. unfold spin_threads.
  destruct (decide (p = 300)) as [->|]; [done|by rewrite lookup_insert_ne].
Qed.

(** Threads 200 and 300 are queued on their processors. *)
Lemma homed_demo ths p t i c :
  schedulers demo !! i = Some c → cpu_id t = Z.of_nat i → sc_mutex c = false →
  p ∈ elems (running_queue c) ++ elems (finished_queue c) →
  homed (abs_of (set_s_threads ths demo)) p t.
Proof.
  intros Hc Hid Hl Hp _. exists i, (view_of c). split; [done|]. split; [by apply abs_view|].
  split; [|done]. simpl. rewrite elem_of_union, !elem_of_contents. by apply elem_of_app.
Qed.

Lemma calm_awake : awake calm_demo 300.
Proof.
  eexists. split; [reflexivity|]. split; [done|]. split; [|by left].
  by apply (homed_demo (s_threads demo) _ _ 1 (demo_sched 1 [300; 400] [] [300; 400] 300 50));
    [..|left].
Qed.

Lemma mutex_trylock_sound_witness :
  ∃ s', mutex_trylock 1 9000 calm_demo = Done (true, s') ∧ quiet (k_sched s').
Proof.
  destruct (mutex_trylock_sound 1 9000 mutex_init calm_demo demo_quiet eq_refl
    ltac:(simpl; lia) eq_refl calm_awake ltac:(lia)) as (s' & Hrun & Hq & _).
  exists s'. split; [exact Hrun|exact Hq].
Defined.

Lemma mutex_round_trip_witness :
  ∃ s', (mutex_trylock 1 9000 ≫= λ _, mutex_unlock big_realloc 1 9000) calm_demo = Done (tt, s') ∧
    mutexes s' = {[9000 := mutex_init]}.
Proof.
  destruct (mutex_round_trip big_realloc 1 9000 mutex_init calm_demo demo_quiet eq_refl
    ltac:(simpl; lia) eq_refl eq_refl calm_awake ltac:(lia) eq_refl eq_refl eq_refl)
    as (s' & Hrun & _ & _ & Hms & _).
  - intros t Ht. vm_compute in Ht. injection Ht as <-. simpl. lia.
  - exists s'. split; [exact Hrun|]. rewrite Hms. by vm_compute.
Defined.

Lemma mutex_unlock_sleeper_faults_witness : mutex_unlock big_realloc 1 9000 mutex_demo = Fault.
Proof.
  eapply (mutex_unlock_sleeper_faults big_realloc 1 9000 _ 600 [] mutex_demo);
    [exact sleepy_quiet|reflexivity|simpl; lia|lia|reflexivity|reflexivity| |reflexivity| |done|
     reflexivity|reflexivity|reflexivity|reflexivity|reflexivity].
  - eexists. split; [reflexivity|]. split; [done|]. split; [|by left].
    by apply (homed_demo (s_threads sleepy) _ _ 0 (demo_sched 0 [100] [200] [100; 200] 100 15));
      [..|right; left].
  - split; [done|]. split; [apply NoDup_singleton|]. split; [|done].
    by intros x ->%list_elem_of_singleton.
Defined.

Lemma lock_sleep_sound_witness :
  ∃ s', lock_sleep 77 1 300 (spin_demo (held_by 200 1)) = Done (tt, s') ∧
    clist thread_clist s' 300 [300].
Proof.
  destruct (lock_sleep_sound 77 1 300 9000 (held_by 200 1) [] [] (spin_demo (held_by 200 1))
    (waiting_for 9000 (demo_thread 1 30 0 1 1)) spin_quiet eq_refl eq_refl eq_refl eq_refl eq_refl
    (clist_empty _ _) (not_elem_of_nil _) ltac:(done) ltac:(simpl; lia))
    as (s' & Hrun & _ & _ & _ & Hcl & _).
  - intros _. split_and!; [|apply NoDup_singleton|constructor|simpl; lia|set_solver|set_solver].
    eexists. split; [reflexivity|]. split; [done|]. split; [|by left].
    by apply (homed_demo spin_threads _ _ 0 (demo_sched 0 [100] [200] [100; 200] 100 15));
      [..|right; left].
  - exists s'. split; [exact Hrun|exact Hcl].
Defined.

Lemma mutex_lock_then_tick_faults_witness :
  ∃ s', mutex_lock_resume 1 9000 300 (spin_demo mutex_init) = Done (Acquired, s') ∧
    sync_check 77 78 1 s' = Fault.
Proof.
  eapply (mutex_lock_then_tick_faults 77 78 1 1 9000 mutex_init (spin_demo mutex_init));
    [exact spin_quiet|reflexivity|simpl; lia|lia|lia|reflexivity|reflexivity| |reflexivity|
     reflexivity|reflexivity].
  eexists. split; [reflexivity|]. split; [done|]. split; [|by right].
  by apply (homed_demo spin_threads _ _ 1 (demo_sched 1 [300; 400] [] [300; 400] 300 50)); [..|left].
Defined.

Lemma mutex_lock_free_faults_witness : mutex_lock 12345 1 9000 calm_demo = Fault.
Proof. by apply (mutex_lock_free_faults 12345 1 9000 mutex_init calm_demo). Defined.

Lemma cond_broadcast_leaves_lock_witness :
  ∃ s', cond_broadcast big_realloc 1 9100 [] calm_demo = Done (tt, s') ∧
    cond_signal big_realloc 12345 9100 s' = Deadlock.
Proof.
  destruct (cond_broadcast_leaves_lock big_realloc 12345 1 9100 cond_init [] calm_demo
    eq_refl ltac:(simpl; lia) ltac:(done)) as (s' & Hrun & _ & Hsig & _).
  exists s'. split; [exact Hrun|exact Hsig].
Defined.

Lemma cond_signal_nobody_faults_witness : cond_signal big_realloc 12345 9100 calm_demo = Fault.
Proof. by apply (cond_signal_nobody_faults big_realloc 12345 9100 cond_init calm_demo). Defined.
