(* ===== verification/RwSync.v ===== *)
(** * Readers-writer locks over sync.c (src/sync/rw_lock.c, sync.c)

    The instructions of RwLock, run by one thread over the mutexes and the
    condition variables of Sync: what a broadcast that wakes nobody does to the
    lock. *)

From stdpp Require Import functions.
From S2P Require Import Prelude CircularList Thread SiftHeap ThreadHeaps Rendezvous Scheduler SchedRep SchedProofs SchedRun SchedSpec ThreadSched ThreadSpec Sync SyncSpec Inherit MutexSpec RwLock.
#[local] Open Scope Z_scope.

Section run.
Context {T : Type} (krealloc : ptr → Z → Z → Z → M T (ptr * Z)).
Context (garbage : ptr) (fuel : nat).

(** The addresses of the mutex and the condition variable of the lock, and the
    threads that a broadcast finds spinning. *)
Context (mutex cond : ptr) (spinners : list ptr).

(** The synchronization objects and the counter. *)
Definition on_sync {A} (m : M (kstate T) A) : M (kstate T * Z) A :=
  zoom fst (λ k s, (k, s.2)) m.

(** One instruction; the outcome is [Spinning] if the thread then spins in
    sync.c. *)
Definition run_instr (x : instr) : M (kstate T * Z) lock_end :=
  match x with
  | MutexLock => on_sync (mutex_lock garbage fuel mutex)
  | MutexUnlock => on_sync (mutex_unlock krealloc fuel mutex);; mret Acquired
  | CondBroadcast => on_sync (cond_broadcast krealloc fuel cond spinners);; mret Acquired
  | BroadcastIf b =>
      c ← gets snd;
      if b c then on_sync (cond_broadcast krealloc fuel cond spinners);; mret Acquired
      else mret Acquired
  | WaitWhile b =>
      loop fuel (λ _, c ← gets snd;
        if b c then
          r ← on_sync (cond_wait krealloc garbage fuel cond mutex);
          mret (match r with Acquired => Continue tt | Spinning => Break Spinning end)
        else mret (Break Acquired)) tt
  | SetCount f => modify (λ s, (s.1, f s.2));; mret Acquired
  end.

Fixpoint run_code (l : list instr) : M (kstate T * Z) lock_end :=
  match l with
  | [] => mret Acquired
  | x :: l' =>
      r ← run_instr x;
      match r with Acquired => run_code l' | Spinning => mret Spinning end
  end.

End run.

(** ** The mutex operations and the condition variables *)

Section conds.
Context {T : Type} (cs : gmap ptr cond_t).

(** They change no condition variable, and the count of the timer stays one of
    16 bits. *)
Definition same_conds (s : kstate T) : Prop := conds s = cs ∧ 0 ≤ timer_count s < 2 ^ 16.

Lemma keeps_on_sched {A} (m : M (sstate T) A) : keeps same_conds (on_sched m).
Proof. by apply keeps_zoom. Qed.

Lemma keeps_mupd p f : keeps same_conds (mupd p f).
Proof. apply keeps_putopt. intros s s' Hs. destruct (mutexes s !! p); [|done]. by intros [= <-]. Qed.

Lemma keeps_timer_disable : keeps same_conds timer_disable.
Proof.
  apply keeps_modify. intros s [Hc Ht]. split; [done|]. simpl. apply Z.mod_pos_bound. lia.
Qed.

Lemma keeps_timer_restore : keeps same_conds timer_restore.
Proof.
  apply keeps_modify. intros s [Hc Ht]. split; [done|]. simpl. apply Z.mod_pos_bound. lia.
Qed.

Lemma keeps_spin_lock get set :
  keeps same_conds get → (∀ b, keeps same_conds (set b)) → keeps same_conds (spin_lock_on get set).
Proof.
  intros Hg Hs. apply keeps_bind; [done|]. intros b. apply keeps_bind; [by apply keeps_lock|done].
Qed.

Lemma keeps_mget {A} p (f : mutex_t → A) : keeps same_conds (mget p f).
Proof. apply keeps_getopt. Qed.

Lemma keeps_store_threads (f : field (kstate T) ptr) p v :
  f = thread_next ∨ f = thread_last → keeps same_conds (store f p v).
Proof.
  intros [->| ->]; apply keeps_store; intros s s' Hs H; simpl in H;
    destruct (s_threads (k_sched s) !! p); simplify_eq/=; done.
Qed.

#[local] Hint Resolve keeps_on_sched keeps_mupd keeps_timer_disable keeps_timer_restore
  keeps_mget keeps_load : keeps.

Lemma keeps_thread_adjust n p d : keeps same_conds (thread_adjust_priority n p d).
Proof.
  revert p d. induction n as [|n IH]; intros p d; [by intros s Hs b s'|]. cbn [thread_adjust_priority].
  unfold boost_holder, apply_boost, thread_lock, thread_unlock, data_lock, data_unlock, tget, tupd.
  repeat first [apply keeps_spin_lock; [|intros ?] | apply IH | keeps_step].
Qed.

Lemma keeps_thread_restart krealloc p : keeps same_conds (thread_restart krealloc p).
Proof. unfold thread_restart, tget, tupd. keeps_steps. Qed.

Lemma keeps_queue_remove q : keeps same_conds (thread_queue_remove q).
Proof.
  unfold thread_queue_remove, clist_delete.
  repeat first [apply keeps_store_threads; by auto | keeps_step].
Qed.

#[local] Hint Resolve keeps_thread_adjust keeps_thread_restart keeps_queue_remove : keeps.

Lemma keeps_mutex_lock garbage fuel mutex : keeps same_conds (mutex_lock garbage fuel mutex).
Proof.
  unfold mutex_lock, mutex_spin_trylock, mutex_lock_finish, get_priority_boost, num_lock, num_unlock,
    data_lock, data_unlock, tget, tupd.
  repeat first [apply keeps_spin_lock; [|intros ?] | keeps_step].
Qed.

Lemma keeps_mutex_unlock krealloc fuel mutex : keeps same_conds (mutex_unlock krealloc fuel mutex).
Proof.
  unfold mutex_unlock, wake_waiter, num_lock, num_unlock, thread_lock, thread_unlock,
    data_lock, data_unlock, tget, tupd.
  repeat first [apply keeps_spin_lock; [|intros ?] | keeps_step].
Qed.
End conds.

(** ** Properties *)

Section jam.
Context {T : Type} (krealloc : ptr → Z → Z → Z → M T (ptr * Z)).
Context (garbage : ptr) (fuel : nat) (mutex cond : ptr).

Lemma wlp_on_sync {A} (m : M (kstate T) A) (Q : A → kstate T * Z → Prop) k n :
  wlp m (λ a k', Q a (k', n)) k → wlp (on_sync m) Q (k, n).
Proof.
  intros Hm a s'. unfold on_sync, zoom. simpl. destruct (m k) as [[b k']| | |] eqn:Hk; [|done..].
  intros [= <- <-]. by apply Hm.
Qed.

(** The functions that call [cond_broadcast] with the mutex held, up to there. *)
Lemma code_stuck spinners c k2 n2 k3 f b l :
  conds k2 !! cond = Some c → 0 ≤ timer_count k2 < 2 ^ 16 →
  c_num_mutex c = false → c_num_spin c = 0 → c_queue_mutex c = true →
  mutex_lock garbage fuel mutex k2 = Done (Acquired, k3) →
  b = CondBroadcast ∨ (∃ g, b = BroadcastIf g ∧ g (f n2) = true) →
  run_code krealloc garbage fuel mutex cond spinners (MutexLock :: SetCount f :: b :: l) (k2, n2) =
    Deadlock.
Proof.
  intros Hc Ht Hn Hs Hq Hl Hb.
  destruct (keeps_mutex_lock (conds k2) garbage fuel mutex k2 (conj eq_refl Ht) _ _ Hl) as [Hc3 Ht3].
  cbn [run_code run_instr]. apply bind_out. unfold wp at 1, on_sync, zoom. cbn [fst snd]. rewrite Hl.
  apply bind_out. apply wp_bind, wp_modify, wp_ret. apply deadlock_bind. cbn [fst snd].
  assert (on_sync (cond_broadcast krealloc fuel cond spinners) (k3, f n2) = Deadlock) as Hd.
  { unfold on_sync, zoom. cbn [fst]. rewrite (broadcast_stuck krealloc fuel cond c) by congruence. done. }
  destruct Hb as [->|(g & -> & Hg)]; cbn [run_instr]; [by apply deadlock_bind|].
  apply bind_out, wp_gets. cbn [snd]. rewrite Hg. by apply deadlock_bind.
Qed.

(** A write unlock that returns, when no thread waits. *)
Lemma unlock_effect spinners c k n :
  conds k !! cond = Some c → nobody_waits c → 0 ≤ timer_count k < 2 ^ 16 →
  wlp (run_code krealloc garbage fuel mutex cond spinners rw_write_unlock)
    (λ r s, r = Acquired → s.2 = 0 ∧ conds s.1 = <[cond := set_c_queue_mutex true c]> (conds k))
    (k, n).
Proof.
  intros Hc Hno Ht. cbn [rw_write_unlock run_code run_instr].
  apply wlp_bind, wlp_on_sync. eapply wlp_mono.
  { by apply (keeps_mutex_lock (conds k) garbage fuel mutex). }
  intros r k1 [Hc1 Ht1]. destruct r; [|by apply wlp_ret].
  apply wlp_bind, wlp_bind. intros [] s [= <-]. apply wlp_ret. cbn [fst snd].
  apply wlp_bind, wlp_bind, wlp_on_sync, wp_wlp.
  eapply (wp_broadcast_nobody krealloc fuel cond c); [by rewrite Hc1|done|done|].
  apply wlp_ret, wlp_bind, wlp_bind, wlp_on_sync. rewrite Hc1. eapply wlp_mono.
  { by apply (keeps_mutex_unlock (<[cond := set_c_queue_mutex true c]> (conds k)) krealloc fuel mutex). }
  intros [] k2 [Hc2 _]. by apply wlp_ret, wlp_ret.
Qed.

(** C27: once a writer has given the lock back while no thread waited for it, the
    lock is jammed: whichever thread next has a reason to broadcast (a writer
    that unlocks or downgrades, or the last reader that unlocks) gets the mutex
    and never returns, since the broadcast left the lock of the condition
    variable's queue taken. *)
Theorem rw_write_unlock_jams spinners c k n k1 n1 :
  conds k !! cond = Some c → nobody_waits c → 0 ≤ timer_count k < 2 ^ 16 →
  run_code krealloc garbage fuel mutex cond spinners rw_write_unlock (k, n) =
    Done (Acquired, (k1, n1)) →
  n1 = 0 ∧ conds k1 = <[cond := set_c_queue_mutex true c]> (conds k) ∧
  ∀ spinners' k2 n2 k3 code, conds k2 !! cond = conds k1 !! cond → 0 ≤ timer_count k2 < 2 ^ 16 →
    mutex_lock garbage fuel mutex k2 = Done (Acquired, k3) →
    code = rw_write_unlock ∨ code = rw_downgrade_lock ∨ code = rw_read_unlock ∧ n2 = 1 →
    run_code krealloc garbage fuel mutex cond spinners' code (k2, n2) = Deadlock.
Proof.
  intros Hc Hno Ht Hrun.
  assert (n1 = 0 ∧ conds k1 = <[cond := set_c_queue_mutex true c]> (conds k)) as [Hn1 Hc1].
  { apply (unlock_effect spinners c k n Hc Hno Ht _ _ Hrun eq_refl). }
  split; [done|]. split; [done|]. intros spinners' k2 n2 k3 code Hc2 Ht2 Hl Hcode.
  rewrite Hc1, lookup_insert_eq in Hc2. destruct Hno as (Hn & _ & Hs & _).
  destruct Hcode as [->|[->|[-> ->]]]; (eapply code_stuck; [exact Hc2|done..|]);
    [by left|by left|right]. by eexists.
Qed.
End jam.

(** The writer of [calm_demo] unlocks; another writer that unlocks later is
    stuck.  The uninitialised variable of [mutex_lock] points to the thread. *)
Definition jam_run (l : list instr) : M (kstate unit * Z) lock_end :=
  run_code big_realloc 300 1 9000 9100 [] l.
Definition jammed : kstate unit :=
  match jam_run rw_write_unlock (calm_demo, u32 (-1)) with Done (_, (k, _)) => k | _ => calm_demo end.
Definition jam_locked : kstate unit :=
  match mutex_lock 300 1 9000 jammed with Done (_, k) => k | _ => calm_demo end.

Lemma rw_write_unlock_jams_witness :
  run_code big_realloc 300 1 9000 9100 [] rw_write_unlock (calm_demo, u32 (-1)) =
    Done (Acquired, (jammed, 0)) ∧
  run_code big_realloc 300 1 9000 9100 [] rw_write_unlock (jammed, u32 (-1)) = Deadlock.
Proof.
  assert (run_code big_realloc 300 1 9000 9100 [] rw_write_unlock (calm_demo, u32 (-1)) =
    Done (Acquired, (jammed, 0))) as Hrun by (vm_compute; reflexivity).
  split; [exact Hrun|].
  assert (mutex_lock 300 1 9000 jammed = Done (Acquired, jam_locked)) as Hl by (vm_compute; reflexivity).
  refine (proj2 (proj2 (rw_write_unlock_jams big_realloc 300 1 9000 9100 [] cond_init calm_demo
    (u32 (-1)) jammed 0 eq_refl _ _ Hrun)) [] jammed (u32 (-1)) jam_locked rw_write_unlock eq_refl _ Hl
    (or_introl eq_refl)).
  - exact (conj eq_refl (conj eq_refl (conj eq_refl eq_refl))).
  - clear. simpl. lia.
  - vm_compute. split; [discriminate|reflexivity].
Defined.
